(* ===== verification/_CoqProject ===== *)
-Q . S2P
Prelude.v
Utf8.v
Hash.v
Crc32.v
Codec.v
Record.v
Cache.v
Index.v
Cas.v
HamtNode.v
Hamt.v
HamtTree.v
HamtProofs.v
HamtSpec.v
CasStore.v
CasStoreProofs.v
CasStoreSpec.v
Commit.v
Bfs.v
Dag.v
Repo.v
DiskStore.v
DiskStoreSpec.v
Chars.v
Lexer.v
LexerProofs.v
Text.v
BTree.v
Ast.v
Parser.v
ParserProofs.v
Grammar.v
GrammarProofs.v
Ddl.v
Value.v
Schema.v
SchemaSpec.v
PathIndex.v
IndexSpec.v
Engine.v
Reads.v
EngineSpec.v
EvalSpec.v
MatchSpec.v
PathSpec.v
RefsSpec.v
CommitSpec.v
Epx.v
Server.v
ServerSpec.v
Cli.v
CliSpec.v
InitSpec.v
Bench.v
BenchSpec.v
WorkloadSpec.v
Sql.v
SqlSpec.v
BenchMain.v
