(* ===== verification/Prelude.v ===== *)
(** * Epochs: a verification development

    Epochs is a version-controlled key-value database: a Merkle DAG of commits, each with
    the root of a persistent trie, over a content-addressed object store, with a query
    language (EpochQL), a TCP protocol (EPX) and a command line on top. This development
    models the storage engine (the crate [epochs-core]), the query language with its
    executor, schemas and indexes (the crate [epochql]), the request handling of the server
    (the crate [epochs-server]), the commands of the command line (the crate [epochs-cli])
    and the benchmark (the crate [epochs-bench]): its workload and the engines it runs on.

    ** Conventions

    A Rust integer is a [Z] with its wrap-around written out ([as_u8], [mod 2 ^ w], little
    endian bytes by [to_le] and [of_le]); a byte is a [byte]; a [String] is the [string] of
    its UTF-8 bytes. A fallible function returns an [outcome]: [Ok], [Err], [Panic], or
    [OutOfFuel] for a recursion that the model bounds. A function with [&mut self] is a
    computation [stM S E A] whose state survives an error, as in Rust. The main
    theorems on a bounded recursion give a fuel that is enough and say what the function
    returns. Three state what a run that succeeded leaves, and others when it succeeds:
    [disk_commit_durable] (with [disk_commit_snapshot]), [script_head_ok] (with
    [version_statement_refines], [commit_statement_publishes] and [fast_forward_merges]) and
    [migrate_idempotent] (with [migrate_atomic]). [version_statement_refines] and
    [query_reads_only] hold for every fuel and say what is left also without enough of it.
    A [HashMap] is a [gmap], a [BTreeMap] either a [gmap] read in key order
    ([btree_entries]) or, inside inductive data, its sorted list of entries ([BTree]). A
    [HashSet] whose iteration order reaches the result is read in a fixed order. An [f64] is
    a [spec_float] of the Standard Library.

    ** Files, in dependency order

    Shared definitions:
    - [Prelude]: bytes, integers, outcomes, the state monad, sorted map entries. [Utf8],
      [Chars], [Text], [BTree]: the parts of Rust's [str], [char], number formatting and
      [BTreeMap] that the program uses. [Bfs]: breadth-first search over a finite graph, the
      specification that the searches for paths and edges share.

    The storage engine:
    - [Hash] (hash.rs, error.rs): hashes and their hexadecimal text, errors. BLAKE3 is not
      under src/: the class [Blake3] takes a function from bytes to 32 bytes, and the
      theorems that need it assume that no two objects at hand collide.
    - [Crc32] (crc32.rs), [Codec] (codec/), [Record] (cas/record.rs), [Cache] (cache.rs),
      [Index] (cas/index.rs): checksums, byte codecs with the encoder pool, record framing,
      the bounded cache, the append-only index file.
    - [Cas] (cas/mod.rs, cas/mem.rs): the interface [CasBackend] as a class with its laws
      ([CasLaws], [CasTotal]) and the in-memory instance.
    - [HamtNode], [Hamt] (hamt/node.rs, hamt/tree.rs): the node codec and the operations of
      the trie over any [CasBackend]. [HamtTree] is the specification: a trie as an
      inductive tree and the operations on it; [HamtProofs] is the refinement, [HamtSpec]
      the resulting theorems on finite maps.
    - [CasStore] (cas/store.rs): the segment store over a model of its files: the write
      buffer of [BufWriter], segment rotation, the index, the object cache and the memory
      maps (a parameter: the class [MmapLib] for memmap2). [CasStoreProofs] shows its
      invariant and that it is a [CasLaws] instance, [CasStoreSpec] what follows, a crash
      included.
    - [Commit] (commit.rs, branch.rs), [Dag] (dag/algorithms.rs, store/dag.rs): the commit
      codec; the graph algorithms against the interface [DagStore].
    - [Repo] (repo/manifest.rs): branches and HEAD as files. A branch name is a path below
      [refs/heads], and several names may lead to one file ([ref_path], [branch_key]);
      [plain_name] are the names that are the path of their file. [DiskStore] (store/disk.rs):
      the store that ties the parts together; [DiskStoreSpec] shows its invariant, that it
      is a [DagStore], that a commit is a snapshot, and durability.

    The query language:
    - [Lexer] (lexer.rs, error.rs), [LexerProofs]: the tokenizer and its correctness.
      [Ast] (ast.rs), [Parser] (parser.rs), [ParserProofs]: the syntax, the parser, its
      totality. [Grammar] states the language as relations between token kinds and syntax,
      [GrammarProofs] that the parser accepts it. [Ddl] (schema/ddl.rs): migration files.
    - [Value] (exec/value.rs, schema/path.rs): runtime values, documents, paths. [Schema]
      (schema/registry.rs, schema/migrate.rs): the registry, its file, migrations;
      [SchemaSpec] their theorems. [PathIndex] (schema/index.rs): path indexes, with
      [IndexSpec].
    - [Engine] (exec/engine.rs): the executor, over the disk store and the schema files.
      [Reads] is a logic of computations that keep what the store means, with an instance
      for every reading operation; [EngineSpec] the abstract reading of a repository
      (visible commits, edges, hops); [EvalSpec], [MatchSpec], [PathSpec], [RefsSpec],
      [CommitSpec] the theorems on expressions, patterns, paths, the version statements and
      commits.

    The server and the command line:
    - [Epx], [Server] (epx.rs, state.rs): base64 and frames; requests, their dispatch, the
      loop of a connection. serde_json is a parameter, the class [SerdeJson]. [ServerSpec]
      has the theorems.
    - [Cli] (epochs-cli/src/main.rs, [open_or_init] of state.rs): the commands over a host,
      which has directories, repositories, a clock and a standard output. [CliSpec] has the
      theorems on [commit], [InitSpec] those on [init].

    The benchmark:
    - [Bench] (epochs-bench/src/workload.rs, engines/mod.rs, engines/epochs_eng.rs): the
      workload over any backend of the interface [VcsBench], and the epochs engine, which is
      an instance of it. [BenchSpec] has the theorems on the engine, [WorkloadSpec] those on
      the workload, proved against the laws [BenchLaws] of a backend.
    - [Sql] (engines/sqlite.rs, mysql_eng.rs, postgres_eng.rs): the engines that keep the
      commit graph in three tables. The databases are not under src/: the class [SqlTables]
      has the statements that the engines send, [SqlLaws] (in [SqlSpec]) what SQL says of
      them. [SqlSpec] shows that the engines keep their commits as snapshots and so are
      instances of [BenchLaws]; its example is a database in memory.
    - [BenchMain] (epochs-bench/src/main.rs): the run of the chosen engines.

    ** What the theorems show

    - The trie: looking up, inserting, removing and listing agree with a finite map on
      well-formed tries, tries built by insertions are canonical (sequences of insertions
      that leave equal maps, on any two stores, give equal roots), and the exception: an
      insertion that splits a leaf on equal bits of a depth, a clash, produces a trie in
      which a key is lost.
    - The object store: what is put is read back; the index, the segments and HEAD survive
      a restart; which objects a crash before [flush] damages; size and mapping bounds.
    - Commits: the codec and its limits, snapshots, durability with an fsync per commit,
      ancestors, merge bases, reachability.
    - The language: the tokenizer cuts every source into lexemes or reports an error; the
      statement and the migration parser return on every source; every sentence of the
      grammar is parsed to its tree.
    - Queries: a query changes nothing; a [MATCH] finds the bindings its patterns mean, keeps
      those for which [WHERE] is true and shows the selected columns of each; a shortest
      path is found when there is one and is shortest; an expression has a value exactly
      when its variables are bound; a [DIFF] lists each difference once.
    - Version statements: [COMMIT] publishes the map of its parent with its leaves, updates
      every index of the schema, and moves only the branch of HEAD; every version statement
      is a step of an abstract machine of tips and HEAD ([ref_step]) and those on branches
      are refused only for the stated reasons ([refused]), so HEAD names a branch
      after every script whose branch names are plain, and the exception: under another name
      HEAD's branch can be deleted; a fast-forward succeeds exactly on an ancestor.
    - Schemas: the registry reads back what it wrote; migrations run in the order of their
      names, are atomic up to a crash between their two files, idempotent when the names can
      be read back, and keep the registry well formed; a DDL statement changes nothing but
      its collection, or its indexes; updating
      an index forgets the key of the old value and maps the key of the new value to the
      primary key.
    - The server: a connection answers its requests with one response each, in order, up to
      one that it cannot answer, where it ends: no JSON, a statement that panics, a response
      too long for a frame. [get] serves the object of the hash, or an error.
    - The command line: [init] makes a repository that later commands open; the text that
      [commit --set] builds parses to exactly the statement of its pairs, whatever the
      values, and not so for every key; a plain [commit] makes the same snapshot again.
    - The benchmark: the window of the engine gives the history that the walk along the
      parents gives, as long as commits are made on the tip; the workload accepts every
      backend that keeps its commits as snapshots; the SQL engines do: a commit is its
      parent's state with its puts, or fails and changes no commit, a checkout replays it.
    - Codecs: records, nodes, index entries, frames and base64 round-trip; corruption of a
      record is detected.

    ** Conditions

    The theorems on operations that put keys into a trie (insertions, commits, indexes)
    assume that no put meets a clash: that no leaf of another key in the trie so far shares
    the five hash bits at the depth where the two meet ([root_clash], [ops_ok] along a list
    of operations). Clashes happen, and there the program loses a key
    ([hamt_insert_clash_loses_key]); the exact condition is computable from the keys. They
    also assume that no two objects have one hash ([no_collision] and the like, about the
    objects at hand), that no trie has the hash [ZERO] (it stands for the empty trie), and
    that records fit the widths of their fields. An operation of the store fails when the
    segment ids are used up ([store_full], or [cas_fault] of the interface), and the theorems
    say of each failure what is left.

    ** Fuel

    Trie operations take the height of the tree plus a constant (the 53 levels after which
    a hash has no more bits); the graph algorithms the number of edges of the part of the
    graph they walk; the search for the ends of an edge the number of visible commits times
    one more than the bound on hops, the search for a path the number of visible commits
    ([bound_of] is a fuel for all of them on a given repository); loops of the lexer take
    the number of characters, of the parser the number of tokens, of a connection the number
    of frames; the replay of an SQL engine the number of its next commit.

    ** Not modelled

    Branch names that lead out of [refs/heads] (a [..] component, an absolute name) or have a
    NUL byte: the model has no files there, and its operations on such a name return
    [OutOfFuel], which here means that the model has no answer.
    I/O errors other than a missing or short file, or a path that is a directory or has a
    file for a directory; concurrent processes on one repository
    (within the server one lock makes a request one step); the insides of serde, clap and
    tokio and the start-up of the server. Of the benchmark: the databases behind the SQL
    engines, the measured latencies and memory, and the reports that print them.
    The stack depth of the recursive parser is not bounded by the model. *)

From Stdlib Require Export ZArith Lia.
From Stdlib Require Import Strings.Byte.
From stdpp Require Export base gmap sets list strings pretty sorting.

Open Scope Z_scope.

(** ** Bytes *)

Abbreviation byte := Init.Byte.byte.

#[global] Instance byte_eq_dec : EqDecision byte := Byte.byte_eq_dec.

#[global] Program Instance byte_countable : Countable byte :=
  inj_countable Byte.to_N Byte.of_N _.
Next Obligation. intros b. apply Byte.of_to_N. Qed.

#[global] Instance byte_inhabited : Inhabited byte := populate x00.

(** The value of a [u8]. *)
Definition byte_val (b : byte) : Z := Z.of_N (Byte.to_N b).

(** The [u8] holding the low eight bits of [z] (Rust's [as u8]). *)
Definition as_u8 (z : Z) : byte :=
  default x00 (Byte.of_N (Z.to_N (z mod 256))).

Lemma byte_val_range b : 0 <= byte_val b < 256.
Proof.
  unfold byte_val. pose proof (Byte.to_N_bounded b). lia.
Qed.

Lemma byte_val_as_u8 z : byte_val (as_u8 z) = z mod 256.
Proof.
  unfold byte_val, as_u8.
  pose proof (Z.mod_pos_bound z 256 ltac:(lia)).
  destruct (Byte.of_N (Z.to_N (z mod 256))) as [b|] eqn:Hb; simpl.
  - apply Byte.to_of_N in Hb. rewrite Hb. lia.
  - apply Byte.of_N_None_iff in Hb. lia.
Qed.

Lemma as_u8_byte_val b : as_u8 (byte_val b) = b.
Proof.
  unfold as_u8. pose proof (byte_val_range b). rewrite Z.mod_small by lia.
  unfold byte_val. rewrite N2Z.id, Byte.of_to_N. done.
Qed.

#[global] Instance byte_val_inj : Inj (=) (=) byte_val.
Proof.
  intros a b E. rewrite <- (as_u8_byte_val a), <- (as_u8_byte_val b). by rewrite E.
Qed.

(** ** Little-endian integers of [n] bytes ([to_le_bytes] / [from_le_bytes]) *)

Fixpoint to_le (n : nat) (z : Z) : list byte :=
  match n with
  | O => []
  | S n => as_u8 z :: to_le n (z / 256)
  end.

Fixpoint of_le (l : list byte) : Z :=
  match l with
  | [] => 0
  | b :: l => byte_val b + 256 * of_le l
  end.

Lemma length_to_le n z : length (to_le n z) = n.
Proof. revert z; induction n as [|n IH]; intros z; cbn [to_le length]; [done|by rewrite IH]. Qed.

Lemma of_le_range l : 0 <= of_le l < 256 ^ Z.of_nat (length l).
Proof.
  induction l as [|b l IH]; simpl length; [simpl; lia|].
  rewrite Nat2Z.inj_succ, Z.pow_succ_r by lia. cbn [of_le].
  pose proof (byte_val_range b). lia.
Qed.

Lemma of_le_to_le n z : of_le (to_le n z) = z mod 256 ^ Z.of_nat n.
Proof.
  revert z; induction n as [|n IH]; intros z; cbn [to_le of_le].
  - change (256 ^ Z.of_nat 0) with 1. by rewrite Z.mod_1_r.
  - rewrite IH, byte_val_as_u8, Nat2Z.inj_succ, Z.pow_succ_r by lia.
    rewrite Z.rem_mul_r by lia. lia.
Qed.

Lemma of_le_to_le_id n z : 0 <= z < 256 ^ Z.of_nat n -> of_le (to_le n z) = z.
Proof. intros. rewrite of_le_to_le. by apply Z.mod_small. Qed.

Lemma to_le_of_le l : to_le (length l) (of_le l) = l.
Proof.
  induction l as [|b l IH]; cbn [length of_le to_le]; [done|].
  pose proof (byte_val_range b). f_equal.
  - apply (inj byte_val). rewrite byte_val_as_u8.
    rewrite (Z.mul_comm 256), Z.mod_add, Z.mod_small by lia. done.
  - replace ((byte_val b + 256 * of_le l) / 256) with (of_le l); [done|].
    rewrite (Z.mul_comm 256), Z.div_add, Z.div_small, Z.add_0_l by lia. done.
Qed.

Lemma of_le_inj l1 l2 : length l1 = length l2 -> of_le l1 = of_le l2 -> l1 = l2.
Proof. intros Hl E. by rewrite <- (to_le_of_le l1), <- (to_le_of_le l2), Hl, E. Qed.

(** The value without its [i] low bytes. *)
Lemma of_le_drop l i : of_le (drop i l) = of_le l / 256 ^ Z.of_nat i.
Proof.
  revert l. induction i as [|i IH]; intros l.
  - rewrite drop_0. change (256 ^ Z.of_nat 0) with 1. by rewrite Z.div_1_r.
  - rewrite Nat2Z.inj_succ, Z.pow_succ_r by lia. destruct l as [|b l].
    + rewrite drop_nil. cbn [of_le]. by rewrite Z.div_0_l by lia.
    + cbn [drop of_le]. rewrite IH, <- Z.div_div by lia.
      replace ((byte_val b + 256 * of_le l) / 256) with (of_le l); [done|].
      pose proof (byte_val_range b). rewrite (Z.mul_comm 256), Z.div_add, Z.div_small by lia.
      by rewrite Z.add_0_l.
Qed.

Lemma to_le_inj n z1 z2 :
  0 <= z1 < 256 ^ Z.of_nat n -> 0 <= z2 < 256 ^ Z.of_nat n ->
  to_le n z1 = to_le n z2 -> z1 = z2.
Proof.
  intros ?? E. rewrite <- (of_le_to_le_id n z1), <- (of_le_to_le_id n z2) by done.
  by rewrite E.
Qed.

(** ** Lengths as machine integers *)

Definition lenZ {A} (l : list A) : Z := Z.of_nat (length l).

Lemma lenZ_nonneg {A} (l : list A) : 0 <= lenZ l.
Proof. unfold lenZ. lia. Qed.

Lemma lenZ_app {A} (l k : list A) : lenZ (l ++ k) = lenZ l + lenZ k.
Proof. unfold lenZ. rewrite length_app. lia. Qed.

Lemma lenZ_to_le n z : lenZ (to_le n z) = Z.of_nat n.
Proof. unfold lenZ. by rewrite length_to_le. Qed.

(** ** Rust strings: the UTF-8 bytes of a [String] are the characters of a [string] *)

Definition str_bytes : string -> list byte := String.list_byte_of_string.
Definition bytes_str : list byte -> string := String.string_of_list_byte.

Lemma bytes_str_bytes s : bytes_str (str_bytes s) = s.
Proof. apply String.string_of_list_byte_of_string. Qed.

Lemma str_bytes_str l : str_bytes (bytes_str l) = l.
Proof. apply String.list_byte_of_string_of_list_byte. Qed.

#[global] Instance str_bytes_inj : Inj (=) (=) str_bytes.
Proof. intros a b E. rewrite <- (bytes_str_bytes a), E. apply bytes_str_bytes. Qed.

#[global] Instance bytes_str_inj : Inj (=) (=) bytes_str.
Proof. intros a b E. rewrite <- (str_bytes_str a), E. apply str_bytes_str. Qed.

(** ** Outcomes

    A Rust computation returns [Ok] or [Err], panics, or - for the models whose
    recursion is bounded by a fuel argument - runs out of fuel. *)

Inductive outcome (E A : Type) : Type :=
| Ok (a : A)
| Err (e : E)
| Panic
| OutOfFuel.
Arguments Ok {E A} a.
Arguments Err {E A} e.
Arguments Panic {E A}.
Arguments OutOfFuel {E A}.

#[global] Instance outcome_eq_dec {E A} `{EqDecision E, EqDecision A} :
  EqDecision (outcome E A).
Proof. solve_decision. Defined.

#[global] Instance outcome_ret {E} : MRet (outcome E) := fun A a => Ok a.
#[global] Instance outcome_bind {E} : MBind (outcome E) := fun A B f m =>
  match m with
  | Ok a => f a
  | Err e => Err e
  | Panic => Panic
  | OutOfFuel => OutOfFuel
  end.
#[global] Instance outcome_fmap {E} : FMap (outcome E) := fun A B f m =>
  match m with
  | Ok a => Ok (f a)
  | Err e => Err e
  | Panic => Panic
  | OutOfFuel => OutOfFuel
  end.

(** [Result::map_err]. *)
Definition map_err {E F A} (f : E -> F) (m : outcome E A) : outcome F A :=
  match m with
  | Ok a => Ok a
  | Err e => Err (f e)
  | Panic => Panic
  | OutOfFuel => OutOfFuel
  end.

(** [Option::ok_or]. *)
Definition ok_or {E A} (e : E) (o : option A) : outcome E A :=
  match o with Some a => Ok a | None => Err e end.

Lemma outcome_bind_Ok {E A B} (m : outcome E A) (f : A -> outcome E B) b :
  m ≫= f = Ok b <-> exists a, m = Ok a /\ f a = Ok b.
Proof. destruct m; cbn; split; naive_solver. Qed.

(** Computations over a mutable state [S]: the state survives an error, as in Rust. *)
Definition stM (S E A : Type) : Type := S -> outcome E A * S.

#[global] Instance stM_ret {S E} : MRet (stM S E) := fun A a s => (Ok a, s).
#[global] Instance stM_bind {S E} : MBind (stM S E) := fun A B f m s =>
  match m s with
  | (Ok a, s') => f a s'
  | (Err e, s') => (Err e, s')
  | (Panic, s') => (Panic, s')
  | (OutOfFuel, s') => (OutOfFuel, s')
  end.
#[global] Instance stM_fmap {S E} : FMap (stM S E) := fun A B f m =>
  m ≫= fun a => mret (f a).

Definition fail {S E A} (e : E) : stM S E A := fun s => (Err e, s).
Definition panic {S E A} : stM S E A := fun s => (Panic, s).
Definition no_fuel {S E A} : stM S E A := fun s => (OutOfFuel, s).
Definition lift {S E A} (m : outcome E A) : stM S E A := fun s => (m, s).
Definition gets {S E A} (f : S -> A) : stM S E A := fun s => (Ok (f s), s).
Definition modify {S E} (f : S -> S) : stM S E unit := fun s => (Ok tt, f s).

(** Run a computation of a component on the field of a larger state. *)
Definition zoom {S T E A} (get : S -> T) (set : T -> S -> S) (m : stM T E A) : stM S E A :=
  fun s => let '(r, t) := m (get s) in (r, set t s).

(** Change the error type of a computation ([map_err], or [?] through [From]). *)
Definition catch_err {S E F A} (f : E -> F) (m : stM S E A) : stM S F A :=
  fun s => let '(r, s') := m s in (map_err f r, s').

(** [for x in l { body }]. *)
Fixpoint for_each {S E A} (l : list A) (body : A -> stM S E unit) : stM S E unit :=
  match l with
  | [] => mret tt
  | x :: l => body x ≫= fun _ => for_each l body
  end.

(** [loop { body }] with the loop variables [a]: the body continues with [inl] or breaks
    with [inr]. *)
Fixpoint loop {S E A B} (fuel : nat) (body : A -> stM S E (A + B)) (a : A) : stM S E B :=
  match fuel with
  | O => no_fuel
  | Datatypes.S fuel => body a ≫= fun r =>
      match r with inl a' => loop fuel body a' | inr b => mret b end
  end.

Lemma stM_bind_eq {S E A B} (m : stM S E A) (f : A -> stM S E B) s :
  (m ≫= f) s =
  match m s with
  | (Ok a, s') => f a s'
  | (Err e, s') => (Err e, s')
  | (Panic, s') => (Panic, s')
  | (OutOfFuel, s') => (OutOfFuel, s')
  end.
Proof. done. Qed.

Lemma stM_bind_Ok {S E A B} (m : stM S E A) (f : A -> stM S E B) s a s' :
  m s = (Ok a, s') -> (m ≫= f) s = f a s'.
Proof. intros H. by rewrite stM_bind_eq, H. Qed.

Lemma stM_bind_Err {S E A B} (m : stM S E A) (f : A -> stM S E B) s e s' :
  m s = (Err e, s') -> (m ≫= f) s = (Err e, s').
Proof. intros H. by rewrite stM_bind_eq, H. Qed.

Lemma stM_bind_inv {S E A B} (m : stM S E A) (f : A -> stM S E B) s b s2 :
  (m ≫= f) s = (Ok b, s2) ->
  exists a s1, m s = (Ok a, s1) /\ f a s1 = (Ok b, s2).
Proof. rewrite stM_bind_eq. destruct (m s) as [[] ?]; naive_solver. Qed.

(** ** [BTreeMap<String, V>]: the entries of a map in the order of the keys *)

Definition key_le {V} (a b : string * V) : Prop := String.le a.1 b.1.

#[global] Instance key_le_dec {V} : RelDecision (@key_le V).
Proof. intros a b. unfold key_le. apply _. Defined.
#[global] Instance key_le_total {V} : Total (@key_le V).
Proof. intros a b. unfold key_le. apply String.le_total. Qed.
#[global] Instance key_le_trans {V} : Transitive (@key_le V).
Proof. intros a b c. unfold key_le. by intros ->. Qed.

Definition btree_entries {V} (m : gmap string V) : list (string * V) :=
  merge_sort key_le (map_to_list m).

Lemma btree_entries_perm {V} (m : gmap string V) : btree_entries m ≡ₚ map_to_list m.
Proof. apply merge_sort_Permutation. Qed.

Lemma btree_entries_sorted {V} (m : gmap string V) :
  StronglySorted key_le (btree_entries m).
Proof. apply (StronglySorted_merge_sort key_le). Qed.

Lemma btree_entries_elem {V} (m : gmap string V) k v :
  (k, v) ∈ btree_entries m <-> m !! k = Some v.
Proof. by rewrite btree_entries_perm, elem_of_map_to_list. Qed.

Lemma btree_entries_nodup {V} (m : gmap string V) : NoDup (btree_entries m).*1.
Proof. rewrite btree_entries_perm. apply NoDup_fst_map_to_list. Qed.

Lemma list_to_map_btree_entries {V} (m : gmap string V) :
  list_to_map (btree_entries m) = m.
Proof.
  rewrite <- (list_to_map_to_list m) at 2. apply list_to_map_proper.
  - apply btree_entries_nodup.
  - apply btree_entries_perm.
Qed.

Lemma length_btree_entries {V} (m : gmap string V) : length (btree_entries m) = size m.
Proof. by rewrite btree_entries_perm, length_map_to_list. Qed.

(** Entries sorted by key have sorted keys. *)
Lemma key_sorted_names {V} (l : list (string * V)) :
  StronglySorted key_le l -> StronglySorted String.le l.*1.
Proof.
  induction 1 as [|e l _ IH Hall]; [constructor|]. constructor; [done|].
  apply (proj2 (Forall_fmap fst (String.le e.1) l)). eapply Forall_impl; [exact Hall|]. by intros [n x].
Qed.

Lemma StronglySorted_filter {A} (R : relation A) (P : A -> Prop) `{forall x, Decision (P x)}
    (l : list A) :
  StronglySorted R l -> StronglySorted R (filter P l).
Proof.
  induction 1 as [|x l Hl IH Hx]; [constructor|]. rewrite filter_cons.
  destruct (decide (P x)); [|done]. constructor; [done|].
  rewrite Forall_forall in Hx |- *. intros y [_ Hy]%list_elem_of_filter. by apply Hx.
Qed.

Lemma filter_all {A} (P : A -> Prop) `{forall x, Decision (P x)} (l : list A) :
  Forall P l -> filter P l = l.
Proof. induction 1 as [|x l Hx _ IH]; [done|]. by rewrite filter_cons_True, IH. Qed.

Lemma filter_ext_elem {A} (P Q : A -> Prop) `{forall x, Decision (P x), forall x, Decision (Q x)}
    (l : list A) :
  (forall x, x ∈ l -> P x <-> Q x) -> filter P l = filter Q l.
Proof.
  induction l as [|x l IH]; intros HPQ; [done|]. rewrite !filter_cons.
  rewrite IH by (intros y Hy; apply HPQ; by right). specialize (HPQ x ltac:(by left)).
  destruct (decide (P x)), (decide (Q x)); tauto.
Qed.

(** ** Tactics *)

(** Destruct the scrutinee of the first [match] of the goal or of a hypothesis. *)
Ltac case_goal :=
  match goal with
  | |- context [match ?x with _ => _ end] => destruct x eqn:?
  end.

(** Step through a monadic run [m s = (Ok a, s')] in a hypothesis. *)
Ltac run_inv H :=
  repeat match type of H with
  | (_ ≫= _) _ = (Ok _, _) =>
      let a := fresh "a" in let s := fresh "s" in let E := fresh "E" in
      apply stM_bind_inv in H as (a & s & E & H)
  end.
