(* ===== verification/Utf8.v ===== *)
(** * UTF-8 validation as done by [core::str::from_utf8]

    The standard library's validator, which the commit codec, the hash parser and
    the EpochQL layer use to turn bytes into strings. *)

From S2P Require Import Prelude.

(** [core::str::Utf8Error]. *)
Record Utf8Error := mk_Utf8Error { valid_up_to : Z; error_len : option Z }.

Definition Utf8Error_to_string (e : Utf8Error) : string :=
  match error_len e with
  | Some n =>
      "invalid utf-8 sequence of " +:+ pretty n +:+ " bytes from index "
        +:+ pretty (valid_up_to e)
  | None => "incomplete utf-8 byte sequence from index " +:+ pretty (valid_up_to e)
  end.

Definition in_range (lo hi : Z) (b : byte) : bool :=
  (lo <=? byte_val b) && (byte_val b <=? hi).

Definition is_ascii (b : byte) : bool := byte_val b <? 128.
Definition is_continuation : byte -> bool := in_range 0x80 0xBF.

(** Number of bytes of the sequence a lead byte starts, 0 for an invalid lead. *)
Definition utf8_char_width (b : byte) : nat :=
  if is_ascii b then 1
  else if in_range 0xC2 0xDF b then 2
  else if in_range 0xE0 0xEF b then 3
  else if in_range 0xF0 0xF4 b then 4
  else 0.

(** Admissible second byte of a three or four byte sequence. *)
Definition second_ok (b0 b1 : byte) : bool :=
  let v := byte_val b0 in
  if v =? 0xE0 then in_range 0xA0 0xBF b1
  else if v =? 0xED then in_range 0x80 0x9F b1
  else if v =? 0xF0 then in_range 0x90 0xBF b1
  else if v =? 0xF4 then in_range 0x80 0x8F b1
  else is_continuation b1.

Fixpoint run_utf8_validation (l : list byte) (pos : Z) : option Utf8Error :=
  let bad n := Some (mk_Utf8Error pos (Some n)) in
  let eof := Some (mk_Utf8Error pos None) in
  match l with
  | [] => None
  | b0 :: r =>
      match utf8_char_width b0 with
      | 1%nat => run_utf8_validation r (pos + 1)
      | 2%nat =>
          match r with
          | [] => eof
          | b1 :: r1 => if is_continuation b1 then run_utf8_validation r1 (pos + 2) else bad 1
          end
      | 3%nat =>
          match r with
          | [] => eof
          | b1 :: r1 =>
              if second_ok b0 b1 then
                match r1 with
                | [] => eof
                | b2 :: r2 =>
                    if is_continuation b2 then run_utf8_validation r2 (pos + 3) else bad 2
                end
              else bad 1
          end
      | 4%nat =>
          match r with
          | [] => eof
          | b1 :: r1 =>
              if second_ok b0 b1 then
                match r1 with
                | [] => eof
                | b2 :: r2 =>
                    if is_continuation b2 then
                      match r2 with
                      | [] => eof
                      | b3 :: r3 =>
                          if is_continuation b3 then run_utf8_validation r3 (pos + 4)
                          else bad 3
                      end
                    else bad 2
                end
              else bad 1
          end
      | _ => bad 1
      end
  end.

(** [String::from_utf8] / [std::str::from_utf8]. *)
Definition from_utf8 (l : list byte) : outcome Utf8Error string :=
  match run_utf8_validation l 0 with
  | None => Ok (bytes_str l)
  | Some e => Err e
  end.

(** A Rust [String]: a byte sequence that is valid UTF-8. *)
Definition utf8_valid (s : string) : bool :=
  match run_utf8_validation (str_bytes s) 0 with None => true | Some _ => false end.

Lemma from_utf8_valid s : utf8_valid s = true -> from_utf8 (str_bytes s) = Ok s.
Proof.
  unfold utf8_valid, from_utf8. destruct (run_utf8_validation _ _); [done|].
  by rewrite bytes_str_bytes.
Qed.

Lemma from_utf8_Ok l s : from_utf8 l = Ok s -> l = str_bytes s /\ utf8_valid s = true.
Proof.
  unfold from_utf8, utf8_valid. destruct (run_utf8_validation l 0) eqn:E; [done|].
  intros [= <-]. by rewrite str_bytes_str, E.
Qed.

Lemma run_utf8_ascii l pos :
  Forall (fun b => is_ascii b = true) l -> run_utf8_validation l pos = None.
Proof.
  intros H. revert pos. induction H as [|b l Hb _ IH]; intros pos; [done|].
  cbn [run_utf8_validation]. unfold utf8_char_width. rewrite Hb. apply IH.
Qed.

Lemma utf8_valid_ascii s :
  Forall (fun b => is_ascii b = true) (str_bytes s) -> utf8_valid s = true.
Proof. intros H. unfold utf8_valid. by rewrite run_utf8_ascii. Qed.

(** ** [str::trim]: the characters of Unicode's White_Space, as UTF-8 bytes *)

(** The length of the whitespace character the bytes start with, 0 if they start with none. *)
Definition ws_prefix (l : list byte) : nat :=
  match byte_val <$> l with
  | 9 :: _ | 10 :: _ | 11 :: _ | 12 :: _ | 13 :: _ | 32 :: _ => 1
  | 0xC2 :: 0x85 :: _ | 0xC2 :: 0xA0 :: _ => 2
  | 0xE1 :: 0x9A :: 0x80 :: _ => 3
  | 0xE2 :: 0x80 :: b :: _ =>
      if (0x80 <=? b) && (b <=? 0x8A) || (b =? 0xA8) || (b =? 0xA9) || (b =? 0xAF) then 3 else 0
  | 0xE2 :: 0x81 :: 0x9F :: _ => 3
  | 0xE3 :: 0x80 :: 0x80 :: _ => 3
  | _ => 0
  end.

(** The same for the last character, on the reversed bytes. *)
Definition ws_suffix (r : list byte) : nat :=
  match ws_prefix (rev (take 3 r)), ws_prefix (rev (take 2 r)), ws_prefix (rev (take 1 r)) with
  | 3, _, _ => 3
  | _, 2, _ => 2
  | _, _, 1 => 1
  | _, _, _ => 0
  end%nat.

Fixpoint strip_ws (ws : list byte -> nat) (fuel : nat) (l : list byte) : list byte :=
  match fuel with
  | O => l
  | S fuel => match ws l with O => l | n => strip_ws ws fuel (drop n l) end
  end.

(** A whitespace character has at least one byte, so the length is enough fuel. *)
Definition trim_start (l : list byte) : list byte := strip_ws ws_prefix (length l) l.
Definition trim_end (l : list byte) : list byte := rev (strip_ws ws_suffix (length l) (rev l)).
Definition trim (l : list byte) : list byte := trim_end (trim_start l).

(** An ASCII byte that is not whitespace. *)
Definition ascii_graph (b : byte) : bool := (32 <? byte_val b) && (byte_val b <? 128).

Lemma ws_prefix_graph b l : ascii_graph b = true -> ws_prefix (b :: l) = 0%nat.
Proof. by destruct b. Qed.

(** No whitespace character ends in such a byte. *)
Lemma ws_suffix_graph b r : ascii_graph b = true -> ws_suffix (b :: r) = 0%nat.
Proof.
  intros Hb. unfold ws_suffix.
  assert (ws_prefix [b] ≠ 1%nat) as H1 by (by rewrite ws_prefix_graph).
  assert (forall y, ws_prefix [y; b] ≠ 2%nat) as H2.
  { intros y. destruct y; try done; by destruct b. }
  assert (forall x y, ws_prefix [x; y; b] ≠ 3%nat) as H3.
  { intros x y. destruct x; try done; destruct y; try done; by destruct b. }
  assert (forall y, ws_prefix [y; b] ≠ 3%nat) as H3'.
  { intros y. destruct y; try done; by destruct b. }
  assert (forall a c e : nat, a ≠ 3%nat -> c ≠ 2%nat -> e ≠ 1%nat ->
    match a, c, e with 3, _, _ => 3 | _, 2, _ => 2 | _, _, 1 => 1 | _, _, _ => 0 end%nat = 0%nat)
    as Hm by (by intros [|[|[|[|a]]]] [|[|[|c]]] [|[|e]]).
  apply Hm; destruct r as [|y [|x r]]; cbn [take rev app]; rewrite ?take_0; cbn [rev app]; auto;
    by rewrite ws_prefix_graph.
Qed.

Lemma trim_start_graph b l : ascii_graph b = true -> trim_start (b :: l) = b :: l.
Proof. intros Hb. unfold trim_start. cbn [length strip_ws]. by rewrite ws_prefix_graph. Qed.

Lemma trim_end_graph l b : ascii_graph b = true -> trim_end (l ++ [b]) = l ++ [b].
Proof.
  intros Hb. unfold trim_end. rewrite rev_unit, length_app, Nat.add_comm. cbn [Nat.add strip_ws length].
  rewrite ws_suffix_graph by done. by rewrite <- rev_unit, rev_involutive.
Qed.

(** A line of a file: the newline is trimmed. *)
Lemma trim_end_newline l b : ascii_graph b = true -> trim_end ((l ++ [b]) ++ [as_u8 10]) = l ++ [b].
Proof.
  intros Hb. unfold trim_end. rewrite rev_unit, length_app, Nat.add_comm. cbn [Nat.add strip_ws length].
  assert (forall r, ws_suffix (as_u8 10 :: b :: r) = 1%nat) as Hnl.
  { intros r. unfold ws_suffix. destruct r as [|x r]; cbn [take rev app]; rewrite ?take_0; cbn [rev app].
    - by destruct b.
    - assert (ws_prefix [x; b; as_u8 10] ≠ 3%nat) as H3.
      { destruct x; try done; by destruct b. }
      replace (ws_prefix [b; as_u8 10]) with 0%nat by (by rewrite ws_prefix_graph).
      change (ws_prefix [as_u8 10]) with 1%nat.
      by destruct (ws_prefix [x; b; as_u8 10]) as [|[|[|[|]]]]. }
  rewrite rev_unit, Hnl. cbn [drop]. rewrite length_app, Nat.add_comm. cbn [Nat.add strip_ws length].
  rewrite ws_suffix_graph by done. by rewrite <- rev_unit, rev_involutive.
Qed.
