(* ===== verification/Hash.v ===== *)
(** * Content hashes and errors ([epochs-core/src/hash.rs], [error.rs])

    The two Rust modules refer to each other (an error carries hashes, parsing a
    hash returns an error), so one file models both. *)

From Stdlib Require Import Strings.Byte Eqdep_dec.
From S2P Require Import Prelude Utf8.

(** ** [Hash]: 32 bytes *)

Record Hash := mk_Hash {
  as_bytes : list byte;
  as_bytes_32 : Nat.eqb (length as_bytes) 32 = true
}.

Lemma Hash_eq (h k : Hash) : as_bytes h = as_bytes k -> h = k.
Proof.
  destruct h as [a Ha], k as [b Hb]; simpl; intros <-. f_equal.
  apply (UIP_dec Bool.bool_dec).
Qed.

Lemma length_as_bytes h : length (as_bytes h) = 32%nat.
Proof. apply Nat.eqb_eq, as_bytes_32. Qed.

#[global] Instance Hash_eq_dec : EqDecision Hash.
Proof.
  intros h k. destruct (decide (as_bytes h = as_bytes k)) as [E|E].
  - left. by apply Hash_eq.
  - right. by intros ->.
Defined.

(** The contents of a [[u8; 32]] array filled from a slice. *)
Definition array32 (l : list byte) : list byte := take 32 (l ++ replicate 32 x00).

Lemma array32_length l : Nat.eqb (length (array32 l)) 32 = true.
Proof.
  apply Nat.eqb_eq. unfold array32.
  rewrite length_take, length_app, length_replicate. lia.
Qed.

Lemma array32_id l : length l = 32%nat -> array32 l = l.
Proof. intros H. unfold array32. by apply take_app_length'. Qed.

(** [Hash::from_bytes]. *)
Definition from_bytes (bytes : list byte) : Hash :=
  mk_Hash (array32 bytes) (array32_length bytes).

Lemma from_bytes_as_bytes h : from_bytes (as_bytes h) = h.
Proof. apply Hash_eq. simpl. apply array32_id, length_as_bytes. Qed.

Lemma as_bytes_from_bytes l : length l = 32%nat -> as_bytes (from_bytes l) = l.
Proof. apply array32_id. Qed.

#[global] Program Instance Hash_countable : Countable Hash :=
  inj_countable' as_bytes from_bytes _.
Next Obligation. intros h. apply from_bytes_as_bytes. Qed.

(** [Hash::ZERO]. *)
Definition ZERO : Hash := from_bytes (replicate 32 x00).

(** The BLAKE3 hash function of the [blake3] crate, which the model takes as a
    parameter: [Hash::of_bytes] is its 32-byte output. Both branches of the Rust
    function (the parallel hasher and the plain one) compute this value. *)
Class Blake3 := blake3_hash : list byte -> list byte.

Definition of_bytes `{Blake3} (bytes : list byte) : Hash := from_bytes (blake3_hash bytes).

(** ** Hexadecimal text *)

Definition hex_digit (n : Z) : byte :=
  if n <? 10 then as_u8 (48 + n) else as_u8 (87 + n).

Definition hex_byte (b : byte) : list byte :=
  [hex_digit (byte_val b / 16); hex_digit (byte_val b mod 16)].

(** [impl Display for Hash]. *)
Definition to_string (h : Hash) : string := bytes_str (as_bytes h ≫= hex_byte).

(** ** [EpochsError] and [StorageError] *)

Inductive StorageError :=
| HashMismatch (expected computed : Hash)
| NotFound (h : Hash)
| CrcMismatch
| Corrupt (msg : string).

Inductive EpochsError :=
| CommitNotFound (h : Hash)
| BranchNotFound (name : string)
| BranchExists (name : string)
| InvalidTarget (t : string)
| Storage (e : StorageError)
| Codec (msg : string)
| InvalidCommit (msg : string)
| Io (msg : string).

#[global] Instance StorageError_eq_dec : EqDecision StorageError.
Proof. solve_decision. Defined.
#[global] Instance EpochsError_eq_dec : EqDecision EpochsError.
Proof. solve_decision. Defined.

(** [type Result<T> = std::result::Result<T, EpochsError>]. *)
Abbreviation Result := (outcome EpochsError).

Definition StorageError_to_string (e : StorageError) : string :=
  match e with
  | HashMismatch expected computed =>
      "hash mismatch: expected " +:+ to_string expected +:+ ", computed "
        +:+ to_string computed
  | NotFound h => "object not found: " +:+ to_string h
  | CrcMismatch => "crc mismatch"
  | Corrupt msg => "corrupt record: " +:+ msg
  end.

Definition EpochsError_to_string (e : EpochsError) : string :=
  match e with
  | CommitNotFound h => "commit not found: " +:+ to_string h
  | BranchNotFound name => "branch not found: " +:+ name
  | BranchExists name => "branch already exists: " +:+ name
  | InvalidTarget t => "invalid checkout target: " +:+ t
  | Storage e => "storage error: " +:+ StorageError_to_string e
  | Codec msg => "codec error: " +:+ msg
  | InvalidCommit msg => "invalid commit: " +:+ msg
  | Io msg => "io error: " +:+ msg
  end.

(** ** Parsing ([Hash::from_hex]) *)

(** [char::to_digit(16)]. *)
Definition to_digit16 (b : byte) : option Z :=
  let v := byte_val b in
  if (48 <=? v) && (v <=? 57) then Some (v - 48)
  else if (97 <=? v) && (v <=? 102) then Some (v - 87)
  else if (65 <=? v) && (v <=? 70) then Some (v - 55)
  else None.

Definition invalid_digit : string := "invalid digit found in string".

Fixpoint radix16_digits (l : list byte) (acc : Z) : outcome string byte :=
  match l with
  | [] => Ok (as_u8 acc)
  | b :: l =>
      match to_digit16 b with
      | None => Err invalid_digit
      | Some d =>
          if 255 <? acc * 16 + d then Err "number too large to fit in target type"
          else radix16_digits l (acc * 16 + d)
      end
  end.

(** [u8::from_str_radix(_, 16)]: one leading plus sign is accepted. *)
Definition u8_from_str_radix16 (l : list byte) : outcome string byte :=
  match l with
  | [] => Err "cannot parse integer from empty string"
  | [b] => if decide (b = "+"%byte) then Err invalid_digit else radix16_digits l 0
  | b :: r => if decide (b = "+"%byte) then radix16_digits r 0 else radix16_digits l 0
  end.

(** One iteration of the loop of [from_hex]. *)
Definition hex_pair (chunk : list byte) : Result byte :=
  s ← map_err (fun e => InvalidTarget ("invalid hex encoding: " +:+ Utf8Error_to_string e))
        (from_utf8 chunk);
  map_err (fun e => InvalidTarget ("invalid hex digit: " +:+ e))
    (u8_from_str_radix16 (str_bytes s)).

(** The loop over [s.as_bytes().chunks(2)]. *)
Fixpoint hex_pairs (l : list byte) : Result (list byte) :=
  match l with
  | [] => Ok []
  | [a] => b ← hex_pair [a]; Ok [b]
  | a :: b :: l => x ← hex_pair [a; b]; xs ← hex_pairs l; Ok (x :: xs)
  end.

Definition from_hex (s : string) : Result Hash :=
  let n := lenZ (str_bytes s) in
  if negb (n =? 64) then
    Err (InvalidTarget ("hash must be 64 hex characters, got " +:+ pretty n))
  else bytes ← hex_pairs (str_bytes s); Ok (from_bytes bytes).

(** ** Lemmas *)

Lemma to_digit16_hex_digit n : 0 <= n < 16 -> to_digit16 (hex_digit n) = Some n.
Proof.
  intros H. assert (n ∈ seqZ 0 16) as Hin by (apply elem_of_seqZ; lia).
  clear H. revert n Hin. apply Forall_forall. repeat constructor.
Qed.

Lemma hex_pair_hex_byte b : hex_pair (hex_byte b) = Ok b.
Proof. by destruct b. Qed.

Lemma hex_pairs_hex l : hex_pairs (l ≫= hex_byte) = Ok l.
Proof.
  induction l as [|b l IH]; [done|].
  change ((b :: l) ≫= hex_byte) with (hex_byte b ++ (l ≫= hex_byte)).
  unfold hex_byte at 1. cbn [app hex_pairs].
  change [hex_digit (byte_val b / 16); hex_digit (byte_val b mod 16)] with (hex_byte b).
  rewrite hex_pair_hex_byte. cbn. by rewrite IH.
Qed.

Lemma length_hex l : length (l ≫= hex_byte) = (2 * length l)%nat.
Proof.
  induction l as [|b l IH]; [done|].
  change ((b :: l) ≫= hex_byte) with (hex_byte b ++ (l ≫= hex_byte)).
  rewrite length_app, IH. simpl. lia.
Qed.

Lemma str_bytes_to_string h : str_bytes (to_string h) = as_bytes h ≫= hex_byte.
Proof. apply str_bytes_str. Qed.

Lemma hex_pairs_length l bs : hex_pairs l = Ok bs -> length bs = Nat.div2 (S (length l)).
Proof.
  revert bs. induction l as [l IH] using (induction_ltof1 _ (@length byte)).
  destruct l as [|a [|b l]]; intros bs; cbn [hex_pairs].
  - by intros [= <-].
  - intros (x & _ & [= <-])%outcome_bind_Ok. done.
  - intros (x & _ & (xs & Hxs & [= <-])%outcome_bind_Ok)%outcome_bind_Ok.
    apply IH in Hxs; [|unfold ltof; simpl; lia]. cbn [length]. by rewrite Hxs.
Qed.

(** Lowercase of an ASCII byte ([to_ascii_lowercase]). *)
Definition lower_byte (b : byte) : byte :=
  if (65 <=? byte_val b) && (byte_val b <=? 90) then as_u8 (byte_val b + 32) else b.

Definition to_ascii_lowercase (s : string) : string :=
  bytes_str (lower_byte <$> str_bytes s).

Lemma hex_digit_to_digit16 b d : to_digit16 b = Some d -> hex_digit d = lower_byte b.
Proof. destruct b; intros [= <-]; vm_compute; done. Qed.

Lemma to_digit16_range b d : to_digit16 b = Some d -> 0 <= d < 16.
Proof. destruct b; intros [= <-]; vm_compute; intuition congruence. Qed.

Lemma hex_pair_Ok a b x :
  a ≠ "+"%byte -> hex_pair [a; b] = Ok x -> hex_byte x = [lower_byte a; lower_byte b].
Proof.
  intros Ha. unfold hex_pair.
  intros (s & Hs & Hx)%outcome_bind_Ok.
  destruct (from_utf8 [a; b]) as [s'| | |] eqn:Hu; try done. simpl in Hs. injection Hs as ->.
  apply from_utf8_Ok in Hu as [Hu _]. rewrite <- Hu in Hx.
  unfold u8_from_str_radix16 in Hx. rewrite decide_False in Hx by done.
  cbn [radix16_digits] in Hx.
  destruct (to_digit16 a) as [da|] eqn:Ea; [|done].
  pose proof (to_digit16_range _ _ Ea).
  destruct (Z.ltb_spec 255 (0 * 16 + da)); [lia|]. cbn [radix16_digits] in Hx.
  destruct (to_digit16 b) as [db|] eqn:Eb; [|done].
  pose proof (to_digit16_range _ _ Eb).
  destruct (Z.ltb_spec 255 ((0 * 16 + da) * 16 + db)); [lia|].
  injection Hx as <-. unfold hex_byte. rewrite byte_val_as_u8, Z.mod_small by lia.
  rewrite <- (hex_digit_to_digit16 _ _ Ea), <- (hex_digit_to_digit16 _ _ Eb).
  f_equal; [|f_equal]; f_equal; Z.div_mod_to_equations; lia.
Qed.

Lemma hex_pairs_Ok l bs :
  Nat.even (length l) = true -> "+"%byte ∉ l -> hex_pairs l = Ok bs ->
  bs ≫= hex_byte = lower_byte <$> l.
Proof.
  revert bs. induction l as [l IH] using (induction_ltof1 _ (@length byte)).
  destruct l as [|a [|b l]]; intros bs Hev Hp; cbn [hex_pairs]; [by intros [= <-]|done|].
  intros (x & Hx & (xs & Hxs & [= <-])%outcome_bind_Ok)%outcome_bind_Ok.
  apply IH in Hxs; [|unfold ltof; simpl; lia|done|set_solver].
  apply hex_pair_Ok in Hx; [|set_solver].
  change ((x :: xs) ≫= hex_byte) with (hex_byte x ++ (xs ≫= hex_byte)).
  by rewrite Hx, Hxs.
Qed.

Lemma from_hex_to_string h : from_hex (to_string h) = Ok h.
Proof.
  unfold from_hex. rewrite str_bytes_to_string. unfold lenZ.
  rewrite length_hex, length_as_bytes. cbn [negb Z.eqb].
  change (negb (Z.of_nat (2 * 32) =? 64)) with false. cbv iota.
  rewrite hex_pairs_hex. cbn. by rewrite from_bytes_as_bytes.
Qed.

#[global] Instance to_string_inj : Inj (=) (=) to_string.
Proof.
  intros h k E. pose proof (from_hex_to_string h) as Hh.
  rewrite E, from_hex_to_string in Hh. by injection Hh as ->.
Qed.

(** ** Properties *)

(** Printing a hash and parsing the text gives the hash back, so printing is injective. *)
Theorem hash_roundtrip_hex (h k : Hash) :
  from_hex (to_string h) = Ok h /\ (to_string h = to_string k -> h = k).
Proof. split; [apply from_hex_to_string|apply (inj to_string)]. Qed.

(** What [from_hex] accepts: exactly 64 bytes and, when no plus sign occurs in the
    text, the lowercase form of the text is the printed form of the hash. *)
Theorem from_hex_sound (s : string) (h : Hash) :
  from_hex s = Ok h ->
  length (str_bytes s) = 64%nat /\
  ("+"%byte ∉ str_bytes s -> to_string h = to_ascii_lowercase s).
Proof.
  unfold from_hex. destruct (Z.eqb_spec (lenZ (str_bytes s)) 64) as [Hn|]; [|done].
  simpl. intros (bs & Hbs & [= <-])%outcome_bind_Ok. unfold lenZ in Hn.
  split; [lia|]. intros Hp.
  pose proof (hex_pairs_length _ _ Hbs) as Hlen.
  assert (length (str_bytes s) = 64%nat) as Hs by lia. rewrite Hs in Hlen. simpl in Hlen.
  unfold to_string, to_ascii_lowercase. f_equal.
  rewrite as_bytes_from_bytes by done. apply hex_pairs_Ok; [by rewrite Hs|done..].
Qed.
