(* ===== verification/Crc32.v ===== *)
(** * IEEE CRC32 ([epochs-core/src/crc32.rs])

    The table-driven checksum of the [.epl] records, the bit-at-a-time register it
    optimises, and the corruptions it is certain to detect. *)

From S2P Require Import Prelude.

(** ** The program *)

(** One iteration of the inner loop that fills [TABLE]. *)
Definition table_step (c : Z) : Z :=
  if negb (Z.land c 1 =? 0) then Z.lxor 0xEDB88320 (Z.shiftr c 1) else Z.shiftr c 1.

Definition TABLE : list Z := Nat.iter 8 table_step <$> seqZ 0 256.

(** The body of the loop over [data]. *)
Definition crc32_byte (crc : Z) (byte : byte) : Z :=
  let idx := Z.land (Z.lxor crc (byte_val byte)) 0xFF in
  Z.lxor (TABLE !!! Z.to_nat idx) (Z.shiftr crc 8).

(** [!crc] on a [u32]. *)
Definition not_u32 (c : Z) : Z := Z.lxor c 0xFFFFFFFF.

Definition crc32 (data : list byte) : Z := not_u32 (foldl crc32_byte 0xFFFFFFFF data).

(** ** The reference: a shift register that absorbs one bit at a time *)

Definition register_byte (crc : Z) (b : byte) : Z :=
  Nat.iter 8 table_step (Z.lxor crc (byte_val b)).

Definition crc32_reference (data : list byte) : Z :=
  not_u32 (foldl register_byte 0xFFFFFFFF data).

(** ** Bits *)

Lemma land_1_testbit c : negb (Z.land c 1 =? 0) = Z.testbit c 0.
Proof.
  change 1 with (Z.ones 1). rewrite Z.land_ones by lia.
  change (2 ^ 1) with 2. rewrite <- Z.bit0_mod. by destruct (Z.testbit c 0).
Qed.

Lemma table_step_eq c :
  table_step c = Z.lxor (if Z.testbit c 0 then 0xEDB88320 else 0) (Z.shiftr c 1).
Proof. unfold table_step. rewrite land_1_testbit. by destruct (Z.testbit c 0). Qed.

Lemma table_step_lxor a b :
  table_step (Z.lxor a b) = Z.lxor (table_step a) (table_step b).
Proof.
  rewrite !table_step_eq, Z.lxor_spec, Z.shiftr_lxor.
  apply Z.bits_inj'. intros n _.
  destruct (Z.testbit a 0), (Z.testbit b 0); rewrite !Z.lxor_spec, ?Z.bits_0;
    cbn [xorb];
    generalize (Z.testbit 3988292384 n) (Z.testbit (Z.shiftr a 1) n)
      (Z.testbit (Z.shiftr b 1) n); intros [] [] []; done.
Qed.

Lemma iter_table_step_lxor n a b :
  Nat.iter n table_step (Z.lxor a b) =
  Z.lxor (Nat.iter n table_step a) (Nat.iter n table_step b).
Proof. induction n as [|n IH]; [done|]. by rewrite !Nat.iter_succ, IH, table_step_lxor. Qed.

Lemma iter_table_step_shiftl n x :
  0 <= x -> Nat.iter n table_step (Z.shiftl x (Z.of_nat n)) = x.
Proof.
  intros Hx. revert x Hx. induction n as [|n IH]; intros x Hx; [by rewrite Z.shiftl_0_r|].
  rewrite Nat.iter_succ_r. rewrite <- (IH x Hx) at 2. f_equal.
  rewrite table_step_eq, Z.shiftl_spec_low by lia. rewrite Z.lxor_0_l.
  rewrite Z.shiftr_shiftl_l by lia. f_equal. lia.
Qed.

Definition is_u32 (c : Z) : Prop := 0 <= c < 2 ^ 32.

Lemma is_u32_shiftr c n : 0 <= n -> is_u32 c -> is_u32 (Z.shiftr c n).
Proof.
  unfold is_u32. intros Hn Hc. rewrite Z.shiftr_div_pow2 by done.
  pose proof (Z.pow_pos_nonneg 2 n ltac:(lia) Hn).
  split; [apply Z.div_pos; lia|]. apply Z.le_lt_trans with c; [|lia].
  apply Z.div_le_upper_bound; nia.
Qed.

Lemma u32_high_bit c n : is_u32 c -> 32 <= n -> Z.testbit c n = false.
Proof.
  intros Hc Hn. rewrite <- (Z.mod_small c (2 ^ 32)) by done.
  apply Z.mod_pow2_bits_high. lia.
Qed.

Lemma is_u32_lxor a b : is_u32 a -> is_u32 b -> is_u32 (Z.lxor a b).
Proof.
  intros Ha Hb. assert (0 <= Z.lxor a b) as H0.
  { unfold is_u32 in *. apply Z.lxor_nonneg. lia. }
  split; [done|]. apply Z.bounded_iff_bits_nonneg; [lia|done|].
  intros l Hl. by rewrite Z.lxor_spec, !u32_high_bit.
Qed.

Lemma is_u32_table_step c : is_u32 c -> is_u32 (table_step c).
Proof.
  intros Hc. rewrite table_step_eq. apply is_u32_lxor.
  - unfold is_u32. destruct (Z.testbit c 0); lia.
  - apply is_u32_shiftr; [lia|done].
Qed.

Lemma is_u32_iter n c : is_u32 c -> is_u32 (Nat.iter n table_step c).
Proof. intros H. induction n as [|n IH]; [done|]. rewrite Nat.iter_succ. by apply is_u32_table_step. Qed.

Lemma is_u32_byte b : is_u32 (byte_val b).
Proof. pose proof (byte_val_range b). unfold is_u32. lia. Qed.

Create HintDb crc.
#[export] Hint Resolve is_u32_lxor is_u32_table_step is_u32_iter is_u32_byte : crc.

(** The register step loses no information: it can be run backwards. *)
Definition table_unstep (r : Z) : Z :=
  if Z.testbit r 31 then Z.lxor 1 (Z.shiftl (Z.lxor 0xEDB88320 r) 1) else Z.shiftl r 1.

Lemma table_unstep_step c : is_u32 c -> table_unstep (table_step c) = c.
Proof.
  intros Hc. rewrite table_step_eq. unfold table_unstep.
  rewrite Z.lxor_spec, Z.shiftr_spec, (u32_high_bit c (31 + 1)) by (done || lia).
  rewrite xorb_false_r.
  assert (forall x, Z.shiftl (Z.shiftr c 1) 1 = x -> x = c - Z.b2z (Z.testbit c 0)) as Hsh.
  { intros x <-. rewrite Z.shiftl_mul_pow2, Z.shiftr_div_pow2, Z.bit0_mod by lia.
    pose proof (Z.div_mod c 2). change (2 ^ 1) with 2. lia. }
  destruct (Z.testbit c 0) eqn:H0.
  - change (Z.testbit 3988292384 31) with true. cbv iota.
    rewrite <- Z.lxor_assoc, Z.lxor_nilpotent, Z.lxor_0_l, (Hsh _ eq_refl).
    apply Z.bits_inj'. intros n Hn. rewrite Z.lxor_spec.
    assert (c - Z.b2z true = 2 * (c / 2)) as E.
    { rewrite <- H0, Z.bit0_mod. pose proof (Z.div_mod c 2). lia. }
    rewrite E. destruct (Z.eq_dec n 0) as [->|].
    + by rewrite Z.testbit_even_0, H0.
    + replace n with (Z.succ (n - 1)) by lia. rewrite Z.testbit_even_succ by lia.
      rewrite Z.div2_bits by lia. change 1 with (2 * 0 + 1).
      rewrite Z.testbit_odd_succ by lia. by rewrite Z.bits_0.
  - rewrite Z.bits_0, Z.lxor_0_l, (Hsh _ eq_refl). simpl. lia.
Qed.

Lemma table_step_inj a b : is_u32 a -> is_u32 b -> table_step a = table_step b -> a = b.
Proof.
  intros Ha Hb E. rewrite <- (table_unstep_step a), <- (table_unstep_step b) by done.
  by rewrite E.
Qed.

Lemma iter_table_step_inj n a b :
  is_u32 a -> is_u32 b -> Nat.iter n table_step a = Nat.iter n table_step b -> a = b.
Proof.
  intros Ha Hb. induction n as [|n IH]; [done|]. rewrite !Nat.iter_succ. intros E.
  apply IH, table_step_inj; auto with crc.
Qed.

(** ** The table computes the register *)

Lemma length_TABLE : length TABLE = 256%nat.
Proof. done. Qed.

Lemma TABLE_lookup n : 0 <= n < 256 -> TABLE !!! Z.to_nat n = Nat.iter 8 table_step n.
Proof.
  intros Hn. unfold TABLE. rewrite list_lookup_total_alt, list_lookup_fmap.
  rewrite lookup_seqZ_lt by lia. cbn [fmap option_fmap option_map from_option].
  by rewrite Z2Nat.id, Z.add_0_l by lia.
Qed.

Lemma split_low_byte c : c = Z.lxor (Z.land c 0xFF) (Z.shiftl (Z.shiftr c 8) 8).
Proof.
  apply Z.bits_inj'. intros n Hn. rewrite Z.lxor_spec, Z.land_spec.
  change 0xFF with (Z.ones 8). destruct (Z.lt_ge_cases n 8).
  - rewrite Z.ones_spec_low, Z.shiftl_spec_low by lia. by rewrite andb_true_r, xorb_false_r.
  - rewrite Z.ones_spec_high, Z.shiftl_spec, Z.shiftr_spec by lia.
    rewrite andb_false_r, xorb_false_l. f_equal. lia.
Qed.

Lemma iter8_split c :
  0 <= c ->
  Nat.iter 8 table_step c =
  Z.lxor (Nat.iter 8 table_step (Z.land c 0xFF)) (Z.shiftr c 8).
Proof.
  intros Hc. rewrite (split_low_byte c) at 1. rewrite iter_table_step_lxor. f_equal.
  change 8 with (Z.of_nat 8) at 2. apply iter_table_step_shiftl.
  by apply Z.shiftr_nonneg.
Qed.

Lemma crc32_byte_register crc b : is_u32 crc -> crc32_byte crc b = register_byte crc b.
Proof.
  intros Hc. unfold crc32_byte, register_byte.
  assert (is_u32 (Z.lxor crc (byte_val b))) as [Hx _] by auto with crc.
  rewrite iter8_split by done. rewrite TABLE_lookup.
  - f_equal. rewrite Z.shiftr_lxor. pose proof (byte_val_range b).
    rewrite (Z.shiftr_div_pow2 (byte_val b)), Z.div_small by lia. by rewrite Z.lxor_0_r.
  - change 255 with (Z.ones 8). rewrite Z.land_ones by lia. by apply Z.mod_pos_bound.
Qed.

Lemma is_u32_register_byte crc b : is_u32 crc -> is_u32 (register_byte crc b).
Proof. unfold register_byte. auto with crc. Qed.

Lemma is_u32_register data crc : is_u32 crc -> is_u32 (foldl register_byte crc data).
Proof. revert crc. induction data; simpl; auto using is_u32_register_byte. Qed.

Lemma foldl_crc32_register data crc :
  is_u32 crc -> foldl crc32_byte crc data = foldl register_byte crc data.
Proof.
  revert crc. induction data as [|b data IH]; intros crc Hc; [done|]. simpl.
  rewrite crc32_byte_register by done. by apply IH, is_u32_register_byte.
Qed.

Lemma is_u32_init : is_u32 0xFFFFFFFF.
Proof. unfold is_u32. lia. Qed.

Lemma crc32_eq_reference data : crc32 data = crc32_reference data.
Proof. unfold crc32, crc32_reference. by rewrite foldl_crc32_register by apply is_u32_init. Qed.

Lemma crc32_range data : is_u32 (crc32 data).
Proof.
  rewrite crc32_eq_reference. apply is_u32_lxor; [|apply is_u32_init].
  apply is_u32_register, is_u32_init.
Qed.

(** ** Error detection *)

Lemma of_le_lxor b l : of_le (b :: l) = Z.lxor (byte_val b) (Z.shiftl (of_le l) 8).
Proof.
  cbn [of_le]. pose proof (byte_val_range b). rewrite <- Z.add_nocarry_lxor.
  - rewrite Z.shiftl_mul_pow2 by lia. lia.
  - apply Z.bits_inj'. intros n Hn. rewrite Z.land_spec, Z.bits_0.
    destruct (Z.lt_ge_cases n 8).
    + rewrite Z.shiftl_spec_low by lia. apply andb_false_r.
    + rewrite <- (Z.mod_small (byte_val b) (2 ^ 8)) by lia.
      by rewrite Z.mod_pow2_bits_high by lia.
Qed.

(** Up to four bytes enter the register as one little-endian word. *)
Lemma register_word l crc :
  (length l <= 4)%nat ->
  foldl register_byte crc l = Nat.iter (8 * length l) table_step (Z.lxor crc (of_le l)).
Proof.
  revert crc. induction l as [|b l IH]; intros crc Hl; simpl in Hl.
  - simpl. by rewrite Z.lxor_0_r.
  - simpl foldl. rewrite IH by lia. cbn [length].
    replace (8 * S (length l))%nat with (8 * length l + 8)%nat by lia.
    rewrite Nat.iter_add. f_equal. rewrite of_le_lxor, <- Z.lxor_assoc.
    rewrite iter_table_step_lxor. unfold register_byte. f_equal.
    change 8 with (Z.of_nat 8). rewrite iter_table_step_shiftl; [done|].
    apply of_le_range.
Qed.

Lemma of_le_u32 l : (length l <= 4)%nat -> is_u32 (of_le l).
Proof.
  intros Hl. pose proof (of_le_range l). unfold is_u32. split; [lia|].
  apply Z.lt_le_trans with (256 ^ Z.of_nat (length l)); [lia|].
  change (2 ^ 32) with (256 ^ 4). apply Z.pow_le_mono_r; lia.
Qed.

Lemma register_byte_inj crc crc' b :
  is_u32 crc -> is_u32 crc' -> register_byte crc b = register_byte crc' b -> crc = crc'.
Proof.
  intros H H' E. apply iter_table_step_inj in E; [|auto with crc..].
  rewrite <- (Z.lxor_0_r crc), <- (Z.lxor_nilpotent (byte_val b)), <- Z.lxor_assoc, E.
  by rewrite Z.lxor_assoc, Z.lxor_nilpotent, Z.lxor_0_r.
Qed.

Lemma register_inj data crc crc' :
  is_u32 crc -> is_u32 crc' ->
  foldl register_byte crc data = foldl register_byte crc' data -> crc = crc'.
Proof.
  revert crc crc'. induction data as [|b data IH]; intros crc crc' H H'; [done|].
  simpl. intros E. apply IH in E; [|by apply is_u32_register_byte..].
  by apply register_byte_inj in E.
Qed.

Lemma not_u32_inj a b : not_u32 a = not_u32 b -> a = b.
Proof.
  unfold not_u32. intros E. rewrite <- (Z.lxor_0_r a), <- (Z.lxor_0_r b).
  rewrite <- (Z.lxor_nilpotent 0xFFFFFFFF), <- !Z.lxor_assoc. by rewrite E.
Qed.

Lemma crc32_burst pre l l' post :
  length l = length l' -> (length l <= 4)%nat ->
  crc32 (pre ++ l ++ post) = crc32 (pre ++ l' ++ post) -> l = l'.
Proof.
  intros Hlen Hl. rewrite !crc32_eq_reference. unfold crc32_reference.
  intros E%not_u32_inj. rewrite !foldl_app in E.
  set (c := foldl register_byte _ pre) in *.
  assert (is_u32 c) as Hc by apply is_u32_register, is_u32_init.
  apply register_inj in E; [|by apply is_u32_register..].
  rewrite !register_word, <- Hlen in E by lia.
  pose proof (of_le_u32 l ltac:(lia)). pose proof (of_le_u32 l' ltac:(lia)).
  apply iter_table_step_inj in E; [|auto with crc..].
  apply (f_equal (Z.lxor c)) in E.
  rewrite <- !Z.lxor_assoc, Z.lxor_nilpotent, !Z.lxor_0_l in E.
  rewrite <- (to_le_of_le l), <- (to_le_of_le l'), Hlen. by rewrite E.
Qed.

(** ** Properties *)

(** The table-driven checksum is the bit-at-a-time shift register, and the
    checksum is a [u32]. *)
Theorem crc32_table_driven (data : list byte) :
  crc32 data = crc32_reference data /\ 0 <= crc32 data < 2 ^ 32.
Proof. split; [apply crc32_eq_reference | apply crc32_range]. Qed.

(** Any corruption confined to four consecutive bytes changes the checksum. *)
Theorem crc32_detects_burst (pre l l' post : list byte) :
  length l = length l' -> (length l <= 4)%nat -> l ≠ l' ->
  crc32 (pre ++ l ++ post) ≠ crc32 (pre ++ l' ++ post).
Proof. intros Hlen Hl Hne E. by apply Hne, (crc32_burst pre l l' post). Qed.

Lemma crc32_known_vector : crc32 (str_bytes "123456789") = 0xCBF43926.
Proof. vm_compute. done. Qed.
