(* ===== verification/Codec.v ===== *)
(** * Little-endian codecs ([epochs-core/src/codec])

    [ByteEncoder], [ByteDecoder] and the pool of encoders; the relations [reads]
    (a reader inverts an encoding) and [parses] (what a successful read consumed)
    through which the formats built on them are verified. *)

From Stdlib Require Import Strings.Byte.
From S2P Require Import Prelude Utf8 Hash.

(** ** [encoder.rs] *)

Record ByteEncoder := mk_ByteEncoder { enc_buf : list byte }.

Module Encoder.
Definition new : ByteEncoder := mk_ByteEncoder [].
(** The capacity of the buffer is not observable. *)
Definition with_capacity (cap : Z) : ByteEncoder := mk_ByteEncoder [].
Definition clear (enc : ByteEncoder) : ByteEncoder := mk_ByteEncoder [].
Definition write_bytes (bytes : list byte) (enc : ByteEncoder) : ByteEncoder :=
  mk_ByteEncoder (enc_buf enc ++ bytes).
Definition write_u8 (v : byte) (enc : ByteEncoder) : ByteEncoder :=
  mk_ByteEncoder (enc_buf enc ++ [v]).
Definition write_u16 (v : Z) (enc : ByteEncoder) : ByteEncoder :=
  mk_ByteEncoder (enc_buf enc ++ to_le 2 v).
Definition write_u32 (v : Z) (enc : ByteEncoder) : ByteEncoder :=
  mk_ByteEncoder (enc_buf enc ++ to_le 4 v).
(** The first six of the eight bytes of a [u64]. *)
Definition write_u48 (v : Z) (enc : ByteEncoder) : ByteEncoder :=
  mk_ByteEncoder (enc_buf enc ++ take 6 (to_le 8 v)).
Definition write_u64 (v : Z) (enc : ByteEncoder) : ByteEncoder :=
  mk_ByteEncoder (enc_buf enc ++ to_le 8 v).
Definition write_hash (hash : Hash) (enc : ByteEncoder) : ByteEncoder :=
  mk_ByteEncoder (enc_buf enc ++ as_bytes hash).
End Encoder.

(** ** [pool.rs]: the thread-local pool, a stack of encoders *)

Definition POOL_CAP : nat := 32.
Definition ENC_BUF_HINT : Z := 256.

Definition take_encoder (pool : list ByteEncoder) : ByteEncoder * list ByteEncoder :=
  match pool with
  | enc :: pool => (Encoder.clear enc, pool)
  | [] => (Encoder.clear (Encoder.with_capacity ENC_BUF_HINT), [])
  end.

Definition put_encoder (enc : ByteEncoder) (pool : list ByteEncoder) : list ByteEncoder :=
  let enc := Encoder.clear enc in
  if (length pool <? POOL_CAP)%nat then enc :: pool else pool.

Definition encode_with_pool (f : ByteEncoder -> ByteEncoder) (pool : list ByteEncoder) :
    list byte * list ByteEncoder :=
  let '(enc, pool) := take_encoder pool in
  let enc := f enc in
  let out := enc_buf enc in
  let enc := mk_ByteEncoder [] in (* std::mem::take *)
  (out, put_encoder enc pool).

(** The bytes [encode_with] returns (by [encode_with_pool_fst] they do not depend on
    the pool). *)
Definition encode_with (f : ByteEncoder -> ByteEncoder) : list byte :=
  (encode_with_pool f []).1.

Lemma encode_with_pool_fst f pool : (encode_with_pool f pool).1 = enc_buf (f Encoder.new).
Proof. by destruct pool. Qed.

Lemma encode_with_eq f : encode_with f = enc_buf (f Encoder.new).
Proof. apply encode_with_pool_fst. Qed.

Definition pool_ok (pool : list ByteEncoder) : Prop :=
  (length pool <= POOL_CAP)%nat /\ Forall (fun enc => enc_buf enc = []) pool.

Lemma encode_with_pool_ok f pool : pool_ok pool -> pool_ok (encode_with_pool f pool).2.
Proof.
  intros [Hlen Hall]. unfold encode_with_pool, put_encoder.
  destruct pool as [|enc pool]; simpl.
  - split; [unfold POOL_CAP; simpl; lia|by repeat constructor].
  - simpl in Hlen. apply Forall_cons in Hall as [_ Hall].
    case_match; (split; [simpl; lia|]); [by constructor|done].
Qed.

(** ** [decoder.rs] *)

Record ByteDecoder := mk_ByteDecoder { dec_buf : list byte; dec_pos : Z }.

Abbreviation Reader A := (stM ByteDecoder EpochsError A).

Module Decoder.
Definition new (buf : list byte) : ByteDecoder := mk_ByteDecoder buf 0.
Definition position (d : ByteDecoder) : Z := dec_pos d.
(** [saturating_sub]. *)
Definition remaining (d : ByteDecoder) : Z := Z.max 0 (lenZ (dec_buf d) - dec_pos d).

Definition read_slice (len : Z) : Reader (list byte) := fun d =>
  if lenZ (dec_buf d) <? dec_pos d + len then
    (Err (Codec ("unexpected EOF: need " +:+ pretty len +:+ " bytes, have "
                   +:+ pretty (lenZ (dec_buf d) - dec_pos d))), d)
  else
    (Ok (take (Z.to_nat len) (drop (Z.to_nat (dec_pos d)) (dec_buf d))),
     mk_ByteDecoder (dec_buf d) (dec_pos d + len)).

(** [slice[i]], which panics out of range. *)
Definition index {A} (slice : list A) (i : nat) : Reader A :=
  match slice !! i with Some x => mret x | None => panic end.

Definition read_u8 : Reader byte := slice ← read_slice 1; index slice 0.
Definition read_u16 : Reader Z := slice ← read_slice 2; mret (of_le slice).
Definition read_u32 : Reader Z := slice ← read_slice 4; mret (of_le slice).
Definition read_u48 : Reader Z := slice ← read_slice 6; mret (of_le (slice ++ [x00; x00])).
Definition read_u64 : Reader Z := slice ← read_slice 8; mret (of_le slice).
Definition read_hash : Reader Hash := slice ← read_slice 32; mret (from_bytes slice).

Definition read_rest : Reader (list byte) := fun d =>
  if lenZ (dec_buf d) <? dec_pos d then (Panic, d)
  else (Ok (drop (Z.to_nat (dec_pos d)) (dec_buf d)),
        mk_ByteDecoder (dec_buf d) (lenZ (dec_buf d))).

(** [for _ in 0..n { v.push(read()?) }]. *)
Fixpoint read_many {A} (n : nat) (read : Reader A) : Reader (list A) :=
  match n with
  | O => mret []
  | S n => x ← read; xs ← read_many n read; mret (x :: xs)
  end.
End Decoder.

(** ** Reading back what was written *)

(** [reads m bs a]: wherever the bytes [bs] occur, [m] reads exactly them and
    returns [a]. *)
Definition reads {A} (m : Reader A) (bs : list byte) (a : A) : Prop :=
  forall pre post,
    m (mk_ByteDecoder (pre ++ bs ++ post) (lenZ pre)) =
    (Ok a, mk_ByteDecoder (pre ++ bs ++ post) (lenZ (pre ++ bs))).

Lemma reads_run {A} (m : Reader A) bs a :
  reads m bs a -> (m (Decoder.new bs)).1 = Ok a.
Proof.
  intros H. specialize (H [] []). simpl in H. rewrite app_nil_r in H.
  unfold Decoder.new. change 0 with (lenZ (@nil byte)). by rewrite H.
Qed.

Lemma reads_ret {A} (a : A) : reads (mret a) [] a.
Proof. intros pre post. unfold mret, stM_ret. by rewrite app_nil_r. Qed.

Lemma reads_bind {A B} (m : Reader A) (f : A -> Reader B) bs1 bs2 a b :
  reads m bs1 a -> reads (f a) bs2 b -> reads (m ≫= f) (bs1 ++ bs2) b.
Proof.
  intros Hm Hf pre post. rewrite stM_bind_eq, <- !app_assoc, (Hm pre).
  specialize (Hf (pre ++ bs1) post). rewrite <- !app_assoc in Hf. done.
Qed.

Lemma reads_bind_ret {A B} (m : Reader A) (f : A -> Reader B) bs a b :
  reads m bs a -> reads (f a) [] b -> reads (m ≫= f) bs b.
Proof. intros. rewrite <- (app_nil_r bs). by apply reads_bind with a. Qed.

(** A step that reads nothing (a check or a conversion). *)
Lemma reads_step {A B} (m : Reader A) (f : A -> Reader B) bs a b :
  reads m [] a -> reads (f a) bs b -> reads (m ≫= f) bs b.
Proof. intros. rewrite <- (app_nil_l bs). by apply reads_bind with a. Qed.

Lemma reads_ret' {A} (a b : A) : a = b -> reads (mret a) [] b.
Proof. intros <-. apply reads_ret. Qed.

Lemma reads_slice bs n : n = lenZ bs -> reads (Decoder.read_slice n) bs bs.
Proof.
  intros -> pre post. unfold Decoder.read_slice. simpl.
  pose proof (lenZ_nonneg post). rewrite !lenZ_app.
  destruct (Z.ltb_spec (lenZ pre + (lenZ bs + lenZ post)) (lenZ pre + lenZ bs)); [lia|].
  unfold lenZ at 1 2. by rewrite !Nat2Z.id, drop_app_length, take_app_length.
Qed.

Lemma reads_u8 b : reads Decoder.read_u8 [b] b.
Proof. apply (reads_bind_ret _ _ _ [b]); [by apply reads_slice|apply reads_ret]. Qed.

Lemma reads_le (n : nat) (k z : Z) :
  0 <= z < 256 ^ Z.of_nat n -> k = Z.of_nat n ->
  reads (slice ← Decoder.read_slice k; mret (of_le slice)) (to_le n z) z.
Proof.
  intros Hz ->. apply (reads_bind_ret _ _ _ (to_le n z)).
  - apply reads_slice. unfold lenZ. by rewrite length_to_le.
  - apply reads_ret'. by apply of_le_to_le_id.
Qed.

Lemma reads_u16 z : 0 <= z < 2 ^ 16 -> reads Decoder.read_u16 (to_le 2 z) z.
Proof. intros. by apply reads_le. Qed.
Lemma reads_u32 z : 0 <= z < 2 ^ 32 -> reads Decoder.read_u32 (to_le 4 z) z.
Proof. intros. by apply reads_le. Qed.
Lemma reads_u64 z : 0 <= z < 2 ^ 64 -> reads Decoder.read_u64 (to_le 8 z) z.
Proof. intros. by apply reads_le. Qed.

Lemma take_to_le n m z : (n <= m)%nat -> take n (to_le m z) = to_le n z.
Proof.
  revert m z. induction n as [|n IH]; intros [|m] z Hle; cbn [to_le take]; [done|done|lia|].
  f_equal. apply IH. lia.
Qed.

Lemma of_le_zeros l n : of_le (l ++ replicate n x00) = of_le l.
Proof.
  induction l as [|b l IH]; simpl; [|by rewrite IH].
  induction n as [|n IH]; simpl; [done|]. rewrite IH. done.
Qed.

Lemma reads_u48 z : 0 <= z < 2 ^ 48 -> reads Decoder.read_u48 (take 6 (to_le 8 z)) z.
Proof.
  intros Hz. rewrite take_to_le by lia.
  apply (reads_bind_ret _ _ _ (to_le 6 z)).
  - apply reads_slice. unfold lenZ. by rewrite length_to_le.
  - apply reads_ret'. rewrite (of_le_zeros _ 2). by apply of_le_to_le_id.
Qed.

Lemma reads_hash h : reads Decoder.read_hash (as_bytes h) h.
Proof.
  apply (reads_bind_ret _ _ _ (as_bytes h)).
  - apply reads_slice. unfold lenZ. by rewrite length_as_bytes.
  - apply reads_ret', from_bytes_as_bytes.
Qed.

Lemma reads_many {A} (m : Reader A) (enc : A -> list byte) xs :
  (forall x, x ∈ xs -> reads m (enc x) x) ->
  reads (Decoder.read_many (length xs) m) (xs ≫= enc) xs.
Proof.
  induction xs as [|x xs IH]; intros H; [apply reads_ret|].
  change ((x :: xs) ≫= enc) with (enc x ++ (xs ≫= enc)). simpl.
  apply (reads_bind _ _ _ _ x); [apply H; set_solver|].
  apply (reads_bind_ret _ _ _ xs); [apply IH; set_solver|apply reads_ret].
Qed.

(** [fails m bs e]: wherever the bytes [bs] occur, [m] returns the error [e]. *)
Definition fails {A} (m : Reader A) (bs : list byte) (e : EpochsError) : Prop :=
  forall pre post, (m (mk_ByteDecoder (pre ++ bs ++ post) (lenZ pre))).1 = Err e.

Lemma fails_fail {A} e : fails (@fail _ _ A e) [] e.
Proof. by intros pre post. Qed.

Lemma fails_bind {A B} (m : Reader A) (f : A -> Reader B) bs1 bs2 a e :
  reads m bs1 a -> fails (f a) bs2 e -> fails (m ≫= f) (bs1 ++ bs2) e.
Proof.
  intros Hm Hf pre post. rewrite stM_bind_eq, <- !app_assoc, (Hm pre).
  specialize (Hf (pre ++ bs1) post). rewrite <- !app_assoc in Hf. done.
Qed.

Lemma fails_step {A B} (m : Reader A) (f : A -> Reader B) bs a e :
  reads m [] a -> fails (f a) bs e -> fails (m ≫= f) bs e.
Proof. intros. rewrite <- (app_nil_l bs). by apply fails_bind with a. Qed.

Lemma fails_last {A B} (m : Reader A) (f : A -> Reader B) bs a e :
  reads m bs a -> fails (f a) [] e -> fails (m ≫= f) bs e.
Proof. intros. rewrite <- (app_nil_r bs). by apply fails_bind with a. Qed.

Lemma fails_run {A} (m : Reader A) bs e : fails m bs e -> (m (Decoder.new bs)).1 = Err e.
Proof. intros H. specialize (H [] []). simpl in H. by rewrite app_nil_r in H. Qed.

Create HintDb codec.
#[export] Hint Resolve reads_u8 reads_u16 reads_u32 reads_u48 reads_u64 reads_hash
  reads_ret : codec.

(** ** What a successful read consumed *)

Definition dec_wf (d : ByteDecoder) : Prop := 0 <= dec_pos d <= lenZ (dec_buf d).

(** The unread bytes. *)
Definition dec_rest (d : ByteDecoder) : list byte := drop (Z.to_nat (dec_pos d)) (dec_buf d).

(** A reader either fails, or consumes bytes [bs] that satisfy [P a bs]; it never
    panics and keeps the cursor inside the buffer. *)
Definition parses {A} (m : Reader A) (P : A -> list byte -> Prop) : Prop :=
  forall d, dec_wf d ->
    match m d with
    | (Ok a, d') =>
        exists bs, P a bs /\ dec_rest d = bs ++ dec_rest d' /\
          dec_wf d' /\ dec_buf d' = dec_buf d /\ dec_pos d' = dec_pos d + lenZ bs
    | (Err _, d') => dec_wf d' /\ dec_buf d' = dec_buf d
    | (_, _) => False
    end.

Lemma parses_ret {A} (a : A) (P : A -> list byte -> Prop) : P a [] -> parses (mret a) P.
Proof. intros HP d Hd. exists []. unfold lenZ. simpl. rewrite Z.add_0_r. done. Qed.

Lemma parses_fail {A} e (P : A -> list byte -> Prop) : parses (fail e) P.
Proof. intros d Hd. by split. Qed.

Lemma parses_bind {A B} (m : Reader A) (f : A -> Reader B)
    (P : A -> list byte -> Prop) (Q : B -> list byte -> Prop) :
  parses m P ->
  (forall a bs, P a bs -> parses (f a) (fun b bs' => Q b (bs ++ bs'))) ->
  parses (m ≫= f) Q.
Proof.
  intros Hm Hf d Hd. rewrite stM_bind_eq. specialize (Hm d Hd).
  destruct (m d) as [[a|e| |] d1]; [|exact Hm|destruct Hm..].
  destruct Hm as (bs & HP & Hrest & Hwf & Hbuf & Hpos).
  specialize (Hf a bs HP d1 Hwf). destruct (f a d1) as [[b|e| |] d2]; [|by rewrite <- Hbuf|destruct Hf..].
  destruct Hf as (bs' & HQ & Hrest' & Hwf' & Hbuf' & Hpos').
  exists (bs ++ bs'). rewrite Hrest, Hrest', <- Hbuf, lenZ_app, <- app_assoc.
  split_and!; first [done | lia].
Qed.

Lemma parses_mono {A} (m : Reader A) (P Q : A -> list byte -> Prop) :
  parses m P -> (forall a bs, P a bs -> Q a bs) -> parses m Q.
Proof.
  intros Hm HPQ d Hd. specialize (Hm d Hd).
  destruct (m d) as [[a|e| |] d1]; [|exact Hm|destruct Hm..]. destruct Hm as (bs & HP & H).
  exists bs. auto.
Qed.

Lemma parses_slice n :
  0 <= n -> parses (Decoder.read_slice n) (fun a bs => a = bs /\ lenZ bs = n).
Proof.
  intros Hn [buf pos] Hd. unfold Decoder.read_slice, dec_rest, dec_wf in *. simpl in *.
  destruct (Z.ltb_spec (lenZ buf) (pos + n)); [simpl; done|].
  unfold lenZ in *. eexists. split; [split; [done|]|].
  - rewrite length_take, length_drop. lia.
  - simpl. split_and!; [|lia|lia|done|rewrite length_take, length_drop; lia].
    rewrite Z2Nat.inj_add, <- drop_drop by lia. by rewrite take_drop.
Qed.

Lemma parses_u8 : parses Decoder.read_u8 (fun b bs => bs = [b]).
Proof.
  eapply parses_bind; [apply parses_slice; lia|]. intros a bs [-> Hl].
  unfold lenZ in Hl. destruct bs as [|b [|? ?]]; simpl in Hl; [lia| |lia].
  unfold Decoder.index. simpl. by apply parses_ret.
Qed.

Lemma parses_le (n : nat) (k : Z) :
  k = Z.of_nat n ->
  parses (slice ← Decoder.read_slice k; mret (of_le slice))
    (fun z bs => bs = to_le n z /\ 0 <= z < 256 ^ Z.of_nat n).
Proof.
  intros ->. eapply parses_bind; [apply parses_slice; lia|]. intros a bs [-> Hl].
  apply parses_ret. rewrite app_nil_r. unfold lenZ in Hl.
  assert (length bs = n) as <- by lia. split; [by rewrite to_le_of_le|apply of_le_range].
Qed.

Lemma parses_u16 : parses Decoder.read_u16 (fun z bs => bs = to_le 2 z /\ 0 <= z < 2 ^ 16).
Proof. by apply (parses_le 2). Qed.
Lemma parses_u32 : parses Decoder.read_u32 (fun z bs => bs = to_le 4 z /\ 0 <= z < 2 ^ 32).
Proof. by apply (parses_le 4). Qed.
Lemma parses_u64 : parses Decoder.read_u64 (fun z bs => bs = to_le 8 z /\ 0 <= z < 2 ^ 64).
Proof. by apply (parses_le 8). Qed.

Lemma parses_u48 : parses Decoder.read_u48 (fun z bs => bs = to_le 6 z /\ 0 <= z < 2 ^ 48).
Proof.
  eapply parses_bind; [apply parses_slice; lia|]. intros a bs [-> Hl].
  apply parses_ret. rewrite app_nil_r, (of_le_zeros _ 2). unfold lenZ in Hl.
  replace 6%nat with (length bs) by lia. rewrite to_le_of_le. split; [done|].
  pose proof (of_le_range bs) as H. by replace (Z.of_nat (length bs)) with 6 in H by lia.
Qed.

Lemma parses_hash : parses Decoder.read_hash (fun h bs => bs = as_bytes h).
Proof.
  eapply parses_bind; [apply parses_slice; lia|]. intros a bs [-> Hl].
  apply parses_ret. rewrite app_nil_r. unfold lenZ in Hl.
  by rewrite as_bytes_from_bytes by lia.
Qed.

Lemma parses_many {A} (m : Reader A) (enc : A -> list byte) n :
  parses m (fun x bs => bs = enc x) ->
  parses (Decoder.read_many n m) (fun xs bs => bs = xs ≫= enc /\ length xs = n).
Proof.
  intros Hm. induction n as [|n IH]; [by apply parses_ret|].
  simpl. eapply parses_bind; [apply Hm|]. intros x bs ->.
  eapply parses_bind; [apply IH|]. intros xs bs [-> <-].
  apply parses_ret. by rewrite app_nil_r.
Qed.

(** A run from the start of a buffer. *)
Lemma parses_new {A} (m : Reader A) P buf :
  parses m P ->
  match m (Decoder.new buf) with
  | (Ok a, d') => exists bs, P a bs /\ buf = bs ++ dec_rest d'
  | (Err _, _) => True
  | (_, _) => False
  end.
Proof.
  intros Hm. assert (dec_wf (Decoder.new buf)) as Hwf.
  { unfold dec_wf. simpl. pose proof (lenZ_nonneg buf). lia. }
  specialize (Hm _ Hwf). destruct (m (Decoder.new buf)) as [[] ?]; [|done..].
  destruct Hm as (bs & HP & Hrest & _). exists bs. by split.
Qed.

#[export] Hint Resolve parses_u8 parses_u16 parses_u32 parses_u48 parses_u64 parses_hash
  parses_fail : codec.

(** ** Properties *)

(** [encode_with] returns what the closure writes into an empty encoder, whatever
    the pool holds, and leaves a pool of at most 32 empty encoders. *)
Theorem encode_with_pool_correct (f : ByteEncoder -> ByteEncoder) (pool : list ByteEncoder) :
  pool_ok pool ->
  (encode_with_pool f pool).1 = enc_buf (f Encoder.new) /\
  pool_ok (encode_with_pool f pool).2.
Proof. intros H. split; [apply encode_with_pool_fst | by apply encode_with_pool_ok]. Qed.

Lemma encode_with_pool_correct_witness :
  let f := Encoder.write_u16 513 in
  let pool := replicate 32 Encoder.new in
  pool_ok pool /\ (encode_with_pool f pool).1 = [x01; x02].
Proof.
  assert (pool_ok (replicate 32 Encoder.new)) as H.
  { split; [unfold POOL_CAP; simpl; lia|]. by apply Forall_replicate. }
  split; [exact H|].
  exact (proj1 (encode_with_pool_correct (Encoder.write_u16 513) _ H)).
Defined.
