(* ===== verification/Record.v ===== *)
(** * The [.epl] record format ([epochs-core/src/cas/record.rs]) *)

From Stdlib Require Import Strings.Byte.
From S2P Require Import Prelude Utf8 Hash Crc32 Codec.

Definition RECORD_MAGIC : list byte := [x45; x50; x43; x4c].
Definition SEGMENT_MAGIC : list byte := [x45; x50; x53; x47].
Definition SEGMENT_HEADER_LEN : Z := 16.

Inductive RecordType := TCommit | THamtBitmap | THamtLeaf.

#[global] Instance RecordType_eq_dec : EqDecision RecordType.
Proof. solve_decision. Defined.

(** [record_type as u8] under [#[repr(u8)]]. *)
Definition RecordType_as_u8 (ty : RecordType) : byte :=
  match ty with TCommit => x01 | THamtBitmap => x02 | THamtLeaf => x03 end.

Definition RecordType_from_u8 (v : byte) : Result RecordType :=
  match byte_val v with
  | 1 => Ok TCommit
  | 2 => Ok THamtBitmap
  | 3 => Ok THamtLeaf
  | n => Err (Storage (Corrupt ("unknown record type: " +:+ pretty n)))
  end.

Record Record := mk_Record {
  record_type : RecordType;
  content_hash : Hash;
  payload : list byte
}.

Section record.
Context `{Blake3}.

Definition encode_record (ty : RecordType) (payload : list byte) (content_hash : Hash) :
    list byte :=
  encode_with (fun enc =>
    let enc := Encoder.write_bytes RECORD_MAGIC enc in
    let enc := Encoder.write_u8 (RecordType_as_u8 ty) enc in
    let enc := Encoder.write_u32 (lenZ payload) enc in
    let enc := Encoder.write_hash content_hash enc in
    let enc := Encoder.write_bytes payload enc in
    let crc := crc32 (drop 4 (enc_buf enc)) in
    Encoder.write_u32 crc enc).

(** The reads of [decode_record] up to the stored checksum, and its checks. *)
Definition decode_record_body (buf : list byte) : Reader Record :=
  magic ← Decoder.read_slice 4;
  if decide (magic ≠ RECORD_MAGIC) then fail (Storage (Corrupt "invalid record magic"))
  else
  ty_byte ← Decoder.read_u8;
  ty ← lift (RecordType_from_u8 ty_byte);
  payload_len ← Decoder.read_u32;
  content_hash ← Decoder.read_hash;
  payload ← Decoder.read_slice payload_len;
  stored_crc ← Decoder.read_u32;
  let computed_crc := crc32 (take (Z.to_nat (37 + payload_len)) (drop 4 buf)) in
  if decide (stored_crc ≠ computed_crc) then fail (Storage CrcMismatch)
  else
  let computed_hash := of_bytes payload in
  if decide (computed_hash ≠ content_hash) then
    fail (Storage (HashMismatch content_hash computed_hash))
  else mret (mk_Record ty content_hash payload).

Definition decode_record (buf : list byte) : Result Record :=
  if lenZ buf <? 45 then Err (Storage (Corrupt "record too short"))
  else (decode_record_body buf (Decoder.new buf)).1.

Definition encode_segment_header (segment_id created_at : Z) : list byte :=
  let enc := Encoder.new in
  let enc := Encoder.write_bytes SEGMENT_MAGIC enc in
  let enc := Encoder.write_u32 segment_id enc in
  let enc := Encoder.write_u64 created_at enc in
  enc_buf enc.

(** ** Lemmas *)

Lemma RecordType_from_as ty : RecordType_from_u8 (RecordType_as_u8 ty) = Ok ty.
Proof. by destruct ty. Qed.

Lemma RecordType_from_u8_Ok v ty : RecordType_from_u8 v = Ok ty -> v = RecordType_as_u8 ty.
Proof. destruct v; try done; by intros [= <-]. Qed.

Lemma reads_from_u8 ty : reads (lift (RecordType_from_u8 (RecordType_as_u8 ty))) [] ty.
Proof. rewrite RecordType_from_as. apply reads_ret. Qed.

Lemma drop_magic l : drop 4 (RECORD_MAGIC ++ l) = l.
Proof. done. Qed.

(** The 41 bytes before the payload, less the magic. *)
Definition record_head (ty : RecordType) (payload : list byte) (h : Hash) : list byte :=
  [RecordType_as_u8 ty] ++ to_le 4 (lenZ payload) ++ as_bytes h.

(** The bytes the checksum covers. *)
Definition record_body (ty : RecordType) (payload : list byte) (h : Hash) : list byte :=
  record_head ty payload h ++ payload.

Lemma encode_record_eq ty p h :
  encode_record ty p h =
  RECORD_MAGIC ++ record_body ty p h ++ to_le 4 (crc32 (record_body ty p h)).
Proof.
  unfold encode_record. rewrite encode_with_eq. cbn [Encoder.new enc_buf Encoder.write_bytes
    Encoder.write_u8 Encoder.write_u32 Encoder.write_hash app].
  unfold record_body, record_head. rewrite <- !app_assoc, drop_magic. done.
Qed.

Lemma length_record_head ty p h : length (record_head ty p h) = 37%nat.
Proof.
  unfold record_head. by rewrite !length_app, length_to_le, length_as_bytes.
Qed.

Lemma encode_record_length ty p h : lenZ (encode_record ty p h) = 45 + lenZ p.
Proof.
  rewrite encode_record_eq. unfold record_body, lenZ.
  rewrite !length_app, length_record_head, length_to_le. simpl. lia.
Qed.

Lemma decode_body_reads buf ty p :
  lenZ p < 2 ^ 32 ->
  take (Z.to_nat (37 + lenZ p)) (drop 4 buf) = record_body ty p (of_bytes p) ->
  reads (decode_record_body buf) (encode_record ty p (of_bytes p))
    (mk_Record ty (of_bytes p) p).
Proof.
  intros Hp Hbuf. rewrite encode_record_eq. unfold record_body at 1, record_head.
  set (c := crc32 _). rewrite <- !app_assoc.
  eapply reads_bind; [by apply reads_slice|]. rewrite decide_False by auto.
  eapply reads_bind; [apply reads_u8|].
  eapply reads_step; [apply reads_from_u8|].
  eapply reads_bind; [apply reads_u32; pose proof (lenZ_nonneg p); lia|].
  eapply reads_bind; [apply reads_hash|].
  eapply reads_bind; [by apply reads_slice|].
  apply (reads_bind_ret _ _ _ c).
  - apply reads_u32. apply crc32_range.
  - rewrite Hbuf. rewrite !decide_False by auto. apply reads_ret.
Qed.

Lemma decode_encode_record ty p :
  lenZ p < 2 ^ 32 ->
  decode_record (encode_record ty p (of_bytes p)) = Ok (mk_Record ty (of_bytes p) p).
Proof.
  intros Hp. unfold decode_record. rewrite encode_record_length.
  pose proof (lenZ_nonneg p). destruct (Z.ltb_spec (45 + lenZ p) 45); [lia|].
  apply reads_run, decode_body_reads; [done|].
  rewrite encode_record_eq, drop_magic. apply take_app_length'.
  unfold record_body. rewrite length_app, length_record_head. unfold lenZ. lia.
Qed.

(** The converse: what decodes is an encoded record, possibly followed by other bytes. *)
Lemma decode_record_inv buf r :
  decode_record buf = Ok r ->
  content_hash r = of_bytes (payload r) /\ lenZ (payload r) < 2 ^ 32 /\
  exists rest, buf = encode_record (record_type r) (payload r) (content_hash r) ++ rest.
Proof.
  unfold decode_record. destruct (Z.ltb_spec (lenZ buf) 45) as [|Hlen]; [done|].
  intros Hdec.
  pose proof (parses_new (decode_record_body buf)
    (fun r bs => content_hash r = of_bytes (payload r) /\ lenZ (payload r) < 2 ^ 32 /\
       exists c, bs = RECORD_MAGIC ++ record_body (record_type r) (payload r) (content_hash r)
                        ++ to_le 4 c /\
       c = crc32 (take (Z.to_nat (37 + lenZ (payload r))) (drop 4 buf))) buf) as Hp.
  destruct (decode_record_body buf (Decoder.new buf)) as [o d'].
  simpl in Hdec. subst o. destruct Hp as (bs & Hbs & Hbuf).
  - clear. unfold decode_record_body.
    eapply parses_bind; [apply parses_slice; lia|]. intros magic bs0 [-> _].
    case_decide as Hm; [apply parses_fail|]. subst bs0.
    eapply parses_bind; [apply parses_u8|]. intros v bs1 ->.
    eapply (parses_bind _ _ (fun ty bs => v = RecordType_as_u8 ty /\ bs = [])).
    { destruct (RecordType_from_u8 v) as [ty|e| |] eqn:E; [|apply parses_fail|..].
      - apply parses_ret. by apply RecordType_from_u8_Ok in E.
      - by destruct v.
      - by destruct v. }
    intros ty bs2 [-> ->].
    eapply parses_bind; [apply parses_u32|]. intros n bs3 [-> Hn].
    eapply parses_bind; [apply parses_hash|]. intros h bs4 ->.
    eapply parses_bind; [apply parses_slice; lia|]. intros p bs5 [-> <-].
    eapply parses_bind; [apply parses_u32|]. intros c bs6 [-> Hc].
    case_decide as E1; [apply parses_fail|].
    case_decide as E2; [apply parses_fail|].
    apply parses_ret. simpl. split; [done|]. split; [lia|]. exists c. split; [|done].
    unfold record_body, record_head. rewrite <- !app_assoc, ?app_nil_r. done.
  - destruct Hbs as (Hh & Hl & c & -> & ->). split_and!; [done..|].
    exists (dec_rest d'). rewrite encode_record_eq. rewrite Hbuf at 1. do 5 f_equal.
    rewrite Hbuf, <- app_assoc, drop_magic, <- app_assoc.
    rewrite take_app_length'; [done|].
    unfold record_body. rewrite length_app, length_record_head. unfold lenZ. lia.
Qed.

(** A record whose payload and checksum fields hold other bytes than those written. *)
Lemma decode_bad_crc ty n h p c :
  lenZ p = n -> n < 2 ^ 32 -> is_u32 c ->
  c ≠ crc32 (([RecordType_as_u8 ty] ++ to_le 4 n ++ as_bytes h) ++ p) ->
  decode_record
    (RECORD_MAGIC ++ ([RecordType_as_u8 ty] ++ to_le 4 n ++ as_bytes h) ++ p ++ to_le 4 c)
  = Err (Storage CrcMismatch).
Proof.
  intros <- Hn Hc Hne. pose proof (lenZ_nonneg p). unfold decode_record.
  set (buf := RECORD_MAGIC ++ _).
  assert (lenZ buf = 45 + lenZ p) as Hlen.
  { unfold buf, lenZ. rewrite !length_app, !length_to_le, length_as_bytes. simpl. lia. }
  destruct (Z.ltb_spec (lenZ buf) 45); [lia|]. clear Hlen.
  assert (buf = RECORD_MAGIC ++ [RecordType_as_u8 ty] ++ to_le 4 (lenZ p) ++ as_bytes h
            ++ p ++ to_le 4 c) as Hb by (unfold buf; by rewrite <- !app_assoc).
  apply fails_run. refine (eq_ind_r (fun b => fails _ b _) _ Hb). unfold decode_record_body.
  eapply fails_bind; [by apply reads_slice|]. rewrite decide_False by auto.
  eapply fails_bind; [apply reads_u8|].
  eapply fails_step; [apply reads_from_u8|].
  eapply fails_bind; [apply reads_u32; lia|].
  eapply fails_bind; [apply reads_hash|].
  eapply fails_bind; [by apply reads_slice|].
  eapply fails_last; [by apply reads_u32|].
  rewrite decide_True; [apply fails_fail|].
  set (head := [RecordType_as_u8 ty] ++ to_le 4 (lenZ p) ++ as_bytes h) in *.
  rewrite <- Hb.
  assert (take (Z.to_nat (37 + lenZ p)) (drop 4 buf) = head ++ p) as ->; [|done].
  unfold buf. rewrite drop_magic, (app_assoc head p). apply take_app_length'.
  unfold head. rewrite !length_app, length_to_le, length_as_bytes. unfold lenZ. simpl. lia.
Qed.

(** ** Properties *)

(** Decoding an encoded record gives the record back; conversely, a buffer that
    decodes starts with the encoding of the record it decodes to, whose content hash
    is the hash of its payload. *)
Theorem record_roundtrip :
  (forall ty p, lenZ p < 2 ^ 32 ->
     decode_record (encode_record ty p (of_bytes p)) = Ok (mk_Record ty (of_bytes p) p)) /\
  (forall buf r, decode_record buf = Ok r ->
     content_hash r = of_bytes (payload r) /\
     exists rest,
       buf = encode_record (record_type r) (payload r) (content_hash r) ++ rest).
Proof.
  split; [exact decode_encode_record|].
  intros buf r (Hh & _ & Hbuf)%decode_record_inv. done.
Qed.

(** C40: A record whose payload was corrupted in up to four consecutive bytes is
    rejected as a checksum mismatch, and so is one whose checksum was altered -
    whatever the hash function. *)
Theorem record_detects_corruption (ty : RecordType) (h : Hash) (pre l l' post : list byte) (c : Z) :
  let p := pre ++ l ++ post in
  let p' := pre ++ l' ++ post in
  let crc := crc32 (record_body ty p h) in
  lenZ p < 2 ^ 32 -> length l = length l' -> (length l <= 4)%nat ->
  (l ≠ l' ->
    decode_record (RECORD_MAGIC ++ record_head ty p h ++ p' ++ to_le 4 crc) =
    Err (Storage CrcMismatch)) /\
  (0 <= c < 2 ^ 32 -> c ≠ crc ->
    decode_record (RECORD_MAGIC ++ record_head ty p h ++ p ++ to_le 4 c) =
    Err (Storage CrcMismatch)).
Proof.
  intros p p' crc Hp Hll Hl. split.
  - intros Hne. apply decode_bad_crc; [|done|apply crc32_range|].
    + unfold p, p', lenZ. rewrite !length_app. lia.
    + intros E. apply Hne, (crc32_burst (record_head ty p h ++ pre) _ _ post); [done..|].
      rewrite <- !app_assoc. exact E.
  - intros Hc Hne. by apply decode_bad_crc.
Qed.

End record.

(** Witness: a concrete hash function and one flipped byte. *)
Definition toy_hash : Blake3 := fun l => take 32 l.

Lemma record_detects_corruption_witness :
  decode_record (H := toy_hash)
    (RECORD_MAGIC ++ record_head THamtLeaf [x68; x69] ZERO ++ [x68; x6a] ++
       to_le 4 (crc32 (record_body THamtLeaf [x68; x69] ZERO))) = Err (Storage CrcMismatch).
Proof.
  refine (proj1 (record_detects_corruption (H := toy_hash) THamtLeaf ZERO [x68] [x69] [x6a] []
    0 _ _ _) _).
  - vm_compute. done.
  - done.
  - simpl. lia.
  - done.
Defined.
