(* ===== verification/Cache.v ===== *)
(** * The bounded map of [epochs-core/src/cache.rs]

    [LruMap] backs the object cache of the CAS and the commit cache of the store. *)

From S2P Require Import Prelude.

Record LruMap (K V : Type) `{Countable K} := mk_LruMap {
  lru_map : gmap K V;
  lru_order : list K; (* a VecDeque, front first *)
  lru_cap : Z
}.
Arguments mk_LruMap {K V _ _} _ _ _.
Arguments lru_map {K V _ _} _.
Arguments lru_order {K V _ _} _.
Arguments lru_cap {K V _ _} _.

Module Lru.
Section lru.
Context {K V : Type} `{Countable K}.
Implicit Types (c : LruMap K V) (k : K) (v : V).

Definition new (cap : Z) : LruMap K V :=
  let cap := Z.max cap 1 in mk_LruMap ∅ [] cap.

Definition get (k : K) (c : LruMap K V) : option V := lru_map c !! k.

(** The eviction loop: [while self.map.len() >= self.cap]. *)
Fixpoint evict (cap : Z) (order : list K) (m : gmap K V) : gmap K V * list K :=
  if Z.of_nat (size m) <? cap then (m, order)
  else
    match order with
    | old :: order => evict cap order (delete old m)
    | [] => (m, [])
    end.

Definition insert (k : K) (v : V) (c : LruMap K V) : LruMap K V :=
  match lru_map c !! k with
  | Some _ => mk_LruMap (<[k:=v]> (lru_map c)) (lru_order c) (lru_cap c)
  | None =>
      let '(m, order) := evict (lru_cap c) (lru_order c) (lru_map c) in
      mk_LruMap (<[k:=v]> m) (order ++ [k]) (lru_cap c)
  end.

Definition len (c : LruMap K V) : nat := size (lru_map c).
Definition is_empty (c : LruMap K V) : bool := bool_decide (size (lru_map c) = 0%nat).
Definition clear (c : LruMap K V) : LruMap K V := mk_LruMap ∅ [] (lru_cap c).

(** The queue lists the keys of the map once each, within the capacity. *)
Record lru_ok (c : LruMap K V) : Prop := {
  ok_cap : 1 <= lru_cap c;
  ok_size : Z.of_nat (size (lru_map c)) <= lru_cap c;
  ok_nodup : NoDup (lru_order c);
  ok_keys : forall k, k ∈ lru_order c <-> is_Some (lru_map c !! k)
}.

Lemma lru_new_ok cap : lru_ok (new cap).
Proof.
  constructor; simpl; [lia|rewrite map_size_empty; lia|constructor|].
  intros k. rewrite lookup_empty. split; [set_solver|by intros []].
Qed.

Lemma lru_clear_ok c : lru_ok c -> lru_ok (clear c).
Proof.
  intros [Hc _ _ _]. constructor; simpl; [done|rewrite map_size_empty; lia|constructor|].
  intros k. rewrite lookup_empty. split; [set_solver|by intros []].
Qed.

Lemma lru_order_size c : lru_ok c -> length (lru_order c) = size (lru_map c).
Proof.
  intros [_ _ Hnd Hk]. rewrite <- size_dom.
  rewrite <- (size_list_to_set (C := gset K)) by done. f_equal.
  apply set_eq. intros k. by rewrite elem_of_list_to_set, elem_of_dom.
Qed.

Lemma lru_evict_room cap order m :
  Z.of_nat (size m) < cap -> evict cap order m = (m, order).
Proof.
  intros Hs. assert ((Z.of_nat (size m) <? cap) = true) as E by lia.
  destruct order; cbn [evict]; by rewrite E.
Qed.

(** On a well-formed cache the loop runs at most once. *)
Lemma lru_evict_ok c :
  lru_ok c ->
  evict (lru_cap c) (lru_order c) (lru_map c) =
  (if (Z.of_nat (size (lru_map c)) <? lru_cap c) then (lru_map c, lru_order c)
   else match lru_order c with
        | old :: order => (delete old (lru_map c), order)
        | [] => (lru_map c, [])
        end).
Proof.
  intros Hok. pose proof (lru_order_size _ Hok) as Hsz. destruct Hok as [Hcap Hs Hnd Hk].
  destruct (lru_order c) as [|old order] eqn:Ho; cbn [evict]; [done|].
  destruct (Z.ltb_spec (Z.of_nat (size (lru_map c))) (lru_cap c)); [done|].
  destruct (proj1 (Hk old)) as [w Hw]; [set_solver|].
  apply lru_evict_room. rewrite map_size_delete_Some by eauto. simpl in Hsz. lia.
Qed.

(** Everything about an insertion: the invariant, the new binding, and what happens to
    the other keys. *)
Definition insert_post (k : K) (v : V) (c c' : LruMap K V) : Prop :=
  lru_ok c' /\
  lru_map c' !! k = Some v /\
  (forall j, j ≠ k ->
     lru_map c' !! j = lru_map c !! j \/
     (lru_map c !! k = None /\ Z.of_nat (size (lru_map c)) = lru_cap c /\
      head (lru_order c) = Some j /\ lru_map c' !! j = None)).

Lemma lru_insert_existing k v w c :
  lru_ok c -> lru_map c !! k = Some w ->
  insert_post k v c (mk_LruMap (<[k:=v]> (lru_map c)) (lru_order c) (lru_cap c)).
Proof.
  intros [Hcap Hs Hnd Hk] E. split; [|split; simpl].
  - constructor; simpl; [done|by rewrite map_size_insert_Some by eauto|done|].
    intros j. rewrite Hk. destruct (decide (j = k)) as [->|].
    + rewrite lookup_insert_eq, E. split; eauto.
    + by rewrite lookup_insert_ne.
  - by rewrite lookup_insert_eq.
  - intros j Hj. left. by rewrite lookup_insert_ne.
Qed.

(** Appending a fresh key to a cache with room. *)
Lemma lru_push_ok k v cap order (m : gmap K V) :
  1 <= cap -> Z.of_nat (size m) < cap -> NoDup order ->
  (forall j, j ∈ order <-> is_Some (m !! j)) -> m !! k = None ->
  lru_ok (mk_LruMap (<[k:=v]> m) (order ++ [k]) cap).
Proof.
  intros Hcap Hs Hnd Hk E. assert (k ∉ order) as Hnk by (rewrite Hk, E; by intros []).
  constructor; simpl; [done|rewrite map_size_insert_None by done; lia| |].
  - apply NoDup_app. set_solver by auto using NoDup_singleton.
  - intros j. rewrite elem_of_app, list_elem_of_singleton, Hk.
    destruct (decide (j = k)) as [->|].
    + rewrite lookup_insert_eq. split; eauto.
    + rewrite lookup_insert_ne by done. naive_solver.
Qed.

Lemma lru_insert_evicting k v c old order :
  lru_ok c -> lru_map c !! k = None -> lru_cap c <= Z.of_nat (size (lru_map c)) ->
  lru_order c = old :: order ->
  insert_post k v c
    (mk_LruMap (<[k:=v]> (delete old (lru_map c))) (order ++ [k]) (lru_cap c)).
Proof.
  intros [Hcap Hs Hnd Hk] E Hfull Ho. rewrite Ho in *.
  assert (k ∉ old :: order) as Hnk by (rewrite Hk, E; by intros []).
  apply NoDup_cons in Hnd as [Hold Hnd].
  destruct (proj1 (Hk old)) as [w Hw]; [set_solver|].
  split; [|split; simpl].
  - apply lru_push_ok; [done|rewrite map_size_delete_Some by eauto|done| |].
    + assert (size (lru_map c) ≠ 0%nat); [|lia].
      intros Hz%map_size_empty_inv. by rewrite Hz, lookup_empty in Hw.
    + intros j. destruct (decide (j = old)) as [->|].
      * rewrite lookup_delete_eq. split; [set_solver|by intros []].
      * rewrite lookup_delete_ne, <- Hk by done. set_solver.
    + rewrite lookup_delete_ne by set_solver. done.
  - by rewrite lookup_insert_eq.
  - intros j Hj. destruct (decide (j = old)) as [->|].
    + right. rewrite lookup_insert_ne, lookup_delete_eq, Ho by done.
      split_and!; [done|lia|done..].
    + left. by rewrite lookup_insert_ne, lookup_delete_ne.
Qed.

Lemma lru_insert_spec k v c : lru_ok c -> insert_post k v c (insert k v c).
Proof.
  intros Hok. pose proof (lru_evict_ok _ Hok) as Hev. pose proof (lru_order_size _ Hok) as Hsz.
  unfold insert. destruct (lru_map c !! k) as [w|] eqn:E; [by apply lru_insert_existing with w|].
  rewrite Hev. destruct (Z.ltb_spec (Z.of_nat (size (lru_map c))) (lru_cap c)).
  - destruct Hok as [Hcap Hs Hnd Hk]. split; [by apply lru_push_ok|split; simpl].
    + by rewrite lookup_insert_eq.
    + intros j Hj. left. by rewrite lookup_insert_ne.
  - destruct (lru_order c) as [|old order] eqn:Ho; [|by apply lru_insert_evicting].
    destruct Hok as [Hcap _ _ _]. simpl in Hsz. lia.
Qed.

Lemma lru_insert_ok k v c : lru_ok c -> lru_ok (insert k v c).
Proof. apply lru_insert_spec. Qed.

(** A binding of the cache after an insertion is the new one or an old one. *)
Lemma lru_insert_inv k v c j w :
  lru_ok c -> get j (insert k v c) = Some w -> (j = k /\ w = v) \/ get j c = Some w.
Proof.
  unfold get. intros Hok. destruct (lru_insert_spec k v c Hok) as (_ & Hk & Hj).
  destruct (decide (j = k)) as [->|Hne]; [rewrite Hk; naive_solver|].
  destruct (Hj j Hne) as [->|(_ & _ & _ & ->)]; [by right|done].
Qed.

End lru.
End Lru.

Create HintDb lru.
#[export] Hint Resolve Lru.lru_new_ok Lru.lru_insert_ok Lru.lru_clear_ok : lru.

(** ** Properties *)

(** Inserting into the cache keeps its invariant and size bound, binds the key to
    the value and leaves every other key as it was, except that a new key evicts the
    oldest one when the cache is full. *)
Theorem lru_insert_correct {K V} `{Countable K} (c : LruMap K V) (k : K) (v : V) :
  Lru.lru_ok c ->
  let c' := Lru.insert k v c in
  Lru.lru_ok c' /\ Lru.get k c' = Some v /\
  (forall j, j ≠ k ->
     Lru.get j c' = Lru.get j c \/
     (Lru.get k c = None /\ Z.of_nat (Lru.len c) = lru_cap c /\
      head (lru_order c) = Some j /\ Lru.get j c' = None)).
Proof. apply Lru.lru_insert_spec. Qed.

Lemma lru_insert_correct_witness :
  let c := Lru.insert 2 "b" (Lru.insert 1 "a" (Lru.new 2)) in
  Lru.get 3 (Lru.insert 3 "c" c) = Some "c".
Proof.
  intros c.
  assert (Lru.lru_ok c) as Hok by (repeat apply Lru.lru_insert_ok; apply Lru.lru_new_ok).
  exact (proj1 (proj2 (lru_insert_correct c 3 "c" Hok))).
Defined.
