(* ===== verification/Index.v ===== *)
(** * The [.epi] hash index ([epochs-core/src/cas/index.rs])

    An append-only file of 44-byte entries, mirrored by a map in memory. The file is
    the byte list [idx_file]; writes to it are not buffered by the program. *)

From Stdlib Require Import Strings.Byte.
From S2P Require Import Prelude Utf8 Hash Codec.

Definition INDEX_ENTRY_LEN : nat := 44.

Record IndexEntry := mk_IndexEntry {
  segment_id : Z; (* u16 *)
  offset : Z;     (* u64, 48 bits of it stored *)
  record_len : Z  (* u32 *)
}.

#[global] Instance IndexEntry_eq_dec : EqDecision IndexEntry.
Proof. solve_decision. Defined.

Record Index := mk_Index {
  idx_file : list byte;
  idx_entries : gmap Hash IndexEntry
}.

Definition encode_entry (hash : Hash) (entry : IndexEntry) : list byte :=
  let enc := Encoder.new in
  let enc := Encoder.write_hash hash enc in
  let enc := Encoder.write_u16 (segment_id entry) enc in
  let enc := Encoder.write_u48 (offset entry) enc in
  let enc := Encoder.write_u32 (record_len entry) enc in
  enc_buf enc.

Definition decode_entry_body : Reader (Hash * IndexEntry) :=
  hash ← Decoder.read_hash;
  segment_id ← Decoder.read_u16;
  offset ← Decoder.read_u48;
  record_len ← Decoder.read_u32;
  mret (hash, mk_IndexEntry segment_id offset record_len).

Definition decode_entry (buf : list byte) : Result (Hash * IndexEntry) :=
  (decode_entry_body (Decoder.new buf)).1.

Module IndexOps.

(** The loop of [Index::open], over the bytes from [offset] on. *)
Fixpoint load (fuel : nat) (buf : list byte) (entries : gmap Hash IndexEntry) :
    Result (gmap Hash IndexEntry) :=
  match fuel with
  | O => OutOfFuel
  | S fuel =>
      if (INDEX_ENTRY_LEN <=? length buf)%nat then
        e ← decode_entry (take INDEX_ENTRY_LEN buf);
        load fuel (drop INDEX_ENTRY_LEN buf) (<[e.1:=e.2]> entries)
      else Ok entries
  end.

(** [Index::open] on a file with the given contents. *)
Definition open (file : list byte) : Result Index :=
  entries ← load (S (length file)) file ∅;
  Ok (mk_Index file entries).

Definition get (hash : Hash) (idx : Index) : option IndexEntry := idx_entries idx !! hash.

Definition contains (hash : Hash) (idx : Index) : bool :=
  bool_decide (is_Some (idx_entries idx !! hash)).

Definition insert (hash : Hash) (entry : IndexEntry) (idx : Index) : Index :=
  if contains hash idx then idx
  else
    let bytes := encode_entry hash entry in
    mk_Index (idx_file idx ++ bytes) (<[hash:=entry]> (idx_entries idx)).

(** The order of a [HashMap]'s keys is unspecified: the model lists them in some order. *)
Definition hashes (idx : Index) : list Hash := (map_to_list (idx_entries idx)).*1.

(** [h.to_string().starts_with(&prefix)]. *)
Definition find_by_prefix (prefix : string) (idx : Index) : list Hash :=
  let prefix := to_ascii_lowercase prefix in
  filter (fun h => String.prefix prefix (to_string h) = true) (hashes idx).

(** ** Lemmas *)

(** The fields of an entry fit the on-disk format. *)
Definition entry_fits (e : IndexEntry) : Prop :=
  0 <= segment_id e < 2 ^ 16 /\ 0 <= offset e < 2 ^ 48 /\ 0 <= record_len e < 2 ^ 32.

Lemma length_encode_entry h e : length (encode_entry h e) = INDEX_ENTRY_LEN.
Proof.
  unfold encode_entry. cbn [Encoder.new Encoder.write_hash Encoder.write_u16
    Encoder.write_u48 Encoder.write_u32 enc_buf app].
  rewrite take_to_le by lia. by rewrite !length_app, !length_to_le, length_as_bytes.
Qed.

Lemma decode_encode_entry h e : entry_fits e -> decode_entry (encode_entry h e) = Ok (h, e).
Proof.
  intros (Hs & Ho & Hl). apply reads_run. unfold encode_entry, decode_entry_body.
  cbn [Encoder.new Encoder.write_hash Encoder.write_u16 Encoder.write_u48
    Encoder.write_u32 enc_buf app]. rewrite <- !app_assoc.
  eapply reads_bind; [apply reads_hash|].
  eapply reads_bind; [by apply reads_u16|].
  eapply reads_bind; [by apply reads_u48|].
  eapply reads_bind_ret; [by apply reads_u32|].
  destruct e. apply reads_ret.
Qed.

(** Decoding never fails on 44 bytes, so [open] fails only on a file it cannot read. *)
Lemma decode_entry_total buf :
  length buf = INDEX_ENTRY_LEN -> exists h e, decode_entry buf = Ok (h, e) /\ entry_fits e.
Proof.
  intros Hlen.
  assert (exists h s o l, buf = as_bytes h ++ to_le 2 s ++ to_le 6 o ++ to_le 4 l /\
    entry_fits (mk_IndexEntry s o l)) as (h & s & o & l & -> & Hfit).
  { exists (from_bytes (take 32 buf)), (of_le (take 2 (drop 32 buf))),
      (of_le (take 6 (drop 34 buf))), (of_le (drop 40 buf)).
    unfold INDEX_ENTRY_LEN in Hlen.
    assert (forall n i, (i + n <= 44)%nat ->
      to_le n (of_le (take n (drop i buf))) = take n (drop i buf) /\
      0 <= of_le (take n (drop i buf)) < 256 ^ Z.of_nat n) as Hle.
    { intros n i Hi. pose proof (of_le_range (take n (drop i buf))) as Hr.
      pose proof (to_le_of_le (take n (drop i buf))) as Ht.
      rewrite length_take, length_drop, Hlen, Nat.min_l in * by lia. done. }
    split.
    - rewrite as_bytes_from_bytes by (rewrite length_take; lia).
      rewrite (proj1 (Hle 2%nat 32%nat ltac:(lia))), (proj1 (Hle 6%nat 34%nat ltac:(lia))).
      replace (drop 40 buf) with (take 4 (drop 40 buf))
        by (apply take_ge; rewrite length_drop; lia).
      rewrite (proj1 (Hle 4%nat 40%nat ltac:(lia))).
      rewrite (take_ge (drop 40 buf)) by (rewrite length_drop; lia).
      rewrite <- (take_drop 32 buf) at 1. f_equal.
      rewrite <- (take_drop 2 (drop 32 buf)) at 1. f_equal. rewrite drop_drop.
      rewrite <- (take_drop 6 (drop (32 + 2) buf)) at 1. f_equal. by rewrite drop_drop.
    - unfold entry_fits. simpl. split_and!.
      1-2: apply (Hle 2%nat 32%nat); lia.
      1-2: apply (Hle 6%nat 34%nat); lia.
      1-2: rewrite <- (take_ge (drop 40 buf) 4) by (rewrite length_drop; lia);
           apply (Hle 4%nat 40%nat); lia. }
  exists h, (mk_IndexEntry s o l). split; [|done].
  rewrite <- (take_to_le 6 8 o) by lia.
  rewrite <- (decode_encode_entry h (mk_IndexEntry s o l) Hfit). f_equal.
  unfold encode_entry. cbn. by rewrite <- !app_assoc.
Qed.

(** [load] steps over one entry, and stops at a tail shorter than an entry. *)
Lemma index_load_cons fuel h e buf m :
  entry_fits e ->
  load (S fuel) (encode_entry h e ++ buf) m = load fuel buf (<[h:=e]> m).
Proof.
  intros He. cbn [load]. rewrite length_app, length_encode_entry.
  destruct (Nat.leb_spec INDEX_ENTRY_LEN (INDEX_ENTRY_LEN + length buf)); [|lia].
  rewrite take_app_length' by (by rewrite length_encode_entry).
  rewrite drop_app_length' by (by rewrite length_encode_entry).
  by rewrite decode_encode_entry.
Qed.

Lemma index_load_tail fuel buf m : (length buf < INDEX_ENTRY_LEN)%nat -> load (S fuel) buf m = Ok m.
Proof. intros H. cbn [load]. by destruct (Nat.leb_spec INDEX_ENTRY_LEN (length buf)); [lia|]. Qed.

Lemma index_load_total fuel buf m : (length buf < fuel)%nat -> exists m', load fuel buf m = Ok m'.
Proof.
  revert buf m. induction fuel as [|fuel IH]; intros buf m Hf; [lia|]. cbn [load].
  destruct (Nat.leb_spec INDEX_ENTRY_LEN (length buf)) as [Hle|]; [|by eexists].
  destruct (decode_entry_total (take INDEX_ENTRY_LEN buf)) as (h & e & -> & _).
  { rewrite length_take. lia. }
  apply IH. rewrite length_drop. unfold INDEX_ENTRY_LEN in *. lia.
Qed.

Lemma index_load_fuel f g buf m m' : load f buf m = Ok m' -> (f <= g)%nat -> load g buf m = Ok m'.
Proof.
  revert g buf m. induction f as [|f IH]; intros g buf m; [done|].
  destruct g as [|g]; [lia|]. cbn [load]. case_match; [|done].
  intros (e & He & Hl)%outcome_bind_Ok Hg. rewrite He. apply IH; [done|lia].
Qed.

(** Loading a file that consists of whole entries, then more bytes. *)
Definition aligned (file : list byte) : Prop :=
  exists k, length file = (INDEX_ENTRY_LEN * k)%nat.

Lemma index_load_app a b f g m m1 m2 :
  aligned a -> load f a m = Ok m1 -> load g b m1 = Ok m2 -> load (f + g) (a ++ b) m = Ok m2.
Proof.
  intros [k Hk]. revert a f m Hk. induction k as [|k IH]; intros a f m Hk Ha Hb.
  - destruct a; [|simpl in Hk; lia]. destruct f as [|f]; [done|]. simpl in Ha.
    injection Ha as ->. apply index_load_fuel with g; [done|lia].
  - destruct f as [|f]; [done|]. cbn [load] in Ha. cbn [Nat.add load].
    unfold INDEX_ENTRY_LEN in *.
    destruct (Nat.leb_spec 44 (length a)); [|lia].
    destruct (Nat.leb_spec 44 (length (a ++ b))); [|rewrite length_app in *; lia].
    rewrite take_app_le, drop_app_le by lia.
    apply outcome_bind_Ok in Ha as (e & -> & Ha). cbn.
    apply IH; [rewrite length_drop; lia|done..].
Qed.

(** An index whose file holds exactly its entries. *)
Record index_ok (idx : Index) : Prop := {
  index_aligned : aligned (idx_file idx);
  index_open : open (idx_file idx) = Ok idx
}.

Lemma index_open_load file idx :
  open file = Ok idx <->
  idx_file idx = file /\ load (S (length file)) file ∅ = Ok (idx_entries idx).
Proof.
  unfold open. split.
  - intros (m & Hm & [= <-])%outcome_bind_Ok. done.
  - intros [<- ->]. cbn. by destruct idx.
Qed.

Lemma index_open_total file : exists idx, open file = Ok idx.
Proof.
  destruct (index_load_total (S (length file)) file ∅) as [m Hm]; [lia|].
  exists (mk_Index file m). by apply index_open_load.
Qed.

Lemma index_empty_ok : index_ok (mk_Index [] ∅).
Proof. split; [by exists 0%nat|done]. Qed.

Lemma index_load_exact f g buf m m' :
  load f buf m = Ok m' -> (length buf < g)%nat -> load g buf m = Ok m'.
Proof.
  intros Hf Hg. destruct (index_load_total g buf m Hg) as [m'' Hm''].
  pose proof (index_load_fuel f (f + g) _ _ _ Hf ltac:(lia)) as H1.
  pose proof (index_load_fuel g (f + g) _ _ _ Hm'' ltac:(lia)) as H2.
  rewrite Hm''. congruence.
Qed.

Lemma index_open_app a idx b m :
  aligned a -> open a = Ok idx -> load (S (length b)) b (idx_entries idx) = Ok m ->
  open (a ++ b) = Ok (mk_Index (a ++ b) m).
Proof.
  intros Ha [_ Hl]%index_open_load Hb. apply index_open_load. split; [done|]. cbn [idx_entries].
  eapply index_load_exact; [by eapply index_load_app|]. lia.
Qed.

Lemma index_insert_ok hash entry idx :
  entry_fits entry -> index_ok idx -> index_ok (insert hash entry idx).
Proof.
  intros He [Hal Hop]. unfold insert, contains. case_bool_decide; [done|].
  split; simpl.
  - destruct Hal as [k Hk]. exists (S k). rewrite length_app, Hk, length_encode_entry. lia.
  - eapply index_open_app; [done|exact Hop|].
    rewrite <- (app_nil_r (encode_entry hash entry)) at 2.
    rewrite index_load_cons by done. by rewrite length_encode_entry.
Qed.

Lemma index_insert_entries hash entry idx :
  idx_entries (insert hash entry idx) =
  match idx_entries idx !! hash with
  | Some _ => idx_entries idx
  | None => <[hash:=entry]> (idx_entries idx)
  end.
Proof.
  unfold insert, contains. case_bool_decide as Hc; simpl.
  - by destruct Hc as [? ->].
  - by destruct (idx_entries idx !! hash); [destruct Hc|].
Qed.

(** A torn tail swallows the head of the next entry. *)
Lemma index_open_torn a idx t h e :
  aligned a -> open a = Ok idx -> (0 < length t <= 32)%nat ->
  open (a ++ t) = Ok (mk_Index (a ++ t) (idx_entries idx)) /\
  exists k entry, (exists rest, as_bytes k = t ++ rest) /\
    open ((a ++ t) ++ encode_entry h e) =
      Ok (mk_Index ((a ++ t) ++ encode_entry h e) (<[k:=entry]> (idx_entries idx))).
Proof.
  intros Ha Hop Ht. split.
  { eapply index_open_app; [done..|]. apply index_load_tail. unfold INDEX_ENTRY_LEN. lia. }
  set (buf := t ++ encode_entry h e).
  pose proof (length_encode_entry h e) as Hen. unfold INDEX_ENTRY_LEN in Hen.
  destruct (decode_entry_total (take 44 buf)) as (k & entry & Hdec & Hfit).
  { unfold buf, INDEX_ENTRY_LEN. rewrite length_take, length_app. lia. }
  assert (exists rest, take 44 buf = as_bytes k ++ rest) as [rest Hk].
  { pose proof (parses_new decode_entry_body
      (fun p bs => exists r, bs = as_bytes p.1 ++ r) (take 44 buf)) as Hp.
    unfold decode_entry in Hdec. destruct (decode_entry_body _) as [o d']. simpl in Hdec.
    subst o. destruct Hp as (bs & [r Hr] & Hbuf); [|exists (r ++ dec_rest d')].
    - unfold decode_entry_body.
      eapply parses_bind; [apply parses_hash|]. intros ? ? ->.
      eapply parses_bind; [apply parses_u16|]. intros ? ? _.
      eapply parses_bind; [apply parses_u48|]. intros ? ? _.
      eapply parses_bind; [apply parses_u32|]. intros ? ? _.
      apply parses_ret. by eexists.
    - by rewrite Hbuf, Hr, <- app_assoc. }
  exists k, entry. split.
  - exists (drop (length t) (as_bytes k)).
    assert (take (length t) (as_bytes k) = t) as Htk.
    { pose proof (length_as_bytes k).
      apply (f_equal (take (length t))) in Hk. unfold buf in Hk.
      rewrite take_take, Nat.min_l, take_app_length in Hk by lia.
      by rewrite take_app_le in Hk by lia. }
    rewrite <- (take_drop (length t) (as_bytes k)) at 1. by rewrite Htk.
  - rewrite <- (app_assoc a). eapply index_open_app; [done..|]. cbn [load].
    fold buf. destruct (Nat.leb_spec INDEX_ENTRY_LEN (length buf)) as [|Hn].
    2: { unfold buf, INDEX_ENTRY_LEN in Hn. rewrite length_app in Hn. lia. }
    change (take INDEX_ENTRY_LEN buf) with (take 44 buf).
    rewrite Hdec. cbn. unfold buf at 1. rewrite length_app, Hen.
    replace (length t + 44)%nat with (S (length t + 43)) by lia. apply index_load_tail.
    unfold buf, INDEX_ENTRY_LEN. rewrite length_drop, length_app. lia.
Qed.

End IndexOps.

(** ** Properties *)

(** The index survives a restart: opening any file succeeds, and after an insertion
    into an index that matches its file, opening the file written so far gives the same
    entries, with the new one. *)
Theorem index_persistence (idx : Index) (hash : Hash) (entry : IndexEntry) :
  IndexOps.index_ok idx -> IndexOps.entry_fits entry ->
  let idx' := IndexOps.insert hash entry idx in
  IndexOps.index_ok idx' /\
  IndexOps.open (idx_file idx') = Ok idx' /\
  (IndexOps.contains hash idx = false -> IndexOps.get hash idx' = Some entry) /\
  (forall other, other ≠ hash -> IndexOps.get other idx' = IndexOps.get other idx).
Proof.
  intros Hok Hfit idx'. pose proof (IndexOps.index_insert_ok hash entry idx Hfit Hok) as Hok'.
  split; [done|]. split; [apply Hok'|].
  unfold idx', IndexOps.get, IndexOps.contains. rewrite IndexOps.index_insert_entries.
  destruct (idx_entries idx !! hash) eqn:E; [done|].
  split; [intros _; by rewrite lookup_insert_eq|].
  intros other Ho. by rewrite lookup_insert_ne.
Qed.

Lemma index_persistence_witness :
  let e := mk_IndexEntry 0 16 100 in
  IndexOps.get ZERO (IndexOps.insert ZERO e (mk_Index [] ∅)) = Some e.
Proof.
  intros e.
  refine (proj1 (proj2 (proj2 (index_persistence (mk_Index [] ∅) ZERO e _ _))) _).
  - apply IndexOps.index_empty_ok.
  - unfold IndexOps.entry_fits. simpl. lia.
  - vm_compute. reflexivity.
Defined.

(** A torn final entry is not repaired: after reopening a file that ends in part of
    an entry, the next insertion is appended behind the torn bytes and is lost by the
    following restart (unless its hash happens to start with the torn bytes). *)
Theorem index_torn_tail_loses_insert (a t : list byte) (idx : Index) (h : Hash) (e : IndexEntry) :
  IndexOps.aligned a -> IndexOps.open a = Ok idx -> (0 < length t <= 32)%nat ->
  IndexOps.get h idx = None -> (forall rest, as_bytes h ≠ t ++ rest) ->
  exists idx1 idx2,
    IndexOps.open (a ++ t) = Ok idx1 /\
    IndexOps.get h (IndexOps.insert h e idx1) = Some e /\
    IndexOps.open (idx_file (IndexOps.insert h e idx1)) = Ok idx2 /\
    IndexOps.get h idx2 = None.
Proof.
  intros Ha Hop Ht Hh Hpre.
  destruct (IndexOps.index_open_torn a idx t h e Ha Hop Ht) as (H1 & k & entry & [rest Hk] & H2).
  eexists _, _. split; [exact H1|].
  assert (IndexOps.contains h (mk_Index (a ++ t) (idx_entries idx)) = false) as Hc.
  { unfold IndexOps.contains, IndexOps.get in *. simpl. rewrite Hh.
    apply bool_decide_eq_false. by intros []. }
  unfold IndexOps.insert at 2, IndexOps.get. rewrite IndexOps.index_insert_entries, Hc.
  simpl. unfold IndexOps.get in Hh. rewrite Hh.
  split; [by rewrite lookup_insert_eq|]. split; [exact H2|]. simpl.
  rewrite lookup_insert_ne; [done|]. intros ->. by apply (Hpre rest).
Qed.

Lemma index_torn_tail_loses_insert_witness :
  exists idx1 idx2,
    IndexOps.open [x01] = Ok idx1 /\
    IndexOps.get ZERO (IndexOps.insert ZERO (mk_IndexEntry 0 16 100) idx1) =
      Some (mk_IndexEntry 0 16 100) /\
    IndexOps.open (idx_file (IndexOps.insert ZERO (mk_IndexEntry 0 16 100) idx1)) = Ok idx2 /\
    IndexOps.get ZERO idx2 = None.
Proof.
  refine (index_torn_tail_loses_insert [] [x01] (mk_Index [] ∅) ZERO
    (mk_IndexEntry 0 16 100) _ _ _ _ _).
  - by exists 0%nat.
  - reflexivity.
  - simpl. lia.
  - reflexivity.
  - intros rest. done.
Defined.
