(* ===== verification/Cas.v ===== *)
(** * The CAS interface ([epochs-core/src/cas/mod.rs]) and the store in memory
      ([cas/mem.rs])

    [CasBackend] is the Rust trait; [CasLaws] says what a client may rely on: a store
    is a finite map of objects that only grows, [put] adds an object unless its hash is
    taken, [get_record] looks one up. The HAMT is verified against these laws;
    [MemCas] satisfies them here and [CasStore] in its own file. *)

From S2P Require Import Prelude Utf8 Hash Record.

(** An object: its record type and its payload. *)
Abbreviation Object := (RecordType * list byte)%type.

Class CasBackend (S : Type) := {
  cas_put : RecordType -> list byte -> stM S EpochsError Hash;
  cas_get_record : Hash -> stM S EpochsError Object
}.

(** The object map after [put]: an existing object with the same hash is kept. *)
Definition put_object `{Blake3} (ty : RecordType) (p : list byte) (objs : gmap Hash Object) :
    gmap Hash Object :=
  match objs !! of_bytes p with
  | Some _ => objs
  | None => <[of_bytes p := (ty, p)]> objs
  end.

(** Payload sizes whose record length fits the format's 32-bit field. *)
Definition PAYLOAD_LIMIT : Z := 2 ^ 32 - 45.

Class CasLaws (S : Type) `{Blake3, !CasBackend S} := {
  cas_objects : S -> gmap Hash Object;
  cas_inv : S -> Prop;
  (** The errors of a write, and the states they leave. *)
  cas_fault : S -> EpochsError -> Prop;
  (** [put] returns the content hash and adds the object, or fails and changes nothing. *)
  cas_put_law : forall s ty p r s',
    cas_inv s -> lenZ p < PAYLOAD_LIMIT -> cas_put ty p s = (r, s') ->
    cas_inv s' /\
    ((r = Ok (of_bytes p) /\ cas_objects s' = put_object ty p (cas_objects s)) \/
     ((exists e, r = Err e /\ cas_fault s' e) /\ cas_objects s' = cas_objects s));
  (** [get_record] returns exactly what is stored. *)
  cas_get_law : forall s h r s',
    cas_inv s -> cas_get_record h s = (r, s') ->
    cas_inv s' /\ cas_objects s' = cas_objects s /\
    r = ok_or (Storage (NotFound h)) (cas_objects s !! h);
  (** Objects are filed under the hash of their payload. *)
  cas_hash_law : forall s h ty p,
    cas_inv s -> cas_objects s !! h = Some (ty, p) -> h = of_bytes p
}.

(** A backend whose writes cannot fail. *)
Class CasTotal (S : Type) `{CasLaws S} :=
  cas_put_total : forall s ty p e s', cas_inv s -> cas_put ty p s ≠ (Err e, s').

Section objects.
Context `{Blake3}.

Lemma put_object_subseteq ty p objs : objs ⊆ put_object ty p objs.
Proof.
  unfold put_object. destruct (objs !! of_bytes p) eqn:E; [done|]. by apply insert_subseteq.
Qed.

(** No two distinct objects of a list have the same hash. *)
Definition collision_free (os : list Object) : Prop :=
  forall a b, a ∈ os -> b ∈ os -> of_bytes a.2 = of_bytes b.2 -> a = b.

(** The stored objects do not collide with the objects of [os], nor these with each other. *)
Definition no_collision (objs : gmap Hash Object) (os : list Object) : Prop :=
  collision_free ((map_to_list objs).*2 ++ os).

Lemma collision_free_Forall os :
  Forall (fun a => Forall (fun b => of_bytes a.2 = of_bytes b.2 -> a = b) os) os <->
  collision_free os.
Proof.
  unfold collision_free. rewrite Forall_forall. setoid_rewrite Forall_forall.
  split; intros HF; [intros a b Ha Hb|intros a Ha b Hb]; by apply HF.
Qed.

#[global] Instance collision_free_dec os : Decision (collision_free os).
Proof.
  destruct (decide (Forall (fun a => Forall (fun b => of_bytes a.2 = of_bytes b.2 -> a = b) os) os))
    as [HF|HF]; [left|right]; by rewrite <- collision_free_Forall.
Defined.

#[global] Instance no_collision_dec objs os : Decision (no_collision objs os).
Proof. unfold no_collision. apply _. Defined.

Lemma no_collision_stored objs os o o' :
  (forall h ty p, objs !! h = Some (ty, p) -> h = of_bytes p) ->
  no_collision objs os -> o ∈ os -> objs !! of_bytes o.2 = Some o' -> o' = o.
Proof.
  intros Hh Hnc Ho Ho'. destruct o' as [ty p]. apply Hnc.
  - apply elem_of_app. left. apply list_elem_of_fmap. exists (of_bytes o.2, (ty, p)).
    split; [done|]. by apply elem_of_map_to_list.
  - by apply elem_of_app; right.
  - simpl. symmetry. by apply Hh with ty.
Qed.

Lemma put_object_lookup objs os ty p :
  (forall h ty p, objs !! h = Some (ty, p) -> h = of_bytes p) ->
  no_collision objs os -> (ty, p) ∈ os ->
  put_object ty p objs !! of_bytes p = Some (ty, p).
Proof.
  intros Hh Hnc Hin. unfold put_object. destruct (objs !! of_bytes p) as [o'|] eqn:E.
  - rewrite E. f_equal. by apply (no_collision_stored objs os (ty, p)).
  - by rewrite lookup_insert_eq.
Qed.

Lemma put_object_elem objs ty p h o :
  put_object ty p objs !! h = Some o -> objs !! h = Some o \/ (h = of_bytes p /\ o = (ty, p)).
Proof.
  unfold put_object. destruct (objs !! of_bytes p) eqn:E; [by left|].
  destruct (decide (h = of_bytes p)) as [->|].
  - rewrite lookup_insert_eq. intros [= <-]. by right.
  - rewrite lookup_insert_ne by done. by left.
Qed.

(** Collision freedom survives the addition of one of the objects it covers. *)
Lemma no_collision_put objs os ty p :
  no_collision objs os -> (ty, p) ∈ os -> no_collision (put_object ty p objs) os.
Proof.
  intros Hnc Hin a b Ha Hb.
  assert (forall o, o ∈ (map_to_list (put_object ty p objs)).*2 ++ os ->
    o ∈ (map_to_list objs).*2 ++ os) as Hsub.
  { intros o [Ho|Ho]%elem_of_app; apply elem_of_app; [|by right].
    apply list_elem_of_fmap in Ho as ([h o'] & -> & Ho%elem_of_map_to_list).
    apply put_object_elem in Ho as [Ho|[_ ->]]; [left|by right].
    apply list_elem_of_fmap. exists (h, o'). split; [done|]. by apply elem_of_map_to_list. }
  apply Hnc; by apply Hsub.
Qed.

Lemma no_collision_sub objs os os' :
  (forall o, o ∈ os' -> o ∈ os) -> no_collision objs os -> no_collision objs os'.
Proof.
  intros Hsub Hnc a b Ha Hb. apply Hnc; rewrite elem_of_app in *; naive_solver.
Qed.

End objects.

(** ** [MemCas] *)

Record MemCas := mk_MemCas { mem_objects : gmap Hash Object }.

Module Mem.
Section mem.
Context `{Blake3}.

Definition new : MemCas := mk_MemCas ∅.

Definition contains (hash : Hash) (cas : MemCas) : bool :=
  bool_decide (is_Some (mem_objects cas !! hash)).

Definition put (ty : RecordType) (payload : list byte) : stM MemCas EpochsError Hash :=
  fun cas =>
    let hash := of_bytes payload in
    (* self.objects.entry(hash).or_insert_with(..) *)
    let objects :=
      match mem_objects cas !! hash with
      | Some _ => mem_objects cas
      | None => <[hash := (ty, payload)]> (mem_objects cas)
      end in
    (Ok hash, mk_MemCas objects).

Definition get_record (hash : Hash) : stM MemCas EpochsError Object :=
  fun cas => (ok_or (Storage (NotFound hash)) (mem_objects cas !! hash), cas).

End mem.
End Mem.

#[global] Instance MemCas_backend `{Blake3} : CasBackend MemCas := {
  cas_put := Mem.put;
  cas_get_record := Mem.get_record
}.

#[global] Program Instance MemCas_laws `{Blake3} : CasLaws MemCas := {
  cas_objects := mem_objects;
  cas_inv cas := forall h ty p, mem_objects cas !! h = Some (ty, p) -> h = of_bytes p;
  cas_fault _ _ := False
}.
Next Obligation.
  intros ? s ty p r s' Hinv _ [= <- <-]. fold (put_object ty p (mem_objects s)).
  split; [|by left]. simpl.
  intros h ty' p' [Ho|[-> [= -> ->]]]%put_object_elem; [by eapply Hinv|done].
Qed.
Next Obligation. by intros ? s h r s' Hinv [= <- <-]. Qed.
Next Obligation. intros ? s h ty p Hinv. apply Hinv. Qed.

#[global] Instance MemCas_total `{Blake3} : CasTotal MemCas.
Proof. by intros s ty p e s' _. Qed.

(** ** Properties *)

(** Storing a payload whose hash is not yet taken and loading it gives it back, every
    object stored before is still there, and an object under a hash that is taken is never
    replaced: a payload already stored with another record type keeps that type. *)
Theorem mem_cas_put_get `{Blake3} (cas : MemCas) (ty : RecordType) (p : list byte) :
  let '(r, cas') := Mem.put ty p cas in
  r = Ok (of_bytes p) /\
  (Mem.contains (of_bytes p) cas = false ->
     Mem.get_record (of_bytes p) cas' = (Ok (ty, p), cas')) /\
  (forall h o, Mem.get_record h cas = (Ok o, cas) -> Mem.get_record h cas' = (Ok o, cas')).
Proof.
  unfold Mem.put. fold (put_object ty p (mem_objects cas)). split; [done|].
  unfold Mem.get_record, Mem.contains. simpl. split.
  - intros Hc%bool_decide_eq_false. unfold put_object.
    destruct (mem_objects cas !! of_bytes p); [by destruct Hc|]. by rewrite lookup_insert_eq.
  - intros h o [= Ho]. destruct (mem_objects cas !! h) as [o'|] eqn:E; [|done].
    injection Ho as ->. by rewrite (lookup_weaken _ _ _ _ E (put_object_subseteq ty p _)).
Qed.
