(* ===== verification/HamtNode.v ===== *)
(** * HAMT node payloads ([epochs-core/src/hamt/node.rs]) *)

From S2P Require Import Prelude Utf8 Hash Codec Record.

Inductive HamtNode :=
| Bitmap (bitmap : Z) (children : list Hash)   (* bitmap: u32 *)
| Leaf (key value : list byte).

#[global] Instance HamtNode_eq_dec : EqDecision HamtNode.
Proof. solve_decision. Defined.

(** [HamtNode::encode]: the lengths are cast to [u8], [u16] and [u32]. *)
Definition encode_node (node : HamtNode) : list byte :=
  encode_with (fun enc =>
    match node with
    | Bitmap bitmap children =>
        let enc := Encoder.write_u32 bitmap enc in
        let enc := Encoder.write_u8 (as_u8 (lenZ children)) enc in
        foldl (fun enc child => Encoder.write_hash child enc) enc children
    | Leaf key value =>
        let enc := Encoder.write_u16 (lenZ key) enc in
        let enc := Encoder.write_bytes key enc in
        let enc := Encoder.write_u32 (lenZ value) enc in
        Encoder.write_bytes value enc
    end).

Definition decode_bitmap : Reader HamtNode :=
  bitmap ← Decoder.read_u32;
  child_count ← Decoder.read_u8;
  children ← Decoder.read_many (Z.to_nat (byte_val child_count)) Decoder.read_hash;
  mret (Bitmap bitmap children).

Definition decode_leaf : Reader HamtNode :=
  klen ← Decoder.read_u16;
  key ← Decoder.read_slice klen;
  vlen ← Decoder.read_u32;
  value ← Decoder.read_slice vlen;
  mret (Leaf key value).

(** [HamtNode::decode]. *)
Definition decode_node (record_type : RecordType) (buf : list byte) : Result HamtNode :=
  match record_type with
  | THamtBitmap => (decode_bitmap (Decoder.new buf)).1
  | THamtLeaf => (decode_leaf (Decoder.new buf)).1
  | TCommit => Err (Codec "not a HAMT node record")
  end.

(** The record type a node is stored under. *)
Definition node_type (node : HamtNode) : RecordType :=
  match node with Bitmap _ _ => THamtBitmap | Leaf _ _ => THamtLeaf end.

(** The nodes whose lengths survive the casts of [encode_node]. *)
Definition node_fits (node : HamtNode) : Prop :=
  match node with
  | Bitmap bitmap children => 0 <= bitmap < 2 ^ 32 /\ lenZ children < 256
  | Leaf key value => lenZ key < 2 ^ 16 /\ lenZ value < 2 ^ 32
  end.

Lemma foldl_write_hash children enc :
  enc_buf (foldl (fun enc child => Encoder.write_hash child enc) enc children) =
  enc_buf enc ++ (children ≫= as_bytes).
Proof.
  revert enc. induction children as [|h hs IH]; intros enc; cbn [foldl].
  - by rewrite app_nil_r.
  - rewrite IH. cbn. by rewrite <- app_assoc.
Qed.

Lemma encode_bitmap_eq bitmap children :
  encode_node (Bitmap bitmap children) =
  to_le 4 bitmap ++ [as_u8 (lenZ children)] ++ (children ≫= as_bytes).
Proof.
  unfold encode_node. rewrite encode_with_eq, foldl_write_hash.
  cbn [enc_buf Encoder.write_u8 Encoder.write_u32 Encoder.new]. by rewrite <- app_assoc.
Qed.

Lemma encode_leaf_eq key value :
  encode_node (Leaf key value) =
  to_le 2 (lenZ key) ++ key ++ to_le 4 (lenZ value) ++ value.
Proof.
  unfold encode_node. rewrite encode_with_eq.
  cbn [enc_buf Encoder.write_u16 Encoder.write_u32 Encoder.write_bytes Encoder.new].
  by rewrite <- !app_assoc.
Qed.

Lemma decode_encode_node node :
  node_fits node -> decode_node (node_type node) (encode_node node) = Ok node.
Proof.
  destruct node as [bitmap children|key value]; simpl; intros [H1 H2]; apply reads_run.
  - rewrite encode_bitmap_eq. unfold decode_bitmap.
    eapply reads_bind; [by apply reads_u32|].
    eapply reads_bind; [apply reads_u8|].
    eapply reads_bind_ret; [|apply reads_ret].
    pose proof (lenZ_nonneg children). rewrite byte_val_as_u8, Z.mod_small by lia.
    unfold lenZ. rewrite Nat2Z.id. apply reads_many. intros h _. apply reads_hash.
  - rewrite encode_leaf_eq. unfold decode_leaf.
    pose proof (lenZ_nonneg key). pose proof (lenZ_nonneg value).
    eapply reads_bind; [by apply reads_u16|].
    eapply reads_bind; [by apply reads_slice|].
    eapply reads_bind; [by apply reads_u32|].
    eapply reads_bind_ret; [by apply reads_slice|apply reads_ret].
Qed.

Lemma as_u8_of_nat n z : byte_val n = z -> as_u8 z = n.
Proof. intros <-. apply as_u8_byte_val. Qed.

(** What decodes as a node is the encoding of that node, possibly followed by more bytes. *)
Lemma decode_node_inv ty buf node :
  decode_node ty buf = Ok node ->
  node_type node = ty /\ node_fits node /\ exists rest, buf = encode_node node ++ rest.
Proof.
  destruct ty; simpl; [done|..]; intros Hdec.
  - pose proof (parses_new decode_bitmap
      (fun n bs => node_type n = THamtBitmap /\ node_fits n /\ bs = encode_node n) buf) as Hp.
    destruct (decode_bitmap (Decoder.new buf)) as [o d']. simpl in Hdec. subst o.
    destruct Hp as (bs & (Ht & Hf & ->) & ->); [|by eauto].
    eapply parses_bind; [apply parses_u32|]. intros bitmap bs1 [-> Hb].
    eapply parses_bind; [apply parses_u8|]. intros c bs2 ->.
    eapply parses_bind; [apply parses_many, parses_hash|]. intros cs bs3 [-> Hlen].
    apply parses_ret. pose proof (byte_val_range c).
    assert (lenZ cs = byte_val c) as Hc by (unfold lenZ; lia).
    split; [done|]. split; [simpl; lia|].
    rewrite encode_bitmap_eq, Hc, as_u8_byte_val. by rewrite app_nil_r.
  - pose proof (parses_new decode_leaf
      (fun n bs => node_type n = THamtLeaf /\ node_fits n /\ bs = encode_node n) buf) as Hp.
    destruct (decode_leaf (Decoder.new buf)) as [o d']. simpl in Hdec. subst o.
    destruct Hp as (bs & (Ht & Hf & ->) & ->); [|by eauto].
    eapply parses_bind; [apply parses_u16|]. intros klen bs1 [-> Hk].
    eapply parses_bind; [apply parses_slice; lia|]. intros key bs2 [-> Hkl].
    eapply parses_bind; [apply parses_u32|]. intros vlen bs3 [-> Hv].
    eapply parses_bind; [apply parses_slice; lia|]. intros value bs4 [-> Hvl].
    apply parses_ret. split; [done|]. split; [simpl; lia|].
    rewrite encode_leaf_eq, Hkl, Hvl. by rewrite app_nil_r.
Qed.

Lemma encode_node_length node :
  lenZ (encode_node node) =
  match node with
  | Bitmap _ children => 5 + 32 * lenZ children
  | Leaf key value => 6 + lenZ key + lenZ value
  end.
Proof.
  destruct node.
  - assert (lenZ (children ≫= as_bytes) = 32 * lenZ children) as Hc.
    { induction children as [|h hs IH]; [done|].
      change ((h :: hs) ≫= as_bytes) with (as_bytes h ++ (hs ≫= as_bytes)).
      rewrite lenZ_app, IH. unfold lenZ. rewrite length_as_bytes. cbn [length]. lia. }
    rewrite encode_bitmap_eq, !lenZ_app, Hc, lenZ_to_le. unfold lenZ. cbn [length]. lia.
  - rewrite encode_leaf_eq, !lenZ_app, !lenZ_to_le. lia.
Qed.

(** ** Properties *)

(** A node whose lengths fit their fields decodes to itself, and whatever decodes as a
    node starts with the encoding of that node. *)
Theorem node_roundtrip (ty : RecordType) (buf : list byte) (node : HamtNode) :
  (node_fits node -> decode_node (node_type node) (encode_node node) = Ok node) /\
  (decode_node ty buf = Ok node ->
     node_type node = ty /\ exists rest, buf = encode_node node ++ rest).
Proof.
  split; [apply decode_encode_node|]. intros (? & _ & ?)%decode_node_inv. done.
Qed.

(** A leaf whose key is 2^16 bytes or longer is never read back: the cast of the key
    length truncates it, so the stored leaf does not decode to the leaf written. *)
Theorem leaf_key_length_truncated (key value : list byte) :
  2 ^ 16 <= lenZ key ->
  decode_node THamtLeaf (encode_node (Leaf key value)) ≠ Ok (Leaf key value).
Proof. intros Hk (_ & [Hf _] & _)%decode_node_inv. simpl in Hf. lia. Qed.

Lemma leaf_key_length_truncated_witness :
  decode_node THamtLeaf (encode_node (Leaf (replicate (Z.to_nat (2 ^ 16)) Byte.x00) [])) ≠
  Ok (Leaf (replicate (Z.to_nat (2 ^ 16)) Byte.x00) []).
Proof.
  apply (leaf_key_length_truncated (replicate (Z.to_nat (2 ^ 16)) Byte.x00) []).
  unfold lenZ. rewrite length_replicate. rewrite Z2Nat.id by lia. lia.
Defined.
