(* ===== verification/Hamt.v ===== *)
(** * The persistent HAMT ([epochs-core/src/hamt/tree.rs])

    The operations of [PersistentHamt] over any CAS backend, as the code has them. The
    recursions follow the stored nodes, so they take fuel; [HamtTree] gives the trees the
    nodes describe and [HamtProofs] the fuel that is enough. *)

From S2P Require Import Prelude Utf8 Hash Codec Record Cas HamtNode.

Inductive DiffOp := Added | Removed | Changed.

(** The set bits of a [u32], ascending, and [u32::count_ones]. *)
Definition bits (w : Z) : list Z := filter (fun i => Z.testbit w i) (seqZ 0 32).
Definition count_ones (w : Z) : nat := length (bits w).

(** [Vec::insert]: panics when the index is beyond the end. *)
Definition vec_insert {A} (idx : nat) (x : A) (l : list A) : option (list A) :=
  if decide (idx <= length l)%nat then Some (take idx l ++ x :: drop idx l) else None.

(** Indexing and [Vec::insert] inside a computation: out of range is a panic. *)
Definition or_panic {S E A} (o : option A) : stM S E A :=
  match o with Some a => mret a | None => panic end.

Module PersistentHamt.

Definition hash_byte (h : Hash) (i : Z) : Z :=
  byte_val (default Byte.x00 (as_bytes h !! Z.to_nat i)).

Definition extract_5bits (key_hash : Hash) (depth : nat) : Z :=
  let bit_idx := Z.of_nat depth * 5 in
  let byte_idx := bit_idx / 8 in
  let bit_offset := bit_idx mod 8 in
  if 31 <=? byte_idx then
    Z.land (Z.shiftr (hash_byte key_hash 31) (bit_offset mod 8)) 31
  else
    let b0 := hash_byte key_hash byte_idx in
    let b1 := hash_byte key_hash (byte_idx + 1) in
    let combined := Z.shiftr (Z.lor b0 (Z.shiftl b1 8)) bit_offset in
    Z.land combined 31.

Definition child_index (bitmap branch : Z) : nat :=
  let mask := Z.shiftl 1 branch in
  count_ones (Z.land bitmap (mask - 1)).

Definition make_leaf (key value : list byte) : HamtNode := Leaf key value.

Section ops.
Context `{Blake3} {S : Type} `{!CasBackend S}.

Definition persist_leaf (key value : list byte) : stM S EpochsError Hash :=
  let node := make_leaf key value in
  cas_put THamtLeaf (encode_node node).

Definition persist_bitmap (bitmap : Z) (children : list Hash) : stM S EpochsError Hash :=
  let node := Bitmap bitmap children in
  cas_put THamtBitmap (encode_node node).

Definition load_node (hash : Hash) : stM S EpochsError HamtNode :=
  '(record_type, payload) ← cas_get_record hash;
  lift (decode_node record_type payload).

(** [expand_leaf_collision], with the recursive call to [insert_internal] as an argument. *)
Definition expand_leaf_collision
    (insert_internal : option Hash -> list byte -> list byte -> Hash -> nat ->
      stM S EpochsError Hash)
    (existing_key existing_val : list byte) (existing_key_hash : Hash)
    (new_key new_val : list byte) (new_key_hash : Hash) (depth : nat) :
    stM S EpochsError Hash :=
  let chunk_old := extract_5bits existing_key_hash depth in
  let chunk_new := extract_5bits new_key_hash depth in
  if chunk_old =? chunk_new then
    old_leaf_hash ← persist_leaf existing_key existing_val;
    insert_internal (Some old_leaf_hash) new_key new_val new_key_hash (depth + 1)%nat
  else
    old_leaf_hash ← persist_leaf existing_key existing_val;
    new_leaf_hash ← persist_leaf new_key new_val;
    let bitmap := Z.lor (Z.shiftl 1 chunk_old) (Z.shiftl 1 chunk_new) in
    let children :=
      if chunk_old <? chunk_new then [old_leaf_hash; new_leaf_hash]
      else [new_leaf_hash; old_leaf_hash] in
    persist_bitmap bitmap children.

Fixpoint insert_internal (fuel : nat) (node_hash : option Hash) (key value : list byte)
    (key_hash : Hash) (depth : nat) : stM S EpochsError Hash :=
  match fuel with
  | O => no_fuel
  | Datatypes.S fuel =>
      match node_hash with
      | None => persist_leaf key value
      | Some hash =>
          node ← load_node hash;
          match node with
          | Leaf existing_key existing_val =>
              if decide (existing_key = key) then persist_leaf key value
              else
                let existing_key_hash := of_bytes existing_key in
                expand_leaf_collision (insert_internal fuel) existing_key existing_val
                  existing_key_hash key value key_hash depth
          | Bitmap bitmap children =>
              let branch := extract_5bits key_hash depth in
              let bit_mask := Z.shiftl 1 branch in
              let exists_ := negb (Z.land bitmap bit_mask =? 0) in
              if exists_ then
                let idx := child_index bitmap branch in
                child_hash ← or_panic (children !! idx);
                new_child ← insert_internal fuel (Some child_hash) key value key_hash
                  (depth + 1)%nat;
                let new_children := <[idx := new_child]> children in
                persist_bitmap bitmap new_children
              else
                new_leaf ← persist_leaf key value;
                let idx := child_index bitmap branch in
                new_children ← or_panic (vec_insert idx new_leaf children);
                persist_bitmap (Z.lor bitmap bit_mask) new_children
          end
      end
  end.

Fixpoint get_internal (fuel : nat) (node_hash : Hash) (key : list byte) (key_hash : Hash)
    (depth : nat) : stM S EpochsError (option (list byte)) :=
  match fuel with
  | O => no_fuel
  | Datatypes.S fuel =>
      node ← load_node node_hash;
      match node with
      | Leaf k v => if decide (k = key) then mret (Some v) else mret None
      | Bitmap bitmap children =>
          let branch := extract_5bits key_hash depth in
          let bit_mask := Z.shiftl 1 branch in
          if Z.land bitmap bit_mask =? 0 then mret None
          else
            let idx := child_index bitmap branch in
            child ← or_panic (children !! idx);
            get_internal fuel child key key_hash (depth + 1)%nat
      end
  end.

Fixpoint leaf_hash_internal (fuel : nat) (node_hash : Hash) (key : list byte)
    (key_hash : Hash) (depth : nat) : stM S EpochsError (option Hash) :=
  match fuel with
  | O => no_fuel
  | Datatypes.S fuel =>
      node ← load_node node_hash;
      match node with
      | Leaf k _ => if decide (k = key) then mret (Some node_hash) else mret None
      | Bitmap bitmap children =>
          let branch := extract_5bits key_hash depth in
          let bit_mask := Z.shiftl 1 branch in
          if Z.land bitmap bit_mask =? 0 then mret None
          else
            let idx := child_index bitmap branch in
            child ← or_panic (children !! idx);
            leaf_hash_internal fuel child key key_hash (depth + 1)%nat
      end
  end.

Fixpoint remove_internal (fuel : nat) (node_hash : Hash) (key : list byte)
    (key_hash : Hash) (depth : nat) : stM S EpochsError (option Hash) :=
  match fuel with
  | O => no_fuel
  | Datatypes.S fuel =>
      node ← load_node node_hash;
      match node with
      | Leaf k _ => if decide (k = key) then mret None else mret (Some node_hash)
      | Bitmap bitmap children =>
          let branch := extract_5bits key_hash depth in
          let bit_mask := Z.shiftl 1 branch in
          if Z.land bitmap bit_mask =? 0 then mret (Some node_hash)
          else
            let idx := child_index bitmap branch in
            child ← or_panic (children !! idx);
            removed ← remove_internal fuel child key key_hash (depth + 1)%nat;
            match removed with
            | None =>
                let new_children := delete idx children in
                let new_bitmap := Z.ldiff bitmap bit_mask in   (* bitmap & !bit_mask *)
                match new_children with
                | [] => mret None
                | _ => Some <$> persist_bitmap new_bitmap new_children
                end
            | Some new_child =>
                let new_children := <[idx := new_child]> children in
                Some <$> persist_bitmap bitmap new_children
            end
      end
  end.

(** [out] is the vector the code pushes to. *)
Fixpoint collect_entries (fuel : nat) (node_hash : Hash)
    (out : list (list byte * list byte)) :
    stM S EpochsError (list (list byte * list byte)) :=
  match fuel with
  | O => no_fuel
  | Datatypes.S fuel =>
      node ← load_node node_hash;
      match node with
      | Leaf key value => mret (out ++ [(key, value)])
      | Bitmap _ children =>
          foldl (fun acc child => out ← acc; collect_entries fuel child out)
            (mret out) children
      end
  end.

Definition insert (fuel : nat) (root : option Hash) (key value : list byte) :
    stM S EpochsError Hash :=
  let key_hash := of_bytes key in
  insert_internal fuel root key value key_hash 0.

Definition get (fuel : nat) (root : option Hash) (key : list byte) :
    stM S EpochsError (option (list byte)) :=
  match root with
  | None => mret None
  | Some root_hash => get_internal fuel root_hash key (of_bytes key) 0
  end.

Definition leaf_hash (fuel : nat) (root : option Hash) (key : list byte) :
    stM S EpochsError (option Hash) :=
  match root with
  | None => mret None
  | Some root_hash => leaf_hash_internal fuel root_hash key (of_bytes key) 0
  end.

Definition entries (fuel : nat) (root : option Hash) :
    stM S EpochsError (list (list byte * list byte)) :=
  match root with
  | None => mret []
  | Some root_hash => collect_entries fuel root_hash []
  end.

Definition remove (fuel : nat) (root : option Hash) (key : list byte) :
    stM S EpochsError (option Hash) :=
  match root with
  | None => mret None
  | Some root_hash => remove_internal fuel root_hash key (of_bytes key) 0
  end.

End ops.
End PersistentHamt.

(** ** The set bits of a word *)

Lemma filter_ext_in {A} (P Q : A -> Prop) `{forall x, Decision (P x), forall x, Decision (Q x)}
    (l : list A) :
  (forall x, x ∈ l -> P x <-> Q x) -> filter P l = filter Q l.
Proof.
  induction l as [|x l IH]; intros Hiff; [done|].
  rewrite !filter_cons, IH by (intros; apply Hiff; by right).
  destruct (decide (P x)) as [Hp|Hp]; destruct (decide (Q x)) as [Hq|Hq]; try done;
    rewrite (Hiff x) in Hp by left; done.
Qed.

Lemma filter_false {A} (P : A -> Prop) `{forall x, Decision (P x)} (l : list A) :
  (forall x, x ∈ l -> ~ P x) -> filter P l = [].
Proof.
  induction l as [|x l IH]; intros Hno; [done|].
  rewrite filter_cons, decide_False by (apply Hno; left). apply IH. intros. apply Hno. by right.
Qed.

(** The set bits below and above bit [b]. *)
Definition below (w b : Z) : list Z := filter (fun i => Z.testbit w i) (seqZ 0 b).
Definition above (w b : Z) : list Z := filter (fun i => Z.testbit w i) (seqZ (b + 1) (31 - b)).

Lemma bits_split w b :
  0 <= b < 32 ->
  bits w = below w b ++ (if Z.testbit w b then [b] else []) ++ above w b.
Proof.
  intros Hb. unfold bits, below, above.
  replace 32 with (b + (32 - b)) at 1 by lia. rewrite seqZ_app by lia.
  rewrite filter_app. f_equal. rewrite seqZ_cons by lia. rewrite filter_cons.
  replace (Z.succ (0 + b)) with (b + 1) by lia. replace (Z.pred (32 - b)) with (31 - b) by lia.
  replace (0 + b) with b by lia. by destruct (Z.testbit w b).
Qed.

Lemma elem_of_bits w b : b ∈ bits w <-> Z.testbit w b /\ 0 <= b < 32.
Proof. unfold bits. rewrite list_elem_of_filter, elem_of_seqZ. naive_solver lia. Qed.

Lemma elem_of_below w b i : i ∈ below w b -> i < b.
Proof. unfold below. rewrite list_elem_of_filter, elem_of_seqZ. naive_solver lia. Qed.

Lemma elem_of_above w b i : i ∈ above w b -> b < i.
Proof. unfold above. rewrite list_elem_of_filter, elem_of_seqZ. naive_solver lia. Qed.

(** [below] and [above] do not depend on bit [b] itself. *)
Lemma below_above_ext w w' b :
  (forall i, i ≠ b -> Z.testbit w i = Z.testbit w' i) ->
  below w b = below w' b /\ above w b = above w' b.
Proof.
  intros Hi. unfold below, above.
  split; apply filter_ext_in; intros i; rewrite elem_of_seqZ; intros; rewrite Hi by lia; done.
Qed.

Lemma testbit_mask b i : 0 <= b -> Z.testbit (Z.shiftl 1 b) i = bool_decide (i = b).
Proof.
  intros. rewrite Z.shiftl_1_l, Z.pow2_bits_eqb by lia.
  apply eq_true_iff_eq. rewrite bool_decide_eq_true. lia.
Qed.

Lemma testbit_set w b i :
  0 <= b -> Z.testbit (Z.lor w (Z.shiftl 1 b)) i = Z.testbit w i || bool_decide (i = b).
Proof. intros. by rewrite Z.lor_spec, testbit_mask. Qed.

Lemma testbit_clear w b i :
  0 <= b ->
  Z.testbit (Z.ldiff w (Z.shiftl 1 b)) i = Z.testbit w i && negb (bool_decide (i = b)).
Proof. intros. by rewrite Z.ldiff_spec, testbit_mask. Qed.

Lemma below_above_set w b :
  0 <= b ->
  below (Z.lor w (Z.shiftl 1 b)) b = below w b /\ above (Z.lor w (Z.shiftl 1 b)) b = above w b.
Proof.
  intros. apply below_above_ext. intros i Hi.
  rewrite testbit_set, bool_decide_false by done. by rewrite orb_false_r.
Qed.

Lemma below_above_clear w b :
  0 <= b ->
  below (Z.ldiff w (Z.shiftl 1 b)) b = below w b /\
  above (Z.ldiff w (Z.shiftl 1 b)) b = above w b.
Proof.
  intros. apply below_above_ext. intros i Hi.
  rewrite testbit_clear, bool_decide_false by done. by rewrite andb_true_r.
Qed.

(** The test [(bitmap & bit_mask) == 0] of the code. *)
Lemma land_mask_zero w b : 0 <= b -> (Z.land w (Z.shiftl 1 b) =? 0) = negb (Z.testbit w b).
Proof.
  intros Hb. apply eq_true_iff_eq. rewrite Z.eqb_eq, negb_true_iff. split.
  - intros E. apply (f_equal (fun x => Z.testbit x b)) in E.
    rewrite Z.land_spec, testbit_mask, bool_decide_true, Z.bits_0, andb_true_r in E by done.
    done.
  - intros E. apply Z.bits_inj'. intros i _.
    rewrite Z.land_spec, testbit_mask, Z.bits_0 by done.
    destruct (decide (i = b)) as [->|Hi]; [by rewrite E|].
    by rewrite bool_decide_false, andb_false_r.
Qed.

(** [child_index] counts the set bits below the branch. *)
Lemma child_index_below w b :
  0 <= b < 32 -> PersistentHamt.child_index w b = length (below w b).
Proof.
  intros Hb. unfold PersistentHamt.child_index, count_ones.
  assert (forall i, Z.testbit (Z.land w (Z.shiftl 1 b - 1)) i =
    Z.testbit w i && bool_decide (0 <= i < b)) as Hi.
  { intros i. rewrite Z.land_spec. f_equal.
    replace (Z.shiftl 1 b - 1) with (Z.ones b) by (rewrite Z.shiftl_1_l, Z.ones_equiv; lia).
    rewrite Z.testbit_ones by lia. apply eq_true_iff_eq. rewrite bool_decide_eq_true. lia. }
  rewrite (bits_split _ b Hb), Hi, (bool_decide_false (0 <= b < b)), andb_false_r by lia.
  rewrite !length_app. cbn [length].
  assert (above (Z.land w (Z.shiftl 1 b - 1)) b = []) as ->.
  { unfold above. apply filter_false. intros i Hin. apply elem_of_seqZ in Hin.
    rewrite Hi, bool_decide_false, andb_false_r by lia. auto. }
  cbn [length]. rewrite Nat.add_0_r. f_equal. unfold below. apply filter_ext_in.
  intros i Hin. apply elem_of_seqZ in Hin. rewrite Hi, bool_decide_true, andb_true_r by lia.
  done.
Qed.

(** Setting and clearing a bit of a [u32] gives a [u32]. *)
Lemma u32_bits w : 0 <= w -> (forall i, 32 <= i -> Z.testbit w i = false) -> w < 2 ^ 32.
Proof.
  intros Hw Hi. destruct (decide (w = 0)) as [->|Hz]; [done|].
  apply Z.log2_lt_pow2; [lia|]. destruct (decide (Z.log2 w < 32)) as [|Hge]; [done|].
  pose proof (Z.bit_log2 w ltac:(lia)) as Hlog. rewrite Hi in Hlog by lia. done.
Qed.

Lemma u32_testbit w i : 0 <= w < 2 ^ 32 -> 32 <= i -> Z.testbit w i = false.
Proof.
  intros [Hw Hlt] Hi. destruct (decide (w = 0)) as [->|]; [apply Z.bits_0|].
  apply Z.bits_above_log2; [done|]. enough (Z.log2 w < 32) by lia.
  apply Z.log2_lt_pow2; lia.
Qed.

Lemma set_u32 w b :
  0 <= w < 2 ^ 32 -> 0 <= b < 32 -> 0 <= Z.lor w (Z.shiftl 1 b) < 2 ^ 32.
Proof.
  intros Hw Hb.
  assert (0 <= Z.lor w (Z.shiftl 1 b)) as H0.
  { apply Z.lor_nonneg. split; [lia|]. by apply Z.shiftl_nonneg. }
  split; [done|]. apply u32_bits; [done|]. intros i Hi.
  rewrite testbit_set, bool_decide_false, orb_false_r by lia. by apply u32_testbit.
Qed.

Lemma clear_u32 w b :
  0 <= w < 2 ^ 32 -> 0 <= b < 32 -> 0 <= Z.ldiff w (Z.shiftl 1 b) < 2 ^ 32.
Proof.
  intros Hw Hb.
  assert (0 <= Z.ldiff w (Z.shiftl 1 b)) as H0 by (apply Z.ldiff_nonneg; lia).
  split; [done|]. apply u32_bits; [done|]. intros i Hi.
  rewrite testbit_clear, bool_decide_false, andb_true_r by lia. by apply u32_testbit.
Qed.

(** A word is its set bits. *)
Lemma bits_inj w w' : 0 <= w < 2 ^ 32 -> 0 <= w' < 2 ^ 32 -> bits w = bits w' -> w = w'.
Proof.
  intros Hw Hw' E. apply Z.bits_inj'. intros i Hi.
  destruct (decide (i < 32)).
  - apply eq_true_iff_eq. rewrite <- !Is_true_true.
    pose proof (elem_of_bits w i). pose proof (elem_of_bits w' i). rewrite E in *.
    split; intros; naive_solver lia.
  - by rewrite !u32_testbit by lia.
Qed.

Lemma length_bits w : (length (bits w) <= 32)%nat.
Proof.
  unfold bits. etransitivity; [apply length_filter|]. by rewrite length_seqZ.
Qed.

(** ** The chunks of a key hash *)

(** The 256-bit number of a hash. *)
Definition hash_val (h : Hash) : Z := of_le (as_bytes h).

Lemma land_31 z : Z.land z 31 = z mod 32.
Proof. change 31 with (Z.ones 5). by rewrite Z.land_ones by lia. Qed.

Lemma lor_shift8 b0 b1 : 0 <= b0 < 256 -> Z.lor b0 (Z.shiftl b1 8) = b0 + 256 * b1.
Proof.
  intros H0. rewrite <- Z.add_nocarry_lor; [rewrite Z.shiftl_mul_pow2 by lia; lia|].
  apply Z.bits_inj'. intros j Hj. rewrite Z.land_spec, Z.bits_0.
  destruct (decide (j < 8)).
  - by rewrite Z.shiftl_spec_low, andb_false_r by lia.
  - rewrite <- (Z.mod_small b0 (2 ^ 8)) by done. by rewrite Z.mod_pow2_bits_high by lia.
Qed.

Lemma extract_5bits_range h d : 0 <= PersistentHamt.extract_5bits h d < 32.
Proof.
  unfold PersistentHamt.extract_5bits. cbv zeta. destruct (31 <=? _); rewrite land_31; by apply Z.mod_pos_bound.
Qed.

Lemma drop_hash_byte h (i : Z) :
  0 <= i < 32 ->
  drop (Z.to_nat i) (as_bytes h) =
  default Byte.x00 (as_bytes h !! Z.to_nat i) :: drop (Z.to_nat (i + 1)) (as_bytes h).
Proof.
  intros Hi. destruct (lookup_lt_is_Some_2 (as_bytes h) (Z.to_nat i)) as [b Hb].
  { rewrite length_as_bytes. lia. }
  rewrite (drop_S _ b) by done. rewrite Hb. by replace (Z.to_nat (i + 1)) with (Datatypes.S (Z.to_nat i)) by lia.
Qed.

(** Up to depth 51 a chunk is the next five bits of the hash, little-endian. *)
Lemma extract_5bits_eq h d :
  (d <= 51)%nat ->
  PersistentHamt.extract_5bits h d = (hash_val h / 2 ^ (5 * Z.of_nat d)) mod 32.
Proof.
  intros Hd. unfold PersistentHamt.extract_5bits, PersistentHamt.hash_byte, hash_val. cbv zeta.
  set (i := Z.of_nat d * 5 / 8). set (off := Z.of_nat d * 5 mod 8).
  pose proof (Z.div_mod (Z.of_nat d * 5) 8 ltac:(lia)) as Hdm. fold i off in Hdm.
  assert (0 <= off < 8) as Hoff by by apply Z.mod_pos_bound.
  assert (0 <= i < 32) as Hi by lia.
  assert (5 * Z.of_nat d = 8 * i + off) as -> by lia.
  rewrite (Z.pow_add_r 2), Z.pow_mul_r by lia. change (2 ^ 8) with 256.
  rewrite <- Z.div_div by lia.
  replace (of_le (as_bytes h) / 256 ^ i) with (of_le (drop (Z.to_nat i) (as_bytes h)))
    by (rewrite of_le_drop, Z2Nat.id by lia; done).
  rewrite drop_hash_byte by done. cbn [of_le].
  pose proof (byte_val_range (default Byte.x00 (as_bytes h !! Z.to_nat i))).
  destruct (31 <=? i) eqn:Hle.
  - assert (i = 31) as Ei by lia. rewrite Ei in *. rewrite drop_ge by (by rewrite length_as_bytes).
    cbn [of_le]. rewrite land_31, (Z.mod_small off), Z.shiftr_div_pow2 by lia.
    by rewrite Z.mul_0_r, Z.add_0_r.
  - rewrite drop_hash_byte by lia. cbn [of_le].
    pose proof (byte_val_range (default Byte.x00 (as_bytes h !! Z.to_nat (i + 1)))).
    set (b0 := byte_val _) in *. set (b1 := byte_val (default _ (_ !! Z.to_nat (i + 1)))) in *.
    set (r := of_le _).
    rewrite land_31, Z.shiftr_div_pow2 by lia.
    rewrite lor_shift8 by done.
    replace (b0 + 256 * (b1 + 256 * r)) with
      (b0 + 256 * b1 + (r * 2 ^ (16 - off)) * 2 ^ off).
    2:{ rewrite <- Z.mul_assoc, <- Z.pow_add_r by lia.
        replace (16 - off + off) with 16 by lia. change (2 ^ 16) with 65536. ring. }
    rewrite Z.div_add by lia.
    replace (16 - off) with (11 - off + 5) by lia. rewrite Z.pow_add_r by lia.
    change (2 ^ 5) with 32. rewrite Z.mul_assoc, Z.mod_add by lia. done.
Qed.

Lemma digits_32_inj (n : nat) a b :
  0 <= a < 32 ^ Z.of_nat n -> 0 <= b < 32 ^ Z.of_nat n ->
  (forall d, (d < n)%nat -> (a / 2 ^ (5 * Z.of_nat d)) mod 32 = (b / 2 ^ (5 * Z.of_nat d)) mod 32) ->
  a = b.
Proof.
  revert a b. induction n as [|n IH]; intros a b Ha Hb Hd.
  - change (32 ^ Z.of_nat 0) with 1 in *. lia.
  - rewrite Nat2Z.inj_succ, Z.pow_succ_r in Ha, Hb by lia.
    pose proof (Hd 0%nat ltac:(lia)) as H0. change (2 ^ (5 * Z.of_nat 0)) with 1 in H0.
    rewrite !Z.div_1_r in H0.
    assert (a / 32 = b / 32) as E; [|pose proof (Z.div_mod a 32); pose proof (Z.div_mod b 32); lia].
    apply IH; [Z.div_mod_to_equations; lia..|]. intros d Hlt.
    specialize (Hd (Datatypes.S d) ltac:(lia)).
    replace (5 * Z.of_nat (Datatypes.S d)) with (5 + 5 * Z.of_nat d) in Hd by lia.
    rewrite Z.pow_add_r in Hd by lia. change (2 ^ 5) with 32 in Hd.
    by rewrite <- !Z.div_div in Hd by lia.
Qed.

(** Distinct hashes differ in some chunk at depth at most 51. *)
Lemma hashes_differ (h h' : Hash) :
  h ≠ h' -> exists d, (d <= 51)%nat /\
    PersistentHamt.extract_5bits h d ≠ PersistentHamt.extract_5bits h' d.
Proof.
  intros Hne.
  destruct (decide (Exists (fun d => PersistentHamt.extract_5bits h d ≠
    PersistentHamt.extract_5bits h' d) (seq 0 52))) as [Hex|Hno].
  - apply Exists_exists in Hex as (d & Hd & Hdiff). apply elem_of_seq in Hd.
    exists d. split; [lia|done].
  - exfalso. apply Hne. apply Hash_eq.
    apply of_le_inj; [by rewrite !length_as_bytes|].
    apply (digits_32_inj 52).
    1,2: pose proof (of_le_range (as_bytes h)); pose proof (of_le_range (as_bytes h'));
         rewrite !length_as_bytes in *; change (32 ^ Z.of_nat 52) with (2 ^ 260);
         change (256 ^ Z.of_nat 32) with (2 ^ 256) in *; lia.
    intros d Hd. fold (hash_val h) (hash_val h').
    rewrite <- !extract_5bits_eq by lia.
    destruct (decide (PersistentHamt.extract_5bits h d = PersistentHamt.extract_5bits h' d));
      [done|].
    exfalso. apply Hno, Exists_exists. exists d. split; [|done]. apply elem_of_seq. lia.
Qed.
