(* ===== verification/HamtTree.v ===== *)
(** * The trees the HAMT nodes describe

    A HAMT root is the hash of a tree of nodes. This file gives the trees, the operations
    of [hamt/tree.rs] on them and what they do to the entries: on a well-formed tree they
    are the operations of a finite map. [HamtProofs] shows that the code on the stored
    nodes computes these functions. *)

From S2P Require Import Prelude Utf8 Hash Codec Record HamtNode Hamt.

Inductive tree :=
| TLeaf (k v : list byte)
| TNode (bm : Z) (cs : list tree).

(** Induction over a tree with the hypothesis for every child. *)
Lemma tree_ind' (P : tree -> Prop) :
  (forall k v, P (TLeaf k v)) ->
  (forall bm cs, (forall c, c ∈ cs -> P c) -> P (TNode bm cs)) ->
  forall t, P t.
Proof.
  intros Hl Hn. fix IH 1. intros [k v|bm cs]; [apply Hl|]. apply Hn.
  assert (Forall P cs) as HF by (induction cs as [|c cs IHcs]; constructor; [apply IH|exact IHcs]).
  by rewrite Forall_forall in HF.
Qed.

Fixpoint tree_entries (t : tree) : list (list byte * list byte) :=
  match t with
  | TLeaf k v => [(k, v)]
  | TNode _ cs => concat (map tree_entries cs)
  end.

Arguments tree_entries : simpl never.

Fixpoint tree_height (t : tree) : nat :=
  match t with
  | TLeaf _ _ => 0
  | TNode _ cs => S (list_max (map tree_height cs))
  end.

Section tree.
Context `{Blake3}.

(** The branch a key takes at a depth. *)
Definition chunk (k : list byte) (d : nat) : Z :=
  PersistentHamt.extract_5bits (of_bytes k) d.

Lemma chunk_range k d : 0 <= chunk k d < 32.
Proof. apply extract_5bits_range. Qed.

(** The first depth from [d] on at which two hashes differ, within [n] levels. *)
Fixpoint split_depth (n : nat) (h h' : Hash) (d : nat) : option nat :=
  match n with
  | O => None
  | S n =>
      if PersistentHamt.extract_5bits h d =? PersistentHamt.extract_5bits h' d
      then split_depth n h h' (d + 1)%nat else Some d
  end.

(** The node [expand_leaf_collision] makes of two leaves that meet at depth [d]: it is
    keyed by the first depth at which the hashes differ. *)
Definition tree_expand (d : nat) (k' v' k v : list byte) : option tree :=
  e ← split_depth 52 (of_bytes k') (of_bytes k) d;
  let chunk_old := chunk k' e in
  let chunk_new := chunk k e in
  Some (TNode (Z.lor (Z.shiftl 1 chunk_old) (Z.shiftl 1 chunk_new))
    (if chunk_old <? chunk_new then [TLeaf k' v'; TLeaf k v] else [TLeaf k v; TLeaf k' v'])).

Fixpoint tree_insert (d : nat) (t : tree) (k v : list byte) {struct t} : option tree :=
  match t with
  | TLeaf k' v' =>
      if decide (k' = k) then Some (TLeaf k v) else tree_expand d k' v' k v
  | TNode bm cs =>
      let b := chunk k d in
      let idx := PersistentHamt.child_index bm b in
      if Z.testbit bm b then
        c' ← mjoin (map (fun c => tree_insert (d + 1)%nat c k v) cs !! idx);
        Some (TNode bm (<[idx := c']> cs))
      else
        cs' ← vec_insert idx (TLeaf k v) cs;
        Some (TNode (Z.lor bm (Z.shiftl 1 b)) cs')
  end.

Fixpoint tree_get (d : nat) (t : tree) (k : list byte) {struct t} : option (list byte) :=
  match t with
  | TLeaf k' v => if decide (k' = k) then Some v else None
  | TNode bm cs =>
      let b := chunk k d in
      if Z.testbit bm b then
        mjoin (map (fun c => tree_get (d + 1)%nat c k) cs !! PersistentHamt.child_index bm b)
      else None
  end.

(** [None]: the tree has become empty. *)
Fixpoint tree_remove (d : nat) (t : tree) (k : list byte) {struct t} : option tree :=
  match t with
  | TLeaf k' v => if decide (k' = k) then None else Some (TLeaf k' v)
  | TNode bm cs =>
      let b := chunk k d in
      let idx := PersistentHamt.child_index bm b in
      if Z.testbit bm b then
        match mjoin (map (fun c => tree_remove (d + 1)%nat c k) cs !! idx) with
        | None =>
            match delete idx cs with
            | [] => None
            | cs' => Some (TNode (Z.ldiff bm (Z.shiftl 1 b)) cs')
            end
        | Some c' => Some (TNode bm (<[idx := c']> cs))
        end
      else Some (TNode bm cs)
  end.

(** The insertion of [k] reaches a leaf of another key with the same branch at that depth:
    the case in which [expand_leaf_collision] recurses. *)
Fixpoint tree_clash (d : nat) (t : tree) (k : list byte) {struct t} : bool :=
  match t with
  | TLeaf k' _ => bool_decide (k' ≠ k) && (chunk k' d =? chunk k d)
  | TNode bm cs =>
      let b := chunk k d in
      Z.testbit bm b &&
      default false (map (fun c => tree_clash (d + 1)%nat c k) cs !!
                     PersistentHamt.child_index bm b)
  end.

(** ** Well-formed trees *)

(** Bitmaps are [u32]s with one set bit per child. *)
Inductive tree_shape : tree -> Prop :=
| shape_leaf k v : tree_shape (TLeaf k v)
| shape_node bm cs :
    0 <= bm < 2 ^ 32 -> length cs = length (bits bm) -> Forall tree_shape cs ->
    tree_shape (TNode bm cs).

(** Every key sits in the child of the branch it takes. *)
Inductive tree_wf : nat -> tree -> Prop :=
| wf_leaf d k v : tree_wf d (TLeaf k v)
| wf_node d bm cs :
    0 <= bm < 2 ^ 32 ->
    Forall2 (fun b c => tree_wf (d + 1)%nat c /\
                        (forall k v, (k, v) ∈ tree_entries c -> chunk k d = b)) (bits bm) cs ->
    tree_wf d (TNode bm cs).

(** The requirement on the child of branch [b] of a node at depth [d]. *)
Definition child_wf (d : nat) (b : Z) (c : tree) : Prop :=
  tree_wf (d + 1)%nat c /\ (forall k v, (k, v) ∈ tree_entries c -> chunk k d = b).

(** ** Lemmas on the shape *)

Lemma tree_entries_leaf k v : tree_entries (TLeaf k v) = [(k, v)].
Proof. done. Qed.

Lemma tree_entries_node bm cs : tree_entries (TNode bm cs) = cs ≫= tree_entries.
Proof.
  change (concat (map tree_entries cs) = cs ≫= tree_entries).
  induction cs as [|c cs IH]; [done|]. simpl. by rewrite IH.
Qed.

Lemma elem_of_leaf_entries k v k0 v0 :
  (k0, v0) ∈ tree_entries (TLeaf k v) <-> k0 = k /\ v0 = v.
Proof. rewrite tree_entries_leaf, list_elem_of_singleton. naive_solver. Qed.

Lemma elem_of_node_entries bm cs e :
  e ∈ tree_entries (TNode bm cs) <-> exists c, e ∈ tree_entries c /\ c ∈ cs.
Proof. rewrite tree_entries_node. apply list_elem_of_bind. Qed.

(** The children below, at and above a branch. *)
Lemma Forall2_bits_split (P : Z -> tree -> Prop) bm cs b :
  0 <= b < 32 -> Forall2 P (bits bm) cs ->
  exists cs1 cm cs2, cs = cs1 ++ cm ++ cs2 /\
    length cs1 = PersistentHamt.child_index bm b /\
    Forall2 P (below bm b) cs1 /\
    Forall2 P (if Z.testbit bm b then [b] else []) cm /\
    Forall2 P (above bm b) cs2.
Proof.
  intros Hb HF. rewrite (bits_split bm b) in HF by done.
  apply Forall2_app_inv_l in HF as (cs1 & cs' & H1 & HF & ->).
  apply Forall2_app_inv_l in HF as (cm & cs2 & Hm & H2 & ->).
  exists cs1, cm, cs2. split; [done|]. split; [|done].
  rewrite child_index_below by done. symmetry. by eapply Forall2_length.
Qed.

(** A set branch selects a child. *)
Lemma bits_child_set (P : Z -> tree -> Prop) bm cs b :
  0 <= b < 32 -> Forall2 P (bits bm) cs -> Z.testbit bm b = true ->
  exists cs1 c cs2, cs = cs1 ++ c :: cs2 /\
    length cs1 = PersistentHamt.child_index bm b /\
    Forall2 P (below bm b) cs1 /\ P b c /\ Forall2 P (above bm b) cs2.
Proof.
  intros Hb HF Hbit. destruct (Forall2_bits_split P bm cs b Hb HF) as
    (cs1 & cm & cs2 & -> & Hlen & H1 & Hm & H2).
  rewrite Hbit in Hm. apply Forall2_cons_inv_l in Hm as (c & l & Hc & Hl & ->).
  apply Forall2_nil_inv_l in Hl as ->. by exists cs1, c, cs2.
Qed.

Lemma bits_child_unset (P : Z -> tree -> Prop) bm cs b :
  0 <= b < 32 -> Forall2 P (bits bm) cs -> Z.testbit bm b = false ->
  exists cs1 cs2, cs = cs1 ++ cs2 /\
    length cs1 = PersistentHamt.child_index bm b /\
    Forall2 P (below bm b) cs1 /\ Forall2 P (above bm b) cs2.
Proof.
  intros Hb HF Hbit. destruct (Forall2_bits_split P bm cs b Hb HF) as
    (cs1 & cm & cs2 & -> & Hlen & H1 & Hm & H2).
  rewrite Hbit in Hm. apply Forall2_nil_inv_l in Hm as ->. by exists cs1, cs2.
Qed.

Lemma lookup_mid {A} (l1 l2 : list A) x n : length l1 = n -> (l1 ++ x :: l2) !! n = Some x.
Proof. intros <-. rewrite lookup_app_r, Nat.sub_diag by done. done. Qed.

Lemma insert_mid {A} (l1 l2 : list A) x y n :
  length l1 = n -> <[n := y]> (l1 ++ x :: l2) = l1 ++ y :: l2.
Proof. intros <-. rewrite insert_app_r_alt, Nat.sub_diag by done. done. Qed.

Lemma delete_mid {A} (l1 l2 : list A) x n :
  length l1 = n -> delete n (l1 ++ x :: l2) = l1 ++ l2.
Proof. intros <-. induction l1 as [|y l1 IH]; [done|]. simpl. by rewrite IH. Qed.

Lemma vec_insert_mid {A} (l1 l2 : list A) x n :
  length l1 = n -> vec_insert n x (l1 ++ l2) = Some (l1 ++ x :: l2).
Proof.
  intros <-. unfold vec_insert. rewrite decide_True by (rewrite length_app; lia).
  by rewrite take_app_length, drop_app_length.
Qed.

Lemma map_mid {A B} (f : A -> B) (l1 l2 : list A) x n :
  length l1 = n -> map f (l1 ++ x :: l2) !! n = Some (f x).
Proof. intros Hn. rewrite map_app. simpl. apply lookup_mid. by rewrite length_map. Qed.

Lemma lookup_map {A B} (f : A -> B) l i : map f l !! i = f <$> l !! i.
Proof. revert i. induction l as [|x l IH]; intros [|i]; simpl; auto. Qed.

Lemma child_mid {A B} (f : A -> option B) (l1 l2 : list A) x n :
  length l1 = n -> mjoin (map f (l1 ++ x :: l2) !! n) = f x.
Proof. intros Hn. by rewrite map_mid. Qed.

(** Reassemble the children when a branch is filled, set or cleared. *)
Lemma Forall2_bits_keep (P : Z -> tree -> Prop) bm b cs1 c cs2 :
  0 <= b < 32 -> Z.testbit bm b = true ->
  Forall2 P (below bm b) cs1 -> P b c -> Forall2 P (above bm b) cs2 ->
  Forall2 P (bits bm) (cs1 ++ c :: cs2).
Proof.
  intros Hb Hbit H1 Hc H2. rewrite (bits_split bm b), Hbit by done.
  apply Forall2_app; [done|]. by constructor.
Qed.

Lemma Forall2_bits_set (P : Z -> tree -> Prop) bm b cs1 c cs2 :
  0 <= b < 32 ->
  Forall2 P (below bm b) cs1 -> P b c -> Forall2 P (above bm b) cs2 ->
  Forall2 P (bits (Z.lor bm (Z.shiftl 1 b))) (cs1 ++ c :: cs2).
Proof.
  intros Hb H1 Hc H2. destruct (below_above_set bm b) as [E1 E2]; [lia|].
  apply Forall2_bits_keep with b; rewrite ?E1, ?E2; try done.
  rewrite testbit_set by lia. by rewrite bool_decide_true, orb_true_r.
Qed.

Lemma Forall2_bits_clear (P : Z -> tree -> Prop) bm b cs1 cs2 :
  0 <= b < 32 ->
  Forall2 P (below bm b) cs1 -> Forall2 P (above bm b) cs2 ->
  Forall2 P (bits (Z.ldiff bm (Z.shiftl 1 b))) (cs1 ++ cs2).
Proof.
  intros Hb H1 H2. destruct (below_above_clear bm b) as [E1 E2]; [lia|].
  rewrite (bits_split _ b), E1, E2 by done.
  rewrite testbit_clear, bool_decide_true, andb_false_r by lia. simpl. by apply Forall2_app.
Qed.

Lemma bits_pair_lt a b :
  0 <= a < b -> b < 32 -> bits (Z.lor (Z.shiftl 1 a) (Z.shiftl 1 b)) = [a; b].
Proof.
  intros Ha Hb. rewrite (bits_split _ b) by lia.
  destruct (below_above_set (Z.shiftl 1 a) b) as [-> ->]; [lia|].
  rewrite testbit_set, (bool_decide_true (b = b)), orb_true_r by lia.
  unfold above. rewrite filter_false.
  2:{ intros i Hi%elem_of_seqZ. rewrite testbit_mask, bool_decide_false by lia. auto. }
  unfold below. replace b with (a + (b - a)) at 1 by lia. rewrite seqZ_app, filter_app by lia.
  rewrite filter_false.
  2:{ intros i Hi%elem_of_seqZ. rewrite testbit_mask, bool_decide_false by lia. auto. }
  rewrite seqZ_cons, filter_cons, decide_True by
    (lia || (rewrite testbit_mask, bool_decide_true by lia; done)).
  rewrite filter_false.
  2:{ intros i Hi%elem_of_seqZ. rewrite testbit_mask, bool_decide_false by lia. auto. }
  simpl. by replace (0 + a) with a by lia.
Qed.

(** ** Entries of well-formed trees *)

Lemma tree_wf_node_inv d bm cs :
  tree_wf d (TNode bm cs) -> 0 <= bm < 2 ^ 32 /\ Forall2 (child_wf d) (bits bm) cs.
Proof. inversion 1; subst. done. Qed.

Lemma tree_shape_node_inv bm cs :
  tree_shape (TNode bm cs) ->
  0 <= bm < 2 ^ 32 /\ length cs = length (bits bm) /\ Forall tree_shape cs.
Proof. inversion 1; subst. done. Qed.

Lemma tree_wf_shape d t : tree_wf d t -> tree_shape t.
Proof.
  revert d. induction t as [k v|bm cs IH] using tree_ind'; intros d Hwf; [constructor|].
  apply tree_wf_node_inv in Hwf as [Hbm HF]. constructor; [done|..].
  - symmetry. by eapply Forall2_length.
  - apply Forall_forall. intros c Hc.
    apply list_elem_of_lookup in Hc as [i Hi].
    destruct (Forall2_lookup_r _ _ _ _ _ HF Hi) as (b & _ & Hwf & _).
    eapply IH; [|done]. by eapply list_elem_of_lookup_2.
Qed.

(** A key of a node's list of children takes one of their branches. *)
Lemma Forall2_child_chunk d bs cs c k v :
  Forall2 (child_wf d) bs cs -> c ∈ cs -> (k, v) ∈ tree_entries c -> chunk k d ∈ bs.
Proof.
  intros HF Hc Hkv. apply list_elem_of_lookup in Hc as [i Hi].
  destruct (Forall2_lookup_r _ _ _ _ _ HF Hi) as (b & Hb & _ & Hchunk).
  rewrite (Hchunk _ _ Hkv). by eapply list_elem_of_lookup_2.
Qed.

Lemma below_no_chunk d bm b cs c k v :
  Forall2 (child_wf d) (below bm b) cs -> c ∈ cs -> (k, v) ∈ tree_entries c ->
  chunk k d < b.
Proof. intros HF Hc Hkv. eapply elem_of_below, Forall2_child_chunk; done. Qed.

Lemma above_no_chunk d bm b cs c k v :
  Forall2 (child_wf d) (above bm b) cs -> c ∈ cs -> (k, v) ∈ tree_entries c ->
  b < chunk k d.
Proof. intros HF Hc Hkv. eapply elem_of_above, Forall2_child_chunk; done. Qed.

(** The entries of a node by the branch of the key. *)
Lemma node_entries_split d bm b cs1 c cs2 k v :
  Forall2 (child_wf d) (below bm b) cs1 -> Forall2 (child_wf d) (above bm b) cs2 ->
  (k, v) ∈ tree_entries (TNode bm (cs1 ++ c :: cs2)) ->
  (k, v) ∈ tree_entries c \/ (chunk k d ≠ b /\ (k, v) ∈ tree_entries (TNode bm (cs1 ++ cs2))).
Proof.
  intros H1 H2 (c' & Hkv & Hc)%elem_of_node_entries.
  apply elem_of_app in Hc as [Hc|[->|Hc]%elem_of_cons]; [right|by left|right].
  - pose proof (below_no_chunk _ _ _ _ _ _ _ H1 Hc Hkv). split; [lia|].
    apply elem_of_node_entries. exists c'. split; [done|]. apply elem_of_app. by left.
  - pose proof (above_no_chunk _ _ _ _ _ _ _ H2 Hc Hkv). split; [lia|].
    apply elem_of_node_entries. exists c'. split; [done|]. apply elem_of_app. by right.
Qed.

Lemma node_entries_others d bm b cs1 cs2 k v :
  Forall2 (child_wf d) (below bm b) cs1 -> Forall2 (child_wf d) (above bm b) cs2 ->
  (k, v) ∈ tree_entries (TNode bm (cs1 ++ cs2)) -> chunk k d ≠ b.
Proof.
  intros H1 H2 (c' & Hkv & Hc)%elem_of_node_entries.
  apply elem_of_app in Hc as [Hc|Hc].
  - pose proof (below_no_chunk _ _ _ _ _ _ _ H1 Hc Hkv). lia.
  - pose proof (above_no_chunk _ _ _ _ _ _ _ H2 Hc Hkv). lia.
Qed.

Lemma elem_of_node_mid bm cs1 c cs2 e :
  e ∈ tree_entries (TNode bm (cs1 ++ c :: cs2)) <->
  e ∈ tree_entries c \/ e ∈ tree_entries (TNode bm (cs1 ++ cs2)).
Proof. rewrite !elem_of_node_entries. setoid_rewrite elem_of_app. setoid_rewrite elem_of_cons. naive_solver. Qed.

(** ** Lookup *)

Lemma tree_get_entries d t k v :
  tree_wf d t -> tree_get d t k = Some v <-> (k, v) ∈ tree_entries t.
Proof.
  revert d. induction t as [k' v'|bm cs IH] using tree_ind'; intros d Hwf; simpl tree_get.
  - rewrite elem_of_leaf_entries. case_decide; naive_solver.
  - apply tree_wf_node_inv in Hwf as [Hbm HF]. pose proof (chunk_range k d) as Hb.
    destruct (Z.testbit bm (chunk k d)) eqn:Hbit.
    + destruct (bits_child_set _ _ _ _ Hb HF Hbit) as (cs1 & c & cs2 & -> & Hlen & H1 & [Hc _] & H2).
      rewrite child_mid by done. rewrite IH by (done || set_solver).
      rewrite elem_of_node_mid. split; [by left|]. intros [Hkv|Hkv]; [done|].
      by apply (node_entries_others d _ _ _ _ _ _ H1 H2) in Hkv.
    + destruct (bits_child_unset _ _ _ _ Hb HF Hbit) as (cs1 & cs2 & -> & Hlen & H1 & H2).
      split; [done|]. intros Hkv. by apply (node_entries_others d _ _ _ _ _ _ H1 H2) in Hkv.
Qed.

Lemma children_nodup d bs cs :
  NoDup bs -> Forall2 (child_wf d) bs cs ->
  (forall c, c ∈ cs -> NoDup (tree_entries c).*1) ->
  NoDup (concat (map tree_entries cs)).*1.
Proof.
  intros Hnd HF. induction HF as [|b c bs cs [Hc Hchunk] HF IH]; intros Hcs; [constructor|].
  inversion Hnd as [|? ? Hb Hnd']; subst. simpl. rewrite fmap_app. apply NoDup_app.
  split; [apply Hcs; by left|]. split; [|apply IH; [done|]; intros; apply Hcs; by right].
  intros k Hk Hk'. apply list_elem_of_fmap in Hk as ([k1 v1] & -> & Hk).
  apply list_elem_of_fmap in Hk' as ([k2 v2] & E & Hk'). simpl in E. subst k2.
  change (concat (map tree_entries cs)) with (tree_entries (TNode 0 cs)) in Hk'.
  apply elem_of_node_entries in Hk' as (c' & Hk' & Hin).
  pose proof (Forall2_child_chunk _ _ _ _ _ _ HF Hin Hk') as Hbs.
  by rewrite (Hchunk _ _ Hk) in Hbs.
Qed.

Lemma bits_nodup w : NoDup (bits w).
Proof. apply NoDup_filter, NoDup_seqZ. Qed.

Lemma tree_entries_nodup d t : tree_wf d t -> NoDup (tree_entries t).*1.
Proof.
  revert d. induction t as [k' v'|bm cs IH] using tree_ind'; intros d Hwf.
  - apply NoDup_singleton.
  - apply tree_wf_node_inv in Hwf as [Hbm HF].
    apply (children_nodup d (bits bm)); [apply bits_nodup|done|].
    intros c Hc. apply (IH c Hc (d + 1)%nat).
    apply list_elem_of_lookup in Hc as [i Hi].
    destruct (Forall2_lookup_r _ _ _ _ _ HF Hi) as (b & _ & Hwf & _). done.
Qed.

(** ** Insertion *)

Lemma split_depth_Some n h h' d e :
  split_depth n h h' d = Some e ->
  (d <= e)%nat /\ PersistentHamt.extract_5bits h e ≠ PersistentHamt.extract_5bits h' e.
Proof.
  revert d. induction n as [|n IH]; intros d; [done|]. cbn [split_depth].
  destruct (Z.eqb_spec (PersistentHamt.extract_5bits h d) (PersistentHamt.extract_5bits h' d)).
  - intros [??]%IH. split; [lia|done].
  - by intros [= <-].
Qed.

Lemma split_depth_total n h h' d i :
  (d <= i < d + n)%nat ->
  PersistentHamt.extract_5bits h i ≠ PersistentHamt.extract_5bits h' i ->
  is_Some (split_depth n h h' d).
Proof.
  revert d. induction n as [|n IH]; intros d Hi Hne; [lia|]. cbn [split_depth].
  destruct (Z.eqb_spec (PersistentHamt.extract_5bits h d) (PersistentHamt.extract_5bits h' d)).
  - apply IH; [|done]. destruct (decide (d = i)) as [->|]; [done|lia].
  - by eexists.
Qed.

Lemma tree_expand_entries d k' v' k v t' e :
  tree_expand d k' v' k v = Some t' ->
  e ∈ tree_entries t' <-> e = (k', v') \/ e = (k, v).
Proof.
  unfold tree_expand. intros (x & _ & [= <-])%bind_Some.
  destruct (_ <? _); unfold tree_entries; simpl; set_solver.
Qed.

Lemma tree_insert_entries d t k v t' k0 v0 :
  tree_wf d t -> tree_insert d t k v = Some t' ->
  (k0, v0) ∈ tree_entries t' <->
  (k0 = k /\ v0 = v) \/ (k0 ≠ k /\ (k0, v0) ∈ tree_entries t).
Proof.
  revert d t'. induction t as [k' v'|bm cs IH] using tree_ind'; intros d t' Hwf;
    cbn [tree_insert].
  - case_decide as Hk.
    + intros [= <-]. rewrite !elem_of_leaf_entries. naive_solver.
    + intros ->%(tree_expand_entries _ _ _ _ _ _ (k0, v0)).
      rewrite elem_of_leaf_entries. naive_solver.
  - apply tree_wf_node_inv in Hwf as [Hbm HF]. pose proof (chunk_range k d) as Hb.
    cbv zeta. destruct (Z.testbit bm (chunk k d)) eqn:Hbit.
    + destruct (bits_child_set _ _ _ _ Hb HF Hbit) as (cs1 & c & cs2 & -> & Hlen & H1 & [Hc _] & H2).
      rewrite child_mid by done. intros (c' & Hins & [= <-])%bind_Some.
      rewrite insert_mid by done. rewrite !elem_of_node_mid.
      rewrite (IH c ltac:(set_solver) _ _ Hc Hins).
      pose proof (node_entries_others d bm _ cs1 cs2 k0 v0 H1 H2). naive_solver.
    + destruct (bits_child_unset _ _ _ _ Hb HF Hbit) as (cs1 & cs2 & -> & Hlen & H1 & H2).
      rewrite vec_insert_mid by done. simpl. intros [= <-].
      rewrite elem_of_node_mid, elem_of_leaf_entries.
      pose proof (node_entries_others d bm _ cs1 cs2 k0 v0 H1 H2).
      rewrite !elem_of_node_entries in *. naive_solver.
Qed.

Lemma expand_wf d k' v' k v :
  chunk k' d ≠ chunk k d ->
  exists t', tree_expand d k' v' k v = Some t' /\ tree_wf d t'.
Proof.
  intros Hne. unfold tree_expand. cbn [split_depth]. unfold chunk in Hne.
  rewrite (proj2 (Z.eqb_neq _ _)) by done. simpl. fold (chunk k' d) (chunk k d) in *.
  eexists. split; [done|]. pose proof (chunk_range k' d). pose proof (chunk_range k d).
  assert (forall k v, child_wf d (chunk k d) (TLeaf k v)) as Hleaf.
  { intros k1 v1. split; [constructor|]. intros k2 v2.
    by intros [-> ->]%elem_of_leaf_entries. }
  constructor; [apply set_u32; [|done]|].
  { rewrite Z.shiftl_1_l. split; [apply Z.pow_nonneg; lia|apply Z.pow_lt_mono_r; lia]. }
  destruct (Z.ltb_spec (chunk k' d) (chunk k d)).
  - rewrite bits_pair_lt by lia. constructor; [|constructor; [|done]]; apply Hleaf.
  - rewrite Z.lor_comm, bits_pair_lt by lia.
    constructor; [|constructor; [|done]]; apply Hleaf.
Qed.

Lemma tree_insert_wf d t k v :
  tree_wf d t -> tree_clash d t k = false ->
  exists t', tree_insert d t k v = Some t' /\ tree_wf d t'.
Proof.
  revert d. induction t as [k' v'|bm cs IH] using tree_ind'; intros d Hwf;
    cbn [tree_insert tree_clash].
  - case_decide as Hk; [intros _; eexists; split; [done|constructor]|].
    rewrite bool_decide_true by done. simpl. intros Hne%Z.eqb_neq. by apply expand_wf.
  - apply tree_wf_node_inv in Hwf as [Hbm HF]. pose proof (chunk_range k d) as Hb.
    cbv zeta. destruct (Z.testbit bm (chunk k d)) eqn:Hbit.
    + destruct (bits_child_set _ _ _ _ Hb HF Hbit) as
        (cs1 & c & cs2 & -> & Hlen & H1 & [Hc Hch] & H2).
      rewrite child_mid, map_mid by done. simpl. intros Hclash.
      destruct (IH c ltac:(set_solver) _ Hc Hclash) as (c' & Hins & Hwf'). rewrite Hins.
      eexists. split; [done|]. rewrite insert_mid by done. constructor; [done|].
      apply Forall2_bits_keep with (chunk k d); try done. split; [done|].
      intros k0 v0 Hkv. apply (tree_insert_entries _ _ _ _ _ _ _ Hc Hins) in Hkv
        as [[-> ->]|[_ Hkv]]; [done|by eapply Hch].
    + intros _. destruct (bits_child_unset _ _ _ _ Hb HF Hbit) as
        (cs1 & cs2 & -> & Hlen & H1 & H2).
      rewrite vec_insert_mid by done. eexists. split; [done|].
      constructor; [by apply set_u32|]. apply Forall2_bits_set; try done.
      split; [constructor|]. intros k0 v0.
      by intros [-> ->]%elem_of_leaf_entries.
Qed.

(** ** Removal *)

Definition opt_entries (t : option tree) : list (list byte * list byte) :=
  match t with Some t => tree_entries t | None => [] end.

Lemma tree_remove_entries d t k k0 v0 :
  tree_wf d t ->
  (k0, v0) ∈ opt_entries (tree_remove d t k) <-> k0 ≠ k /\ (k0, v0) ∈ tree_entries t.
Proof.
  revert d. induction t as [k' v'|bm cs IH] using tree_ind'; intros d Hwf;
    cbn [tree_remove].
  - rewrite elem_of_leaf_entries.
    case_decide as Hk; simpl; rewrite ?elem_of_leaf_entries; [|naive_solver].
    split; [by intros ?%not_elem_of_nil|naive_solver].
  - apply tree_wf_node_inv in Hwf as [Hbm HF]. pose proof (chunk_range k d) as Hb.
    cbv zeta. destruct (Z.testbit bm (chunk k d)) eqn:Hbit.
    + destruct (bits_child_set _ _ _ _ Hb HF Hbit) as
        (cs1 & c & cs2 & -> & Hlen & H1 & [Hc Hch] & H2).
      rewrite !child_mid by done.
      pose proof (IH c ltac:(set_solver) _ Hc) as IHc.
      pose proof (node_entries_others d bm _ cs1 cs2 k0 v0 H1 H2) as Ho.
      rewrite elem_of_node_mid.
      destruct (tree_remove (d + 1)%nat c k) as [c'|]; simpl opt_entries in IHc.
      * rewrite insert_mid by done. simpl opt_entries.
        rewrite elem_of_node_mid. naive_solver.
      * rewrite delete_mid by done.
        assert ((k0, v0) ∈ opt_entries (match cs1 ++ cs2 with
          | [] => None
          | _ :: _ => Some (TNode (Z.ldiff bm (Z.shiftl 1 (chunk k d))) (cs1 ++ cs2))
          end) <-> (k0, v0) ∈ tree_entries (TNode bm (cs1 ++ cs2))) as Heq
          by by destruct (cs1 ++ cs2).
        destruct (cs1 ++ cs2); rewrite Heq; rewrite elem_of_nil in IHc; naive_solver.
    + destruct (bits_child_unset _ _ _ _ Hb HF Hbit) as (cs1 & cs2 & -> & Hlen & H1 & H2).
      simpl opt_entries.
      pose proof (node_entries_others d bm _ cs1 cs2 k0 v0 H1 H2). naive_solver.
Qed.

Lemma tree_remove_wf d t k t' :
  tree_wf d t -> tree_remove d t k = Some t' -> tree_wf d t'.
Proof.
  revert d t'. induction t as [k' v'|bm cs IH] using tree_ind'; intros d t' Hwf;
    cbn [tree_remove].
  - case_decide as Hk; intros [= <-]. constructor.
  - pose proof Hwf as Hwf0. apply tree_wf_node_inv in Hwf as [Hbm HF].
    pose proof (chunk_range k d) as Hb.
    cbv zeta. destruct (Z.testbit bm (chunk k d)) eqn:Hbit; [|by intros [= <-]].
    destruct (bits_child_set _ _ _ _ Hb HF Hbit) as
      (cs1 & c & cs2 & -> & Hlen & H1 & [Hc Hch] & H2).
    rewrite !child_mid by done.
    assert (forall c', tree_remove (d + 1)%nat c k = Some c' -> tree_wf (d + 1)%nat c') as IHc
      by (intros c'; apply IH; set_solver).
    destruct (tree_remove (d + 1)%nat c k) as [c'|] eqn:Hrem.
    + rewrite insert_mid by done. intros [= <-]. constructor; [done|].
      apply Forall2_bits_keep with (chunk k d); try done. split; [by apply IHc|].
      intros k0 v0 Hkv. apply (Hch k0 v0).
      pose proof (tree_remove_entries _ c k k0 v0 Hc) as He. rewrite Hrem in He.
      by apply He in Hkv as [_ ?].
    + rewrite delete_mid by done. intros Ht'.
      assert (t' = TNode (Z.ldiff bm (Z.shiftl 1 (chunk k d))) (cs1 ++ cs2)) as ->
        by (destruct (cs1 ++ cs2); naive_solver).
      constructor; [by apply clear_u32|]. by apply Forall2_bits_clear.
Qed.

(** ** Insertions that clash *)

(** A node whose children are leaves finds at most one key per branch. *)
Lemma leaves_get_inj d bm cs k k' v v' :
  (forall c, c ∈ cs -> exists k0 v0, c = TLeaf k0 v0) -> chunk k d = chunk k' d ->
  tree_get d (TNode bm cs) k = Some v -> tree_get d (TNode bm cs) k' = Some v' -> k = k'.
Proof.
  intros Hl E. cbn [tree_get]. cbv zeta. rewrite <- E.
  destruct (Z.testbit bm (chunk k d)); [|done].
  generalize (PersistentHamt.child_index bm (chunk k d)). intros i.
  destruct (cs !! i) as [c|] eqn:Hc.
  - destruct (Hl c) as (k0 & v0 & ->); [by eapply list_elem_of_lookup_2|].
    rewrite !lookup_map, Hc. simpl. repeat case_decide; naive_solver.
  - rewrite !lookup_map, Hc. done.
Qed.

(** When an insertion clashes, a key of the resulting tree is not found any more: the node
    made of the two leaves is keyed by a later depth than the one it sits at. *)
Lemma tree_insert_clash_loses d t k v t' :
  tree_wf d t -> tree_clash d t k = true -> tree_insert d t k v = Some t' ->
  exists k0 v0, (k0, v0) ∈ tree_entries t' /\ tree_get d t' k0 = None.
Proof.
  revert d t'. induction t as [k' v'|bm cs IH] using tree_ind'; intros d t' Hwf;
    cbn [tree_insert tree_clash].
  - intros [Hk%bool_decide_eq_true E%Z.eqb_eq]%andb_true_iff.
    rewrite decide_False by done. intros Hex.
    assert (forall e, e ∈ tree_entries t' <-> e = (k', v') \/ e = (k, v)) as He
      by (intros e; by apply (tree_expand_entries d)).
    unfold tree_expand in Hex. apply bind_Some in Hex as (e & _ & [= <-]).
    set (t := TNode _ _) in *.
    destruct (tree_get d t k') as [w'|] eqn:Hw'; [|exists k', v'; split; [apply He; by left|done]].
    destruct (tree_get d t k) as [w|] eqn:Hw; [|exists k, v; split; [apply He; by right|done]].
    destruct Hk. eapply (leaves_get_inj d); [|exact E|exact Hw'|exact Hw].
    destruct (_ <? _); intros c; set_solver.
  - apply tree_wf_node_inv in Hwf as [Hbm HF]. pose proof (chunk_range k d) as Hb.
    cbv zeta. intros [Hbit Hclash]%andb_true_iff. rewrite Hbit.
    destruct (bits_child_set _ _ _ _ Hb HF Hbit) as
      (cs1 & c & cs2 & -> & Hlen & H1 & [Hc Hch] & H2).
    rewrite map_mid in Hclash by done. simpl in Hclash.
    rewrite child_mid by done. intros (c' & Hins & [= <-])%bind_Some.
    destruct (IH c ltac:(set_solver) _ _ Hc Hclash Hins) as (k0 & v0 & Hin & Hget).
    exists k0, v0. rewrite insert_mid by done. rewrite elem_of_node_mid. split; [by left|].
    assert (chunk k0 d = chunk k d) as E.
    { apply (tree_insert_entries _ _ _ _ _ _ _ Hc Hins) in Hin as [[-> _]|[_ Hin]];
        [done|by eapply Hch]. }
    cbn [tree_get]. cbv zeta. rewrite E, Hbit, child_mid by done. done.
Qed.

(** An insertion always finds a depth at which the hashes differ, unless they collide. *)
Lemma tree_insert_total d t k v :
  tree_wf d t ->
  (forall k0 v0, (k0, v0) ∈ tree_entries t -> of_bytes k0 = of_bytes k -> k0 = k) ->
  (forall k0 v0 i, (k0, v0) ∈ tree_entries t -> (i < d)%nat -> chunk k0 i = chunk k i) ->
  is_Some (tree_insert d t k v).
Proof.
  revert d. induction t as [k' v'|bm cs IH] using tree_ind'; intros d Hwf Hcol Hpath;
    cbn [tree_insert].
  - case_decide as Hk; [by eexists|]. unfold tree_expand.
    assert (of_bytes k' ≠ of_bytes k) as Hne.
    { intros E. apply Hk, (Hcol k' v'); [|done]. by apply elem_of_leaf_entries. }
    destruct (hashes_differ _ _ Hne) as (i & Hi & Hdiff).
    assert (d <= i)%nat.
    { destruct (decide (d <= i)%nat); [done|]. destruct Hdiff.
      apply (Hpath k' v'); [by apply elem_of_leaf_entries|lia]. }
    destruct (split_depth_total 52 (of_bytes k') (of_bytes k) d i) as [e ->]; [lia|done|].
    by eexists.
  - apply tree_wf_node_inv in Hwf as [Hbm HF]. pose proof (chunk_range k d) as Hb.
    cbv zeta. destruct (Z.testbit bm (chunk k d)) eqn:Hbit.
    + destruct (bits_child_set _ _ _ _ Hb HF Hbit) as
        (cs1 & c & cs2 & -> & Hlen & H1 & [Hc Hch] & H2).
      rewrite child_mid by done. setoid_rewrite elem_of_node_mid in Hcol.
      setoid_rewrite elem_of_node_mid in Hpath.
      destruct (IH c ltac:(set_solver) (d + 1)%nat Hc) as [c' ->]; [by eauto| |by eexists].
      intros k0 v0 i Hin Hi. destruct (decide (i = d)) as [->|]; [by eapply Hch|].
      apply (Hpath k0 v0); [by left|lia].
    + destruct (bits_child_unset _ _ _ _ Hb HF Hbit) as (cs1 & cs2 & -> & Hlen & _).
      rewrite vec_insert_mid by done. by eexists.
Qed.

(** ** The shape is kept by every insertion, clashing or not *)

Lemma tree_shape_Forall2 bm cs :
  tree_shape (TNode bm cs) <->
  0 <= bm < 2 ^ 32 /\ Forall2 (fun _ c => tree_shape c) (bits bm) cs.
Proof.
  split.
  - intros (Hbm & Hlen & HF)%tree_shape_node_inv. split; [done|].
    apply Forall2_same_length_lookup_2; [done|]. intros i b c _ Hc.
    by eapply Forall_lookup_1 in HF.
  - intros [Hbm HF]. constructor; [done|symmetry; by eapply Forall2_length|].
    by eapply Forall2_Forall_r; [exact HF|apply Forall_true].
Qed.

Lemma expand_shape d k' v' k v t' : tree_expand d k' v' k v = Some t' -> tree_shape t'.
Proof.
  unfold tree_expand. intros (e & He%split_depth_Some & [= <-])%bind_Some.
  fold (chunk k' e) (chunk k e) in He.
  pose proof (chunk_range k' e). pose proof (chunk_range k e).
  apply tree_shape_Forall2. split.
  { apply set_u32; [|done]. rewrite Z.shiftl_1_l.
    split; [apply Z.pow_nonneg; lia|apply Z.pow_lt_mono_r; lia]. }
  destruct (Z.ltb_spec (chunk k' e) (chunk k e)).
  - rewrite bits_pair_lt by lia. by repeat constructor.
  - rewrite Z.lor_comm, bits_pair_lt by lia. by repeat constructor.
Qed.

Lemma tree_insert_shape d t k v t' :
  tree_shape t -> tree_insert d t k v = Some t' -> tree_shape t'.
Proof.
  revert d t'. induction t as [k' v'|bm cs IH] using tree_ind'; intros d t' Hs;
    cbn [tree_insert].
  - case_decide; [intros [= <-]; constructor|]. apply expand_shape.
  - apply tree_shape_Forall2 in Hs as [Hbm HF]. pose proof (chunk_range k d) as Hb.
    cbv zeta. destruct (Z.testbit bm (chunk k d)) eqn:Hbit.
    + destruct (bits_child_set _ _ _ _ Hb HF Hbit) as (cs1 & c & cs2 & -> & Hlen & H1 & Hc & H2).
      rewrite child_mid by done. intros (c' & Hins & [= <-])%bind_Some.
      rewrite insert_mid by done. apply tree_shape_Forall2. split; [done|].
      apply Forall2_bits_keep with (chunk k d); try done.
      eapply IH; [|done|exact Hins]. set_solver.
    + destruct (bits_child_unset _ _ _ _ Hb HF Hbit) as (cs1 & cs2 & -> & Hlen & H1 & H2).
      rewrite vec_insert_mid by done. intros [= <-].
      apply tree_shape_Forall2. split; [by apply set_u32|].
      apply Forall2_bits_set; try done. constructor.
Qed.

Lemma child_height bm cs c : c ∈ cs -> (tree_height c < tree_height (TNode bm cs))%nat.
Proof.
  intros Hc. simpl. apply le_n_S. induction Hc as [cs|c' cs Hc IH]; simpl; lia.
Qed.

(** ** Canonical trees: every bitmap node holds at least two keys *)

Definition two_keys (t : tree) : Prop :=
  exists k1 v1 k2 v2, (k1, v1) ∈ tree_entries t /\ (k2, v2) ∈ tree_entries t /\ k1 ≠ k2.

Inductive tree_canon : tree -> Prop :=
| canon_leaf k v : tree_canon (TLeaf k v)
| canon_node bm cs :
    two_keys (TNode bm cs) -> (forall c, c ∈ cs -> tree_canon c) -> tree_canon (TNode bm cs).

Lemma canon_nonempty t : tree_canon t -> exists k v, (k, v) ∈ tree_entries t.
Proof.
  intros [k v|bm cs (k & v & _ & _ & Hin & _) _]; [|by exists k, v].
  exists k, v. by apply elem_of_leaf_entries.
Qed.

Lemma tree_insert_canon d t k v t' :
  tree_wf d t -> tree_canon t -> tree_insert d t k v = Some t' -> tree_canon t'.
Proof.
  revert d t'. induction t as [k' v'|bm cs IH] using tree_ind'; intros d t' Hwf Hcan Hins.
  - cbn [tree_insert] in Hins. case_decide as Hk; [injection Hins as <-; constructor|].
    pose proof (fun e => tree_expand_entries _ _ _ _ _ _ e Hins) as He.
    unfold tree_expand in Hins. apply bind_Some in Hins as (e & _ & [= <-]).
    constructor.
    + exists k', v', k, v. rewrite !He. naive_solver.
    + intros c Hc. destruct (_ <? _); set_solver by constructor.
  - inversion Hcan as [|? ? (k1 & v1 & k2 & v2 & Hin1 & Hin2 & Hne) Hcs]; subst.
    pose proof (tree_insert_entries _ _ _ _ _ k1 v1 Hwf Hins) as He1.
    pose proof (tree_insert_entries _ _ _ _ _ k2 v2 Hwf Hins) as He2.
    pose proof (tree_insert_entries _ _ _ _ _ k v Hwf Hins) as He.
    assert (two_keys t') as H2.
    { destruct (decide (k1 = k)); [exists k, v, k2, v2|destruct (decide (k2 = k));
        [exists k1, v1, k, v|exists k1, v1, k2, v2]]; naive_solver. }
    clear He1 He2 He. cbn [tree_insert] in Hins. cbv zeta in Hins.
    apply tree_wf_node_inv in Hwf as [Hbm HF]. pose proof (chunk_range k d) as Hb.
    destruct (Z.testbit bm (chunk k d)) eqn:Hbit.
    + destruct (bits_child_set _ _ _ _ Hb HF Hbit) as (cs1 & c & cs2 & -> & Hlen & H1 & [Hc _] & _).
      rewrite child_mid in Hins by done. apply bind_Some in Hins as (c' & Hins & [= <-]).
      rewrite insert_mid in * by done. constructor; [done|].
      intros c0 [Hc0|[->|Hc0]%elem_of_cons]%elem_of_app; [apply Hcs; set_solver| |apply Hcs; set_solver].
      eapply IH; [|done| |exact Hins]; [set_solver|apply Hcs; set_solver].
    + destruct (bits_child_unset _ _ _ _ Hb HF Hbit) as (cs1 & cs2 & -> & Hlen & _).
      rewrite vec_insert_mid in Hins by done. injection Hins as <-. constructor; [done|].
      intros c0 [Hc0|[->|Hc0]%elem_of_cons]%elem_of_app; [apply Hcs; set_solver|constructor|apply Hcs; set_solver].
Qed.

Lemma node_entries_child d bm cs i b c k v :
  Forall2 (child_wf d) (bits bm) cs -> bits bm !! i = Some b -> cs !! i = Some c ->
  (k, v) ∈ tree_entries c <-> chunk k d = b /\ (k, v) ∈ tree_entries (TNode bm cs).
Proof.
  intros HF Hb Hc. destruct (Forall2_lookup_l _ _ _ _ _ HF Hb) as (c' & Hc' & _ & Hch).
  assert (c' = c) as -> by congruence. split.
  - intros Hin. split; [by eapply Hch|]. apply elem_of_node_entries. exists c.
    split; [done|by eapply list_elem_of_lookup_2].
  - intros [E (c' & Hin & Hc'')%elem_of_node_entries].
    apply list_elem_of_lookup in Hc'' as [j Hj].
    destruct (Forall2_lookup_r _ _ _ _ _ HF Hj) as (b' & Hb' & _ & Hch').
    rewrite (Hch' _ _ Hin) in E. subst b'.
    assert (i = j) as -> by (eapply NoDup_lookup; [apply (bits_nodup bm)|done..]).
    by assert (c = c') as -> by congruence.
Qed.

Lemma node_bits d bm cs b :
  Forall2 (child_wf d) (bits bm) cs -> (forall c, c ∈ cs -> tree_canon c) ->
  b ∈ bits bm <-> exists k v, (k, v) ∈ tree_entries (TNode bm cs) /\ chunk k d = b.
Proof.
  intros HF Hcan. split.
  - intros [i Hi]%list_elem_of_lookup.
    destruct (Forall2_lookup_l _ _ _ _ _ HF Hi) as (c & Hc & _).
    destruct (canon_nonempty c) as (k & v & Hin); [by eapply Hcan, list_elem_of_lookup_2|].
    exists k, v. pose proof (node_entries_child _ _ _ _ _ _ k v HF Hi Hc). naive_solver.
  - intros (k & v & (c & Hin & Hc)%elem_of_node_entries & <-).
    by eapply Forall2_child_chunk.
Qed.

(** A canonical well-formed tree is determined by its entries. *)
Lemma tree_canon_unique d t1 t2 :
  tree_wf d t1 -> tree_wf d t2 -> tree_canon t1 -> tree_canon t2 ->
  (forall k v, (k, v) ∈ tree_entries t1 <-> (k, v) ∈ tree_entries t2) -> t1 = t2.
Proof.
  revert d t2. induction t1 as [k1 v1|bm1 cs1 IH] using tree_ind';
    intros d [k2 v2|bm2 cs2] Hwf1 Hwf2 Hc1 Hc2 He.
  - specialize (He k1 v1). rewrite !elem_of_leaf_entries in He. naive_solver.
  - inversion Hc2 as [|? ? (a & va & b & vb & Ha & Hb & Hne) _]; subst.
    apply He, elem_of_leaf_entries in Ha. apply He, elem_of_leaf_entries in Hb. naive_solver.
  - inversion Hc1 as [|? ? (a & va & b & vb & Ha & Hb & Hne) _]; subst.
    apply He, elem_of_leaf_entries in Ha. apply He, elem_of_leaf_entries in Hb. naive_solver.
  - inversion Hc1 as [|? ? _ Hcs1]; inversion Hc2 as [|? ? _ Hcs2]; subst.
    apply tree_wf_node_inv in Hwf1 as [Hbm1 HF1]. apply tree_wf_node_inv in Hwf2 as [Hbm2 HF2].
    assert (forall b, b ∈ bits bm1 <-> b ∈ bits bm2) as Hbits.
    { intros b. rewrite (node_bits _ _ _ _ HF1), (node_bits _ _ _ _ HF2) by done.
      by setoid_rewrite He. }
    assert (bm1 = bm2) as <-.
    { apply Z.bits_inj'. intros i Hi. destruct (decide (i < 32)).
      - apply eq_true_iff_eq. rewrite <- !Is_true_true.
        specialize (Hbits i). rewrite !elem_of_bits in Hbits. naive_solver lia.
      - by rewrite !u32_testbit by lia. }
    f_equal. apply list_eq_same_length with (n := length cs2);
      [done|by rewrite <- (Forall2_length _ _ _ HF1), (Forall2_length _ _ _ HF2)|].
    intros i c1 c2 _ Hi1 Hi2.
    destruct (Forall2_lookup_r _ _ _ _ _ HF1 Hi1) as (b & Hb & Hwf1 & _).
    destruct (Forall2_lookup_l _ _ _ _ _ HF2 Hb) as (c & Hc & Hwf2 & _).
    assert (c = c2) as -> by congruence.
    apply (IH c1 ltac:(by eapply list_elem_of_lookup_2) (d + 1)%nat); [done|done| | |].
    + by eapply Hcs1, list_elem_of_lookup_2.
    + by eapply Hcs2, list_elem_of_lookup_2.
    + intros k v. rewrite (node_entries_child _ _ _ _ _ _ k v HF1 Hb Hi1),
        (node_entries_child _ _ _ _ _ _ k v HF2 Hb Hi2). by rewrite He.
Qed.

End tree.
