(* ===== verification/HamtProofs.v ===== *)
(** * The HAMT code computes the operations on its trees

    [stored objs t]: the nodes of the tree [t] are objects of the store. The operations of
    [hamt/tree.rs] on the root hash of a stored tree are then the functions of [HamtTree],
    over every backend that satisfies [CasLaws]. *)

From S2P Require Import Prelude Utf8 Hash Codec Record Cas HamtNode Hamt HamtTree.

Section stored.
Context `{Blake3}.

Definition node_object (n : HamtNode) : Object := (node_type n, encode_node n).

Fixpoint tree_hash (t : tree) : Hash :=
  of_bytes (encode_node
    (match t with TLeaf k v => Leaf k v | TNode bm cs => Bitmap bm (map tree_hash cs) end)).

Definition tree_node (t : tree) : HamtNode :=
  match t with TLeaf k v => Leaf k v | TNode bm cs => Bitmap bm (map tree_hash cs) end.

Fixpoint tree_objects (t : tree) : list Object :=
  node_object (tree_node t) ::
  match t with TLeaf _ _ => [] | TNode _ cs => concat (map tree_objects cs) end.

Definition stored (objs : gmap Hash Object) (t : tree) : Prop :=
  forall o, o ∈ tree_objects t -> objs !! of_bytes o.2 = Some o.

(** Leaves whose lengths fit their fields and whose record fits its length field. *)
Definition leaf_fits (k v : list byte) : Prop :=
  lenZ k < 2 ^ 16 /\ 6 + lenZ k + lenZ v < PAYLOAD_LIMIT.

Definition tree_fits (t : tree) : Prop :=
  forall k v, (k, v) ∈ tree_entries t -> leaf_fits k v.

Lemma tree_hash_eq t : tree_hash t = of_bytes (encode_node (tree_node t)).
Proof. by destruct t. Qed.

Lemma tree_objects_root t : node_object (tree_node t) ∈ tree_objects t.
Proof. destruct t; simpl; left. Qed.

Lemma tree_objects_leaf k v : node_object (Leaf k v) ∈ tree_objects (TLeaf k v).
Proof. apply (tree_objects_root (TLeaf k v)). Qed.

Lemma tree_objects_child bm cs c o :
  c ∈ cs -> o ∈ tree_objects c -> o ∈ tree_objects (TNode bm cs).
Proof.
  intros Hc Ho. simpl. right. induction Hc as [cs|c' cs Hc IH]; simpl; apply elem_of_app; auto.
Qed.

Lemma tree_objects_inv bm cs o :
  o ∈ tree_objects (TNode bm cs) ->
  o = node_object (tree_node (TNode bm cs)) \/ exists c, c ∈ cs /\ o ∈ tree_objects c.
Proof.
  simpl. intros [->|Ho]%elem_of_cons; [by left|right].
  induction cs as [|c cs IH]; simpl in Ho; [by apply not_elem_of_nil in Ho|].
  apply elem_of_app in Ho as [Ho|Ho]; [exists c; split; [by left|done]|].
  destruct (IH Ho) as (c' & ? & ?). exists c'. split; [by right|done].
Qed.

Lemma stored_mono objs objs' t : objs ⊆ objs' -> stored objs t -> stored objs' t.
Proof. intros Hsub Hst o Ho. eapply lookup_weaken; [by apply Hst|done]. Qed.

Lemma stored_root objs t :
  stored objs t -> objs !! tree_hash t = Some (node_object (tree_node t)).
Proof. intros Hst. rewrite tree_hash_eq. apply (Hst (node_object _)), tree_objects_root. Qed.

Lemma stored_child objs bm cs c : stored objs (TNode bm cs) -> c ∈ cs -> stored objs c.
Proof. intros Hst Hc o Ho. apply Hst. by apply tree_objects_child with c. Qed.

Lemma stored_node objs bm cs :
  objs !! tree_hash (TNode bm cs) = Some (node_object (tree_node (TNode bm cs))) ->
  (forall c, c ∈ cs -> stored objs c) -> stored objs (TNode bm cs).
Proof.
  intros Hroot Hcs o Ho. apply tree_objects_inv in Ho as [->|(c & Hc & Ho)]; [done|].
  by apply (Hcs c).
Qed.

Lemma stored_leaf objs k v :
  objs !! tree_hash (TLeaf k v) = Some (node_object (Leaf k v)) -> stored objs (TLeaf k v).
Proof. intros Hroot o. simpl. rewrite list_elem_of_singleton. by intros ->. Qed.

Lemma tree_fits_child bm cs c : tree_fits (TNode bm cs) -> c ∈ cs -> tree_fits c.
Proof. intros Hf Hc k v Hkv. apply Hf, elem_of_node_entries. by exists c. Qed.

Lemma tree_fits_leaf k v : tree_fits (TLeaf k v) <-> leaf_fits k v.
Proof.
  split; [intros Hf; apply Hf, elem_of_leaf_entries; done|].
  by intros Hf k' v' [-> ->]%elem_of_leaf_entries.
Qed.

Lemma shape_length bm cs : tree_shape (TNode bm cs) -> (length cs <= 32)%nat.
Proof. intros (_ & -> & _)%tree_shape_node_inv. apply length_bits. Qed.

Lemma tree_node_fits t : tree_shape t -> tree_fits t -> node_fits (tree_node t).
Proof.
  destruct t as [k v|bm cs]; simpl; intros Hs Hf.
  - apply tree_fits_leaf in Hf as [??]. unfold PAYLOAD_LIMIT in *.
    pose proof (lenZ_nonneg k). lia.
  - pose proof (shape_length _ _ Hs). apply tree_shape_node_inv in Hs as (? & _).
    unfold lenZ. rewrite length_map. lia.
Qed.

Lemma leaf_payload k v : leaf_fits k v -> lenZ (encode_node (Leaf k v)) < PAYLOAD_LIMIT.
Proof. intros [_ ?]. by rewrite encode_node_length. Qed.

Lemma bitmap_payload bm (cs : list Hash) :
  (length cs <= 33)%nat -> lenZ (encode_node (Bitmap bm cs)) < PAYLOAD_LIMIT.
Proof. intros. rewrite encode_node_length. unfold PAYLOAD_LIMIT, lenZ. lia. Qed.

End stored.

(** ** Reading *)

Section reading.
Context {S : Type} `{CasLaws S}.

(** The computation returns [a] and leaves the objects as they are. *)
Definition returns {A} (s : S) (m : stM S EpochsError A) (a : A) : Prop :=
  exists s', m s = (Ok a, s') /\ cas_inv s' /\ cas_objects s' = cas_objects s.

Lemma returns_ret {A} s (a : A) : cas_inv s -> returns s (mret a) a.
Proof. intros. by exists s. Qed.

Lemma returns_bind {A B} s (m : stM S EpochsError A) (f : A -> stM S EpochsError B) a b :
  returns s m a ->
  (forall s', cas_inv s' -> cas_objects s' = cas_objects s -> returns s' (f a) b) ->
  returns s (m ≫= f) b.
Proof.
  intros (s1 & Hm & Hi & Ho) Hf. destruct (Hf s1 Hi Ho) as (s2 & Hf2 & Hi2 & Ho2).
  exists s2. rewrite (stM_bind_Ok _ _ _ _ _ Hm). split; [done|]. split; [done|].
  by rewrite Ho2.
Qed.

Lemma returns_load s t :
  cas_inv s -> stored (cas_objects s) t -> tree_shape t -> tree_fits t ->
  returns s (PersistentHamt.load_node (tree_hash t)) (tree_node t).
Proof.
  intros Hi Hst Hs Hf. unfold PersistentHamt.load_node.
  destruct (cas_get_record (tree_hash t) s) as [r s'] eqn:Hget.
  destruct (cas_get_law _ _ _ _ Hi Hget) as (Hi' & Ho & ->).
  rewrite (stored_root _ t) in Hget by done. simpl in Hget.
  exists s'. rewrite (stM_bind_Ok _ _ _ _ _ Hget). simpl. unfold lift.
  by rewrite decode_encode_node by by apply tree_node_fits.
Qed.

(** The branch tests of the code on a node's children. *)
Lemma lookup_map_Some {A B} (f : A -> B) l i x : l !! i = Some x -> map f l !! i = Some (f x).
Proof. intros Hx. by rewrite lookup_map, Hx. Qed.

Lemma map_insert_mid {A B} (f : A -> B) (l1 l2 : list A) x y n :
  length l1 = n -> <[n := f y]> (map f (l1 ++ x :: l2)) = map f (l1 ++ y :: l2).
Proof. intros Hn. rewrite !map_app. simpl. apply insert_mid. by rewrite length_map. Qed.

Lemma map_delete_mid {A B} (f : A -> B) (l1 l2 : list A) x n :
  length l1 = n -> delete n (map f (l1 ++ x :: l2)) = map f (l1 ++ l2).
Proof. intros Hn. rewrite !map_app. simpl. apply delete_mid. by rewrite length_map. Qed.

Lemma shape_child bm cs b :
  tree_shape (TNode bm cs) -> 0 <= b < 32 -> Z.testbit bm b = true ->
  exists c, cs !! PersistentHamt.child_index bm b = Some c /\ c ∈ cs /\ tree_shape c.
Proof.
  intros [Hbm HF]%tree_shape_Forall2 Hb Hbit.
  destruct (bits_child_set _ _ _ _ Hb HF Hbit) as (cs1 & c & cs2 & -> & Hlen & _ & Hc & _).
  exists c. rewrite lookup_mid by done. split; [done|]. split; [set_solver|done].
Qed.

Lemma get_refines t fuel d k s :
  cas_inv s -> stored (cas_objects s) t -> tree_shape t -> tree_fits t ->
  (tree_height t < fuel)%nat ->
  returns s (PersistentHamt.get_internal fuel (tree_hash t) k (of_bytes k) d) (tree_get d t k).
Proof.
  revert fuel d s. induction t as [k' v'|bm cs IH] using tree_ind';
    intros fuel d s Hi Hst Hs Hf Hfuel; destruct fuel as [|fuel]; [lia| |lia|];
    cbn [PersistentHamt.get_internal]; (eapply returns_bind; [by apply returns_load|]);
    intros s1 Hi1 Ho1; cbn [tree_node].
  - cbn [tree_get]. case_decide; by apply returns_ret.
  - cbn [tree_get]. cbv zeta. fold (chunk k d). pose proof (chunk_range k d) as Hb.
    rewrite land_mask_zero by lia. destruct (Z.testbit bm (chunk k d)) eqn:Hbit; simpl negb;
      cbv iota; [|by apply returns_ret].
    destruct (shape_child _ _ _ Hs Hb Hbit) as (c & Hc & Hin & Hsc).
    rewrite (lookup_map_Some _ _ _ _ Hc), lookup_map, Hc. cbn [or_panic fmap option_fmap option_map mjoin option_join].
    eapply returns_bind; [by apply returns_ret|]. intros s2 Hi2 Ho2.
    pose proof (child_height bm cs c Hin).
    apply IH; [done|done|..|lia]; [|done|by eapply tree_fits_child].
    rewrite Ho2, Ho1. by eapply stored_child.
Qed.

Lemma leaf_hash_refines t fuel d k s :
  cas_inv s -> stored (cas_objects s) t -> tree_shape t -> tree_fits t ->
  (tree_height t < fuel)%nat ->
  returns s (PersistentHamt.leaf_hash_internal fuel (tree_hash t) k (of_bytes k) d)
    ((fun v => tree_hash (TLeaf k v)) <$> tree_get d t k).
Proof.
  revert fuel d s. induction t as [k' v'|bm cs IH] using tree_ind';
    intros fuel d s Hi Hst Hs Hf Hfuel; destruct fuel as [|fuel]; [lia| |lia|];
    cbn [PersistentHamt.leaf_hash_internal]; (eapply returns_bind; [by apply returns_load|]);
    intros s1 Hi1 Ho1; cbn [tree_node].
  - cbn [tree_get]. case_decide as Hk; [rewrite Hk|]; by apply returns_ret.
  - cbn [tree_get]. cbv zeta. fold (chunk k d). pose proof (chunk_range k d) as Hb.
    rewrite land_mask_zero by lia. destruct (Z.testbit bm (chunk k d)) eqn:Hbit; simpl negb;
      cbv iota; [|by apply returns_ret].
    destruct (shape_child _ _ _ Hs Hb Hbit) as (c & Hc & Hin & Hsc).
    rewrite (lookup_map_Some _ _ _ _ Hc), lookup_map, Hc. cbn [or_panic fmap option_fmap option_map mjoin option_join].
    eapply returns_bind; [by apply returns_ret|]. intros s2 Hi2 Ho2.
    pose proof (child_height bm cs c Hin).
    apply IH; [done|done|..|lia]; [|done|by eapply tree_fits_child].
    rewrite Ho2, Ho1. by eapply stored_child.
Qed.

Lemma collect_children fuel cs acc out s :
  returns s acc out ->
  (forall c s' out', c ∈ cs -> cas_inv s' -> cas_objects s' = cas_objects s ->
     returns s' (PersistentHamt.collect_entries fuel (tree_hash c) out')
       (out' ++ tree_entries c)) ->
  returns s (foldl (fun acc child => out ← acc; PersistentHamt.collect_entries fuel child out)
               acc (map tree_hash cs))
    (out ++ concat (map tree_entries cs)).
Proof.
  revert acc out. induction cs as [|c cs IH]; intros acc out Hacc Hcs; simpl.
  - by rewrite app_nil_r.
  - rewrite app_assoc. apply IH; [|intros; apply Hcs; auto; by right].
    eapply returns_bind; [exact Hacc|]. intros s' Hi Ho. apply Hcs; auto. left.
Qed.

Lemma collect_refines t fuel out s :
  cas_inv s -> stored (cas_objects s) t -> tree_shape t -> tree_fits t ->
  (tree_height t < fuel)%nat ->
  returns s (PersistentHamt.collect_entries fuel (tree_hash t) out) (out ++ tree_entries t).
Proof.
  revert fuel out s. induction t as [k' v'|bm cs IH] using tree_ind';
    intros fuel out s Hi Hst Hs Hf Hfuel; destruct fuel as [|fuel]; [lia| |lia|];
    cbn [PersistentHamt.collect_entries]; (eapply returns_bind; [by apply returns_load|]);
    intros s1 Hi1 Ho1; cbn [tree_node]; [by apply returns_ret|].
  apply collect_children; [by apply returns_ret|]. intros c s2 out' Hc Hi2 Ho2.
  pose proof (child_height bm cs c Hc). apply tree_shape_node_inv in Hs as (_ & _ & HF).
  apply IH; [done|done| | | |lia].
  - rewrite Ho2, Ho1. by eapply stored_child.
  - by eapply Forall_forall in HF.
  - by eapply tree_fits_child.
Qed.

End reading.

(** ** Writing *)

Section writing.
Context {S : Type} `{CasLaws S} (os : list Object).

(** The objects in the store collide neither with each other nor with the objects [os] the
    computation writes. *)
Definition good (s : S) : Prop := cas_inv s /\ no_collision (cas_objects s) os.

(** From [s], the computation only adds objects; it returns a value that satisfies [Q], or
    fails as the backend fails. *)
Definition runs {A} (s : S) (m : stM S EpochsError A) (Q : A -> S -> Prop) : Prop :=
  let '(r, s') := m s in
  good s' /\ cas_objects s ⊆ cas_objects s' /\
  match r with
  | Ok a => Q a s'
  | Err e => ~ CasTotal S /\ cas_fault s' e
  | _ => False
  end.

Lemma runs_ret {A} s (a : A) (Q : A -> S -> Prop) : good s -> Q a s -> runs s (mret a) Q.
Proof. by intros Hg HQ. Qed.

Lemma runs_bind {A B} s (m : stM S EpochsError A) (f : A -> stM S EpochsError B) Q R :
  runs s m Q ->
  (forall a s', good s' -> cas_objects s ⊆ cas_objects s' -> Q a s' -> runs s' (f a) R) ->
  runs s (m ≫= f) R.
Proof.
  unfold runs. rewrite stM_bind_eq. destruct (m s) as [[a| | |] s']; intros (Hg & Hsub & HQ) Hf;
    try done.
  specialize (Hf a s' Hg Hsub HQ). destruct (f a s') as [r s'']. destruct Hf as (? & ? & ?).
  split; [done|]. split; [by etransitivity|done].
Qed.

Lemma runs_mono {A} s (m : stM S EpochsError A) (Q R : A -> S -> Prop) :
  runs s m Q -> (forall a s', cas_objects s ⊆ cas_objects s' -> Q a s' -> R a s') -> runs s m R.
Proof.
  unfold runs. destruct (m s) as [[] ?]; intros (? & ? & ?) HR; eauto.
Qed.

(** A computation that returns without adding objects runs. *)
Lemma runs_returns {A} s (m : stM S EpochsError A) a :
  good s -> returns s m a -> runs s m (fun a' s' => a' = a /\ cas_objects s' = cas_objects s).
Proof.
  intros [Hi Hnc] (s' & Hm & Hi' & Ho). unfold runs. rewrite Hm. unfold good.
  rewrite Ho. done.
Qed.

Lemma runs_or_panic {A B} s (o : option A) (f : A -> stM S EpochsError B) a R :
  o = Some a -> runs s (f a) R -> runs s (or_panic o ≫= f) R.
Proof. by intros ->. Qed.

Lemma runs_load {B} s t (f : HamtNode -> stM S EpochsError B) R :
  good s -> stored (cas_objects s) t -> tree_shape t -> tree_fits t ->
  (forall s', good s' -> cas_objects s' = cas_objects s -> runs s' (f (tree_node t)) R) ->
  runs s (PersistentHamt.load_node (tree_hash t) ≫= f) R.
Proof.
  intros Hg Hst Hs Hf Hk. eapply runs_bind; [apply runs_returns; [done|]|].
  - apply returns_load; [by destruct Hg|done..].
  - intros n s' Hg' _ [-> Ho]. by apply Hk.
Qed.

Lemma runs_put s ty p :
  good s -> (ty, p) ∈ os -> lenZ p < PAYLOAD_LIMIT ->
  runs s (cas_put ty p)
    (fun h s' => h = of_bytes p /\ cas_objects s' !! of_bytes p = Some (ty, p)).
Proof.
  intros [Hi Hnc] Hin Hlen. unfold runs. destruct (cas_put ty p s) as [r s'] eqn:Hput.
  destruct (cas_put_law _ _ _ _ _ Hi Hlen Hput) as [Hi' [[-> Ho]|[(e & -> & Hfault) Ho]]];
    unfold good; rewrite Ho.
  - split; [split; [done|by apply no_collision_put]|]. split; [apply put_object_subseteq|].
    split; [done|]. apply (put_object_lookup _ os); [|done..].
    intros h ty' p'. by apply cas_hash_law.
  - split; [done|]. split; [done|]. split; [|done]. intros Htot. by apply (Htot _ _ _ _ _ Hi Hput).
Qed.

Lemma runs_put_node s n :
  good s -> node_object n ∈ os -> lenZ (encode_node n) < PAYLOAD_LIMIT ->
  runs s (cas_put (node_type n) (encode_node n))
    (fun h s' => h = of_bytes (encode_node n) /\
                 cas_objects s' !! of_bytes (encode_node n) = Some (node_object n)).
Proof. apply runs_put. Qed.

Lemma runs_persist_leaf s k v :
  good s -> node_object (Leaf k v) ∈ os -> leaf_fits k v ->
  runs s (PersistentHamt.persist_leaf k v)
    (fun h s' => h = tree_hash (TLeaf k v) /\ stored (cas_objects s') (TLeaf k v)).
Proof.
  intros Hg Hin Hf. eapply runs_mono; [apply (runs_put_node s (Leaf k v)); [done..|]|].
  - by apply leaf_payload.
  - intros h s' _ [-> Ho]. split; [done|]. by apply stored_leaf.
Qed.

Lemma runs_persist_bitmap s bm cs :
  good s -> node_object (tree_node (TNode bm cs)) ∈ os -> (length cs <= 33)%nat ->
  (forall c, c ∈ cs -> stored (cas_objects s) c) ->
  runs s (PersistentHamt.persist_bitmap bm (map tree_hash cs))
    (fun h s' => h = tree_hash (TNode bm cs) /\ stored (cas_objects s') (TNode bm cs)).
Proof.
  intros Hg Hin Hlen Hst.
  eapply runs_mono; [apply (runs_put_node s (Bitmap bm (map tree_hash cs))); [done..|]|].
  - apply bitmap_payload. by rewrite length_map.
  - intros h s' Hsub [-> Ho]. split; [done|]. apply stored_node; [done|].
    intros c Hc. eapply stored_mono; [done|by apply Hst].
Qed.

(** The leaf that is met, expanded until the hashes differ. *)
Lemma expand_refines n fuel d k' v' k v t' s :
  good s -> k' ≠ k -> stored (cas_objects s) (TLeaf k' v') -> leaf_fits k' v' -> leaf_fits k v ->
  (e ← split_depth n (of_bytes k') (of_bytes k) d;
   Some (TNode (Z.lor (Z.shiftl 1 (chunk k' e)) (Z.shiftl 1 (chunk k e)))
     (if chunk k' e <? chunk k e then [TLeaf k' v'; TLeaf k v] else [TLeaf k v; TLeaf k' v'])))
    = Some t' ->
  (forall o, o ∈ tree_objects t' -> o ∈ os) -> (n < fuel)%nat ->
  runs s (PersistentHamt.insert_internal fuel (Some (tree_hash (TLeaf k' v'))) k v (of_bytes k) d)
    (fun h s' => h = tree_hash t' /\ stored (cas_objects s') t').
Proof.
  revert fuel d s. induction n as [|n IH]; intros fuel d s Hg Hk Hst Hf' Hf Hsplit Hos Hfuel;
    [done|]. destruct fuel as [|fuel]; [lia|].
  cbn [split_depth] in Hsplit. cbn [PersistentHamt.insert_internal].
  apply runs_load; [done|done|constructor|by apply tree_fits_leaf|].
  intros s1 Hg1 Ho1. cbn [tree_node]. rewrite decide_False by done.
  unfold PersistentHamt.expand_leaf_collision. cbv zeta.
  assert (Hleaf' : forall s, good s -> node_object (Leaf k' v') ∈ os -> runs s
    (PersistentHamt.persist_leaf k' v')
    (fun h s' => h = tree_hash (TLeaf k' v') /\ stored (cas_objects s') (TLeaf k' v')))
    by (intros; by apply runs_persist_leaf).
  destruct (Z.eqb_spec (PersistentHamt.extract_5bits (of_bytes k') d)
                       (PersistentHamt.extract_5bits (of_bytes k) d)) as [E|E].
  - assert (Hin : node_object (Leaf k' v') ∈ os).
    { apply bind_Some in Hsplit as (e & _ & [= <-]). apply Hos.
      apply tree_objects_child with (TLeaf k' v'); [|left].
      destruct (_ <? _); set_solver. }
    eapply runs_bind; [by apply Hleaf'|]. intros h s2 Hg2 _ [-> Hst2].
    apply IH; [done..|lia].
  - simpl in Hsplit. injection Hsplit as <-.
    fold (chunk k' d) (chunk k d).
    set (cs := if chunk k' d <? chunk k d then [TLeaf k' v'; TLeaf k v] else [TLeaf k v; TLeaf k' v']) in *.
    assert (Hcs : forall c, c ∈ cs <-> c = TLeaf k' v' \/ c = TLeaf k v)
      by (intros c; unfold cs; destruct (_ <? _); set_solver).
    assert (Hin : forall c, c ∈ cs -> node_object (tree_node c) ∈ os).
    { intros c Hc. apply Hos, tree_objects_child with c; [done|apply tree_objects_root]. }
    eapply runs_bind; [apply Hleaf'; [done|]; apply (Hin (TLeaf k' v')), Hcs; by left|].
    intros h s2 Hg2 Hsub2 [-> Hst2].
    eapply runs_bind; [apply runs_persist_leaf; [done| |done]; apply (Hin (TLeaf k v)), Hcs; by right|].
    intros h s3 Hg3 Hsub3 [-> Hst3].
    replace (if chunk k' d <? chunk k d then [tree_hash (TLeaf k' v'); tree_hash (TLeaf k v)]
             else [tree_hash (TLeaf k v); tree_hash (TLeaf k' v')])
      with (map tree_hash cs) by (unfold cs; by destruct (_ <? _)).
    apply runs_persist_bitmap; [done| |unfold cs; destruct (_ <? _); simpl; lia|].
    + apply Hos, tree_objects_root.
    + intros c [->| ->]%Hcs; [by eapply stored_mono|done].
Qed.

Lemma insert_refines t fuel d k v t' s :
  good s -> stored (cas_objects s) t -> tree_shape t -> tree_fits t -> leaf_fits k v ->
  tree_insert d t k v = Some t' -> (forall o, o ∈ tree_objects t' -> o ∈ os) ->
  (tree_height t + 53 <= fuel)%nat ->
  runs s (PersistentHamt.insert_internal fuel (Some (tree_hash t)) k v (of_bytes k) d)
    (fun h s' => h = tree_hash t' /\ stored (cas_objects s') t').
Proof.
  revert fuel d t' s. induction t as [k' v'|bm cs IH] using tree_ind';
    intros fuel d t' s Hg Hst Hs Hf Hfk Hins Hos Hfuel; cbn [tree_insert] in Hins;
    (destruct fuel as [|fuel]; [lia|]).
  - case_decide as Hk.
    + injection Hins as <-. cbn [PersistentHamt.insert_internal].
      apply runs_load; [done..|]. intros s1 Hg1 Ho1. cbn [tree_node].
      rewrite decide_True by done.
      apply runs_persist_leaf; [done|apply Hos, tree_objects_leaf|done].
    + apply (expand_refines 52); try done. by apply tree_fits_leaf.
  - cbn [PersistentHamt.insert_internal].
    apply runs_load; [done..|]. intros s1 Hg1 Ho1. cbn [tree_node].
    cbv zeta in *. fold (chunk k d).
    pose proof (chunk_range k d) as Hb. rewrite land_mask_zero by lia.
    pose proof (shape_length _ _ Hs) as Hlen. rewrite <- Ho1 in Hst.
    pose proof Hs as [Hbm HF]%tree_shape_Forall2.
    destruct (Z.testbit bm (chunk k d)) eqn:Hbit; simpl negb; cbv iota.
    + destruct (bits_child_set _ _ _ _ Hb HF Hbit) as (cs1 & c & cs2 & -> & Hidx & _ & Hsc & _).
      rewrite child_mid in Hins by done. apply bind_Some in Hins as (c' & Hins & [= <-]).
      rewrite insert_mid in Hos |- * by done.
      pose proof (child_height bm (cs1 ++ c :: cs2) c ltac:(set_solver)).
      eapply runs_or_panic; [by apply map_mid|].
      eapply runs_bind; [apply (IH c ltac:(set_solver) fuel (d + 1)%nat c'); try done|].
      * eapply stored_child; [done|set_solver].
      * eapply tree_fits_child; [done|set_solver].
      * intros o Ho. apply Hos, tree_objects_child with c'; [set_solver|done].
      * lia.
      * intros h s2 Hg2 Hsub2 [-> Hst2]. rewrite map_insert_mid by done.
        apply runs_persist_bitmap; [done|apply Hos, tree_objects_root| |].
        { rewrite length_app in *. simpl in *. lia. }
        intros c0 Hc0. apply elem_of_app in Hc0 as [Hc0|[->|Hc0]%elem_of_cons]; [|done|];
          (eapply stored_mono; [done|eapply stored_child; [done|set_solver]]).
    + destruct (bits_child_unset _ _ _ _ Hb HF Hbit) as (cs1 & cs2 & -> & Hidx & _).
      rewrite vec_insert_mid in Hins by done. injection Hins as <-.
      eapply runs_bind.
      { apply runs_persist_leaf; [done| |done].
        apply Hos, tree_objects_child with (TLeaf k v); [set_solver|apply tree_objects_leaf]. }
      intros h s2 Hg2 Hsub2 [-> Hst2].
      eapply runs_or_panic; [rewrite map_app; apply vec_insert_mid; by rewrite length_map|].
      change (tree_hash (TLeaf k v) :: map tree_hash cs2) with (map tree_hash (TLeaf k v :: cs2)).
      rewrite <- map_app.
      apply runs_persist_bitmap; [done|apply Hos, tree_objects_root| |].
      { rewrite length_app in *. simpl in *. lia. }
      intros c0 Hc0. apply elem_of_app in Hc0 as [Hc0|[->|Hc0]%elem_of_cons]; [|done|];
        (eapply stored_mono; [done|eapply stored_child; [done|set_solver]]).
Qed.

Lemma remove_refines t fuel d k s :
  good s -> stored (cas_objects s) t -> tree_shape t -> tree_fits t ->
  (forall t' o, tree_remove d t k = Some t' -> o ∈ tree_objects t' -> o ∈ os) ->
  (tree_height t < fuel)%nat ->
  runs s (PersistentHamt.remove_internal fuel (tree_hash t) k (of_bytes k) d)
    (fun h s' => h = tree_hash <$> tree_remove d t k /\
                 forall t', tree_remove d t k = Some t' -> stored (cas_objects s') t').
Proof.
  revert fuel d s. induction t as [k' v'|bm cs IH] using tree_ind';
    intros fuel d s Hg Hst Hs Hf Hos Hfuel; cbn [tree_remove] in Hos |- *;
    (destruct fuel as [|fuel]; [lia|]); cbn [PersistentHamt.remove_internal];
    (apply runs_load; [done..|]); intros s1 Hg1 Ho1; cbn [tree_node]; rewrite <- Ho1 in Hst.
  - case_decide as Hk; apply runs_ret; [done| |done|]; (split; [done|naive_solver]).
  - cbv zeta in *. fold (chunk k d).
    pose proof (chunk_range k d) as Hb. rewrite land_mask_zero by lia.
    pose proof (shape_length _ _ Hs) as Hlen.
    pose proof Hs as [Hbm HF]%tree_shape_Forall2.
    destruct (Z.testbit bm (chunk k d)) eqn:Hbit; simpl negb; cbv iota;
      [|apply runs_ret; [done|]; split; [done|naive_solver]].
    destruct (bits_child_set _ _ _ _ Hb HF Hbit) as (cs1 & c & cs2 & -> & Hidx & _ & Hsc & _).
    rewrite child_mid in Hos |- * by done.
    rewrite delete_mid in Hos |- * by done.
    assert (Hcs : forall c', c' ∈ cs1 ++ cs2 -> stored (cas_objects s1) c')
      by (intros c' Hc'; eapply stored_child; [done|set_solver]).
    rewrite length_app in Hlen. simpl in Hlen.
    pose proof (child_height bm (cs1 ++ c :: cs2) c ltac:(set_solver)).
    eapply runs_or_panic; [by apply map_mid|].
    eapply runs_bind; [apply (IH c ltac:(set_solver) fuel (d + 1)%nat); try done|].
    + eapply stored_child; [done|set_solver].
    + eapply tree_fits_child; [done|set_solver].
    + intros t' o Hrem Ho. rewrite Hrem in Hos. eapply Hos; [done|].
      rewrite insert_mid by done. apply tree_objects_child with t'; [set_solver|done].
    + lia.
    + intros h s2 Hg2 Hsub2 [-> Hst2].
      destruct (tree_remove (d + 1) c k) as [c'|]; cbn [fmap option_fmap option_map].
      * rewrite insert_mid in Hos |- * by done. rewrite map_insert_mid by done.
        eapply runs_bind.
        { apply runs_persist_bitmap; [done|eapply Hos; [done|apply tree_objects_root]| |].
          - rewrite length_app. simpl. lia.
          - intros c0 Hc0. apply elem_of_app in Hc0 as [Hc0|[->|Hc0]%elem_of_cons];
              [|by apply Hst2|]; (eapply stored_mono; [done|apply Hcs; set_solver]). }
        intros h s3 Hg3 Hsub3 [-> Hst3]. apply runs_ret; [done|].
        split; [done|by intros t' [= <-]].
      * rewrite map_delete_mid by done.
        destruct (cs1 ++ cs2) as [|c0 l] eqn:Hl; [apply runs_ret; [done|]; split; done|].
        change (map tree_hash (c0 :: l)) with (tree_hash c0 :: map tree_hash l). cbv iota.
        change (tree_hash c0 :: map tree_hash l) with (map tree_hash (c0 :: l)).
        eapply runs_bind.
        { apply runs_persist_bitmap; [done|eapply Hos; [done|apply tree_objects_root]| |].
          - apply (f_equal length) in Hl. rewrite length_app in Hl. simpl in *. lia.
          - intros c1 Hc1. eapply stored_mono; [done|by apply Hcs]. }
        intros h s3 Hg3 Hsub3 [-> Hst3]. apply runs_ret; [done|].
        split; [done|by intros t' [= <-]].
Qed.

End writing.
