(* ===== verification/HamtSpec.v ===== *)
(** * What the persistent HAMT guarantees to its clients

    A root is the hash of a stored well-formed tree; the map it stands for is [root_map].
    [get], [leaf_hash], [entries], [insert] and [remove] are the operations of that map, old
    roots stay valid, and equal contents have equal roots until something is removed. The
    one exception is proved too: when an insertion meets a leaf of another key with the
    same five bits, a key of the new root is lost. *)

From S2P Require Import Prelude Utf8 Hash Codec Record Cas HamtNode Hamt HamtTree HamtProofs.

Section spec.
Context `{Blake3}.

(** The map a root stands for, its height, and the operations on an optional tree. *)
Definition root_map (ot : option tree) : gmap (list byte) (list byte) :=
  list_to_map (opt_entries ot).

Definition root_height (ot : option tree) : nat :=
  match ot with Some t => tree_height t | None => 0 end.

Definition root_insert (ot : option tree) (k v : list byte) : option tree :=
  match ot with Some t => tree_insert 0 t k v | None => Some (TLeaf k v) end.

Definition root_remove (ot : option tree) (k : list byte) : option tree :=
  t ← ot; tree_remove 0 t k.

Definition root_clash (ot : option tree) (k : list byte) : bool :=
  match ot with Some t => tree_clash 0 t k | None => false end.

Definition root_objects (ot : option tree) : list Object :=
  match ot with Some t => tree_objects t | None => [] end.

(** [root] is the hash of the tree, whose nodes are stored. *)
Definition root_at (objs : gmap Hash Object) (root : option Hash) (ot : option tree) : Prop :=
  root = tree_hash <$> ot /\
  match ot with
  | Some t => stored objs t /\ tree_wf 0 t /\ tree_fits t
  | None => True
  end.

Definition root_canon (ot : option tree) : Prop :=
  match ot with Some t => tree_canon t | None => True end.

Lemma root_at_mono objs objs' root ot :
  objs ⊆ objs' -> root_at objs root ot -> root_at objs' root ot.
Proof.
  intros Hsub [Hr Ht]. split; [done|]. destruct ot as [t|]; [|done].
  destruct Ht as (? & ? & ?). split; [by eapply stored_mono|done].
Qed.

Lemma root_map_lookup objs root ot k :
  root_at objs root ot -> root_map ot !! k = (t ← ot; tree_get 0 t k).
Proof.
  intros [_ Ht]. destruct ot as [t|]; [|done]. destruct Ht as (_ & Hwf & _). simpl.
  apply option_eq. intros v. rewrite tree_get_entries by done.
  unfold root_map. symmetry. apply elem_of_list_to_map. by eapply tree_entries_nodup.
Qed.

Lemma root_map_entries objs root ot k v :
  root_at objs root ot -> root_map ot !! k = Some v <-> (k, v) ∈ opt_entries ot.
Proof.
  intros Hat. rewrite (root_map_lookup _ _ _ _ Hat). destruct Hat as [_ Ht].
  destruct ot as [t|]; simpl; [|by rewrite elem_of_nil].
  apply tree_get_entries. by destruct Ht as (_ & ? & _).
Qed.

Lemma root_map_perm objs root ot :
  root_at objs root ot -> opt_entries ot ≡ₚ map_to_list (root_map ot).
Proof.
  intros [_ Ht]. unfold root_map. rewrite map_to_list_to_map; [done|].
  destruct ot as [t|]; [|constructor]. destruct Ht as (_ & Hwf & _). by eapply tree_entries_nodup.
Qed.

(** The map after an insertion whose result is well formed. *)
Lemma root_insert_spec objs root ot k v :
  root_at objs root ot -> leaf_fits k v -> root_clash ot k = false ->
  exists t', root_insert ot k v = Some t' /\ tree_wf 0 t' /\ tree_fits t' /\
             root_map (Some t') = <[k := v]> (root_map ot).
Proof.
  intros Hat Hf Hclash.
  assert (exists t', root_insert ot k v = Some t' /\ tree_wf 0 t' /\
    (forall k0 v0, (k0, v0) ∈ tree_entries t' <->
      (k0 = k /\ v0 = v) \/ (k0 ≠ k /\ (k0, v0) ∈ opt_entries ot))) as (t' & Hins & Hwf' & He).
  { pose proof Hat as [_ Ht]. destruct ot as [t|]; simpl in *.
    - destruct Ht as (_ & Hwf & _).
      destruct (tree_insert_wf 0 t k v Hwf Hclash) as (t' & Hins & Hwf').
      exists t'. split; [done|]. split; [done|]. intros. by eapply tree_insert_entries.
    - exists (TLeaf k v). split; [done|]. split; [constructor|].
      intros k0 v0. rewrite elem_of_leaf_entries, elem_of_nil. naive_solver. }
  exists t'. split; [done|]. split; [done|].
  split.
  - intros k0 v0 [[-> ->]|[_ Hin]]%He; [done|]. destruct Hat as [_ Ht].
    destruct ot as [t|]; [|by apply elem_of_nil in Hin]. by apply Ht.
  - apply map_eq. intros k0. apply option_eq. intros v0.
    transitivity ((k0, v0) ∈ tree_entries t').
    + unfold root_map. symmetry. apply elem_of_list_to_map. by eapply tree_entries_nodup.
    + rewrite He, lookup_insert_Some, <- (root_map_entries _ _ _ _ _ Hat). naive_solver.
Qed.

Lemma root_remove_spec objs root ot k t' :
  root_at objs root ot -> root_remove ot k = Some t' -> tree_wf 0 t' /\ tree_fits t'.
Proof.
  intros [_ Ht] (t & -> & Hrem)%bind_Some. destruct Ht as (_ & Hwf & Hf).
  split; [by eapply tree_remove_wf|]. intros k0 v0 Hin.
  pose proof (tree_remove_entries 0 t k k0 v0 Hwf) as He. rewrite Hrem in He.
  apply He in Hin as [_ Hin]. by apply Hf.
Qed.

Lemma root_remove_map objs root ot k :
  root_at objs root ot -> root_map (root_remove ot k) = delete k (root_map ot).
Proof.
  intros Hat. apply map_eq. intros k0. apply option_eq. intros v0.
  rewrite lookup_delete_Some, (root_map_entries _ _ _ _ _ Hat).
  transitivity ((k0, v0) ∈ opt_entries (root_remove ot k)).
  - unfold root_map. symmetry. apply elem_of_list_to_map.
    destruct (root_remove ot k) as [t'|] eqn:Hrem; [|constructor].
    destruct (root_remove_spec _ _ _ _ _ Hat Hrem) as [Hwf' _]. by eapply tree_entries_nodup.
  - destruct Hat as [_ Ht]. destruct ot as [t|]; simpl.
    + rewrite tree_remove_entries by (by destruct Ht as (_ & ? & _)). naive_solver.
    + rewrite elem_of_nil. naive_solver.
Qed.

End spec.

Section over_store.
Context {S : Type} `{CasLaws S}.

Lemma insert_runs os s root ot k v t' fuel :
  cas_inv s -> no_collision (cas_objects s) os -> root_at (cas_objects s) root ot ->
  leaf_fits k v -> root_insert ot k v = Some t' ->
  (forall o, o ∈ tree_objects t' -> o ∈ os) -> (root_height ot + 53 <= fuel)%nat ->
  runs os s (PersistentHamt.insert fuel root k v)
    (fun h s' => h = tree_hash t' /\ stored (cas_objects s') t').
Proof.
  intros Hi Hnc [-> Ht] Hf Hins Hos Hfuel. unfold PersistentHamt.insert.
  destruct ot as [t|]; simpl in *.
  - destruct Ht as (Hst & Hwf & Hft). apply (insert_refines os t); try done.
    by eapply tree_wf_shape.
  - injection Hins as <-. destruct fuel as [|fuel]; [lia|].
    cbn [PersistentHamt.insert_internal].
    apply runs_persist_leaf; [done|apply Hos, tree_objects_leaf|done].
Qed.

Lemma remove_runs os s root ot k fuel :
  cas_inv s -> no_collision (cas_objects s) os -> root_at (cas_objects s) root ot ->
  (forall o, o ∈ root_objects (root_remove ot k) -> o ∈ os) -> (root_height ot < fuel)%nat ->
  runs os s (PersistentHamt.remove fuel root k)
    (fun h s' => root_at (cas_objects s') h (root_remove ot k)).
Proof.
  intros Hi Hnc Hat Hos Hfuel.
  pose proof (fun t' => root_remove_spec _ _ _ k t' Hat) as Hspec.
  destruct Hat as [-> Ht]. unfold PersistentHamt.remove.
  destruct ot as [t|]; [|apply runs_ret; done]. destruct Ht as (Hst & Hwf & Hf).
  cbn [fmap option_fmap option_map] in *. eapply runs_mono.
  - apply (remove_refines os t); try done; [by eapply tree_wf_shape|].
    intros t' o Hr Ho. apply Hos. cbn. by rewrite Hr.
  - intros h s' _ [-> Hst']. split; [done|].
    change (tree_remove 0 t k) with (root_remove (Some t) k) in *.
    destruct (root_remove (Some t) k) as [t'|] eqn:Hr; [|done].
    destruct (Hspec t' eq_refl). split; [by apply Hst'|done].
Qed.

Lemma get_returns s root ot k fuel :
  cas_inv s -> root_at (cas_objects s) root ot -> (root_height ot < fuel)%nat ->
  returns s (PersistentHamt.get fuel root k) (root_map ot !! k).
Proof.
  intros Hi Hat Hfuel. rewrite (root_map_lookup _ _ _ _ Hat). destruct Hat as [-> Ht].
  destruct ot as [t|]; [|by apply returns_ret]. destruct Ht as (Hst & Hwf & Hf).
  apply get_refines; [done|done|by eapply tree_wf_shape|done|done].
Qed.

(** [entries] lists the tree from left to right. *)
Lemma entries_returns s root ot fuel :
  cas_inv s -> root_at (cas_objects s) root ot -> (root_height ot < fuel)%nat ->
  returns s (PersistentHamt.entries fuel root) (opt_entries ot).
Proof.
  intros Hi [-> Ht] Hfuel. destruct ot as [t|]; [|by apply returns_ret].
  destruct Ht as (Hst & Hwf & Hf).
  apply (collect_refines t fuel []); [done|done|by eapply tree_wf_shape|done|done].
Qed.

End over_store.

(** ** Sequences of insertions *)

Section canonical.
Context `{Blake3}.

(** Canonical trees are determined by their maps. *)
Lemma canon_root_unique objs objs' root root' ot ot' :
  root_at objs root ot -> root_at objs' root' ot' -> root_canon ot -> root_canon ot' ->
  root_map ot = root_map ot' -> root = root'.
Proof.
  intros Hat Hat' Hc Hc' E. pose proof (fun k v => root_map_entries _ _ _ k v Hat) as He.
  pose proof (fun k v => root_map_entries _ _ _ k v Hat') as He'. rewrite E in He.
  assert (forall k v, (k, v) ∈ opt_entries ot <-> (k, v) ∈ opt_entries ot') as Heq
    by (intros k v; rewrite <- He, <- He'; done).
  destruct Hat as [-> Ht], Hat' as [-> Ht']. do 2 f_equal. destruct ot as [t|], ot' as [t'|]; [|..|done].
  - f_equal. destruct Ht as (_ & ? & _), Ht' as (_ & ? & _). by apply (tree_canon_unique 0).
  - destruct (canon_nonempty t Hc) as (k & v & Hin). apply Heq in Hin. by apply elem_of_nil in Hin.
  - destruct (canon_nonempty t' Hc') as (k & v & Hin). apply Heq in Hin. by apply elem_of_nil in Hin.
Qed.

Lemma root_insert_canon objs root ot k v :
  root_at objs root ot -> root_canon ot -> root_canon (root_insert ot k v).
Proof.
  intros [_ Ht] Hc. destruct ot as [t|]; simpl; [|constructor].
  destruct Ht as (_ & Hwf & _). destruct (tree_insert 0 t k v) eqn:Hins; [|done].
  by eapply tree_insert_canon.
Qed.

(** The map after a sequence of insertions. *)
Definition put_map : gmap (list byte) (list byte) -> list (list byte * list byte) ->
    gmap (list byte) (list byte) :=
  foldl (fun m kv => <[kv.1 := kv.2]> m).

(** The trees on the way: they fit, meet no clash, and the fuel covers their height. *)
Fixpoint puts_ok (fuel : nat) (ot : option tree) (kvs : list (list byte * list byte)) : Prop :=
  match kvs with
  | [] => True
  | (k, v) :: kvs =>
      leaf_fits k v /\ root_clash ot k = false /\ (root_height ot + 53 <= fuel)%nat /\
      puts_ok fuel (root_insert ot k v) kvs
  end.

Fixpoint puts_objects (ot : option tree) (kvs : list (list byte * list byte)) : list Object :=
  match kvs with
  | [] => []
  | (k, v) :: kvs => root_objects (root_insert ot k v) ++ puts_objects (root_insert ot k v) kvs
  end.

Fixpoint puts_tree (ot : option tree) (kvs : list (list byte * list byte)) : option tree :=
  match kvs with
  | [] => ot
  | (k, v) :: kvs => puts_tree (root_insert ot k v) kvs
  end.

End canonical.

Section insert_all.
Context {S : Type} `{CasLaws S}.

(** The insertions of the program, one after the other. *)
Fixpoint insert_all (fuel : nat) (root : option Hash) (kvs : list (list byte * list byte)) :
    stM S EpochsError (option Hash) :=
  match kvs with
  | [] => mret root
  | (k, v) :: kvs =>
      new ← PersistentHamt.insert fuel root k v;
      insert_all fuel (Some new) kvs
  end.

Lemma insert_all_runs os fuel kvs s root ot :
  cas_inv s -> no_collision (cas_objects s) os -> root_at (cas_objects s) root ot ->
  root_canon ot -> puts_ok fuel ot kvs -> (forall o, o ∈ puts_objects ot kvs -> o ∈ os) ->
  runs os s (insert_all fuel root kvs) (fun root' s' =>
    root_at (cas_objects s') root' (puts_tree ot kvs) /\ root_canon (puts_tree ot kvs) /\
    root_map (puts_tree ot kvs) = put_map (root_map ot) kvs).
Proof.
  revert s root ot. induction kvs as [|[k v] kvs IH]; intros s root ot Hi Hnc Hat Hc Hok Hos.
  { apply runs_ret; [by split|done]. }
  destruct Hok as (Hf & Hcl & Hfuel & Hok).
  destruct (root_insert_spec _ _ _ _ _ Hat Hf Hcl) as (t' & Hins & Hwf & Hft & Hmap).
  pose proof (root_insert_canon _ _ _ k v Hat Hc) as Hc'.
  cbn [insert_all puts_tree puts_objects] in *. rewrite Hins in *. eapply runs_bind.
  { eapply insert_runs; try done. intros o Ho. apply Hos, elem_of_app. by left. }
  intros h s' [Hi' Hnc'] _ [-> Hst]. cbn beta. change (put_map (root_map ot) ((k, v) :: kvs)) with
    (put_map (<[k := v]> (root_map ot)) kvs). rewrite <- Hmap.
  apply IH; try done. intros o Ho. apply Hos, elem_of_app. by right.
Qed.

End insert_all.

(** A store to try the theorems on: with [toy_hash] the hashes of [ex_key1] and [ex_key2]
    differ in the first five bits, those of [ex_key1] and [ex_key3] agree in them. *)
Section examples.

#[local] Existing Instance toy_hash.

Definition ex_key1 : list byte := [as_u8 1].
Definition ex_key2 : list byte := [as_u8 2].
Definition ex_key3 : list byte := [as_u8 1; as_u8 1].
Definition ex_val : list byte := replicate 40 (as_u8 7).
Definition ex_tree : option tree := Some (TLeaf ex_key1 ex_val).
Definition ex_store : MemCas :=
  (PersistentHamt.insert 60 None ex_key1 ex_val Mem.new).2.
Definition ex_root : option Hash := tree_hash <$> ex_tree.

Lemma ex_inv : cas_inv ex_store.
Proof.
  intros h ty p Hp. change (mem_objects ex_store) with
    (put_object THamtLeaf (encode_node (Leaf ex_key1 ex_val)) ∅) in Hp.
  apply put_object_elem in Hp as [Hp|[-> [= -> ->]]]; [by rewrite lookup_empty in Hp|done].
Qed.

Lemma ex_root_at : root_at (cas_objects ex_store) ex_root ex_tree.
Proof.
  split; [done|]. split; [|split; [constructor|]].
  - apply stored_leaf. vm_compute. reflexivity.
  - apply tree_fits_leaf. split; vm_compute; reflexivity.
Qed.

End examples.

(** ** Properties *)

(** C5: Looking a key up under the root of a stored well-formed tree returns what the map
    of that root holds for it - on every store that satisfies the CAS laws, without
    error, panic or want of fuel, and without touching the stored objects. *)
Theorem hamt_get_correct {S} `{CasLaws S} (s : S) (root : option Hash) (ot : option tree)
    (key : list byte) (fuel : nat) :
  cas_inv s -> root_at (cas_objects s) root ot -> (root_height ot < fuel)%nat ->
  returns s (PersistentHamt.get fuel root key) (root_map ot !! key).
Proof. apply get_returns. Qed.

(** C1: Inserting a key under a root (with no clash on the way and no hash collision among
    the nodes) returns a root whose map is the old map with the key set; it fails only
    when the backend does. Either way every root that was there stays valid. *)
Theorem hamt_insert_correct {S} `{CasLaws S} (s : S) (root : option Hash) (ot : option tree)
    (key value : list byte) (fuel : nat) :
  cas_inv s -> root_at (cas_objects s) root ot -> leaf_fits key value ->
  root_clash ot key = false ->
  no_collision (cas_objects s) (root_objects (root_insert ot key value)) ->
  (root_height ot + 53 <= fuel)%nat ->
  let '(r, s') := PersistentHamt.insert fuel root key value s in
  cas_inv s' /\
  (forall root0 ot0, root_at (cas_objects s) root0 ot0 -> root_at (cas_objects s') root0 ot0) /\
  match r with
  | Ok new => exists ot', root_at (cas_objects s') (Some new) ot' /\
                          root_map ot' = <[key := value]> (root_map ot)
  | Err _ => ~ CasTotal S
  | _ => False
  end.
Proof.
  intros Hi Hat Hf Hclash Hnc Hfuel.
  destruct (root_insert_spec _ _ _ _ _ Hat Hf Hclash) as (t' & Hins & Hwf & Hft & Hmap).
  rewrite Hins in Hnc. pose proof (insert_runs _ s root ot key value t' fuel Hi Hnc Hat Hf Hins
    (fun o Ho => Ho) Hfuel) as Hrun.
  unfold runs in Hrun. destruct (PersistentHamt.insert fuel root key value s) as [r s'].
  destruct Hrun as ([Hi' _] & Hsub & Hr). split; [done|].
  split; [intros; by eapply root_at_mono|]. destruct r; try done; [|by destruct Hr].
  destruct Hr as [-> Hst]. by exists (Some t').
Qed.

(** C6: Removing a key returns the root of the map without the key ([None] for the empty
    trie), whether or not the key was there; every root that was there stays valid. *)
Theorem hamt_remove_correct {S} `{CasLaws S} (s : S) (root : option Hash) (ot : option tree)
    (key : list byte) (fuel : nat) :
  cas_inv s -> root_at (cas_objects s) root ot ->
  no_collision (cas_objects s) (root_objects (root_remove ot key)) ->
  (root_height ot < fuel)%nat ->
  let '(r, s') := PersistentHamt.remove fuel root key s in
  cas_inv s' /\
  (forall root0 ot0, root_at (cas_objects s) root0 ot0 -> root_at (cas_objects s') root0 ot0) /\
  match r with
  | Ok new => exists ot', root_at (cas_objects s') new ot' /\
                          root_map ot' = delete key (root_map ot)
  | Err _ => ~ CasTotal S
  | _ => False
  end.
Proof.
  intros Hi Hat Hnc Hfuel.
  pose proof (root_remove_map _ _ _ key Hat) as Hmap.
  pose proof (remove_runs _ s root ot key fuel Hi Hnc Hat (fun o Ho => Ho) Hfuel) as Hrun.
  unfold runs in Hrun. destruct (PersistentHamt.remove fuel root key s) as [r s'].
  destruct Hrun as ([Hi' _] & Hsub & Hr). split; [done|].
  split; [intros; by eapply root_at_mono|]. destruct r; try done; [by eexists|by destruct Hr].
Qed.

(** [entries] lists every binding of the map of a root exactly once, and [leaf_hash]
    returns the content hash of the leaf of a key, for the keys that are there. *)
Theorem hamt_entries_correct {S} `{CasLaws S} (s : S) (root : option Hash) (ot : option tree)
    (key : list byte) (fuel : nat) :
  cas_inv s -> root_at (cas_objects s) root ot -> (root_height ot < fuel)%nat ->
  (exists l, returns s (PersistentHamt.entries fuel root) l /\ l ≡ₚ map_to_list (root_map ot)) /\
  returns s (PersistentHamt.leaf_hash fuel root key)
    ((fun v => of_bytes (encode_node (Leaf key v))) <$> root_map ot !! key).
Proof.
  intros Hi Hat Hfuel. rewrite (root_map_lookup _ _ _ _ Hat). split.
  - exists (opt_entries ot). split; [by apply entries_returns|by eapply root_map_perm].
  - destruct Hat as [-> Ht]. destruct ot as [t|]; [|by apply returns_ret].
    destruct Ht as (Hst & Hwf & Hf).
    apply leaf_hash_refines; [done|done|by eapply tree_wf_shape|done|done].
Qed.

(** C37: A clashing insertion loses a key. When the insertion of a key reaches the leaf of
    another key whose hash has the same five bits at that depth (for two keys in an
    otherwise empty trie: the same first five bits), the new root lists every binding of
    the updated map in [entries], but [get] does not find one of them: the bitmap node is
    keyed by a later depth than the one it is placed at. *)
Theorem hamt_insert_clash_loses_key {S} `{CasLaws S, !CasTotal S} (s : S) (root : option Hash)
    (t t' : tree) (key value : list byte) (fuel fuel' : nat) :
  cas_inv s -> root_at (cas_objects s) root (Some t) -> leaf_fits key value ->
  tree_clash 0 t key = true ->
  tree_insert 0 t key value = Some t' ->
  no_collision (cas_objects s) (tree_objects t') ->
  (tree_height t + 53 <= fuel)%nat -> (tree_height t' < fuel')%nat ->
  exists new s', PersistentHamt.insert fuel root key value s = (Ok new, s') /\
  exists k0 v0, <[key := value]> (root_map (Some t)) !! k0 = Some v0 /\
    (exists l, returns s' (PersistentHamt.entries fuel' (Some new)) l /\ (k0, v0) ∈ l) /\
    returns s' (PersistentHamt.get fuel' (Some new) k0) None.
Proof.
  intros Hi Hat Hf Hclash Hins Hnc Hfuel Hfuel'.
  pose proof (insert_runs _ s root (Some t) key value t' fuel Hi Hnc Hat Hf Hins
    (fun o Ho => Ho) Hfuel) as Hrun.
  unfold runs in Hrun. destruct (PersistentHamt.insert fuel root key value s) as [r s'].
  destruct Hrun as ([Hi' _] & Hsub & Hr). destruct r as [new| | |]; try done; [|by destruct Hr].
  destruct Hr as [-> Hst]. eexists _, _. split; [done|].
  pose proof Hat as [_ (_ & Hwf & Hft)].
  destruct (tree_insert_clash_loses 0 t key value t' Hwf Hclash Hins) as (k0 & v0 & Hin & Hget).
  pose proof (proj1 (tree_insert_entries _ _ _ _ _ _ _ Hwf Hins) Hin) as He.
  assert (tree_shape t') as Hs by (eapply tree_insert_shape; [by eapply tree_wf_shape|done]).
  assert (tree_fits t') as Hft'.
  { intros k v Hkv. apply (tree_insert_entries _ _ _ _ _ _ _ Hwf Hins) in Hkv
      as [[-> ->]|[_ Hkv]]; [done|by apply Hft]. }
  exists k0, v0. split.
  - rewrite lookup_insert_Some, (root_map_entries _ _ _ _ _ Hat). naive_solver.
  - split.
    + exists (tree_entries t'). split; [|done]. by apply (collect_refines t' fuel' []).
    + rewrite <- Hget. by apply get_refines.
Qed.

(** C14: History independence. Insert some bindings into the empty trie, one after the other,
    and the same or others, in any order, into the empty trie of another store: if both
    sequences leave the same map, the two roots are the same hash, and it is the root of a trie
    with that map. The insertions may meet no clash (with one a key is lost, and the result
    depends on the order), and in neither store may two objects have one hash; a sequence fails
    only when its backend does. *)
Theorem hamt_root_canonical {S1 S2} `{Blake3} `{!CasBackend S1, !CasLaws S1, !CasBackend S2, !CasLaws S2}
    (s1 : S1) (s2 : S2) (kvs1 kvs2 : list (list byte * list byte)) (fuel1 fuel2 : nat) :
  cas_inv s1 -> cas_inv s2 -> puts_ok fuel1 None kvs1 -> puts_ok fuel2 None kvs2 ->
  no_collision (cas_objects s1) (puts_objects None kvs1) ->
  no_collision (cas_objects s2) (puts_objects None kvs2) ->
  put_map ∅ kvs1 = put_map ∅ kvs2 ->
  let '(r1, s1') := insert_all fuel1 None kvs1 s1 in
  let '(r2, _) := insert_all fuel2 None kvs2 s2 in
  match r1, r2 with
  | Ok root1, Ok root2 =>
      root1 = root2 /\
      exists ot, root_at (cas_objects s1') root1 ot /\ root_map ot = put_map ∅ kvs1
  | Err _, Ok _ => ~ CasTotal S1
  | Ok _, Err _ => ~ CasTotal S2
  | Err _, Err _ => ~ CasTotal S1 /\ ~ CasTotal S2
  | _, _ => False
  end.
Proof.
  intros Hi1 Hi2 Hk1 Hk2 Hnc1 Hnc2 Hmap.
  pose proof (insert_all_runs _ fuel1 kvs1 s1 None None Hi1 Hnc1 ltac:(done) ltac:(done) Hk1
    (fun o Ho => Ho)) as Hr1.
  pose proof (insert_all_runs _ fuel2 kvs2 s2 None None Hi2 Hnc2 ltac:(done) ltac:(done) Hk2
    (fun o Ho => Ho)) as Hr2.
  unfold runs in *. destruct (insert_all fuel1 None kvs1 s1) as [r1 s1'], (insert_all fuel2 None kvs2 s2) as [r2 s2'].
  destruct Hr1 as (_ & _ & Hr1), Hr2 as (_ & _ & Hr2).
  destruct r1 as [root1|e1| |]; try done; destruct r2 as [root2|e2| |]; try done; [|naive_solver..].
  destruct Hr1 as (Hat1 & Hc1 & Hm1), Hr2 as (Hat2 & Hc2 & Hm2). split; [|by eexists].
  eapply canon_root_unique; [exact Hat1|exact Hat2|done|done|]. rewrite Hm1, Hm2. exact Hmap.
Qed.

(** ** The properties at work *)

Section witnesses.

#[local] Existing Instance toy_hash.

Lemma hamt_get_correct_witness :
  returns ex_store
    (PersistentHamt.get 1 ex_root ex_key1) (root_map ex_tree !! ex_key1).
Proof.
  apply (hamt_get_correct ex_store ex_root ex_tree ex_key1 1).
  - apply ex_inv.
  - apply ex_root_at.
  - apply Nat.lt_0_succ.
Defined.

Lemma hamt_insert_correct_witness :
  let '(r, s') := PersistentHamt.insert 60 ex_root ex_key2 ex_val ex_store in
  cas_inv s' /\
  (forall root0 ot0, root_at (cas_objects ex_store) root0 ot0 ->
     root_at (cas_objects s') root0 ot0) /\
  match r with
  | Ok new => exists ot', root_at (cas_objects s') (Some new) ot' /\
                          root_map ot' = <[ex_key2 := ex_val]> (root_map ex_tree)
  | Err _ => ~ CasTotal MemCas
  | _ => False
  end.
Proof.
  apply (hamt_insert_correct ex_store ex_root ex_tree ex_key2 ex_val 60).
  - apply ex_inv.
  - apply ex_root_at.
  - split; vm_compute; reflexivity.
  - vm_compute. reflexivity.
  - apply (bool_decide_unpack _). vm_compute. exact I.
  - apply Nat.leb_le. reflexivity.
Defined.

Lemma hamt_remove_correct_witness :
  let '(r, s') := PersistentHamt.remove 1 ex_root ex_key1 ex_store in
  cas_inv s' /\
  (forall root0 ot0, root_at (cas_objects ex_store) root0 ot0 ->
     root_at (cas_objects s') root0 ot0) /\
  match r with
  | Ok new => exists ot', root_at (cas_objects s') new ot' /\
                          root_map ot' = delete ex_key1 (root_map ex_tree)
  | Err _ => ~ CasTotal MemCas
  | _ => False
  end.
Proof.
  apply (hamt_remove_correct ex_store ex_root ex_tree ex_key1 1).
  - apply ex_inv.
  - apply ex_root_at.
  - apply (bool_decide_unpack _). vm_compute. exact I.
  - apply Nat.lt_0_succ.
Defined.

Lemma hamt_entries_correct_witness :
  (exists l, returns ex_store (PersistentHamt.entries 1 ex_root) l /\
     l ≡ₚ map_to_list (root_map ex_tree)) /\
  returns ex_store (PersistentHamt.leaf_hash 1 ex_root ex_key2)
    ((fun v => of_bytes (encode_node (Leaf ex_key2 v))) <$>
       root_map ex_tree !! ex_key2).
Proof.
  apply (hamt_entries_correct ex_store ex_root ex_tree ex_key2 1).
  - apply ex_inv.
  - apply ex_root_at.
  - apply Nat.lt_0_succ.
Defined.

Lemma hamt_insert_clash_loses_key_witness :
  exists new s', PersistentHamt.insert 60 ex_root ex_key3 ex_val ex_store = (Ok new, s') /\
  exists k0 v0, <[ex_key3 := ex_val]> (root_map ex_tree) !! k0 = Some v0 /\
    (exists l, returns s' (PersistentHamt.entries 60 (Some new)) l /\ (k0, v0) ∈ l) /\
    returns s' (PersistentHamt.get 60 (Some new) k0) None.
Proof.
  eapply (hamt_insert_clash_loses_key ex_store ex_root
    (TLeaf ex_key1 ex_val) _ ex_key3 ex_val 60 60).
  - apply ex_inv.
  - apply ex_root_at.
  - split; vm_compute; reflexivity.
  - vm_compute. reflexivity.
  - vm_compute. reflexivity.
  - apply (bool_decide_unpack _). vm_compute. exact I.
  - apply Nat.leb_le. reflexivity.
  - apply Nat.leb_le. reflexivity.
Defined.

(** Two keys, and one that is written twice, in two orders. *)
Definition ex_puts1 : list (list byte * list byte) := [(ex_key1, ex_val); (ex_key2, ex_val)].
Definition ex_puts2 : list (list byte * list byte) :=
  [(ex_key2, []); (ex_key2, ex_val); (ex_key1, ex_val)].

Lemma hamt_root_canonical_witness :
  let '(r1, s1') := insert_all 60 None ex_puts1 Mem.new in
  let '(r2, _) := insert_all 60 None ex_puts2 Mem.new in
  match r1, r2 with
  | Ok root1, Ok root2 =>
      root1 = root2 /\
      exists ot, root_at (cas_objects s1') root1 ot /\ root_map ot = put_map ∅ ex_puts1
  | Err _, Ok _ | Ok _, Err _ => ~ CasTotal MemCas
  | Err _, Err _ => ~ CasTotal MemCas /\ ~ CasTotal MemCas
  | _, _ => False
  end.
Proof.
  assert (cas_inv Mem.new) as Hi by (intros h ty p Hp; cbn in Hp; by rewrite lookup_empty in Hp).
  pose proof (hamt_root_canonical Mem.new Mem.new ex_puts1 ex_puts2 60 60 Hi Hi) as Hp.
  apply Hp; clear Hp.
  - do 2 (split; [split; vm_compute; reflexivity|split; [vm_compute; reflexivity|
      split; [apply Nat.leb_le; vm_compute; reflexivity|]]]). exact I.
  - do 3 (split; [split; vm_compute; reflexivity|split; [vm_compute; reflexivity|
      split; [apply Nat.leb_le; vm_compute; reflexivity|]]]). exact I.
  - apply (bool_decide_unpack (no_collision _ _)). vm_compute. exact I.
  - apply (bool_decide_unpack (no_collision _ _)). vm_compute. exact I.
  - apply (bool_decide_unpack _). vm_compute. exact I.
Defined.

End witnesses.
