(* ===== verification/CasStore.v ===== *)
(** * The segmented CAS on disk ([epochs-core/src/cas/store.rs])

    The files of [data/] are a map from names to contents; the bytes still in the
    [BufWriter] of the active segment are separate from them, so that a crash can lose
    them. System calls do not fail, except for files that are missing or too short. The
    [memmap2] crate is a parameter. *)

From Stdlib Require Import Strings.Byte.
From S2P Require Import Prelude Utf8 Hash Codec Record Cache Index Cas.

Definition SEGMENT_MAX_BYTES : Z := 64 * 1024 * 1024.
Definition WRITE_CACHE_CAP : Z := 8192.
Definition MMAP_SEGMENTS_CAP : Z := 4.
Definition SEGMENT_BUF_BYTES : Z := 64 * 1024.

(** [memmap2::Mmap::map]: the bytes of the file, or an error message. *)
Class MmapLib := mmap_map : list byte -> string + list byte.

(** What the code relies on: a mapping shows the bytes of the file. *)
Class MmapLaws `{MmapLib} := mmap_shows : forall file m, mmap_map file = inr m -> m = file.

(** The contents of the directory [data/]. *)
Abbreviation DataDir := (gmap string (list byte)).

Record CasStore := mk_CasStore {
  cs_data : DataDir;            (* the files of data/, as the system has them *)
  cs_index : Index;
  cs_segment : Z;               (* current_segment_id: u16 *)
  cs_file : string;             (* the file of current_file *)
  cs_buf : list byte;           (* the buffer of current_file *)
  cs_offset : Z;                (* current_offset: u64 *)
  cs_dirty : bool;
  cs_cache : LruMap Hash Object;  (* write_cache *)
  cs_maps : gmap Z (list byte);   (* segment_maps *)
  cs_mmap_cap : Z;
  cs_clock : Z                  (* SystemTime::now, in seconds *)
}.

(** ** Segment names *)

(** [format!("{:0n}", z)] of a number of at most [n] digits. *)
Fixpoint dec_fixed (n : nat) (z : Z) : list byte :=
  match n with
  | O => []
  | S n => dec_fixed n (z / 10) ++ [as_u8 (48 + z mod 10)]
  end.

(** [segment_path_for], relative to [data/]. *)
Definition segment_path_for (segment_id : Z) : string :=
  bytes_str (dec_fixed 6 segment_id ++ str_bytes ".epl").

(** [str::parse] of an unsigned integer type with maximum [max]. *)
Fixpoint dec_digits (max : Z) (l : list byte) (acc : Z) : option Z :=
  match l with
  | [] => Some acc
  | b :: l =>
      let v := byte_val b in
      if (48 <=? v) && (v <=? 57) then
        let acc := acc * 10 + (v - 48) in
        if max <? acc then None else dec_digits max l acc
      else None
  end.

Definition parse_uint (max : Z) (l : list byte) : option Z :=
  match l with
  | [] => None
  | [_] => dec_digits max l 0
  | b :: r => if decide (b = "+"%byte) then dec_digits max r 0 else dec_digits max l 0
  end.

(** [str::strip_suffix]. *)
Definition strip_suffix (suffix l : list byte) : option (list byte) :=
  let n := (length l - length suffix)%nat in
  if decide (drop n l = suffix /\ (length suffix <= length l)%nat) then Some (take n l) else None.

(** The segment id in a file name. *)
Definition segment_of_name (name : string) : option Z :=
  stem ← strip_suffix (str_bytes ".epl") (str_bytes name);
  parse_uint 65535 stem.

Definition find_latest_segment (data : DataDir) : option Z :=
  foldl (fun max_id name =>
    match segment_of_name name with
    | Some id => Some (match max_id with None => id | Some m => Z.max m id end)
    | None => max_id
    end) None (map_to_list data).*1.

(** ** Files *)

Definition not_found_msg : string := "No such file or directory (os error 2)".
Definition eof_msg : string := "failed to fill whole buffer".

Definition slice (off len : Z) (l : list byte) : list byte :=
  take (Z.to_nat len) (drop (Z.to_nat off) l).

(** Open a file, seek and [read_exact]. *)
Definition read_at (name : string) (off len : Z) (data : DataDir) : Result (list byte) :=
  match data !! name with
  | None => Err (Io not_found_msg)
  | Some file =>
      if (len =? 0) || (off + len <=? lenZ file) then Ok (slice off len file)
      else Err (Io eof_msg)
  end.

Definition append_file (name : string) (bytes : list byte) (data : DataDir) : DataDir :=
  alter (fun file => file ++ bytes) name data.

(** The new directory and the length of the file. *)
Definition open_or_create_segment (name : string) (segment_id clock : Z) (data : DataDir) :
    Result (DataDir * Z) :=
  match data !! name with
  | None => Ok (<[name := encode_segment_header segment_id clock]> data, SEGMENT_HEADER_LEN)
  | Some file =>
      if lenZ file <? SEGMENT_HEADER_LEN then
        Err (Storage (Corrupt "segment shorter than header"))
      else if decide (take 4 file ≠ SEGMENT_MAGIC) then
        Err (Storage (Corrupt "invalid segment magic"))
      else Ok (data, lenZ file)
  end.

(** Remove the mapping with the smallest id until at most [n] are left. *)
Definition min_key (maps : gmap Z (list byte)) : option Z :=
  foldl (fun m k => Some (match m with None => k | Some m => Z.min m k end)) None
    (map_to_list maps).*1.

Fixpoint drop_oldest (fuel : nat) (n : Z) (maps : gmap Z (list byte)) : gmap Z (list byte) :=
  match fuel with
  | O => maps
  | S fuel =>
      if n <? Z.of_nat (size maps) then
        match min_key maps with
        | Some oldest => drop_oldest fuel n (delete oldest maps)
        | None => maps
        end
      else maps
  end.

Module Store.
Section store.
Context `{Blake3, MmapLib}.

Abbreviation M := (stM CasStore EpochsError).

(** [CasStore::open] on a repository whose [data/] and [index.epi] have the given contents. *)
Definition open (data : DataDir) (epi : list byte) (clock : Z) : Result CasStore :=
  index ← IndexOps.open epi;
  let segment_id := default 0 (find_latest_segment data) in
  let segment_path := segment_path_for segment_id in
  '(data, offset) ← open_or_create_segment segment_path segment_id clock data;
  Ok (mk_CasStore data index segment_id segment_path [] offset false
        (Lru.new WRITE_CACHE_CAP) ∅ MMAP_SEGMENTS_CAP clock).

Definition set_object_cache_cap (cap : Z) (s : CasStore) : CasStore :=
  mk_CasStore (cs_data s) (cs_index s) (cs_segment s) (cs_file s) (cs_buf s) (cs_offset s)
    (cs_dirty s) (Lru.new cap) (cs_maps s) (cs_mmap_cap s) (cs_clock s).

Definition set_maps (maps : gmap Z (list byte)) (s : CasStore) : CasStore :=
  mk_CasStore (cs_data s) (cs_index s) (cs_segment s) (cs_file s) (cs_buf s) (cs_offset s)
    (cs_dirty s) (cs_cache s) maps (cs_mmap_cap s) (cs_clock s).

Definition set_mmap_cap (cap : Z) (s : CasStore) : CasStore :=
  let s := mk_CasStore (cs_data s) (cs_index s) (cs_segment s) (cs_file s) (cs_buf s)
             (cs_offset s) (cs_dirty s) (cs_cache s) (cs_maps s) cap (cs_clock s) in
  set_maps (drop_oldest (size (cs_maps s)) cap (cs_maps s)) s.

Definition contains (hash : Hash) (s : CasStore) : bool := IndexOps.contains hash (cs_index s).

(** The file and the buffer of [current_file]. *)
Definition set_file (data : DataDir) (buf : list byte) (s : CasStore) : CasStore :=
  mk_CasStore data (cs_index s) (cs_segment s) (cs_file s) buf (cs_offset s)
    (cs_dirty s) (cs_cache s) (cs_maps s) (cs_mmap_cap s) (cs_clock s).

(** [BufWriter::flush]. *)
Definition flush_buf (s : CasStore) : CasStore :=
  set_file (append_file (cs_file s) (cs_buf s) (cs_data s)) [] s.

(** [BufWriter::write_all]. *)
Definition write_all (bytes : list byte) (s : CasStore) : CasStore :=
  let spare := SEGMENT_BUF_BYTES - lenZ (cs_buf s) in
  if lenZ bytes <? spare then set_file (cs_data s) (cs_buf s ++ bytes) s
  else
    let s := if spare <? lenZ bytes then flush_buf s else s in
    if SEGMENT_BUF_BYTES <=? lenZ bytes then
      set_file (append_file (cs_file s) bytes (cs_data s)) (cs_buf s) s
    else set_file (cs_data s) (cs_buf s ++ bytes) s.

(** [CasStore::flush]; [sync_data] has no effect on what the model tracks. *)
Definition flush : M unit := fun s =>
  let s := flush_buf s in
  if cs_dirty s then
    let s := mk_CasStore (cs_data s) (cs_index s) (cs_segment s) (cs_file s) (cs_buf s)
               (cs_offset s) false (cs_cache s) (cs_maps s) (cs_mmap_cap s) (cs_clock s) in
    (Ok tt, set_maps (delete (cs_segment s) (cs_maps s)) s)
  else (Ok tt, s).

(** The rest of [rotate_segment]: the id is advanced before the new segment is opened. *)
Definition next_segment : M unit := fun s =>
    if 65535 <? cs_segment s + 1 then (Err (Storage (Corrupt "segment id overflow")), s)
    else
      let id := cs_segment s + 1 in
      let s := mk_CasStore (cs_data s) (cs_index s) id (cs_file s) (cs_buf s)
                 (cs_offset s) (cs_dirty s) (cs_cache s) (cs_maps s) (cs_mmap_cap s)
                 (cs_clock s) in
      let path := segment_path_for id in
      match open_or_create_segment path id (cs_clock s) (cs_data s) with
      | Ok (data, offset) =>
          (Ok tt, mk_CasStore data (cs_index s) id path [] offset (cs_dirty s) (cs_cache s)
                    (cs_maps s) (cs_mmap_cap s) (cs_clock s))
      | Err e => (Err e, s)
      | Panic => (Panic, s)
      | OutOfFuel => (OutOfFuel, s)
      end.

Definition rotate_segment : M unit := _ ← flush; next_segment.

Definition ensure_segment_capacity (needed : Z) : M unit := fun s =>
  if SEGMENT_MAX_BYTES <? cs_offset s + needed then rotate_segment s else (Ok tt, s).

Definition set_cache (cache : LruMap Hash Object) (s : CasStore) : CasStore :=
  mk_CasStore (cs_data s) (cs_index s) (cs_segment s) (cs_file s) (cs_buf s) (cs_offset s)
    (cs_dirty s) cache (cs_maps s) (cs_mmap_cap s) (cs_clock s).

(** The part of [put] after the segment has room. *)
Definition put_record (ty : RecordType) (payload : list byte) (hash : Hash) : M Hash := fun s =>
  let record_bytes := encode_record ty payload hash in
  let record_len := lenZ record_bytes mod 2 ^ 32 in   (* as u32 *)
  let offset := cs_offset s in
  let s := write_all record_bytes s in
  let index := IndexOps.insert hash (mk_IndexEntry (cs_segment s) offset record_len) (cs_index s) in
  let s := mk_CasStore (cs_data s) index (cs_segment s) (cs_file s) (cs_buf s)
             (cs_offset s + record_len) true (cs_cache s) (cs_maps s) (cs_mmap_cap s)
             (cs_clock s) in
  (Ok hash, set_cache (Lru.insert hash (ty, payload) (cs_cache s)) s).

Definition put (ty : RecordType) (payload : list byte) : M Hash := fun s =>
  let hash := of_bytes payload in
  if IndexOps.contains hash (cs_index s) then (Ok hash, s)
  else (_ ← ensure_segment_capacity (41 + lenZ payload + 4); put_record ty payload hash) s.

Definition ensure_mmap (segment_id : Z) : M (list byte) := fun s =>
  if cs_mmap_cap s =? 0 then (Err (Storage (Corrupt "mmap disabled")), s)
  else
    match cs_maps s !! segment_id with
    | Some m => (Ok m, s)
    | None =>
        match cs_data s !! segment_path_for segment_id with
        | None => (Err (Io not_found_msg), s)
        | Some file =>
            match mmap_map file with
            | inl e => (Err (Storage (Corrupt ("mmap failed: " +:+ e))), s)
            | inr m =>
                let maps := drop_oldest (size (cs_maps s)) (cs_mmap_cap s - 1) (cs_maps s) in
                let maps := <[segment_id := m]> maps in
                (ok_or (Storage (Corrupt "mmap missing after insert")) (maps !! segment_id),
                 set_maps maps s)
            end
        end
    end.

Definition read_record_bytes (entry : IndexEntry) : M (list byte) := fun s =>
  let s := if segment_id entry =? cs_segment s then flush_buf s else s in
  let from_file s :=
    (read_at (segment_path_for (segment_id entry)) (offset entry) (record_len entry) (cs_data s), s) in
  if (0 <? cs_mmap_cap s) && negb (segment_id entry =? cs_segment s) then
    match ensure_mmap (segment_id entry) s with
    | (Ok m, s) =>
        let start := offset entry in
        let end_ := start + record_len entry in
        if end_ <=? lenZ m then (Ok (slice start (record_len entry) m), s) else from_file s
    | (_, s) => from_file s
    end
  else from_file s.

Definition get_payload (hash : Hash) : M Object := fun s =>
  match Lru.get hash (cs_cache s) with
  | Some o => (Ok o, s)
  | None =>
      match IndexOps.get hash (cs_index s) with
      | None => (Err (Storage (NotFound hash)), s)
      | Some entry =>
          (record_buf ← read_record_bytes entry;
           rec ← lift (decode_record record_buf);
           let o := (record_type rec, payload rec) in
           _ ← modify (fun s => set_cache (Lru.insert hash o (cs_cache s)) s);
           mret o) s
      end
  end.

Definition get_record (hash : Hash) : M Record :=
  '(ty, payload) ← get_payload hash;
  mret (mk_Record ty hash payload).

Definition get (hash : Hash) : M (list byte) :=
  o ← get_payload hash; mret o.2.

Definition find_by_prefix (prefix : string) (s : CasStore) : list Hash :=
  IndexOps.find_by_prefix prefix (cs_index s).

Definition hashes (s : CasStore) : list Hash := IndexOps.hashes (cs_index s).

(** [Drop]: what is on disk when the store is dropped, and when the process dies instead. *)
Definition drop_store (s : CasStore) : DataDir * list byte :=
  let s' := (flush s).2 in (cs_data s', idx_file (cs_index s')).

Definition crash (s : CasStore) : DataDir * list byte := (cs_data s, idx_file (cs_index s)).

End store.
End Store.

#[global] Instance CasStore_backend `{Blake3, MmapLib} : CasBackend CasStore := {
  cas_put := Store.put;
  cas_get_record := Store.get_payload
}.
