(* ===== verification/CasStoreProofs.v ===== *)
(** * The disk store satisfies the CAS laws, and what a restart gives back

    [store_ok] is the invariant of an open store: the index matches its file, every entry
    locates the record of its hash in the segments seen with the write buffer, the caches
    agree with them. [CasStore_laws] makes the disk store an instance of [CasLaws]. *)

From Stdlib Require Import Strings.Byte.
From S2P Require Import Prelude Utf8 Hash Codec Record Cache Index Cas CasStore.

(** ** Segment names *)

Lemma dec_digit_val (d : Z) : 0 <= d < 10 -> byte_val (as_u8 (48 + d)) = 48 + d.
Proof. intros. rewrite byte_val_as_u8, Z.mod_small by lia. done. Qed.

Lemma dec_digits_app max l1 l2 acc :
  dec_digits max (l1 ++ l2) acc = (a ← dec_digits max l1 acc; dec_digits max l2 a).
Proof.
  revert acc. induction l1 as [|b l1 IH]; intros acc; [done|]. cbn [app dec_digits].
  destruct (_ && _); [|done]. destruct (_ <? _); [done|]. apply IH.
Qed.

Lemma dec_digits_fixed max n z acc :
  0 <= z < 10 ^ Z.of_nat n -> 0 <= acc -> acc * 10 ^ Z.of_nat n + z <= max ->
  dec_digits max (dec_fixed n z) acc = Some (acc * 10 ^ Z.of_nat n + z).
Proof.
  revert z acc. induction n as [|n IH]; intros z acc Hz Hacc Hmax.
  - change (10 ^ Z.of_nat 0) with 1 in *. simpl. f_equal. lia.
  - rewrite Nat2Z.inj_succ, Z.pow_succ_r in * by lia. cbn [dec_fixed].
    pose proof (Z.div_mod z 10 ltac:(lia)) as Hdm.
    pose proof (Z.mod_pos_bound z 10 ltac:(lia)) as Hm.
    set (q := z / 10) in *. set (r := z mod 10) in *. clearbody q r.
    set (P := 10 ^ Z.of_nat n) in *. assert (0 < P) by (unfold P; lia).
    rewrite dec_digits_app, IH by nia. simpl.
    rewrite dec_digit_val by lia.
    destruct (Z.leb_spec 48 (48 + r)); [|lia]. destruct (Z.leb_spec (48 + r) 57); [|lia].
    cbn [andb]. replace ((acc * P + q) * 10 + (48 + r - 48)) with (acc * (10 * P) + z) by lia.
    destruct (Z.ltb_spec max (acc * (10 * P) + z)); [lia|done].
Qed.

Lemma length_dec_fixed n z : length (dec_fixed n z) = n.
Proof.
  revert z. induction n as [|n IH]; intros z; [done|]. cbn [dec_fixed].
  rewrite length_app, IH. simpl. lia.
Qed.

Lemma dec_fixed_no_plus n z : "+"%byte ∉ dec_fixed n z.
Proof.
  revert z. induction n as [|n IH]; intros z; cbn [dec_fixed]; [apply not_elem_of_nil|].
  rewrite elem_of_app, list_elem_of_singleton. intros [Hin|E]; [by eapply IH|].
  apply (f_equal byte_val) in E. pose proof (Z.mod_pos_bound z 10 ltac:(lia)).
  rewrite dec_digit_val in E by done. change (byte_val "+"%byte) with 43 in E. lia.
Qed.

Lemma parse_uint_fixed max n z :
  (1 < n)%nat -> 0 <= z < 10 ^ Z.of_nat n -> z <= max ->
  parse_uint max (dec_fixed n z) = Some z.
Proof.
  intros Hn Hz Hmax. pose proof (dec_fixed_no_plus n z) as Hp.
  pose proof (length_dec_fixed n z) as Hl.
  assert (dec_digits max (dec_fixed n z) 0 = Some z) as Hd
    by (rewrite dec_digits_fixed by lia; f_equal; lia).
  destruct (dec_fixed n z) as [|b [|b' r]]; simpl in Hl; [lia|lia|]. unfold parse_uint.
  rewrite decide_False; [done|]. set_solver.
Qed.

Lemma segment_of_path id : 0 <= id < 65536 -> segment_of_name (segment_path_for id) = Some id.
Proof.
  intros Hid. unfold segment_of_name, segment_path_for. rewrite str_bytes_str.
  unfold strip_suffix. rewrite length_app.
  replace (length (dec_fixed 6 id) + length (str_bytes ".epl") - length (str_bytes ".epl"))%nat
    with (length (dec_fixed 6 id)) by lia.
  rewrite drop_app_length, take_app_length, decide_True by (split; [done|lia]).
  cbn [mbind option_bind].
  apply parse_uint_fixed; [lia| |lia]. change (10 ^ Z.of_nat 6) with 1000000. lia.
Qed.

Lemma segment_path_inj id id' :
  0 <= id < 65536 -> 0 <= id' < 65536 -> segment_path_for id = segment_path_for id' -> id = id'.
Proof.
  intros H1 H2 E. apply (f_equal segment_of_name) in E.
  rewrite !segment_of_path in E by done. by injection E.
Qed.

(** [find_latest_segment] returns the largest id of the names. *)
Lemma find_latest_fold names acc :
  match foldl (fun max_id name =>
    match segment_of_name name with
    | Some id => Some (match max_id with None => id | Some m => Z.max m id end)
    | None => max_id
    end) acc names with
  | None => acc = None /\ forall n, n ∈ names -> segment_of_name n = None
  | Some m =>
      (acc = Some m \/ exists n, n ∈ names /\ segment_of_name n = Some m) /\
      (forall a, acc = Some a -> a <= m) /\
      (forall n id, n ∈ names -> segment_of_name n = Some id -> id <= m)
  end.
Proof.
  revert acc. induction names as [|n names IH]; intros acc; cbn [foldl].
  - destruct acc as [a|].
    + split; [by left|]. split; [by intros ? [= ->]|]. by intros ? ? ?%not_elem_of_nil.
    + split; [done|]. by intros ? ?%not_elem_of_nil.
  - destruct (segment_of_name n) as [id|] eqn:Hn.
    + specialize (IH (Some (match acc with None => id | Some m => Z.max m id end))).
      destruct (foldl _ _ names) as [m|]; [|by destruct IH as [? _]].
      destruct IH as (Hm & Hacc & Hall). specialize (Hacc _ eq_refl). split; [|split].
      * destruct Hm as [[= Hm]|(n' & Hin & Hn')]; [|right; exists n'; set_solver].
        destruct acc as [a|]; [|right; exists n; subst; set_solver].
        destruct (decide (a <= id)); [right; exists n|left]; [|f_equal; lia].
        split; [by left|]. rewrite Hn. f_equal. lia.
      * intros a ->. lia.
      * intros n' id' [->|Hin]%elem_of_cons Hn'; [|by eapply Hall].
        rewrite Hn in Hn'. injection Hn' as ->. destruct acc; lia.
    + specialize (IH acc). destruct (foldl _ _ names) as [m|].
      * destruct IH as (Hm & Hacc & Hall). split; [|split; [done|]].
        { destruct Hm as [?|(n' & Hin & Hn')]; [by left|right; exists n'; set_solver]. }
        intros n' id' [->|Hin]%elem_of_cons Hn'; [congruence|by eapply Hall].
      * destruct IH as [-> Hall]. split; [done|].
        intros n' [->|Hin]%elem_of_cons; [done|by apply Hall].
Qed.

Lemma elem_of_names (data : DataDir) name :
  name ∈ (map_to_list data).*1 <-> is_Some (data !! name).
Proof.
  rewrite list_elem_of_fmap. split.
  - intros ([n f] & -> & Hin%elem_of_map_to_list). by exists f.
  - intros [f Hf]. exists (name, f). by rewrite elem_of_map_to_list.
Qed.

Lemma find_latest_Some data m :
  find_latest_segment data = Some m <->
  (exists n, is_Some (data !! n) /\ segment_of_name n = Some m) /\
  (forall n id, is_Some (data !! n) -> segment_of_name n = Some id -> id <= m).
Proof.
  unfold find_latest_segment. pose proof (find_latest_fold (map_to_list data).*1 None) as Hf.
  destruct (foldl _ _ _) as [m'|]; setoid_rewrite elem_of_names in Hf; split.
  - intros [= ->]. destruct Hf as ([?|?] & _ & ?); done.
  - intros [(n & Hn & Hm) Hall]. destruct Hf as ([?|(n' & Hn' & Hm')] & _ & Hall'); [done|].
    f_equal. pose proof (Hall n' m' Hn' Hm'). pose proof (Hall' n m Hn Hm). lia.
  - done.
  - intros [(n & Hn & Hm) _]. destruct Hf as [_ Hf]. by rewrite Hf in Hm.
Qed.

Lemma find_latest_None data :
  find_latest_segment data = None ->
  forall n, is_Some (data !! n) -> segment_of_name n = None.
Proof.
  unfold find_latest_segment. pose proof (find_latest_fold (map_to_list data).*1 None) as Hf.
  destruct (foldl _ _ _) as [m'|]; setoid_rewrite elem_of_names in Hf; [done|].
  by destruct Hf as [_ Hf].
Qed.

Lemma dec_digits_le max l acc z : acc <= max -> dec_digits max l acc = Some z -> z <= max.
Proof.
  revert acc. induction l as [|b l IH]; intros acc Hacc; cbn [dec_digits].
  - by intros [= <-].
  - destruct (_ && _); [|done]. destruct (Z.ltb_spec max (acc * 10 + (byte_val b - 48))); [done|].
    by apply IH.
Qed.

Lemma dec_digits_nonneg max l acc z : 0 <= acc -> dec_digits max l acc = Some z -> 0 <= z.
Proof.
  revert acc. induction l as [|b l IH]; intros acc Hacc; cbn [dec_digits].
  - by intros [= <-].
  - destruct (Z.leb_spec 48 (byte_val b)); [|done]. simpl. destruct (_ <=? _); [|done].
    destruct (_ <? _); [done|]. apply IH. lia.
Qed.

Lemma segment_of_name_range n id : segment_of_name n = Some id -> 0 <= id < 65536.
Proof.
  unfold segment_of_name. intros (stem & _ & Hp)%bind_Some.
  assert (forall l, dec_digits 65535 l 0 = Some id -> 0 <= id < 65536) as Hd.
  { intros l Hl. pose proof (dec_digits_le 65535 l 0 id ltac:(lia) Hl).
    pose proof (dec_digits_nonneg 65535 l 0 id ltac:(lia) Hl). lia. }
  unfold parse_uint in Hp. destruct stem as [|b [|b' r]]; [done|by eapply Hd|].
  destruct (decide _); by eapply Hd.
Qed.

(** ** Reading as the files grow *)

(** Every file of [d] is a prefix of the file of the same name of [d']. *)
Definition grows (d d' : DataDir) : Prop :=
  forall n f, d !! n = Some f -> exists t, d' !! n = Some (f ++ t).

Lemma grows_refl d : grows d d.
Proof. intros n f Hf. exists []. by rewrite app_nil_r. Qed.

Lemma grows_trans d1 d2 d3 : grows d1 d2 -> grows d2 d3 -> grows d1 d3.
Proof.
  intros H1 H2 n f Hf. apply H1 in Hf as [t Ht]. apply H2 in Ht as [t' Ht'].
  exists (t ++ t'). by rewrite app_assoc.
Qed.

Lemma grows_append name bytes d : grows d (append_file name bytes d).
Proof.
  intros n f Hf. unfold append_file. destruct (decide (n = name)) as [->|].
  - exists bytes. by rewrite lookup_alter_eq, Hf.
  - exists []. by rewrite lookup_alter_ne, app_nil_r.
Qed.

Lemma grows_create name f d : d !! name = None -> grows d (<[name := f]> d).
Proof.
  intros Hn n f' Hf. exists []. rewrite app_nil_r.
  rewrite lookup_insert_ne; [done|]. congruence.
Qed.

Lemma slice_app off len l t :
  0 <= off -> 0 <= len -> off + len <= lenZ l -> slice off len (l ++ t) = slice off len l.
Proof.
  intros Ho Hl Hlen. unfold slice, lenZ in *.
  rewrite drop_app_le by lia. rewrite take_app_le; [done|]. rewrite length_drop. lia.
Qed.

Lemma read_at_grows d d' name off len b :
  grows d d' -> 0 <= off -> 0 <= len -> read_at name off len d = Ok b ->
  read_at name off len d' = Ok b.
Proof.
  intros Hg Ho Hl. unfold read_at. destruct (d !! name) as [f|] eqn:Hf; [|done].
  destruct (Hg _ _ Hf) as [t ->]. destruct (Z.eqb_spec len 0) as [->|]; simpl.
  - intros [= <-]. done.
  - destruct (Z.leb_spec (off + len) (lenZ f)); [|done]. intros [= <-].
    pose proof (lenZ_nonneg t). rewrite lenZ_app.
    destruct (Z.leb_spec (off + len) (lenZ f + lenZ t)); [|lia]. by rewrite slice_app.
Qed.

Lemma append_append name a b d :
  append_file name b (append_file name a d) = append_file name (a ++ b) d.
Proof.
  unfold append_file. apply map_eq. intros n. destruct (decide (n = name)) as [->|].
  - rewrite !lookup_alter_eq. destruct (d !! name); simpl; [by rewrite app_assoc|done].
  - by rewrite !lookup_alter_ne.
Qed.

Lemma append_nil name d : append_file name [] d = d.
Proof.
  unfold append_file. apply map_eq. intros n. destruct (decide (n = name)) as [->|].
  - rewrite lookup_alter_eq. destruct (d !! name); simpl; [by rewrite app_nil_r|done].
  - by rewrite lookup_alter_ne.
Qed.

(** ** The invariant of an open store *)

Section invariant.
Context `{Blake3, !MmapLib, !MmapLaws}.

(** The files as they will be when the buffer is written out. *)
Definition disk_view (s : CasStore) : DataDir := append_file (cs_file s) (cs_buf s) (cs_data s).

Definition read_entry (d : DataDir) (e : IndexEntry) : Result (list byte) :=
  read_at (segment_path_for (segment_id e)) (offset e) (record_len e) d.

(** The object an index entry locates. *)
Definition entry_object (d : DataDir) (e : IndexEntry) : option Object :=
  match read_entry d e with
  | Ok b =>
      match decode_record b with
      | Ok r => Some (record_type r, payload r)
      | _ => None
      end
  | _ => None
  end.

Definition store_objects (s : CasStore) : gmap Hash Object :=
  omap (entry_object (disk_view s)) (idx_entries (cs_index s)).

(** The entry of [h] locates the record of an object whose payload hashes to [h]. *)
Definition entry_ok (seg : Z) (d : DataDir) (h : Hash) (e : IndexEntry) : Prop :=
  IndexOps.entry_fits e /\ segment_id e <= seg /\
  exists ty p, lenZ p < 2 ^ 32 /\ h = of_bytes p /\ read_entry d e = Ok (encode_record ty p h).

Record store_ok (s : CasStore) : Prop := {
  ok_index : IndexOps.index_ok (cs_index s);
  ok_entries : forall h e, idx_entries (cs_index s) !! h = Some e ->
    entry_ok (cs_segment s) (disk_view s) h e;
  ok_segment : 0 <= cs_segment s < 65536;
  ok_file : cs_file s = segment_path_for (cs_segment s);
  ok_current : exists f, cs_data s !! cs_file s = Some f /\ take 4 f = SEGMENT_MAGIC /\
    SEGMENT_HEADER_LEN <= lenZ f /\ cs_offset s = lenZ f + lenZ (cs_buf s);
  ok_latest : find_latest_segment (cs_data s) = Some (cs_segment s);
  ok_cache : Lru.lru_ok (cs_cache s) /\
    forall h o, Lru.get h (cs_cache s) = Some o -> store_objects s !! h = Some o;
  ok_maps : forall id m, cs_maps s !! id = Some m ->
    exists t, cs_data s !! segment_path_for id = Some (m ++ t)
}.

Lemma entry_object_ok seg d h e :
  entry_ok seg d h e -> exists ty p, h = of_bytes p /\ lenZ p < 2 ^ 32 /\
    entry_object d e = Some (ty, p) /\ read_entry d e = Ok (encode_record ty p h).
Proof.
  intros (_ & _ & ty & p & Hp & -> & Hr). exists ty, p. unfold entry_object. rewrite Hr.
  by rewrite decode_encode_record.
Qed.

Lemma read_entry_grows d d' e b :
  IndexOps.entry_fits e -> grows d d' -> read_entry d e = Ok b -> read_entry d' e = Ok b.
Proof. intros (_ & [? _] & [? _]) Hg. by apply read_at_grows. Qed.

Lemma entry_ok_grows seg seg' d d' h e :
  seg <= seg' -> grows d d' -> entry_ok seg d h e -> entry_ok seg' d' h e.
Proof.
  intros Hseg Hg (Hf & Hs & ty & p & Hp & Hh & Hr). split; [done|]. split; [lia|].
  exists ty, p. split; [done|]. split; [done|]. by apply (read_entry_grows d d').
Qed.

Lemma entry_object_grows seg d d' h e :
  grows d d' -> entry_ok seg d h e -> entry_object d' e = entry_object d e.
Proof.
  intros Hg (Hf & _ & ty & p & _ & _ & Hr). unfold entry_object.
  by rewrite Hr, (read_entry_grows d d' e _ Hf Hg Hr).
Qed.

(** The objects do not change as the files grow. *)
Lemma objects_grow s d' :
  store_ok s -> grows (disk_view s) d' ->
  omap (entry_object d') (idx_entries (cs_index s)) = store_objects s.
Proof.
  intros Hok Hg. apply map_eq. intros h. unfold store_objects. rewrite !lookup_omap.
  destruct (idx_entries (cs_index s) !! h) as [e|] eqn:He; [|done]. simpl.
  eapply entry_object_grows; [done|]. by apply Hok.
Qed.

Lemma objects_Some s h o :
  store_objects s !! h = Some o <->
  exists e, idx_entries (cs_index s) !! h = Some e /\ entry_object (disk_view s) e = Some o.
Proof. unfold store_objects. rewrite lookup_omap. apply bind_Some. Qed.

Lemma objects_contains s h :
  store_ok s -> is_Some (store_objects s !! h) <-> is_Some (idx_entries (cs_index s) !! h).
Proof.
  intros Hok. split.
  - intros [o (e & He & _)%objects_Some]. by exists e.
  - intros [e He]. destruct (entry_object_ok _ _ _ _ (ok_entries _ Hok _ _ He))
      as (ty & p & _ & _ & Ho & _).
    exists (ty, p). apply objects_Some. by exists e.
Qed.

Lemma objects_hash s h ty p :
  store_ok s -> store_objects s !! h = Some (ty, p) -> h = of_bytes p.
Proof.
  intros Hok (e & He & Ho)%objects_Some.
  destruct (entry_object_ok _ _ _ _ (ok_entries _ Hok _ _ He)) as (ty' & p' & Hh & _ & Ho' & _).
  congruence.
Qed.

(** ** Flushing *)

Lemma disk_view_flush s : disk_view (Store.flush_buf s) = disk_view s.
Proof. unfold disk_view, Store.flush_buf. simpl. by rewrite append_nil. Qed.

(** Stores that differ only in where the buffered bytes are, and in what is cached. *)
Definition same_view (s s' : CasStore) : Prop :=
  cs_index s' = cs_index s /\ disk_view s' = disk_view s /\ cs_segment s' = cs_segment s /\
  cs_file s' = cs_file s /\ cs_offset s' = cs_offset s.

Lemma same_view_objects s s' : same_view s s' -> store_objects s' = store_objects s.
Proof. intros (Hi & Hv & _). unfold store_objects. by rewrite Hi, Hv. Qed.

Lemma lookup_append d name bytes f :
  d !! name = Some f -> append_file name bytes d !! name = Some (f ++ bytes).
Proof. intros Hf. unfold append_file. by rewrite lookup_alter_eq, Hf. Qed.

Lemma append_file_dom d name bytes n :
  is_Some (append_file name bytes d !! n) <-> is_Some (d !! n).
Proof. unfold append_file. apply lookup_alter_is_Some. Qed.

Lemma find_latest_dom d d' m :
  (forall n, is_Some (d' !! n) <-> is_Some (d !! n)) ->
  find_latest_segment d = Some m -> find_latest_segment d' = Some m.
Proof. intros Hdom. rewrite !find_latest_Some. by setoid_rewrite Hdom. Qed.

(** Writing bytes of the buffer out. *)
Lemma flush_buf_ok s : store_ok s -> store_ok (Store.flush_buf s) /\ same_view s (Store.flush_buf s).
Proof.
  intros Hok. assert (same_view s (Store.flush_buf s)) as Hsame
    by (unfold same_view; by rewrite disk_view_flush).
  split; [|done]. destruct Hok as [Hidx Hent Hseg Hfile (f & Hf & Hmag & Hlen & Hoff) Hlat Hca Hmaps].
  constructor; try done.
  - by rewrite disk_view_flush.
  - exists (f ++ cs_buf s). simpl. split; [by apply lookup_append|].
    unfold SEGMENT_HEADER_LEN, lenZ in *. rewrite take_app_le by lia. split; [done|].
    rewrite length_app. simpl. lia.
  - eapply find_latest_dom; [|exact Hlat]. intros n. apply append_file_dom.
  - split; [apply Hca|]. intros h o Ho. rewrite (same_view_objects _ _ Hsame). by apply Hca.
  - intros id m Hm. destruct (Hmaps id m Hm) as [t Ht].
    destruct (grows_append (cs_file s) (cs_buf s) _ _ _ Ht) as [t' Ht'].
    exists (t ++ t'). simpl. by rewrite app_assoc.
Qed.

Lemma set_maps_ok s maps :
  store_ok s -> (forall id m, maps !! id = Some m -> cs_maps s !! id = Some m \/
    exists t, cs_data s !! segment_path_for id = Some (m ++ t)) ->
  store_ok (Store.set_maps maps s).
Proof.
  intros [] Hm. constructor; try done. intros id m Hl. destruct (Hm id m Hl); [|done].
  by apply ok_maps0.
Qed.

Lemma flush_ok s :
  store_ok s -> exists s', Store.flush s = (Ok tt, s') /\ store_ok s' /\ same_view s s' /\
    cs_buf s' = [] /\ cs_data s' = disk_view s /\ cs_clock s' = cs_clock s.
Proof.
  intros Hok. destruct (flush_buf_ok s Hok) as [Hok' Hsame]. unfold Store.flush.
  destruct (cs_dirty (Store.flush_buf s)) eqn:Hd; [|by eexists].
  eexists. split; [done|]. split; [|done].
  apply set_maps_ok.
  - destruct Hok'. by constructor.
  - intros id m Hm. left. by apply lookup_delete_Some in Hm as [_ Hm].
Qed.

(** ** A new segment *)

Lemma length_segment_header id clock : lenZ (encode_segment_header id clock) = SEGMENT_HEADER_LEN.
Proof. done. Qed.

Lemma take_segment_header id clock : take 4 (encode_segment_header id clock) = SEGMENT_MAGIC.
Proof. done. Qed.

Lemma latest_bound data m id :
  find_latest_segment data = Some m -> m < id < 65536 -> 0 <= m ->
  data !! segment_path_for id = None.
Proof.
  intros [_ Hall]%find_latest_Some Hid Hm.
  destruct (data !! segment_path_for id) as [f|] eqn:Hf; [|done].
  enough (id <= m) by lia. apply (Hall (segment_path_for id)); [by eexists|].
  apply segment_of_path. lia.
Qed.

(** The one error of a write: the segment ids, 16 bits wide, are used up. *)
Definition store_full (s : CasStore) (e : EpochsError) : Prop :=
  e = Storage (Corrupt "segment id overflow") /\ cs_segment s = 65535.

Lemma next_segment_ok s :
  store_ok s -> cs_buf s = [] ->
  match Store.next_segment s with
  | (Ok _, s') => store_ok s' /\ store_objects s' = store_objects s /\
      cs_index s' = cs_index s /\ cs_offset s' = SEGMENT_HEADER_LEN
  | (Err e, s') => s' = s /\ store_full s e
  | _ => False
  end.
Proof.
  intros Hok Hbuf. unfold Store.next_segment. pose proof (ok_segment _ Hok) as Hseg.
  destruct (Z.ltb_spec 65535 (cs_segment s + 1)) as [|Hid];
    [split; [done|]; split; [done|lia]|]. cbn [cs_data cs_clock]. pose proof (ok_latest _ Hok) as Hlat.
  pose proof (latest_bound _ _ (cs_segment s + 1) Hlat ltac:(lia) ltac:(lia)) as Hnew.
  unfold open_or_create_segment. rewrite Hnew. cbn [cs_index cs_dirty cs_cache cs_maps cs_mmap_cap].
  set (path := segment_path_for (cs_segment s + 1)) in *.
  set (data := <[path := encode_segment_header (cs_segment s + 1) (cs_clock s)]> (cs_data s)).
  assert (disk_view s = cs_data s) as Hview by (unfold disk_view; by rewrite Hbuf, append_nil).
  assert (grows (disk_view s) (append_file path [] data)) as Hg.
  { rewrite Hview, append_nil. by apply grows_create. }
  pose proof (objects_grow s _ Hok Hg) as Hobj.
  set (s' := mk_CasStore _ _ _ _ _ _ _ _ _ _ _).
  assert (store_objects s' = store_objects s) as Hobj' by done.
  split; [|done]. constructor; try done.
  - apply Hok.
  - intros h e He. eapply entry_ok_grows; [|exact Hg|by apply (ok_entries _ Hok)]. simpl. lia.
  - simpl. lia.
  - exists (encode_segment_header (cs_segment s + 1) (cs_clock s)).
    simpl. unfold data. rewrite lookup_insert_eq. done.
  - apply find_latest_Some. simpl. unfold data. split.
    + exists path. rewrite lookup_insert_eq. split; [done|]. by apply segment_of_path; lia.
    + intros n id Hn Hname. destruct (decide (n = path)) as [->|].
      * unfold path in Hname. rewrite segment_of_path in Hname by lia.
        injection Hname as <-. lia.
      * rewrite lookup_insert_ne in Hn by done.
        apply find_latest_Some in Hlat as [_ Hall]. specialize (Hall n id Hn Hname). lia.
  - split; [apply Hok|]. intros h o Ho. rewrite Hobj'. by apply Hok.
  - intros id m Hm. destruct (ok_maps _ Hok id m Hm) as [t Ht]. exists t. simpl. unfold data.
    rewrite lookup_insert_ne; [done|]. congruence.
Qed.

(** After the capacity check the record goes to a 48-bit offset. *)
Lemma ensure_capacity_ok s needed :
  store_ok s -> 0 <= needed ->
  let '(r, s') := Store.ensure_segment_capacity needed s in
  store_ok s' /\ store_objects s' = store_objects s /\ cs_index s' = cs_index s /\
  match r with
  | Ok _ => 0 <= cs_offset s' < 2 ^ 48
  | Err e => store_full s' e /\ cs_segment s = 65535 /\ SEGMENT_MAX_BYTES < cs_offset s + needed
  | _ => False
  end.
Proof.
  intros Hok Hn. unfold Store.ensure_segment_capacity.
  destruct (Z.ltb_spec SEGMENT_MAX_BYTES (cs_offset s + needed)) as [|Hle].
  - destruct (flush_ok s Hok) as (s1 & Hfl & Hok1 & Hsame & Hbuf & _).
    unfold Store.rotate_segment. rewrite (stM_bind_Ok _ _ _ _ _ Hfl).
    pose proof (next_segment_ok s1 Hok1 Hbuf) as Hnext.
    pose proof (same_view_objects _ _ Hsame) as Hobj. destruct Hsame as (Hidx & _ & Hseg & _).
    destruct (Store.next_segment s1) as [[] s2];
      [|destruct Hnext as [-> [-> Hfull]]; by rewrite <- Hseg|done..].
    destruct Hnext as (Hok2 & Hobj2 & Hidx2 & Hoff). rewrite Hobj2, Hidx2, Hobj, Hidx, Hoff.
    done.
  - split; [done|]. split; [done|]. split; [done|].
    destruct (ok_current _ Hok) as (f & _ & _ & Hlen & Hoff).
    pose proof (lenZ_nonneg (cs_buf s)). unfold SEGMENT_MAX_BYTES, SEGMENT_HEADER_LEN in *. lia.
Qed.

(** ** Writing a record *)

Lemma write_all_eq bytes s :
  exists data buf, Store.write_all bytes s = Store.set_file data buf s /\
    append_file (cs_file s) buf data = append_file (cs_file s) bytes (disk_view s) /\
    exists t, data = append_file (cs_file s) t (cs_data s).
Proof.
  unfold Store.write_all, disk_view. rewrite append_append. cbv zeta.
  destruct (Z.ltb_spec (lenZ bytes) (SEGMENT_BUF_BYTES - lenZ (cs_buf s))) as [|Hfull].
  { exists (cs_data s), (cs_buf s ++ bytes). split; [done|]. split; [done|].
    exists []. by rewrite append_nil. }
  destruct (Z.ltb_spec (SEGMENT_BUF_BYTES - lenZ (cs_buf s)) (lenZ bytes)) as [|Hspare];
    destruct (Z.leb_spec SEGMENT_BUF_BYTES (lenZ bytes)) as [Hbig|]; simpl.
  - eexists _, _. split; [done|]. rewrite !append_append. split; [by rewrite app_nil_r|].
    by eexists.
  - eexists _, _. split; [done|]. rewrite !append_append. split; [done|by eexists].
  - assert (cs_buf s = []) as Hb.
    { destruct (cs_buf s); [done|]. unfold lenZ in *. cbn [length] in *. lia. }
    rewrite Hb. eexists _, _. split; [done|]. rewrite !append_append.
    split; [by rewrite app_nil_r|by eexists].
  - exists (cs_data s), (cs_buf s ++ bytes). split; [done|]. split; [done|].
    exists []. by rewrite append_nil.
Qed.

Lemma slice_mid (a b c : list byte) : slice (lenZ a) (lenZ b) (a ++ b ++ c) = b.
Proof. unfold slice, lenZ. rewrite !Nat2Z.id, drop_app_length, take_app_length. done. Qed.

Lemma put_record_ok s ty p :
  store_ok s -> idx_entries (cs_index s) !! of_bytes p = None ->
  lenZ p < PAYLOAD_LIMIT -> 0 <= cs_offset s < 2 ^ 48 ->
  exists s', Store.put_record ty p (of_bytes p) s = (Ok (of_bytes p), s') /\ store_ok s' /\
    store_objects s' = <[of_bytes p := (ty, p)]> (store_objects s).
Proof.
  intros Hok Hnone Hp Hoff. unfold Store.put_record. eexists. split; [done|].
  set (h := of_bytes p) in *. set (bytes := encode_record ty p h).
  assert (lenZ bytes = 45 + lenZ p) as Hlen by apply encode_record_length.
  pose proof (lenZ_nonneg p) as Hp0. unfold PAYLOAD_LIMIT in Hp.
  rewrite (Z.mod_small (lenZ bytes)) by lia.
  destruct (write_all_eq bytes s) as (data & buf & -> & Hview & t & Hdata).
  unfold Store.set_file, Store.set_cache. cbv zeta.
  cbn [cs_data cs_index cs_segment cs_file cs_buf cs_offset cs_dirty
       cs_cache cs_maps cs_mmap_cap cs_clock].
  set (e := mk_IndexEntry (cs_segment s) (cs_offset s) (lenZ bytes)).
  set (s' := mk_CasStore _ _ _ _ _ _ _ _ _ _ _).
  assert (disk_view s' = append_file (cs_file s) bytes (disk_view s)) as Hview' by exact Hview.
  assert (grows (disk_view s) (disk_view s')) as Hg by (rewrite Hview'; apply grows_append).
  destruct (ok_current _ Hok) as (f & Hf & Hmag & Hlf & Hcur).
  assert (IndexOps.entry_fits e) as Hfit.
  { pose proof (ok_segment _ Hok). unfold IndexOps.entry_fits, e. simpl. lia. }
  assert (disk_view s' !! cs_file s = Some ((f ++ cs_buf s) ++ bytes)) as Hdv.
  { rewrite Hview'. unfold disk_view. by do 2 apply lookup_append. }
  assert (read_entry (disk_view s') e = Ok bytes) as Hr.
  { unfold read_entry, read_at, e. cbn [segment_id offset record_len].
    rewrite <- (ok_file _ Hok), Hdv, lenZ_app, lenZ_app, Hcur.
    destruct (Z.leb_spec (lenZ f + lenZ (cs_buf s) + lenZ bytes)
      (lenZ f + lenZ (cs_buf s) + lenZ bytes)); [|lia].
    rewrite <- lenZ_app. rewrite <- (app_nil_r bytes) at 3.
    by rewrite slice_mid; destruct (_ =? _). }
  assert (entry_ok (cs_segment s) (disk_view s') h e) as He.
  { split; [done|]. split; [simpl; lia|]. exists ty, p. split; [lia|]. done. }
  assert (idx_entries (cs_index s') = <[h := e]> (idx_entries (cs_index s))) as Hidx.
  { change (cs_index s') with (IndexOps.insert h e (cs_index s)).
    rewrite IndexOps.index_insert_entries. by rewrite Hnone. }
  assert (store_objects s' = <[h := (ty, p)]> (store_objects s)) as Hobj.
  { unfold store_objects at 1. rewrite Hidx.
    rewrite (omap_insert_Some _ _ _ _ (ty, p)); [f_equal; by apply objects_grow|].
    unfold entry_object. rewrite Hr. unfold bytes, h. by rewrite decode_encode_record by lia. }
  assert (store_objects s !! h = None) as Hnew.
  { apply eq_None_not_Some. rewrite objects_contains by done. rewrite Hnone. by intros []. }
  split; [|done]. constructor; try done.
  - apply IndexOps.index_insert_ok; [done|apply Hok].
  - intros h' e' Hh'. rewrite Hidx in Hh'.
    destruct (decide (h' = h)) as [->|].
    + rewrite lookup_insert_eq in Hh'. by injection Hh' as <-.
    + rewrite lookup_insert_ne in Hh' by done.
      eapply entry_ok_grows; [|exact Hg|by apply (ok_entries _ Hok)]. done.
  - apply Hok.
  - apply Hok.
  - exists (f ++ t). simpl. rewrite Hdata.
    split; [by apply lookup_append|].
    unfold disk_view in Hdv. simpl in Hdv. rewrite Hdata in Hdv.
    rewrite (lookup_append _ _ _ (f ++ t)) in Hdv by by apply lookup_append.
    injection Hdv as Hdv. apply (f_equal lenZ) in Hdv. rewrite !lenZ_app in *.
    pose proof (lenZ_nonneg t). unfold SEGMENT_HEADER_LEN, lenZ in *.
    rewrite take_app_le by lia. split; [done|]. lia.
  - eapply find_latest_dom; [|apply Hok]. intros n. simpl. rewrite Hdata. apply append_file_dom.
  - destruct (ok_cache _ Hok) as [Hlru Hc]. split; [by apply Lru.lru_insert_ok|].
    intros h' o Ho. rewrite Hobj. simpl in Ho.
    apply Lru.lru_insert_inv in Ho as [[-> ->]|Ho]; [by rewrite lookup_insert_eq| |done].
    apply Hc in Ho. rewrite lookup_insert_ne; [done|]. congruence.
  - intros id m Hm. destruct (ok_maps _ Hok id m Hm) as [t' Ht'].
    destruct (grows_append (cs_file s) t _ _ _ Ht') as [t'' Ht''].
    exists (t' ++ t''). simpl. rewrite Hdata, app_assoc. done.
Qed.

Lemma put_ok s ty p :
  store_ok s -> lenZ p < PAYLOAD_LIMIT ->
  let '(r, s') := Store.put ty p s in
  store_ok s' /\
  ((r = Ok (of_bytes p) /\ store_objects s' = put_object ty p (store_objects s)) \/
   ((exists e, r = Err e /\ store_full s' e /\ cs_segment s = 65535 /\
       Store.contains (of_bytes p) s = false /\ SEGMENT_MAX_BYTES < cs_offset s + (45 + lenZ p)) /\
    store_objects s' = store_objects s)).
Proof.
  intros Hok Hp. unfold Store.put, Store.contains, IndexOps.contains, put_object.
  case_bool_decide as Hc.
  - split; [done|]. left. split; [done|].
    apply objects_contains in Hc as [o Ho]; [|done]. by rewrite Ho.
  - rewrite stM_bind_eq. pose proof (lenZ_nonneg p).
    pose proof (ensure_capacity_ok s (41 + lenZ p + 4) Hok ltac:(lia)) as Hcap.
    destruct (Store.ensure_segment_capacity _ s) as [r s1].
    destruct Hcap as (Hok1 & Hobj1 & Hidx1 & Hr). destruct r as [u|e| |]; try done.
    + destruct (put_record_ok s1 ty p) as (s2 & Hput & Hok2 & Hobj2); [done| |done..|].
      { rewrite Hidx1. by apply eq_None_not_Some. }
      rewrite Hput. split; [done|]. left. split; [done|]. rewrite Hobj2, Hobj1.
      destruct (store_objects s !! of_bytes p) eqn:Ho; [|done].
      destruct Hc. apply objects_contains; [done|]. by eexists.
    + destruct Hr as (? & ? & ?). split; [done|]. right. split; [|done].
      exists e. split_and!; try done. lia.
Qed.

(** ** Reading *)

Lemma drop_oldest_sub fuel n maps id m :
  drop_oldest fuel n maps !! id = Some m -> maps !! id = Some m.
Proof.
  revert maps. induction fuel as [|fuel IH]; intros maps; [done|]. cbn [drop_oldest].
  destruct (_ <? _); [|done]. destruct (min_key maps) as [k|]; [|done].
  intros Hm%IH. by apply lookup_delete_Some in Hm as [_ Hm].
Qed.

Lemma ensure_mmap_ok s id :
  store_ok s ->
  let '(r, s') := Store.ensure_mmap id s in
  store_ok s' /\ same_view s s' /\ cs_data s' = cs_data s /\ cs_cache s' = cs_cache s /\
  match r with
  | Ok m => exists t, cs_data s !! segment_path_for id = Some (m ++ t)
  | _ => True
  end.
Proof.
  intros Hok. unfold Store.ensure_mmap. destruct (_ =? _); [done|].
  destruct (cs_maps s !! id) as [m|] eqn:Hm.
  { split; [done|]. split; [done|]. split; [done|]. split; [done|]. by apply Hok in Hm. }
  destruct (cs_data s !! segment_path_for id) as [f|] eqn:Hf; [|done].
  destruct (mmap_map f) as [e|m] eqn:Hmap; [done|]. apply mmap_shows in Hmap as ->.
  split; [|split; [done|]; split; [done|]; split; [done|]].
  - apply set_maps_ok; [done|]. intros id' m' Hm'.
    destruct (decide (id' = id)) as [->|].
    + rewrite lookup_insert_eq in Hm'. injection Hm' as <-. right. exists [].
      by rewrite app_nil_r.
    + rewrite lookup_insert_ne in Hm' by done. left. by eapply drop_oldest_sub.
  - rewrite lookup_insert_eq. simpl. exists []. by rewrite app_nil_r.
Qed.

Lemma read_record_bytes_ok s h e :
  store_ok s -> idx_entries (cs_index s) !! h = Some e ->
  exists b s', Store.read_record_bytes e s = (Ok b, s') /\ read_entry (disk_view s) e = Ok b /\
    store_ok s' /\ same_view s s' /\ cs_cache s' = cs_cache s.
Proof.
  intros Hok He. pose proof (ok_entries _ Hok _ _ He) as (Hfit & Hseg & ty & p & Hp & Hh & Hr).
  set (b := encode_record ty p h) in *. unfold Store.read_record_bytes.
  destruct (Z.eqb_spec (segment_id e) (cs_segment s)) as [Hcur|Hcur].
  - destruct (flush_buf_ok s Hok) as [Hok' Hsame].
    exists b, (Store.flush_buf s).
    rewrite (proj2 (Z.eqb_eq (segment_id e) (cs_segment (Store.flush_buf s))) Hcur).
    cbn [negb]. rewrite andb_false_r. unfold read_entry in Hr. simpl.
    split; [by rewrite <- Hr|]. done.
  - assert (cs_data s !! segment_path_for (segment_id e) =
            disk_view s !! segment_path_for (segment_id e)) as Hsealed.
    { unfold disk_view, append_file. rewrite lookup_alter_ne; [done|].
      rewrite (ok_file _ Hok). intros E%segment_path_inj; [done|apply Hok|apply Hfit]. }
    assert (read_entry (cs_data s) e = Ok b) as Hr'
      by (rewrite <- Hr; unfold read_entry, read_at; by rewrite Hsealed).
    rewrite (proj2 (Z.eqb_neq (segment_id e) (cs_segment s)) Hcur).
    cbn [negb]. rewrite andb_true_r. destruct (0 <? cs_mmap_cap s).
    + pose proof (ensure_mmap_ok s (segment_id e) Hok) as Hmap.
      destruct (Store.ensure_mmap (segment_id e) s) as [r s1].
      destruct Hmap as (Hok1 & Hsame & Hdata & Hcache & Hm).
      assert (forall m, r = Ok m -> offset e + record_len e <= lenZ m ->
        slice (offset e) (record_len e) m = b) as Hslice.
      { intros m -> Hle. destruct Hm as [t Ht]. unfold read_entry, read_at in Hr'.
        rewrite Ht in Hr'. destruct Hfit as (_ & [? _] & [? _]).
        rewrite slice_app in Hr' by done. rewrite lenZ_app in Hr'.
        pose proof (lenZ_nonneg t).
        destruct (Z.leb_spec (offset e + record_len e) (lenZ m + lenZ t)); [|lia].
        rewrite orb_true_r in Hr'. by injection Hr'. }
      exists b, s1. split; [|done]. unfold read_entry in Hr'. rewrite Hdata.
      destruct r as [m| | |]; rewrite ?Hr'; try done.
      destruct (Z.leb_spec (offset e + record_len e) (lenZ m)); [|done]. by rewrite Hslice.
    + exists b, s. unfold read_entry in Hr'. by rewrite Hr'.
Qed.

Lemma get_payload_ok s h :
  store_ok s ->
  let '(r, s') := Store.get_payload h s in
  store_ok s' /\ same_view s s' /\
  r = ok_or (Storage (NotFound h)) (store_objects s !! h).
Proof.
  intros Hok. unfold Store.get_payload.
  destruct (Lru.get h (cs_cache s)) as [o|] eqn:Hc.
  { split; [done|]. split; [done|]. apply (ok_cache _ Hok) in Hc. by rewrite Hc. }
  unfold IndexOps.get. destruct (idx_entries (cs_index s) !! h) as [e|] eqn:He.
  - destruct (read_record_bytes_ok s h e Hok He) as (b & s1 & Hrun & Hr & Hok1 & Hsame & Hcache).
    destruct (entry_object_ok _ _ _ _ (ok_entries _ Hok _ _ He)) as (ty & p & Hh & Hp & Ho & Hr').
    rewrite Hr in Hr'. injection Hr' as ->.
    rewrite (stM_bind_Ok _ _ _ _ _ Hrun). rewrite stM_bind_eq. unfold lift.
    subst h. rewrite decode_encode_record by done. cbn.
    assert (store_objects s !! of_bytes p = Some (ty, p)) as Hobj by (apply objects_Some; by exists e).
    split; [|split; [done|by rewrite Hobj]].
    destruct Hok1. constructor; try done. simpl. destruct ok_cache0 as [Hlru Hin].
    split; [by apply Lru.lru_insert_ok|]. intros h' o [[-> ->]|Ho']%Lru.lru_insert_inv; [|by apply Hin|done].
    pose proof (same_view_objects _ _ Hsame) as Hsv.
    change (store_objects s1 !! of_bytes p = Some (ty, p)). by rewrite Hsv.
  - split; [done|]. split; [done|].
    assert (store_objects s !! h = None) as ->; [|done].
    apply eq_None_not_Some. rewrite objects_contains by done. rewrite He. by intros [].
Qed.

(** ** Opening *)

Lemma open_ok s clock :
  store_ok s -> cs_buf s = [] ->
  exists s', Store.open (cs_data s) (idx_file (cs_index s)) clock = Ok s' /\ store_ok s' /\
    store_objects s' = store_objects s /\ cs_buf s' = [].
Proof.
  intros Hok Hbuf. unfold Store.open. rewrite (IndexOps.index_open _ (ok_index _ Hok)).
  rewrite (ok_latest _ Hok). simpl. destruct (ok_current _ Hok) as (f & Hf & Hmag & Hlen & Hoff).
  unfold open_or_create_segment. rewrite <- (ok_file _ Hok), Hf.
  destruct (Z.ltb_spec (lenZ f) SEGMENT_HEADER_LEN); [lia|].
  rewrite decide_False by auto. eexists. split; [done|].
  set (s' := mk_CasStore _ _ _ _ _ _ _ _ _ _ _).
  assert (disk_view s' = disk_view s) as Hview by (unfold disk_view; by rewrite Hbuf).
  assert (store_objects s' = store_objects s) as Hobj
    by (unfold store_objects; by rewrite Hview).
  split; [|done]. destruct Hok. constructor; try done.
  - simpl. by rewrite Hview.
  - exists f. simpl. split; [done|]. split; [done|]. split; [done|]. unfold lenZ; simpl; lia.
  - split; [apply Lru.lru_new_ok|]. intros h o. unfold Lru.get, Lru.new. simpl.
    by rewrite lookup_empty.
Qed.

Lemma open_new_ok clock :
  exists s, Store.open ∅ [] clock = Ok s /\ store_ok s /\ store_objects s = ∅ /\ cs_buf s = [].
Proof.
  eexists. split; [done|]. split; [|done]. constructor; simpl; try done.
  - apply IndexOps.index_empty_ok.
  - eexists. split; [done|]. done.
  - split; [apply Lru.lru_new_ok|]. intros h o. unfold Lru.get, Lru.new. simpl.
    by rewrite lookup_empty.
Qed.

End invariant.

#[global] Program Instance CasStore_laws `{Blake3, !MmapLib, !MmapLaws} : CasLaws CasStore := {
  cas_objects := store_objects;
  cas_inv := store_ok;
  cas_fault := store_full
}.
Next Obligation.
  intros ? ? ? s ty p r s' Hok Hp Hput. pose proof (put_ok s ty p Hok Hp) as Hs.
  change (cas_put ty p s) with (Store.put ty p s) in Hput. rewrite Hput in Hs. naive_solver.
Qed.
Next Obligation.
  intros ? ? ? s h r s' Hok Hget. pose proof (get_payload_ok s h Hok) as Hs.
  change (cas_get_record h s) with (Store.get_payload h s) in Hget. rewrite Hget in Hs.
  destruct Hs as (? & Hsame & ?). split; [done|]. split; [by apply same_view_objects|done].
Qed.
Next Obligation. intros ? ? ? s h ty p Hok. by apply objects_hash. Qed.
