(* ===== verification/CasStoreSpec.v ===== *)
(** * What the disk store guarantees, and what a crash can do to it *)

From Stdlib Require Import Strings.Byte.
From S2P Require Import Prelude Utf8 Hash Codec Record Cache Index Cas CasStore CasStoreProofs.

Lemma min_key_Some maps k :
  min_key maps = Some k -> is_Some (maps !! k) /\ forall j, is_Some (maps !! j) -> k <= j.
Proof.
  unfold min_key. intros Hf.
  assert (forall l acc, foldl (fun m k => Some (match m with None => k | Some m => Z.min m k end)) acc l
    = Some k -> (acc = Some k \/ k ∈ l) /\ (forall a, acc = Some a -> k <= a) /\
      (forall j, j ∈ l -> k <= j)) as Hg.
  { induction l as [|x l IH]; intros acc; cbn [foldl].
    - intros ->. split; [by left|]. split; [intros ? [= ->]; lia|by intros ? ?%not_elem_of_nil].
    - intros (Hk & Hacc & Hall)%IH. specialize (Hacc _ eq_refl). split; [|split].
      + destruct Hk as [[= Hk]|Hk]; [|right; by right]. destruct acc as [a|].
        * destruct (decide (a <= x)); [left; f_equal; lia|right].
          replace k with x by lia. by left.
        * right. subst. by left.
      + intros a ->. lia.
      + intros j [->|Hj]%elem_of_cons; [destruct acc; lia|by apply Hall]. }
  destruct (Hg _ _ Hf) as ([?|Hk] & _ & Hall); [done|].
  assert (forall j, j ∈ (map_to_list maps).*1 <-> is_Some (maps !! j)) as Hdom.
  { intros j. rewrite list_elem_of_fmap. split.
    - intros ([j' m] & -> & Hin%elem_of_map_to_list). by exists m.
    - intros [m Hm]. exists (j, m). by rewrite elem_of_map_to_list. }
  split; [by apply Hdom|]. intros j Hj. by apply Hall, Hdom.
Qed.

Lemma min_key_None maps : min_key maps = None -> maps = ∅.
Proof.
  unfold min_key. intros Hf.
  destruct (map_to_list maps) as [|[k m] l] eqn:Hl; [by apply map_to_list_empty_iff|].
  exfalso. rewrite fmap_cons in Hf. cbn [foldl] in Hf. revert Hf.
  generalize (l.*1). simpl. generalize k. clear. intros k ks. revert k.
  induction ks as [|x ks IH]; intros k; simpl; [done|apply IH].
Qed.

Lemma drop_oldest_size fuel n maps :
  (size maps <= fuel)%nat -> 0 <= n -> Z.of_nat (size (drop_oldest fuel n maps)) <= n.
Proof.
  intros Hf Hn. revert maps Hf. induction fuel as [|fuel IH]; intros maps Hf; cbn [drop_oldest].
  - lia.
  - destruct (Z.ltb_spec n (Z.of_nat (size maps))) as [Hlt|]; [|done].
    destruct (min_key maps) as [k|] eqn:Hk.
    + apply min_key_Some in Hk as [[m Hm] _]. apply IH.
      rewrite map_size_delete_Some by eauto. lia.
    + apply min_key_None in Hk as ->. rewrite map_size_empty in *. lia.
Qed.

Section spec.
Context `{Blake3, !MmapLib, !MmapLaws}.

(** A store as [open] leaves it. *)
Definition opened (data : DataDir) (index : Index) (seg off clock : Z) : CasStore :=
  mk_CasStore data index seg (segment_path_for seg) [] off false (Lru.new WRITE_CACHE_CAP) ∅
    MMAP_SEGMENTS_CAP clock.

(** The append of a record that fits the buffer and the segment. *)
Lemma put_small s ty p :
  cs_buf s = [] -> IndexOps.contains (of_bytes p) (cs_index s) = false ->
  45 + lenZ p < SEGMENT_BUF_BYTES -> cs_offset s + (45 + lenZ p) <= SEGMENT_MAX_BYTES ->
  exists s', Store.put ty p s = (Ok (of_bytes p), s') /\
    cs_data s' = cs_data s /\ cs_buf s' = encode_record ty p (of_bytes p) /\
    cs_index s' = IndexOps.insert (of_bytes p)
      (mk_IndexEntry (cs_segment s) (cs_offset s) (45 + lenZ p)) (cs_index s) /\
    cs_segment s' = cs_segment s /\ cs_file s' = cs_file s /\
    cs_cache s' = Lru.insert (of_bytes p) (ty, p) (cs_cache s).
Proof.
  intros Hbuf Hc Hsmall Hroom. pose proof (lenZ_nonneg p). unfold Store.put. rewrite Hc.
  rewrite stM_bind_eq. unfold Store.ensure_segment_capacity.
  destruct (Z.ltb_spec SEGMENT_MAX_BYTES (cs_offset s + (41 + lenZ p + 4))); [lia|].
  unfold Store.put_record, Store.write_all. rewrite encode_record_length, Hbuf.
  change (lenZ []) with 0. rewrite Z.sub_0_r. unfold SEGMENT_BUF_BYTES in *.
  rewrite Z.mod_small by lia.
  destruct (Z.ltb_spec (45 + lenZ p) (64 * 1024)); [|lia]. by eexists.
Qed.

Lemma read_current s e f b :
  cs_data s !! cs_file s = Some f -> cs_file s = segment_path_for (cs_segment s) ->
  segment_id e = cs_segment s -> offset e = lenZ f -> cs_buf s = b -> 0 < record_len e ->
  Store.read_record_bytes e s =
    ((if record_len e <=? lenZ b then Ok (take (Z.to_nat (record_len e)) b) else Err (Io eof_msg)),
     Store.flush_buf s).
Proof.
  intros Hf Hfile Hseg Hoff Hb Hlen. unfold Store.read_record_bytes. rewrite Hseg, Z.eqb_refl.
  change (cs_segment (Store.flush_buf s)) with (cs_segment s). rewrite Z.eqb_refl.
  cbn [negb]. rewrite andb_false_r. f_equal. unfold read_at.
  change (cs_data (Store.flush_buf s)) with (append_file (cs_file s) (cs_buf s) (cs_data s)).
  rewrite <- Hfile, (lookup_append _ _ _ _ Hf), Hb, Hoff, lenZ_app.
  destruct (Z.eqb_spec (record_len e) 0); [lia|]. simpl.
  destruct (Z.leb_spec (record_len e) (lenZ b)), (Z.leb_spec (lenZ f + record_len e) (lenZ f + lenZ b));
    try lia; [|done].
  f_equal. unfold slice, lenZ. by rewrite Nat2Z.id, drop_app_length.
Qed.

Lemma get_uncached s h e r s' :
  Lru.get h (cs_cache s) = None -> IndexOps.get h (cs_index s) = Some e ->
  Store.read_record_bytes e s = (r, s') ->
  (Store.get_payload h s).1 =
    (b ← r; rec ← decode_record b; Ok (record_type rec, payload rec)).
Proof.
  intros Hc Hi Hr. unfold Store.get_payload. rewrite Hc, Hi, stM_bind_eq, Hr.
  destruct r as [b| | |]; [|done..]. rewrite stM_bind_eq. unfold lift.
  cbn [mbind outcome_bind]. by destruct (decode_record b).
Qed.

(** The reopened store after a crash that lost the whole write buffer. *)
Lemma open_after_crash s s1 ty p f clock :
  store_ok s -> cs_buf s = [] -> cs_data s !! cs_file s = Some f ->
  Store.put ty p s = (Ok (of_bytes p), s1) -> cs_data s1 = cs_data s ->
  cs_index s1 = IndexOps.insert (of_bytes p)
    (mk_IndexEntry (cs_segment s) (cs_offset s) (45 + lenZ p)) (cs_index s) ->
  0 <= cs_offset s < 2 ^ 48 -> 45 + lenZ p < 2 ^ 32 ->
  Store.open (Store.crash s1).1 (Store.crash s1).2 clock =
    Ok (opened (cs_data s) (cs_index s1) (cs_segment s) (lenZ f) clock).
Proof.
  intros Hok Hbuf Hf Hput Hdata Hidx Hoff Hp. unfold Store.crash, Store.open. simpl.
  rewrite Hdata. pose proof (lenZ_nonneg p).
  assert (IndexOps.index_ok (cs_index s1)) as Hio.
  { rewrite Hidx. apply IndexOps.index_insert_ok; [|apply Hok].
    pose proof (ok_segment _ Hok). unfold IndexOps.entry_fits. simpl. lia. }
  rewrite (IndexOps.index_open _ Hio), (ok_latest _ Hok). simpl.
  destruct (ok_current _ Hok) as (f' & Hf' & Hmag & Hlen & _). rewrite Hf in Hf'.
  injection Hf' as <-. unfold open_or_create_segment. rewrite <- (ok_file _ Hok), Hf.
  destruct (Z.ltb_spec (lenZ f) SEGMENT_HEADER_LEN); [lia|].
  rewrite decide_False by auto. unfold opened. by rewrite (ok_file _ Hok).
Qed.

(** ** Properties *)

(** C20: A stored object is read back. On every reachable store [put] returns the content
    hash, unless the payload is new, its record does not fit the current segment and that is
    segment 65535, the last one: then it fails with [segment id overflow]. After a success
    [get_payload] of a hash that was not stored before returns exactly what was put, and every
    other hash still gives what it gave; after the failure every hash does. The store keeps
    its invariant. *)
Theorem cas_store_put_get (s : CasStore) (ty : RecordType) (p : list byte) (h : Hash) :
  store_ok s -> lenZ p < PAYLOAD_LIMIT ->
  let '(r, s') := Store.put ty p s in
  store_ok s' /\
  match r with
  | Ok h' =>
      h' = of_bytes p /\ Store.contains h' s' = true /\
      (Store.contains h' s = false -> (Store.get_payload h' s').1 = Ok (ty, p)) /\
      (h ≠ h' -> (Store.get_payload h s').1 = (Store.get_payload h s).1)
  | Err e =>
      e = Storage (Corrupt "segment id overflow") /\
      Store.contains (of_bytes p) s = false /\ cs_segment s = 65535 /\
      SEGMENT_MAX_BYTES < cs_offset s + (45 + lenZ p) /\
      (Store.get_payload h s').1 = (Store.get_payload h s).1
  | _ => False
  end.
Proof.
  intros Hok Hp. pose proof (put_ok s ty p Hok Hp) as Hput.
  destruct (Store.put ty p s) as [r s']. destruct Hput as [Hok' Hr]. split; [done|].
  assert (forall s, store_ok s -> forall h,
    (Store.get_payload h s).1 = ok_or (Storage (NotFound h)) (store_objects s !! h)) as Hget.
  { intros s0 Hs0 h0. pose proof (get_payload_ok s0 h0 Hs0) as Hg.
    destruct (Store.get_payload h0 s0). by destruct Hg as (_ & _ & ?). }
  destruct Hr as [[-> Hobj]|[(e & -> & [-> _] & ? & ? & ?) Hobj]];
    [|split_and!; try done; by rewrite !Hget, Hobj].
  split; [done|]. unfold put_object in Hobj. split; [|split].
  - unfold Store.contains, IndexOps.contains. apply bool_decide_eq_true.
    apply objects_contains; [done|]. rewrite Hobj.
    destruct (store_objects s !! of_bytes p) eqn:Ho; [by rewrite Ho|].
    by rewrite lookup_insert_eq.
  - unfold Store.contains, IndexOps.contains. intros Hc%bool_decide_eq_false.
    rewrite Hget, Hobj by done. destruct (store_objects s !! of_bytes p) eqn:Ho.
    + destruct Hc. apply objects_contains; [done|]. by eexists.
    + by rewrite lookup_insert_eq.
  - intros Hne. rewrite !Hget, Hobj by done.
    destruct (store_objects s !! of_bytes p); [done|]. by rewrite lookup_insert_ne.
Qed.

(** C9: Durability: when a store is dropped (or flushed), opening its files again succeeds
    and gives a store with the same objects, whatever the write buffer held. *)
Theorem cas_store_restart (s : CasStore) (clock : Z) :
  store_ok s ->
  exists s', Store.open (Store.drop_store s).1 (Store.drop_store s).2 clock = Ok s' /\
    store_ok s' /\
    forall h, (Store.get_payload h s').1 = (Store.get_payload h s).1 /\
              Store.contains h s' = Store.contains h s.
Proof.
  intros Hok. destruct (flush_ok s Hok) as (s1 & Hfl & Hok1 & Hsame & Hbuf & _).
  destruct (open_ok s1 clock Hok1 Hbuf) as (s2 & Hopen & Hok2 & Hobj & _).
  exists s2. unfold Store.drop_store. rewrite Hfl. split; [exact Hopen|]. split; [done|].
  intros h. apply same_view_objects in Hsame. rewrite Hsame in Hobj.
  pose proof (get_payload_ok s h Hok) as Hg. pose proof (get_payload_ok s2 h Hok2) as Hg2.
  destruct (Store.get_payload h s), (Store.get_payload h s2).
  destruct Hg as (_ & _ & ->), Hg2 as (_ & _ & ->). simpl. rewrite Hobj. split; [done|].
  unfold Store.contains, IndexOps.contains. apply bool_decide_ext.
  rewrite <- !objects_contains, Hobj by done. done.
Qed.

(** A segment grows past [SEGMENT_MAX_BYTES] only for a record that would not fit an
    empty one: an append starts a new segment first. *)
Theorem cas_store_segment_bound (s : CasStore) (ty : RecordType) (p : list byte) :
  store_ok s -> cs_offset s <= SEGMENT_MAX_BYTES ->
  SEGMENT_HEADER_LEN + 45 + lenZ p <= SEGMENT_MAX_BYTES ->
  cs_offset (Store.put ty p s).2 <= SEGMENT_MAX_BYTES.
Proof.
  intros Hok Hoff Hp. unfold Store.put. destruct (IndexOps.contains _ _); [done|].
  rewrite stM_bind_eq. unfold Store.ensure_segment_capacity.
  assert (forall s, cs_offset (Store.put_record ty p (of_bytes p) s).2 =
    cs_offset s + (45 + lenZ p)) as Hrec.
  { intros s0. unfold Store.put_record. simpl. rewrite encode_record_length.
    destruct (write_all_eq (encode_record ty p (of_bytes p)) s0) as (d & b & -> & _).
    rewrite Z.mod_small; [done|]. pose proof (lenZ_nonneg p).
    unfold SEGMENT_MAX_BYTES, SEGMENT_HEADER_LEN in *. lia. }
  destruct (Z.ltb_spec SEGMENT_MAX_BYTES (cs_offset s + (41 + lenZ p + 4))).
  - destruct (flush_ok s Hok) as (s1 & Hfl & Hok1 & (_ & _ & _ & _ & Hoff1) & Hbuf & _).
    unfold Store.rotate_segment. rewrite (stM_bind_Ok _ _ _ _ _ Hfl).
    pose proof (next_segment_ok s1 Hok1 Hbuf) as Hnext.
    destruct (Store.next_segment s1) as [[] s2]; [|by destruct Hnext as [-> _]; simpl; lia|done..].
    rewrite Hrec. destruct Hnext as (_ & _ & _ & ->). lia.
  - rewrite Hrec. lia.
Qed.

(** At most [mmap_cap] segments stay mapped: [set_mmap_cap] drops mappings until the
    bound holds, and mapping another segment makes room first. *)
Theorem cas_store_mmap_bound (s : CasStore) (cap id : Z) :
  0 <= cap ->
  Z.of_nat (size (cs_maps (Store.set_mmap_cap cap s))) <= cap /\
  (0 <= cs_mmap_cap s -> Z.of_nat (size (cs_maps s)) <= cs_mmap_cap s ->
   Z.of_nat (size (cs_maps (Store.ensure_mmap id s).2)) <= cs_mmap_cap s).
Proof.
  intros Hcap. split; [by apply drop_oldest_size|]. intros Hcap0 Hs. unfold Store.ensure_mmap.
  destruct (Z.eqb_spec (cs_mmap_cap s) 0); [exact Hs|].
  destruct (cs_maps s !! id) eqn:Hid; [exact Hs|]. destruct (cs_data s !! _); [|exact Hs].
  destruct (mmap_map _); [exact Hs|]. simpl.
  pose proof (drop_oldest_size (size (cs_maps s)) (cs_mmap_cap s - 1) (cs_maps s)
    ltac:(lia) ltac:(lia)).
  rewrite map_size_insert_None; [lia|].
  destruct (drop_oldest _ _ _ !! id) eqn:Hd; [|done].
  apply drop_oldest_sub in Hd. congruence.
Qed.

(** C38: A crash between [put] and [flush] poisons the hash. The index entry is written at
    once, the record waits in the write buffer: after the process dies and the store is
    opened again, the hash counts as stored, so that storing the payload again writes
    nothing, and reading it fails - until another payload of the same length is stored,
    after which reading the hash returns that other payload. *)
Theorem cas_store_crash_poisons_hash (s : CasStore) (ty : RecordType) (p : list byte) (clock : Z) :
  store_ok s -> cs_buf s = [] -> Store.contains (of_bytes p) s = false ->
  45 + lenZ p < SEGMENT_BUF_BYTES -> cs_offset s + (45 + lenZ p) <= SEGMENT_MAX_BYTES ->
  exists s1 s2, Store.put ty p s = (Ok (of_bytes p), s1) /\
    Store.open (Store.crash s1).1 (Store.crash s1).2 clock = Ok s2 /\
    Store.contains (of_bytes p) s2 = true /\
    Store.put ty p s2 = (Ok (of_bytes p), s2) /\
    (Store.get_payload (of_bytes p) s2).1 = Err (Io eof_msg) /\
    (forall ty' p', lenZ p' = lenZ p -> Store.contains (of_bytes p') s2 = false ->
       exists s3, Store.put ty' p' s2 = (Ok (of_bytes p'), s3) /\
         (Store.get_payload (of_bytes p) s3).1 = Ok (ty', p')).
Proof.
  intros Hok Hbuf Hc Hsmall Hroom. pose proof (lenZ_nonneg p) as Hp0.
  destruct (ok_current _ Hok) as (f & Hf & _ & Hlen & Hoff).
  rewrite Hbuf in Hoff. change (lenZ []) with 0 in Hoff. rewrite Z.add_0_r in Hoff.
  destruct (put_small s ty p Hbuf Hc Hsmall Hroom) as (s1 & Hput & Hdata & _ & Hidx & _).
  unfold SEGMENT_BUF_BYTES, SEGMENT_MAX_BYTES, SEGMENT_HEADER_LEN in *.
  pose proof (open_after_crash s s1 ty p f clock Hok Hbuf Hf Hput Hdata Hidx
    ltac:(lia) ltac:(lia)) as Hopen.
  set (e := mk_IndexEntry (cs_segment s) (cs_offset s) (45 + lenZ p)) in *.
  set (s2 := opened _ _ _ _ _) in Hopen.
  assert (IndexOps.get (of_bytes p) (cs_index s2) = Some e) as He.
  { unfold s2, opened, IndexOps.get. simpl. rewrite Hidx, IndexOps.index_insert_entries.
    unfold Store.contains, IndexOps.contains in Hc. apply bool_decide_eq_false in Hc.
    destruct (_ !! _); [by destruct Hc|]. by rewrite lookup_insert_eq. }
  assert (Store.contains (of_bytes p) s2 = true) as Hc2.
  { unfold Store.contains, IndexOps.contains, IndexOps.get in *. rewrite He. done. }
  exists s1, s2. split; [done|]. split; [done|]. split; [done|].
  assert (Store.put ty p s2 = (Ok (of_bytes p), s2)) as Hagain.
  { unfold Store.put. unfold Store.contains in Hc2. by rewrite Hc2. }
  split; [done|].
  assert (cs_data s2 !! cs_file s2 = Some f) as Hf2 by (simpl; by rewrite <- (ok_file _ Hok)).
  split.
  - erewrite get_uncached; [|by apply lookup_empty|exact He|
      by apply (read_current s2 e f []); try done; simpl; lia].
    change (lenZ []) with 0. simpl. destruct (Z.leb_spec (45 + lenZ p) 0); [lia|done].
  - intros ty' p' Hlen' Hc'.
    destruct (put_small s2 ty' p') as (s3 & Hput3 & Hdata3 & Hbuf3 & Hidx3 & Hseg3 & Hfile3 & Hca3);
      [done|exact Hc'|unfold SEGMENT_BUF_BYTES; lia|unfold SEGMENT_MAX_BYTES; simpl; lia|].
    exists s3. split; [done|].
    assert (of_bytes p ≠ of_bytes p') as Hne by (intros E; rewrite E in Hc2; congruence).
    rewrite (get_uncached s3 (of_bytes p) e (Ok (encode_record ty' p' (of_bytes p')))
      (Store.flush_buf s3)).
    + unfold mbind, outcome_bind. rewrite decode_encode_record by lia. done.
    + rewrite Hca3. destruct (Lru.get _ _) as [o|] eqn:Ho; [|done].
      apply Lru.lru_insert_inv in Ho as [[? _]|Ho]; [done| |apply Lru.lru_new_ok].
      unfold Lru.get in Ho. simpl in Ho. by rewrite lookup_empty in Ho.
    + unfold IndexOps.get in *. rewrite Hidx3, IndexOps.index_insert_entries.
      unfold Store.contains, IndexOps.contains in Hc'. apply bool_decide_eq_false in Hc'.
      destruct (_ !! of_bytes p'); [done|]. by rewrite lookup_insert_ne.
    + rewrite (read_current s3 e f (encode_record ty' p' (of_bytes p')));
        [|by rewrite Hdata3, Hfile3|by rewrite Hfile3, Hseg3|by rewrite Hseg3|done|done|simpl; lia].
      rewrite encode_record_length, Hlen'. simpl.
      destruct (Z.leb_spec (45 + lenZ p) (45 + lenZ p)); [|lia].
      f_equal. f_equal. apply take_ge. pose proof (encode_record_length ty' p' (of_bytes p')).
      unfold lenZ in *. lia.
Qed.

End spec.

(** ** The properties at work *)

Section witnesses.

#[local] Existing Instance toy_hash.

#[local] Instance id_mmap : MmapLib := fun file => inr file.
#[local] Instance id_mmap_laws : MmapLaws.
Proof. by intros file m [= ->]. Qed.

(** The store of a new repository. *)
Definition ex_cas : CasStore :=
  opened {[ segment_path_for 0 := encode_segment_header 0 0 ]} (mk_Index [] ∅) 0
    SEGMENT_HEADER_LEN 0.

Lemma ex_cas_ok : store_ok ex_cas.
Proof.
  destruct (open_new_ok 0) as (s & Hs & Hok & _). assert (@Ok EpochsError CasStore s = Ok ex_cas) as E.
  { rewrite <- Hs. vm_compute. reflexivity. }
  by injection E as ->.
Qed.

Definition ex_payload : list byte := [x01; x02].

Lemma cas_store_put_get_witness :
  let '(r, s') := Store.put THamtLeaf ex_payload ex_cas in
  store_ok s' /\
  match r with
  | Ok h' =>
      h' = of_bytes ex_payload /\ Store.contains h' s' = true /\
      (Store.contains h' ex_cas = false ->
         (Store.get_payload h' s').1 = Ok (THamtLeaf, ex_payload)) /\
      (ZERO ≠ h' -> (Store.get_payload ZERO s').1 = (Store.get_payload ZERO ex_cas).1)
  | Err e =>
      e = Storage (Corrupt "segment id overflow") /\
      Store.contains (of_bytes ex_payload) ex_cas = false /\ cs_segment ex_cas = 65535 /\
      SEGMENT_MAX_BYTES < cs_offset ex_cas + (45 + lenZ ex_payload) /\
      (Store.get_payload ZERO s').1 = (Store.get_payload ZERO ex_cas).1
  | _ => False
  end.
Proof.
  apply (cas_store_put_get ex_cas THamtLeaf ex_payload ZERO); [apply ex_cas_ok|].
  vm_compute. reflexivity.
Defined.

Lemma cas_store_restart_witness :
  exists s', Store.open (Store.drop_store ex_cas).1 (Store.drop_store ex_cas).2 7 = Ok s' /\
    store_ok s' /\
    forall h, (Store.get_payload h s').1 = (Store.get_payload h ex_cas).1 /\
              Store.contains h s' = Store.contains h ex_cas.
Proof. apply (cas_store_restart ex_cas 7). apply ex_cas_ok. Defined.

Lemma cas_store_segment_bound_witness :
  cs_offset (Store.put THamtLeaf ex_payload ex_cas).2 <= SEGMENT_MAX_BYTES.
Proof.
  apply (cas_store_segment_bound ex_cas THamtLeaf ex_payload).
  - apply ex_cas_ok.
  - vm_compute. discriminate.
  - vm_compute. discriminate.
Defined.

Lemma cas_store_mmap_bound_witness :
  Z.of_nat (size (cs_maps (Store.set_mmap_cap 1 ex_cas))) <= 1 /\
  (0 <= cs_mmap_cap ex_cas -> Z.of_nat (size (cs_maps ex_cas)) <= cs_mmap_cap ex_cas ->
   Z.of_nat (size (cs_maps (Store.ensure_mmap 0 ex_cas).2)) <= cs_mmap_cap ex_cas).
Proof. apply (cas_store_mmap_bound ex_cas 1 0). vm_compute. discriminate. Defined.

Lemma cas_store_crash_poisons_hash_witness :
  exists s1 s2, Store.put THamtLeaf ex_payload ex_cas = (Ok (of_bytes ex_payload), s1) /\
    Store.open (Store.crash s1).1 (Store.crash s1).2 9 = Ok s2 /\
    Store.contains (of_bytes ex_payload) s2 = true /\
    Store.put THamtLeaf ex_payload s2 = (Ok (of_bytes ex_payload), s2) /\
    (Store.get_payload (of_bytes ex_payload) s2).1 = Err (Io eof_msg) /\
    (forall ty' p', lenZ p' = lenZ ex_payload -> Store.contains (of_bytes p') s2 = false ->
       exists s3, Store.put ty' p' s2 = (Ok (of_bytes p'), s3) /\
         (Store.get_payload (of_bytes ex_payload) s3).1 = Ok (ty', p')).
Proof.
  apply (cas_store_crash_poisons_hash ex_cas THamtLeaf ex_payload 9).
  - apply ex_cas_ok.
  - reflexivity.
  - vm_compute. reflexivity.
  - vm_compute. reflexivity.
  - vm_compute. discriminate.
Defined.

End witnesses.
