(* ===== verification/Commit.v ===== *)
(** * Commit payloads ([epochs-core/src/commit.rs]) and branches ([branch.rs]) *)

From S2P Require Import Prelude Utf8 Hash Codec Record.

Definition COMMIT_VERSION : byte := as_u8 2.
Definition COMMIT_VERSION_V1 : byte := as_u8 1.

Record Commit := mk_Commit {
  parents : list Hash;
  root_hamt : Hash;
  timestamp : Z;                   (* u64 *)
  message : string;
  index_roots : gmap string Hash   (* a BTreeMap *)
}.

#[global] Instance Commit_eq_dec : EqDecision Commit.
Proof. solve_decision. Defined.

Record Branch := mk_Branch { branch_name : string; branch_target : Hash }.

#[global] Instance Branch_eq_dec : EqDecision Branch.
Proof. solve_decision. Defined.

Definition with_indexes (parents : list Hash) (root_hamt : Hash) (timestamp : Z)
    (message : string) (index_roots : gmap string Hash) : Commit :=
  mk_Commit parents root_hamt timestamp message index_roots.

Definition new_commit (parents : list Hash) (root_hamt : Hash) (timestamp : Z)
    (message : string) : Commit :=
  mk_Commit parents root_hamt timestamp message ∅.

(** [Commit::encode_payload]: the lengths are cast to [u8] and [u16]. *)
Definition encode_payload (c : Commit) : list byte :=
  encode_with (fun enc =>
    let enc := Encoder.write_u8 COMMIT_VERSION enc in
    let enc := Encoder.write_u8 (as_u8 (lenZ (parents c))) enc in
    let enc := foldl (fun enc parent => Encoder.write_hash parent enc) enc (parents c) in
    let enc := Encoder.write_hash (root_hamt c) enc in
    let enc := Encoder.write_u64 (timestamp c) enc in
    let msg := str_bytes (message c) in
    let enc := Encoder.write_u16 (lenZ msg) enc in
    let enc := Encoder.write_bytes msg enc in
    let enc := Encoder.write_u16 (Z.of_nat (size (index_roots c))) enc in
    foldl (fun enc '(name, hash) =>
      let bytes := str_bytes name in
      let enc := Encoder.write_u16 (lenZ bytes) enc in
      let enc := Encoder.write_bytes bytes enc in
      Encoder.write_hash hash enc) enc (btree_entries (index_roots c))).

(** The loop that reads the index roots. *)
Fixpoint read_roots (count : nat) (roots : gmap string Hash) : Reader (gmap string Hash) :=
  match count with
  | O => mret roots
  | S count =>
      name_len ← Decoder.read_u16;
      name_bytes ← Decoder.read_slice name_len;
      name ← lift (map_err (fun e =>
        Codec ("index root name not valid utf-8: " +:+ Utf8Error_to_string e))
        (from_utf8 name_bytes));
      hash ← Decoder.read_hash;
      read_roots count (<[name := hash]> roots)
  end.

Definition decode_payload_body : Reader Commit :=
  version ← Decoder.read_u8;
  if decide (version ≠ COMMIT_VERSION /\ version ≠ COMMIT_VERSION_V1) then
    fail (Codec ("unsupported commit version: " +:+ pretty (byte_val version)))
  else
  parent_count ← Decoder.read_u8;
  parents ← Decoder.read_many (Z.to_nat (byte_val parent_count)) Decoder.read_hash;
  root_hamt ← Decoder.read_hash;
  timestamp ← Decoder.read_u64;
  msg_len ← Decoder.read_u16;
  msg_bytes ← Decoder.read_slice msg_len;
  message ← lift (map_err (fun e =>
    Codec ("commit message not valid utf-8: " +:+ Utf8Error_to_string e)) (from_utf8 msg_bytes));
  index_roots ←
    (if byte_val COMMIT_VERSION <=? byte_val version then
       count ← Decoder.read_u16;
       read_roots (Z.to_nat count) ∅
     else mret ∅);
  mret (mk_Commit parents root_hamt timestamp message index_roots).

(** [Commit::decode_payload]. *)
Definition decode_payload (buf : list byte) : Result Commit :=
  (decode_payload_body (Decoder.new buf)).1.

(** [Commit::id]. *)
Definition commit_id `{Blake3} (c : Commit) : Hash := of_bytes (encode_payload c).

(** The commits whose lengths survive the casts, with a [u64] time and UTF-8 strings. *)
Record commit_fits (c : Commit) : Prop := {
  fit_parents : lenZ (parents c) < 256;
  fit_time : 0 <= timestamp c < 2 ^ 64;
  fit_message : lenZ (str_bytes (message c)) < 2 ^ 16 /\ utf8_valid (message c) = true;
  fit_roots : Z.of_nat (size (index_roots c)) < 2 ^ 16;
  fit_names : forall name h, index_roots c !! name = Some h ->
    lenZ (str_bytes name) < 2 ^ 16 /\ utf8_valid name = true
}.

(** ** Lemmas *)

Definition enc_root (e : string * Hash) : list byte :=
  to_le 2 (lenZ (str_bytes e.1)) ++ str_bytes e.1 ++ as_bytes e.2.

Lemma foldl_roots l enc :
  enc_buf (foldl (fun enc '(name, hash) =>
      let bytes := str_bytes name in
      let enc := Encoder.write_u16 (lenZ bytes) enc in
      let enc := Encoder.write_bytes bytes enc in
      Encoder.write_hash hash enc) enc l) = enc_buf enc ++ (l ≫= enc_root).
Proof.
  revert enc. induction l as [|[name h] l IH]; intros enc; cbn [foldl].
  - by rewrite app_nil_r.
  - rewrite IH. change (((name, h) :: l) ≫= enc_root) with (enc_root (name, h) ++ (l ≫= enc_root)).
    unfold enc_root at 2.
    cbn [enc_buf Encoder.write_u16 Encoder.write_bytes Encoder.write_hash fst snd].
    by rewrite <- !app_assoc.
Qed.

Lemma foldl_hashes hs enc :
  enc_buf (foldl (fun enc h => Encoder.write_hash h enc) enc hs) =
  enc_buf enc ++ (hs ≫= as_bytes).
Proof.
  revert enc. induction hs as [|h hs IH]; intros enc; cbn [foldl].
  - by rewrite app_nil_r.
  - rewrite IH. cbn. by rewrite <- app_assoc.
Qed.

Lemma encode_payload_eq c :
  encode_payload c =
  [COMMIT_VERSION] ++ [as_u8 (lenZ (parents c))] ++ (parents c ≫= as_bytes) ++
  as_bytes (root_hamt c) ++ to_le 8 (timestamp c) ++
  to_le 2 (lenZ (str_bytes (message c))) ++ str_bytes (message c) ++
  to_le 2 (Z.of_nat (size (index_roots c))) ++ (btree_entries (index_roots c) ≫= enc_root).
Proof.
  unfold encode_payload. rewrite encode_with_eq, foldl_roots.
  cbn [enc_buf Encoder.write_u16 Encoder.write_bytes Encoder.write_hash Encoder.write_u64].
  rewrite foldl_hashes.
  cbn [enc_buf Encoder.write_u8 Encoder.new]. by rewrite <- !app_assoc.
Qed.

Lemma foldl_insert_nodup (l : list (string * Hash)) (m : gmap string Hash) :
  NoDup l.*1 ->
  foldl (fun m e => <[e.1 := e.2]> m) m l = list_to_map l ∪ m.
Proof.
  revert m. induction l as [|[k v] l IH]; intros m Hnd; simpl; [by rewrite (left_id_L ∅ (∪))|].
  apply NoDup_cons in Hnd as [Hk Hnd]. rewrite IH by done.
  rewrite <- insert_union_l, insert_union_r; [done|]. by apply not_elem_of_list_to_map.
Qed.

Lemma reads_utf8 (f : Utf8Error -> EpochsError) s :
  utf8_valid s = true -> reads (lift (map_err f (from_utf8 (str_bytes s)))) [] s.
Proof. intros Hs. rewrite from_utf8_valid by done. apply reads_ret. Qed.

Lemma reads_roots l m :
  (forall name h, (name, h) ∈ l -> lenZ (str_bytes name) < 2 ^ 16 /\ utf8_valid name = true) ->
  reads (read_roots (length l) m) (l ≫= enc_root) (foldl (fun m e => <[e.1 := e.2]> m) m l).
Proof.
  revert m. induction l as [|[name h] l IH]; intros m Hl; [apply reads_ret|].
  change (((name, h) :: l) ≫= enc_root) with (enc_root (name, h) ++ (l ≫= enc_root)).
  destruct (Hl name h) as [Hn Hu]; [by left|]. pose proof (lenZ_nonneg (str_bytes name)).
  unfold enc_root at 1. cbn [length read_roots fst snd]. rewrite <- !app_assoc.
  eapply reads_bind; [by apply reads_u16|].
  eapply reads_bind; [by apply reads_slice|].
  eapply reads_step; [by apply reads_utf8|].
  eapply reads_bind; [apply reads_hash|].
  apply (IH (<[name := h]> m)). intros. apply (Hl _ h0). by right.
Qed.

Lemma decode_encode_payload c : commit_fits c -> decode_payload (encode_payload c) = Ok c.
Proof.
  intros [Hp Ht [Hm Hmu] Hr Hn]. apply reads_run. rewrite encode_payload_eq.
  unfold decode_payload_body.
  pose proof (lenZ_nonneg (parents c)). pose proof (lenZ_nonneg (str_bytes (message c))).
  eapply reads_bind; [apply reads_u8|]. rewrite decide_False by (intros [? _]; done).
  eapply reads_bind; [apply reads_u8|].
  eapply reads_bind.
  { rewrite byte_val_as_u8, Z.mod_small by lia. unfold lenZ. rewrite Nat2Z.id.
    apply reads_many. intros h _. apply reads_hash. }
  eapply reads_bind; [apply reads_hash|].
  eapply reads_bind; [by apply reads_u64|].
  eapply reads_bind; [by apply reads_u16|].
  eapply reads_bind; [by apply reads_slice|].
  eapply reads_step; [by apply reads_utf8|].
  apply (reads_bind_ret _ _ _ (index_roots c)); [|apply reads_ret'; by destruct c].
  change (byte_val COMMIT_VERSION <=? byte_val COMMIT_VERSION) with true. cbv iota.
  eapply reads_bind; [apply reads_u16; lia|].
  rewrite Nat2Z.id, <- (length_btree_entries (index_roots c)).
  assert (foldl (fun m e => <[e.1 := e.2]> m) ∅ (btree_entries (index_roots c)) = index_roots c)
    as Hroots.
  { rewrite foldl_insert_nodup by apply btree_entries_nodup.
    rewrite (right_id_L ∅ (∪)). apply list_to_map_btree_entries. }
  rewrite <- Hroots at 3. apply reads_roots. intros name h Hin. apply (Hn name h).
  by apply btree_entries_elem.
Qed.

Lemma read_roots_size n m :
  parses (read_roots n m) (fun m' _ => (size m' <= size m + n)%nat).
Proof.
  revert m. induction n as [|n IH]; intros m; cbn [read_roots]; [apply parses_ret; lia|].
  eapply parses_bind; [apply parses_u16|]. intros len _ [_ Hlen].
  eapply parses_bind; [apply parses_slice; lia|]. intros bs _ _.
  eapply (parses_bind _ _ (fun _ bs => True)).
  { unfold from_utf8. destruct (run_utf8_validation bs 0); [apply parses_fail|by apply parses_ret]. }
  intros name _ _.
  eapply parses_bind; [apply parses_hash|]. intros h _ _.
  eapply parses_mono; [apply IH|]. intros m' bs' Hs. cbv beta in Hs |- *.
  destruct (m !! name) as [x|] eqn:Hx.
  - rewrite map_size_insert_Some in Hs by eauto. lia.
  - rewrite map_size_insert_None in Hs by done. lia.
Qed.

(** The limits of the length fields. *)
Definition commit_bounds (c : Commit) : Prop :=
  lenZ (parents c) < 256 /\ 0 <= timestamp c < 2 ^ 64 /\
  lenZ (str_bytes (message c)) < 2 ^ 16 /\ Z.of_nat (size (index_roots c)) < 2 ^ 16.

Lemma parses_payload : parses decode_payload_body (fun c _ => commit_bounds c).
Proof.
  unfold decode_payload_body.
  eapply parses_bind; [apply parses_u8|]. intros v _ _. case_decide; [apply parses_fail|].
  eapply parses_bind; [apply parses_u8|]. intros n _ _.
  eapply parses_bind; [apply parses_many, parses_hash|]. intros ps _ [_ Hps].
  eapply parses_bind; [apply parses_hash|]. intros root _ _.
  eapply parses_bind; [apply parses_u64|]. intros ts _ [_ Hts].
  eapply parses_bind; [apply parses_u16|]. intros mlen _ [_ Hml].
  eapply parses_bind; [apply parses_slice; lia|]. intros mbytes bs1 [<- Hmb].
  eapply (parses_bind _ _ (fun s _ => mbytes = str_bytes s)).
  { destruct (from_utf8 mbytes) as [s|e| |] eqn:Hu; [|apply parses_fail|..].
    - apply parses_ret. by apply from_utf8_Ok in Hu as [-> _].
    - unfold from_utf8 in Hu. by destruct (run_utf8_validation _ _).
    - unfold from_utf8 in Hu. by destruct (run_utf8_validation _ _). }
  intros msg _ ->.
  eapply (parses_bind _ _ (fun m _ => Z.of_nat (size (m : gmap string Hash)) < 2 ^ 16)).
  { destruct (_ <=? _); [|by apply parses_ret].
    eapply parses_bind; [apply parses_u16|]. intros count _ [_ Hc].
    eapply parses_mono; [apply read_roots_size|]. intros m bs' Hs. cbv beta in Hs. rewrite map_size_empty in Hs. lia. }
  intros roots _ Hr. apply parses_ret. pose proof (byte_val_range n). unfold commit_bounds, lenZ in *. simpl.
  split_and!; try done; lia.
Qed.

(** What decodes is within the limits. *)
Lemma decode_payload_bounds buf c : decode_payload buf = Ok c -> commit_bounds c.
Proof.
  unfold decode_payload. intros Hdec. pose proof (parses_new _ _ buf parses_payload) as Hp.
  destruct (decode_payload_body (Decoder.new buf)) as [o d']. simpl in Hdec. subst o.
  by destruct Hp as (_ & HP & _).
Qed.

(** Decoding returns a commit or an error. *)
Lemma decode_payload_total buf :
  (exists c, decode_payload buf = Ok c) \/ (exists e, decode_payload buf = Err e).
Proof.
  unfold decode_payload. pose proof (parses_new _ _ buf parses_payload) as Hp.
  destruct (decode_payload_body (Decoder.new buf)) as [[] d']; simpl; try done; eauto.
Qed.

(** ** Properties *)

(** C13: A commit whose lengths fit their fields decodes to itself, index roots in any order
    of insertion, so that two such commits with one payload are the same commit. *)
Theorem commit_roundtrip (c c' : Commit) :
  commit_fits c -> commit_fits c' ->
  decode_payload (encode_payload c) = Ok c /\
  (encode_payload c = encode_payload c' -> c = c').
Proof.
  intros Hc Hc'. split; [by apply decode_encode_payload|]. intros E.
  pose proof (decode_encode_payload c Hc) as H1. pose proof (decode_encode_payload c' Hc') as H2.
  rewrite E, H2 in H1. by injection H1.
Qed.

Lemma commit_roundtrip_witness :
  let c := mk_Commit [ZERO] ZERO 7 "hi" {[ "items.by_id" := ZERO ]} in
  decode_payload (encode_payload c) = Ok c /\ (encode_payload c = encode_payload c -> c = c).
Proof.
  intros c.
  assert (commit_fits c) as Hc.
  { constructor; try done. intros name h Hl. simpl in Hl. apply lookup_singleton_Some in Hl as [<- <-]. done. }
  exact (commit_roundtrip c c Hc Hc).
Defined.

(** A commit with more than 255 parents, a message of 2^16 bytes or more, or 2^16 index
    roots or more is never read back: the casts truncate the counts. *)
Theorem commit_overflow_not_read_back (c : Commit) (buf : list byte) :
  256 <= lenZ (parents c) \/ 2 ^ 16 <= lenZ (str_bytes (message c)) \/
  2 ^ 16 <= Z.of_nat (size (index_roots c)) ->
  decode_payload buf ≠ Ok c.
Proof. intros Hc (? & ? & ? & ?)%decode_payload_bounds. lia. Qed.

Lemma commit_overflow_not_read_back_witness :
  decode_payload (encode_payload (new_commit (replicate 256 ZERO) ZERO 0 "")) ≠
  Ok (new_commit (replicate 256 ZERO) ZERO 0 "").
Proof.
  apply (commit_overflow_not_read_back (new_commit (replicate 256 ZERO) ZERO 0 "")).
  left. vm_compute. discriminate.
Defined.

(** Payloads of version 1 still decode: the same fields without index roots. *)
Theorem commit_v1_decodes (ps : list Hash) (root : Hash) (ts : Z) (msg : string) :
  lenZ ps < 256 -> 0 <= ts < 2 ^ 64 -> lenZ (str_bytes msg) < 2 ^ 16 -> utf8_valid msg = true ->
  decode_payload ([COMMIT_VERSION_V1] ++ [as_u8 (lenZ ps)] ++ (ps ≫= as_bytes) ++
    as_bytes root ++ to_le 8 ts ++ to_le 2 (lenZ (str_bytes msg)) ++ str_bytes msg) =
  Ok (new_commit ps root ts msg).
Proof.
  intros Hp Ht Hm Hu. apply reads_run. unfold decode_payload_body.
  pose proof (lenZ_nonneg ps). pose proof (lenZ_nonneg (str_bytes msg)).
  eapply reads_bind; [apply reads_u8|]. rewrite decide_False by (intros [_ ?]; done).
  eapply reads_bind; [apply reads_u8|].
  eapply reads_bind.
  { rewrite byte_val_as_u8, Z.mod_small by lia. unfold lenZ. rewrite Nat2Z.id.
    apply reads_many. intros h _. apply reads_hash. }
  eapply reads_bind; [apply reads_hash|].
  eapply reads_bind; [by apply reads_u64|].
  eapply reads_bind; [by apply reads_u16|].
  eapply reads_bind_ret; [by apply reads_slice|].
  eapply reads_step; [by apply reads_utf8|].
  change (byte_val COMMIT_VERSION <=? byte_val COMMIT_VERSION_V1) with false. cbv iota.
  eapply reads_step; [apply reads_ret|apply reads_ret].
Qed.

Lemma commit_v1_decodes_witness :
  decode_payload ([COMMIT_VERSION_V1] ++ [as_u8 (lenZ [ZERO])] ++ ([ZERO] ≫= as_bytes) ++
    as_bytes ZERO ++ to_le 8 99 ++ to_le 2 (lenZ (str_bytes "old")) ++ str_bytes "old") =
  Ok (new_commit [ZERO] ZERO 99 "old").
Proof. by apply (commit_v1_decodes [ZERO] ZERO 99 "old"). Defined.
