(* ===== verification/Bfs.v ===== *)
(** * Breadth-first search over a finite graph

    The invariant of the searches of the commit graph, for any relation [R] whose vertices
    stay in a finite set [U]. *)

From S2P Require Import Prelude Hash.

Section bfs.
Context (R : Hash -> Hash -> Prop).

(** ** The invariant

    [P] lists the vertices processed, [q] the queue, both with their distances from the
    start; vertices nearer than [lim] have been expanded when they were processed. *)

Record bfs_inv (U : gset Hash) (lim : nat -> Prop) (start : Hash)
    (P q : list (Hash * nat)) (visited : gset Hash) : Prop := {
  bfs_nodup : NoDup (P ++ q).*1;
  bfs_visited : forall h, h ∈ visited <-> h ∈ (P ++ q).*1;
  bfs_in : forall h d, (h, d) ∈ P ++ q -> h ∈ U;
  bfs_start : (start, 0%nat) ∈ P ++ q;
  bfs_sound : forall h d, (h, d) ∈ P ++ q -> nsteps R d start h;
  bfs_closed : forall x dx p, (x, dx) ∈ P -> lim dx -> R x p ->
    exists dp, (dp <= dx + 1)%nat /\ (p, dp) ∈ P ++ q;
  bfs_order : exists D q1 q2, q = q1 ++ q2 /\ Forall (fun e => e.2 = D) q1 /\
    Forall (fun e => e.2 = (D + 1)%nat) q2 /\ Forall (fun e => (e.2 <= D)%nat) P
}.

Lemma bfs_init U lim start : start ∈ U -> bfs_inv U lim start [] [(start, 0%nat)] {[ start ]}.
Proof.
  intros Hu. constructor; simpl.
  - apply NoDup_singleton.
  - intros h. rewrite elem_of_singleton, list_elem_of_singleton. done.
  - by intros h d [= -> ->]%list_elem_of_singleton.
  - by left.
  - intros h d [= -> ->]%list_elem_of_singleton. constructor.
  - by intros x dx p ?%not_elem_of_nil.
  - exists 0%nat, [(start, 0%nat)], []. split_and!; try done. by repeat constructor.
Qed.

(** A path from a processed vertex to one that is not passes through the queue. *)
Lemma bfs_path U lim start P q visited n k x dx h :
  bfs_inv U lim start P q visited -> (forall m, (m < n)%nat -> lim m) ->
  nsteps R k x h -> (x, dx) ∈ P ++ q -> (dx + k <= n)%nat ->
  h ∈ P.*1 \/ exists h0 m, (h0, m) ∈ q /\ (m <= n)%nat /\ exists k', (m + k' <= n)%nat /\
    nsteps R k' h0 h.
Proof.
  intros Hinv Hlim Hk. revert dx. induction Hk as [x|k x y z Hxy Hyz IH]; intros dx Hx Hn.
  - apply elem_of_app in Hx as [Hx|Hx].
    + left. apply list_elem_of_fmap. by exists (x, dx).
    + right. exists x, dx. split; [done|]. split; [lia|]. exists 0%nat. split; [lia|constructor].
  - apply elem_of_app in Hx as [Hx|Hx].
    + destruct (bfs_closed _ _ _ _ _ _ Hinv x dx y Hx) as (dy & Hdy & Hy);
        [apply Hlim; lia|done|]. apply (IH dy Hy). lia.
    + right. exists x, dx. split; [done|]. split; [lia|]. exists (Datatypes.S k). split; [lia|].
      by econstructor.
Qed.

Lemma bfs_covers U lim start P q visited n h :
  bfs_inv U lim start P q visited -> (forall m, (m < n)%nat -> lim m) ->
  nsteps R n start h ->
  h ∈ P.*1 \/ exists h0 m, (h0, m) ∈ q /\ (m <= n)%nat.
Proof.
  intros Hinv Hlim Hn.
  destruct (bfs_path U lim start P q visited n n start 0 h Hinv Hlim Hn)
    as [?|(h0 & m & ? & ? & _)]; [by apply Hinv|lia|by left|right; by exists h0, m].
Qed.

(** The head of the queue is nearest. *)
Lemma bfs_head_min U lim start P c d q visited h m :
  bfs_inv U lim start P ((c, d) :: q) visited -> (h, m) ∈ (c, d) :: q -> (d <= m)%nat.
Proof.
  intros Hinv Hin. destruct (bfs_order _ _ _ _ _ _ Hinv) as (D & q1 & q2 & Hq & H1 & H2 & _).
  assert (forall h m, (h, m) ∈ q1 ++ q2 -> (D <= m <= D + 1)%nat) as Hall.
  { intros h' m' [Hi|Hi]%elem_of_app.
    - rewrite Forall_forall in H1. apply H1 in Hi. simpl in Hi. lia.
    - rewrite Forall_forall in H2. apply H2 in Hi. simpl in Hi. lia. }
  destruct q1 as [|e q1]; simpl in Hq.
  - subst q2. rewrite Forall_forall in H2. pose proof (H2 (c, d) ltac:(by left)) as Hd.
    apply H2 in Hin. simpl in *. lia.
  - injection Hq as <- ->. pose proof (Forall_inv H1) as Hd. simpl in Hd.
    change ((c, d) :: q1 ++ q2) with (((c, d) :: q1) ++ q2) in Hin. apply Hall in Hin. lia.
Qed.

(** Popping the head without expanding it. *)
Lemma bfs_pop U lim start P c d q visited :
  bfs_inv U lim start P ((c, d) :: q) visited -> ~ lim d ->
  bfs_inv U lim start (P ++ [(c, d)]) q visited.
Proof.
  intros Hinv Hd. destruct Hinv as [Hnd Hv Hin Hst Hsd Hcl (D & q1 & q2 & Hq & H1 & H2 & HP)].
  constructor; rewrite <- ?app_assoc; try done.
  - intros x dx p [Hx|[= -> ->]%list_elem_of_singleton]%elem_of_app Hl Hp; [by eapply Hcl|done].
  - destruct q1 as [|e q1]; simpl in Hq.
    + subst q2. pose proof (Forall_inv H2) as Hd2. pose proof (Forall_inv_tail H2) as H2'.
      simpl in Hd2. subst d.
      exists (D + 1)%nat, q, []. rewrite app_nil_r. split_and!; try done.
      apply Forall_app. split; [|by repeat constructor].
      eapply Forall_impl; [exact HP|]. simpl. lia.
    + injection Hq as <- ->. pose proof (Forall_inv H1) as Hd1. pose proof (Forall_inv_tail H1) as H1'.
      simpl in Hd1. subst d.
      exists D, q1, q2. split_and!; try done. apply Forall_app. split; [done|by repeat constructor].
Qed.

(** Popping the head and pushing its new neighbours. *)
Lemma bfs_expand U lim start P c d q visited (ns new : list Hash) :
  bfs_inv U lim start P ((c, d) :: q) visited ->
  (forall p, R c p <-> p ∈ ns) -> (forall p, p ∈ ns -> p ∈ U) ->
  NoDup new -> (forall h, h ∈ new <-> h ∈ ns /\ h ∉ visited) ->
  bfs_inv U lim start (P ++ [(c, d)])
    (q ++ ((fun p => (p, (d + 1)%nat)) <$> new)) (visited ∪ list_to_set new).
Proof.
  intros Hinv Hpar HU Hnew Hiff.
  destruct Hinv as [Hnd Hv Hin Hst Hsd Hcl (D & q1 & q2 & Hq & H1 & H2 & HP)].
  set (pushed := (fun p => (p, (d + 1)%nat)) <$> new).
  assert (pushed.*1 = new) as Hfst.
  { unfold pushed. rewrite <- list_fmap_compose. apply list_fmap_id. }
  assert (forall h m, (h, m) ∈ pushed <-> h ∈ new /\ m = (d + 1)%nat) as Hpushed.
  { intros h m. unfold pushed. rewrite list_elem_of_fmap. naive_solver. }
  assert (forall e, e ∈ (P ++ [(c, d)]) ++ q ++ pushed <-> e ∈ P ++ (c, d) :: q \/ e ∈ pushed) as Hall.
  { intros e. rewrite !elem_of_app, !elem_of_cons, elem_of_nil. naive_solver. }
  assert ((P ++ [(c, d)]) ++ q ++ pushed = (P ++ (c, d) :: q) ++ pushed) as Heq
    by (by rewrite <- !app_assoc).
  constructor.
  - rewrite Heq, fmap_app, Hfst. apply NoDup_app. split; [done|]. split; [|done].
    intros h Hh%Hv Hn. by apply Hiff in Hn as [_ ?].
  - intros h. rewrite Heq, fmap_app, Hfst, elem_of_app, <- Hv. set_solver.
  - intros h m [Hh|Hh]%Hall; [by eapply Hin|]. apply Hpushed in Hh as [Hh _].
    apply HU. by apply Hiff.
  - apply Hall. by left.
  - intros h m [Hh|[Hh ->]%Hpushed]%Hall; [by apply Hsd|].
    apply Hiff in Hh as [Hh _]. rewrite Nat.add_1_r. apply nsteps_r with c; [|by apply Hpar].
    apply Hsd, elem_of_app. right. by left.
  - intros x dx p [Hx|[= -> ->]%list_elem_of_singleton]%elem_of_app Hl Hp.
    + destruct (Hcl x dx p Hx Hl Hp) as (dp & ? & Hdp). exists dp. split; [done|].
      apply Hall. by left.
    + apply Hpar in Hp. destruct (decide (p ∈ visited)) as [Hpv|Hpv].
      * apply Hv, list_elem_of_fmap in Hpv as ([p' dp] & -> & Hdp). exists dp.
        split; [|apply Hall; by left]. apply elem_of_app in Hdp as [Hdp|Hdp].
        { rewrite Forall_forall in HP. apply HP in Hdp. simpl in Hdp.
          assert (D <= d)%nat; [|lia]. destruct q1 as [|e q1]; simpl in Hq.
          - subst q2. apply Forall_inv in H2. simpl in *. lia.
          - injection Hq as <- ->. apply Forall_inv in H1. simpl in *. lia. }
        rewrite Hq in Hdp. rewrite Forall_forall in H1, H2.
        assert (D <= d)%nat.
        { assert ((c, d) ∈ q1 ++ q2) as Hcd by (rewrite <- Hq; by left).
          apply elem_of_app in Hcd as [Hcd|Hcd]; [apply H1 in Hcd|apply H2 in Hcd]; simpl in *; lia. }
        apply elem_of_app in Hdp as [Hdp|Hdp]; [apply H1 in Hdp|apply H2 in Hdp]; simpl in *; lia.
      * exists (d + 1)%nat. split; [lia|]. apply Hall. right. apply Hpushed. split; [|done].
        by apply Hiff.
  - destruct q1 as [|e q1]; simpl in Hq.
    + subst q2. pose proof (Forall_inv H2) as Hd2. pose proof (Forall_inv_tail H2) as H2'.
      simpl in Hd2. subst d.
      exists (D + 1)%nat, q, pushed. split_and!; try done.
      * apply Forall_forall. intros [h m] [_ ->]%Hpushed. done.
      * apply Forall_app. split; [|by repeat constructor].
        eapply Forall_impl; [exact HP|]. simpl. lia.
    + injection Hq as <- ->. pose proof (Forall_inv H1) as Hd1. pose proof (Forall_inv_tail H1) as H1'.
      simpl in Hd1. subst d.
      exists D, q1, (q2 ++ pushed). split_and!; [by rewrite app_assoc|done| |].
      * apply Forall_app. split; [done|]. apply Forall_forall. intros [h m] [_ ->]%Hpushed. done.
      * apply Forall_app. split; [done|by repeat constructor].
Qed.

(** At most as many vertices are processed as there are commits. *)
Lemma bfs_size U lim start P q visited :
  bfs_inv U lim start P q visited -> (length P + length q <= size U)%nat.
Proof.
  intros Hinv. rewrite <- length_app, <- (length_fmap fst).
  rewrite <- (size_list_to_set (C := gset Hash)) by apply Hinv.
  apply subseteq_size. intros h. rewrite elem_of_list_to_set, list_elem_of_fmap.
  intros ([h' d] & -> & Hin). by eapply bfs_in.
Qed.

End bfs.
