(* ===== verification/Dag.v ===== *)
(** * Graph algorithms over commit DAGs ([epochs-core/src/dag/algorithms.rs])

    The algorithms read commits through the [DagStore] interface ([store/dag.rs]); of its
    methods they use [get_commit] only. The loops over the work list take fuel; the
    theorems give the fuel that is enough when the commits reached form a finite set. *)

From S2P Require Import Prelude Utf8 Hash Codec Record Commit Bfs.

(** The part of the [DagStore] trait the algorithms use. *)
Class DagStore (S : Type) := get_commit : Hash -> stM S EpochsError Commit.

(** What they rely on: reading a commit does not change the commits. *)
Class DagLaws (S : Type) `{!DagStore S} := {
  dag_commit : S -> Hash -> option Commit;
  dag_inv : S -> Prop;
  get_commit_law : forall s h r s',
    dag_inv s -> get_commit h s = (r, s') ->
    dag_inv s' /\ (forall k, dag_commit s' k = dag_commit s k) /\
    match r with
    | Ok c => dag_commit s h = Some c
    | Err _ => dag_commit s h = None
    | _ => False
    end
}.

Module Dag.
Section dag.
Context {S : Type} `{!DagStore S}.

Abbreviation M := (stM S EpochsError).

(** The loop of [collect_ancestors]; the code puts the parents at the back of the queue. *)
Fixpoint collect_loop (fuel : nat) (queue : list Hash) (ancestors : gset Hash) :
    M (gset Hash) :=
  match fuel with
  | O => no_fuel
  | Datatypes.S fuel =>
      match queue with
      | [] => mret ancestors
      | current :: queue =>
          if decide (current ∈ ancestors) then collect_loop fuel queue ancestors
          else
            commit ← get_commit current;
            collect_loop fuel (queue ++ parents commit) ({[ current ]} ∪ ancestors)
      end
  end.

Definition collect_ancestors (fuel : nat) (start : Hash) : M (gset Hash) :=
  collect_loop fuel [start] ∅.

(** [for parent in commit.parents { if visited.insert(parent) { queue.push_back(..) } }]. *)
Fixpoint push_new {A} (mk : Hash -> A) (ps : list Hash) (visited : gset Hash) (queue : list A) :
    gset Hash * list A :=
  match ps with
  | [] => (visited, queue)
  | parent :: ps =>
      if decide (parent ∈ visited) then push_new mk ps visited queue
      else push_new mk ps ({[ parent ]} ∪ visited) (queue ++ [mk parent])
  end.

(** The loop of [merge_base]. *)
Fixpoint merge_loop (fuel : nat) (ancestors_a : gset Hash) (queue : list Hash)
    (visited : gset Hash) : M (option Hash) :=
  match fuel with
  | O => no_fuel
  | Datatypes.S fuel =>
      match queue with
      | [] => mret None
      | current :: queue =>
          if decide (current ∈ ancestors_a) then mret (Some current)
          else
            commit ← get_commit current;
            let '(visited, queue) := push_new id (parents commit) visited queue in
            merge_loop fuel ancestors_a queue visited
      end
  end.

Definition merge_base (fuel : nat) (a b : Hash) : M (option Hash) :=
  if decide (a = b) then mret (Some a)
  else
    ancestors_a ← collect_ancestors fuel a;
    merge_loop fuel ancestors_a [b] {[ b ]}.

Definition is_ancestor (fuel : nat) (ancestor descendant : Hash) : M bool :=
  if decide (ancestor = descendant) then mret true
  else
    ancestors ← collect_ancestors fuel descendant;
    mret (bool_decide (ancestor ∈ ancestors)).

(** The loop of [ancestors_within_depth]. *)
Fixpoint depth_loop (fuel : nat) (max_depth : nat) (queue : list (Hash * nat))
    (visited : gset Hash) (result : list Hash) : M (list Hash) :=
  match fuel with
  | O => no_fuel
  | Datatypes.S fuel =>
      match queue with
      | [] => mret result
      | (current, depth) :: queue =>
          let result := if (0 <? depth)%nat then result ++ [current] else result in
          if (max_depth <=? depth)%nat then depth_loop fuel max_depth queue visited result
          else
            commit ← catch_err (fun _ => CommitNotFound current) (get_commit current);
            let '(visited, queue) :=
              push_new (fun parent => (parent, (depth + 1)%nat)) (parents commit) visited queue in
            depth_loop fuel max_depth queue visited result
      end
  end.

Definition ancestors_within_depth (fuel : nat) (start : Hash) (max_depth : nat) :
    M (list Hash) :=
  if decide (max_depth = 0%nat) then mret []
  else depth_loop fuel max_depth [(start, 0%nat)] {[ start ]} [].

End dag.
End Dag.

(** ** Reachability *)

Section reach.
Context {S : Type} `{DagLaws S}.

(** [p] is a parent of the commit [h]. *)
Definition parent_of (s : S) (h p : Hash) : Prop :=
  exists c, dag_commit s h = Some c /\ p ∈ parents c.

(** [a] is [h] or an ancestor of [h]. *)
Definition reaches (s : S) : Hash -> Hash -> Prop := rtc (parent_of s).

(** [a] is [n] generations above [h]. *)
Definition generations (s : S) (n : nat) (h a : Hash) : Prop := nsteps (parent_of s) n h a.

(** A finite set of commits that contains the parents of its commits. *)
Definition dag_closed (s : S) (U : gset Hash) : Prop :=
  forall h, h ∈ U -> exists c, dag_commit s h = Some c /\ forall p, p ∈ parents c -> p ∈ U.

(** States that hold the same commits. *)
Definition same_dag (s s' : S) : Prop :=
  dag_inv s' /\ forall h, dag_commit s' h = dag_commit s h.

Lemma same_dag_refl s : dag_inv s -> same_dag s s.
Proof. done. Qed.

Lemma same_dag_trans s1 s2 s3 : same_dag s1 s2 -> same_dag s2 s3 -> same_dag s1 s3.
Proof. intros [_ H1] [? H2]. split; [done|]. intros h. by rewrite H2, H1. Qed.

Lemma get_commit_ok s s1 U h :
  dag_closed s U -> same_dag s s1 -> h ∈ U ->
  exists c s2, get_commit h s1 = (Ok c, s2) /\ dag_commit s h = Some c /\
    (forall p, p ∈ parents c -> p ∈ U) /\ same_dag s s2.
Proof.
  intros HU [Hi Hs] Hh. destruct (HU h Hh) as (c & Hc & Hps).
  destruct (get_commit h s1) as [r s2] eqn:Hget.
  destruct (get_commit_law _ _ _ _ Hi Hget) as (Hi2 & Hs2 & Hr).
  assert (same_dag s s2) as Hsame by (split; [done|]; intros k; by rewrite Hs2).
  rewrite Hs in Hr. destruct r as [c'|e| |]; [|congruence|done..].
  exists c, s2. assert (c' = c) as -> by congruence. done.
Qed.

Lemma parent_of_eq s h c : dag_commit s h = Some c -> forall p, parent_of s h p <-> p ∈ parents c.
Proof. intros Hc p. split; [intros (c' & Hc' & ?); congruence|by exists c]. Qed.

(** ** [collect_ancestors] *)

(** The edges that leave a set of commits. *)
Definition out_edges (s : S) (X : gset Hash) : nat :=
  sum_list ((fun h => from_option (fun c => length (parents c)) 0%nat (dag_commit s h)) <$> elements X).

Lemma out_edges_remove s X h c :
  h ∈ X -> dag_commit s h = Some c ->
  out_edges s X = (length (parents c) + out_edges s (X ∖ {[ h ]}))%nat.
Proof.
  intros Hh Hc. unfold out_edges.
  assert (elements X ≡ₚ h :: elements (X ∖ {[ h ]})) as Hp.
  { rewrite (union_difference_singleton_L h X) at 1 by done.
    apply elements_union_singleton. set_solver. }
  rewrite Hp. simpl. by rewrite Hc.
Qed.

Lemma out_edges_mono s X Y : X ⊆ Y -> (out_edges s X <= out_edges s Y)%nat.
Proof.
  intros Hsub. unfold out_edges. rewrite (union_difference_L X Y Hsub) at 1.
  rewrite elements_disj_union by set_solver. rewrite fmap_app, sum_list_with_app || rewrite fmap_app, sum_list_app.
  lia.
Qed.

Definition collect_fuel (s : S) (U anc : gset Hash) (queue : list Hash) : nat :=
  (length queue + out_edges s (U ∖ anc))%nat.

Lemma collect_loop_ok s U fuel queue anc s1 :
  dag_closed s U -> same_dag s s1 -> (forall h, h ∈ queue -> h ∈ U) -> anc ⊆ U ->
  (collect_fuel s U anc queue < fuel)%nat ->
  (forall h p, h ∈ anc -> parent_of s h p -> p ∈ anc \/ p ∈ queue) ->
  exists anc' s2, Dag.collect_loop fuel queue anc s1 = (Ok anc', s2) /\ same_dag s s2 /\
    anc' ⊆ U /\ anc ⊆ anc' /\ (forall q, q ∈ queue -> q ∈ anc') /\
    (forall h p, h ∈ anc' -> parent_of s h p -> p ∈ anc') /\
    (forall h, h ∈ anc' -> h ∈ anc \/ exists q, q ∈ queue /\ reaches s q h).
Proof.
  intros HU. revert queue anc s1. induction fuel as [|fuel IH];
    intros queue anc s1 Hs1 Hq Hanc Hfuel Hcl; [lia|]. cbn [Dag.collect_loop].
  destruct queue as [|h queue].
  { exists anc, s1. split_and!; try done.
    - by intros q ?%not_elem_of_nil.
    - intros h p Hh Hp. by destruct (Hcl h p Hh Hp) as [?|?%not_elem_of_nil].
    - by left. }
  unfold collect_fuel in Hfuel. cbn [length] in Hfuel.
  assert (h ∈ U) as Hh by (apply Hq; left).
  assert (forall q, q ∈ queue -> q ∈ U) as Hq' by (intros; apply Hq; by right).
  case_decide as Hin.
  - destruct (IH queue anc s1) as (anc' & s2 & Hrun & Hs2 & Hsub & Hle & Hqs & Hcl' & Hsound);
      [done..|unfold collect_fuel; lia| |].
    { intros x p Hx Hp. destruct (Hcl x p Hx Hp) as [?|[->|?]%elem_of_cons]; auto. }
    exists anc', s2. split_and!; try done.
    + intros q [->|Hqin]%elem_of_cons; [by apply Hle|by apply Hqs].
    + intros k [?|(q & Hqin & Hr)]%Hsound; [by left|right; exists q; split; [by right|done]].
  - destruct (get_commit_ok s s1 U h HU Hs1 Hh) as (c & s2 & Hget & Hc & Hps & Hs2).
    rewrite (stM_bind_Ok _ _ _ _ _ Hget).
    destruct (IH (queue ++ parents c) ({[ h ]} ∪ anc) s2)
      as (anc' & s3 & Hrun & Hs3 & Hsub & Hle & Hqs & Hcl' & Hsound); [done|set_solver|set_solver| | |].
    + unfold collect_fuel. rewrite (out_edges_remove s _ h c) in Hfuel by set_solver.
      replace (U ∖ ({[ h ]} ∪ anc)) with (U ∖ anc ∖ {[ h ]}) by set_solver.
      rewrite length_app. lia.
    + intros x p [->%elem_of_singleton|Hx]%elem_of_union Hp.
      * right. apply elem_of_app. right. by apply (parent_of_eq _ _ _ Hc).
      * destruct (Hcl x p Hx Hp) as [?|[->|?]%elem_of_cons]; set_solver.
    + exists anc', s3. split_and!; try done; [set_solver|set_solver|].
      intros k [[->%elem_of_singleton|?]%elem_of_union|(q & [Hqin|Hqin]%elem_of_app & Hr)]%Hsound.
      * right. exists h. split; [by left|done].
      * by left.
      * right. exists q. split; [by right|done].
      * right. exists h. split; [by left|]. eapply rtc_l; [|exact Hr].
        by apply (parent_of_eq _ _ _ Hc).
Qed.

(** Whatever the fuel and the store, what the loop returns is reachable. *)
Lemma collect_loop_sound s fuel queue anc s1 anc' s2 :
  same_dag s s1 -> Dag.collect_loop fuel queue anc s1 = (Ok anc', s2) ->
  forall h, h ∈ anc' -> h ∈ anc \/ exists q, q ∈ queue /\ reaches s q h.
Proof.
  revert queue anc s1. induction fuel as [|fuel IH]; intros queue anc s1 Hs1 Hrun h Hh; [done|].
  cbn [Dag.collect_loop] in Hrun. destruct queue as [|c queue]; [left; by injection Hrun as <- _|].
  case_decide as Hin.
  { destruct (IH _ _ _ Hs1 Hrun h Hh) as [?|(q & ? & ?)]; [by left|right].
    exists q. split; [by right|done]. }
  rewrite stM_bind_eq in Hrun. destruct (get_commit c s1) as [r s1'] eqn:Hget.
  destruct (get_commit_law s1 c r s1' (proj1 Hs1) Hget) as (Hi & Hsame & Hr).
  destruct r as [cm| | |]; try done.
  assert (same_dag s s1') as Hs1' by (split; [done|]; intros k; by rewrite Hsame, (proj2 Hs1)).
  assert (dag_commit s c = Some cm) as Hc by (by rewrite <- (proj2 Hs1)).
  destruct (IH _ _ _ Hs1' Hrun h Hh) as [[->%elem_of_singleton|?]%elem_of_union|(q & [Hq|Hq]%elem_of_app & Hrc)].
  - right. exists c. split; [by left|done].
  - by left.
  - right. exists q. split; [by right|done].
  - right. exists c. split; [by left|]. eapply rtc_l; [|exact Hrc]. by apply (parent_of_eq _ _ _ Hc).
Qed.

Lemma is_ancestor_sound s fuel a d s2 :
  dag_inv s -> Dag.is_ancestor fuel a d s = (Ok true, s2) -> reaches s d a.
Proof.
  intros Hi. unfold Dag.is_ancestor. case_decide as Had; [subst; intros _; apply rtc_refl|].
  rewrite stM_bind_eq. destruct (Dag.collect_ancestors fuel d s) as [[anc| | |] s1] eqn:Hrun; try done.
  intros [= Hin _]. apply bool_decide_eq_true in Hin.
  destruct (collect_loop_sound s _ _ _ _ _ _ (same_dag_refl s Hi) Hrun a Hin)
    as [?%elem_of_empty|(q & ->%list_elem_of_singleton & ?)]; done.
Qed.

(** What reading a commit preserves, the loop preserves. *)
Lemma collect_loop_preserves (I : S -> Prop) fuel queue anc s :
  (forall h s, I s -> I (get_commit h s).2) -> I s -> I (Dag.collect_loop fuel queue anc s).2.
Proof.
  intros Hget. revert queue anc s. induction fuel as [|fuel IH]; intros queue anc s Hs; [done|].
  cbn [Dag.collect_loop]. destruct queue as [|h queue]; [done|]. case_decide; [by apply IH|].
  rewrite stM_bind_eq. specialize (Hget h s Hs). destruct (get_commit h s) as [[c| | |] s']; try done.
  by apply IH.
Qed.

Lemma collect_ancestors_ok s U fuel start s1 :
  dag_closed s U -> same_dag s s1 -> start ∈ U -> (1 + out_edges s U < fuel)%nat ->
  exists anc s2, Dag.collect_ancestors fuel start s1 = (Ok anc, s2) /\ same_dag s s2 /\
    anc ⊆ U /\ forall h, h ∈ anc <-> reaches s start h.
Proof.
  intros HU Hs1 Hstart Hfuel. unfold Dag.collect_ancestors.
  destruct (collect_loop_ok s U fuel [start] ∅ s1)
    as (anc & s2 & Hrun & Hs2 & Hsub & _ & Hqs & Hcl & Hsound); [done|done|set_solver|set_solver| |set_solver|].
  { unfold collect_fuel. simpl. rewrite difference_empty_L. lia. }
  exists anc, s2. split; [done|]. split; [done|]. split; [done|]. intros h. split.
  - intros [?|(q & ->%list_elem_of_singleton & Hr)]%Hsound; [set_solver|done].
  - assert (start ∈ anc) as Hin by (apply Hqs; left). intros Hr. revert Hin. clear -Hcl Hr.
    induction Hr as [x|x y z Hxy _ IHr]; [done|]. intros Hx. by apply IHr, (Hcl x).
Qed.

Lemma push_new_spec {A} (mk : Hash -> A) ps visited queue :
  exists new, Dag.push_new mk ps visited queue = (visited ∪ list_to_set new, queue ++ (mk <$> new)) /\
    NoDup new /\ (forall h, h ∈ new <-> h ∈ ps /\ h ∉ visited).
Proof.
  revert visited queue. induction ps as [|p ps IH]; intros visited queue; cbn [Dag.push_new].
  - exists []. rewrite app_nil_r, list_to_set_nil, union_empty_r_L. split; [done|].
    split; [constructor|]. intros h. rewrite elem_of_nil. naive_solver.
  - case_decide as Hp.
    + destruct (IH visited queue) as (new & -> & Hnd & Hnew). exists new. split; [done|].
      split; [done|]. intros h. rewrite Hnew, elem_of_cons. naive_solver.
    + destruct (IH ({[ p ]} ∪ visited) (queue ++ [mk p])) as (new & -> & Hnd & Hnew).
      exists (p :: new). split; [|split].
      * rewrite list_to_set_cons, fmap_cons, <- app_assoc.
        by rewrite (union_comm_L {[ p ]} visited), <- union_assoc_L.
      * constructor; [|done]. rewrite Hnew, not_elem_of_union, elem_of_singleton. naive_solver.
      * intros h. rewrite !elem_of_cons, Hnew, not_elem_of_union, elem_of_singleton.
        destruct (decide (h = p)) as [->|]; naive_solver.
Qed.

(** ** [merge_base] *)

Lemma merge_loop_ok s U b A fuel P q visited s1 :
  dag_closed s U -> same_dag s s1 -> bfs_inv (parent_of s) U (fun _ => True) b P q visited ->
  (forall h d, (h, d) ∈ P -> h ∉ A) -> (size U < fuel + length P)%nat ->
  exists r s2, Dag.merge_loop fuel A q.*1 visited s1 = (Ok r, s2) /\ same_dag s s2 /\
    match r with
    | Some h => h ∈ A /\ exists d, generations s d b h /\
                  forall n h', generations s n b h' -> h' ∈ A -> (d <= n)%nat
    | None => forall n h', generations s n b h' -> h' ∉ A
    end.
Proof.
  intros HU. revert P q visited s1. induction fuel as [|fuel IH];
    intros P q visited s1 Hs1 Hinv HP Hfuel.
  { pose proof (bfs_size _ _ _ _ _ _ _ Hinv). lia. }
  assert (forall n h, generations s n b h -> h ∈ A -> exists h0 m, (h0, m) ∈ q /\ (m <= n)%nat)
    as Hcov.
  { intros n h Hn HA. destruct (bfs_covers _ _ _ _ _ _ _ n h Hinv (fun _ _ => I) Hn) as [Hh|?]; [|done].
    apply list_elem_of_fmap in Hh as ([h' d] & -> & Hin). by apply HP in Hin. }
  destruct q as [|[c d] q]; cbn [fmap list_fmap fst Dag.merge_loop].
  { exists None, s1. split; [done|]. split; [done|]. intros n h Hn HA.
    by destruct (Hcov n h Hn HA) as (? & ? & ?%not_elem_of_nil & _). }
  case_decide as Hc.
  { exists (Some c), s1. split; [done|]. split; [done|]. split; [done|]. exists d. split.
    - eapply bfs_sound; [done|]. apply elem_of_app. right. by left.
    - intros n h Hn HA. destruct (Hcov n h Hn HA) as (h0 & m & Hin & Hm).
      pose proof (bfs_head_min _ _ _ _ _ _ _ _ _ _ _ Hinv Hin). lia. }
  assert (c ∈ U) as HcU by (eapply bfs_in; [done|apply elem_of_app; right; by left]).
  destruct (get_commit_ok s s1 U c HU Hs1 HcU) as (commit & s2 & Hget & Hcm & Hps & Hs2).
  rewrite (stM_bind_Ok _ _ _ _ _ Hget).
  destruct (push_new_spec id (parents commit) visited q.*1) as (new & Hpush & Hnd & Hnew).
  change (list_fmap (Hash * nat)%type Hash fst q) with (q.*1). rewrite Hpush.
  replace (q.*1 ++ (id <$> new)) with (q ++ ((fun p => (p, (d + 1)%nat)) <$> new)).*1
    by (rewrite fmap_app, <- list_fmap_compose; done).
  apply (IH (P ++ [(c, d)])); [done|by eapply (bfs_expand _ _ _ _ _ _ _ _ _ _ _ Hinv (parent_of_eq _ _ _ Hcm))| |].
  - intros h m [Hin|[= -> ->]%list_elem_of_singleton]%elem_of_app; [by eapply HP|done].
  - rewrite length_app. simpl. lia.
Qed.

(** ** [ancestors_within_depth] *)

(** [d] is the number of generations from [start] to [h] along a shortest path. *)
Definition distance (s : S) (start h : Hash) (d : nat) : Prop :=
  generations s d start h /\ forall n, generations s n start h -> (d <= n)%nat.

Definition depth_le (e e' : Hash * nat) : Prop := (e.2 <= e'.2)%nat.

(** What holds of the vertices processed so far, in order. *)
Record depth_inv (s : S) (start : Hash) (max : nat) (P q : list (Hash * nat)) : Prop := {
  di_sorted : StronglySorted depth_le P;
  di_below : forall e e', e ∈ P -> e' ∈ q -> depth_le e e';
  di_dist : forall h d, (h, d) ∈ P -> distance s start h d;
  di_max : forall e, e ∈ P ++ q -> (e.2 <= max)%nat
}.

Lemma bfs_head_distance s U start max P c d q visited :
  bfs_inv (parent_of s) U (fun m => m < max)%nat start P ((c, d) :: q) visited -> (d <= max)%nat ->
  distance s start c d.
Proof.
  intros Hinv Hd. split.
  - eapply bfs_sound; [done|]. apply elem_of_app. right. by left.
  - intros n Hn. destruct (decide (n <= max)%nat); [|lia].
    destruct (bfs_covers _ _ _ _ _ _ _ n c Hinv) as [Hc|(h0 & m & Hin & Hm)]; [|done| |].
    + intros m Hm. lia.
    + pose proof (bfs_nodup _ _ _ _ _ _ _ Hinv) as Hnd. rewrite fmap_app in Hnd.
      apply NoDup_app in Hnd as (_ & Hdis & _). destruct (Hdis c Hc). simpl. by left.
    + pose proof (bfs_head_min _ _ _ _ _ _ _ _ _ _ _ Hinv Hin). lia.
Qed.

(** The invariant as the head moves to the processed vertices and [new] vertices follow. *)
Lemma depth_inv_step s U start max P c d q visited new :
  bfs_inv (parent_of s) U (fun m => m < max)%nat start P ((c, d) :: q) visited ->
  depth_inv s start max P ((c, d) :: q) ->
  (forall e, e ∈ new -> e.2 = (d + 1)%nat /\ (d < max)%nat) ->
  depth_inv s start max (P ++ [(c, d)]) (q ++ new).
Proof.
  intros Hinv [Hs Hb Hdist Hmax] Hnew.
  assert (d <= max)%nat as Hd by (apply (Hmax (c, d)), elem_of_app; right; by left).
  constructor.
  - apply StronglySorted_app_2; [|done|by repeat constructor].
    intros e e' He ->%list_elem_of_singleton. apply Hb; [done|by left].
  - intros e e' [He| ->%list_elem_of_singleton]%elem_of_app [He'|He']%elem_of_app.
    + apply Hb; [done|by right].
    + pose proof (Hb e (c, d) He ltac:(by left)). apply Hnew in He' as [He' _].
      unfold depth_le in *. simpl in *. lia.
    + destruct e' as [h m]. eapply (bfs_head_min _ _ _ _ _ _ _ _ _ h m Hinv). by right.
    + apply Hnew in He' as [He' _]. unfold depth_le. simpl. lia.
  - intros h m [Hin|[= -> ->]%list_elem_of_singleton]%elem_of_app; [by apply Hdist|].
    by eapply bfs_head_distance.
  - intros e. rewrite <- app_assoc, elem_of_app. cbn [app]. rewrite elem_of_cons, elem_of_app.
    intros [He|[->|[He|He]]]; [apply Hmax, elem_of_app; by left|done|
      apply Hmax, elem_of_app; right; by right|]. apply Hnew in He. lia.
Qed.

Definition deep (P : list (Hash * nat)) : list (Hash * nat) := filter (fun e => 0 < e.2)%nat P.

Lemma deep_snoc P c d :
  (deep (P ++ [(c, d)])).*1 = if (0 <? d)%nat then (deep P).*1 ++ [c] else (deep P).*1.
Proof.
  unfold deep. rewrite filter_app, fmap_app, filter_cons. simpl.
  destruct (Nat.ltb_spec 0 d); [by rewrite decide_True|].
  rewrite decide_False by lia. simpl. by rewrite app_nil_r.
Qed.

Lemma depth_loop_ok s U start max fuel P q visited s1 :
  dag_closed s U -> same_dag s s1 ->
  bfs_inv (parent_of s) U (fun m => m < max)%nat start P q visited -> depth_inv s start max P q ->
  (size U < fuel + length P)%nat ->
  exists P' visited' s2,
    Dag.depth_loop fuel max q visited (deep P).*1 s1 = (Ok (deep P').*1, s2) /\ same_dag s s2 /\
    bfs_inv (parent_of s) U (fun m => m < max)%nat start P' [] visited' /\ depth_inv s start max P' [].
Proof.
  intros HU. revert P q visited s1. induction fuel as [|fuel IH];
    intros P q visited s1 Hs1 Hinv Hdi Hfuel.
  { pose proof (bfs_size _ _ _ _ _ _ _ Hinv). lia. }
  destruct q as [|[c d] q]; cbn [Dag.depth_loop]; [by exists P, visited, s1|].
  rewrite <- deep_snoc.
  assert ((size U < fuel + length (P ++ [(c, d)]))%nat) as Hfuel' by (rewrite length_app; simpl; lia).
  destruct (Nat.leb_spec max d) as [Hd|Hd].
  - apply IH; [done| | |done].
    + apply bfs_pop; [done|lia].
    + rewrite <- (app_nil_r q). eapply depth_inv_step; [done..|]. by intros e ?%not_elem_of_nil.
  - assert (c ∈ U) as HcU by (eapply bfs_in; [done|apply elem_of_app; right; by left]).
    destruct (get_commit_ok s s1 U c HU Hs1 HcU) as (commit & s2 & Hget & Hcm & Hps & Hs2).
    assert (catch_err (fun _ => CommitNotFound c) (get_commit c) s1 = (Ok commit, s2)) as Hget'
      by (unfold catch_err; by rewrite Hget).
    rewrite (stM_bind_Ok _ _ _ _ _ Hget').
    destruct (push_new_spec (fun parent => (parent, (d + 1)%nat)) (parents commit) visited q)
      as (new & -> & Hnd & Hnew).
    apply IH; [done|by eapply (bfs_expand _ _ _ _ _ _ _ _ _ _ _ Hinv (parent_of_eq _ _ _ Hcm))| |done].
    eapply depth_inv_step; [done..|]. intros e (p & -> & _)%list_elem_of_fmap. done.
Qed.

End reach.

(** ** Properties *)

Section properties.
Context {S : Type} `{DagLaws S}.

(** [collect_ancestors] terminates on a finite closed set of commits and returns exactly
    the commits reachable from the start along parents, the start included, without changing
    the commits. *)
Theorem collect_ancestors_correct (s : S) (U : gset Hash) (fuel : nat) (start : Hash) :
  dag_inv s -> dag_closed s U -> start ∈ U -> (1 + out_edges s U < fuel)%nat ->
  exists anc s', Dag.collect_ancestors fuel start s = (Ok anc, s') /\ same_dag s s' /\
    forall h, h ∈ anc <-> reaches s start h.
Proof.
  intros Hi HU Hstart Hfuel.
  destruct (collect_ancestors_ok s U fuel start s) as (anc & s' & ? & ? & _ & ?); try done.
  by exists anc, s'.
Qed.

(** C10: [merge_base] returns a common ancestor of the two commits, of those the one with the
    fewest generations from the second commit, and [None] exactly when they have none. *)
Theorem merge_base_correct (s : S) (U : gset Hash) (fuel : nat) (a b : Hash) :
  dag_inv s -> dag_closed s U -> a ∈ U -> b ∈ U ->
  (1 + out_edges s U < fuel)%nat -> (size U < fuel)%nat ->
  exists r s', Dag.merge_base fuel a b s = (Ok r, s') /\ same_dag s s' /\
    match r with
    | Some h => reaches s a h /\ exists d, generations s d b h /\
                  forall n h', reaches s a h' -> generations s n b h' -> (d <= n)%nat
    | None => forall h, reaches s a h -> ~ reaches s b h
    end.
Proof.
  intros Hi HU Ha Hb Hf1 Hf2. unfold Dag.merge_base. case_decide as Hab.
  { subst b. exists (Some a), s. split; [done|]. split; [done|]. split; [apply rtc_refl|].
    exists 0%nat. split; [constructor|]. intros. lia. }
  destruct (collect_ancestors_ok s U fuel a s) as (anc & s1 & Hrun & Hs1 & _ & Hanc); [done..|].
  rewrite (stM_bind_Ok _ _ _ _ _ Hrun).
  destruct (merge_loop_ok s U b anc fuel [] [(b, 0%nat)] {[ b ]} s1) as (r & s2 & Hm & Hs2 & Hr);
    [done|done|by apply bfs_init|by intros ? ? ?%not_elem_of_nil|simpl; lia|].
  exists r, s2. split; [done|]. split; [done|]. destruct r as [h|].
  - destruct Hr as (Hh & d & Hd & Hmin). split; [by apply Hanc|]. exists d. split; [done|].
    intros n h' Hh' Hn. by apply (Hmin n h'), Hanc.
  - intros h Hh [n Hn]%rtc_nsteps. by apply (Hr n h), Hanc.
Qed.

Lemma is_ancestor_ok (s : S) (U : gset Hash) (fuel : nat) (a d : Hash) :
  dag_inv s -> dag_closed s U -> d ∈ U -> (1 + out_edges s U < fuel)%nat ->
  exists r s', Dag.is_ancestor fuel a d s = (Ok r, s') /\ same_dag s s' /\
    (r = true <-> reaches s d a).
Proof.
  intros Hi HU Hd Hf. unfold Dag.is_ancestor. case_decide as Had.
  { subst d. exists true, s. split; [done|]. split; [done|]. split; [|done]. intros _. apply rtc_refl. }
  destruct (collect_ancestors_ok s U fuel d s) as (anc & s1 & Hrun & Hs1 & _ & Hanc); [done..|].
  rewrite (stM_bind_Ok _ _ _ _ _ Hrun). eexists _, s1. split; [done|]. split; [done|].
  by rewrite bool_decide_eq_true, Hanc.
Qed.

(** [is_ancestor] decides reachability along parents. *)
Theorem is_ancestor_correct (s : S) (U : gset Hash) (fuel : nat) (a d : Hash) :
  dag_inv s -> dag_closed s U -> d ∈ U -> (1 + out_edges s U < fuel)%nat ->
  exists r s', Dag.is_ancestor fuel a d s = (Ok r, s') /\ same_dag s s' /\
    (r = true <-> reaches s d a).
Proof. apply is_ancestor_ok. Qed.

(** C39: [ancestors_within_depth] returns the commits at a distance of 1 to [max_depth]
    generations from the start, each once, nearest first. *)
Theorem ancestors_within_depth_correct (s : S) (U : gset Hash) (fuel : nat) (start : Hash)
    (max_depth : nat) :
  dag_inv s -> dag_closed s U -> start ∈ U -> (size U < fuel)%nat ->
  exists l s', Dag.ancestors_within_depth fuel start max_depth s = (Ok l.*1, s') /\
    same_dag s s' /\ NoDup l.*1 /\ StronglySorted depth_le l /\
    forall h d, (h, d) ∈ l <-> (0 < d <= max_depth)%nat /\ distance s start h d.
Proof.
  intros Hi HU Hstart Hf. unfold Dag.ancestors_within_depth. case_decide as Hmax.
  { exists [], s. split; [done|]. split; [done|]. split; [constructor|]. split; [constructor|].
    intros h d. rewrite elem_of_nil. split; [done|]. intros [? _]. lia. }
  destruct (depth_loop_ok s U start max_depth fuel [] [(start, 0%nat)] {[ start ]} s)
    as (P & visited & s' & Hrun & Hs' & Hinv & [Hsort _ Hdist Hm]);
    [done|done|by apply bfs_init| |simpl; lia|].
  { constructor; [constructor|by intros ? ? ?%not_elem_of_nil|by intros ? ? ?%not_elem_of_nil|].
    intros e ->%list_elem_of_singleton. simpl. lia. }
  exists (deep P), s'. split; [exact Hrun|]. split; [done|].
  pose proof (bfs_nodup _ _ _ _ _ _ _ Hinv) as Hnd. rewrite app_nil_r in Hnd, Hm.
  split; [|split].
  - unfold deep. eapply sublist_NoDup; [exact Hnd|]. apply fmap_sublist, sublist_filter.
  - by apply StronglySorted_filter.
  - intros h d. unfold deep. rewrite list_elem_of_filter. simpl. split.
    + intros [Hd Hin]. split; [|by apply Hdist]. apply Hm in Hin as Hle. simpl in Hle. lia.
    + intros [Hd [Hgen Hmin]]. split; [lia|].
      destruct (bfs_covers _ _ _ _ _ _ _ d h Hinv) as [Hin|(? & ? & ?%not_elem_of_nil & _)];
        [intros; lia|done| |done].
      apply list_elem_of_fmap in Hin as ([h' d'] & -> & Hin). simpl in *.
      destruct (Hdist _ _ Hin) as [Hgen' Hmin'].
      assert (d = d') as -> by (apply Nat.le_antisymm; auto). done.
Qed.

End properties.

(** ** The properties at work: commits in a map *)

Definition MemDag : Type := gmap Hash Commit.

#[global] Instance MemDag_store : DagStore MemDag :=
  fun h s => (ok_or (CommitNotFound h) (s !! h), s).

#[global] Program Instance MemDag_laws : DagLaws MemDag := {
  dag_commit s h := s !! h;
  dag_inv _ := True
}.
Next Obligation. intros s h r s' _ [= <- <-]. split; [done|]. split; [done|]. by destruct (s !! h). Qed.

Section witnesses.

(** A diamond: 1 is the root, 2 and 3 are its children, 4 merges them. *)
Definition ex_hash (n : Z) : Hash := from_bytes [as_u8 n].
Definition ex_commit (ps : list Z) : Commit := new_commit (ex_hash <$> ps) ZERO 0 "".
Definition ex_dag : MemDag :=
  {[ ex_hash 1 := ex_commit []; ex_hash 2 := ex_commit [1]; ex_hash 3 := ex_commit [1];
     ex_hash 4 := ex_commit [2; 3] ]}.

Lemma mem_dag_closed (s : MemDag) :
  map_Forall (fun _ c => Forall (fun p => p ∈ dom s) (parents c)) s -> dag_closed s (dom s).
Proof.
  intros HF h [c Hc]%elem_of_dom. exists c. split; [done|]. intros p Hp.
  pose proof (HF h c Hc) as Hps. rewrite Forall_forall in Hps. by apply Hps.
Qed.

Lemma ex_closed : dag_closed ex_dag (dom ex_dag).
Proof. apply mem_dag_closed. apply (bool_decide_unpack _). vm_compute. exact I. Qed.

Lemma collect_ancestors_correct_witness :
  exists anc s', Dag.collect_ancestors 10 (ex_hash 4) ex_dag = (Ok anc, s') /\
    same_dag ex_dag s' /\ forall h, h ∈ anc <-> reaches ex_dag (ex_hash 4) h.
Proof.
  apply (collect_ancestors_correct ex_dag (dom ex_dag) 10 (ex_hash 4)).
  - exact I.
  - apply ex_closed.
  - apply (bool_decide_unpack _). vm_compute. exact I.
  - apply Nat.ltb_lt. vm_compute. reflexivity.
Defined.

Lemma merge_base_correct_witness :
  exists r s', Dag.merge_base 10 (ex_hash 2) (ex_hash 3) ex_dag = (Ok r, s') /\
    same_dag ex_dag s' /\
    match r with
    | Some h => reaches ex_dag (ex_hash 2) h /\ exists d, generations ex_dag d (ex_hash 3) h /\
        forall n h', reaches ex_dag (ex_hash 2) h' -> generations ex_dag n (ex_hash 3) h' ->
          (d <= n)%nat
    | None => forall h, reaches ex_dag (ex_hash 2) h -> ~ reaches ex_dag (ex_hash 3) h
    end.
Proof.
  apply (merge_base_correct ex_dag (dom ex_dag) 10 (ex_hash 2) (ex_hash 3)).
  - exact I.
  - apply ex_closed.
  - apply (bool_decide_unpack _). vm_compute. exact I.
  - apply (bool_decide_unpack _). vm_compute. exact I.
  - apply Nat.ltb_lt. vm_compute. reflexivity.
  - apply Nat.ltb_lt. vm_compute. reflexivity.
Defined.

Lemma is_ancestor_correct_witness :
  exists r s', Dag.is_ancestor 10 (ex_hash 1) (ex_hash 4) ex_dag = (Ok r, s') /\
    same_dag ex_dag s' /\ (r = true <-> reaches ex_dag (ex_hash 4) (ex_hash 1)).
Proof.
  apply (is_ancestor_correct ex_dag (dom ex_dag) 10 (ex_hash 1) (ex_hash 4)).
  - exact I.
  - apply ex_closed.
  - apply (bool_decide_unpack _). vm_compute. exact I.
  - apply Nat.ltb_lt. vm_compute. reflexivity.
Defined.

Lemma ancestors_within_depth_correct_witness :
  exists l s', Dag.ancestors_within_depth 10 (ex_hash 4) 1 ex_dag = (Ok l.*1, s') /\
    same_dag ex_dag s' /\ NoDup l.*1 /\ StronglySorted depth_le l /\
    forall h d, (h, d) ∈ l <-> (0 < d <= 1)%nat /\ distance ex_dag (ex_hash 4) h d.
Proof.
  apply (ancestors_within_depth_correct ex_dag (dom ex_dag) 10 (ex_hash 4) 1).
  - exact I.
  - apply ex_closed.
  - apply (bool_decide_unpack _). vm_compute. exact I.
  - apply Nat.ltb_lt. vm_compute. reflexivity.
Defined.

End witnesses.
