(* ===== verification/Repo.v ===== *)
(** * Refs and HEAD ([epochs-core/src/repo/manifest.rs])

    The directory [refs/heads] is a map from relative paths to files and directories. The
    name of a branch is joined to it as a path ([branch_ref_path]), so that different names,
    such as [main] and [./main], may be one file: [ref_path] gives the file that a name
    leads to, and how the name ends. A name with a [..] component, an absolute name and a
    name with a NUL byte lead out of [refs/heads], to files that the model does not have: for
    these it has no answer ([OutOfFuel]). The contents of [HEAD] are optional bytes. *)

From Stdlib Require Import Strings.Byte.
From S2P Require Import Prelude Utf8 Hash Commit.

Inductive ref_node := RefFile (contents : list byte) | RefDir.

#[global] Instance ref_node_eq_dec : EqDecision ref_node.
Proof. solve_decision. Defined.

Record Repo := mk_Repo {
  repo_refs : gmap string ref_node;       (* refs/heads, by relative path *)
  repo_head_file : option (list byte);    (* HEAD *)
  repo_head : option string               (* the field head *)
}.

Definition newline : list byte := [as_u8 10].
Definition head_prefix : list byte := str_bytes "ref: refs/heads/".
Definition head_line (branch : string) : list byte := head_prefix ++ str_bytes branch ++ newline.
Definition ref_line (target : Hash) : list byte := str_bytes (to_string target) ++ newline.

(** ** Paths *)

Fixpoint split_slash (l : list byte) : list (list byte) :=
  match l with
  | [] => [[]]
  | b :: l =>
      match split_slash l with
      | [] => [[b]]
      | w :: ws => if decide (b = "/"%byte) then [] :: w :: ws else (b :: w) :: ws
      end
  end.

Fixpoint join_slash (ws : list (list byte)) : list byte :=
  match ws with
  | [] => []
  | [w] => w
  | w :: ws => w ++ "/"%byte :: join_slash ws
  end.

Definition dot : list byte := ["."%byte].
Definition dot_dot : list byte := ["."%byte; "."%byte].

(** How a path ends: in a name, in a slash, or in the component [.]. *)
Inductive ending := Plain | Slash | Dot.

#[global] Instance ending_eq_dec : EqDecision ending.
Proof. solve_decision. Defined.

Definition path_ending (ws : list (list byte)) : ending :=
  if decide (last (filter (fun w => w ≠ []) ws) = Some dot) then Dot
  else if decide (last ws = Some []) then Slash
  else Plain.

(** [branch_ref_path], as the system follows it: the path below [refs/heads] without its
    empty and [.] components. *)
Definition ref_path (name : string) : option (string * ending) :=
  let l := str_bytes name in
  let ws := split_slash l in
  if decide (x00 ∈ l \/ dot_dot ∈ ws \/ head l = Some "/"%byte) then None
  else Some (bytes_str (join_slash (filter (fun w => w ≠ [] /\ w ≠ dot) ws)), path_ending ws).

(** The file that a name can be the branch of. *)
Definition branch_key (name : string) : option string :=
  match ref_path name with
  | Some (k, Plain) => Some k
  | _ => None
  end.

(** A name that is the path of its file. *)
Definition plain_name (name : string) : Prop := branch_key name = Some name.

#[global] Instance plain_name_dec name : Decision (plain_name name).
Proof. apply _. Defined.

Definition is_dir_msg : string := "Is a directory (os error 21)".
Definition not_dir_msg : string := "Not a directory (os error 20)".
Definition exists_msg : string := "File exists (os error 17)".
Definition no_entry_msg : string := "No such file or directory (os error 2)".
Definition bad_utf8_msg : string := "stream did not contain valid UTF-8".

(** [str::strip_prefix]. *)
Definition strip_prefix (p l : list byte) : option (list byte) :=
  if decide (take (length p) l = p) then Some (drop (length p) l) else None.

(** The proper prefixes of a path that name its parent directories. *)
Fixpoint parent_dirs (before l : list byte) : list string :=
  match l with
  | [] => []
  | b :: l =>
      (if decide (b = "/"%byte) then [bytes_str before] else []) ++ parent_dirs (before ++ [b]) l
  end.

(** [fs::read_to_string]. *)
Definition read_to_string (contents : list byte) : Result (list byte) :=
  match from_utf8 contents with
  | Ok _ => Ok contents
  | _ => Err (Io bad_utf8_msg)
  end.

Module RepoOps.

Abbreviation M := (stM Repo EpochsError).

Definition set_refs (refs : gmap string ref_node) (r : Repo) : Repo :=
  mk_Repo refs (repo_head_file r) (repo_head r).

(** [Repo::init] in a directory with the given refs and HEAD. *)
Definition init (refs : gmap string ref_node) (head_file : option (list byte)) : Repo :=
  let head_file := match head_file with
                   | None => Some (head_line "main")
                   | Some f => Some f
                   end in
  mk_Repo refs head_file (Some "main").

(** [Repo::read_head]. *)
Definition read_head (head_file : option (list byte)) : Result (option string) :=
  match head_file with
  | None => Ok None
  | Some contents =>
      contents ← read_to_string contents;
      match strip_prefix head_prefix (trim contents) with
      | Some branch => Ok (Some (bytes_str branch))
      | None => Ok None
      end
  end.

(** [Repo::open]; [data_exists] tells whether there is a directory [data]. *)
Definition open (path : string) (data_exists : bool) (refs : gmap string ref_node)
    (head_file : option (list byte)) : Result Repo :=
  if negb data_exists then Err (Io ("not an epochs repository: " +:+ path))
  else
    head ← read_head head_file;
    Ok (mk_Repo refs head_file head).

Definition head_branch (r : Repo) : option string := repo_head r.

(** What is at a path; the empty path is [refs/heads] itself. *)
Definition node_at (key : string) (r : Repo) : option ref_node :=
  if decide (key = EmptyString) then Some RefDir else repo_refs r !! key.

(** What the system finds under a name: a path that ends in a slash or [.] finds only a
    directory. [None] for the names that lead out of [refs/heads]. *)
Definition stat (name : string) (r : Repo) : option (option ref_node) :=
  match ref_path name with
  | None => None
  | Some (key, Plain) => Some (node_at key r)
  | Some (key, _) =>
      Some (match node_at key r with Some RefDir => Some RefDir | _ => None end)
  end.

Definition set_head (branch : string) : M unit := fun r =>
  match stat branch r with
  | None => (OutOfFuel, r)
  | Some None => (Err (BranchNotFound branch), r)
  | Some (Some _) => (Ok tt, mk_Repo (repo_refs r) (Some (head_line branch)) (Some branch))
  end.

Definition read_branch (name : string) (r : Repo) : Result Branch :=
  match stat name r with
  | None => OutOfFuel
  | Some None => Err (BranchNotFound name)
  | Some (Some RefDir) => Err (Io is_dir_msg)
  | Some (Some (RefFile contents)) =>
      contents ← read_to_string contents;
      target ← from_hex (bytes_str (trim contents));
      Ok (mk_Branch name target)
  end.

(** [fs::create_dir_all] on the parent of a ref. *)
Fixpoint create_dirs (dirs : list string) : M unit :=
  match dirs with
  | [] => mret tt
  | d :: dirs =>
      _ ← (fun r =>
        match repo_refs r !! d with
        | None => (Ok tt, set_refs (<[d := RefDir]> (repo_refs r)) r)
        | Some RefDir => (Ok tt, r)
        | Some (RefFile _) =>
            (Err (Io (if decide (dirs = []) then exists_msg else not_dir_msg)), r)
        end);
      create_dirs dirs
  end.

(** [fs::write] of a ref: the file is opened, or created, under its name. *)
Definition write_ref (key : string) (e : ending) (contents : list byte) : M unit := fun r =>
  match node_at key r, e with
  | Some RefDir, _ => (Err (Io is_dir_msg), r)
  | _, Plain => (Ok tt, set_refs (<[key := RefFile contents]> (repo_refs r)) r)
  | _, Slash => (Err (Io is_dir_msg), r)
  | Some (RefFile _), Dot => (Err (Io not_dir_msg), r)
  | None, Dot => (Err (Io no_entry_msg), r)
  end.

Definition write_branch (name : string) (target : Hash) : M unit :=
  match ref_path name with
  | None => no_fuel
  | Some (key, e) =>
      _ ← create_dirs (parent_dirs [] (str_bytes key));
      write_ref key e (ref_line target)
  end.

Definition create_branch (name : string) (target : Hash) : M unit := fun r =>
  match stat name r with
  | None => (OutOfFuel, r)
  | Some (Some _) => (Err (BranchExists name), r)
  | Some None => write_branch name target r
  end.

Definition update_branch (name : string) (target : Hash) : M unit := fun r =>
  match stat name r with
  | None => (OutOfFuel, r)
  | Some None => (Err (BranchNotFound name), r)
  | Some (Some _) => write_branch name target r
  end.

(** The guard compares the names, not the files. *)
Definition delete_branch (name : string) : M unit := fun r =>
  if decide (repo_head r = Some name) then
    (Err (InvalidTarget ("cannot delete HEAD branch '" +:+ name +:+ "'")), r)
  else
    match ref_path name, stat name r with
    | Some (key, _), Some (Some (RefFile _)) => (Ok tt, set_refs (delete key (repo_refs r)) r)
    | Some _, Some (Some RefDir) => (Err (Io is_dir_msg), r)   (* remove_file on a directory *)
    | Some _, Some None => (Err (BranchNotFound name), r)
    | _, _ => (OutOfFuel, r)
    end.

(** The names of the files directly in [refs/heads], sorted. *)
Definition listed (e : string * ref_node) : bool :=
  match e.2 with
  | RefFile _ => negb (bool_decide ("/"%byte ∈ str_bytes e.1))
  | RefDir => false
  end.

Definition list_branches (r : Repo) : list string :=
  (filter (fun e => listed e = true) (btree_entries (repo_refs r))).*1.

End RepoOps.

(** ** Lemmas *)

Lemma hex_digit_graph n : 0 <= n < 16 -> ascii_graph (hex_digit n) = true /\ is_ascii (hex_digit n) = true.
Proof.
  intros Hn. assert (n ∈ seqZ 0 16) as Hin by (apply elem_of_seqZ; lia).
  clear Hn. revert n Hin. apply Forall_forall. repeat constructor.
Qed.

Lemma hex_byte_graph b : Forall (fun c => ascii_graph c = true /\ is_ascii c = true) (hex_byte b).
Proof.
  pose proof (byte_val_range b). unfold hex_byte. repeat constructor.
  all: apply hex_digit_graph; Z.div_mod_to_equations; lia.
Qed.

Lemma to_string_graph h :
  Forall (fun c => ascii_graph c = true /\ is_ascii c = true) (str_bytes (to_string h)).
Proof.
  rewrite str_bytes_to_string. generalize (as_bytes h). intros l.
  induction l as [|b l IH]; [constructor|].
  change ((b :: l) ≫= hex_byte) with (hex_byte b ++ (l ≫= hex_byte)).
  apply Forall_app. split; [apply hex_byte_graph|done].
Qed.

Lemma trim_line l b0 b1 :
  ascii_graph b0 = true -> ascii_graph b1 = true ->
  trim (b0 :: (l ++ [b1]) ++ newline) = b0 :: l ++ [b1].
Proof.
  intros H0 H1. unfold trim. rewrite trim_start_graph by done.
  change (b0 :: (l ++ [b1]) ++ newline) with (((b0 :: l) ++ [b1]) ++ [as_u8 10]).
  by rewrite trim_end_newline.
Qed.

Lemma read_to_string_ascii l :
  Forall (fun b => is_ascii b = true) l -> read_to_string l = Ok l.
Proof. intros Hl. unfold read_to_string, from_utf8. by rewrite run_utf8_ascii. Qed.

Lemma strip_prefix_app p l : strip_prefix p (p ++ l) = Some l.
Proof. unfold strip_prefix. by rewrite take_app_length, decide_True, drop_app_length. Qed.

Lemma head_line_trim name l b :
  str_bytes name = l ++ [b] -> ascii_graph b = true ->
  trim (head_line name) = head_prefix ++ str_bytes name.
Proof.
  intros Hn Hb. unfold head_line. rewrite Hn, (app_assoc head_prefix), app_assoc.
  change head_prefix with ("r"%byte :: str_bytes "ef: refs/heads/"). cbn [app].
  by apply trim_line.
Qed.

(** The contents of a ref give its hash back. *)
Lemma ref_line_read h :
  read_to_string (ref_line h) = Ok (ref_line h) /\ trim (ref_line h) = str_bytes (to_string h).
Proof.
  pose proof (to_string_graph h) as Hg. split.
  - apply read_to_string_ascii. unfold ref_line. apply Forall_app. split; [|by repeat constructor].
    eapply Forall_impl; [exact Hg|]. naive_solver.
  - unfold ref_line.
    assert (length (str_bytes (to_string h)) = 64%nat) as Hlen
      by (rewrite str_bytes_to_string, length_hex, length_as_bytes; done).
    destruct (str_bytes (to_string h)) as [|b0 r]; [done|].
    destruct r as [|b1 r _] using rev_ind; [done|].
    apply Forall_cons in Hg as [[H0 _] Hg]. apply Forall_app in Hg as [_ Hg].
    apply Forall_inv in Hg as [H1 _]. by apply trim_line.
Qed.

(** ** Names and paths *)

Lemma split_slash_flat l : "/"%byte ∉ l -> split_slash l = [l].
Proof.
  induction l as [|b l IH]; [done|]. intros [Hb Hl]%not_elem_of_cons. cbn [split_slash].
  rewrite IH by done. by rewrite decide_False by congruence.
Qed.

(** A name without a slash is the path of its file, the special names apart. *)
Lemma ref_path_flat name :
  "/"%byte ∉ str_bytes name ->
  ref_path name =
    if decide (x00 ∈ str_bytes name \/ str_bytes name = dot_dot) then None
    else if decide (str_bytes name = []) then Some (EmptyString, Slash)
    else if decide (str_bytes name = dot) then Some (EmptyString, Dot)
    else Some (name, Plain).
Proof.
  intros Hs. unfold ref_path. rewrite split_slash_flat by done.
  assert ((x00 ∈ str_bytes name \/ dot_dot ∈ [str_bytes name] \/ head (str_bytes name) = Some "/"%byte) <->
    (x00 ∈ str_bytes name \/ str_bytes name = dot_dot)) as Hiff.
  { rewrite list_elem_of_singleton. split; [|naive_solver]. intros [?|[?|Hh]]; [naive_solver..|].
    destruct (str_bytes name) as [|b l]; [done|]. injection Hh as ->. destruct Hs. by left. }
  case_decide as H1; case_decide as H2; [done|tauto|tauto|]. clear H1 Hiff.
  unfold path_ending. destruct (decide (str_bytes name = [])) as [E|Hne].
  { rewrite E. reflexivity. }
  destruct (decide (str_bytes name = dot)) as [->|Hd]; [reflexivity|].
  rewrite (filter_cons_True (fun w => w ≠ [] /\ w ≠ dot)) by done.
  rewrite (filter_cons_True (fun w => w ≠ [])) by done. cbn [filter list_filter last join_slash].
  rewrite bytes_str_bytes. rewrite decide_False by congruence. by rewrite decide_False by congruence.
Qed.

Lemma branch_key_flat name k : "/"%byte ∉ str_bytes name -> branch_key name = Some k -> k = name.
Proof.
  intros Hs. unfold branch_key. rewrite ref_path_flat by done. repeat case_decide; naive_solver.
Qed.

Lemma branch_key_nonempty name k : branch_key name = Some k -> k ≠ EmptyString.
Proof.
  unfold branch_key, ref_path. case_decide as Hd; [done|]. set (ws := split_slash (str_bytes name)) in *.
  unfold path_ending. case_decide as Hdot; [done|]. case_decide as Hlast; [done|]. intros [= <-] E.
  apply (f_equal str_bytes) in E. rewrite str_bytes_str in E. change (str_bytes "") with (@nil byte) in E.
  assert (exists w, last ws = Some w /\ w ≠ []) as (w & Hw & Hne).
  { destruct (last ws) as [w|] eqn:Hw; [exists w; split; [done|congruence]|].
    exfalso. apply last_None in Hw. unfold ws in Hw. revert Hw. clear. generalize (str_bytes name).
    intros l. destruct l; cbn [split_slash]; [done|]. case_match; [done|]. by case_decide. }
  apply last_Some in Hw as [l' El]. rewrite El in *.
  rewrite filter_app, filter_cons_True, filter_nil, last_snoc in Hdot by done.
  rewrite filter_app, filter_cons_True, filter_nil in E by (split; congruence).
  destruct (filter _ l') as [|w0 rest]; [done|]. cbn in E. destruct (rest ++ [w]) eqn:Er.
  - by apply app_nil in Er as [_ ?].
  - apply app_nil in E as [_ E]. done.
Qed.

Lemma stat_key name k r : branch_key name = Some k -> RepoOps.stat name r = Some (repo_refs r !! k).
Proof.
  intros Hk. pose proof (branch_key_nonempty _ _ Hk) as Hne. unfold branch_key in Hk. unfold RepoOps.stat.
  destruct (ref_path name) as [[k' []]|]; [|done..]. injection Hk as ->. unfold RepoOps.node_at.
  by rewrite decide_False.
Qed.

(** Only a name with a key finds a file. *)
Lemma stat_file name r c :
  RepoOps.stat name r = Some (Some (RefFile c)) <->
  exists k, branch_key name = Some k /\ repo_refs r !! k = Some (RefFile c).
Proof.
  split.
  - intros Hs. destruct (branch_key name) as [k|] eqn:Hk.
    + rewrite (stat_key name k) in Hs by done. exists k. split; [done|congruence].
    + unfold RepoOps.stat, branch_key in *. destruct (ref_path name) as [[k []]|]; try done.
      all: by destruct (RepoOps.node_at k r) as [[]|].
  - intros (k & Hk & Hc). rewrite (stat_key name k) by done. by rewrite Hc.
Qed.

(** What a ref says. *)
Definition ref_target (contents : list byte) : Result Hash :=
  contents ← read_to_string contents;
  from_hex (bytes_str (trim contents)).

Lemma read_branch_ok name r b :
  RepoOps.read_branch name r = Ok b <->
  exists k c, branch_key name = Some k /\ repo_refs r !! k = Some (RefFile c) /\
    ref_target c = Ok (branch_target b) /\ branch_name b = name.
Proof.
  unfold RepoOps.read_branch, ref_target. split.
  - destruct (RepoOps.stat name r) as [[[c|]|]|] eqn:Hs; try done.
    apply stat_file in Hs as (k & Hk & Hc). intros (c' & Hr & (h & Hh & [= <-])%outcome_bind_Ok)%outcome_bind_Ok.
    exists k, c. split_and!; try done. by rewrite Hr.
  - intros (k & c & Hk & Hc & Ht & Hn). rewrite (stat_key name k), Hc by done. destruct b as [n h]. cbn in *. subst n.
    apply outcome_bind_Ok in Ht as (c' & -> & Hh). cbn [mbind outcome_bind]. by rewrite Hh.
Qed.

Lemma ref_target_line h : ref_target (ref_line h) = Ok h.
Proof.
  unfold ref_target. destruct (ref_line_read h) as [-> Ht]. cbn [mbind outcome_bind].
  by rewrite Ht, bytes_str_bytes, from_hex_to_string.
Qed.

Lemma read_written name k target refs hf hd :
  branch_key name = Some k -> refs !! k = Some (RefFile (ref_line target)) ->
  RepoOps.read_branch name (mk_Repo refs hf hd) = Ok (mk_Branch name target).
Proof.
  intros Hk Hn. apply read_branch_ok. exists k, (ref_line target). split_and!; try done.
  apply ref_target_line.
Qed.

(** Creating directories adds nothing but directories. *)
Lemma create_dirs_ok dirs r :
  match RepoOps.create_dirs dirs r with
  | (Ok _, r') | (Err _, r') =>
      repo_head_file r' = repo_head_file r /\ repo_head r' = repo_head r /\
      (forall n x, repo_refs r !! n = Some x -> repo_refs r' !! n = Some x) /\
      (forall n, n ∉ dirs -> repo_refs r' !! n = repo_refs r !! n)
  | _ => False
  end.
Proof.
  revert r. induction dirs as [|d dirs IH]; intros r; cbn [RepoOps.create_dirs]; [done|].
  rewrite stM_bind_eq. destruct (repo_refs r !! d) as [[c|]|] eqn:Hd; [done| |].
  - specialize (IH r). destruct (RepoOps.create_dirs dirs r) as [[] ?]; try done;
      destruct IH as (? & ? & ? & Ho); split_and!; try done; intros; apply Ho; set_solver.
  - specialize (IH (RepoOps.set_refs (<[d := RefDir]> (repo_refs r)) r)).
    destruct (RepoOps.create_dirs dirs _) as [[] ?]; try done;
      destruct IH as (H1 & H2 & H3 & H4); (split_and!; [exact H1|exact H2| |]).
    1,3: intros n x Hn; apply H3; simpl; rewrite lookup_insert_ne; [done|congruence].
    all: intros n Hn; rewrite H4 by set_solver; simpl; rewrite lookup_insert_ne; set_solver.
Qed.

Lemma parent_dirs_shorter before l d :
  d ∈ parent_dirs before l -> (length (str_bytes d) < length before + length l)%nat.
Proof.
  revert before. induction l as [|b l IH]; intros before; cbn [parent_dirs].
  - by intros ?%not_elem_of_nil.
  - intros [Hd|Hd]%elem_of_app.
    + case_decide; [|by apply not_elem_of_nil in Hd]. apply list_elem_of_singleton in Hd as ->.
      rewrite str_bytes_str. simpl. lia.
    + apply IH in Hd. rewrite length_app in Hd. simpl in *. lia.
Qed.

Lemma write_branch_ok name target r :
  match RepoOps.write_branch name target r with
  | (Ok _, r') =>
      RepoOps.read_branch name r' = Ok (mk_Branch name target) /\
      repo_head r' = repo_head r /\ repo_head_file r' = repo_head_file r /\
      (forall n b, branch_key n ≠ branch_key name ->
         RepoOps.read_branch n r = Ok b -> RepoOps.read_branch n r' = Ok b)
  | (Err _, r') =>
      forall n b, RepoOps.read_branch n r = Ok b -> RepoOps.read_branch n r' = Ok b
  | (OutOfFuel, r') => ref_path name = None /\ r' = r
  | _ => False
  end.
Proof.
  unfold RepoOps.write_branch. destruct (ref_path name) as [[key e]|] eqn:Hp; [|done].
  rewrite stM_bind_eq.
  pose proof (create_dirs_ok (parent_dirs [] (str_bytes key)) r) as Hdirs.
  destruct (RepoOps.create_dirs _ r) as [[u|x| |] r1]; try done;
    destruct Hdirs as (Hf & Hh & Hle & _);
    (assert (forall n b, RepoOps.read_branch n r = Ok b -> RepoOps.read_branch n r1 = Ok b) as Hkeep by
      (intros n b; rewrite !read_branch_ok; intros (k & c & ? & Hc & ?); exists k, c;
       split; [done|]; split; [by apply Hle|done])); [|done].
  unfold RepoOps.write_ref.
  assert (branch_key name = Some key -> match (Ok tt, RepoOps.set_refs (<[key := RefFile (ref_line target)]> (repo_refs r1)) r1) : Result unit * Repo with
    | (Ok _, r') =>
      RepoOps.read_branch name r' = Ok (mk_Branch name target) /\
      repo_head r' = repo_head r /\ repo_head_file r' = repo_head_file r /\
      (forall n b, branch_key n ≠ branch_key name ->
         RepoOps.read_branch n r = Ok b -> RepoOps.read_branch n r' = Ok b)
    | _ => False end) as Hw.
  { intros Hk. split; [apply (read_written name key); [done|apply lookup_insert_eq]|]. split; [done|]. split; [done|].
    intros n b Hn (k & c & Hk' & Hc & Ht)%Hkeep%read_branch_ok. apply read_branch_ok. exists k, c.
    split; [done|]. split; [|done]. cbn. rewrite lookup_insert_ne; [done|congruence]. }
  unfold branch_key in Hw at 1. rewrite Hp in Hw.
  destruct (RepoOps.node_at key r1) as [[c|]|], e; try done; by apply Hw.
Qed.

Lemma list_branches_elem r n :
  n ∈ RepoOps.list_branches r <->
  (exists c, repo_refs r !! n = Some (RefFile c)) /\ "/"%byte ∉ str_bytes n.
Proof.
  unfold RepoOps.list_branches. rewrite list_elem_of_fmap. split.
  - intros ([n' x] & -> & [Hx Hin]%list_elem_of_filter). apply btree_entries_elem in Hin.
    unfold RepoOps.listed in Hx. simpl in *. destruct x as [c|]; [|done].
    apply negb_true_iff, bool_decide_eq_false in Hx. split; [by exists c|done].
  - intros [[c Hc] Hs]. exists (n, RefFile c). split; [done|].
    apply list_elem_of_filter. split; [|by apply btree_entries_elem].
    unfold RepoOps.listed. simpl. by rewrite bool_decide_false.
Qed.

(** ** Properties *)

(** A branch that is created or updated is read back with its target; creating an
    existing name and updating a missing one fail without effect; the branch of no other
    file changes, whether the write succeeds or fails. *)
Theorem branch_write_read (r : Repo) (name : string) (target : Hash) :
  is_Some (ref_path name) ->
  (let '(o, r') := RepoOps.create_branch name target r in
   match o with
   | Ok _ => RepoOps.stat name r = Some None /\
             RepoOps.read_branch name r' = Ok (mk_Branch name target)
   | Err e => RepoOps.stat name r ≠ Some None -> e = BranchExists name /\ r' = r
   | _ => False
   end /\
   forall n b, branch_key n ≠ branch_key name ->
     RepoOps.read_branch n r = Ok b -> RepoOps.read_branch n r' = Ok b) /\
  (let '(o, r') := RepoOps.update_branch name target r in
   match o with
   | Ok _ => RepoOps.stat name r ≠ Some None /\
             RepoOps.read_branch name r' = Ok (mk_Branch name target)
   | Err e => RepoOps.stat name r = Some None -> e = BranchNotFound name /\ r' = r
   | _ => False
   end /\
   forall n b, branch_key n ≠ branch_key name ->
     RepoOps.read_branch n r = Ok b -> RepoOps.read_branch n r' = Ok b).
Proof.
  intros [[key en] Hp]. pose proof (write_branch_ok name target r) as Hw.
  unfold RepoOps.create_branch, RepoOps.update_branch.
  destruct (RepoOps.stat name r) as [[x|]|] eqn:Hs; simpl;
    [| |unfold RepoOps.stat in Hs; rewrite Hp in Hs; by destruct en];
    destruct (RepoOps.write_branch name target r) as [[] r']; try done; naive_solver.
Qed.

(** The branch HEAD names cannot be deleted under that name; deleting a branch removes its
    file, and no other. *)
Theorem branch_delete (r : Repo) (name : string) :
  let '(o, r') := RepoOps.delete_branch name r in
  (RepoOps.head_branch r = Some name -> r' = r /\ exists e, o = Err e) /\
  (forall n b, branch_key n ≠ branch_key name ->
     RepoOps.read_branch n r' = Ok b <-> RepoOps.read_branch n r = Ok b) /\
  (o = Ok tt -> RepoOps.head_branch r ≠ Some name /\
                RepoOps.read_branch name r' = Err (BranchNotFound name)) /\
  RepoOps.head_branch r' = RepoOps.head_branch r.
Proof.
  unfold RepoOps.delete_branch, RepoOps.head_branch. case_decide as Hh.
  { split_and!; try done. intros _. split; [done|by eexists]. }
  destruct (ref_path name) as [[key e]|] eqn:Hp; [|by split_and!].
  destruct (RepoOps.stat name r) as [[[c|]|]|] eqn:Hs; try by split_and!.
  apply stat_file in Hs as (k & Hk & Hc). unfold branch_key in Hk. rewrite Hp in Hk.
  destruct e; try done. injection Hk as ->.
  assert (branch_key name = Some k) as Hk by (unfold branch_key; by rewrite Hp).
  split_and!; try done.
  - intros n b Hne. rewrite !read_branch_ok. cbn. split; intros (k' & c' & Hk' & Hc' & Ht); exists k', c';
      (split; [done|]); (split; [|done]).
    + by apply lookup_delete_Some in Hc' as [_ ?].
    + rewrite lookup_delete_ne; [done|congruence].
  - intros _. split; [done|]. unfold RepoOps.read_branch. rewrite (stat_key name k) by done. cbn.
    by rewrite lookup_delete_eq.
Qed.

(** The line [set_head] writes names the branch. *)
Lemma read_head_line name l b :
  str_bytes name = l ++ [b] -> ascii_graph b = true ->
  utf8_valid (bytes_str (head_line name)) = true ->
  RepoOps.read_head (Some (head_line name)) = Ok (Some name).
Proof.
  intros Hn Hb Hs%from_utf8_valid. rewrite str_bytes_str in Hs. cbn [RepoOps.read_head].
  unfold read_to_string. rewrite Hs. cbn [mbind outcome_bind].
  by rewrite (head_line_trim name l b), strip_prefix_app, bytes_str_bytes.
Qed.

(** HEAD survives a restart: after [set_head] of a branch whose name ends in a graphic
    ASCII character and is valid UTF-8, opening the repository gives that branch as HEAD. *)
Theorem head_persists (r : Repo) (path name : string) (l : list byte) (b : byte) :
  str_bytes name = l ++ [b] -> ascii_graph b = true ->
  utf8_valid (bytes_str (head_line name)) = true ->
  let '(o, r') := RepoOps.set_head name r in
  match o with
  | Ok _ => RepoOps.open path true (repo_refs r') (repo_head_file r') = Ok r' /\
            RepoOps.head_branch r' = Some name
  | Err e => e = BranchNotFound name /\ r' = r
  | _ => ref_path name = None /\ r' = r
  end.
Proof.
  intros Hn Hb Hu. unfold RepoOps.set_head.
  destruct (RepoOps.stat name r) as [[x|]|] eqn:Hs; [|done|].
  2: { unfold RepoOps.stat in Hs. by destruct (ref_path name) as [[k []]|]. }
  simpl. split; [|done]. unfold RepoOps.open. cbn [negb repo_refs repo_head_file].
  by rewrite (read_head_line name l b).
Qed.

(** [list_branches] is sorted and lists exactly the branches whose name has no slash: a
    branch such as [feature/foo] can be created and read but is not listed. *)
Theorem list_branches_flat (r : Repo) (name : string) (target : Hash) :
  Sorted String.le (RepoOps.list_branches r) /\
  (forall n, n ∈ RepoOps.list_branches r ->
     (exists c, repo_refs r !! n = Some (RefFile c)) /\ "/"%byte ∉ str_bytes n) /\
  (RepoOps.read_branch name r = Ok (mk_Branch name target) ->
     (name ∈ RepoOps.list_branches r <-> "/"%byte ∉ str_bytes name)).
Proof.
  split; [|split].
  - apply StronglySorted_Sorted, key_sorted_names.
    by apply StronglySorted_filter, btree_entries_sorted.
  - by intros n Hn%list_branches_elem.
  - intros (k & c & Hk & Hc & _)%read_branch_ok. rewrite list_branches_elem. split; [by intros [_ ?]|].
    intros Hs. apply branch_key_flat in Hk as ->; [|done]. split; [by exists c|done].
Qed.

(** A repository with the branch main. *)
Definition ex_repo : Repo := mk_Repo {[ "main" := RefFile (ref_line ZERO) ]} None None.

Lemma head_persists_witness :
  let '(o, r') := RepoOps.set_head "main" ex_repo in
  match o with
  | Ok _ => RepoOps.open "repo" true (repo_refs r') (repo_head_file r') = Ok r' /\
            RepoOps.head_branch r' = Some "main"
  | Err e => e = BranchNotFound "main" /\ r' = ex_repo
  | _ => ref_path "main" = None /\ r' = ex_repo
  end.
Proof.
  apply (head_persists ex_repo "repo" "main" (str_bytes "mai") "n"%byte).
  - reflexivity.
  - reflexivity.
  - vm_compute. reflexivity.
Defined.
