(* ===== verification/DiskStore.v ===== *)
(** * The disk-backed DAG store ([epochs-core/src/store/disk.rs], [store/dag.rs])

    [DiskStore] composes the refs ([Repo]) and the CAS ([CasStore]) with a cache of decoded
    commits. The static counter of [next_timestamp] and the clock are fields of the model's
    state; the HAMT operations take the fuel of [Hamt]. *)

From S2P Require Import Prelude Utf8 Hash Codec Record Cache Index Cas Hamt CasStore Commit Dag Repo.

Definition COMMIT_CACHE_CAP : Z := 4096.

Inductive HamtOp := Put (key value : list byte).

Record DiskStore := mk_DiskStore {
  ds_repo : Repo;
  ds_cas : CasStore;
  ds_cache : LruMap Hash Commit;   (* commit_cache *)
  ds_fsync_every : Z;
  ds_since : Z;                    (* commits_since_fsync *)
  ds_ts : Z;                       (* the static TS of next_timestamp: u64 *)
  ds_now : Z                       (* SystemTime::now in milliseconds *)
}.

Module Disk.
Section disk.
Context `{Blake3, MmapLib}.

Abbreviation M := (stM DiskStore EpochsError).

Definition set_repo (r : Repo) (s : DiskStore) : DiskStore :=
  mk_DiskStore r (ds_cas s) (ds_cache s) (ds_fsync_every s) (ds_since s) (ds_ts s) (ds_now s).
Definition set_cas (c : CasStore) (s : DiskStore) : DiskStore :=
  mk_DiskStore (ds_repo s) c (ds_cache s) (ds_fsync_every s) (ds_since s) (ds_ts s) (ds_now s).
Definition set_cache (c : LruMap Hash Commit) (s : DiskStore) : DiskStore :=
  mk_DiskStore (ds_repo s) (ds_cas s) c (ds_fsync_every s) (ds_since s) (ds_ts s) (ds_now s).
Definition set_since (n : Z) (s : DiskStore) : DiskStore :=
  mk_DiskStore (ds_repo s) (ds_cas s) (ds_cache s) (ds_fsync_every s) n (ds_ts s) (ds_now s).
Definition set_ts (n : Z) (s : DiskStore) : DiskStore :=
  mk_DiskStore (ds_repo s) (ds_cas s) (ds_cache s) (ds_fsync_every s) (ds_since s) n (ds_now s).

(** Calls on the fields [cas] and [repo]. *)
Definition on_cas {A} (m : stM CasStore EpochsError A) : M A := zoom ds_cas set_cas m.
Definition on_repo {A} (m : stM Repo EpochsError A) : M A := zoom ds_repo set_repo m.

(** [DiskStore::open] from the parts of the repository on disk. *)
Definition open (path : string) (data_exists : bool) (refs : gmap string ref_node)
    (head_file : option (list byte)) (data : DataDir) (epi : list byte) (ts now : Z) :
    Result DiskStore :=
  repo ← RepoOps.open path data_exists refs head_file;
  cas ← Store.open data epi (now / 1000);
  Ok (mk_DiskStore repo cas (Lru.new COMMIT_CACHE_CAP) 1 0 ts now).

Definition set_fsync_every (n : Z) (s : DiskStore) : DiskStore :=
  mk_DiskStore (ds_repo s) (ds_cas s) (ds_cache s) (Z.max n 1) (ds_since s) (ds_ts s) (ds_now s).

Definition configure_caches (object_cap commit_cap mmap_segments : Z) (s : DiskStore) : DiskStore :=
  let cas := Store.set_object_cache_cap object_cap (ds_cas s) in
  let cas := Store.set_mmap_cap mmap_segments cas in
  set_cache (Lru.new commit_cap) (set_cas cas s).

Definition flush : M unit :=
  _ ← on_cas Store.flush;
  modify (set_since 0).

Definition get_object (hash : Hash) : M Object := on_cas (Store.get_payload hash).

(** [now_millis] and [next_timestamp]. *)
Definition now_millis : M Z := gets ds_now.

Definition next_timestamp : M Z := fun s =>
  let n := ds_ts s in
  if n =? 0 then (Ok (ds_now s), set_ts (ds_now s + 1) s)
  else (Ok n, set_ts ((n + 1) mod 2 ^ 64) s).

Definition write_genesis (message : string) (now : Z) : stM CasStore EpochsError Hash :=
  let commit := new_commit [] ZERO now message in
  hash ← Store.put TCommit (encode_payload commit);
  _ ← Store.flush;
  mret hash.

(** [DiskStore::init]: the store over the given directory contents, then its first commit
    and branch. *)
Definition init_store (refs : gmap string ref_node) (head_file : option (list byte))
    (data : DataDir) (epi : list byte) (ts now : Z) : Result DiskStore :=
  let repo := RepoOps.init refs head_file in
  cas ← Store.open data epi (now / 1000);
  Ok (mk_DiskStore repo cas (Lru.new COMMIT_CACHE_CAP) 1 0 ts now).

Definition init (default_branch message : string) : M Hash :=
  now ← now_millis;
  commit_hash ← on_cas (write_genesis message now);
  _ ← on_repo (RepoOps.create_branch default_branch commit_hash);
  _ ← on_repo (RepoOps.set_head default_branch);
  mret commit_hash.

Definition resolve_hash_ref (hex : string) (s : DiskStore) : Result Hash :=
  if lenZ (str_bytes hex) =? 64 then
    hash ← from_hex hex;
    if Store.contains hash (ds_cas s) then Ok hash else Err (CommitNotFound hash)
  else
    match Store.find_by_prefix hex (ds_cas s) with
    | [] => Err (InvalidTarget ("no object matches prefix '" +:+ hex +:+ "'"))
    | [h] => Ok h
    | l => Err (InvalidTarget ("ambiguous hash prefix '" +:+ hex +:+ "' (" +:+
                  pretty (length l) +:+ " matches)"))
    end.

Definition get_branch (name : string) : M Branch := fun s =>
  (RepoOps.read_branch name (ds_repo s), s).

Definition head : M (option Branch) := fun s =>
  match RepoOps.head_branch (ds_repo s) with
  | Some name => (Some <$> get_branch name) s
  | None => (Ok None, s)
  end.

Definition resolve_target (target : string) : M Hash :=
  if decide (to_ascii_lowercase target = "head") then
    head ← head;
    match head with
    | Some b => mret (branch_target b)
    | None => fail (InvalidTarget "HEAD not set")
    end
  else fun s =>
    match RepoOps.read_branch target (ds_repo s) with
    | Ok branch => (Ok (branch_target branch), s)
    | OutOfFuel => (OutOfFuel, s)   (* a path out of refs/heads *)
    | _ => (resolve_hash_ref target s, s)
    end.

Definition load_commit (hash : Hash) : M Commit := fun s =>
  match Lru.get hash (ds_cache s) with
  | Some c => (Ok c, s)
  | None =>
      (record ← on_cas (Store.get_record hash);
       if decide (record_type record ≠ TCommit) then fail (Codec "hash is not a commit")
       else
         commit ← lift (decode_payload (payload record));
         _ ← modify (fun s => set_cache (Lru.insert hash commit (ds_cache s)) s);
         mret commit) s
  end.

(** The group commit of [persist_commit]. *)
Definition fsync_if_due : M unit := fun s =>
  if ds_fsync_every s <=? ds_since s then flush s else (Ok tt, s).

Definition persist_commit (commit : Commit) : M Hash :=
  let payload := encode_payload commit in
  hash ← on_cas (Store.put TCommit payload);
  _ ← modify (fun s => set_cache (Lru.insert hash commit (ds_cache s)) s);
  _ ← modify (fun s => set_since (ds_since s + 1) s);
  _ ← fsync_if_due;
  mret hash.

(** Run a check of the state. *)
Definition query {A} (f : DiskStore -> Result A) : M A := fun s => (f s, s).

(** The loop that checks the parents of a new commit. *)
Fixpoint check_parents (parents : list Hash) (s : DiskStore) : Result unit :=
  match parents with
  | [] => Ok tt
  | parent :: parents =>
      if negb (Store.contains parent (ds_cas s)) then
        Err (InvalidCommit ("parent not found: " +:+ to_string parent))
      else check_parents parents s
  end.

Definition commit_with_indexes (parents : list Hash) (root_hamt : Hash)
    (index_roots : gmap string Hash) (message : string) : M Hash :=
  _ ← query (check_parents parents);
  now ← now_millis;
  persist_commit (with_indexes parents root_hamt now message index_roots).

Definition commit_with_root (parents : list Hash) (root_hamt : Hash) (message : string) : M Hash :=
  _ ← query (check_parents parents);
  ts ← next_timestamp;
  persist_commit (new_commit parents root_hamt ts message).

(** The loop shared by [commit] and [apply_hamt_ops]: the root after the operations. *)
Fixpoint apply_ops (fuel : nat) (ops : list HamtOp) (current_root : option Hash) :
    M (option Hash) :=
  match ops with
  | [] => mret current_root
  | Put key value :: ops =>
      let base := if decide (current_root = Some ZERO) then None else current_root in
      root ← on_cas (PersistentHamt.insert fuel base key value);
      apply_ops fuel ops (Some root)
  end.

Definition apply_hamt_ops (fuel : nat) (root : option Hash) (ops : list HamtOp) : M Hash :=
  current_root ← apply_ops fuel ops root;
  mret (default ZERO current_root).

Definition commit (fuel : nat) (parents : list Hash) (root : option Hash) (ops : list HamtOp)
    (message : string) : M Hash :=
  current_root ← apply_ops fuel ops root;
  let root_hamt := default ZERO current_root in
  commit_with_root parents root_hamt message.

Definition hamt_leaf_hash (fuel : nat) (root : Hash) (key : list byte) : M (option Hash) :=
  if decide (root = ZERO) then mret None
  else on_cas (PersistentHamt.leaf_hash fuel (Some root) key).

Definition hamt_entries (fuel : nat) (root : Hash) : M (list (list byte * list byte)) :=
  if decide (root = ZERO) then mret []
  else on_cas (PersistentHamt.entries fuel (Some root)).

Definition get (fuel : nat) (root : Hash) (key : list byte) : M (option (list byte)) :=
  if decide (root = ZERO) then mret None
  else on_cas (PersistentHamt.get fuel (Some root) key).

Definition index_put (fuel : nat) (index_root : option Hash) (key value : list byte) : M Hash :=
  on_cas (PersistentHamt.insert fuel index_root key value).

Definition index_remove (fuel : nat) (index_root : option Hash) (key : list byte) :
    M (option Hash) :=
  on_cas (PersistentHamt.remove fuel index_root key).

Definition index_get (fuel : nat) (index_root : Hash) (key : list byte) : M (option (list byte)) :=
  if decide (index_root = ZERO) then mret None
  else on_cas (PersistentHamt.get fuel (Some index_root) key).

Definition create_branch (name : string) (target : Hash) : M unit := fun s =>
  if negb (Store.contains target (ds_cas s)) then (Err (CommitNotFound target), s)
  else on_repo (RepoOps.create_branch name target) s.

Definition update_branch (name : string) (target : Hash) : M unit := fun s =>
  if negb (Store.contains target (ds_cas s)) then (Err (CommitNotFound target), s)
  else on_repo (RepoOps.update_branch name target) s.

Definition advance_branch (name : string) (commit : Hash) : M unit := update_branch name commit.

Definition delete_branch (name : string) : M unit := on_repo (RepoOps.delete_branch name).

Definition list_branches (s : DiskStore) : list string := RepoOps.list_branches (ds_repo s).

Definition set_head (branch_name : string) : M unit := on_repo (RepoOps.set_head branch_name).

Definition checkout (target : string) : M Commit :=
  hash ← resolve_target target;
  load_commit hash.

End disk.
End Disk.

#[global] Instance DiskStore_dag `{Blake3, MmapLib} : DagStore DiskStore := Disk.load_commit.

Module DiskDag.
Section dag.
Context `{Blake3, MmapLib}.

(** [reachable_commits]: the loop over the branches; the walk from each tip is the loop of
    [collect_ancestors] with the set of all branches. *)
Fixpoint reachable_from (fuel : nat) (names : list string) (all : gset Hash) :
    stM DiskStore EpochsError (gset Hash) :=
  match names with
  | [] => mret all
  | name :: names =>
      tip ← Disk.get_branch name;
      all ← Dag.collect_loop fuel [branch_target tip] all;
      reachable_from fuel names all
  end.

Definition reachable_commits (fuel : nat) : stM DiskStore EpochsError (gset Hash) := fun s =>
  reachable_from fuel (Disk.list_branches s) ∅ s.

(** [map.entry(parent).or_default().push(hash)]. *)
Definition push_child (hash : Hash) (map : gmap Hash (list Hash)) (parent : Hash) :
    gmap Hash (list Hash) :=
  <[parent := default [] (map !! parent) ++ [hash]]> map.

Fixpoint children_loop (hashes : list Hash) (map : gmap Hash (list Hash)) :
    stM DiskStore EpochsError (gmap Hash (list Hash)) :=
  match hashes with
  | [] => mret map
  | hash :: hashes =>
      commit ← Disk.load_commit hash;
      children_loop hashes (foldl (push_child hash) map (parents commit))
  end.

(** The order in which a [HashSet] is iterated is unspecified; the model takes some order. *)
Definition children_map (fuel : nat) : stM DiskStore EpochsError (gmap Hash (list Hash)) :=
  commits ← reachable_commits fuel;
  children_loop (elements commits) ∅.

End dag.
End DiskDag.
