(* ===== verification/DiskStoreSpec.v ===== *)
(** * What the disk store guarantees

    The commit cache agrees with the stored commits, so that the store is a [DagLaws]
    instance and the graph algorithms apply to it; a commit is read back with the snapshot
    it was made of; with an fsync per commit it survives a crash. *)

From S2P Require Import Prelude Utf8 Hash Codec Record Cache Index Cas HamtNode Hamt HamtTree HamtProofs HamtSpec CasStore CasStoreProofs CasStoreSpec Commit Dag Repo DiskStore.

(** The commit stored under a hash. *)
Definition commit_at (objs : gmap Hash Object) (h : Hash) : option Commit :=
  match objs !! h with
  | Some (TCommit, p) => match decode_payload p with Ok c => Some c | _ => None end
  | _ => None
  end.

Lemma commit_at_mono objs objs' h c :
  objs ⊆ objs' -> commit_at objs h = Some c -> commit_at objs' h = Some c.
Proof.
  unfold commit_at. intros Hsub. destruct (objs !! h) as [o|] eqn:Ho; [|done].
  by rewrite (lookup_weaken _ _ _ _ Ho Hsub).
Qed.

Section invariant.
Context `{Blake3, !MmapLib, !MmapLaws}.

Definition disk_objects (s : DiskStore) : gmap Hash Object := store_objects (ds_cas s).

(** The CAS is in order and cached commits are the stored ones. *)
Record disk_ok (s : DiskStore) : Prop := {
  disk_cas : store_ok (ds_cas s);
  disk_lru : Lru.lru_ok (ds_cache s);
  disk_cached : forall h c, Lru.get h (ds_cache s) = Some c ->
    commit_at (disk_objects s) h = Some c
}.

(** A call on the CAS that keeps it in order and only adds objects. *)
Lemma on_cas_ok {A} s (m : stM CasStore EpochsError A) r c' :
  disk_ok s -> m (ds_cas s) = (r, c') -> store_ok c' -> disk_objects s ⊆ store_objects c' ->
  Disk.on_cas m s = (r, Disk.set_cas c' s) /\ disk_ok (Disk.set_cas c' s).
Proof.
  intros [Hcas Hlru Hc] Hm Hok Hsub. unfold Disk.on_cas, zoom. rewrite Hm. split; [done|].
  constructor; [done|done|]. intros h c Hh. eapply commit_at_mono; [exact Hsub|]. by apply Hc.
Qed.

Lemma cache_commit_ok s h c :
  disk_ok s -> commit_at (disk_objects s) h = Some c ->
  disk_ok (Disk.set_cache (Lru.insert h c (ds_cache s)) s).
Proof.
  intros [Hcas Hlru Hc] Hh. constructor; [done|by apply Lru.lru_insert_ok|].
  intros h' c' [[-> ->]|Hg]%Lru.lru_insert_inv; [done|by apply Hc|done].
Qed.

Lemma load_commit_ok s h :
  disk_ok s ->
  let '(r, s') := Disk.load_commit h s in
  disk_ok s' /\ disk_objects s' = disk_objects s /\ ds_repo s' = ds_repo s /\
  match r with
  | Ok c => commit_at (disk_objects s) h = Some c
  | Err _ => commit_at (disk_objects s) h = None
  | _ => False
  end.
Proof.
  intros Hok. unfold Disk.load_commit. destruct (Lru.get h (ds_cache s)) as [c|] eqn:Hc.
  { split; [done|]. split; [done|]. split; [done|]. by apply Hok. }
  pose proof (get_payload_ok (ds_cas s) h (disk_cas _ Hok)) as Hget.
  destruct (Store.get_payload h (ds_cas s)) as [r c'] eqn:Hrun.
  destruct Hget as (Hok' & Hsame & Hr). apply same_view_objects in Hsame as Hobj.
  assert (Store.get_record h (ds_cas s) =
    ((fun o => mk_Record o.1 h o.2) <$> r, c')) as Hrec.
  { unfold Store.get_record. rewrite stM_bind_eq, Hrun. by destruct r as [[]| | |]. }
  destruct (on_cas_ok s _ _ _ Hok Hrec Hok') as [Hon Hokc].
  { unfold disk_objects. by rewrite Hobj. }
  rewrite stM_bind_eq, Hon. unfold commit_at, disk_objects. unfold disk_objects in *. subst r.
  destruct (store_objects (ds_cas s) !! h) as [[ty p]|] eqn:Ho; cbn [ok_or fmap outcome_fmap fst snd];
    [|done].
  cbn [record_type payload]. case_decide as Hty.
  { split; [done|]. split; [done|]. split; [done|]. by destruct ty. }
  assert (ty = TCommit) as -> by (destruct ty; try done; by destruct Hty).
  rewrite stM_bind_eq. unfold lift.
  destruct (decode_payload_total p) as [[c Hd]|[e Hd]]; rewrite Hd; [|done].
  cbn. split; [|done]. apply (cache_commit_ok (Disk.set_cas c' s)); [done|].
  unfold commit_at, disk_objects. simpl. by rewrite Hobj, Ho, Hd.
Qed.

End invariant.

#[global] Program Instance DiskStore_dag_laws `{Blake3, !MmapLib, !MmapLaws} : DagLaws DiskStore := {
  dag_commit s h := commit_at (disk_objects s) h;
  dag_inv := disk_ok
}.
Next Obligation.
  intros ? ? ? s h r s' Hok Hget. pose proof (load_commit_ok s h Hok) as Hl.
  change (get_commit h s) with (Disk.load_commit h s) in Hget. rewrite Hget in Hl.
  destruct Hl as (? & Hobj & _ & ?). split; [done|]. split; [|done]. intros k. by rewrite Hobj.
Qed.

Section spec.
Context `{Blake3, !MmapLib, !MmapLaws}.

(** ** Persisting a commit *)

(** The error of a write of the disk store: the segment ids are used up. *)
Definition disk_full (s : DiskStore) (e : EpochsError) : Prop := store_full (ds_cas s) e.

Definition commit_object (c : Commit) : Object := (TCommit, encode_payload c).

Lemma flush_disk_ok s :
  disk_ok s -> exists s', Disk.flush s = (Ok tt, s') /\ disk_ok s' /\
    disk_objects s' = disk_objects s /\ ds_repo s' = ds_repo s /\
    cs_buf (ds_cas s') = [].
Proof.
  intros Hok. destruct (flush_ok (ds_cas s) (disk_cas _ Hok)) as (c' & Hfl & Hok' & Hsame & Hbuf & _).
  apply same_view_objects in Hsame as Hobj.
  destruct (on_cas_ok s _ _ _ Hok Hfl Hok') as [Hon Hokc].
  { unfold disk_objects. by rewrite Hobj. }
  unfold Disk.flush. rewrite (stM_bind_Ok _ _ _ _ _ Hon). eexists. split; [done|].
  split; [by destruct Hokc|]. split; [exact Hobj|]. split; [done|exact Hbuf].
Qed.

Lemma persist_commit_ok s c :
  disk_ok s -> commit_fits c -> lenZ (encode_payload c) < PAYLOAD_LIMIT ->
  no_collision (disk_objects s) [commit_object c] ->
  let '(r, s') := Disk.persist_commit c s in
  disk_ok s' /\ disk_objects s ⊆ disk_objects s' /\ ds_repo s' = ds_repo s /\
  match r with
  | Ok h => h = commit_id c /\ commit_at (disk_objects s') h = Some c /\
            (ds_fsync_every s <= ds_since s + 1 -> cs_buf (ds_cas s') = [])
  | Err e => disk_full s' e
  | _ => False
  end.
Proof.
  intros Hok Hfit Hlen Hnc. unfold Disk.persist_commit. cbv zeta.
  pose proof (put_ok (ds_cas s) TCommit (encode_payload c) (disk_cas _ Hok) Hlen) as Hput.
  destruct (Store.put TCommit (encode_payload c) (ds_cas s)) as [r c'] eqn:Hrun.
  destruct Hput as [Hok' Hr].
  assert (disk_objects s ⊆ store_objects c') as Hsub.
  { destruct Hr as [[_ ->]|[_ ->]]; [apply put_object_subseteq|done]. }
  destruct (on_cas_ok s _ _ _ Hok Hrun Hok' Hsub) as [Hon Hokc].
  rewrite stM_bind_eq, Hon.
  destruct Hr as [[-> Hobj]|[(e & -> & Hfull & _) Hobj]]; [|by split_and!].
  set (h := of_bytes (encode_payload c)) in *.
  assert (commit_at (disk_objects (Disk.set_cas c' s)) h = Some c) as Hat.
  { unfold commit_at, disk_objects, h. simpl. rewrite Hobj.
    rewrite (put_object_lookup _ [commit_object c]); [| |exact Hnc|by left].
    - by rewrite decode_encode_payload.
    - intros h' ty p. apply objects_hash, Hok. }
  pose proof (cache_commit_ok _ h c Hokc Hat) as Hok2.
  rewrite stM_bind_eq. unfold modify at 1. rewrite stM_bind_eq. unfold modify at 1.
  set (s2 := Disk.set_since _ _).
  assert (disk_ok s2) as Hok3 by by destruct Hok2.
  rewrite stM_bind_eq. unfold Disk.fsync_if_due.
  assert (ds_fsync_every s2 = ds_fsync_every s /\ ds_since s2 = ds_since s + 1) as [-> ->] by done.
  destruct (Z.leb_spec (ds_fsync_every s) (ds_since s + 1)) as [Hdue|Hdue].
  - destruct (flush_disk_ok s2 Hok3) as (s3 & -> & Hok4 & Hobj4 & Hrepo & Hbuf).
    split; [done|]. rewrite Hobj4. split; [done|]. split; [done|]. split; [done|].
    split; [exact Hat|done].
  - split; [done|]. split; [done|]. split; [done|]. split; [done|]. split; [exact Hat|lia].
Qed.

(** ** Applying HAMT operations *)

(** A root field of a commit: [ZERO] is the empty trie. *)
Definition norm_root (root : option Hash) : option Hash :=
  if decide (root = Some ZERO) then None else root.

Definition snapshot_at (objs : gmap Hash Object) (root : option Hash) (ot : option tree) : Prop :=
  root_at objs (norm_root root) ot.

(** The tree, the map and the objects written as the operations are applied. *)
Fixpoint ops_tree (ot : option tree) (ops : list HamtOp) : option tree :=
  match ops with
  | [] => ot
  | Put key value :: ops => ops_tree (root_insert ot key value) ops
  end.

Fixpoint ops_objects (ot : option tree) (ops : list HamtOp) : list Object :=
  match ops with
  | [] => []
  | Put key value :: ops =>
      root_objects (root_insert ot key value) ++ ops_objects (root_insert ot key value) ops
  end.

Definition op_map (m : gmap (list byte) (list byte)) (op : HamtOp) : gmap (list byte) (list byte) :=
  match op with Put key value => <[key := value]> m end.

(** The operations fit their records and meet no clash, no tree hashes to [ZERO], and the
    fuel covers the height. *)
Fixpoint ops_ok (fuel : nat) (ot : option tree) (ops : list HamtOp) : Prop :=
  match ops with
  | [] => True
  | Put key value :: ops =>
      leaf_fits key value /\ root_clash ot key = false /\
      tree_hash <$> root_insert ot key value ≠ Some ZERO /\
      (root_height ot + 53 <= fuel)%nat /\ ops_ok fuel (root_insert ot key value) ops
  end.

Lemma apply_ops_ok fuel ops root ot s os :
  disk_ok s -> no_collision (disk_objects s) os -> snapshot_at (disk_objects s) root ot ->
  ops_ok fuel ot ops -> (forall o, o ∈ ops_objects ot ops -> o ∈ os) ->
  let '(r, s') := Disk.apply_ops fuel ops root s in
  disk_ok s' /\ disk_objects s ⊆ disk_objects s' /\ no_collision (disk_objects s') os /\
  s' = Disk.set_cas (ds_cas s') s /\
  match r with
  | Ok root' => snapshot_at (disk_objects s') root' (ops_tree ot ops) /\
      root_map (ops_tree ot ops) = foldl op_map (root_map ot) ops /\
      (ops = [] -> root' = root)
  | Err e => disk_full s' e
  | _ => False
  end.
Proof.
  revert root ot s. induction ops as [|[key value] ops IH]; intros root ot s Hok Hnc Hat Hops Hos;
    cbn [Disk.apply_ops].
  { split_and!; try done. by destruct s. }
  cbn [ops_ok] in Hops. destruct Hops as (Hf & Hclash & Hzero & Hfuel & Hops).
  destruct (root_insert_spec _ _ _ _ _ Hat Hf Hclash) as (t' & Hins & Hwf & Hft & Hmap).
  cbn [ops_objects ops_tree] in *. rewrite Hins in *.
  fold (norm_root root).
  pose proof (insert_runs os (ds_cas s) (norm_root root) ot key value t' fuel (disk_cas _ Hok) Hnc
    Hat Hf Hins ltac:(intros; apply Hos, elem_of_app; by left) Hfuel) as Hrun.
  unfold runs in Hrun.
  destruct (PersistentHamt.insert fuel (norm_root root) key value (ds_cas s)) as [r c'] eqn:Hrun'.
  destruct Hrun as ([Hok' Hnc'] & Hsub & Hr).
  destruct (on_cas_ok s _ _ _ Hok Hrun' Hok' Hsub) as [Hon Hokc].
  rewrite stM_bind_eq, Hon. destruct r as [new|e| |]; try done.
  2: { destruct Hr as [_ Hr]. by split_and!. }
  destruct Hr as [-> Hst].
  assert (snapshot_at (store_objects c') (Some (tree_hash t')) (Some t')) as Hat'.
  { unfold snapshot_at, norm_root. rewrite decide_False; [done|]. simpl in Hzero. congruence. }
  pose proof (IH (Some (tree_hash t')) (Some t') (Disk.set_cas c' s) Hokc Hnc' Hat' Hops
    ltac:(intros; apply Hos, elem_of_app; by right)) as Hrest.
  destruct (Disk.apply_ops fuel ops (Some (tree_hash t')) (Disk.set_cas c' s)) as [r s2].
  destruct Hrest as (Hok2 & Hsub2 & Hnc2 & Hs2 & Hr). split; [done|].
  split; [by etransitivity|]. split; [done|]. split; [by rewrite Hs2|].
  destruct r as [root'| | |]; try done. destruct Hr as (Hat2 & Hmap2 & _).
  split; [done|]. split; [|done]. cbn [foldl op_map]. by rewrite Hmap2, Hmap.
Qed.

Lemma check_parents_ok ps s :
  match Disk.check_parents ps s with
  | Ok _ => forall p, p ∈ ps -> Store.contains p (ds_cas s) = true
  | Err e => exists p, p ∈ ps /\ Store.contains p (ds_cas s) = false /\
      e = InvalidCommit ("parent not found: " +:+ to_string p)
  | _ => False
  end.
Proof.
  induction ps as [|p ps IH]; cbn [Disk.check_parents]; [by intros p ?%not_elem_of_nil|].
  destruct (Store.contains p (ds_cas s)) eqn:Hp; simpl.
  - destruct (Disk.check_parents ps s); try done.
    + intros q [->|Hq]%elem_of_cons; [done|by apply IH].
    + destruct IH as (q & ? & ? & ?). exists q. split; [by right|done].
  - exists p. split; [by left|done].
Qed.

(** The errors of a commit: a missing parent, or a full store. *)
Definition commit_fails (s : DiskStore) (ps : list Hash) (s' : DiskStore) (e : EpochsError) : Prop :=
  disk_full s' e \/
  exists p, p ∈ ps /\ disk_objects s !! p = None /\
    e = InvalidCommit ("parent not found: " +:+ to_string p).

Lemma missing_object s p :
  disk_ok s -> Store.contains p (ds_cas s) = false <-> disk_objects s !! p = None.
Proof.
  intros Hok. unfold Store.contains, IndexOps.contains. rewrite bool_decide_eq_false.
  rewrite <- objects_contains by apply Hok. by rewrite eq_None_not_Some.
Qed.

(** The parent check of a commit, then the commit itself. *)
Lemma commit_with_root_ok s ps root msg :
  let c := new_commit ps root (if ds_ts s =? 0 then ds_now s else ds_ts s) msg in
  disk_ok s -> commit_fits c -> lenZ (encode_payload c) < PAYLOAD_LIMIT ->
  no_collision (disk_objects s) [commit_object c] ->
  let '(r, s') := Disk.commit_with_root ps root msg s in
  disk_ok s' /\ disk_objects s ⊆ disk_objects s' /\ ds_repo s' = ds_repo s /\
  match r with
  | Ok h => h = commit_id c /\ commit_at (disk_objects s') h = Some c /\
            (ds_fsync_every s <= ds_since s + 1 -> cs_buf (ds_cas s') = []) /\
            forall p, p ∈ ps -> Store.contains p (ds_cas s) = true
  | Err e => commit_fails s ps s' e
  | _ => False
  end.
Proof.
  intros c Hok Hfit Hlen Hnc. unfold Disk.commit_with_root, Disk.query.
  rewrite stM_bind_eq. pose proof (check_parents_ok ps s) as Hps.
  destruct (Disk.check_parents ps s) as [u|e| |]; try done.
  2: { split_and!; try done. right. destruct Hps as (p & ? & ?%missing_object & ->); [|done].
       by exists p. }
  assert (exists s1, Disk.next_timestamp s = (Ok (timestamp c), s1) /\ disk_ok s1 /\
    disk_objects s1 = disk_objects s /\ ds_repo s1 = ds_repo s /\
    ds_fsync_every s1 = ds_fsync_every s /\ ds_since s1 = ds_since s)
    as (s1 & Hts & Hok1 & Hobj & Hrepo & Hev & Hsi).
  { unfold Disk.next_timestamp, c. simpl. destruct (ds_ts s =? 0); eexists;
      (split; [done|]); (split; [by destruct Hok|done]). }
  rewrite (stM_bind_Ok _ _ _ _ _ Hts). fold c.
  change (new_commit ps root (timestamp c) msg) with c.
  pose proof (persist_commit_ok s1 c Hok1 Hfit Hlen) as Hpc. rewrite Hobj in Hpc.
  specialize (Hpc Hnc). destruct (Disk.persist_commit c s1) as [r s2].
  rewrite Hrepo, Hev, Hsi in Hpc. destruct Hpc as (? & ? & ? & Hr).
  split; [done|]. split; [done|]. split; [done|]. destruct r; try done; [|by left].
  destruct Hr as (? & ? & ?). done.
Qed.

(** ** Properties *)

(** C8: A commit publishes a snapshot. Let the operations meet no clash: when a key is put, no
    leaf of another key in the trie so far shares its five bits at the depth where they meet
    (with a clash the program loses a key, [hamt_insert_clash_loses_key]); let the records fit
    their fields, no two objects have one hash, and no trie have the hash [ZERO]. Then, when
    [commit] returns a hash, that hash loads the commit with the given parents, all of which
    are stored, and the message, and its root stands for the old map with the operations
    applied in order. It fails only because a parent is not stored or the segment ids are used
    up. Either way every commit and every snapshot that was there is still there. *)
Theorem disk_commit_snapshot (s : DiskStore) (fuel : nat) (ps : list Hash) (root : option Hash)
    (ot : option tree) (ops : list HamtOp) (msg : string) :
  let t := if ds_ts s =? 0 then ds_now s else ds_ts s in
  let new_root := default ZERO (match ops with [] => root | _ => tree_hash <$> ops_tree ot ops end) in
  let c := new_commit ps new_root t msg in
  disk_ok s -> snapshot_at (disk_objects s) root ot -> ops_ok fuel ot ops ->
  commit_fits c -> lenZ (encode_payload c) < PAYLOAD_LIMIT ->
  no_collision (disk_objects s) (ops_objects ot ops ++ [commit_object c]) ->
  let '(r, s') := Disk.commit fuel ps root ops msg s in
  disk_ok s' /\ disk_objects s ⊆ disk_objects s' /\
  match r with
  | Ok h =>
      (Disk.load_commit h s').1 = Ok c /\
      (forall p, p ∈ ps -> Store.contains p (ds_cas s') = true) /\
      exists ot', snapshot_at (disk_objects s') (Some (root_hamt c)) ot' /\
        root_map ot' = foldl op_map (root_map ot) ops
  | Err e => commit_fails s ps s' e
  | _ => False
  end.
Proof.
  intros t new_root c Hok Hat Hops Hfit Hlen Hnc. unfold Disk.commit. rewrite stM_bind_eq.
  pose proof (apply_ops_ok fuel ops root ot s _ Hok Hnc Hat Hops
    ltac:(intros; apply elem_of_app; by left)) as Hap.
  destruct (Disk.apply_ops fuel ops root s) as [r s1].
  destruct Hap as (Hok1 & Hsub1 & Hnc1 & Hs1 & Hr).
  destruct r as [root'|e| |]; try done; [|by split_and!; try done; left].
  destruct Hr as (Hat' & Hmap & Hnil).
  assert (default ZERO root' = new_root) as Hroot.
  { unfold new_root. destruct ops as [|op ops]; [by rewrite Hnil|].
    unfold snapshot_at, norm_root in Hat'. destruct Hat' as [Hr' _].
    case_decide as Hz; [|by rewrite Hr']. subst root'. by rewrite <- Hr'. }
  rewrite Hroot.
  pose proof (commit_with_root_ok s1 ps new_root msg) as Hcw.
  assert (ds_ts s1 = ds_ts s /\ ds_now s1 = ds_now s) as [E1 E2] by (by rewrite Hs1).
  rewrite E1, E2 in Hcw. fold t c in Hcw. specialize (Hcw Hok1 Hfit Hlen).
  assert (no_collision (disk_objects s1) [commit_object c]) as Hnc2.
  { eapply no_collision_sub; [|exact Hnc1]. intros o Ho. apply elem_of_app. by right. }
  specialize (Hcw Hnc2). destruct (Disk.commit_with_root ps new_root msg s1) as [r s2].
  destruct Hcw as (Hok2 & Hsub2 & _ & Hr). split; [done|]. split; [by etransitivity|].
  destruct r as [h|e| |]; try done.
  2: { destruct Hr as [?|(p & ? & Hp & ->)]; [by left|right]. exists p. split; [done|].
       split; [by eapply lookup_weaken_None|done]. }
  destruct Hr as (-> & Hc & _ & Hps). split; [|split].
  - pose proof (load_commit_ok s2 (commit_id c) Hok2) as Hl.
    destruct (Disk.load_commit (commit_id c) s2) as [[c'|e| |] s3];
      destruct Hl as (_ & _ & _ & Hl); try done; [|congruence].
    simpl. rewrite Hl in Hc. by injection Hc as ->.
  - intros p Hp. specialize (Hps p Hp). unfold Store.contains, IndexOps.contains in *.
    apply bool_decide_eq_true in Hps. apply bool_decide_eq_true.
    apply objects_contains in Hps as [o Ho]; [|apply Hok1].
    apply objects_contains; [apply Hok2|]. exists o. eapply lookup_weaken; [exact Ho|exact Hsub2].
  - exists (ops_tree ot ops). split; [|done]. unfold snapshot_at in *.
    apply (root_at_mono (disk_objects s1)); [done|].
    replace (root_hamt c) with (default ZERO root') by done.
    destruct root' as [h'|]; [done|]. cbn [default].
    change (default ZERO None) with ZERO. unfold norm_root in *.
    rewrite decide_True by done. by rewrite decide_False in Hat'.
Qed.

(** C19: With an fsync per commit a commit survives a crash: if the process dies right after
    [commit_with_root] returns, the reopened CAS holds every object, the commit's included. *)
Theorem disk_commit_durable (s : DiskStore) (ps : list Hash) (root : Hash) (msg : string)
    (h : Hash) (s' : DiskStore) (clock : Z) :
  let c := new_commit ps root (if ds_ts s =? 0 then ds_now s else ds_ts s) msg in
  disk_ok s -> commit_fits c -> lenZ (encode_payload c) < PAYLOAD_LIMIT ->
  no_collision (disk_objects s) [commit_object c] ->
  ds_fsync_every s <= ds_since s + 1 ->
  Disk.commit_with_root ps root msg s = (Ok h, s') ->
  exists cas', Store.open (Store.crash (ds_cas s')).1 (Store.crash (ds_cas s')).2 clock = Ok cas' /\
    store_ok cas' /\ commit_at (store_objects cas') h = Some c /\
    forall k, (Store.get_payload k cas').1 = (Store.get_payload k (ds_cas s')).1.
Proof.
  intros c Hok Hfit Hlen Hnc Hdue Hrun.
  pose proof (commit_with_root_ok s ps root msg Hok Hfit Hlen Hnc) as Hc. rewrite Hrun in Hc.
  destruct Hc as (Hok' & _ & _ & -> & Hat & Hbuf & _). specialize (Hbuf Hdue).
  destruct (open_ok (ds_cas s') clock (disk_cas _ Hok') Hbuf) as (cas' & Hopen & Hcok & Hobj & _).
  exists cas'. split; [exact Hopen|]. split; [done|]. split; [by rewrite Hobj|]. intros k.
  pose proof (get_payload_ok _ k Hcok) as Hg1.
  pose proof (get_payload_ok _ k (disk_cas _ Hok')) as Hg2.
  destruct (Store.get_payload k cas'), (Store.get_payload k (ds_cas s')).
  destruct Hg1 as (_ & _ & ->), Hg2 as (_ & _ & ->). simpl. by rewrite Hobj.
Qed.

(** Loading a commit gives the commit stored under the hash, whether it comes from the
    cache or from the CAS, and changes neither the objects nor the refs. *)
Theorem disk_load_commit (s : DiskStore) (h : Hash) :
  disk_ok s ->
  let '(r, s') := Disk.load_commit h s in
  disk_ok s' /\ disk_objects s' = disk_objects s /\ ds_repo s' = ds_repo s /\
  match r with
  | Ok c => commit_at (disk_objects s) h = Some c
  | Err _ => commit_at (disk_objects s) h = None
  | _ => False
  end.
Proof. apply load_commit_ok. Qed.

(** A reference that is not a full hash resolves exactly when one stored hash has it as a
    prefix (in either case of letters); a full hash resolves exactly when it is stored. *)
Theorem resolve_hash_ref_correct (s : DiskStore) (hex : string) (h : Hash) :
  Disk.resolve_hash_ref hex s = Ok h <->
  if lenZ (str_bytes hex) =? 64 then
    from_hex hex = Ok h /\ Store.contains h (ds_cas s) = true
  else
    forall k, (Store.contains k (ds_cas s) = true /\
               String.prefix (to_ascii_lowercase hex) (to_string k) = true) <-> k = h.
Proof.
  unfold Disk.resolve_hash_ref. destruct (lenZ (str_bytes hex) =? 64).
  - destruct (from_hex hex) as [h'|e| |]; cbn [mbind outcome_bind]; [|naive_solver..].
    destruct (Store.contains h' (ds_cas s)) eqn:Hc; naive_solver congruence.
  - assert (NoDup (Store.find_by_prefix hex (ds_cas s))) as Hnd.
    { unfold Store.find_by_prefix, IndexOps.find_by_prefix, IndexOps.hashes.
      apply NoDup_filter, NoDup_fst_map_to_list. }
    assert (forall k, k ∈ Store.find_by_prefix hex (ds_cas s) <->
      Store.contains k (ds_cas s) = true /\
      String.prefix (to_ascii_lowercase hex) (to_string k) = true) as Hin.
    { intros k. unfold Store.find_by_prefix, IndexOps.find_by_prefix, IndexOps.hashes,
        Store.contains, IndexOps.contains.
      rewrite list_elem_of_filter, bool_decide_eq_true, list_elem_of_fmap. split.
      - intros [Hp ([k' e] & -> & He%elem_of_map_to_list)]. split; [by exists e|done].
      - intros [[e He] Hp]. split; [done|]. exists (k, e). by rewrite elem_of_map_to_list. }
    setoid_rewrite <- Hin. destruct (Store.find_by_prefix hex (ds_cas s)) as [|a [|b l]].
    + split; [done|]. intros Hk. pose proof (proj2 (Hk h) eq_refl) as Hn.
      by apply not_elem_of_nil in Hn.
    + split.
      * intros [= ->] k. apply list_elem_of_singleton.
      * intros Hk. f_equal. apply Hk. by left.
    + split; [done|]. intros Hk. exfalso.
      pose proof (proj1 (Hk a) ltac:(by left)) as Ha.
      pose proof (proj1 (Hk b) ltac:(right; by left)) as Hb. subst.
      apply NoDup_cons in Hnd as [Hnd _]. apply Hnd. by left.
Qed.

Lemma reachable_commits_ok (s : DiskStore) (U : gset Hash) (fuel : nat) :
  disk_ok s -> dag_closed s U -> (1 + out_edges s U < fuel)%nat ->
  (forall name, name ∈ Disk.list_branches s ->
     exists tip, RepoOps.read_branch name (ds_repo s) = Ok (mk_Branch name tip) /\ tip ∈ U) ->
  exists all s', DiskDag.reachable_commits fuel s = (Ok all, s') /\ same_dag s s' /\
    forall h, h ∈ all <-> exists name tip, name ∈ Disk.list_branches s /\
      RepoOps.read_branch name (ds_repo s) = Ok (mk_Branch name tip) /\ reaches s tip h.
Proof.
  intros Hok HU Hfuel Htips. unfold DiskDag.reachable_commits.
  assert (forall names acc s1, same_dag s s1 -> ds_repo s1 = ds_repo s -> acc ⊆ U ->
    (forall h p, h ∈ acc -> parent_of s h p -> p ∈ acc) ->
    (forall name, name ∈ names -> name ∈ Disk.list_branches s) ->
    exists all s', DiskDag.reachable_from fuel names acc s1 = (Ok all, s') /\ same_dag s s' /\
      forall h, h ∈ all <-> h ∈ acc \/ exists name tip, name ∈ names /\
        RepoOps.read_branch name (ds_repo s) = Ok (mk_Branch name tip) /\ reaches s tip h) as Hloop.
  { induction names as [|name names IH]; intros acc s1 Hs1 Hrepo Hacc Hcl Hnames;
      cbn [DiskDag.reachable_from].
    { exists acc, s1. split; [done|]. split; [done|]. intros h. split; [by left|].
      intros [?|(? & ? & ?%not_elem_of_nil & _)]; done. }
    destruct (Htips name) as (tip & Htip & HtipU); [apply Hnames; by left|].
    assert (Disk.get_branch name s1 = (Ok (mk_Branch name tip), s1)) as Hget
      by (unfold Disk.get_branch; by rewrite Hrepo, Htip).
    rewrite (stM_bind_Ok _ _ _ _ _ Hget). cbn [branch_target].
    destruct (collect_loop_ok s U fuel [tip] acc s1) as
      (acc' & s2 & Hrun & Hs2 & Hsub & Hle & Hq & Hcl' & Hsound); [done|done| |done| | |].
    { by intros h ->%list_elem_of_singleton. }
    { unfold collect_fuel. simpl.
      pose proof (out_edges_mono s (U ∖ acc) U ltac:(set_solver)). lia. }
    { intros h p Hh Hp. left. by eapply Hcl. }
    rewrite (stM_bind_Ok _ _ _ _ _ Hrun).
    assert (ds_repo s2 = ds_repo s1) as Hrepo2.
    { pose proof (collect_loop_preserves (fun s' => disk_ok s' /\ ds_repo s' = ds_repo s1) fuel
        [tip] acc s1) as Hp. rewrite Hrun in Hp. apply Hp; [|split; [apply Hs1|done]].
      intros h s0 [Hok0 Hr0]. pose proof (load_commit_ok s0 h Hok0) as Hl.
      change (get_commit h s0) with (Disk.load_commit h s0).
      destruct (Disk.load_commit h s0) as [r s0']. destruct Hl as (? & _ & Hr & _).
      split; [done|]. simpl. by rewrite Hr. }
    destruct (IH acc' s2) as (all & s3 & Hrun3 & Hs3 & Hall); [done|by rewrite Hrepo2|done|done| |].
    { intros. apply Hnames. by right. }
    exists all, s3. split; [done|]. split; [done|]. intros h. rewrite Hall. split.
    - intros [[?|(q & ->%list_elem_of_singleton & Hr)]%Hsound|(n & t & ? & ? & ?)].
      + by left.
      + right. exists name, tip. split; [by left|done].
      + right. exists n, t. split; [by right|done].
    - intros [?|(n & t & [->|Hn]%elem_of_cons & Ht & Hr)].
      + left. by apply Hle.
      + left. rewrite Htip in Ht. injection Ht as <-.
        assert (tip ∈ acc') as Hin by (apply Hq; by left). clear -Hr Hcl' Hin. revert Hin.
        induction Hr as [x|x y z Hxy _ IHr]; [done|]. intros Hx. by apply IHr, (Hcl' x).
      + right. by exists n, t. }
  destruct (Hloop (Disk.list_branches s) ∅ s) as (all & s' & Hrun & Hs' & Hall); try done.
  exists all, s'. split; [done|]. split; [done|]. intros h. rewrite Hall. set_solver.
Qed.

(** [reachable_commits] returns exactly the commits reachable from the tips of the
    branches that [list_branches] lists - the branches of [refs/heads] itself, so that what
    only a branch such as [feature/foo] reaches is left out. *)
Theorem reachable_commits_correct (s : DiskStore) (U : gset Hash) (fuel : nat) :
  disk_ok s -> dag_closed s U -> (1 + out_edges s U < fuel)%nat ->
  (forall name, name ∈ Disk.list_branches s ->
     exists tip, RepoOps.read_branch name (ds_repo s) = Ok (mk_Branch name tip) /\ tip ∈ U) ->
  exists all s', DiskDag.reachable_commits fuel s = (Ok all, s') /\ same_dag s s' /\
    forall h, h ∈ all <-> exists name tip, name ∈ Disk.list_branches s /\
      RepoOps.read_branch name (ds_repo s) = Ok (mk_Branch name tip) /\ reaches s tip h.
Proof. apply reachable_commits_ok. Qed.

End spec.

(** ** The properties at work *)

Section witnesses.

#[local] Existing Instance toy_hash.
#[local] Existing Instance id_mmap.
#[local] Existing Instance id_mmap_laws.

(** A new store, and the commit the witnesses make in it. *)
Definition ex_disk : DiskStore :=
  mk_DiskStore ex_repo ex_cas (Lru.new COMMIT_CACHE_CAP) 1 0 0 1000.

Lemma ex_disk_ok : disk_ok ex_disk.
Proof.
  constructor; [apply ex_cas_ok|apply Lru.lru_new_ok|].
  intros h c Hc. unfold Lru.get in Hc. simpl in Hc. by rewrite lookup_empty in Hc.
Qed.

Lemma new_commit_fits ps root ts msg :
  lenZ ps < 256 -> 0 <= ts < 2 ^ 64 -> lenZ (str_bytes msg) < 2 ^ 16 -> utf8_valid msg = true ->
  commit_fits (new_commit ps root ts msg).
Proof. intros. by constructor. Qed.

Lemma disk_commit_snapshot_witness :
  let c := new_commit [] (default ZERO (tree_hash <$> ops_tree None [Put ex_key1 ex_val])) 1000 "m" in
  let '(r, s') := Disk.commit 60 [] None [Put ex_key1 ex_val] "m" ex_disk in
  disk_ok s' /\ disk_objects ex_disk ⊆ disk_objects s' /\
  match r with
  | Ok h =>
      (Disk.load_commit h s').1 = Ok c /\
      (forall p, p ∈ [] -> Store.contains p (ds_cas s') = true) /\
      exists ot', snapshot_at (disk_objects s') (Some (root_hamt c)) ot' /\
        root_map ot' = foldl op_map (root_map None) [Put ex_key1 ex_val]
  | Err e => commit_fails ex_disk [] s' e
  | _ => False
  end.
Proof.
  intros c.
  apply (disk_commit_snapshot ex_disk 60 [] None None [Put ex_key1 ex_val] "m").
  - apply ex_disk_ok.
  - split; [done|exact I].
  - split; [split; vm_compute; reflexivity|]. split; [reflexivity|].
    split; [apply (bool_decide_unpack _); vm_compute; exact I|].
    split; [apply Nat.leb_le; reflexivity|exact I].
  - apply new_commit_fits; vm_compute; intuition congruence.
  - vm_compute. reflexivity.
  - apply (bool_decide_unpack _). vm_compute. exact I.
Defined.

Definition ex_c : Commit := new_commit [] ZERO 1000 "m".

Lemma disk_commit_durable_witness :
  let s' := (Disk.commit_with_root [] ZERO "m" ex_disk).2 in
  exists cas', Store.open (Store.crash (ds_cas s')).1 (Store.crash (ds_cas s')).2 5 = Ok cas' /\
    store_ok cas' /\ commit_at (store_objects cas') (commit_id ex_c) = Some ex_c /\
    forall k, (Store.get_payload k cas').1 = (Store.get_payload k (ds_cas s')).1.
Proof.
  intros s'.
  apply (disk_commit_durable ex_disk [] ZERO "m" (commit_id ex_c) s' 5).
  - apply ex_disk_ok.
  - apply new_commit_fits; vm_compute; intuition congruence.
  - vm_compute. reflexivity.
  - apply (bool_decide_unpack _). vm_compute. exact I.
  - vm_compute. discriminate.
  - vm_compute. reflexivity.
Defined.

Lemma disk_load_commit_witness :
  let '(r, s') := Disk.load_commit ZERO ex_disk in
  disk_ok s' /\ disk_objects s' = disk_objects ex_disk /\ ds_repo s' = ds_repo ex_disk /\
  match r with
  | Ok c => commit_at (disk_objects ex_disk) ZERO = Some c
  | Err _ => commit_at (disk_objects ex_disk) ZERO = None
  | _ => False
  end.
Proof. apply (disk_load_commit ex_disk ZERO). apply ex_disk_ok. Defined.

(** The store after a commit, with the branch main at it. *)
Definition ex_tip : Hash := commit_id ex_c.
Definition ex_disk_main : DiskStore :=
  Disk.set_repo (mk_Repo {[ "main" := RefFile (ref_line ex_tip) ]} None None)
    (Disk.commit_with_root [] ZERO "m" ex_disk).2.

Lemma ex_disk_main_ok :
  disk_ok ex_disk_main /\ dag_commit ex_disk_main ex_tip = Some ex_c.
Proof.
  pose proof (commit_with_root_ok ex_disk [] ZERO "m" ex_disk_ok) as Hc.
  unfold ex_disk_main.
  assert ((Disk.commit_with_root [] ZERO "m" ex_disk).1 = Ok ex_tip) as Hr by (vm_compute; reflexivity).
  destruct (Disk.commit_with_root [] ZERO "m" ex_disk) as [r s']. simpl in Hr. subst r.
  destruct Hc as (Hok & _ & _ & _ & Hat & _).
  - apply new_commit_fits; vm_compute; intuition congruence.
  - vm_compute. reflexivity.
  - apply (bool_decide_unpack _). vm_compute. exact I.
  - split; [by destruct Hok|exact Hat].
Qed.

Lemma reachable_commits_correct_witness :
  exists all s', DiskDag.reachable_commits 5 ex_disk_main = (Ok all, s') /\
    same_dag ex_disk_main s' /\
    forall h, h ∈ all <-> exists name tip, name ∈ Disk.list_branches ex_disk_main /\
      RepoOps.read_branch name (ds_repo ex_disk_main) = Ok (mk_Branch name tip) /\
      reaches ex_disk_main tip h.
Proof.
  apply (reachable_commits_correct ex_disk_main {[ ex_tip ]} 5).
  - apply ex_disk_main_ok.
  - intros h ->%elem_of_singleton. exists ex_c. split; [apply ex_disk_main_ok|].
    intros p Hp. by apply not_elem_of_nil in Hp.
  - apply Nat.ltb_lt. vm_compute. reflexivity.
  - intros name Hn. exists ex_tip.
    assert (Disk.list_branches ex_disk_main = ["main"]) as Hl by reflexivity.
    rewrite Hl in Hn. apply list_elem_of_singleton in Hn as ->.
    split; [|by apply elem_of_singleton].
    apply (read_written "main" "main" ex_tip {[ "main" := RefFile (ref_line ex_tip) ]} None None);
      reflexivity.
Defined.

End witnesses.
