(* ===== verification/Chars.v ===== *)
(** * Characters of a string: [char], [str::char_indices], [str] slices

    The part of the Rust standard library the EpochQL layer needs to walk over a
    source text. A [char] is its scalar value. *)

From Stdlib Require Import Strings.Byte Strings.Ascii.
From S2P Require Import Prelude Utf8.

Definition char_ascii (a : Ascii.ascii) : Z := Z.of_N (Ascii.N_of_ascii a).
Definition char_quote : Z := 34.
Definition char_backslash : Z := 92.
Coercion char_ascii : Ascii.ascii >-> Z.

(** The Unicode scalar values. *)
Definition is_scalar (c : Z) : bool :=
  ((0 <=? c) && (c <? 0xD800)) || ((0xE000 <=? c) && (c <? 0x110000)).

(** [char::encode_utf8]. *)
Definition encode_utf8 (c : Z) : list byte :=
  if c <? 0x80 then [as_u8 c]
  else if c <? 0x800 then [as_u8 (0xC0 + c / 64); as_u8 (0x80 + c mod 64)]
  else if c <? 0x10000 then
    [as_u8 (0xE0 + c / 4096); as_u8 (0x80 + c / 64 mod 64); as_u8 (0x80 + c mod 64)]
  else
    [as_u8 (0xF0 + c / 262144); as_u8 (0x80 + c / 4096 mod 64);
     as_u8 (0x80 + c / 64 mod 64); as_u8 (0x80 + c mod 64)].

Definition encode_chars (cs : list Z) : list byte := cs ≫= encode_utf8.

(** [str::char_indices]: the characters with the byte offset they start at. *)
Fixpoint char_indices (l : list byte) (pos : Z) : list (Z * Z) :=
  match l with
  | [] => []
  | b0 :: r0 =>
      match utf8_char_width b0, r0 with
      | 2%nat, b1 :: r =>
          (pos, (byte_val b0 - 0xC0) * 64 + (byte_val b1 - 0x80)) :: char_indices r (pos + 2)
      | 3%nat, b1 :: b2 :: r =>
          (pos, (byte_val b0 - 0xE0) * 4096 + (byte_val b1 - 0x80) * 64 + (byte_val b2 - 0x80))
            :: char_indices r (pos + 3)
      | 4%nat, b1 :: b2 :: b3 :: r =>
          (pos, (byte_val b0 - 0xF0) * 262144 + (byte_val b1 - 0x80) * 4096
                + (byte_val b2 - 0x80) * 64 + (byte_val b3 - 0x80))
            :: char_indices r (pos + 4)
      | _, _ => (pos, byte_val b0) :: char_indices r0 (pos + 1)
      end
  end.

(** [char::is_whitespace]. *)
Definition is_whitespace (c : Z) : bool :=
  ((9 <=? c) && (c <=? 13)) || (c =? 32) || (c =? 0x85) || (c =? 0xA0) || (c =? 0x1680)
  || ((0x2000 <=? c) && (c <=? 0x200A)) || (c =? 0x2028) || (c =? 0x2029)
  || (c =? 0x202F) || (c =? 0x205F) || (c =? 0x3000).

Definition is_ascii_digit (c : Z) : bool := (48 <=? c) && (c <=? 57).
Definition is_ascii_upper (c : Z) : bool := (65 <=? c) && (c <=? 90).
Definition is_ascii_lower (c : Z) : bool := (97 <=? c) && (c <=? 122).
Definition is_ascii_alphabetic (c : Z) : bool := is_ascii_upper c || is_ascii_lower c.
Definition is_ascii_alphanumeric (c : Z) : bool := is_ascii_alphabetic c || is_ascii_digit c.
Definition is_ascii_hexdigit (c : Z) : bool :=
  is_ascii_digit c || ((65 <=? c) && (c <=? 70)) || ((97 <=? c) && (c <=? 102)).

(** [str::len]. *)
Definition str_len (s : string) : Z := lenZ (str_bytes s).

(** [String::push]. *)
Definition push (s : string) (c : Z) : string := s +:+ bytes_str (encode_utf8 c).

(** [str::to_ascii_uppercase]. *)
Definition byte_to_ascii_uppercase (b : byte) : byte :=
  if in_range 97 122 b then as_u8 (byte_val b - 32) else b.
Definition to_ascii_uppercase (s : string) : string :=
  bytes_str (byte_to_ascii_uppercase <$> str_bytes s).

(** [str::is_char_boundary]. *)
Definition is_char_boundary (l : list byte) (i : Z) : bool :=
  (i =? 0) || (i =? lenZ l)
  || match l !! Z.to_nat i with
     | Some b => (0 <=? i) && negb (is_continuation b)
     | None => false
     end.

(** [&s[a..b]], [None] when the slice panics. *)
Definition str_slice (s : string) (a b : Z) : option string :=
  let l := str_bytes s in
  if (a <=? b) && is_char_boundary l a && is_char_boundary l b
  then Some (bytes_str (take (Z.to_nat (b - a)) (drop (Z.to_nat a) l)))
  else None.

(** The digits of a numeral in base ten. *)
Fixpoint digits_val (acc : Z) (l : list byte) : Z :=
  match l with
  | [] => acc
  | b :: l => digits_val (10 * acc + (byte_val b - 48)) l
  end.

(** ** A valid string is the encoding of its characters *)

Lemma is_scalar_range c :
  is_scalar c = true <-> 0 <= c < 0xD800 \/ 0xE000 <= c < 0x110000.
Proof. unfold is_scalar. lia. Qed.

(** The bytes of an encoding, by its length. *)
Inductive encoding (c : Z) : list byte -> Prop :=
| enc1 b0 : byte_val b0 = c -> 0 <= c < 0x80 -> encoding c [b0]
| enc2 b0 b1 :
    byte_val b0 = 0xC0 + c / 64 -> byte_val b1 = 0x80 + c mod 64 ->
    0x80 <= c < 0x800 -> encoding c [b0; b1]
| enc3 b0 b1 b2 :
    byte_val b0 = 0xE0 + c / 4096 -> byte_val b1 = 0x80 + c / 64 mod 64 ->
    byte_val b2 = 0x80 + c mod 64 ->
    0x800 <= c < 0xD800 \/ 0xE000 <= c < 0x10000 -> encoding c [b0; b1; b2]
| enc4 b0 b1 b2 b3 :
    byte_val b0 = 0xF0 + c / 262144 -> byte_val b1 = 0x80 + c / 4096 mod 64 ->
    byte_val b2 = 0x80 + c / 64 mod 64 -> byte_val b3 = 0x80 + c mod 64 ->
    0x10000 <= c < 0x110000 -> encoding c [b0; b1; b2; b3].

Lemma byte_val_as_u8_small z : 0 <= z < 256 -> byte_val (as_u8 z) = z.
Proof. intros. rewrite byte_val_as_u8. by apply Z.mod_small. Qed.

Lemma encode_utf8_spec c : is_scalar c = true -> encoding c (encode_utf8 c).
Proof.
  intros Hc%is_scalar_range. unfold encode_utf8.
  destruct (Z.ltb_spec c 0x80); [|destruct (Z.ltb_spec c 0x800); [|destruct (Z.ltb_spec c 0x10000)]];
    constructor; try (apply byte_val_as_u8_small; Z.div_mod_to_equations; lia); lia.
Qed.

Lemma encoding_unique c l : encoding c l -> l = encode_utf8 c.
Proof.
  intros [b0 ? H|b0 b1 ?? H|b0 b1 b2 ??? H|b0 b1 b2 b3 ???? H]; unfold encode_utf8;
    repeat (case_match; try lia); repeat f_equal; apply (inj byte_val);
    rewrite byte_val_as_u8_small; try done; Z.div_mod_to_equations; lia.
Qed.

(** The width of a lead byte, by its value. *)
Lemma char_width_val b :
  utf8_char_width b =
    if byte_val b <? 128 then 1%nat
    else if (194 <=? byte_val b) && (byte_val b <=? 223) then 2%nat
    else if (224 <=? byte_val b) && (byte_val b <=? 239) then 3%nat
    else if (240 <=? byte_val b) && (byte_val b <=? 244) then 4%nat
    else 0%nat.
Proof. done. Qed.

Lemma is_continuation_val b :
  is_continuation b = (0x80 <=? byte_val b) && (byte_val b <=? 0xBF).
Proof. done. Qed.

Ltac enc_arith :=
  repeat match goal with
  | H : byte_val _ = _ |- _ => rewrite H in *
  end;
  repeat (case_match; try done);
  try (Z.div_mod_to_equations; lia).

Lemma char_indices_encode c l r pos :
  encoding c l -> char_indices (l ++ r) pos = (pos, c) :: char_indices r (pos + lenZ l).
Proof.
  intros [b0 E0 H|b0 b1 E0 E1 H|b0 b1 b2 E0 E1 E2 H|b0 b1 b2 b3 E0 E1 E2 E3 H];
    cbn [app char_indices]; rewrite char_width_val.
  - replace (byte_val b0 <? 128) with true by lia. by rewrite E0.
  - assert (0xC2 <= byte_val b0 <= 0xDF) by (Z.div_mod_to_equations; lia).
    repeat (case_match; try lia). f_equal. f_equal. Z.div_mod_to_equations; lia.
  - assert (0xE0 <= byte_val b0 <= 0xEF) by (Z.div_mod_to_equations; lia).
    repeat (case_match; try lia). f_equal. f_equal. Z.div_mod_to_equations; lia.
  - assert (0xF0 <= byte_val b0 <= 0xF4) by (Z.div_mod_to_equations; lia).
    repeat (case_match; try lia). f_equal. f_equal. Z.div_mod_to_equations; lia.
Qed.

Lemma second_ok_val b0 b1 :
  second_ok b0 b1 =
    if byte_val b0 =? 0xE0 then (0xA0 <=? byte_val b1) && (byte_val b1 <=? 0xBF)
    else if byte_val b0 =? 0xED then (0x80 <=? byte_val b1) && (byte_val b1 <=? 0x9F)
    else if byte_val b0 =? 0xF0 then (0x90 <=? byte_val b1) && (byte_val b1 <=? 0xBF)
    else if byte_val b0 =? 0xF4 then (0x80 <=? byte_val b1) && (byte_val b1 <=? 0x8F)
    else (0x80 <=? byte_val b1) && (byte_val b1 <=? 0xBF).
Proof. done. Qed.

Lemma run_utf8_encode c l r pos :
  encoding c l -> run_utf8_validation (l ++ r) pos = run_utf8_validation r (pos + lenZ l).
Proof.
  intros [b0 E0 H|b0 b1 E0 E1 H|b0 b1 b2 E0 E1 E2 H|b0 b1 b2 b3 E0 E1 E2 E3 H];
    cbn [app run_utf8_validation]; rewrite char_width_val, ?second_ok_val, ?is_continuation_val.
  - by replace (byte_val b0 <? 128) with true by lia.
  - assert (0xC2 <= byte_val b0 <= 0xDF) by (Z.div_mod_to_equations; lia).
    assert (0x80 <= byte_val b1 <= 0xBF) by (Z.div_mod_to_equations; lia).
    repeat (case_match; try lia). done.
  - assert (0xE0 <= byte_val b0 <= 0xEF) by (Z.div_mod_to_equations; lia).
    assert (0x80 <= byte_val b1 <= 0xBF) by (Z.div_mod_to_equations; lia).
    assert (0x80 <= byte_val b2 <= 0xBF) by (Z.div_mod_to_equations; lia).
    assert (byte_val b0 = 0xE0 -> 0xA0 <= byte_val b1) by (Z.div_mod_to_equations; lia).
    assert (byte_val b0 = 0xED -> byte_val b1 <= 0x9F) by (Z.div_mod_to_equations; lia).
    repeat (case_match; try lia); done.
  - assert (0xF0 <= byte_val b0 <= 0xF4) by (Z.div_mod_to_equations; lia).
    assert (0x80 <= byte_val b1 <= 0xBF) by (Z.div_mod_to_equations; lia).
    assert (0x80 <= byte_val b2 <= 0xBF) by (Z.div_mod_to_equations; lia).
    assert (0x80 <= byte_val b3 <= 0xBF) by (Z.div_mod_to_equations; lia).
    assert (byte_val b0 = 0xF0 -> 0x90 <= byte_val b1) by (Z.div_mod_to_equations; lia).
    assert (byte_val b0 = 0xF4 -> byte_val b1 <= 0x8F) by (Z.div_mod_to_equations; lia).
    repeat (case_match; try lia); done.
Qed.

(** A valid sequence starts with the encoding of a scalar value. *)
Lemma run_utf8_uncons l pos :
  run_utf8_validation l pos = None ->
  l = [] \/ exists c k r, encoding c k /\ l = k ++ r /\
    run_utf8_validation r (pos + lenZ k) = None.
Proof.
  destruct l as [|b0 r]; [by left|]. intros H. right. cbn [run_utf8_validation] in H.
  rewrite char_width_val in H. pose proof (byte_val_range b0).
  destruct (Z.ltb_spec (byte_val b0) 128).
  { exists (byte_val b0), [b0], r. split_and!; [by constructor; lia|done|exact H]. }
  destruct ((194 <=? byte_val b0) && (byte_val b0 <=? 223)) eqn:W2.
  { destruct r as [|b1 r]; [done|]. destruct (is_continuation b1) eqn:C1; [|done].
    rewrite is_continuation_val in C1. pose proof (byte_val_range b1).
    exists ((byte_val b0 - 0xC0) * 64 + (byte_val b1 - 0x80)), [b0; b1], r.
    split_and!; [constructor; Z.div_mod_to_equations; lia|done|exact H]. }
  destruct ((224 <=? byte_val b0) && (byte_val b0 <=? 239)) eqn:W3.
  { destruct r as [|b1 r]; [done|]. destruct (second_ok b0 b1) eqn:C1; [|done].
    destruct r as [|b2 r]; [done|]. destruct (is_continuation b2) eqn:C2; [|done].
    rewrite second_ok_val in C1. rewrite is_continuation_val in C2.
    exists ((byte_val b0 - 0xE0) * 4096 + (byte_val b1 - 0x80) * 64 + (byte_val b2 - 0x80)),
      [b0; b1; b2], r.
    split_and!; [|done|exact H].
    repeat (case_match; try lia); constructor; Z.div_mod_to_equations; lia. }
  destruct ((240 <=? byte_val b0) && (byte_val b0 <=? 244)) eqn:W4; [|done].
  destruct r as [|b1 r]; [done|]. destruct (second_ok b0 b1) eqn:C1; [|done].
  destruct r as [|b2 r]; [done|]. destruct (is_continuation b2) eqn:C2; [|done].
  destruct r as [|b3 r]; [done|]. destruct (is_continuation b3) eqn:C3; [|done].
  rewrite second_ok_val in C1. rewrite is_continuation_val in C2, C3.
  exists ((byte_val b0 - 0xF0) * 262144 + (byte_val b1 - 0x80) * 4096
          + (byte_val b2 - 0x80) * 64 + (byte_val b3 - 0x80)), [b0; b1; b2; b3], r.
  split_and!; [|done|exact H].
  repeat (case_match; try lia); constructor; Z.div_mod_to_equations; lia.
Qed.

Lemma encoding_scalar c l : encoding c l -> is_scalar c = true.
Proof. intros []; apply is_scalar_range; lia. Qed.

Lemma encoding_length c l : encoding c l -> (0 < length l)%nat.
Proof. intros []; simpl; lia. Qed.

(** A string is valid UTF-8 exactly when it is the encoding of scalar values. *)
Lemma run_utf8_decode l pos :
  run_utf8_validation l pos = None ->
  exists cs, Forall (fun c => is_scalar c = true) cs /\ l = encode_chars cs.
Proof.
  remember (length l) as n eqn:Hn. revert l pos Hn.
  induction (lt_wf n) as [n _ IH]. intros l pos -> H.
  apply run_utf8_uncons in H as [->|(c & k & r & Hk & -> & H)]; [by exists []|].
  pose proof (encoding_length _ _ Hk).
  destruct (IH (length r) ltac:(rewrite length_app; lia) r _ eq_refl H) as (cs & Hcs & ->).
  exists (c :: cs). split; [constructor; [by eapply encoding_scalar|done]|].
  unfold encode_chars. simpl. by rewrite (encoding_unique c k).
Qed.

Lemma run_utf8_encode_chars cs pos :
  Forall (fun c => is_scalar c = true) cs -> run_utf8_validation (encode_chars cs) pos = None.
Proof.
  intros H. revert pos. induction H as [|c cs Hc _ IH]; intros pos; [done|].
  unfold encode_chars. simpl. rewrite (run_utf8_encode c); [apply IH|by apply encode_utf8_spec].
Qed.

Lemma utf8_valid_iff s :
  utf8_valid s = true <->
  exists cs, Forall (fun c => is_scalar c = true) cs /\ str_bytes s = encode_chars cs.
Proof.
  unfold utf8_valid. split.
  - destruct (run_utf8_validation _ _) eqn:E; [done|]. intros _. by eapply run_utf8_decode.
  - intros (cs & Hcs & ->). by rewrite run_utf8_encode_chars.
Qed.

(** ** Texts as lists of characters *)

Abbreviation scalars := (Forall (fun c => is_scalar c = true)).

(** The string of some characters, and the characters of a string ([str::chars]). *)
Definition text (cs : list Z) : string := bytes_str (encode_chars cs).
Definition chars_of (s : string) : list Z := (char_indices (str_bytes s) 0).*2.

Lemma encode_chars_app d t : encode_chars (d ++ t) = encode_chars d ++ encode_chars t.
Proof. unfold encode_chars. apply bind_app. Qed.

Lemma encode_chars_cons c t : encode_chars (c :: t) = encode_utf8 c ++ encode_chars t.
Proof. done. Qed.

Lemma chars_of_encode cs p : scalars cs -> (char_indices (encode_chars cs) p).*2 = cs.
Proof.
  intros H. revert p. induction H as [|c cs Hc _ IH]; intros p; [done|].
  rewrite encode_chars_cons, (char_indices_encode c) by (by apply encode_utf8_spec).
  cbn [fmap list_fmap snd]. by rewrite IH.
Qed.

Lemma chars_of_text cs : scalars cs -> chars_of (text cs) = cs.
Proof. intros H. unfold chars_of, text. rewrite str_bytes_str. by apply chars_of_encode. Qed.

Lemma str_bytes_app a b : str_bytes (a +:+ b) = str_bytes a ++ str_bytes b.
Proof.
  unfold str_bytes, String.list_byte_of_string. rewrite <- map_app. f_equal.
  induction a as [|x a IH]; [done|]. exact (f_equal (cons x) IH).
Qed.

Lemma text_app d t : text (d ++ t) = text d +:+ text t.
Proof.
  apply (inj str_bytes). unfold text. rewrite str_bytes_str, encode_chars_app.
  by rewrite str_bytes_app, !str_bytes_str.
Qed.

Lemma utf8_valid_text s : utf8_valid s = true -> scalars (chars_of s) /\ text (chars_of s) = s.
Proof.
  intros (cs & Hcs & E)%utf8_valid_iff. unfold chars_of. rewrite E, chars_of_encode by done.
  split; [done|]. apply (inj str_bytes). unfold text. by rewrite str_bytes_str.
Qed.

Lemma text_utf8_valid cs : scalars cs -> utf8_valid (text cs) = true.
Proof. intros H. apply utf8_valid_iff. exists cs. unfold text. by rewrite str_bytes_str. Qed.
