(* ===== verification/Lexer.v ===== *)
(** * The EpochQL tokenizer ([epochql/src/lexer.rs]) and its errors ([epochql/src/error.rs])

    The lexer walks over the characters of a source text with a position; each loop of
    the code is a [loop] whose fuel is the number of characters plus one. *)

From Stdlib Require Import Strings.Byte Strings.Ascii Floats.SpecFloat.
From S2P Require Import Prelude Utf8 Chars.

(** ** Tokens *)

(** An [f64]. *)
Abbreviation f64 := spec_float.

Inductive TokenKind : Type :=
| KUse | KBranch | KCommit | KTag | KHead | KMatch | KTraverse | KMergeBase | KShortestPath
| KAncestors | KWhere | KSelect | KAs | KCreate | KDelete | KFrom | KCheckout | KMerge | KInto
| KStrategy | KFastForward | KThreeWay | KSquash | KDiff | KAnd | KOr | KMessage | KParents
| KPath | KParent | KChild | KAncestor | KDescendant | KNull | KTrue | KFalse | KCollection
| KIndex | KKey | KDrop | KOn | KTypeKw | KTyString | KTyInt | KTyBool | KTyBytes
| KIdent (s : string)
| KString (s : string)
| KInt (n : Z)
| KFloat (f : f64)
| KSemicolon | KComma | KDot | KColon | KEq | KNeq | KStar | KDotDot | KLParen | KRParen
| KLBrace | KRBrace | KLBracket | KRBracket | KArrowRight | KArrowLeft | KMinus
| KEof.

#[global] Instance f64_eq_dec : EqDecision f64.
Proof. solve_decision. Defined.
#[global] Instance TokenKind_eq_dec : EqDecision TokenKind.
Proof. solve_decision. Defined.

(** [token.kind == TokenKind::Eof]. *)
Definition is_Eof (k : TokenKind) : bool := match k with KEof => true | _ => false end.

Record Token := mk_Token { kind : TokenKind; tok_offset : Z; tok_end : Z }.

(** ** Errors *)

(** The text of an error. [ExpectedFound] stands for the text
    [format!("expected {kind:?}, found {found:?}")], whose tokens are kept unrendered. *)
Inductive Message : Type :=
| Text (s : string)
| ExpectedFound (kind found : TokenKind).

Record ParseError := mk_ParseError {
  message : Message;
  offset : option Z;
  line : option Z;
  column : option Z
}.

Module Error.

(** [ParseError::new]. *)
Definition new (m : string) : ParseError := mk_ParseError (Text m) None None None.

(** [ParseError::at]. *)
Definition at_offset (off : Z) (m : Message) : ParseError :=
  mk_ParseError m (Some off) None None.

Fixpoint line_col_loop (chars : list (Z * Z)) (off line col : Z) : Z * Z :=
  match chars with
  | [] => (line, col)
  | (i, ch) :: chars =>
      if i >=? off then (line, col)
      else if ch =? 10 then line_col_loop chars off (line + 1) 1
      else line_col_loop chars off line (col + 1)
  end.

Definition offset_to_line_col (source : string) (off : Z) : Z * Z :=
  line_col_loop (char_indices (str_bytes source) 0) off 1 1.

(** [ParseError::with_location]. *)
Definition with_location (e : ParseError) (source : string) : ParseError :=
  match offset e with
  | Some off =>
      let '(l, c) := offset_to_line_col source off in
      mk_ParseError (message e) (offset e) (Some l) (Some c)
  | None => e
  end.

(** [Display for ParseError], with the [Debug] rendering of a token. *)
Definition to_string (debug : TokenKind -> string) (e : ParseError) : string :=
  let m := match message e with
           | Text s => s
           | ExpectedFound k f => "expected " +:+ debug k +:+ ", found " +:+ debug f
           end in
  match line e, column e with
  | Some l, Some c => "parse error at " +:+ pretty l +:+ ":" +:+ pretty c +:+ ": " +:+ m
  | _, _ => "parse error: " +:+ m
  end.

End Error.

(** ** Keywords *)

(** The arms of the match on the upper-case text, in order. *)
Definition keywords : list (string * TokenKind) :=
  [("USE", KUse); ("BRANCH", KBranch); ("COMMIT", KCommit); ("TAG", KTag); ("HEAD", KHead);
   ("MATCH", KMatch); ("TRAVERSE", KTraverse); ("MERGE_BASE", KMergeBase);
   ("SHORTEST_PATH", KShortestPath); ("ANCESTORS", KAncestors); ("WHERE", KWhere);
   ("SELECT", KSelect); ("AS", KAs); ("CREATE", KCreate); ("DELETE", KDelete);
   ("FROM", KFrom); ("CHECKOUT", KCheckout); ("MERGE", KMerge); ("INTO", KInto);
   ("STRATEGY", KStrategy); ("FAST_FORWARD", KFastForward); ("THREE_WAY", KThreeWay);
   ("SQUASH", KSquash); ("DIFF", KDiff); ("AND", KAnd); ("OR", KOr); ("MESSAGE", KMessage);
   ("PARENTS", KParents); ("PATH", KPath); ("PARENT", KParent); ("CHILD", KChild);
   ("ANCESTOR", KAncestor); ("DESCENDANT", KDescendant); ("NULL", KNull); ("TRUE", KTrue);
   ("FALSE", KFalse); ("COLLECTION", KCollection); ("INDEX", KIndex); ("KEY", KKey);
   ("DROP", KDrop); ("ON", KOn); ("TYPE", KTypeKw); ("STRING", KTyString); ("INT", KTyInt);
   ("BOOL", KTyBool); ("BYTES", KTyBytes)].

Definition keyword (upper : string) : option TokenKind :=
  snd <$> List.find (fun kv => String.eqb kv.1 upper) keywords.

Definition keyword_or_ident (text : string) : TokenKind :=
  default (KIdent text) (keyword (to_ascii_uppercase text)).

(** ** Numbers of the standard library, on the texts the lexer passes *)

Definition i64_MAX : Z := 2 ^ 63 - 1.

(** [str::parse::<i64>] on digits. *)
Definition parse_i64 (text : string) : option Z :=
  let l := str_bytes text in
  if negb (bool_decide (l = [])) && forallb (fun b => is_ascii_digit (byte_val b)) l then
    let v := digits_val 0 l in
    if v <=? i64_MAX then Some v else None
  else None.

(** The binary64 nearest to [num / den], ties to even. *)
Definition f64_ratio (num : Z) (den : positive) : f64 :=
  match num with
  | Zpos m => SFdiv 53 1024 (S754_finite false m 0) (S754_finite false den 0)
  | _ => S754_zero false
  end.

(** [str::parse::<f64>] on digits, a point and digits. *)
Definition parse_f64 (text : string) : option f64 :=
  let l := str_bytes text in
  match list_find (fun b => byte_val b = char_ascii ".") l with
  | Some (i, _) =>
      let whole := take i l in
      let frac := drop (S i) l in
      if negb (bool_decide (whole = [])) && negb (bool_decide (frac = []))
         && forallb (fun b => is_ascii_digit (byte_val b)) (whole ++ frac)
      then Some (f64_ratio (digits_val 0 (whole ++ frac))
                           (Z.to_pos (10 ^ lenZ frac)))
      else None
  | None => None
  end.

(** ** The lexer *)

Record Lexer := mk_Lexer {
  source : string;
  chars : list (Z * Z);
  pos : nat
}.

Module Lex.

Abbreviation M := (stM Lexer ParseError).

Definition new (source : string) : Lexer :=
  mk_Lexer source (char_indices (str_bytes source) 0) 0.

Definition peek : M (option (Z * Z)) := gets (fun lx => chars lx !! pos lx).

Definition peek_ahead (n : nat) : M (option (Z * Z)) :=
  gets (fun lx => chars lx !! (pos lx + n)%nat).

Definition bump : M (option (Z * Z)) := fun lx =>
  match chars lx !! pos lx with
  | Some item => (Ok (Some item), mk_Lexer (source lx) (chars lx) (S (pos lx)))
  | None => (Ok None, lx)
  end.

(** The fuel of a loop that consumes a character in every turn. *)
Definition chars_fuel : M nat := gets (fun lx => S (length (chars lx))).

(** [while self.peek().is_some_and(|(_, c)| p(c)) { self.bump(); }] *)
Definition bump_while (p : Z -> bool) : M unit :=
  fuel ← chars_fuel;
  loop fuel (fun _ =>
    next ← peek;
    match next with
    | Some (_, ch) => if p ch then _ ← bump; mret (inl tt) else mret (inr tt)
    | None => mret (inr tt)
    end) tt.

(** The rest of a line comment. *)
Definition skip_line : M unit :=
  fuel ← chars_fuel;
  loop fuel (fun _ =>
    next ← peek;
    match next with
    | Some (_, ch) => _ ← bump; if ch =? 10 then mret (inr tt) else mret (inl tt)
    | None => mret (inr tt)
    end) tt.

Definition is_char (c : Z) (o : option (Z * Z)) : bool :=
  match o with Some (_, ch) => ch =? c | None => false end.

Definition skip_whitespace_and_comments : M unit :=
  fuel ← chars_fuel;
  loop fuel (fun _ =>
    _ ← bump_while is_whitespace;
    c0 ← peek;
    c1 ← peek_ahead 1;
    if is_char "-"%char c0 && is_char "-"%char c1 then
      _ ← bump;
      _ ← bump;
      _ ← skip_line;
      mret (inl tt)
    else mret (inr tt)) tt.

Definition current_byte_offset : M Z :=
  gets (fun lx => match chars lx !! pos lx with
                  | Some (i, _) => i
                  | None => str_len (source lx)
                  end).

(** [Err(ParseError::at(offset, m).with_location(self.source))] *)
Definition error_at {A} (off : Z) (m : string) : M A := fun lx =>
  (Err (Error.with_location (Error.at_offset off (Text m)) (source lx)), lx).

(** [&self.source[start..end]] *)
Definition slice (start stop : Z) : M string := fun lx =>
  match str_slice (source lx) start stop with
  | Some s => (Ok s, lx)
  | None => (Panic, lx)
  end.

Definition lex_string (off : Z) : M Token :=
  _ ← bump;
  fuel ← chars_fuel;
  value ← loop fuel (fun value =>
    next ← bump;
    match next with
    | None => error_at off "unterminated string literal"
    | Some (_, c) =>
        if c =? char_quote then mret (inr value)
        else if c =? char_backslash then
          esc ← bump;
          match esc with
          | Some (_, e) =>
              if e =? "n"%char then mret (inl (push value 10))
              else if e =? "t"%char then mret (inl (push value 9))
              else if e =? "r"%char then mret (inl (push value 13))
              else mret (inl (push value e))
          | None => error_at off "unterminated escape in string"
          end
        else mret (inl (push value c))
    end) EmptyString;
  stop ← current_byte_offset;
  mret (mk_Token (KString value) off stop).

Definition lex_number (off : Z) : M Token :=
  _ ← bump_while is_ascii_digit;
  c0 ← peek;
  c1 ← peek_ahead 1;
  if is_char "."%char c0
     && match c1 with Some (_, c) => is_ascii_digit c | None => false end
  then
    _ ← bump;
    _ ← bump_while is_ascii_digit;
    stop ← current_byte_offset;
    text ← slice off stop;
    match parse_f64 text with
    | Some v => mret (mk_Token (KFloat v) off stop)
    | None => error_at off ("invalid float literal '" +:+ text +:+ "'")
    end
  else
    stop ← current_byte_offset;
    text ← slice off stop;
    match parse_i64 text with
    | Some v => mret (mk_Token (KInt v) off stop)
    | None => error_at off ("invalid integer literal '" +:+ text +:+ "'")
    end.

Definition lex_ident_or_keyword (off : Z) : M Token :=
  _ ← bump_while (fun c => is_ascii_alphanumeric c || (c =? "_"%char));
  stop ← current_byte_offset;
  text ← slice off stop;
  mret (mk_Token (keyword_or_ident text) off stop).

(** The arms of [next_token] that consume one character. *)
Definition single (c : Z) : option TokenKind :=
  if c =? ";"%char then Some KSemicolon
  else if c =? ","%char then Some KComma
  else if c =? ":"%char then Some KColon
  else if c =? "*"%char then Some KStar
  else if c =? "("%char then Some KLParen
  else if c =? ")"%char then Some KRParen
  else if c =? "{"%char then Some KLBrace
  else if c =? "}"%char then Some KRBrace
  else if c =? "["%char then Some KLBracket
  else if c =? "]"%char then Some KRBracket
  else if c =? "="%char then Some KEq
  else None.

(** The end of [next_token]: the token from [off] to the position reached. *)
Definition finish (off : Z) (k : TokenKind) : M Token :=
  stop ← current_byte_offset;
  mret (mk_Token k off stop).

Definition next_token : M Token :=
  _ ← skip_whitespace_and_comments;
  next ← peek;
  match next with
  | None => gets (fun lx => mk_Token KEof (str_len (source lx)) (str_len (source lx)))
  | Some (off, ch) =>
      match single ch with
      | Some k => _ ← bump; finish off k
      | None =>
          if ch =? "!"%char then
            _ ← bump;
            c ← peek;
            if is_char "="%char c then _ ← bump; finish off KNeq
            else error_at off "expected '=' after '!'"
          else if ch =? "."%char then
            _ ← bump;
            c ← peek;
            if is_char "."%char c then _ ← bump; finish off KDotDot
            else finish off KDot
          else if ch =? "-"%char then
            _ ← bump;
            c ← peek;
            if is_char ">"%char c then _ ← bump; finish off KArrowRight
            else finish off KMinus
          else if ch =? "<"%char then
            _ ← bump;
            c ← peek;
            if is_char "-"%char c then _ ← bump; finish off KArrowLeft
            else error_at off "expected '-' after '<'"
          else if ch =? char_quote then lex_string off
          else if is_ascii_digit ch then lex_number off
          else if is_ascii_alphabetic ch || (ch =? "_"%char) then lex_ident_or_keyword off
          else error_at off ("unexpected character '" +:+ push EmptyString ch +:+ "'")
      end
  end.

(** Every turn but the last consumes a character. *)
Definition tokenize_loop : M (list Token) :=
  fuel ← chars_fuel;
  loop fuel (fun tokens =>
    token ← next_token;
    let tokens := tokens ++ [token] in
    if is_Eof (kind token) then mret (inr tokens) else mret (inl tokens)) [].

Definition tokenize (lx : Lexer) : outcome ParseError (list Token) := (tokenize_loop lx).1.

End Lex.

(** The kinds of the tokens of a text. *)
Definition kinds (source : string) : outcome ParseError (list TokenKind) :=
  match Lex.tokenize (Lex.new source) with
  | Ok ts => Ok (kind <$> ts)
  | Err e => Err e
  | Panic => Panic
  | OutOfFuel => OutOfFuel
  end.

Example lexes_keywords_and_arrows :
  kinds "use BRANCH main MATCH (a)->(b); -- x" =
  Ok [KUse; KBranch; KIdent "main"; KMatch; KLParen; KIdent "a"; KRParen; KArrowRight;
      KLParen; KIdent "b"; KRParen; KSemicolon; KEof].
Proof. vm_compute. reflexivity. Qed.

Example lexes_numbers :
  kinds "1..5 0.1 .x" =
  Ok [KInt 1; KDotDot; KInt 5; KFloat (S754_finite false 7205759403792794 (-56)); KDot;
      KIdent "x"; KEof].
Proof. vm_compute. reflexivity. Qed.
