(* ===== verification/LexerProofs.v ===== *)
(** * What the tokenizer does on a valid source

    The state of the lexer after the characters [d], with [t] to come, is [lexer_of d t].
    Every operation is a step between such states; [lexeme] says which texts a token kind
    may have and [layout] what may stand between tokens. *)

From Stdlib Require Import Strings.Byte Strings.Ascii Floats.SpecFloat.
From S2P Require Import Prelude Utf8 Chars Lexer.

(** ** Characters and byte offsets *)

Definition offs (d : list Z) : Z := lenZ (encode_chars d).

Lemma offs_app d t : offs (d ++ t) = offs d + offs t.
Proof. unfold offs. by rewrite encode_chars_app, lenZ_app. Qed.

Lemma offs_nonneg d : 0 <= offs d.
Proof. apply lenZ_nonneg. Qed.

Lemma char_indices_chars cs p :
  scalars cs ->
  length (char_indices (encode_chars cs) p) = length cs /\
  forall i, char_indices (encode_chars cs) p !! i =
            (fun c => (p + offs (take i cs), c)) <$> cs !! i.
Proof.
  intros H. revert p. induction H as [|c cs Hc _ IH]; intros p.
  { split; [done|]. intros i. by destruct i. }
  rewrite encode_chars_cons, (char_indices_encode c) by (by apply encode_utf8_spec).
  destruct (IH (p + lenZ (encode_utf8 c))) as [Hl Hi].
  split; [cbn [length]; by rewrite Hl|].
  intros [|i]; cbn [lookup list_lookup take].
  - cbn [fmap option_fmap option_map]. do 2 f_equal. change (offs []) with 0. lia.
  - rewrite Hi. destruct (cs !! i); [|done]. cbn [fmap option_fmap option_map].
    unfold offs. rewrite encode_chars_cons, lenZ_app. do 2 f_equal. lia.
Qed.

Lemma encoding_head c l : encoding c l -> exists b r, l = b :: r /\ is_continuation b = false.
Proof.
  intros [b0 E H|b0 b1 E ? H|b0 b1 b2 E ?? H|b0 b1 b2 b3 E ??? H];
    (do 2 eexists; split; [reflexivity|]); rewrite is_continuation_val, E;
    Z.div_mod_to_equations; lia.
Qed.

Lemma boundary_offs d t :
  scalars t -> is_char_boundary (encode_chars (d ++ t)) (offs d) = true.
Proof.
  intros Ht. rewrite encode_chars_app. unfold is_char_boundary.
  destruct t as [|c t].
  - change (encode_chars []) with (@nil byte). rewrite app_nil_r.
    unfold offs. rewrite Z.eqb_refl. by rewrite orb_true_r.
  - apply Forall_cons in Ht as [Hc _].
    destruct (encoding_head c _ (encode_utf8_spec c Hc)) as (b & r & Hb & Hcont).
    rewrite encode_chars_cons, Hb.
    rewrite lookup_app_r by (unfold offs, lenZ; lia).
    replace (Z.to_nat (offs d) - length (encode_chars d))%nat with 0%nat by (unfold offs, lenZ; lia).
    simpl. rewrite Hcont. pose proof (offs_nonneg d).
    replace (0 <=? offs d) with true by (symmetry; lia). by rewrite !orb_true_r.
Qed.

Lemma slice_text d m t :
  scalars (m ++ t) -> str_slice (text (d ++ m ++ t)) (offs d) (offs (d ++ m)) = Some (text m).
Proof.
  intros H. unfold str_slice, text. rewrite str_bytes_str.
  rewrite boundary_offs by done. rewrite app_assoc, boundary_offs
    by (by apply Forall_app in H as [_ ?]).
  rewrite offs_app. pose proof (offs_nonneg m).
  replace (_ <=? _) with true by lia. cbn [andb]. do 2 f_equal.
  rewrite <- app_assoc, !encode_chars_app.
  replace (Z.to_nat (offs d)) with (length (encode_chars d)) by (unfold offs, lenZ; lia).
  replace (Z.to_nat (offs d + offs m - offs d)) with (length (encode_chars m))
    by (unfold offs, lenZ; lia).
  by rewrite drop_app_length, take_app_length.
Qed.

(** ** The states of the lexer *)

Definition lexer_of (d t : list Z) : Lexer :=
  mk_Lexer (text (d ++ t)) (char_indices (encode_chars (d ++ t)) 0) (length d).

Lemma new_lexer_of cs : Lex.new (text cs) = lexer_of [] cs.
Proof. unfold Lex.new, lexer_of. simpl. unfold text. by rewrite str_bytes_str. Qed.

(** The next characters, with their offsets. *)
Lemma chars_lookup d t k :
  scalars (d ++ t) ->
  chars (lexer_of d t) !! (length d + k)%nat =
    (fun c => (offs (d ++ take k t), c)) <$> t !! k.
Proof.
  intros H. unfold lexer_of. cbn [chars].
  destruct (char_indices_chars _ 0 H) as [_ ->].
  rewrite lookup_app_r by lia. replace (length d + k - length d)%nat with k by lia.
  rewrite take_app_ge by lia. by replace (length d + k - length d)%nat with k by lia.
Qed.

Lemma chars_lookup_0 d t :
  scalars (d ++ t) ->
  chars (lexer_of d t) !! pos (lexer_of d t) =
    match t with [] => None | c :: _ => Some (offs d, c) end.
Proof.
  intros H. change (pos (lexer_of d t)) with (length d).
  rewrite <- (Nat.add_0_r (length d)), chars_lookup by done.
  rewrite take_0, app_nil_r. by destruct t.
Qed.

Lemma lexer_of_shift d c t : lexer_of (d ++ [c]) t = 
  mk_Lexer (source (lexer_of d (c :: t))) (chars (lexer_of d (c :: t))) (S (pos (lexer_of d (c :: t)))).
Proof.
  unfold lexer_of. cbn [source chars pos]. rewrite <- app_assoc. simpl. f_equal.
  rewrite length_app. simpl. lia.
Qed.

Lemma scalars_shift d c t : scalars (d ++ c :: t) -> scalars ((d ++ [c]) ++ t).
Proof. by rewrite <- app_assoc. Qed.

Section steps.
Context (d : list Z).

Lemma peek_cons c t : scalars (d ++ c :: t) ->
  Lex.peek (lexer_of d (c :: t)) = (Ok (Some (offs d, c)), lexer_of d (c :: t)).
Proof. intros H. unfold Lex.peek, gets. by rewrite chars_lookup_0. Qed.

Lemma peek_nil : scalars d -> Lex.peek (lexer_of d []) = (Ok None, lexer_of d []).
Proof. intros H. unfold Lex.peek, gets. rewrite chars_lookup_0; [done|by rewrite app_nil_r]. Qed.

Lemma peek_ahead_1 c t : scalars (d ++ c :: t) ->
  Lex.peek_ahead 1 (lexer_of d (c :: t)) =
    (Ok (match t with [] => None | e :: _ => Some (offs (d ++ [c]), e) end), lexer_of d (c :: t)).
Proof.
  intros H. unfold Lex.peek_ahead, gets. change (pos (lexer_of d (c :: t))) with (length d).
  rewrite chars_lookup by done. simpl. rewrite take_0. by destruct t.
Qed.

Lemma bump_cons c t : scalars (d ++ c :: t) ->
  Lex.bump (lexer_of d (c :: t)) = (Ok (Some (offs d, c)), lexer_of (d ++ [c]) t).
Proof. intros H. unfold Lex.bump. rewrite chars_lookup_0 by done. by rewrite lexer_of_shift. Qed.

Lemma bump_nil : scalars d -> Lex.bump (lexer_of d []) = (Ok None, lexer_of d []).
Proof. intros H. unfold Lex.bump. rewrite chars_lookup_0; [done|by rewrite app_nil_r]. Qed.

Lemma chars_fuel_eq t : scalars (d ++ t) ->
  Lex.chars_fuel (lexer_of d t) = (Ok (S (length (d ++ t))), lexer_of d t).
Proof.
  intros H. unfold Lex.chars_fuel, gets, lexer_of. cbn [chars].
  by destruct (char_indices_chars _ 0 H) as [-> _].
Qed.

Lemma current_byte_offset_eq t : scalars (d ++ t) ->
  Lex.current_byte_offset (lexer_of d t) = (Ok (offs d), lexer_of d t).
Proof.
  intros H. unfold Lex.current_byte_offset, gets. rewrite chars_lookup_0 by done.
  destruct t; [|done]. unfold lexer_of, str_len, text. cbn [source].
  rewrite str_bytes_str, app_nil_r. done.
Qed.

End steps.

Lemma slice_eq d m t : scalars (d ++ m ++ t) ->
  Lex.slice (offs d) (offs (d ++ m)) (lexer_of (d ++ m) t) = (Ok (text m), lexer_of (d ++ m) t).
Proof.
  intros H. unfold Lex.slice, lexer_of. cbn [source]. rewrite <- app_assoc.
  rewrite slice_text; [done|]. by apply Forall_app in H as [_ ?].
Qed.

(** ** Consuming a run of characters *)

(** [m] is the longest prefix of [m ++ t] in [p]. *)
Definition maximal (p : Z -> bool) (m t : list Z) : Prop :=
  Forall (fun c => p c = true) m /\
  match t with [] => True | c :: _ => p c = false end.

Lemma maximal_split p l : exists m t, l = m ++ t /\ maximal p m t.
Proof.
  induction l as [|c l (m & t & -> & Hm & Ht)]; [by exists [], []|].
  destruct (p c) eqn:Hc.
  - exists (c :: m), t. split; [done|]. by split; [constructor|].
  - exists [], (c :: m ++ t). split; [done|]. split; [constructor|done].
Qed.

Ltac lex_step :=
  first
    [ erewrite stM_bind_Ok by (first [apply peek_cons | apply peek_nil | apply bump_cons
        | apply bump_nil | apply peek_ahead_1 | apply chars_fuel_eq
        | apply current_byte_offset_eq | apply slice_eq];
        (eassumption || (rewrite ?app_nil_r in *; eassumption)
         || (rewrite <- ?app_assoc in *; simpl in *; eassumption)))
    | rewrite stM_bind_eq ].

Lemma bump_while_eq p d m t :
  scalars (d ++ m ++ t) -> maximal p m t ->
  Lex.bump_while p (lexer_of d (m ++ t)) = (Ok tt, lexer_of (d ++ m) t).
Proof.
  intros H [Hm Ht]. unfold Lex.bump_while. rewrite (stM_bind_Ok _ _ _ _ _ (chars_fuel_eq d _ H)).
  assert (length m < S (length (d ++ m ++ t)))%nat as Hf by (rewrite !length_app; lia).
  revert Hf. generalize (S (length (d ++ m ++ t))) as fuel.
  revert d H. induction Hm as [|c m Hc _ IH]; intros d H fuel Hf;
    (destruct fuel as [|fuel]; [simpl in Hf; lia|]); cbn [loop app].
  - rewrite app_nil_r, stM_bind_eq. destruct t as [|c t].
    + rewrite (stM_bind_Ok _ _ _ _ _ (peek_nil d ltac:(by rewrite !app_nil_r in H))). done.
    + rewrite (stM_bind_Ok _ _ _ _ _ (peek_cons d c t H)). by rewrite Ht.
  - rewrite stM_bind_eq, (stM_bind_Ok _ _ _ _ _ (peek_cons d c (m ++ t) H)), Hc.
    rewrite (stM_bind_Ok _ _ _ _ _ (bump_cons d c (m ++ t) H)). cbn [mret stM_ret].
    rewrite (IH (d ++ [c])); [|by rewrite <- app_assoc|simpl in Hf; lia].
    by rewrite <- app_assoc.
Qed.

(** ** Layout: white space and comments *)

(** A sequence of white space and line comments; only the last comment of a source may
    lack its newline ([final]). *)
Inductive layout (final : bool) : list Z -> Prop :=
| lay_nil : layout final []
| lay_ws c l : is_whitespace c = true -> layout final l -> layout final (c :: l)
| lay_comment body l :
    10 ∉ body -> layout final l -> layout final ([45; 45] ++ body ++ 10 :: l)
| lay_last body : final = true -> 10 ∉ body -> layout final ([45; 45] ++ body).

(** The text does not start with layout. *)
Definition no_layout (t : list Z) : Prop :=
  match t with
  | [] => True
  | c :: r => is_whitespace c = false /\ ~ (c = 45 /\ head r = Some 45)
  end.

Lemma layout_app final l k : layout false l -> layout final k -> layout final (l ++ k).
Proof.
  intros Hl Hk. induction Hl as [|c l Hc _ IH|body l Hb _ IH|body Hf]; simpl; [done| | |done].
  - by constructor.
  - rewrite <- app_assoc. simpl. by apply (lay_comment _ body).
Qed.

Lemma layout_ws final m : Forall (fun c => is_whitespace c = true) m -> layout final m.
Proof. induction 1; by constructor. Qed.

(** The rest of a comment: up to the newline, or to the end. *)
Lemma skip_line_eq d body t :
  scalars (d ++ body ++ 10 :: t) -> 10 ∉ body ->
  Lex.skip_line (lexer_of d (body ++ 10 :: t)) =
    (Ok tt, lexer_of (d ++ body ++ [10]) t).
Proof.
  intros H Hb. unfold Lex.skip_line. rewrite (stM_bind_Ok _ _ _ _ _ (chars_fuel_eq d _ H)).
  assert (length body < S (length (d ++ body ++ 10%Z :: t)))%nat as Hf
    by (rewrite !length_app; simpl; lia).
  revert Hf. generalize (S (length (d ++ body ++ 10 :: t))) as fuel.
  revert d H. induction body as [|c body IH]; intros d H fuel Hf;
    (destruct fuel as [|fuel]; [simpl in Hf; lia|]); cbn [loop app]; rewrite stM_bind_eq.
  - rewrite (stM_bind_Ok _ _ _ _ _ (peek_cons d _ _ H)).
    by rewrite (stM_bind_Ok _ _ _ _ _ (bump_cons d _ _ H)).
  - rewrite (stM_bind_Ok _ _ _ _ _ (peek_cons d _ _ H)).
    rewrite (stM_bind_Ok _ _ _ _ _ (bump_cons d _ _ H)).
    apply not_elem_of_cons in Hb as [Hc Hb].
    destruct (Z.eqb_spec c 10) as [->|_]; [done|]. cbn [mret stM_ret].
    rewrite (IH Hb (d ++ [c])); [|by rewrite <- app_assoc|simpl in Hf; lia].
    by rewrite <- app_assoc.
Qed.

Lemma skip_line_last d body :
  scalars (d ++ body) -> 10 ∉ body ->
  Lex.skip_line (lexer_of d body) = (Ok tt, lexer_of (d ++ body) []).
Proof.
  intros H Hb. unfold Lex.skip_line. rewrite (stM_bind_Ok _ _ _ _ _ (chars_fuel_eq d _ H)).
  assert (length body < S (length (d ++ body)))%nat as Hf by (rewrite !length_app; lia).
  revert Hf. generalize (S (length (d ++ body))) as fuel.
  revert d H. induction body as [|c body IH]; intros d H fuel Hf;
    (destruct fuel as [|fuel]; [simpl in Hf; lia|]); cbn [loop app]; rewrite stM_bind_eq.
  - rewrite app_nil_r in *. by rewrite (stM_bind_Ok _ _ _ _ _ (peek_nil d H)).
  - rewrite (stM_bind_Ok _ _ _ _ _ (peek_cons d _ _ H)).
    rewrite (stM_bind_Ok _ _ _ _ _ (bump_cons d _ _ H)).
    apply not_elem_of_cons in Hb as [Hc Hb].
    destruct (Z.eqb_spec c 10) as [->|_]; [done|]. cbn [mret stM_ret].
    rewrite (IH Hb (d ++ [c])); [|by rewrite <- app_assoc|simpl in Hf; lia].
    by rewrite <- app_assoc.
Qed.

(** A text splits at its first newline. *)
Lemma split_newline (l : list Z) :
  (exists body t, l = body ++ 10 :: t /\ 10 ∉ body) \/ 10 ∉ l.
Proof.
  induction l as [|c l [(body & t & -> & Hb)|Hl]]; [right; apply not_elem_of_nil| |].
  - left. destruct (decide (c = 10)) as [->|].
    + exists [], (body ++ 10 :: t). split; [done|apply not_elem_of_nil].
    + exists (c :: body), t. split; [done|]. apply not_elem_of_cons. auto.
  - destruct (decide (c = 10)) as [->|]; [left; exists [], l; split; [done|apply not_elem_of_nil]|].
    right. apply not_elem_of_cons. auto.
Qed.

(** Skipping layout consumes the longest layout and stops before anything else. *)
Lemma skip_layout d t :
  scalars (d ++ t) ->
  exists lay t', t = lay ++ t' /\
    Lex.skip_whitespace_and_comments (lexer_of d t) = (Ok tt, lexer_of (d ++ lay) t') /\
    no_layout t' /\ (layout false lay \/ t' = [] /\ layout true lay).
Proof.
  intros H. unfold Lex.skip_whitespace_and_comments.
  rewrite (stM_bind_Ok _ _ _ _ _ (chars_fuel_eq d _ H)).
  assert (length t < S (length (d ++ t)))%nat as Hf by (rewrite length_app; lia).
  revert Hf. generalize (S (length (d ++ t))) as fuel. intros fuel. revert d t H.
  induction fuel as [|fuel IH]; intros d t H Hf; [lia|]. cbn [loop]. rewrite stM_bind_eq.
  destruct (maximal_split is_whitespace t) as (m & u & -> & Hm).
  pose proof Hm as [Hws Hu].
  rewrite (stM_bind_Ok _ _ _ _ _ (bump_while_eq _ d m u H Hm)).
  rewrite app_assoc in H. destruct u as [|c u].
  { rewrite app_nil_r in H. rewrite (stM_bind_Ok _ _ _ _ _ (peek_nil _ H)).
    exists m, []. split_and!; [done| |done|left; by apply layout_ws]. reflexivity. }
  rewrite (stM_bind_Ok _ _ _ _ _ (peek_cons _ c u H)).
  rewrite (stM_bind_Ok _ _ _ _ _ (peek_ahead_1 _ c u H)).
  cbn [Lex.is_char]. change (char_ascii "-"%char) with 45 in IH |- *.
  destruct (Z.eqb_spec c 45) as [->|Hc].
  2: { simpl. exists m, (c :: u). split_and!; [done|done| |left; by apply layout_ws].
       split; [done|]. intros [? _]. done. }
  destruct u as [|e u].
  { simpl. exists m, [45]. split_and!; [done|done| |left; by apply layout_ws].
    split; [done|]. intros [_ ?]. done. }
  cbn [Lex.is_char]. destruct (Z.eqb_spec e 45) as [->|He].
  2: { simpl. exists m, (45 :: e :: u). split_and!; [done|done| |left; by apply layout_ws].
       split; [done|]. intros [_ [= ?]]. done. }
  cbn [andb].
  rewrite (stM_bind_Ok _ _ _ _ _ (bump_cons _ 45 _ H)).
  apply scalars_shift in H. rewrite (stM_bind_Ok _ _ _ _ _ (bump_cons _ 45 _ H)).
  apply scalars_shift in H. destruct (split_newline u) as [(body & t & -> & Hb)|Hb].
  - rewrite (stM_bind_Ok _ _ _ _ _ (skip_line_eq _ body t H Hb)). cbn [mret stM_ret].
    destruct (IH ((((d ++ m) ++ [45]) ++ [45]) ++ body ++ [10]) t) as (lay & t' & -> & E & Hn & Hl).
    { revert H. by rewrite <- !(assoc_L (++)). }
    { rewrite !length_app in Hf. simpl in Hf. rewrite length_app in Hf. simpl in Hf. lia. }
    exists (m ++ [45; 45] ++ body ++ 10 :: lay), t'. split_and!.
    + by rewrite <- !(assoc_L (++)).
    + rewrite E. by rewrite <- !(assoc_L (++)).
    + done.
    + destruct Hl as [Hl|[-> Hl]]; [left|right; split; [done|]];
        (apply layout_app; [by apply layout_ws|by apply (lay_comment _ body)]).
  - rewrite (stM_bind_Ok _ _ _ _ _ (skip_line_last _ u H Hb)). cbn [mret stM_ret].
    destruct (IH ((((d ++ m) ++ [45]) ++ [45]) ++ u) []) as (lay & t' & E0 & E & Hn & Hl).
    { by rewrite app_nil_r. }
    { simpl. rewrite !length_app in Hf. simpl in Hf. lia. }
    symmetry in E0. apply app_nil in E0 as [-> ->].
    exists (m ++ [45; 45] ++ u), []. split_and!.
    + rewrite app_nil_r. done.
    + rewrite E, app_nil_r, <- !app_assoc. done.
    + done.
    + right. split; [done|]. apply layout_app; [by apply layout_ws|by apply lay_last].
Qed.

Lemma layout_final l : layout false l -> layout true l.
Proof. induction 1; by constructor. Qed.

(** ** String literals *)

Definition escape_char (e : Z) : Z :=
  if e =? "n"%char then 10 else if e =? "t"%char then 9 else if e =? "r"%char then 13 else e.

(** [str_body v body w]: the characters between the quotes append to [v] what makes [w]. *)
Inductive str_body : string -> list Z -> string -> Prop :=
| sb_nil v : str_body v [] v
| sb_char v c body w :
    c ≠ char_quote -> c ≠ char_backslash -> str_body (push v c) body w ->
    str_body v (c :: body) w
| sb_escape v e body w :
    str_body (push v (escape_char e)) body w -> str_body v (char_backslash :: e :: body) w.

(** The characters after a quote contain no closing quote. *)
Inductive unterminated : list Z -> Prop :=
| ut_nil : unterminated []
| ut_backslash : unterminated [char_backslash]
| ut_char c t :
    c ≠ char_quote -> c ≠ char_backslash -> unterminated t -> unterminated (c :: t)
| ut_escape e t : unterminated t -> unterminated (char_backslash :: e :: t).

Lemma str_body_or_unterminated t v :
  (exists body rest w, t = body ++ char_quote :: rest /\ str_body v body w) \/ unterminated t.
Proof.
  remember (length t) as n eqn:Hn. revert t v Hn.
  induction (lt_wf n) as [n _ IH]. intros [|c t] v ->; [right; constructor|].
  destruct (decide (c = char_quote)) as [->|Hq].
  { left. exists [], t, v. split; [done|constructor]. }
  destruct (decide (c = char_backslash)) as [->|Hb].
  - destruct t as [|e t]; [right; constructor|].
    destruct (IH (length t) ltac:(simpl; lia) t (push v (escape_char e)) eq_refl)
      as [(body & rest & w & -> & Hw)|Hu].
    + left. exists (char_backslash :: e :: body), rest, w. split; [done|by constructor].
    + right. by constructor.
  - destruct (IH (length t) ltac:(simpl; lia) t (push v c) eq_refl)
      as [(body & rest & w & -> & Hw)|Hu].
    + left. exists (c :: body), rest, w. split; [done|by constructor].
    + right. by constructor.
Qed.

(** The loop of [lex_string]. *)
Definition string_loop (off : Z) (fuel : nat) : string -> Lex.M string :=
  loop fuel (fun value =>
    next ← Lex.bump;
    match next with
    | None => Lex.error_at off "unterminated string literal"
    | Some (_, c) =>
        if c =? char_quote then mret (inr value)
        else if c =? char_backslash then
          esc ← Lex.bump;
          match esc with
          | Some (_, e) =>
              if e =? "n"%char then mret (inl (push value 10))
              else if e =? "t"%char then mret (inl (push value 9))
              else if e =? "r"%char then mret (inl (push value 13))
              else mret (inl (push value e))
          | None => Lex.error_at off "unterminated escape in string"
          end
        else mret (inl (push value c))
    end).

Lemma escape_eq {S E} (v : string) (e : Z) :
  (if e =? "n"%char then mret (inl (push v 10))
   else if e =? "t"%char then mret (inl (push v 9))
   else if e =? "r"%char then mret (inl (push v 13))
   else mret (inl (push v e)) : stM S E (string + string)) = mret (inl (push v (escape_char e))).
Proof. unfold escape_char. by repeat case_match. Qed.

Lemma string_loop_body off body v w d rest fuel :
  str_body v body w -> scalars (d ++ body ++ char_quote :: rest) ->
  (length body < fuel)%nat ->
  string_loop off fuel v (lexer_of d (body ++ char_quote :: rest)) =
    (Ok w, lexer_of (d ++ body ++ [char_quote]) rest).
Proof.
  intros Hb. revert d fuel. induction Hb as [v|v c body w Hq Hbs _ IH|v e body w _ IH];
    intros d fuel H Hf; (destruct fuel as [|fuel]; [simpl in Hf; lia|]);
    unfold string_loop; cbn [loop app]; fold (string_loop off fuel);
    rewrite stM_bind_eq, (stM_bind_Ok _ _ _ _ _ (bump_cons d _ _ H)).
  - done.
  - replace (c =? char_quote) with false by lia. replace (c =? char_backslash) with false by lia.
    cbn [mret stM_ret].
    rewrite (IH (d ++ [c])); [|by rewrite <- app_assoc|simpl in Hf; lia].
    by rewrite <- app_assoc.
  - change (char_backslash =? char_quote) with false.
    change (char_backslash =? char_backslash) with true. cbn iota. apply scalars_shift in H.
    rewrite (stM_bind_Ok _ _ _ _ _ (bump_cons _ e _ H)).
    rewrite escape_eq.
    cbn [mret stM_ret].
    rewrite (IH ((d ++ [char_backslash]) ++ [e])); [|by rewrite <- app_assoc|simpl in Hf; lia].
    by rewrite <- !(assoc_L (++)).
Qed.

Lemma string_loop_unterminated off v d t fuel :
  unterminated t -> scalars (d ++ t) -> (length t < fuel)%nat ->
  exists e lx, string_loop off fuel v (lexer_of d t) = (Err e, lx).
Proof.
  intros Hu. revert v d fuel. induction Hu as [| |c t Hq Hbs _ IH|e t _ IH];
    intros v d fuel H Hf; (destruct fuel as [|fuel]; [simpl in Hf; lia|]);
    unfold string_loop; cbn [loop app]; fold (string_loop off fuel); rewrite stM_bind_eq.
  - rewrite app_nil_r in H. rewrite (stM_bind_Ok _ _ _ _ _ (bump_nil d H)). by do 2 eexists.
  - rewrite (stM_bind_Ok _ _ _ _ _ (bump_cons d _ _ H)).
    change (char_backslash =? char_quote) with false.
    change (char_backslash =? char_backslash) with true. cbn iota. apply scalars_shift in H.
    rewrite app_nil_r in H. rewrite (stM_bind_Ok _ _ _ _ _ (bump_nil _ H)). by do 2 eexists.
  - rewrite (stM_bind_Ok _ _ _ _ _ (bump_cons d _ _ H)).
    replace (c =? char_quote) with false by lia. replace (c =? char_backslash) with false by lia.
    cbn [mret stM_ret]. apply IH; [by apply scalars_shift|simpl in Hf; lia].
  - rewrite (stM_bind_Ok _ _ _ _ _ (bump_cons d _ _ H)).
    change (char_backslash =? char_quote) with false.
    change (char_backslash =? char_backslash) with true. cbn iota. apply scalars_shift in H.
    rewrite (stM_bind_Ok _ _ _ _ _ (bump_cons _ e _ H)), escape_eq.
    cbn [mret stM_ret]. apply IH; [by apply scalars_shift|simpl in Hf; lia].
Qed.

Lemma lex_string_eq off d t :
  scalars (d ++ char_quote :: t) ->
  Lex.lex_string off (lexer_of d (char_quote :: t)) =
  (value ← string_loop off (S (length (d ++ char_quote :: t))) EmptyString;
   stop ← Lex.current_byte_offset;
   mret (mk_Token (KString value) off stop)) (lexer_of (d ++ [char_quote]) t).
Proof.
  intros H. unfold Lex.lex_string. rewrite (stM_bind_Ok _ _ _ _ _ (bump_cons d _ _ H)).
  apply scalars_shift in H. rewrite (stM_bind_Ok _ _ _ _ _ (chars_fuel_eq _ _ H)).
  by rewrite <- app_assoc.
Qed.

Lemma lex_string_ok off d body v rest :
  scalars (d ++ char_quote :: body ++ char_quote :: rest) -> str_body EmptyString body v ->
  let txt := char_quote :: body ++ [char_quote] in
  Lex.lex_string off (lexer_of d (char_quote :: body ++ char_quote :: rest)) =
    (Ok (mk_Token (KString v) off (offs (d ++ txt))), lexer_of (d ++ txt) rest).
Proof.
  intros H Hb txt. rewrite lex_string_eq by done.
  erewrite stM_bind_Ok.
  2: { apply string_loop_body; [exact Hb|by apply scalars_shift|].
       rewrite !length_app. simpl. rewrite length_app. lia. }
  replace ((d ++ [char_quote]) ++ body ++ [char_quote]) with (d ++ txt)
    by (subst txt; by rewrite <- (assoc_L (++))).
  assert (scalars ((d ++ txt) ++ rest)) as H'.
  { subst txt. revert H. rewrite <- !(assoc_L (++)). cbn [app]. by rewrite <- (assoc_L (++)). }
  cbv beta. by rewrite (stM_bind_Ok _ _ _ _ _ (current_byte_offset_eq _ rest H')).
Qed.

Lemma lex_string_err off d t :
  scalars (d ++ char_quote :: t) -> unterminated t ->
  exists e lx, Lex.lex_string off (lexer_of d (char_quote :: t)) = (Err e, lx).
Proof.
  intros H Hu. rewrite lex_string_eq by done.
  destruct (string_loop_unterminated off EmptyString (d ++ [char_quote]) t
    (S (length (d ++ char_quote :: t))) Hu) as (e & lx & E).
  { by apply scalars_shift. }
  { rewrite !length_app. simpl. lia. }
  exists e, lx. by apply stM_bind_Err.
Qed.

(** ** Words and numbers *)

Definition word_start (c : Z) : bool := is_ascii_alphabetic c || (c =? "_"%char).
Definition word_char (c : Z) : bool := is_ascii_alphanumeric c || (c =? "_"%char).

Lemma lex_word_eq d m t :
  scalars (d ++ m ++ t) -> maximal word_char m t ->
  Lex.lex_ident_or_keyword (offs d) (lexer_of d (m ++ t)) =
    (Ok (mk_Token (keyword_or_ident (text m)) (offs d) (offs (d ++ m))), lexer_of (d ++ m) t).
Proof.
  intros H Hm. unfold Lex.lex_ident_or_keyword.
  rewrite (stM_bind_Ok _ _ _ _ _ (bump_while_eq _ d m t H Hm)).
  rewrite (stM_bind_Ok _ _ _ _ _ (current_byte_offset_eq _ t ltac:(by rewrite <- app_assoc))).
  by rewrite (stM_bind_Ok _ _ _ _ _ (slice_eq d m t H)).
Qed.

Definition digits (m : list Z) : Prop := m ≠ [] /\ Forall (fun c => is_ascii_digit c = true) m.

(** What follows an integer: no further digit, and no point with a digit. *)
Definition ends_int (t : list Z) : Prop :=
  match t with
  | [] => True
  | c :: r => is_ascii_digit c = false /\
      ~ (c = 46 /\ match r with e :: _ => is_ascii_digit e = true | [] => False end)
  end.

Definition ends_digits (t : list Z) : Prop :=
  match t with [] => True | c :: _ => is_ascii_digit c = false end.

(** The error of [lex_number]. *)
Definition number_error (kind_name : string) (off : Z) (txt : list Z) (lx : Lexer) : ParseError :=
  Error.with_location (Error.at_offset off
    (Text ("invalid " +:+ kind_name +:+ " literal '" +:+ text txt +:+ "'"))) (source lx).

Lemma lex_int_eq d m t :
  scalars (d ++ m ++ t) -> digits m -> ends_int t ->
  Lex.lex_number (offs d) (lexer_of d (m ++ t)) =
    match parse_i64 (text m) with
    | Some v => (Ok (mk_Token (KInt v) (offs d) (offs (d ++ m))), lexer_of (d ++ m) t)
    | None => (Err (number_error "integer" (offs d) m (lexer_of (d ++ m) t)), lexer_of (d ++ m) t)
    end.
Proof.
  intros H [_ Hm] He. unfold Lex.lex_number.
  assert (maximal is_ascii_digit m t) as Hmax.
  { split; [done|]. destruct t; [done|]. by destruct He. }
  rewrite (stM_bind_Ok _ _ _ _ _ (bump_while_eq _ d m t H Hmax)).
  assert (scalars ((d ++ m) ++ t)) as H' by (by rewrite <- app_assoc).
  assert (forall k, (stop ← Lex.current_byte_offset; text ← Lex.slice (offs d) stop; k stop text)
    (lexer_of (d ++ m) t) = k (offs (d ++ m)) (text m) (lexer_of (d ++ m) t)
    :> outcome ParseError Token * Lexer) as Hk.
  { intros k. rewrite (stM_bind_Ok _ _ _ _ _ (current_byte_offset_eq _ t H')).
    by rewrite (stM_bind_Ok _ _ _ _ _ (slice_eq d m t H)). }
  destruct t as [|c r].
  - pose proof H' as H0. rewrite app_nil_r in H0.
    rewrite (stM_bind_Ok _ _ _ _ _ (peek_nil _ H0)).
    rewrite stM_bind_eq. unfold Lex.peek_ahead, gets. cbn [Lex.is_char andb].
    rewrite Hk. by destruct (parse_i64 _).
  - rewrite (stM_bind_Ok _ _ _ _ _ (peek_cons _ c r H')).
    rewrite (stM_bind_Ok _ _ _ _ _ (peek_ahead_1 _ c r H')).
    assert (Lex.is_char "."%char (Some (offs (d ++ m), c)) &&
      match (match r with [] => None | e :: _ => Some (offs ((d ++ m) ++ [c]), e) end) with
      | Some (_, c) => is_ascii_digit c | None => false end = false) as ->.
    { cbn [Lex.is_char]. change (char_ascii "."%char) with 46. destruct He as [_ He].
      destruct (Z.eqb_spec c 46) as [->|]; [|done]. destruct r as [|e r]; [done|].
      cbn [andb]. destruct (is_ascii_digit e) eqn:Ee; [|done]. by destruct He. }
    rewrite Hk. by destruct (parse_i64 _).
Qed.

Lemma lex_float_eq d w f t :
  scalars (d ++ (w ++ 46 :: f) ++ t) -> digits w -> digits f -> ends_digits t ->
  let m := w ++ 46 :: f in
  Lex.lex_number (offs d) (lexer_of d (m ++ t)) =
    match parse_f64 (text m) with
    | Some v => (Ok (mk_Token (KFloat v) (offs d) (offs (d ++ m))), lexer_of (d ++ m) t)
    | None => (Err (number_error "float" (offs d) m (lexer_of (d ++ m) t)), lexer_of (d ++ m) t)
    end.
Proof.
  intros H [_ Hw] [Hf0 Hf] He m. unfold Lex.lex_number.
  assert (scalars (d ++ w ++ 46 :: f ++ t)) as H1.
  { revert H. by rewrite <- !(assoc_L (++)). }
  assert (m ++ t = w ++ 46 :: f ++ t) as -> by (subst m; by rewrite <- (assoc_L (++))).
  rewrite (stM_bind_Ok _ _ _ _ _ (bump_while_eq _ d w (46 :: f ++ t) H1 ltac:(by split))).
  rewrite app_assoc in H1.
  rewrite (stM_bind_Ok _ _ _ _ _ (peek_cons _ _ _ H1)).
  rewrite (stM_bind_Ok _ _ _ _ _ (peek_ahead_1 _ _ _ H1)).
  assert (Lex.is_char "."%char (Some (offs (d ++ w), 46)) &&
      match (match f ++ t with [] => None | e :: _ => Some (offs ((d ++ w) ++ [46]), e) end) with
      | Some (_, c) => is_ascii_digit c | None => false end = true) as ->.
  { destruct f as [|e f]; [done|]. cbn [app]. by apply Forall_cons in Hf as [-> _]. }
  rewrite (stM_bind_Ok _ _ _ _ _ (bump_cons _ _ _ H1)). apply scalars_shift in H1.
  rewrite (stM_bind_Ok _ _ _ _ _ (bump_while_eq _ _ f t H1 ltac:(by split))).
  replace (((d ++ w) ++ [46]) ++ f) with (d ++ m) by (subst m; by rewrite <- !(assoc_L (++))).
  assert (scalars ((d ++ m) ++ t)) as H' by (by rewrite <- app_assoc).
  rewrite (stM_bind_Ok _ _ _ _ _ (current_byte_offset_eq _ t H')).
  rewrite (stM_bind_Ok _ _ _ _ _ (slice_eq d m t H)).
  by destruct (parse_f64 _).
Qed.

Lemma digits_split c t :
  is_ascii_digit c = true ->
  (exists m r, c :: t = m ++ r /\ digits m /\ ends_int r) \/
  (exists w f r, c :: t = (w ++ 46 :: f) ++ r /\ digits w /\ digits f /\ ends_digits r).
Proof.
  intros Hc. destruct (maximal_split is_ascii_digit t) as (m & u & -> & Hm & Hu).
  assert (digits (c :: m)) as Hd by (split; [done|by constructor]).
  destruct u as [|p u]; [left; by exists (c :: m), []|].
  destruct ((p =? 46) && match u with e :: _ => is_ascii_digit e | [] => false end) eqn:Hp.
  - right. apply andb_true_iff in Hp as [->%Z.eqb_eq Hp]. destruct u as [|e u]; [done|].
    destruct (maximal_split is_ascii_digit u) as (f & r & -> & Hf & Hr).
    exists (c :: m), (e :: f), r.
    split; [by rewrite <- (assoc_L (++))|]. split; [done|].
    split; [split; [done|by constructor]|by destruct r].
  - left. exists (c :: m), (p :: u). split; [done|]. split; [done|]. split; [done|].
    intros [-> He]. rewrite Z.eqb_refl in Hp. destruct u; [done|]. simpl in Hp. congruence.
Qed.

(** ** Tokens *)

Definition symbol (k : TokenKind) : option string :=
  match k with
  | KSemicolon => Some ";" | KComma => Some "," | KDot => Some "." | KColon => Some ":"
  | KEq => Some "=" | KNeq => Some "!=" | KStar => Some "*" | KDotDot => Some ".."
  | KLParen => Some "(" | KRParen => Some ")" | KLBrace => Some "{" | KRBrace => Some "}"
  | KLBracket => Some "[" | KRBracket => Some "]" | KArrowRight => Some "->"
  | KArrowLeft => Some "<-" | KMinus => Some "-"
  | _ => None
  end.

(** The texts of a kind of token. *)
Inductive lexeme : TokenKind -> list Z -> Prop :=
| lex_symbol k s : symbol k = Some s -> lexeme k (byte_val <$> str_bytes s)
| lex_word c cs :
    word_start c = true -> Forall (fun c => word_char c = true) cs ->
    lexeme (keyword_or_ident (text (c :: cs))) (c :: cs)
| lex_int m n : digits m -> parse_i64 (text m) = Some n -> lexeme (KInt n) m
| lex_float w f v :
    digits w -> digits f -> parse_f64 (text (w ++ 46 :: f)) = Some v ->
    lexeme (KFloat v) (w ++ 46 :: f)
| lex_string_lit body v :
    str_body EmptyString body v -> lexeme (KString v) (char_quote :: body ++ [char_quote]).

(** A token of the text [txt], after the characters [d]. *)
Definition token_at (k : TokenKind) (d txt : list Z) : Token :=
  mk_Token k (offs d) (offs (d ++ txt)).

(** [next_token] after the layout. *)
Definition scan : Lex.M Token :=
  next ← Lex.peek;
  match next with
  | None => gets (fun lx => mk_Token KEof (str_len (source lx)) (str_len (source lx)))
  | Some (off, ch) =>
      match Lex.single ch with
      | Some k => _ ← Lex.bump; Lex.finish off k
      | None =>
          if ch =? "!"%char then
            _ ← Lex.bump;
            c ← Lex.peek;
            if Lex.is_char "="%char c then _ ← Lex.bump; Lex.finish off KNeq
            else Lex.error_at off "expected '=' after '!'"
          else if ch =? "."%char then
            _ ← Lex.bump;
            c ← Lex.peek;
            if Lex.is_char "."%char c then _ ← Lex.bump; Lex.finish off KDotDot
            else Lex.finish off KDot
          else if ch =? "-"%char then
            _ ← Lex.bump;
            c ← Lex.peek;
            if Lex.is_char ">"%char c then _ ← Lex.bump; Lex.finish off KArrowRight
            else Lex.finish off KMinus
          else if ch =? "<"%char then
            _ ← Lex.bump;
            c ← Lex.peek;
            if Lex.is_char "-"%char c then _ ← Lex.bump; Lex.finish off KArrowLeft
            else Lex.error_at off "expected '-' after '<'"
          else if ch =? char_quote then Lex.lex_string off
          else if is_ascii_digit ch then Lex.lex_number off
          else if is_ascii_alphabetic ch || (ch =? "_"%char) then Lex.lex_ident_or_keyword off
          else Lex.error_at off ("unexpected character '" +:+ push EmptyString ch +:+ "'")
      end
  end.

Lemma next_token_scan : Lex.next_token = (_ ← Lex.skip_whitespace_and_comments; scan).
Proof. reflexivity. Qed.

(** One step of a symbol: consume, then the token ends. *)
Lemma finish_eq d txt k t :
  scalars ((d ++ txt) ++ t) ->
  Lex.finish (offs d) k (lexer_of (d ++ txt) t) = (Ok (token_at k d txt), lexer_of (d ++ txt) t).
Proof.
  intros H. unfold Lex.finish. by rewrite (stM_bind_Ok _ _ _ _ _ (current_byte_offset_eq _ t H)).
Qed.

Lemma bump_finish d c k t :
  scalars (d ++ c :: t) ->
  (_ ← Lex.bump; Lex.finish (offs d) k) (lexer_of d (c :: t)) =
    (Ok (token_at k d [c]), lexer_of (d ++ [c]) t).
Proof.
  intros H. rewrite (stM_bind_Ok _ _ _ _ _ (bump_cons d c t H)).
  apply finish_eq. by apply scalars_shift.
Qed.

(** A symbol that may be continued by [e]: the second character decides. *)
Lemma two_char d c e k (other : Lex.M Token) t :
  scalars (d ++ c :: t) ->
  (_ ← Lex.bump;
   o ← Lex.peek;
   if Lex.is_char e o then _ ← Lex.bump; Lex.finish (offs d) k else other) (lexer_of d (c :: t)) =
  match t with
  | x :: t' =>
      if x =? e then (Ok (token_at k d [c; x]), lexer_of (d ++ [c; x]) t')
      else other (lexer_of (d ++ [c]) t)
  | [] => other (lexer_of (d ++ [c]) t)
  end.
Proof.
  intros H. rewrite (stM_bind_Ok _ _ _ _ _ (bump_cons d c t H)). apply scalars_shift in H.
  destruct t as [|x t].
  - rewrite app_nil_r in H. by rewrite (stM_bind_Ok _ _ _ _ _ (peek_nil _ H)).
  - rewrite (stM_bind_Ok _ _ _ _ _ (peek_cons _ _ _ H)). cbn [Lex.is_char].
    destruct (x =? e); [|done].
    rewrite (stM_bind_Ok _ _ _ _ _ (bump_cons _ _ _ H)). apply scalars_shift in H.
    replace ((d ++ [c]) ++ [x]) with (d ++ [c; x]) in * by (by rewrite <- (assoc_L (++))).
    by rewrite finish_eq.
Qed.

(** The result of a step of the lexer at [d], before [t]: a lexeme, or an error. *)
Definition scans (d t : list Z) (r : outcome ParseError Token * Lexer) : Prop :=
  (exists k txt t', t = txt ++ t' /\ r = (Ok (token_at k d txt), lexer_of (d ++ txt) t') /\
     lexeme k txt) \/
  (exists e lx, r = (Err e, lx)).

Lemma scans_symbol d k s t' :
  symbol k = Some s ->
  scans d ((byte_val <$> str_bytes s) ++ t')
    (Ok (token_at k d (byte_val <$> str_bytes s)), lexer_of (d ++ (byte_val <$> str_bytes s)) t').
Proof. intros Hs. left. do 3 eexists. split_and!; [reflexivity..|]. by constructor. Qed.

Lemma scans_err d t e lx : scans d t (Err e, lx).
Proof. right. by do 2 eexists. Qed.

Lemma scan_spec d c t : scalars (d ++ c :: t) -> scans d (c :: t) (scan (lexer_of d (c :: t))).
Proof.
  intros H. unfold scan. rewrite (stM_bind_Ok _ _ _ _ _ (peek_cons d c t H)).
  destruct (Lex.single c) as [k|] eqn:Hk.
  { rewrite bump_finish by done. unfold Lex.single in Hk.
    repeat match type of Hk with
    | (if ?c =? char_ascii ?a then _ else _) = _ =>
        destruct (Z.eqb_spec c (char_ascii a)) as [->|_];
          [injection Hk as <-; by apply (scans_symbol d _ (String a EmptyString))|]
    end. done. }
  destruct (Z.eqb_spec c (char_ascii "!")) as [->|N1].
  { rewrite two_char by done. destruct t as [|x t]; [apply scans_err|].
    destruct (Z.eqb_spec x (char_ascii "=")) as [->|]; [by apply (scans_symbol d KNeq "!=")|apply scans_err]. }
  assert (forall k, Lex.finish (offs d) k (lexer_of (d ++ [c]) t) =
    (Ok (token_at k d [c]), lexer_of (d ++ [c]) t)) as Hone.
  { intros k. apply finish_eq. by apply scalars_shift. }
  destruct (Z.eqb_spec c (char_ascii ".")) as [->|N2].
  { rewrite two_char by done. destruct t as [|x t];
      [rewrite Hone; by apply (scans_symbol d KDot ".")|].
    destruct (Z.eqb_spec x (char_ascii ".")) as [->|]; [by apply (scans_symbol d KDotDot "..")|].
    rewrite Hone. by apply (scans_symbol d KDot "."). }
  destruct (Z.eqb_spec c (char_ascii "-")) as [->|N3].
  { rewrite two_char by done. destruct t as [|x t];
      [rewrite Hone; by apply (scans_symbol d KMinus "-")|].
    destruct (Z.eqb_spec x (char_ascii ">")) as [->|]; [by apply (scans_symbol d KArrowRight "->")|].
    rewrite Hone. by apply (scans_symbol d KMinus "-"). }
  destruct (Z.eqb_spec c (char_ascii "<")) as [->|N4].
  { rewrite two_char by done. destruct t as [|x t]; [apply scans_err|].
    destruct (Z.eqb_spec x (char_ascii "-")) as [->|]; [by apply (scans_symbol d KArrowLeft "<-")|apply scans_err]. }
  destruct (Z.eqb_spec c char_quote) as [->|N5].
  { destruct (str_body_or_unterminated t EmptyString) as [(body & rest & v & -> & Hb)|Hu].
    - left. exists (KString v), (char_quote :: body ++ [char_quote]), rest.
      split_and!; [by rewrite <- app_comm_cons, <- (assoc_L (++))|by apply lex_string_ok|by constructor].
    - destruct (lex_string_err (offs d) d t H Hu) as (e & lx & ->). apply scans_err. }
  destruct (is_ascii_digit c) eqn:Hd.
  { destruct (digits_split c t Hd) as [(m & r & E & Hm & He)|(w & f & r & E & Hw & Hf & He)];
      rewrite E in *.
    - rewrite lex_int_eq by done. destruct (parse_i64 _) as [v|] eqn:Hp; [|apply scans_err].
      left. exists (KInt v), m, r. split_and!; [done|done|by constructor].
    - rewrite lex_float_eq by done. destruct (parse_f64 _) as [v|] eqn:Hp; [|apply scans_err].
      left. exists (KFloat v), (w ++ 46 :: f), r. split_and!; [done|done|by constructor]. }
  destruct (is_ascii_alphabetic c || (c =? char_ascii "_")) eqn:Hw.
  { destruct (maximal_split word_char t) as (m & r & -> & Hm & Hr).
    left. exists (keyword_or_ident (text (c :: m))), (c :: m), r.
    split_and!; [done| |by constructor]. apply (lex_word_eq d (c :: m) r); [done|].
    split; [|done]. constructor; [|done]. unfold word_char, is_ascii_alphanumeric.
    destruct (is_ascii_alphabetic c); [done|]. simpl in Hw. rewrite Hw. by rewrite orb_true_r. }
  apply scans_err.
Qed.

(** One token: layout, then a lexeme or the end of the source. *)
Lemma next_token_spec d t :
  scalars (d ++ t) ->
  (exists lay, t = lay /\ layout true lay /\
     Lex.next_token (lexer_of d t) =
       (Ok (mk_Token KEof (offs (d ++ lay)) (offs (d ++ lay))), lexer_of (d ++ lay) [])) \/
  (exists lay k txt t', t = lay ++ txt ++ t' /\ layout false lay /\ lexeme k txt /\
     Lex.next_token (lexer_of d t) =
       (Ok (token_at k (d ++ lay) txt), lexer_of ((d ++ lay) ++ txt) t')) \/
  (exists e lx, Lex.next_token (lexer_of d t) = (Err e, lx)).
Proof.
  intros H. rewrite next_token_scan.
  destruct (skip_layout d t H) as (lay & t' & -> & E & Hn & Hl).
  rewrite (stM_bind_Ok _ _ _ _ _ E). rewrite app_assoc in H. destruct t' as [|c t'].
  - left. exists lay. split; [by rewrite app_nil_r|].
    split; [destruct Hl as [Hl|[_ Hl]]; [by apply layout_final|done]|].
    unfold scan. rewrite app_nil_r in H. rewrite (stM_bind_Ok _ _ _ _ _ (peek_nil _ H)).
    unfold gets, lexer_of, str_len, text. cbn [source]. by rewrite str_bytes_str, app_nil_r.
  - destruct Hl as [Hl|[? _]]; [|done]. right.
    destruct (scan_spec (d ++ lay) c t' H) as [(k & txt & t'' & E' & -> & Hlex)|(e & lx & ->)].
    + left. exists lay, k, txt, t''. by rewrite E'.
    + right. by do 2 eexists.
Qed.

Lemma keyword_kinds u k : keyword u = Some k -> k ∈ keywords.*2.
Proof.
  unfold keyword. destruct (List.find _ _) as [[s k']|] eqn:E; [|done].
  intros [= <-]. apply List.find_some in E as [E _]. apply list_elem_of_fmap.
  exists (s, k'). split; [done|]. by apply list_elem_of_In.
Qed.

Lemma keyword_not_eof : Forall (fun k => is_Eof k = false) keywords.*2.
Proof. repeat constructor. Qed.

Lemma lexeme_not_eof k txt : lexeme k txt -> is_Eof k = false.
Proof.
  intros [k' s Hs|c cs _ _| | |]; try done; [by destruct k'|].
  unfold keyword_or_ident. destruct (keyword _) as [k'|] eqn:E; [|done]. simpl.
  apply keyword_kinds in E. by apply (proj1 (Forall_forall _ _) keyword_not_eof).
Qed.

Lemma lexeme_nonempty k txt : lexeme k txt -> txt ≠ [].
Proof.
  intros [k' s Hs|c cs _ _|m n [Hm _] _|w f v [Hw _] _ _|body v _]; try done.
  - destruct k'; cbn [symbol] in Hs; by simplify_eq.
  - by destruct w.
Qed.

(** ** The token list of a text *)

(** [lexed d t ts]: after the characters [d], the text [t] is cut into the tokens [ts]:
    layout and lexemes alternate, every token has its place in the source, and the last
    token is the end of the source. *)
Inductive lexed (d : list Z) : list Z -> list Token -> Prop :=
| lexed_eof lay :
    layout true lay -> lexed d lay [mk_Token KEof (offs (d ++ lay)) (offs (d ++ lay))]
| lexed_token lay k txt t ts :
    layout false lay -> lexeme k txt -> lexed ((d ++ lay) ++ txt) t ts ->
    lexed d (lay ++ txt ++ t) (token_at k (d ++ lay) txt :: ts).

Definition tokens_loop (fuel : nat) : list Token -> Lex.M (list Token) :=
  loop fuel (fun tokens =>
    token ← Lex.next_token;
    let tokens := tokens ++ [token] in
    if is_Eof (kind token) then mret (inr tokens) else mret (inl tokens)).

Lemma tokens_loop_spec fuel d t acc :
  scalars (d ++ t) -> (length t < fuel)%nat ->
  (exists ts lx, tokens_loop fuel acc (lexer_of d t) = (Ok (acc ++ ts), lx) /\ lexed d t ts) \/
  (exists e lx, tokens_loop fuel acc (lexer_of d t) = (Err e, lx)).
Proof.
  revert d t acc. induction fuel as [|fuel IH]; intros d t acc H Hf; [lia|].
  unfold tokens_loop. cbn [loop]. fold (tokens_loop fuel). rewrite stM_bind_eq.
  destruct (next_token_spec d t H)
    as [(lay & -> & Hl & E)|[(lay & k & txt & t' & -> & Hl & Hk & E)|(e & lx & E)]].
  - left. do 2 eexists. rewrite (stM_bind_Ok _ _ _ _ _ E). split; [reflexivity|by constructor].
  - rewrite (stM_bind_Ok _ _ _ _ _ E). cbn [kind token_at].
    rewrite (lexeme_not_eof k txt Hk). cbn [mret stM_ret].
    destruct (IH ((d ++ lay) ++ txt) t' (acc ++ [token_at k (d ++ lay) txt]))
      as [(ts & lx & E' & Hts)|(e & lx & E')].
    + by rewrite <- !(assoc_L (++)).
    + pose proof (lexeme_nonempty k txt Hk) as Hne. rewrite !length_app in Hf.
      destruct txt; [done|]. simpl in Hf. lia.
    + left. exists (token_at k (d ++ lay) txt :: ts), lx. rewrite E'.
      rewrite <- (assoc_L (++)). split; [done|by constructor].
    + right. exists e, lx. by rewrite E'.
  - right. exists e, lx. by rewrite (stM_bind_Err _ _ _ _ _ E).
Qed.

Lemma tokenize_loop_eq cs :
  scalars cs ->
  Lex.tokenize (lexer_of [] cs) = (tokens_loop (S (length cs)) [] (lexer_of [] cs)).1.
Proof.
  intros H. unfold Lex.tokenize, Lex.tokenize_loop.
  by rewrite (stM_bind_Ok _ _ _ _ _ (chars_fuel_eq [] cs H)).
Qed.

(** The tokens of a valid source: the tokenizer stops, and returns a cut of the source into
    lexemes or an error. *)
Lemma tokenize_total source :
  utf8_valid source = true ->
  exists cs, scalars cs /\ source = text cs /\
    ((exists ts, Lex.tokenize (Lex.new source) = Ok ts /\ lexed [] cs ts) \/
     (exists e, Lex.tokenize (Lex.new source) = Err e)).
Proof.
  intros (cs & Hcs & E)%utf8_valid_iff. exists cs. split; [done|].
  assert (source = text cs) as ->.
  { unfold text. by rewrite <- E, bytes_str_bytes. }
  split; [done|]. rewrite new_lexer_of, tokenize_loop_eq by done.
  destruct (tokens_loop_spec (S (length cs)) [] cs []) as [(ts & lx & -> & H)|(e & lx & ->)];
    [done|lia|left|right]; [by exists ts|by exists e].
Qed.

(** ** Texts that are known to be cut into given tokens *)

Lemma split_newline_unique (b1 b2 t1 t2 : list Z) :
  10 ∉ b1 -> 10 ∉ b2 -> b1 ++ 10 :: t1 = b2 ++ 10 :: t2 -> b1 = b2 /\ t1 = t2.
Proof.
  revert b2. induction b1 as [|c b1 IH]; intros [|c2 b2] H1 H2 E; cbn [app] in E.
  - by injection E as ->.
  - injection E as <- _. apply not_elem_of_cons in H2 as [? _]. done.
  - injection E as -> _. apply not_elem_of_cons in H1 as [? _]. done.
  - apply not_elem_of_cons in H1 as [_ H1]. apply not_elem_of_cons in H2 as [_ H2].
    injection E as -> E. by destruct (IH b2 H1 H2 E) as [-> ->].
Qed.

Lemma no_layout_layout final t r : no_layout (t ++ r) -> layout final t -> t = [].
Proof.
  intros Hn H. revert Hn.
  destruct H as [|c l Hc _|body l _ _|body _ _]; [done|..]; cbn [app no_layout]; intros Hn;
    exfalso.
  - destruct Hn. congruence.
  - destruct Hn as [_ Hn]. by apply Hn.
  - destruct Hn as [_ Hn]. by apply Hn.
Qed.

(** The layout a text starts with is determined by what follows it. *)
Lemma layout_unique l1 t1 l2 t2 :
  layout false l1 -> (layout false l2 \/ t2 = [] /\ layout true l2) ->
  no_layout t1 -> no_layout t2 -> t1 ≠ [] -> l1 ++ t1 = l2 ++ t2 -> l1 = l2 /\ t1 = t2.
Proof.
  intros H1. revert l2. induction H1 as [|c l Hc Hl IH|body l Hb Hl IH|body ? _]; [| | |done];
    intros l2 H2 N1 N2 Ht E.
  - cbn [app] in E. subst t1.
    assert (l2 = []) as -> by (destruct H2 as [H2|[_ H2]]; by eapply no_layout_layout).
    done.
  - destruct l2 as [|c2 l2]; cbn [app] in E; [subst t2; destruct N2; congruence|].
    injection E as <- E. destruct (IH l2) as [-> ->]; try done.
    destruct H2 as [H2|[? H2]]; [left|right; split; [done|]];
      inversion H2; subst; done.
  - destruct H2 as [H2|[-> H2]].
    + inversion H2 as [E2|c2 l' Hc2 Hl2 E2|b2 l' Hb2 Hl2 E2|? ? ? E2]; subst; [| | |done].
      * cbn [app] in E. subst t2. destruct N2 as [_ N2]. exfalso. by apply N2.
      * by injection E as <- _.
      * rewrite <- !(assoc_L (++)) in E. injection E as E. cbn [app] in E.
        destruct (split_newline_unique _ _ _ _ Hb Hb2 E) as [-> E'].
        destruct (IH l' ltac:(by left) N1 N2 Ht E') as [-> ->]. done.
    + rewrite app_nil_r in E. rewrite <- E in H2. clear E. rewrite <- (assoc_L (++)) in H2.
      cbn [app] in H2.
      inversion H2 as [|c2 l' Hc2 Hl2 E2|b2 l' Hb2 Hl2 E2|b2 ? Hb2 E2]; subst.
      * done.
      * symmetry in E2. rewrite <- (assoc_L (++)) in E2. cbn [app] in E2.
        destruct (split_newline_unique _ _ _ _ Hb Hb2 E2) as [-> E'].
        destruct (IH l' ltac:(by right) N1 N2 Ht ltac:(by rewrite app_nil_r)) as [_ ?]. done.
      * exfalso. apply Hb2. rewrite <- (assoc_L (++)). rewrite elem_of_app. right. by left.
Qed.

(** White space, or the end. *)
Definition spaced (t : list Z) : Prop :=
  match t with [] => True | c :: _ => is_whitespace c = true end.

Definition ends_word (t : list Z) : Prop :=
  match t with [] => True | c :: _ => word_char c = false end.

(** What may follow a token of a kind: nothing that would make it longer, or a comment. *)
Definition apart (k : TokenKind) (t : list Z) : Prop :=
  match k with
  | KDot => match t with [] => True | c :: _ => c ≠ 46 end
  | KMinus => match t with [] => True | c :: _ => c ≠ 62 /\ c ≠ 45 end
  | KInt _ => ends_int t
  | KFloat _ => ends_digits t
  | KString _ => True
  | _ => match symbol k with Some _ => True | None => ends_word t end
  end.

Lemma apart_word w t : apart (keyword_or_ident w) t <-> ends_word t.
Proof.
  unfold keyword_or_ident. destruct (keyword _) as [k|] eqn:Hk; [|done].
  apply keyword_kinds in Hk.
  assert (Forall (fun k => apart k t = ends_word t) keywords.*2) as Hall
    by (repeat constructor).
  pose proof (proj1 (Forall_forall _ _) Hall k Hk) as E. cbv beta in E. cbn [default from_option id] in *. by rewrite E.
Qed.

Lemma whitespace_not_graph c : is_whitespace c = true -> 33 <= c <= 126 -> False.
Proof. unfold is_whitespace. lia. Qed.

Lemma word_start_single c : word_start c = true -> Lex.single c = None /\ is_ascii_digit c = false
  /\ c ≠ 33 /\ c ≠ 46 /\ c ≠ 45 /\ c ≠ 60 /\ c ≠ char_quote.
Proof.
  intros Hc.
  assert (65 <= c <= 90 \/ 97 <= c <= 122 \/ c = 95) as Hr.
  { unfold word_start, is_ascii_alphabetic, is_ascii_upper, is_ascii_lower in Hc.
    change (char_ascii "_"%char) with 95 in Hc. lia. }
  unfold char_quote, is_ascii_digit. split; [|lia].
  unfold Lex.single.
  repeat match goal with
  | |- context [c =? char_ascii ?a] =>
      let z := eval vm_compute in (char_ascii a) in
      change (char_ascii a) with z; destruct (Z.eqb_spec c z); [lia|]
  end. done.
Qed.

Lemma digit_single c : is_ascii_digit c = true -> Lex.single c = None
  /\ c ≠ 33 /\ c ≠ 46 /\ c ≠ 45 /\ c ≠ 60 /\ c ≠ char_quote.
Proof.
  unfold is_ascii_digit, char_quote. intros Hc. split; [|lia]. unfold Lex.single.
  repeat match goal with
  | |- context [c =? char_ascii ?a] =>
      let z := eval vm_compute in (char_ascii a) in
      change (char_ascii a) with z; destruct (Z.eqb_spec c z); [lia|]
  end. done.
Qed.

(** [scan] at a character that starts no symbol. *)
Lemma scan_other d c t :
  scalars (d ++ c :: t) -> Lex.single c = None ->
  c ≠ 33 -> c ≠ 46 -> c ≠ 45 -> c ≠ 60 ->
  scan (lexer_of d (c :: t)) =
  (if c =? char_quote then Lex.lex_string (offs d)
   else if is_ascii_digit c then Lex.lex_number (offs d)
   else if is_ascii_alphabetic c || (c =? "_"%char) then Lex.lex_ident_or_keyword (offs d)
   else Lex.error_at (offs d) ("unexpected character '" +:+ push EmptyString c +:+ "'"))
    (lexer_of d (c :: t)).
Proof.
  intros H Hs N1 N2 N3 N4. unfold scan. rewrite (stM_bind_Ok _ _ _ _ _ (peek_cons d c t H)), Hs.
  change (char_ascii "!") with 33. change (char_ascii ".") with 46.
  change (char_ascii "-") with 45. change (char_ascii "<") with 60.
  by rewrite !(proj2 (Z.eqb_neq _ _)) by done.
Qed.

Lemma word_char_range c : word_char c = true -> 33 <= c <= 126.
Proof.
  unfold word_char, is_ascii_alphanumeric, is_ascii_alphabetic, is_ascii_upper, is_ascii_lower,
    is_ascii_digit. change (char_ascii "_"%char) with 95. lia.
Qed.

Lemma digit_range c : is_ascii_digit c = true -> 33 <= c <= 126.
Proof. unfold is_ascii_digit. lia. Qed.

Lemma spaced_class (p : Z -> bool) t :
  spaced t -> (forall c, p c = true -> 33 <= c <= 126) ->
  match t with [] => True | c :: _ => p c = false end.
Proof.
  intros Hs Hp. destruct t as [|x t]; [done|]. destruct (p x) eqn:E; [|done].
  exfalso. eapply whitespace_not_graph; [exact Hs|]. by apply Hp.
Qed.

(** White space separates tokens of every kind. *)
Lemma spaced_apart k t : spaced t -> apart k t.
Proof.
  intros Hs. pose proof (spaced_class word_char t Hs word_char_range) as Hw.
  pose proof (spaced_class is_ascii_digit t Hs digit_range) as Hd.
  assert (forall e, 33 <= e <= 126 -> match t with [] => True | c :: _ => c ≠ e end) as He.
  { intros e He. destruct t as [|c t]; [done|]. intros ->. by eapply whitespace_not_graph. }
  destruct k; cbn [apart symbol]; try done.
  - destruct t as [|c t]; [done|]. split; [done|]. intros [-> _]. by apply (He 46 ltac:(lia)).
  - apply (He 46). lia.
  - pose proof (He 62 ltac:(lia)). pose proof (He 45 ltac:(lia)). by destruct t.
Qed.

Lemma scan_symbol d k s t :
  symbol k = Some s -> apart k t -> scalars (d ++ (byte_val <$> str_bytes s) ++ t) ->
  scan (lexer_of d ((byte_val <$> str_bytes s) ++ t)) =
    (Ok (token_at k d (byte_val <$> str_bytes s)), lexer_of (d ++ (byte_val <$> str_bytes s)) t).
Proof.
  intros Hk Ht H.
  destruct k; cbn [symbol] in Hk; try discriminate Hk; injection Hk as <-;
    cbn [str_bytes String.list_byte_of_string fmap list_fmap app] in *;
    unfold scan; rewrite (stM_bind_Ok _ _ _ _ _ (peek_cons d _ _ H));
    match goal with
    | |- context [Lex.single ?c] =>
        let v := eval vm_compute in (Lex.single c) in change (Lex.single c) with v
    end; cbn iota; try (by rewrite bump_finish).
  all: repeat match goal with
    | |- context [?a =? char_ascii ?b] =>
        let v := eval vm_compute in (a =? char_ascii b) in change (a =? char_ascii b) with v
    end; cbn iota; rewrite two_char by done; try reflexivity.
  all: cbn [apart] in Ht; destruct t as [|x t]; [|rewrite (proj2 (Z.eqb_neq _ _)) by apply Ht];
    apply finish_eq; by apply scalars_shift.
Qed.

(** [scan] finds any lexeme that ends where it does. *)
Lemma scan_lexeme d k txt t :
  lexeme k txt -> apart k t -> scalars (d ++ txt ++ t) ->
  scan (lexer_of d (txt ++ t)) = (Ok (token_at k d txt), lexer_of (d ++ txt) t).
Proof.
  intros Hk Ht H. destruct Hk as [k s Hs|c cs Hc Hcs|m n Hm Hv|w f v Hw Hf Hv|body v Hb].
  - by apply scan_symbol.
  - destruct (word_start_single c Hc) as (Hs & Hd & N1 & N2 & N3 & N4 & N5).
    cbn [app] in *. rewrite scan_other by done.
    rewrite (proj2 (Z.eqb_neq _ _) N5), Hd.
    unfold word_start in Hc. rewrite Hc. apply (lex_word_eq d (c :: cs) t); [done|].
    split; [|by apply apart_word in Ht].
    constructor; [|done]. unfold word_char, is_ascii_alphanumeric.
    destruct (is_ascii_alphabetic c); [done|]. simpl in Hc. rewrite Hc. by rewrite orb_true_r.
  - pose proof Hm as [Hne Hds]. destruct m as [|c m]; [done|]. cbn [app] in *.
    apply Forall_cons in Hds as [Hd Hds].
    destruct (digit_single c Hd) as (Hs & N1 & N2 & N3 & N4 & N5).
    rewrite scan_other by done. rewrite (proj2 (Z.eqb_neq _ _) N5), Hd.
    change (c :: m ++ t) with ((c :: m) ++ t) in *. rewrite lex_int_eq; [by rewrite Hv|done..].
  - pose proof Hw as [Hne Hds]. destruct w as [|c w]; [done|].
    apply Forall_cons in Hds as [Hd Hds].
    destruct (digit_single c Hd) as (Hs & N1 & N2 & N3 & N4 & N5).
    change ((c :: w) ++ 46 :: f) with (c :: w ++ 46 :: f) in *. cbn [app] in *.
    rewrite scan_other by done. rewrite (proj2 (Z.eqb_neq _ _) N5), Hd.
    change (c :: (w ++ 46 :: f) ++ t) with (((c :: w) ++ 46 :: f) ++ t) in *.
    rewrite lex_float_eq; [cbn [app]; by rewrite Hv|done..].
  - cbn [app] in *. rewrite <- (assoc_L (++)) in *. cbn [app] in *.
    rewrite scan_other by done. rewrite Z.eqb_refl. by apply lex_string_ok.
Qed.

Lemma lexeme_no_layout k txt t : lexeme k txt -> apart k t -> no_layout (txt ++ t).
Proof.
  intros Hk Ht.
  assert (forall c, 33 <= c <= 126 -> is_whitespace c = false) as Hg.
  { intros c Hc. destruct (is_whitespace c) eqn:E; [|done].
    exfalso. by eapply whitespace_not_graph. }
  assert (forall c l, 33 <= c <= 126 -> c ≠ 45 -> no_layout (c :: l)) as Hn.
  { intros c l Hc Hm. split; [by apply Hg|]. by intros [? _]. }
  destruct Hk as [k s Hs|c cs Hc Hcs|m n [Hm Hds] Hv|w f v [Hw Hds] Hf Hv|body v Hb].
  - destruct k; cbn [symbol] in Hs; try discriminate Hs; injection Hs as <-; try (by apply Hn).
    + split; [done|]. intros [_ E]. by injection E.
    + cbn [str_bytes String.list_byte_of_string fmap list_fmap app].
      split; [done|]. intros [_ E]. destruct t as [|x t]; [done|]. injection E as ->.
      by destruct Ht.
  - destruct (word_start_single c Hc) as (_ & _ & _ & _ & N & _). apply Hn; [|done].
    apply word_char_range. unfold word_char, is_ascii_alphanumeric.
    unfold word_start in Hc. destruct (is_ascii_alphabetic c); [done|]. simpl in *.
    rewrite Hc. by rewrite orb_true_r.
  - destruct m as [|c m]; [done|]. apply Forall_cons in Hds as [Hd _].
    apply Hn; [by apply digit_range|]. by destruct (digit_single c Hd) as (_ & _ & _ & ? & _).
  - destruct w as [|c w]; [done|]. apply Forall_cons in Hds as [Hd _].
    apply Hn; [by apply digit_range|]. by destruct (digit_single c Hd) as (_ & _ & _ & ? & _).
  - apply Hn; [unfold char_quote; lia|done].
Qed.

(** The cuts in which every token ends where the next character cannot belong to it. *)
Inductive lexed_apart (d : list Z) : list Z -> list Token -> Prop :=
| apart_eof lay :
    layout true lay -> lexed_apart d lay [mk_Token KEof (offs (d ++ lay)) (offs (d ++ lay))]
| apart_token lay k txt t ts :
    layout false lay -> lexeme k txt -> apart k t -> lexed_apart ((d ++ lay) ++ txt) t ts ->
    lexed_apart d (lay ++ txt ++ t) (token_at k (d ++ lay) txt :: ts).

Lemma next_token_lexeme d lay k txt t :
  scalars (d ++ lay ++ txt ++ t) -> layout false lay -> lexeme k txt -> apart k t ->
  Lex.next_token (lexer_of d (lay ++ txt ++ t)) =
    (Ok (token_at k (d ++ lay) txt), lexer_of ((d ++ lay) ++ txt) t).
Proof.
  intros H Hl Hk Ht. rewrite next_token_scan.
  destruct (skip_layout d _ H) as (lay' & t' & E & Es & Hn & Hl').
  destruct (layout_unique lay (txt ++ t) lay' t') as [<- <-]; try done.
  - by eapply lexeme_no_layout.
  - pose proof (lexeme_nonempty _ _ Hk). by destruct txt.
  - rewrite (stM_bind_Ok _ _ _ _ _ Es). apply scan_lexeme; [done|done|].
    by rewrite <- (assoc_L (++)).
Qed.

Lemma layout_only final lay t' : layout final lay -> lay = t' -> no_layout t' -> t' = [].
Proof. intros Hl -> Hn. eapply (no_layout_layout _ t' []); [by rewrite app_nil_r|done]. Qed.

(** Layout alone is the end of the source, whatever split the lexer found. *)
Lemma layout_all lay l t' :
  layout true lay -> lay = l ++ t' -> layout false l -> no_layout t' -> t' = [].
Proof.
  intros Hlay E Hl Hn. revert lay Hlay E. induction Hl as [|c l Hc Hl IH|body l Hb Hl IH|? ? _];
    intros lay Hlay E; [| | |done].
  - by eapply layout_only.
  - subst lay. inversion Hlay; subst; [by eapply IH|done..].
  - subst lay. rewrite <- (assoc_L (++)) in Hlay. cbn [app] in Hlay.
    inversion Hlay as [|c2 l' Hc2 Hl2 E2|b2 l' Hb2 Hl2 E2|b2 ? Hb2 E2]; subst.
    + done.
    + symmetry in E2. rewrite <- (assoc_L (++)) in E2. cbn [app] in E2.
      destruct (split_newline_unique _ _ _ _ Hb Hb2 E2) as [-> E']. by eapply (IH l').
    + exfalso. apply Hb2. rewrite <- (assoc_L (++)). rewrite elem_of_app. right. by left.
Qed.

Lemma next_token_end d lay :
  scalars (d ++ lay) -> layout true lay ->
  Lex.next_token (lexer_of d lay) =
    (Ok (mk_Token KEof (offs (d ++ lay)) (offs (d ++ lay))), lexer_of (d ++ lay) []).
Proof.
  intros H Hl. rewrite next_token_scan.
  destruct (skip_layout d _ H) as (lay' & t' & E & Es & Hn & Hl').
  assert (t' = []) as ->.
  { destruct Hl' as [Hl'|[-> _]]; [|done]. by eapply layout_all. }
  rewrite app_nil_r in E. subst lay'. rewrite (stM_bind_Ok _ _ _ _ _ Es).
  unfold scan. rewrite (stM_bind_Ok _ _ _ _ _ (peek_nil _ H)).
  unfold gets, lexer_of, str_len, text. cbn [source]. by rewrite str_bytes_str, app_nil_r.
Qed.

Lemma tokens_loop_lexed d t ts :
  lexed_apart d t ts -> forall fuel acc, scalars (d ++ t) -> (length t < fuel)%nat ->
  exists lx, tokens_loop fuel acc (lexer_of d t) = (Ok (acc ++ ts), lx).
Proof.
  induction 1 as [d lay Hl|d lay k txt t ts Hl Hk Ht _ IH]; intros [|fuel] acc H Hf; try lia;
    unfold tokens_loop; cbn [loop]; fold (tokens_loop fuel); rewrite stM_bind_eq.
  - rewrite (stM_bind_Ok _ _ _ _ _ (next_token_end d lay H Hl)). by eexists.
  - rewrite (stM_bind_Ok _ _ _ _ _ (next_token_lexeme d lay k txt t H Hl Hk Ht)).
    cbn [kind token_at]. rewrite (lexeme_not_eof k txt Hk). cbn [mret stM_ret].
    destruct (IH fuel (acc ++ [token_at k (d ++ lay) txt])) as [lx E].
    + by rewrite <- !(assoc_L (++)).
    + pose proof (lexeme_nonempty k txt Hk). rewrite !length_app in Hf.
      destruct txt; [done|]. simpl in Hf. lia.
    + exists lx. by rewrite E, <- (assoc_L (++)).
Qed.

Lemma tokenize_lexed cs ts :
  scalars cs -> lexed_apart [] cs ts -> Lex.tokenize (Lex.new (text cs)) = Ok ts.
Proof.
  intros H Hts. rewrite new_lexer_of, tokenize_loop_eq by done.
  destruct (tokens_loop_lexed [] cs ts Hts (S (length cs)) []) as [lx E]; [done|lia|].
  by rewrite E.
Qed.

(** C11: The tokenizer is total and cuts the source correctly. On every valid source it
    returns tokens or an error; the tokens it returns are, in order and with their byte
    ranges, lexemes of their kinds with only white space and comments between them, up to
    one end-of-source token; and a source made of lexemes, each followed by nothing that could
    belong to it (white space, or another token), is cut into exactly these. *)
Theorem tokenize_correct source :
  utf8_valid source = true ->
  match Lex.tokenize (Lex.new source) with
  | Ok ts => exists cs, scalars cs /\ source = text cs /\ lexed [] cs ts
  | Err _ => True
  | _ => False
  end /\
  forall cs ts, scalars cs -> source = text cs -> lexed_apart [] cs ts ->
    Lex.tokenize (Lex.new source) = Ok ts.
Proof.
  intros Hv. split.
  - destruct (tokenize_total source Hv) as (cs & Hcs & E & [(ts & -> & Hts)|(e & ->)]); eauto.
  - intros cs ts Hcs -> Hts. by apply tokenize_lexed.
Qed.

Lemma tokenize_correct_witness :
  match Lex.tokenize (Lex.new "a <- 12 -- x") with
  | Ok ts => exists cs, scalars cs /\ "a <- 12 -- x" = text cs /\ lexed [] cs ts
  | Err _ => True
  | _ => False
  end /\
  forall cs ts, scalars cs -> "a <- 12 -- x" = text cs -> lexed_apart [] cs ts ->
    Lex.tokenize (Lex.new "a <- 12 -- x") = Ok ts.
Proof. apply (tokenize_correct "a <- 12 -- x"). vm_compute. reflexivity. Defined.
