(* ===== verification/Text.v ===== *)
(** * Texts: lossy decoding, lines, words, numbers

    The functions on strings of Rust's standard library that the schema files and the
    executor use, beyond [Utf8] and [Chars]. *)

From Stdlib Require Import Strings.Byte Strings.Ascii Floats.SpecFloat.
From S2P Require Import Prelude Utf8 Chars Lexer.

(** ** [String::from_utf8_lossy] *)

(** The encoding of U+FFFD. *)
Definition replacement : list byte := [as_u8 0xEF; as_u8 0xBF; as_u8 0xBD].

(** Every maximal prefix of a character that is not one becomes U+FFFD. *)
Fixpoint lossy (l : list byte) : list byte :=
  match l with
  | [] => []
  | b0 :: r0 =>
      match utf8_char_width b0 with
      | 1%nat => b0 :: lossy r0
      | 2%nat =>
          match r0 with
          | b1 :: r1 =>
              if is_continuation b1 then b0 :: b1 :: lossy r1 else replacement ++ lossy r0
          | [] => replacement
          end
      | 3%nat =>
          match r0 with
          | b1 :: r1 =>
              if second_ok b0 b1 then
                match r1 with
                | b2 :: r2 =>
                    if is_continuation b2 then b0 :: b1 :: b2 :: lossy r2
                    else replacement ++ lossy r1
                | [] => replacement
                end
              else replacement ++ lossy r0
          | [] => replacement
          end
      | 4%nat =>
          match r0 with
          | b1 :: r1 =>
              if second_ok b0 b1 then
                match r1 with
                | b2 :: r2 =>
                    if is_continuation b2 then
                      match r2 with
                      | b3 :: r3 =>
                          if is_continuation b3 then b0 :: b1 :: b2 :: b3 :: lossy r3
                          else replacement ++ lossy r2
                      | [] => replacement
                      end
                    else replacement ++ lossy r1
                | [] => replacement
                end
              else replacement ++ lossy r0
          | [] => replacement
          end
      | _ => replacement ++ lossy r0
      end
  end.

Definition from_utf8_lossy (l : list byte) : string := bytes_str (lossy l).

Lemma lossy_encode c k r : encoding c k -> lossy (k ++ r) = k ++ lossy r.
Proof.
  intros [b0 E0 H|b0 b1 E0 E1 H|b0 b1 b2 E0 E1 E2 H|b0 b1 b2 b3 E0 E1 E2 E3 H];
    cbn [app lossy]; rewrite char_width_val, ?second_ok_val, ?is_continuation_val.
  - by replace (byte_val b0 <? 128) with true by lia.
  - assert (0xC2 <= byte_val b0 <= 0xDF) by (Z.div_mod_to_equations; lia).
    assert (0x80 <= byte_val b1 <= 0xBF) by (Z.div_mod_to_equations; lia).
    repeat (case_match; try lia). done.
  - assert (0xE0 <= byte_val b0 <= 0xEF) by (Z.div_mod_to_equations; lia).
    assert (0x80 <= byte_val b1 <= 0xBF) by (Z.div_mod_to_equations; lia).
    assert (0x80 <= byte_val b2 <= 0xBF) by (Z.div_mod_to_equations; lia).
    assert (byte_val b0 = 0xE0 -> 0xA0 <= byte_val b1) by (Z.div_mod_to_equations; lia).
    assert (byte_val b0 = 0xED -> byte_val b1 <= 0x9F) by (Z.div_mod_to_equations; lia).
    repeat (case_match; try lia); done.
  - assert (0xF0 <= byte_val b0 <= 0xF4) by (Z.div_mod_to_equations; lia).
    assert (0x80 <= byte_val b1 <= 0xBF) by (Z.div_mod_to_equations; lia).
    assert (0x80 <= byte_val b2 <= 0xBF) by (Z.div_mod_to_equations; lia).
    assert (0x80 <= byte_val b3 <= 0xBF) by (Z.div_mod_to_equations; lia).
    assert (byte_val b0 = 0xF0 -> 0x90 <= byte_val b1) by (Z.div_mod_to_equations; lia).
    assert (byte_val b0 = 0xF4 -> byte_val b1 <= 0x8F) by (Z.div_mod_to_equations; lia).
    repeat (case_match; try lia); done.
Qed.

Lemma lossy_encode_chars cs : scalars cs -> lossy (encode_chars cs) = encode_chars cs.
Proof.
  induction 1 as [|c cs Hc _ IH]; [done|].
  by rewrite encode_chars_cons, (lossy_encode c), IH by (by apply encode_utf8_spec).
Qed.

(** Valid bytes are decoded unchanged. *)
Lemma from_utf8_lossy_valid s : utf8_valid s = true -> from_utf8_lossy (str_bytes s) = s.
Proof.
  intros (cs & Hcs & E)%utf8_valid_iff. unfold from_utf8_lossy.
  rewrite E, lossy_encode_chars by done. rewrite <- E. apply bytes_str_bytes.
Qed.

(** ** Lines and words, on the characters of a text *)

(** The pieces between the characters that satisfy [p] ([str::split]). *)
Fixpoint split_chars (p : Z -> bool) (cs : list Z) : list (list Z) :=
  match cs with
  | [] => [[]]
  | c :: cs =>
      if p c then [] :: split_chars p cs
      else
        match split_chars p cs with
        | piece :: pieces => (c :: piece) :: pieces
        | [] => [[c]]
        end
  end.

Definition strip_cr (line : list Z) : list Z :=
  match last line with Some 13 => take (length line - 1) line | _ => line end.

(** A carriage return before the newline belongs to it; nothing after the last newline is
    no line. *)
Fixpoint line_pieces (pieces : list (list Z)) : list (list Z) :=
  match pieces with
  | [] => []
  | [piece] => if bool_decide (piece = []) then [] else [piece]
  | piece :: pieces => strip_cr piece :: line_pieces pieces
  end.

(** [str::lines]. *)
Definition lines (cs : list Z) : list (list Z) := line_pieces (split_chars (Z.eqb 10) cs).

Definition nonempty (cs : list Z) : bool := negb (bool_decide (cs = [])).

(** [str::split_whitespace]. *)
Definition split_whitespace (cs : list Z) : list (list Z) :=
  filter (fun w => nonempty w = true) (split_chars is_whitespace cs).

Fixpoint drop_ws (cs : list Z) : list Z :=
  match cs with
  | [] => []
  | c :: r => if is_whitespace c then drop_ws r else cs
  end.

(** [str::trim]. *)
Definition trim_chars (cs : list Z) : list Z := rev (drop_ws (rev (drop_ws cs))).

(** [str::split('.')]. *)
Definition split_dots (s : string) : list string := text <$> split_chars (Z.eqb 46) (chars_of s).

(** [str::replace('.', "_")]. *)
Definition replace_dots (s : string) : string :=
  text ((fun c => if c =? 46 then 95 else c) <$> chars_of s).

(** [str::starts_with]. *)
Definition starts_with (s p : string) : bool :=
  bool_decide (take (length (str_bytes p)) (str_bytes s) = str_bytes p).

(** ** Integers *)

(** [str::parse::<i64>]: a sign and digits. *)
Definition parse_i64_signed (s : string) : option Z :=
  let '(negative, digits) :=
    match str_bytes s with
    | "+"%byte :: ds => (false, ds)
    | "-"%byte :: ds => (true, ds)
    | ds => (false, ds)
    end in
  if negb (bool_decide (digits = [])) && forallb (fun b => is_ascii_digit (byte_val b)) digits then
    let v := if negative then - digits_val 0 digits else digits_val 0 digits in
    if (- 2 ^ 63 <=? v) && (v <=? i64_MAX) then Some v else None
  else None.

(** ** The decimal text of a binary64 ([Display for f64])

    The shortest digits that read back as the number and, of these, the nearest; a tie
    goes up. *)

Definition zeros (n : Z) : string := bytes_str (replicate (Z.to_nat n) "0"%byte).

(** [n / d] as an exact fraction, from a mantissa and an exponent. *)
Definition f64_fraction (m : positive) (e : Z) : Z * Z :=
  if 0 <=? e then (Zpos m * 2 ^ e, 1) else (Zpos m, 2 ^ (- e)).

(** [v * 10 ^ p] for a fraction [v]. *)
Definition scale10 (v : Z * Z) (p : Z) : Z * Z :=
  if 0 <=? p then (v.1 * 10 ^ p, v.2) else (v.1, v.2 * 10 ^ (- p)).

(** The [k] with [10 ^ (k - 1) <= v < 10 ^ k], near an estimate from the binary logarithm. *)
Definition decimal_exponent (v : Z * Z) : Z :=
  let est := (Z.log2 v.1 - Z.log2 v.2) * 30103 / 100000 in
  default est (snd <$> list_find (fun k => let w := scale10 v (- k) in w.1 < w.2)
                 [est - 1; est; est + 1; est + 2]).

(** The number [d * 10 ^ p] as a binary64. *)
Definition f64_of_decimal (d p : Z) : f64 :=
  let w := scale10 (d, 1) p in f64_ratio w.1 (Z.to_pos w.2).

Definition strip_zeros (d p : Z) : Z * Z :=
  Nat.iter 20 (fun '(d, p) => if (d =? 0) || negb (d mod 10 =? 0) then (d, p) else (d / 10, p + 1))
    (d, p).

(** The digits of [f = v] with [n] digits, when they read back as [f]. *)
Definition shortest_at (f : f64) (v : Z * Z) (k n : Z) : option (Z * Z) :=
  let w := scale10 v (n - k) in
  let q := w.1 / w.2 in
  let r := w.1 mod w.2 in
  let down := bool_decide (f64_of_decimal q (k - n) = f) in
  let up := bool_decide (f64_of_decimal (q + 1) (k - n) = f) in
  if up && (negb down || (w.2 <=? 2 * r)) then Some (strip_zeros (q + 1) (k - n))
  else if down then Some (strip_zeros q (k - n))
  else None.

Fixpoint shortest (f : f64) (v : Z * Z) (k n : Z) (fuel : nat) : option (Z * Z) :=
  match fuel with
  | O => None
  | S fuel =>
      match shortest_at f v k n with
      | Some r => Some r
      | None => shortest f v k (n + 1) fuel
      end
  end.

(** [d * 10 ^ p] without an exponent. *)
Definition decimal_text (d p : Z) : string :=
  let s := pretty d in
  let l := lenZ (str_bytes s) in
  if 0 <=? p then s +:+ zeros p
  else if - p <? l then
    bytes_str (take (Z.to_nat (l + p)) (str_bytes s)) +:+ "." +:+
      bytes_str (drop (Z.to_nat (l + p)) (str_bytes s))
  else "0." +:+ zeros (- p - l) +:+ s.

(** Seventeen digits are enough for every binary64. *)
Definition f64_to_string (f : f64) : string :=
  match f with
  | S754_nan => "NaN"
  | S754_infinity s => if s then "-inf" else "inf"
  | S754_zero s => if s then "-0" else "0"
  | S754_finite s m e =>
      let v := f64_fraction m e in
      let k := decimal_exponent v in
      let '(d, p) := default v (shortest (S754_finite false m e) v k 1 17) in
      (if s then "-" else EmptyString) +:+ decimal_text d p
  end.

Example f64_texts :
  f64_to_string <$>
    [f64_ratio 1 10; f64_ratio 3 2; f64_ratio 100 1; f64_ratio (10 ^ 21) 1; f64_ratio 1 3;
     f64_ratio 5 (10 ^ 324); f64_ratio 2 3; f64_ratio 123456789 1000; f64_ratio (2 ^ 60) 1] =
  ["0.1"; "1.5"; "100"; "1000000000000000000000"; "0.3333333333333333";
   "0." +:+ zeros 323 +:+ "5"; "0.6666666666666666"; "123456.789"; "1152921504606847000"].
Proof. vm_compute. reflexivity. Qed.

(** ** Lemmas *)

Lemma split_chars_free p cs : Forall (fun c => p c = false) cs -> split_chars p cs = [cs].
Proof. induction 1 as [|c cs Hc _ IH]; [done|]. cbn [split_chars]. by rewrite Hc, IH. Qed.

Lemma split_chars_app p cs c t :
  Forall (fun c => p c = false) cs -> p c = true ->
  split_chars p (cs ++ c :: t) = cs :: split_chars p t.
Proof.
  intros H Hc. induction H as [|x cs Hx _ IH]; cbn [app split_chars]; [by rewrite Hc|].
  by rewrite Hx, IH.
Qed.

Lemma split_chars_nonempty p cs : split_chars p cs ≠ [].
Proof. destruct cs as [|c cs]; cbn [split_chars]; [done|]. repeat case_match; done. Qed.

(** Lines without newlines that do not end in a carriage return. *)
Definition line_chars (l : list Z) : Prop := Forall (fun c => c ≠ 10) l /\ last l ≠ Some 13.

Lemma lines_concat ls :
  Forall line_chars ls -> lines (ls ≫= fun l => l ++ [10]) = ls.
Proof.
  unfold lines. induction 1 as [|l ls [Hl Hcr] _ IH]; [done|].
  rewrite bind_cons, <- (assoc_L (++)). cbn [app].
  rewrite split_chars_app; [| |done].
  - pose proof (split_chars_nonempty (Z.eqb 10) (ls ≫= fun l => l ++ [10])) as Hn.
    cbn [line_pieces]. destruct (split_chars _ _) as [|p ps]; [done|]. rewrite IH.
    f_equal. unfold strip_cr. destruct (last l) as [c|]; [|done].
    repeat (case_match; try done).
  - eapply Forall_impl; [exact Hl|]. intros c Hc. by apply Z.eqb_neq.
Qed.

(** Words: no white space, not empty. *)
Definition word_chars (w : list Z) : Prop := w ≠ [] /\ Forall (fun c => is_whitespace c = false) w.

Fixpoint unwords (ws : list (list Z)) : list Z :=
  match ws with
  | [] => []
  | [w] => w
  | w :: ws => w ++ 32 :: unwords ws
  end.

Lemma split_whitespace_unwords ws :
  Forall word_chars ws -> split_whitespace (unwords ws) = ws.
Proof.
  unfold split_whitespace. induction 1 as [|w ws [Hn Hw] Hws IH]; [done|].
  assert (nonempty w = true) as Hne by (unfold nonempty; by rewrite bool_decide_false).
  destruct ws as [|w' ws]; cbn [unwords].
  - rewrite split_chars_free by done. by rewrite filter_cons_True.
  - rewrite split_chars_app by done. rewrite filter_cons_True by done. f_equal. apply IH.
Qed.

(** Text that starts and ends without white space. *)
Definition trimmed (cs : list Z) : Prop :=
  (forall c, head cs = Some c -> is_whitespace c = false) /\
  (forall c, last cs = Some c -> is_whitespace c = false).

Lemma drop_ws_id cs : (forall c, head cs = Some c -> is_whitespace c = false) -> drop_ws cs = cs.
Proof. destruct cs as [|c cs]; intros H; [done|]. cbn. by rewrite (H c). Qed.

Lemma trim_chars_id cs : trimmed cs -> trim_chars cs = cs.
Proof.
  intros [Hh Hl]. unfold trim_chars. rewrite (drop_ws_id cs) by done.
  rewrite drop_ws_id; [apply rev_involutive|].
  intros c Hc. destruct (rev cs) as [|x r] eqn:E; [done|]. injection Hc as ->.
  apply Hl. rewrite <- (rev_involutive cs), E. cbn [rev]. apply last_snoc.
Qed.

Lemma word_head w c : word_chars w -> head w = Some c -> is_whitespace c = false.
Proof. intros [_ Hw] Hc. destruct w; [done|]. inversion Hw; subst. by injection Hc as ->. Qed.

Lemma word_last w c : word_chars w -> last w = Some c -> is_whitespace c = false.
Proof.
  intros [_ Hw] Hc. rewrite Forall_forall in Hw. apply Hw. apply last_Some in Hc as [l' ->].
  set_solver.
Qed.

Lemma trimmed_unwords ws : Forall word_chars ws -> trimmed (unwords ws).
Proof.
  intros H. split.
  - intros c. destruct H as [|w ws Hw _]; [done|]. intros Hc. apply (word_head w); [done|].
    destruct Hw as [Hn _]. destruct w; [done|]. by destruct ws.
  - induction H as [|w ws Hw Hws IH]; [done|]. destruct ws as [|w' ws].
    + intros c. by apply word_last.
    + assert (unwords (w' :: ws) ≠ []) as Hne.
      { apply Forall_cons in Hws as [[Hn _] _]. intros E. apply Hn.
        by destruct w', ws. }
      change (unwords (w :: w' :: ws)) with (w ++ 32 :: unwords (w' :: ws)).
      intros c. rewrite last_app_cons, last_cons. revert IH Hne.
      generalize (unwords (w' :: ws)). intros u IH Hne Hc. apply IH.
      destruct (last u) eqn:E; [done|]. by apply last_None in E.
Qed.

(** ** Valid strings *)

Lemma utf8_valid_app a b :
  utf8_valid a = true -> utf8_valid b = true -> utf8_valid (a +:+ b) = true.
Proof.
  intros [Ha Ea]%utf8_valid_text [Hb Eb]%utf8_valid_text.
  rewrite <- Ea, <- Eb, <- text_app. apply text_utf8_valid. by apply Forall_app.
Qed.

Lemma chars_of_app a b :
  utf8_valid a = true -> utf8_valid b = true -> chars_of (a +:+ b) = chars_of a ++ chars_of b.
Proof.
  intros [Ha Ea]%utf8_valid_text [Hb Eb]%utf8_valid_text.
  rewrite <- Ea at 1. rewrite <- Eb at 1. rewrite <- text_app. apply chars_of_text.
  by apply Forall_app.
Qed.

(** A word as a string. *)
Record word (s : string) : Prop := {
  word_valid : utf8_valid s = true;
  word_word : word_chars (chars_of s)
}.

Lemma text_words ws : Forall word ws -> text <$> (chars_of <$> ws) = ws.
Proof.
  induction 1 as [|w ws [Hv _] _ IH]; [done|]. cbn [fmap list_fmap] in *.
  rewrite IH. by rewrite (proj2 (utf8_valid_text w Hv)).
Qed.

Lemma words_chars ws : Forall word ws -> Forall word_chars (chars_of <$> ws).
Proof. intros H. apply Forall_fmap. eapply Forall_impl; [exact H|]. by intros w []. Qed.

Lemma split_words ws : Forall word ws -> text <$> split_whitespace (unwords (chars_of <$> ws)) = ws.
Proof. intros H. rewrite split_whitespace_unwords by (by apply words_chars). by apply text_words. Qed.

Lemma replace_dots_chars s :
  utf8_valid s = true ->
  utf8_valid (replace_dots s) = true /\
  chars_of (replace_dots s) = (fun c => if c =? 46 then 95 else c) <$> chars_of s.
Proof.
  intros [Hs _]%utf8_valid_text.
  assert (scalars ((fun c => if c =? 46 then 95 else c) <$> chars_of s)) as Hr.
  { apply Forall_fmap. eapply Forall_impl; [exact Hs|]. intros c Hc. cbn. by case_match. }
  split; [by apply text_utf8_valid|by apply chars_of_text].
Qed.

Lemma replace_dots_word s : word s -> word (replace_dots s).
Proof.
  intros [Hv [Hn Hw]]. destruct (replace_dots_chars s Hv) as [Hv' Hc]. split; [done|].
  rewrite Hc. split; [by intros E%fmap_nil_inv|]. apply Forall_fmap.
  eapply Forall_impl; [exact Hw|]. intros c Hws. cbn. by case_match.
Qed.

Lemma word_app s t : word s -> word t -> word (s +:+ t).
Proof.
  intros [Hv [Hn Hw]] [Hv' [Hn' Hw']]. split; [by apply utf8_valid_app|].
  rewrite chars_of_app by done. split; [by intros [E _]%app_nil|]. by apply Forall_app.
Qed.
