(* ===== verification/BTree.v ===== *)
(** * [BTreeMap<String, V>] inside inductive data

    The list of the entries in the order of the keys, so that equal maps are equal terms.
    [btree_map] and [btree_entries] are inverse on sorted lists. *)

From Stdlib Require Import Strings.String.
From S2P Require Import Prelude.

Definition btree (V : Type) : Type := list (string * V).

(** [BTreeMap::insert]: an equal key has its value replaced. *)
Fixpoint btree_insert {V} (k : string) (v : V) (m : btree V) : btree V :=
  match m with
  | [] => [(k, v)]
  | (k', v') :: m' =>
      match String.compare k k' with
      | Lt => (k, v) :: m
      | Eq => (k, v) :: m'
      | Gt => (k', v') :: btree_insert k v m'
      end
  end.

(** [BTreeMap::get]. *)
Fixpoint btree_get {V} (k : string) (m : btree V) : option V :=
  match m with
  | [] => None
  | (k', v) :: m => if String.eqb k k' then Some v else btree_get k m
  end.

(** The finite map of a list of entries. *)
Definition btree_map {V} (m : btree V) : gmap string V := list_to_map m.

(** The invariant of the representation. *)
Definition btree_sorted {V} (m : btree V) : Prop := StronglySorted key_le m /\ NoDup m.*1.

Section btree.
Context {V : Type}.
Implicit Types m : btree V.

Lemma btree_get_map k m : btree_get k m = btree_map m !! k.
Proof.
  induction m as [|[k' v] m IH]; [done|]. unfold btree_map in *. cbn [btree_get list_to_map foldr fst snd].
  destruct (String.eqb_spec k k') as [->|Hk]; [by rewrite lookup_insert_eq|].
  by rewrite lookup_insert_ne.
Qed.

Lemma btree_get_elem k v m : btree_sorted m -> btree_get k m = Some v <-> (k, v) ∈ m.
Proof. intros [_ Hn]. rewrite btree_get_map. symmetry. by apply elem_of_list_to_map. Qed.

Lemma compare_le a b : String.compare a b ≠ Gt -> String.le a b.
Proof. unfold String.le, String.leb. by destruct (String.compare a b). Qed.

Lemma compare_refl s : String.compare s s = Eq.
Proof.
  pose proof (String.compare_antisym s s) as H. by destruct (String.compare s s).
Qed.

Lemma btree_insert_keys k v m x : x ∈ (btree_insert k v m).*1 -> x = k \/ x ∈ m.*1.
Proof.
  induction m as [|[k' v'] m IH]; cbn [btree_insert]; [set_solver|].
  destruct (String.compare k k') eqn:E; cbn [fmap list_fmap fst] in *; set_solver.
Qed.

Lemma btree_insert_elem k v m e :
  e ∈ btree_insert k v m -> e = (k, v) \/ e ∈ m.
Proof.
  induction m as [|[k' v'] m IH]; cbn [btree_insert]; [set_solver|].
  destruct (String.compare k k') eqn:E; set_solver.
Qed.

Lemma btree_insert_map k v m : btree_map (btree_insert k v m) = <[k := v]> (btree_map m).
Proof.
  unfold btree_map. induction m as [|[k' v'] m IH]; [done|]. cbn [btree_insert].
  destruct (String.compare k k') eqn:E; cbn [list_to_map foldr fst snd].
  - apply String.compare_eq_iff in E as ->. by rewrite insert_insert_eq.
  - done.
  - fold (list_to_map (M := gmap string V) (btree_insert k v m)).
    fold (list_to_map (M := gmap string V) m). rewrite IH. apply insert_insert_ne.
    intros <-. by rewrite compare_refl in E.
Qed.

Lemma btree_get_insert k v m : btree_get k (btree_insert k v m) = Some v.
Proof. by rewrite btree_get_map, btree_insert_map, lookup_insert_eq. Qed.

Lemma btree_get_insert_ne k k' v m : k ≠ k' -> btree_get k' (btree_insert k v m) = btree_get k' m.
Proof. intros Hk. by rewrite !btree_get_map, btree_insert_map, lookup_insert_ne. Qed.

Lemma btree_insert_sorted k v m : btree_sorted m -> btree_sorted (btree_insert k v m).
Proof.
  unfold btree_sorted. induction m as [|[k' v'] m IH]; intros [Hs Hn].
  { split; [repeat constructor|]. cbn. constructor; [set_solver|constructor]. }
  inversion Hs as [|e l Hs' Hle]; subst. cbn [fmap list_fmap fst] in Hn.
  apply NoDup_cons in Hn as [Hk' Hn]. cbn [btree_insert].
  assert (forall a b : string * V, a.1 = b.1 -> Forall (key_le a) m -> Forall (key_le b) m) as Hmono.
  { intros a b E Ha. eapply Forall_impl; [exact Ha|]. intros e. unfold key_le. by rewrite E. }
  destruct (String.compare k k') eqn:E; cbn [fmap list_fmap fst].
  - apply String.compare_eq_iff in E as ->.
    split; [constructor; [done|]|by apply NoDup_cons]. by eapply Hmono.
  - assert (key_le (k, v) (k', v')) as Hkk by (apply compare_le; cbn; by rewrite E).
    split.
    + constructor; [done|]. constructor; [done|].
      eapply Forall_impl; [exact Hle|]. intros e. by apply transitivity.
    + apply NoDup_cons. split; [|by apply NoDup_cons].
      intros [->|Hin]%elem_of_cons; [by rewrite compare_refl in E|].
      apply list_elem_of_fmap in Hin as ([k2 v2] & -> & Hin). cbn in *.
      rewrite Forall_forall in Hle. specialize (Hle _ Hin). unfold key_le in *. cbn in *.
      assert (k' = k2) as -> by (by apply (anti_symm String.le)).
      apply Hk', list_elem_of_fmap. by exists (k2, v2).
  - destruct (IH (conj Hs' Hn)) as [Hs2 Hn2].
    assert (key_le (k', v') (k, v)) as Hkk.
    { apply compare_le. cbn. rewrite String.compare_antisym, E. done. }
    split; [constructor; [done|]|apply NoDup_cons; split; [|done]].
    + rewrite Forall_forall in Hle |- *. intros e [->|He]%btree_insert_elem; auto.
    + intros [->|Hin]%btree_insert_keys; [by rewrite compare_refl in E|done].
Qed.

Lemma btree_sorted_nil : btree_sorted ([] : btree V).
Proof. split; constructor. Qed.

Lemma btree_sorted_tail e m : btree_sorted (e :: m) -> btree_sorted m.
Proof. intros [Hs Hn]. split; [by inversion Hs|]. by apply NoDup_cons in Hn as [_ ?]. Qed.

Lemma btree_entries_sorted' (m : gmap string V) : btree_sorted (btree_entries m).
Proof. split; [apply btree_entries_sorted|apply btree_entries_nodup]. Qed.

Lemma btree_map_entries (m : gmap string V) : btree_map (btree_entries m) = m.
Proof. apply list_to_map_btree_entries. Qed.

Lemma btree_entries_map m : btree_sorted m -> btree_entries (btree_map m) = m.
Proof.
  intros [Hs Hn]. apply (StronglySorted_unique_strong key_le).
  - intros [k1 v1] [k2 v2] H1 H2 Hle1 Hle2. unfold key_le in *. cbn in *.
    assert (k1 = k2) as -> by (by apply (anti_symm String.le)). f_equal.
    apply btree_entries_elem in H1. unfold btree_map in H1.
    apply elem_of_list_to_map in H2; [|done]. congruence.
  - apply btree_entries_sorted.
  - done.
  - rewrite btree_entries_perm. unfold btree_map. by rewrite map_to_list_to_map.
Qed.

(** Sorted lists with the same entries are equal. *)
Lemma btree_ext m1 m2 :
  btree_sorted m1 -> btree_sorted m2 -> (forall k, btree_get k m1 = btree_get k m2) -> m1 = m2.
Proof.
  intros H1 H2 H. rewrite <- (btree_entries_map m1), <- (btree_entries_map m2) by done.
  f_equal. apply map_eq. intros k. by rewrite <- !btree_get_map.
Qed.

End btree.
