(* ===== verification/Ast.v ===== *)
(** * The EpochQL abstract syntax ([epochql/src/ast.rs])

    A [BTreeMap<String, V>] inside the syntax is a [btree]. *)

From Stdlib Require Import Strings.String Floats.SpecFloat.
From S2P Require Import Prelude Lexer.
From S2P Require Export BTree.

(** ** The syntax *)

Inductive BinaryOp : Type := OpEq | OpNeq | OpAnd | OpOr.

Inductive Expression : Type :=
| ENull
| EBool (b : bool)
| EInt (n : Z)
| EFloat (f : f64)
| EString (s : string)
| EVariable (s : string)
| EPropertyAccess (object : Expression) (property : string)
| EBinary (left : Expression) (op : BinaryOp) (right : Expression)
| EMap (m : btree Expression).

Inductive TargetRef : Type :=
| THead
| TBranch (name : string)
| TCommit (hex : string)
| TTag (name : string).

Record ContextClause := mk_ContextClause { target : TargetRef }.

Inductive EdgeDirection : Type := Outgoing | Incoming.
Inductive EdgeType : Type := Parent | Child | Ancestor | Descendant.

Inductive HopMultiplier : Type :=
| Any
| Exact (n : Z)
| Range (min max : option Z).

Record NodePattern := mk_NodePattern {
  variable : option string;
  label : option string;
  properties : btree Expression
}.

Record EdgePattern := mk_EdgePattern {
  direction : EdgeDirection;
  edge_type : EdgeType;
  multiplier : option HopMultiplier
}.

Inductive PatternElement : Type :=
| Node (n : NodePattern)
| Edge (e : EdgePattern).

Record Pattern := mk_Pattern { elements : list PatternElement }.
Record MatchClause := mk_MatchClause { patterns : list Pattern }.

Inductive TraversalClause : Type :=
| TrMergeBase (a b : TargetRef)
| TrShortestPath (a b : TargetRef)
| TrAncestors (a : TargetRef).

Record ProjectionItem := mk_ProjectionItem {
  expression : Expression;
  alias : option string
}.

Record SelectClause := mk_SelectClause { items : list ProjectionItem }.

Record QueryStatement := mk_QueryStatement {
  context : option ContextClause;
  match_clause : option MatchClause;
  traversal : option TraversalClause;
  where_clause : option Expression;
  select : option SelectClause
}.

Record CommitStmt := mk_CommitStmt {
  payload : btree Expression;
  commit_message : option string;
  commit_parents : option (list TargetRef)
}.

Inductive BranchStmt : Type :=
| BCreate (name : string) (from : option TargetRef)
| BDelete (name : string).

Inductive MergeStrategy : Type := FastForward | ThreeWay | Squash.

Record MergeStmt := mk_MergeStmt {
  merge_source : TargetRef;
  merge_into : TargetRef;
  strategy : MergeStrategy
}.

Record DiffStmt := mk_DiffStmt {
  diff_left : TargetRef;
  diff_right : TargetRef;
  diff_path : option string
}.

Inductive VersionStatement : Type :=
| VCommit (c : CommitStmt)
| VBranch (b : BranchStmt)
| VCheckout (t : TargetRef)
| VMerge (m : MergeStmt)
| VDiff (d : DiffStmt).

Inductive Statement : Type :=
| Query (q : QueryStatement)
| Version (v : VersionStatement).

(** ** Induction over expressions, through the maps *)

Section expression_ind.
Context (P : Expression -> Prop).
Context (Hnull : P ENull) (Hbool : forall b, P (EBool b)) (Hint : forall n, P (EInt n)).
Context (Hfloat : forall f, P (EFloat f)) (Hstring : forall s, P (EString s)).
Context (Hvar : forall s, P (EVariable s)).
Context (Hprop : forall e p, P e -> P (EPropertyAccess e p)).
Context (Hbin : forall l op r, P l -> P r -> P (EBinary l op r)).
Context (Hmap : forall m, Forall (fun kv => P kv.2) m -> P (EMap m)).

Fixpoint Expression_ind' (e : Expression) : P e :=
  match e with
  | ENull => Hnull
  | EBool b => Hbool b
  | EInt n => Hint n
  | EFloat f => Hfloat f
  | EString s => Hstring s
  | EVariable s => Hvar s
  | EPropertyAccess o p => Hprop o p (Expression_ind' o)
  | EBinary l op r => Hbin l op r (Expression_ind' l) (Expression_ind' r)
  | EMap m =>
      Hmap m ((fix go m : Forall (fun kv => P kv.2) m :=
                 match m with
                 | [] => List.Forall_nil _
                 | kv :: m => List.Forall_cons _ _ _ (Expression_ind' kv.2) (go m)
                 end) m)
  end.
End expression_ind.
