(* ===== verification/Parser.v ===== *)
(** * The EpochQL parser ([epochql/src/parser.rs])

    A recursive descent over the token list. The recursion through [parse_expression] is
    bounded by a fuel argument; every loop consumes a token per turn and has the number
    of tokens plus one as its fuel. *)

From Stdlib Require Import Strings.String Floats.SpecFloat.
From S2P Require Import Prelude Utf8 Chars Lexer Ast.

Record Parser := mk_Parser {
  psource : string;
  tokens : list Token;
  ppos : nat
}.

Module Parse.

Abbreviation M := (stM Parser ParseError).

Definition new (source : string) (tokens : list Token) : Parser := mk_Parser source tokens 0.

(** [&self.tokens[self.pos.min(self.tokens.len() - 1)]]: panics on an empty token list. *)
Definition current : M Token := fun ps =>
  match tokens ps !! Nat.min (ppos ps) (length (tokens ps) - 1) with
  | Some t => (Ok t, ps)
  | None => (Panic, ps)
  end.

Definition current_kind : M TokenKind := t ← current; mret (kind t).

Definition is_eof : M bool := k ← current_kind; mret (is_Eof k).

(** Equality of the discriminants of two kinds. *)
Definition same_kind (a b : TokenKind) : bool :=
  match a, b with
  | KIdent _, KIdent _ | KString _, KString _ | KInt _, KInt _ | KFloat _, KFloat _ => true
  | _, _ => bool_decide (a = b)
  end.

Definition check (k : TokenKind) : M bool := c ← current_kind; mret (same_kind c k).

(** The kinds [looks_like_ident] accepts: an identifier or any keyword. *)
Definition ident_kind (k : TokenKind) : bool :=
  match k with
  | KIdent _
  | KUse | KBranch | KCommit | KTag | KHead | KMatch | KTraverse | KMergeBase
  | KShortestPath | KAncestors | KWhere | KSelect | KAs | KCreate | KDelete | KFrom
  | KCheckout | KMerge | KInto | KStrategy | KFastForward | KThreeWay | KSquash | KDiff
  | KAnd | KOr | KMessage | KParents | KPath | KParent | KChild | KAncestor | KDescendant
  | KNull | KTrue | KFalse | KCollection | KIndex | KKey | KDrop | KOn | KTypeKw
  | KTyString | KTyInt | KTyBool | KTyBytes => true
  | _ => false
  end.

Definition looks_like_ident : M bool := k ← current_kind; mret (ident_kind k).

Definition bump : M Token :=
  tok ← current;
  _ ← modify (fun ps =>
        if Nat.ltb (ppos ps) (length (tokens ps) - 1)
        then mk_Parser (psource ps) (tokens ps) (S (ppos ps)) else ps);
  mret tok.

Definition parse_error {A} (m : Message) : M A :=
  t ← current;
  src ← gets psource;
  fail (Error.with_location (Error.at_offset (tok_offset t) m) src).

Definition error {A} (m : string) : M A := parse_error (Text m).

Definition expect (k : TokenKind) : M Token :=
  ok ← check k;
  if (ok : bool) then bump
  else found ← current_kind; parse_error (ExpectedFound k found).

Definition expect_eof_or_semicolon : M unit :=
  semi ← check KSemicolon;
  _ ← (if (semi : bool) then _ ← bump; mret tt else mret tt);
  eof ← is_eof;
  if (eof : bool) then mret tt else error "unexpected tokens after statement".

Definition can_start_statement : M bool :=
  k ← current_kind;
  mret match k with
       | KUse | KMatch | KTraverse | KWhere | KSelect | KCommit | KCreate | KDelete
       | KCheckout | KMerge | KDiff => true
       | _ => false
       end.

(** The fuel of a loop that consumes a token in every turn. *)
Definition tokens_fuel : M nat := gets (fun ps => S (length (tokens ps))).

(** ** Names and literals *)

Definition slice (start stop : Z) : M string := fun ps =>
  match str_slice (psource ps) start stop with
  | Some s => (Ok s, ps)
  | None => (Panic, ps)
  end.

Definition expect_ident_or_keyword_as_ident : M string :=
  ok ← looks_like_ident;
  if (ok : bool) then
    t ← current;
    _ ← bump;
    slice (tok_offset t) (tok_end t)
  else error "expected identifier".

Definition expect_ident : M string := expect_ident_or_keyword_as_ident.

Definition expect_string : M string :=
  k ← current_kind;
  match k with
  | KString s => _ ← bump; mret s
  | _ => error "expected string literal"
  end.

Definition expect_name : M string :=
  k ← current_kind;
  match k with
  | KString _ => expect_string
  | _ => expect_ident
  end.

Definition u32_MAX : Z := 2 ^ 32 - 1.

Definition expect_u32 : M Z :=
  k ← current_kind;
  match k with
  | KInt n =>
      if (0 <=? n) && (n <=? u32_MAX) then _ ← bump; mret n
      else error "expected non-negative integer"
  | _ => error "expected non-negative integer"
  end.

Definition validate_hex_hash (s : string) : option string :=
  if bool_decide (s = EmptyString) then Some "commit hash must not be empty"
  else if 64 <? str_len s then
    Some ("commit hash too long (" +:+ pretty (str_len s) +:+ " chars, max 64)")
  else if forallb (fun ic => is_ascii_hexdigit ic.2) (char_indices (str_bytes s) 0) then None
  else Some ("commit hash must be hexadecimal, got '" +:+ s +:+ "'").

Definition branch_or_tag_name (err : string) : M string :=
  k ← current_kind;
  match k with
  | KIdent _ => expect_ident
  | KString _ => expect_string
  | _ => error err
  end.

Definition parse_target_ref : M TargetRef :=
  k ← current_kind;
  match k with
  | KHead => _ ← bump; mret THead
  | KBranch =>
      _ ← bump;
      name ← branch_or_tag_name "expected branch name after BRANCH";
      mret (TBranch name)
  | KCommit =>
      _ ← bump;
      hex ← expect_string;
      match validate_hex_hash hex with
      | Some m => error m
      | None => mret (TCommit hex)
      end
  | KTag =>
      _ ← bump;
      name ← branch_or_tag_name "expected tag name after TAG";
      mret (TTag name)
  | _ => error "expected HEAD, BRANCH, COMMIT, or TAG"
  end.

(** ** Expressions *)

Section expressions.

(** The recursive call. *)
Variable parse_expression : M Expression.

(** [if self.check(Comma) { bump } else { break }], the end of a turn of a list loop. *)
Definition comma_or_break {A} (a : A) : M (A + A) :=
  comma ← check KComma;
  if (comma : bool) then _ ← bump; mret (inl a) else mret (inr a).

Definition parse_map_literal : M (btree Expression) :=
  _ ← expect KLBrace;
  close ← check KRBrace;
  map ← (if (close : bool) then mret []
         else
           fuel ← tokens_fuel;
           loop fuel (fun map =>
             key ← expect_ident_or_keyword_as_ident;
             _ ← expect KColon;
             value ← parse_expression;
             comma_or_break (btree_insert key value map)) []);
  _ ← expect KRBrace;
  mret map.

(** [-n] on an [i64]: overflow panics. *)
Definition neg_i64 (n : Z) : M Expression :=
  if n =? - 2 ^ 63 then panic else mret (EInt (- n)).

Definition parse_primary : M Expression :=
  k ← current_kind;
  match k with
  | KNull => _ ← bump; mret ENull
  | KTrue => _ ← bump; mret (EBool true)
  | KFalse => _ ← bump; mret (EBool false)
  | KInt n => _ ← bump; mret (EInt n)
  | KFloat n => _ ← bump; mret (EFloat n)
  | KString s => _ ← bump; mret (EString s)
  | KLBrace => m ← parse_map_literal; mret (EMap m)
  | KLParen =>
      _ ← bump;
      expr ← parse_expression;
      _ ← expect KRParen;
      mret expr
  | KMinus =>
      _ ← bump;
      k ← current_kind;
      match k with
      | KInt n => _ ← bump; neg_i64 n
      | KFloat n => _ ← bump; mret (EFloat (SFopp n))
      | _ => error "expected number after '-'"
      end
  | _ =>
      if ident_kind k then
        name ← expect_ident;
        mret (EVariable name)
      else error "expected expression"
  end.

Definition parse_postfix : M Expression :=
  expr ← parse_primary;
  fuel ← tokens_fuel;
  loop fuel (fun expr =>
    dot ← check KDot;
    if (dot : bool) then
      _ ← bump;
      property ← expect_ident_or_keyword_as_ident;
      mret (inl (EPropertyAccess expr property))
    else mret (inr expr)) expr.

Definition equality_op (k : TokenKind) : option BinaryOp :=
  match k with KEq => Some OpEq | KNeq => Some OpNeq | _ => None end.

Definition parse_equality : M Expression :=
  left ← parse_postfix;
  fuel ← tokens_fuel;
  loop fuel (fun left =>
    k ← current_kind;
    match equality_op k with
    | Some op =>
        _ ← bump;
        right ← parse_postfix;
        mret (inl (EBinary left op right))
    | None => mret (inr left)
    end) left.

Definition parse_and : M Expression :=
  left ← parse_equality;
  fuel ← tokens_fuel;
  loop fuel (fun left =>
    and ← check KAnd;
    if (and : bool) then
      _ ← bump;
      right ← parse_equality;
      mret (inl (EBinary left OpAnd right))
    else mret (inr left)) left.

Definition parse_or : M Expression :=
  left ← parse_and;
  fuel ← tokens_fuel;
  loop fuel (fun left =>
    or ← check KOr;
    if (or : bool) then
      _ ← bump;
      right ← parse_and;
      mret (inl (EBinary left OpOr right))
    else mret (inr left)) left.

End expressions.

(** Each nested call has consumed a token, so the number of tokens is enough fuel. *)
Fixpoint parse_expression_fuel (fuel : nat) : M Expression :=
  match fuel with
  | O => no_fuel
  | S fuel => parse_or (parse_expression_fuel fuel)
  end.

Definition parse_expression : M Expression :=
  fuel ← tokens_fuel;
  parse_expression_fuel fuel.

Definition parse_map : M (btree Expression) := parse_map_literal parse_expression.

(** ** Version statements *)

Definition parse_parents : M (list TargetRef) :=
  _ ← expect KLBracket;
  close ← check KRBracket;
  list ← (if (close : bool) then mret []
          else
            fuel ← tokens_fuel;
            loop fuel (fun list =>
              t ← parse_target_ref;
              comma_or_break (list ++ [t])) []);
  _ ← expect KRBracket;
  mret list.

Definition parse_commit_stmt : M CommitStmt :=
  _ ← expect KCommit;
  payload ← parse_map;
  fuel ← tokens_fuel;
  '(message, parents) ← loop fuel (fun '(message, parents) =>
    k ← current_kind;
    match k with
    | KMessage =>
        _ ← bump;
        m ← expect_string;
        mret (inl (Some m, parents))
    | KParents =>
        _ ← bump;
        list ← parse_parents;
        mret (inl (message, Some list))
    | _ => mret (inr (message, parents))
    end) (None, None);
  mret (mk_CommitStmt payload message parents).

Definition parse_branch_stmt : M BranchStmt :=
  k ← current_kind;
  match k with
  | KCreate =>
      _ ← bump;
      _ ← expect KBranch;
      name ← expect_name;
      has_from ← check KFrom;
      from ← (if (has_from : bool) then _ ← bump; t ← parse_target_ref; mret (Some t)
              else mret None);
      mret (BCreate name from)
  | KDelete =>
      _ ← bump;
      _ ← expect KBranch;
      name ← expect_name;
      mret (BDelete name)
  | _ => error "expected CREATE or DELETE BRANCH"
  end.

Definition parse_merge_stmt : M MergeStmt :=
  _ ← expect KMerge;
  source ← parse_target_ref;
  _ ← expect KInto;
  into ← parse_target_ref;
  has_strategy ← check KStrategy;
  strategy ←
    (if (has_strategy : bool) then
       _ ← bump;
       k ← current_kind;
       match k with
       | KFastForward => _ ← bump; mret FastForward
       | KThreeWay => _ ← bump; mret ThreeWay
       | KSquash => _ ← bump; mret Squash
       | _ => error "expected FAST_FORWARD, THREE_WAY, or SQUASH merge strategy"
       end
     else mret FastForward);
  mret (mk_MergeStmt source into strategy).

Definition parse_diff_stmt : M DiffStmt :=
  _ ← expect KDiff;
  left ← parse_target_ref;
  _ ← expect KAnd;
  right ← parse_target_ref;
  has_path ← check KPath;
  path ← (if (has_path : bool) then _ ← bump; s ← expect_string; mret (Some s)
          else mret None);
  mret (mk_DiffStmt left right path).

Definition parse_version_statement : M VersionStatement :=
  k ← current_kind;
  match k with
  | KCommit => c ← parse_commit_stmt; mret (VCommit c)
  | KCreate | KDelete => b ← parse_branch_stmt; mret (VBranch b)
  | KCheckout => _ ← bump; t ← parse_target_ref; mret (VCheckout t)
  | KMerge => m ← parse_merge_stmt; mret (VMerge m)
  | KDiff => d ← parse_diff_stmt; mret (VDiff d)
  | _ => error "expected version statement"
  end.

(** ** Query statements *)

Definition is_int (k : TokenKind) : bool := match k with KInt _ => true | _ => false end.

Definition parse_edge_type : M EdgeType :=
  k ← current_kind;
  match k with
  | KParent => _ ← bump; mret Parent
  | KChild => _ ← bump; mret Child
  | KAncestor => _ ← bump; mret Ancestor
  | KDescendant => _ ← bump; mret Descendant
  | _ => error "expected PARENT, CHILD, ANCESTOR, or DESCENDANT"
  end.

Definition parse_hop_multiplier : M HopMultiplier :=
  _ ← expect KStar;
  k ← current_kind;
  if is_int k then
    n ← expect_u32;
    dots ← check KDotDot;
    if (dots : bool) then
      _ ← bump;
      k ← current_kind;
      if is_int k then m ← expect_u32; mret (Range (Some n) (Some m))
      else mret (Range (Some n) None)
    else mret (Exact n)
  else
    dots ← check KDotDot;
    if (dots : bool) then
      _ ← bump;
      k ← current_kind;
      if is_int k then m ← expect_u32; mret (Range None (Some m))
      else mret Any
    else mret Any.

Definition is_edge_type (k : TokenKind) : bool :=
  match k with KParent | KChild | KAncestor | KDescendant => true | _ => false end.

Definition parse_edge_body : M (option EdgeType * option HopMultiplier) :=
  colon ← check KColon;
  k ← current_kind;
  edge_type ← (if (colon : bool) then _ ← bump; t ← parse_edge_type; mret (Some t)
               else if is_edge_type k then t ← parse_edge_type; mret (Some t)
               else mret None);
  star ← check KStar;
  multiplier ← (if (star : bool) then h ← parse_hop_multiplier; mret (Some h)
                else mret None);
  mret (edge_type, multiplier).

Definition parse_bracket_edge (direction : EdgeDirection) : M EdgePattern :=
  _ ← expect KLBracket;
  '(edge_type, multiplier) ← parse_edge_body;
  _ ← expect KRBracket;
  match direction with
  | Incoming =>
      _ ← expect KMinus;
      mret (mk_EdgePattern direction (default Parent edge_type) multiplier)
  | Outgoing =>
      _ ← expect KArrowRight;
      mret (mk_EdgePattern direction (default Child edge_type) multiplier)
  end.

Definition parse_edge_pattern : M EdgePattern :=
  k ← current_kind;
  match k with
  | KArrowRight => _ ← bump; mret (mk_EdgePattern Outgoing Child None)
  | KArrowLeft =>
      _ ← bump;
      bracket ← check KLBracket;
      if (bracket : bool) then parse_bracket_edge Incoming
      else mret (mk_EdgePattern Incoming Parent None)
  | KMinus =>
      _ ← bump;
      _ ← expect KLBracket;
      '(edge_type, multiplier) ← parse_edge_body;
      _ ← expect KRBracket;
      _ ← expect KArrowRight;
      mret (mk_EdgePattern Outgoing (default Child edge_type) multiplier)
  | _ => error "expected edge pattern (->, <-, -[...]->, or <-[...]-)"
  end.

Definition parse_node_pattern : M NodePattern :=
  _ ← expect KLParen;
  has_variable ← looks_like_ident;
  variable ← (if (has_variable : bool) then v ← expect_ident; mret (Some v) else mret None);
  has_label ← check KColon;
  label ← (if (has_label : bool) then
             _ ← bump;
             l ← expect_ident_or_keyword_as_ident;
             mret (Some l)
           else mret None);
  has_props ← check KLBrace;
  properties ← (if (has_props : bool) then parse_map else mret []);
  _ ← expect KRParen;
  mret (mk_NodePattern variable label properties).

Definition is_edge_start : M bool :=
  k ← current_kind;
  mret match k with KArrowRight | KArrowLeft | KMinus => true | _ => false end.

Definition parse_pattern : M Pattern :=
  n ← parse_node_pattern;
  fuel ← tokens_fuel;
  elements ← loop fuel (fun elements =>
    more ← is_edge_start;
    if (more : bool) then
      e ← parse_edge_pattern;
      n ← parse_node_pattern;
      mret (inl (elements ++ [Edge e; Node n]))
    else mret (inr elements)) [Node n];
  mret (mk_Pattern elements).

(** [while self.check(Comma) { self.bump(); list.push(item()?) }] *)
Definition comma_separated {A} (item : M A) (first : A) : M (list A) :=
  fuel ← tokens_fuel;
  loop fuel (fun list =>
    comma ← check KComma;
    if (comma : bool) then
      _ ← bump;
      x ← item;
      mret (inl (list ++ [x]))
    else mret (inr list)) [first].

Definition parse_match_clause : M MatchClause :=
  _ ← expect KMatch;
  p ← parse_pattern;
  patterns ← comma_separated parse_pattern p;
  mret (mk_MatchClause patterns).

(** The two arguments of [MERGE_BASE] and [SHORTEST_PATH]. *)
Definition parse_two_targets : M (TargetRef * TargetRef) :=
  _ ← bump;
  _ ← expect KLParen;
  a ← parse_target_ref;
  _ ← expect KComma;
  b ← parse_target_ref;
  _ ← expect KRParen;
  mret (a, b).

Definition parse_traversal_clause : M TraversalClause :=
  _ ← expect KTraverse;
  k ← current_kind;
  match k with
  | KMergeBase => '(a, b) ← parse_two_targets; mret (TrMergeBase a b)
  | KShortestPath => '(a, b) ← parse_two_targets; mret (TrShortestPath a b)
  | KAncestors =>
      _ ← bump;
      _ ← expect KLParen;
      a ← parse_target_ref;
      _ ← expect KRParen;
      mret (TrAncestors a)
  | _ => error "expected MERGE_BASE, SHORTEST_PATH, or ANCESTORS after TRAVERSE"
  end.

Definition parse_projection_item : M ProjectionItem :=
  e ← parse_expression;
  has_alias ← check KAs;
  alias ← (if (has_alias : bool) then _ ← bump; a ← expect_ident; mret (Some a)
           else mret None);
  mret (mk_ProjectionItem e alias).

Definition parse_select_clause : M SelectClause :=
  _ ← expect KSelect;
  i ← parse_projection_item;
  items ← comma_separated parse_projection_item i;
  mret (mk_SelectClause items).

(** [if self.check(k) { Some(clause()?) } else { None }] *)
Definition optional {A} (k : TokenKind) (clause : M A) : M (option A) :=
  here ← check k;
  if (here : bool) then a ← clause; mret (Some a) else mret None.

Definition parse_query_statement : M QueryStatement :=
  context ← optional KUse (_ ← bump; t ← parse_target_ref; mret (mk_ContextClause t));
  match_clause ← optional KMatch parse_match_clause;
  traversal ← optional KTraverse parse_traversal_clause;
  where_clause ← optional KWhere (_ ← bump; parse_expression);
  select ← optional KSelect parse_select_clause;
  match context, match_clause, traversal, where_clause, select with
  | None, None, None, None, None =>
      error "expected query clause (USE, MATCH, TRAVERSE, WHERE, or SELECT)"
  | _, _, _, _, _ =>
      mret (mk_QueryStatement context match_clause traversal where_clause select)
  end.

Definition parse_statement : M Statement :=
  k ← current_kind;
  match k with
  | KCommit | KCreate | KDelete | KCheckout | KMerge | KDiff =>
      v ← parse_version_statement; mret (Version v)
  | _ => q ← parse_query_statement; mret (Query q)
  end.

Definition parse_script_loop : M (list Statement) :=
  fuel ← tokens_fuel;
  loop fuel (fun stmts =>
    eof ← is_eof;
    if (eof : bool) then mret (inr stmts)
    else
      s ← parse_statement;
      let stmts := stmts ++ [s] in
      semi ← check KSemicolon;
      _ ← (if (semi : bool) then _ ← bump; mret tt else mret tt);
      eof ← is_eof;
      if (eof : bool) then mret (inr stmts)
      else
        start ← can_start_statement;
        if (start : bool) then mret (inl stmts)
        else error "expected statement or end of input") [].

(** [parse]. *)
Definition parse (source : string) : outcome ParseError Statement :=
  tokens ← Lex.tokenize (Lex.new source);
  ((stmt ← parse_statement; _ ← expect_eof_or_semicolon; mret stmt) (new source tokens)).1.

(** [parse_script]. *)
Definition parse_script (source : string) : outcome ParseError (list Statement) :=
  tokens ← Lex.tokenize (Lex.new source);
  (parse_script_loop (new source tokens)).1.

End Parse.

Definition dq : string := String (Ascii.ascii_of_nat 34) EmptyString.

Example parses_commit :
  Parse.parse ("COMMIT { x: -1, a: { b: (n.Key = TRUE) } } MESSAGE " +:+ dq +:+ "hi" +:+ dq) =
  Ok (Version (VCommit (mk_CommitStmt
        [("a", EMap [("b", EBinary (EPropertyAccess (EVariable "n") "Key") OpEq (EBool true))]);
         ("x", EInt (-1))] (Some "hi") None))).
Proof. vm_compute. reflexivity. Qed.

Example parses_match :
  Parse.parse "MATCH (a)<-[ANCESTOR*1..3]-(b:State) WHERE a.x = 1 OR b SELECT a AS c;" =
  Ok (Query (mk_QueryStatement None
        (Some (mk_MatchClause [mk_Pattern
           [Node (mk_NodePattern (Some "a") None []);
            Edge (mk_EdgePattern Incoming Ancestor (Some (Range (Some 1) (Some 3))));
            Node (mk_NodePattern (Some "b") (Some "State") [])]]))
        None
        (Some (EBinary (EBinary (EPropertyAccess (EVariable "a") "x") OpEq (EInt 1))
                       OpOr (EVariable "b")))
        (Some (mk_SelectClause [mk_ProjectionItem (EVariable "a") (Some "c")])))).
Proof. vm_compute. reflexivity. Qed.
