(* ===== verification/ParserProofs.v ===== *)
(** * The parsers return on every source

    A weakest precondition for runs of the parser that neither panic nor run out of fuel,
    and for each parsing function the fact that it consumes tokens. *)

From Stdlib Require Import Strings.String Floats.SpecFloat.
From S2P Require Import Prelude Utf8 Chars Lexer LexerProofs Ast Parser.

(** The run returns a result in [Q] or an error. *)
Definition wp {A} (m : Parse.M A) (ps : Parser) (Q : A -> Parser -> Prop) : Prop :=
  match m ps with
  | (Ok a, ps') => Q a ps'
  | (Err _, _) => True
  | _ => False
  end.

Lemma wp_mono {A} (m : Parse.M A) ps (Q R : A -> Parser -> Prop) :
  wp m ps Q -> (forall a ps', Q a ps' -> R a ps') -> wp m ps R.
Proof. unfold wp. destruct (m ps) as [[] ?]; auto. Qed.

Lemma wp_bind {A B} (m : Parse.M A) (k : A -> Parse.M B) ps Q :
  wp m ps (fun a ps' => wp (k a) ps' Q) -> wp (m ≫= k) ps Q.
Proof. unfold wp. rewrite stM_bind_eq. by destruct (m ps) as [[] ?]. Qed.

Lemma wp_ret {A} (a : A) ps (Q : A -> Parser -> Prop) : Q a ps -> wp (mret a) ps Q.
Proof. done. Qed.

(** ** The token list of a lexed source *)

(** The list ends with its only end-of-source token, and the tokens the parser takes the
    source text of have one. *)
Record tokens_ok (src : string) (ts : list Token) : Prop := {
  ok_nonempty : ts ≠ [];
  ok_eof : forall i t, ts !! i = Some t -> is_Eof (kind t) = true <-> S i = length ts;
  ok_slice : forall t, t ∈ ts -> is_Eof (kind t) = false ->
    is_Some (str_slice src (tok_offset t) (tok_end t));
  ok_int : forall t n, t ∈ ts -> kind t = KInt n -> 0 <= n
}.

Record parser_ok (ps : Parser) : Prop := {
  pok_tokens : tokens_ok (psource ps) (tokens ps);
  pok_pos : (ppos ps < length (tokens ps))%nat
}.

(** The parser moved on, and at least to position [n]. *)
Record moved (n : nat) (ps ps' : Parser) : Prop := {
  mv_source : psource ps' = psource ps;
  mv_tokens : tokens ps' = tokens ps;
  mv_ok : parser_ok ps';
  mv_pos : (n <= ppos ps')%nat
}.

Lemma moved_refl ps : parser_ok ps -> moved (ppos ps) ps ps.
Proof. by constructor. Qed.

Lemma moved_trans n m ps1 ps2 ps3 : moved n ps1 ps2 -> moved m ps2 ps3 -> moved m ps1 ps3.
Proof. intros [] []. constructor; congruence || done. Qed.

Lemma moved_weaken n m ps ps' : (m <= n)%nat -> moved n ps ps' -> moved m ps ps'.
Proof. intros ? []. constructor; try done. lia. Qed.

Section primitives.
Context (ps : Parser) (Hps : parser_ok ps).

Lemma current_ok :
  exists t, Parse.current ps = (Ok t, ps) /\ tokens ps !! ppos ps = Some t.
Proof.
  destruct Hps as [Ht Hp]. unfold Parse.current.
  replace (Nat.min _ _) with (ppos ps) by lia.
  destruct (lookup_lt_is_Some_2 (tokens ps) (ppos ps) Hp) as [t E]. rewrite E. eauto.
Qed.

Lemma current_wp (Q : Token -> Parser -> Prop) :
  (forall t, tokens ps !! ppos ps = Some t -> Q t ps) -> wp Parse.current ps Q.
Proof. intros H. destruct current_ok as (t & E & Et). unfold wp. rewrite E. auto. Qed.

(** The lexer has no negative literals. *)
Lemma current_kind_wp (Q : TokenKind -> Parser -> Prop) :
  (forall t, tokens ps !! ppos ps = Some t -> (forall n, kind t = KInt n -> 0 <= n) ->
     Q (kind t) ps) ->
  wp Parse.current_kind ps Q.
Proof.
  intros H. apply wp_bind, current_wp. intros t Ht. apply wp_ret, H; [done|].
  intros n. eapply ok_int; [apply pok_tokens, Hps|by eapply list_elem_of_lookup_2].
Qed.

Lemma check_wp k (Q : bool -> Parser -> Prop) :
  (forall t, tokens ps !! ppos ps = Some t -> Q (Parse.same_kind (kind t) k) ps) ->
  wp (Parse.check k) ps Q.
Proof. intros H. apply wp_bind, current_kind_wp. intros t Ht _. by apply wp_ret, H. Qed.

Lemma is_eof_wp (Q : bool -> Parser -> Prop) :
  (forall t, tokens ps !! ppos ps = Some t -> Q (is_Eof (kind t)) ps) -> wp Parse.is_eof ps Q.
Proof. intros H. apply wp_bind, current_kind_wp. intros t Ht _. by apply wp_ret, H. Qed.

(** [bump] moves past every token but the last. *)
Lemma bump_wp t (Q : Token -> Parser -> Prop) :
  tokens ps !! ppos ps = Some t ->
  is_Eof (kind t) = false ->
  (forall ps', moved (S (ppos ps)) ps ps' -> Q t ps') ->
  wp Parse.bump ps Q.
Proof.
  intros Ht He H. destruct current_ok as (t' & E & Et). unfold wp, Parse.bump.
  rewrite (stM_bind_Ok _ _ _ _ _ E), stM_bind_eq. unfold modify. cbn [mret stM_ret].
  assert (t' = t) as -> by congruence. apply H.
  destruct Hps as [Hok Hp]. pose proof (ok_eof _ _ Hok _ _ Ht) as Hl. rewrite He in Hl.
  assert (S (ppos ps) ≠ length (tokens ps)) by (intros ?; by apply Hl in H0).
  replace (Nat.ltb _ _) with true by (symmetry; apply Nat.ltb_lt; lia).
  constructor; cbn [psource tokens ppos]; [done|done| |lia].
  constructor; cbn [psource tokens ppos]; [done|lia].
Qed.

Lemma error_wp {A} m (Q : A -> Parser -> Prop) : wp (Parse.parse_error m) ps Q.
Proof. apply wp_bind, current_wp. intros t _. done. Qed.

Lemma fuel_wp (Q : nat -> Parser -> Prop) :
  Q (S (length (tokens ps))) ps -> wp Parse.tokens_fuel ps Q.
Proof. done. Qed.

Lemma expect_wp k (Q : Token -> Parser -> Prop) :
  is_Eof k = false ->
  (forall t ps', Parse.same_kind (kind t) k = true -> moved (S (ppos ps)) ps ps' -> Q t ps') ->
  wp (Parse.expect k) ps Q.
Proof.
  intros Hk H. apply wp_bind, check_wp. intros t Ht.
  destruct (Parse.same_kind (kind t) k) eqn:E.
  - apply (bump_wp t); [done| |intros ps' Hm; by apply H].
    destruct (kind t); try done. destruct k; done.
  - apply wp_bind, current_kind_wp. intros t' _ _. apply error_wp.
Qed.

Lemma expect_ident_or_keyword_wp (Q : string -> Parser -> Prop) :
  (forall s ps', moved (S (ppos ps)) ps ps' -> Q s ps') ->
  wp Parse.expect_ident_or_keyword_as_ident ps Q.
Proof.
  intros H. apply wp_bind. unfold Parse.looks_like_ident. apply wp_bind, current_kind_wp.
  intros t Ht _. apply wp_ret. destruct (Parse.ident_kind (kind t)) eqn:Ek; [|apply error_wp].
  apply wp_bind, current_wp. intros t' Ht'. assert (t' = t) as -> by congruence.
  assert (is_Eof (kind t) = false) as He by (by destruct (kind t)).
  apply wp_bind, (bump_wp t); [done|done|].
  intros ps' Hm. unfold wp, Parse.slice. rewrite (mv_source _ _ _ Hm).
  destruct (ok_slice _ _ (pok_tokens ps Hps) t) as [s Es];
    [by eapply list_elem_of_lookup_2|done|].
  rewrite Es. by apply H.
Qed.

Lemma expect_string_wp (Q : string -> Parser -> Prop) :
  (forall s ps', moved (S (ppos ps)) ps ps' -> Q s ps') -> wp Parse.expect_string ps Q.
Proof.
  intros H. apply wp_bind, current_kind_wp. intros t Ht _.
  destruct (kind t) eqn:Ek; try apply error_wp.
  apply wp_bind, (bump_wp t); [done|by rewrite Ek|]. intros ps' Hm. by apply wp_ret, H.
Qed.

Lemma expect_u32_wp (Q : Z -> Parser -> Prop) :
  (forall s ps', moved (S (ppos ps)) ps ps' -> Q s ps') -> wp Parse.expect_u32 ps Q.
Proof.
  intros H. apply wp_bind, current_kind_wp. intros t Ht _.
  destruct (kind t) eqn:Ek; try apply error_wp.
  case_match; [|apply error_wp].
  apply wp_bind, (bump_wp t); [done|by rewrite Ek|]. intros ps' Hm. by apply wp_ret, H.
Qed.

End primitives.

(** A loop whose body consumes a token in every turn, or breaks. *)
Lemma loop_wp {A B} (body : A -> Parse.M (A + B)) (n0 : nat) fuel a ps0 ps :
  moved n0 ps0 ps ->
  (length (tokens ps) < fuel + ppos ps)%nat ->
  (forall a ps, (n0 <= ppos ps)%nat -> moved (ppos ps) ps0 ps -> wp (body a) ps (fun r ps' =>
     match r with
     | inl _ => moved (S (ppos ps)) ps0 ps'
     | inr _ => moved (ppos ps) ps0 ps'
     end)) ->
  wp (loop fuel body a) ps (fun _ ps' => moved n0 ps0 ps').
Proof.
  intros Hm Hf Hbody. revert a ps Hm Hf. induction fuel as [|fuel IH]; intros a ps Hm Hf.
  { pose proof (pok_pos _ (mv_ok _ _ _ Hm)). lia. }
  pose proof (mv_pos _ _ _ Hm) as Hn.
  cbn [loop]. apply wp_bind. eapply wp_mono; [apply Hbody; [done|by destruct Hm]|].
  intros [a'|b] ps' Hps'.
  - apply IH; [eapply moved_weaken; [|exact Hps']; lia|].
    pose proof (f_equal length (mv_tokens _ _ _ Hps')).
    pose proof (f_equal length (mv_tokens _ _ _ Hm)).
    pose proof (mv_pos _ _ _ Hps'). lia.
  - apply wp_ret. eapply moved_weaken; [|exact Hps']. lia.
Qed.

(** ** Parsing functions that consume at least one token, or none *)

(** At a state with at most [lim] tokens left, [m] returns having consumed a token, or an
    error. *)
Class Advances (lim : nat) {A} (m : Parse.M A) : Prop :=
  advances ps : parser_ok ps -> (length (tokens ps) <= lim + ppos ps)%nat ->
    wp m ps (fun _ ps' => moved (S (ppos ps)) ps ps').

(** The same for a function that may consume nothing. *)
Class Stays (lim : nat) {A} (m : Parse.M A) : Prop :=
  stays ps : parser_ok ps -> (length (tokens ps) <= lim + ppos ps)%nat ->
    wp m ps (fun _ ps' => moved (ppos ps) ps ps').

(** The text of a token of the list. *)
Lemma slice_wp n ps0 ps i t (Q : string -> Parser -> Prop) :
  moved n ps0 ps -> tokens ps0 !! i = Some t -> is_Eof (kind t) = false ->
  (forall s, Q s ps) -> wp (Parse.slice (tok_offset t) (tok_end t)) ps Q.
Proof.
  intros Hm Ht He HQ. unfold wp, Parse.slice.
  destruct (ok_slice _ _ (pok_tokens ps (mv_ok _ _ _ Hm)) t) as [s ->]; [|done|apply HQ].
  rewrite (mv_tokens _ _ _ Hm). by eapply list_elem_of_lookup_2.
Qed.

Lemma moved_step n ps0 ps ps' :
  moved n ps0 ps -> moved (S (ppos ps)) ps ps' -> moved (S n) ps0 ps'.
Proof.
  intros H1 H2. eapply moved_weaken, moved_trans; [|exact H1|exact H2].
  pose proof (mv_pos _ _ _ H1). lia.
Qed.

Lemma moved_stay n ps0 ps ps' :
  moved n ps0 ps -> moved (ppos ps) ps ps' -> moved n ps0 ps'.
Proof.
  intros H1 H2. eapply moved_weaken, moved_trans; [|exact H1|exact H2].
  pose proof (mv_pos _ _ _ H1). lia.
Qed.

#[global] Instance advances_stays lim {A} (m : Parse.M A) : Advances lim m -> Stays lim m | 10.
Proof.
  intros H ps Hok Hl. eapply wp_mono; [by apply H|]. intros ? ? Hm.
  eapply moved_weaken; [|exact Hm]. lia.
Qed.

Lemma same_kind_not_eof k k' : Parse.same_kind k k' = true -> is_Eof k' = false -> is_Eof k = false.
Proof. destruct k; try done. destruct k'; vm_compute; congruence. Qed.

(** The parser of the goal is well formed and has few enough tokens left. *)
Ltac pok :=
  match goal with
  | H : moved _ _ ?ps |- parser_ok ?ps => exact (mv_ok _ _ _ H)
  end.
Ltac plim :=
  match goal with
  | H : moved _ _ ?ps |- (length (tokens ?ps) <= _)%nat =>
      pose proof (f_equal length (mv_tokens _ _ _ H)); pose proof (mv_pos _ _ _ H); lia
  end.
(** Forget the intermediate state after a step. *)
Ltac pjoin :=
  match goal with
  | H1 : moved ?n ?ps0 ?ps, H2 : moved (S (ppos ?ps)) ?ps ?ps' |- _ =>
      pose proof (moved_step _ _ _ _ H1 H2); clear H1 H2
  | H1 : moved ?n ?ps0 ?ps, H2 : moved (ppos ?ps) ?ps ?ps' |- _ =>
      pose proof (moved_stay _ _ _ _ H1 H2); clear H1 H2
  end.
Ltac not_eof :=
  first
    [ match goal with
      | Ek : kind ?t = _ |- is_Eof (kind ?t) = false => rewrite Ek; reflexivity
      | Ek : Parse.same_kind (kind ?t) _ = true |- is_Eof (kind ?t) = false =>
          exact (same_kind_not_eof _ _ Ek eq_refl)
      | Ek : context [kind ?t] |- is_Eof (kind ?t) = false =>
          clear -Ek; destruct (kind t); solve [reflexivity | simpl in Ek; congruence]
      end
    | reflexivity ].
(** A call: with the limit of the caller, or after a token one less. *)
Ltac pcall l :=
  first
    [ apply (advances (lim := l)); [pok|plim]
    | apply (stays (lim := l)); [pok|plim]
    | match l with
      | S ?l' => first [apply (advances (lim := l')); [pok|plim] | apply (stays (lim := l')); [pok|plim]]
      end ].
(** One step of a parsing function. *)
Ltac pstep :=
  match goal with
  | |- wp (mret _) _ _ => apply wp_ret; cbv beta iota
  | |- wp (Parse.error _) _ _ => unfold Parse.error; apply error_wp; pok
  | |- wp (Parse.parse_error _) _ _ => apply error_wp; pok
  | |- wp Parse.looks_like_ident _ _ => unfold Parse.looks_like_ident
  | |- wp Parse.is_edge_start _ _ => unfold Parse.is_edge_start
  | |- wp Parse.can_start_statement _ _ => unfold Parse.can_start_statement
  | |- wp Parse.parse_two_targets _ _ => unfold Parse.parse_two_targets
  | |- wp (Parse.optional _ _) _ _ => unfold Parse.optional
  | |- wp (_ ≫= _) _ _ => apply wp_bind
  | |- wp Parse.current_kind _ _ =>
      let Ht := fresh "Ht" in let Hn := fresh "Hn" in
      apply current_kind_wp; [pok|intros ? Ht Hn]
  | |- wp Parse.current _ _ =>
      let Ht := fresh "Ht" in apply current_wp; [pok|intros ? Ht]
  | |- wp (Parse.check _) _ _ =>
      let Ht := fresh "Ht" in apply check_wp; [pok|intros ? Ht]
  | |- wp Parse.is_eof _ _ =>
      let Ht := fresh "Ht" in apply is_eof_wp; [pok|intros ? Ht]
  | Ht : tokens ?ps !! ppos ?ps = Some ?t |- wp Parse.bump ?ps _ =>
      eapply (bump_wp ps); [pok|exact Ht|not_eof|intros ? ?; pjoin]
  | |- wp Parse.tokens_fuel _ _ => apply fuel_wp
  | Ht : tokens ?ps0 !! _ = Some ?t, H : moved _ ?ps0 ?ps
    |- wp (Parse.slice (tok_offset ?t) _) ?ps _ =>
      apply (slice_wp _ _ _ _ _ _ H Ht); [not_eof|intros ?]
  | |- wp (loop _ _ _) ?ps _ =>
      match goal with
      | H : moved ?n ?ps0 ps |- _ =>
          eapply wp_mono;
            [apply (loop_wp _ n _ _ ps0); [exact H|lia|clear H; intros ? ? ? H]
            |clear H; cbv beta; intros ? ? H]
      end
  | |- wp (if Parse.same_kind ?a ?b then _ else _) _ _ =>
      let E := fresh "E" in destruct (Parse.same_kind a b) eqn:E
  | |- wp (if ?b then _ else _) _ _ => let E := fresh "E" in destruct b eqn:E
  | |- wp (match kind ?t with _ => _ end) _ _ =>
      let E := fresh "Ek" in destruct (kind t) eqn:E
  | |- wp (match ?o with _ => _ end) _ _ => let E := fresh "E" in destruct o eqn:E
  | |- wp _ _ _ =>
      match goal with
      | Hl : (length _ <= ?l + _)%nat |- _ =>
          eapply wp_mono; [pcall l|cbv beta; intros ? ? ?; pjoin]
      end
  end.
Ltac pdone :=
  match goal with
  | H : moved _ _ ?ps' |- moved _ _ ?ps' => eapply moved_weaken; [|exact H]; lia
  | H : moved _ ?ps ?ps' |- moved _ ?ps ?ps' => eapply moved_weaken; [|exact H]; lia
  end.
Ltac pauto := repeat pstep; try pdone.
Ltac head_of f := match f with ?h _ => head_of h | _ => f end.
Ltac pstart f :=
  let h := head_of f in
  intros ps Hok Hlim; unfold h; pose proof (moved_refl ps Hok); pauto.

Section with_lim.
Context (lim : nat).

#[global] Instance expect_advances k : TCEq (is_Eof k) false -> Advances lim (Parse.expect k).
Proof.
  intros Hk ps Hok _. apply expect_wp; [done|by apply TCEq_eq|]. by intros.
Qed.

#[global] Instance ident_advances : Advances lim Parse.expect_ident_or_keyword_as_ident.
Proof. intros ps Hok _. apply expect_ident_or_keyword_wp; [done|]. by intros. Qed.

#[global] Instance expect_ident_advances : Advances lim Parse.expect_ident.
Proof. apply ident_advances. Qed.

#[global] Instance expect_string_advances : Advances lim Parse.expect_string.
Proof. intros ps Hok _. apply expect_string_wp; [done|]. by intros. Qed.

#[global] Instance expect_u32_advances : Advances lim Parse.expect_u32.
Proof. intros ps Hok _. apply expect_u32_wp; [done|]. by intros. Qed.

#[global] Instance expect_name_advances : Advances lim Parse.expect_name.
Proof. pstart Parse.expect_name. Qed.

#[global] Instance branch_or_tag_name_advances err : Advances lim (Parse.branch_or_tag_name err).
Proof. pstart Parse.branch_or_tag_name. Qed.

#[global] Instance target_ref_advances : Advances lim Parse.parse_target_ref.
Proof. pstart Parse.parse_target_ref. Qed.

End with_lim.

(** ** Expressions *)

(** After a comma the loop of a list goes on, otherwise it ends. *)
Lemma comma_or_break_wp {A} (a : A) n ps0 ps :
  moved n ps0 ps ->
  wp (Parse.comma_or_break a) ps (fun r ps' =>
    match r with inl _ => moved (S n) ps0 ps' | inr _ => moved n ps0 ps' end).
Proof. intros H. unfold Parse.comma_or_break. pauto. Qed.

(** The end of the body of a list loop. *)
Ltac pcomma :=
  match goal with
  | H : moved _ ?ps0 ?ps |- wp (Parse.comma_or_break _) ?ps _ =>
      eapply wp_mono; [apply (comma_or_break_wp _ _ ps0 ps H)|];
      cbv beta; intros [?|?] ? ?; pdone
  end.

Section expressions.
Context (lim : nat) (pe : Parse.M Expression).
Context `{!Advances lim pe}.

#[global] Instance map_literal_advances : Advances (S lim) (Parse.parse_map_literal pe).
Proof.
  intros ps Hok Hlim. unfold Parse.parse_map_literal. pose proof (moved_refl ps Hok) as Hm.
  repeat pstep; try pdone. pcomma.
Qed.

#[global] Instance primary_advances : Advances (S lim) (Parse.parse_primary pe).
Proof.
  intros ps Hok Hlim. unfold Parse.parse_primary. pose proof (moved_refl ps Hok) as Hm.
  do 3 pstep; pauto.
  assert (0 <= n) by auto. unfold Parse.neg_i64.
  destruct (Z.eqb_spec n (- 2 ^ 63)); [lia|]. pauto.
Qed.

#[global] Instance postfix_advances : Advances (S lim) (Parse.parse_postfix pe).
Proof. pstart (Parse.parse_postfix pe). Qed.

#[global] Instance equality_advances : Advances (S lim) (Parse.parse_equality pe).
Proof. pstart (Parse.parse_equality pe). Qed.

#[global] Instance and_advances : Advances (S lim) (Parse.parse_and pe).
Proof. pstart (Parse.parse_and pe). Qed.

#[global] Instance or_advances : Advances (S lim) (Parse.parse_or pe).
Proof. pstart (Parse.parse_or pe). Qed.

End expressions.

#[global] Instance expression_fuel_advances fuel :
  Advances fuel (Parse.parse_expression_fuel fuel).
Proof.
  induction fuel as [|fuel IH].
  - intros ps Hok Hl. pose proof (pok_pos _ Hok). lia.
  - cbn [Parse.parse_expression_fuel]. apply _.
Qed.

#[global] Instance expression_advances lim : Advances lim Parse.parse_expression.
Proof.
  intros ps Hok Hl. apply wp_bind, fuel_wp.
  apply (advances (lim := S (length (tokens ps)))); [done|lia].
Qed.

#[global] Instance map_advances lim : Advances lim Parse.parse_map.
Proof.
  intros ps Hok Hl. unfold Parse.parse_map.
  apply (advances (lim := S (length (tokens ps)))); [done|lia].
Qed.

Section statements.
Context (lim : nat).

#[global] Instance parents_advances : Advances lim Parse.parse_parents.
Proof. pstart Parse.parse_parents. pcomma. Qed.

#[global] Instance commit_stmt_advances : Advances lim Parse.parse_commit_stmt.
Proof. pstart Parse.parse_commit_stmt. Qed.

#[global] Instance branch_stmt_advances : Advances lim Parse.parse_branch_stmt.
Proof. pstart Parse.parse_branch_stmt. Qed.

#[global] Instance merge_stmt_advances : Advances lim Parse.parse_merge_stmt.
Proof. pstart Parse.parse_merge_stmt. Qed.

#[global] Instance diff_stmt_advances : Advances lim Parse.parse_diff_stmt.
Proof. pstart Parse.parse_diff_stmt. Qed.

#[global] Instance version_statement_advances : Advances lim Parse.parse_version_statement.
Proof. pstart Parse.parse_version_statement. Qed.

#[global] Instance edge_type_advances : Advances lim Parse.parse_edge_type.
Proof. pstart Parse.parse_edge_type. Qed.

#[global] Instance hop_multiplier_advances : Advances lim Parse.parse_hop_multiplier.
Proof. pstart Parse.parse_hop_multiplier. Qed.

#[global] Instance edge_body_stays : Stays lim Parse.parse_edge_body.
Proof. pstart Parse.parse_edge_body. Qed.

#[global] Instance bracket_edge_advances dir : Advances lim (Parse.parse_bracket_edge dir).
Proof. pstart (Parse.parse_bracket_edge dir). Qed.

#[global] Instance edge_pattern_advances : Advances lim Parse.parse_edge_pattern.
Proof. pstart Parse.parse_edge_pattern. Qed.

#[global] Instance node_pattern_advances : Advances lim Parse.parse_node_pattern.
Proof. pstart Parse.parse_node_pattern. Qed.

#[global] Instance pattern_advances : Advances lim Parse.parse_pattern.
Proof. pstart Parse.parse_pattern. Qed.

#[global] Instance comma_separated_stays {A} (item : Parse.M A) first :
  Advances lim item -> Stays lim (Parse.comma_separated item first).
Proof. intros H. pstart (Parse.comma_separated item first). Qed.

#[global] Instance match_clause_advances : Advances lim Parse.parse_match_clause.
Proof. pstart Parse.parse_match_clause. Qed.

#[global] Instance traversal_clause_advances : Advances lim Parse.parse_traversal_clause.
Proof. pstart Parse.parse_traversal_clause. Qed.

#[global] Instance projection_item_advances : Advances lim Parse.parse_projection_item.
Proof. pstart Parse.parse_projection_item. Qed.

#[global] Instance select_clause_advances : Advances lim Parse.parse_select_clause.
Proof. pstart Parse.parse_select_clause. Qed.

#[global] Instance query_statement_advances : Advances lim Parse.parse_query_statement.
Proof.
  intros ps Hok Hlim. unfold Parse.parse_query_statement. pose proof (moved_refl ps Hok).
  repeat (pstep; cbv beta iota); pdone.
Qed.

#[global] Instance statement_advances : Advances lim Parse.parse_statement.
Proof. pstart Parse.parse_statement. Qed.

#[global] Instance script_loop_stays : Stays lim Parse.parse_script_loop.
Proof. pstart Parse.parse_script_loop. Qed.

#[global] Instance expect_eof_or_semicolon_stays : Stays lim Parse.expect_eof_or_semicolon.
Proof. pstart Parse.expect_eof_or_semicolon. Qed.

End statements.

(** ** The tokens of a lexed source *)

Lemma digits_val_nonneg l acc :
  0 <= acc -> forallb (fun b => is_ascii_digit (byte_val b)) l = true -> 0 <= digits_val acc l.
Proof.
  revert acc. induction l as [|b l IH]; intros acc Ha Hl; [done|].
  cbn [forallb] in Hl. apply andb_true_iff in Hl as [Hb Hl]. cbn [digits_val].
  apply IH; [|done]. unfold is_ascii_digit in Hb. lia.
Qed.

Lemma parse_i64_nonneg s n : parse_i64 s = Some n -> 0 <= n <= i64_MAX.
Proof.
  unfold parse_i64. case_match eqn:E; [|done]. apply andb_true_iff in E as [_ E].
  case_match; [|done]. intros [= <-]. split; [|lia]. by apply digits_val_nonneg.
Qed.

Lemma lexeme_int k txt n : lexeme k txt -> k = KInt n -> 0 <= n.
Proof.
  intros [k' s Hs|c cs _ _|m v _ Hv| |]; try done.
  - intros ->. done.
  - unfold keyword_or_ident. destruct (keyword _) as [k'|] eqn:E; [|done]. simpl. intros ->.
    apply keyword_kinds in E.
    assert (Forall (fun k => k ≠ KInt n) keywords.*2) as H by (by repeat constructor).
    by apply (proj1 (Forall_forall _ _) H) in E.
  - intros [= <-]. by apply parse_i64_nonneg in Hv as [? _].
Qed.

Lemma lexed_tokens_ok d t ts :
  lexed d t ts -> scalars (d ++ t) -> tokens_ok (text (d ++ t)) ts.
Proof.
  induction 1 as [d lay Hl|d lay k txt t ts Hl Hk Hts IH]; intros H.
  - constructor; [done| | |].
    + intros [|i] tok; [intros [= <-]; done|done].
    + intros tok ->%list_elem_of_singleton. done.
    + intros tok n ->%list_elem_of_singleton. done.
  - assert (d ++ lay ++ txt ++ t = ((d ++ lay) ++ txt) ++ t) as E by (by rewrite <- !(assoc_L (++))).
    destruct IH as [Hne Heof Hsl Hint]; [by rewrite <- E|]. rewrite E. constructor; [done| | |].
    + intros [|i] tok.
      * intros [= <-]. cbn [kind token_at]. rewrite (lexeme_not_eof _ _ Hk).
        split; [done|]. destruct ts; [done|]. simpl. lia.
      * cbn [lookup list_lookup]. intros Ht. rewrite (Heof _ _ Ht). simpl. lia.
    + intros tok [->|Ht]%elem_of_cons He; [|by apply Hsl].
      cbn [token_at tok_offset tok_end]. rewrite <- (assoc_L (++)), slice_text; [done|].
      rewrite !(assoc_L (++)) in H. rewrite <- (assoc_L (++)) in H.
      by apply Forall_app in H as [_ H].
    + intros tok n [->|Ht]%elem_of_cons He; [|by eapply Hint]. by eapply lexeme_int.
Qed.

(** A parser over the tokens of a valid source starts well formed. *)
Lemma new_parser_ok source :
  utf8_valid source = true ->
  (exists ts, Lex.tokenize (Lex.new source) = Ok ts /\ parser_ok (Parse.new source ts)) \/
  (exists e, Lex.tokenize (Lex.new source) = Err e).
Proof.
  intros (cs & Hcs & -> & [(ts & E & Hts)|He])%tokenize_total; [left|by right].
  exists ts. split; [done|]. pose proof (lexed_tokens_ok [] cs ts Hts Hcs) as Hok.
  constructor; [done|]. cbn [ppos tokens Parse.new]. pose proof (ok_nonempty _ _ Hok).
  destruct ts; [done|]. simpl. lia.
Qed.

(** A value or an error: neither a panic nor exhausted fuel. *)
Definition returns {E A} (m : outcome E A) : Prop :=
  match m with Ok _ | Err _ => True | _ => False end.

Lemma wp_returns {A} (m : Parse.M A) ps Q : wp m ps Q -> returns (m ps).1.
Proof. unfold wp, returns. by destruct (m ps) as [[] ?]. Qed.

(** Tokenizing a valid source and running a parsing function on the tokens returns. *)
Lemma parser_returns {A} (m : Parse.M A) source :
  (forall ps, parser_ok ps -> returns (m ps).1) -> utf8_valid source = true ->
  returns (tokens ← Lex.tokenize (Lex.new source); (m (Parse.new source tokens)).1).
Proof.
  intros Hm [(ts & -> & Hok)|(e & ->)]%new_parser_ok; [|done]. cbn. by apply Hm.
Qed.

(** C18: Parsing is total. For every source text (valid UTF-8, as every Rust string is)
    [parse] and [parse_script] return statements or an error: no slice of the source, no
    token access and no negation panics, and no loop or recursion runs on for ever. *)
Theorem parse_total source :
  utf8_valid source = true ->
  returns (Parse.parse source) /\ returns (Parse.parse_script source).
Proof.
  intros Hv. split.
  - apply parser_returns; [|done]. intros ps Hok. eapply wp_returns.
    pose proof (moved_refl ps Hok).
    assert (length (tokens ps) <= length (tokens ps) + ppos ps)%nat as Hl by lia.
    pauto. exact I.
  - apply parser_returns; [|done]. intros ps Hok. eapply wp_returns.
    eapply (stays (lim := length (tokens ps))); [done|lia].
Qed.

Lemma parse_total_witness :
  returns (Parse.parse "MATCH (a)->(b") /\ returns (Parse.parse_script "MATCH (a)->(b").
Proof. apply (parse_total "MATCH (a)->(b"). vm_compute. reflexivity. Defined.
