(* ===== verification/Grammar.v ===== *)
(** * The grammar of EpochQL

    The grammar v1.0 the parser implements, as relations between a syntax tree and the
    lexical items (token kind and source text) of a text that denotes it. Expressions are
    stratified by level: 0 [OR], 1 [AND], 2 [=] and [!=], 3 property access, 4 primaries;
    the binary levels associate to the left. *)

From S2P Require Import Prelude Utf8 Chars Lexer LexerProofs Ast Parser.

Definition item : Type := TokenKind * string.

(** A name: an identifier, or a keyword used as one, in its own spelling. *)
Inductive g_name : string -> item -> Prop :=
| gn_ident k s : Parse.ident_kind k = true -> g_name s (k, s).

(** The level and the tokens of a binary operator. *)
Definition op_level (op : BinaryOp) : nat :=
  match op with OpOr => 0 | OpAnd => 1 | OpEq | OpNeq => 2 end.
Definition op_kind (op : BinaryOp) : TokenKind :=
  match op with OpOr => KOr | OpAnd => KAnd | OpEq => KEq | OpNeq => KNeq end.

Inductive g_expr : nat -> Expression -> list item -> Prop :=
| ge_up l e its : (l < 4)%nat -> g_expr (S l) e its -> g_expr l e its
| ge_binary e1 op e2 i1 s i2 :
    g_expr (op_level op) e1 i1 -> g_expr (S (op_level op)) e2 i2 ->
    g_expr (op_level op) (EBinary e1 op e2) (i1 ++ (op_kind op, s) :: i2)
| ge_property e p i s n :
    g_expr 3 e i -> g_name p n -> g_expr 3 (EPropertyAccess e p) (i ++ [(KDot, s); n])
| ge_null s : g_expr 4 ENull [(KNull, s)]
| ge_true s : g_expr 4 (EBool true) [(KTrue, s)]
| ge_false s : g_expr 4 (EBool false) [(KFalse, s)]
| ge_int n s : g_expr 4 (EInt n) [(KInt n, s)]
| ge_neg_int n s1 s2 : n ≠ - 2 ^ 63 -> g_expr 4 (EInt (- n)) [(KMinus, s1); (KInt n, s2)]
| ge_float f s : g_expr 4 (EFloat f) [(KFloat f, s)]
| ge_neg_float f s1 s2 :
    g_expr 4 (EFloat (SpecFloat.SFopp f)) [(KMinus, s1); (KFloat f, s2)]
| ge_string v s : g_expr 4 (EString v) [(KString v, s)]
| ge_variable v k :
    g_name v (k, v) -> k ∉ [KNull; KTrue; KFalse] -> g_expr 4 (EVariable v) [(k, v)]
| ge_paren e i s1 s2 :
    g_expr 0 e i -> g_expr 4 e ((KLParen, s1) :: i ++ [(KRParen, s2)])
| ge_map m i : g_map m i -> g_expr 4 (EMap m) i
(** A map literal; of equal keys the last one counts. *)
with g_map : btree Expression -> list item -> Prop :=
| gm_empty s1 s2 : g_map [] [(KLBrace, s1); (KRBrace, s2)]
| gm_entries m i s1 s2 :
    g_entries [] m i -> g_map m ((KLBrace, s1) :: i ++ [(KRBrace, s2)])
(** [g_entries acc m i]: the entries [i] added to [acc] make [m]. *)
with g_entries : btree Expression -> btree Expression -> list item -> Prop :=
| gm_last acc k n s v i :
    g_name k n -> g_expr 0 v i ->
    g_entries acc (btree_insert k v acc) (n :: (KColon, s) :: i)
| gm_more acc k n s v i c m its :
    g_name k n -> g_expr 0 v i -> g_entries (btree_insert k v acc) m its ->
    g_entries acc m (n :: (KColon, s) :: i ++ (KComma, c) :: its).

(** ** Target references *)

Inductive g_target : TargetRef -> list item -> Prop :=
| gt_head s : g_target THead [(KHead, s)]
| gt_branch_ident v n s : g_target (TBranch n) [(KBranch, s); (KIdent v, n)]
| gt_branch_string n s s' : g_target (TBranch n) [(KBranch, s); (KString n, s')]
| gt_commit h s s' :
    Parse.validate_hex_hash h = None -> g_target (TCommit h) [(KCommit, s); (KString h, s')]
| gt_tag_ident v n s : g_target (TTag n) [(KTag, s); (KIdent v, n)]
| gt_tag_string n s s' : g_target (TTag n) [(KTag, s); (KString n, s')].

(** A non-empty list separated by commas. *)
Inductive g_list {A} (g : A -> list item -> Prop) : list A -> list item -> Prop :=
| gl_one a i : g a i -> g_list g [a] i
| gl_more a i s l its : g a i -> g_list g l its -> g_list g (a :: l) (i ++ (KComma, s) :: its).

(** An optional clause. *)
Inductive g_opt {A} (g : A -> list item -> Prop) : option A -> list item -> Prop :=
| go_none : g_opt g None []
| go_some a i : g a i -> g_opt g (Some a) i.

(** ** Version statements *)

Inductive g_parents : list TargetRef -> list item -> Prop :=
| gp_empty s1 s2 : g_parents [] [(KLBracket, s1); (KRBracket, s2)]
| gp_list l i s1 s2 :
    g_list g_target l i -> g_parents l ((KLBracket, s1) :: i ++ [(KRBracket, s2)]).

(** The options of a commit, in any order; a later one replaces an earlier one. *)
Inductive g_commit_opts : option string * option (list TargetRef) ->
    option string * option (list TargetRef) -> list item -> Prop :=
| gco_end o : g_commit_opts o o []
| gco_message m p m' s s' o i :
    g_commit_opts (Some m', p) o i ->
    g_commit_opts (m, p) o ((KMessage, s) :: (KString m', s') :: i)
| gco_parents m p l s i o its :
    g_parents l i -> g_commit_opts (m, Some l) o its ->
    g_commit_opts (m, p) o ((KParents, s) :: i ++ its).

(** A branch name: a name or a string literal. *)
Inductive g_branch_name : string -> item -> Prop :=
| gbn_name v n : g_name v n -> g_branch_name v n
| gbn_string v s : g_branch_name v (KString v, s).

Inductive g_from : TargetRef -> list item -> Prop :=
| gf_from t i s : g_target t i -> g_from t ((KFrom, s) :: i).

Inductive g_branch_stmt : BranchStmt -> list item -> Prop :=
| gb_create n it from i s1 s2 :
    g_branch_name n it -> g_opt g_from from i ->
    g_branch_stmt (BCreate n from) ((KCreate, s1) :: (KBranch, s2) :: it :: i)
| gb_delete n it s1 s2 :
    g_branch_name n it -> g_branch_stmt (BDelete n) [(KDelete, s1); (KBranch, s2); it].

Definition strategy_kind (st : MergeStrategy) : TokenKind :=
  match st with FastForward => KFastForward | ThreeWay => KThreeWay | Squash => KSquash end.

(** The strategy of a merge; fast-forward when none is given. *)
Inductive g_strategy : MergeStrategy -> list item -> Prop :=
| gs_default : g_strategy FastForward []
| gs_given st s1 s2 : g_strategy st [(KStrategy, s1); (strategy_kind st, s2)].

Inductive g_path : string -> list item -> Prop :=
| gpa_path p s1 s2 : g_path p [(KPath, s1); (KString p, s2)].

Inductive g_version : VersionStatement -> list item -> Prop :=
| gv_commit m i o its s :
    g_map m i -> g_commit_opts (None, None) o its ->
    g_version (VCommit (mk_CommitStmt m o.1 o.2)) ((KCommit, s) :: i ++ its)
| gv_branch b i : g_branch_stmt b i -> g_version (VBranch b) i
| gv_checkout t i s : g_target t i -> g_version (VCheckout t) ((KCheckout, s) :: i)
| gv_merge t1 i1 t2 i2 st i3 s1 s2 :
    g_target t1 i1 -> g_target t2 i2 -> g_strategy st i3 ->
    g_version (VMerge (mk_MergeStmt t1 t2 st)) ((KMerge, s1) :: i1 ++ (KInto, s2) :: i2 ++ i3)
| gv_diff t1 i1 t2 i2 p i3 s1 s2 :
    g_target t1 i1 -> g_target t2 i2 -> g_opt g_path p i3 ->
    g_version (VDiff (mk_DiffStmt t1 t2 p)) ((KDiff, s1) :: i1 ++ (KAnd, s2) :: i2 ++ i3).

(** ** Queries *)

Definition edge_type_kind (t : EdgeType) : TokenKind :=
  match t with Parent => KParent | Child => KChild | Ancestor => KAncestor
             | Descendant => KDescendant end.

Definition is_u32 (n : Z) : Prop := 0 <= n <= Parse.u32_MAX.

Inductive g_hops : HopMultiplier -> list item -> Prop :=
| gh_any s : g_hops Any [(KStar, s)]
| gh_any_dots s s' : g_hops Any [(KStar, s); (KDotDot, s')]
| gh_exact n s s' : is_u32 n -> g_hops (Exact n) [(KStar, s); (KInt n, s')]
| gh_from n s s' t : is_u32 n ->
    g_hops (Range (Some n) None) [(KStar, s); (KInt n, s'); (KDotDot, t)]
| gh_range n m s s' t t' : is_u32 n -> is_u32 m ->
    g_hops (Range (Some n) (Some m)) [(KStar, s); (KInt n, s'); (KDotDot, t); (KInt m, t')]
| gh_to m s t t' : is_u32 m ->
    g_hops (Range None (Some m)) [(KStar, s); (KDotDot, t); (KInt m, t')].

(** The type of an edge, with or without a colon. *)
Inductive g_edge_type : EdgeType -> list item -> Prop :=
| get_bare t s : g_edge_type t [(edge_type_kind t, s)]
| get_colon t s s' : g_edge_type t [(KColon, s'); (edge_type_kind t, s)].

Inductive g_edge_body : option EdgeType * option HopMultiplier -> list item -> Prop :=
| geb_body t i h j : g_opt g_edge_type t i -> g_opt g_hops h j -> g_edge_body (t, h) (i ++ j).

Inductive g_edge : EdgePattern -> list item -> Prop :=
| ged_right s : g_edge (mk_EdgePattern Outgoing Child None) [(KArrowRight, s)]
| ged_left s : g_edge (mk_EdgePattern Incoming Parent None) [(KArrowLeft, s)]
| ged_body_right t h i s1 s2 s3 s4 :
    g_edge_body (t, h) i ->
    g_edge (mk_EdgePattern Outgoing (default Child t) h)
      ((KMinus, s1) :: (KLBracket, s2) :: i ++ [(KRBracket, s3); (KArrowRight, s4)])
| ged_body_left t h i s1 s2 s3 s4 :
    g_edge_body (t, h) i ->
    g_edge (mk_EdgePattern Incoming (default Parent t) h)
      ((KArrowLeft, s1) :: (KLBracket, s2) :: i ++ [(KRBracket, s3); (KMinus, s4)]).

Inductive g_variable : string -> list item -> Prop :=
| gva_name v n : g_name v n -> g_variable v [n].
Inductive g_label : string -> list item -> Prop :=
| gla_label v n s : g_name v n -> g_label v [(KColon, s); n].
(** The properties of a node; none is the same as an empty map. *)
Inductive g_props : btree Expression -> list item -> Prop :=
| gpr_none : g_props [] []
| gpr_map m i : g_map m i -> g_props m i.

Inductive g_node : NodePattern -> list item -> Prop :=
| gno_node v i1 l i2 m i3 s1 s2 :
    g_opt g_variable v i1 -> g_opt g_label l i2 -> g_props m i3 ->
    g_node (mk_NodePattern v l m) ((KLParen, s1) :: i1 ++ i2 ++ i3 ++ [(KRParen, s2)]).

(** The edges and nodes after the first node of a pattern. *)
Inductive g_hops_list : list PatternElement -> list item -> Prop :=
| ghl_nil : g_hops_list [] []
| ghl_cons e i n j l its :
    g_edge e i -> g_node n j -> g_hops_list l its ->
    g_hops_list (Edge e :: Node n :: l) (i ++ j ++ its).

Inductive g_pattern : Pattern -> list item -> Prop :=
| gpt_pattern n i l its :
    g_node n i -> g_hops_list l its -> g_pattern (mk_Pattern (Node n :: l)) (i ++ its).

Inductive g_match : MatchClause -> list item -> Prop :=
| gma_match l i s : g_list g_pattern l i -> g_match (mk_MatchClause l) ((KMatch, s) :: i).

Inductive g_traversal : TraversalClause -> list item -> Prop :=
| gtr_merge_base a i b j s1 s2 s3 s4 s5 :
    g_target a i -> g_target b j ->
    g_traversal (TrMergeBase a b)
      ((KTraverse, s1) :: (KMergeBase, s2) :: (KLParen, s3) :: i ++ (KComma, s4) :: j
         ++ [(KRParen, s5)])
| gtr_shortest_path a i b j s1 s2 s3 s4 s5 :
    g_target a i -> g_target b j ->
    g_traversal (TrShortestPath a b)
      ((KTraverse, s1) :: (KShortestPath, s2) :: (KLParen, s3) :: i ++ (KComma, s4) :: j
         ++ [(KRParen, s5)])
| gtr_ancestors a i s1 s2 s3 s5 :
    g_target a i ->
    g_traversal (TrAncestors a)
      ((KTraverse, s1) :: (KAncestors, s2) :: (KLParen, s3) :: i ++ [(KRParen, s5)]).

Inductive g_alias : string -> list item -> Prop :=
| gal_as a n s : g_name a n -> g_alias a [(KAs, s); n].

Inductive g_projection : ProjectionItem -> list item -> Prop :=
| gpj_item e i a j :
    g_expr 0 e i -> g_opt g_alias a j -> g_projection (mk_ProjectionItem e a) (i ++ j).

Inductive g_select : SelectClause -> list item -> Prop :=
| gse_select l i s : g_list g_projection l i -> g_select (mk_SelectClause l) ((KSelect, s) :: i).

Inductive g_context : ContextClause -> list item -> Prop :=
| gcx_use t i s : g_target t i -> g_context (mk_ContextClause t) ((KUse, s) :: i).
Inductive g_where : Expression -> list item -> Prop :=
| gwh_where e i s : g_expr 0 e i -> g_where e ((KWhere, s) :: i).

Inductive g_query : QueryStatement -> list item -> Prop :=
| gqu_query c i1 m i2 t i3 w i4 s i5 :
    g_opt g_context c i1 -> g_opt g_match m i2 -> g_opt g_traversal t i3 ->
    g_opt g_where w i4 -> g_opt g_select s i5 ->
    i1 ++ i2 ++ i3 ++ i4 ++ i5 ≠ [] ->
    g_query (mk_QueryStatement c m t w s) (i1 ++ i2 ++ i3 ++ i4 ++ i5).

(** ** Statements and scripts *)

Inductive g_statement : Statement -> list item -> Prop :=
| gst_query q i : g_query q i -> g_statement (Query q) i
| gst_version v i : g_version v i -> g_statement (Version v) i.

(** A statement with an optional semicolon. *)
Inductive g_single : Statement -> list item -> Prop :=
| gsi_bare st i : g_statement st i -> g_single st i
| gsi_semi st i s : g_statement st i -> g_single st (i ++ [(KSemicolon, s)]).

(** Statements separated by semicolons, the last one optional. *)
Inductive g_script : list Statement -> list item -> Prop :=
| gsc_nil : g_script [] []
| gsc_last st i : g_statement st i -> g_script [st] i
| gsc_more st i s l its :
    g_statement st i -> g_script l its -> g_script (st :: l) (i ++ (KSemicolon, s) :: its).

(** ** Spelling

    The characters [cs] spell the items [its]: lexemes, with white space and comments where they
    would run together, or anywhere else between them. *)
Inductive spelled : list Z -> list item -> Prop :=
| sp_end lay : layout true lay -> spelled lay []
| sp_item lay k txt t its :
    layout false lay -> lexeme k txt -> apart k t -> spelled t its ->
    spelled (lay ++ txt ++ t) ((k, text txt) :: its).
