(* ===== verification/GrammarProofs.v ===== *)
(** * Every sentence of the grammar is parsed to its syntax tree

    [accepts P m its a]: whenever the next tokens are the items [its] and a token of a kind
    in [P] follows, [m] consumes exactly [its] and returns [a]. *)

From Stdlib Require Import Floats.SpecFloat.
From S2P Require Import Prelude Utf8 Chars Lexer LexerProofs Ast Parser ParserProofs Grammar.

(** The parser before the tokens [t], with the tokens [d] behind it. *)
Definition parser_at (src : string) (d t : list Token) : Parser :=
  mk_Parser src (d ++ t) (length d).

(** A token that is an item: its kind, and its text in the source. *)
Definition token_is (src : string) (t : Token) (it : item) : Prop :=
  kind t = it.1 /\ str_slice src (tok_offset t) (tok_end t) = Some it.2.

(** The kinds of the token after the items [its], when [P] are those that may follow. *)
Definition nexts (its : list item) (P : TokenKind -> Prop) (k : TokenKind) : Prop :=
  match its with [] => P k | it :: _ => k = it.1 end.

Lemma nexts_app i j P k : nexts (i ++ j) P k <-> nexts i (nexts j P) k.
Proof. by destruct i. Qed.

(** What may follow the first part of a sentence. *)
Lemma nexts_split i j P k : nexts (i ++ j) P k -> nexts i (nexts j P) k.
Proof. by apply nexts_app. Qed.

Section accepts.
Context (src : string).

Definition accepts {A} (P : TokenKind -> Prop) (m : Parse.M A) (its : list item) (a : A) : Prop :=
  forall d t r rest, Forall2 (token_is src) t its -> P (kind r) ->
    m (parser_at src d (t ++ r :: rest)) = (Ok a, parser_at src (d ++ t) (r :: rest)).

Lemma accepts_mono {A} (P Q : TokenKind -> Prop) (m : Parse.M A) its a :
  (forall k, P k -> Q k) -> accepts Q m its a -> accepts P m its a.
Proof. intros HPQ H d t r rest Ht Hr. apply H; auto. Qed.

Lemma accepts_ret {A} P (a : A) : accepts P (mret a) [] a.
Proof.
  intros d t r rest Ht _. apply Forall2_nil_inv_r in Ht as ->. by rewrite app_nil_r.
Qed.

Lemma accepts_bind {A B} P (m : Parse.M A) (k : A -> Parse.M B) i j a b :
  accepts (nexts j P) m i a -> accepts P (k a) j b -> accepts P (m ≫= k) (i ++ j) b.
Proof.
  intros Hm Hk d t r rest Ht Hr. apply Forall2_app_inv_r in Ht as (t1 & t2 & H1 & H2 & ->).
  rewrite <- (assoc_L (++)). destruct t2 as [|r2 t2].
  - apply Forall2_nil_inv_l in H2 as ->. rewrite app_nil_r. cbn [app].
    rewrite (stM_bind_Ok _ _ _ _ _ (Hm d t1 r rest H1 Hr)).
    by rewrite <- (app_nil_r (d ++ t1)) at 2; apply (Hk (d ++ t1) [] r rest).
  - destruct j as [|it j]; [by inversion H2|]. cbn [app].
    assert (nexts (it :: j) P (kind r2)) as Hn by (by inversion H2 as [|???? [? _]]; subst).
    rewrite (stM_bind_Ok _ _ _ _ _ (Hm d t1 r2 (t2 ++ r :: rest) H1 Hn)).
    rewrite (assoc_L (++)). by apply (Hk (d ++ t1) (r2 :: t2) r rest).
Qed.

Lemma accepts_bind_nil {A B} P (m : Parse.M A) (k : A -> Parse.M B) i a b :
  accepts P m i a -> accepts P (k a) [] b -> accepts P (m ≫= k) i b.
Proof. intros Hm Hk. rewrite <- (app_nil_r i). by eapply accepts_bind. Qed.

(** ** The cursor *)

Lemma current_at d x t : Parse.current (parser_at src d (x :: t)) = (Ok x, parser_at src d (x :: t)).
Proof.
  unfold Parse.current, parser_at. cbn [tokens ppos]. rewrite length_app.
  replace (Nat.min _ _) with (length d) by (simpl; lia).
  by rewrite list_lookup_middle.
Qed.

Lemma bump_at d x y t :
  Parse.bump (parser_at src d (x :: y :: t)) = (Ok x, parser_at src (d ++ [x]) (y :: t)).
Proof.
  unfold Parse.bump. rewrite (stM_bind_Ok _ _ _ _ _ (current_at _ _ _)).
  rewrite stM_bind_eq. unfold modify, parser_at. cbn [tokens ppos psource].
  rewrite length_app. replace (Nat.ltb _ _) with true by (symmetry; apply Nat.ltb_lt; simpl; lia).
  rewrite <- (assoc_L (++)). cbn [app mret stM_ret]. rewrite length_app. cbn [length].
  by rewrite Nat.add_1_r.
Qed.

(** Looking at the next kind. *)
Lemma accepts_kind {A} P (f : TokenKind -> Parse.M A) its a :
  (forall k, nexts its P k -> accepts (fun k' => P k' /\ nexts its P k) (f k) its a) ->
  accepts P (k ← Parse.current_kind; f k) its a.
Proof.
  intros H d t r rest Ht Hr. rewrite stM_bind_eq. unfold Parse.current_kind.
  destruct t as [|x t]; cbn [app].
  - rewrite (stM_bind_Ok _ _ _ _ _ (current_at _ _ _)).
    apply Forall2_nil_inv_l in Ht as ->. by apply (H (kind r) Hr d [] r rest).
  - rewrite (stM_bind_Ok _ _ _ _ _ (current_at _ _ _)).
    destruct its as [|it its]; [by inversion Ht|].
    assert (kind x = it.1) as Hx by (by inversion Ht as [|???? [? _]]; subst).
    by apply (H (kind x) Hx d (x :: t) r rest).
Qed.

Lemma accepts_kind_cons {A} P (f : TokenKind -> Parse.M A) k s its a :
  accepts P (f k) ((k, s) :: its) a -> accepts P (k ← Parse.current_kind; f k) ((k, s) :: its) a.
Proof.
  intros H. apply accepts_kind. cbn. intros k' ->. eapply accepts_mono; [|exact H]. naive_solver.
Qed.

(** A test of the next kind. *)
Lemma accepts_test {A} P (p : TokenKind -> bool) b (f : bool -> Parse.M A) its a :
  (forall k, nexts its P k -> p k = b) -> accepts P (f b) its a ->
  accepts P (x ← (k ← Parse.current_kind; mret (p k)); f x) its a.
Proof.
  intros Hb Hf d t r rest Ht Hr. rewrite stM_bind_eq. unfold Parse.current_kind.
  assert (exists x u, t ++ r :: rest = x :: u /\ nexts its P (kind x)) as (x & u & E & Hx).
  { destruct t as [|x t].
    - apply Forall2_nil_inv_l in Ht as ->. by exists r, rest.
    - destruct its as [|it its]; [by inversion Ht|]. exists x, (t ++ r :: rest).
      split; [done|]. by inversion Ht as [|???? [? _]]; subst. }
  pose proof (Hf d t r rest Ht Hr) as Hrun. rewrite E in *.
  rewrite stM_bind_eq, (stM_bind_Ok _ _ _ _ _ (current_at _ _ _)). cbn [mret stM_ret].
  by rewrite (Hb _ Hx).
Qed.

Lemma accepts_check {A} P k0 b (f : bool -> Parse.M A) its a :
  (forall k, nexts its P k -> Parse.same_kind k k0 = b) -> accepts P (f b) its a ->
  accepts P (x ← Parse.check k0; f x) its a.
Proof. apply (accepts_test P (fun k => Parse.same_kind k k0)). Qed.

Lemma accepts_bump {A} P (m : Parse.M A) it its a :
  accepts P m its a -> accepts P (_ ← Parse.bump; m) (it :: its) a.
Proof.
  intros Hm d t r rest Ht Hr. destruct t as [|x t]; [by inversion Ht|].
  apply Forall2_cons in Ht as [_ Ht].
  assert (exists y u, t ++ r :: rest = y :: u) as (y & u & E).
  { destruct t as [|y t]; [by exists r, rest|by exists y, (t ++ r :: rest)]. }
  cbn [app]. rewrite E, (stM_bind_Ok _ _ _ _ _ (bump_at _ _ _ _)), <- E.
  replace (d ++ x :: t) with ((d ++ [x]) ++ t) by (by rewrite <- (assoc_L (++))).
  by apply Hm.
Qed.

Lemma accepts_bump_end {A} P it (a : A) :
  accepts P (_ ← Parse.bump; mret a) [it] a.
Proof. apply accepts_bump, accepts_ret. Qed.

Lemma same_kind_refl k : Parse.same_kind k k = true.
Proof. destruct k; try done; by apply bool_decide_eq_true. Qed.

Lemma accepts_expect {A} P (m : Parse.M A) k s its a :
  accepts P m its a -> accepts P (_ ← Parse.expect k; m) ((k, s) :: its) a.
Proof.
  intros Hm d t r rest Ht Hr. destruct t as [|x t]; [by inversion Ht|].
  pose proof Ht as [[Hk _] _]%Forall2_cons.
  rewrite <- (accepts_bump P m (k, s) its a Hm d (x :: t) r rest Ht Hr).
  rewrite !stM_bind_eq. unfold Parse.expect, Parse.check, Parse.current_kind. cbn [app].
  rewrite stM_bind_eq, stM_bind_eq, (stM_bind_Ok _ _ _ _ _ (current_at _ _ _)).
  cbn [mret stM_ret]. cbn [fst] in Hk. by rewrite Hk, same_kind_refl.
Qed.

Lemma accepts_fuel {A} P (m : nat -> Parse.M A) its a :
  (forall fuel, (length its < fuel)%nat -> accepts P (m fuel) its a) ->
  accepts P (fuel ← Parse.tokens_fuel; m fuel) its a.
Proof.
  intros H d t r rest Ht Hr. rewrite stM_bind_eq. unfold Parse.tokens_fuel, gets.
  apply H; [|done|done]. unfold parser_at. cbn [tokens].
  apply Forall2_length in Ht. rewrite !length_app. simpl. lia.
Qed.

(** ** Loops *)

Definition accepts_n {A} (n : nat) P (m : nat -> Parse.M A) its a : Prop :=
  forall fuel, (n < fuel)%nat -> accepts P (m fuel) its a.

Lemma accepts_tokens_fuel {A} n P (m : nat -> Parse.M A) its a :
  (n <= length its)%nat -> accepts_n n P m its a ->
  accepts P (fuel ← Parse.tokens_fuel; m fuel) its a.
Proof. intros Hn H. apply accepts_fuel. intros fuel Hf. apply H. lia. Qed.

Lemma loop_break {A B} P (body : A -> Parse.M (A + B)) a its b :
  accepts P (body a) its (inr b) -> accepts_n 0 P (fun f => loop f body a) its b.
Proof.
  intros H [|fuel] Hf; [lia|]. cbn [loop]. eapply accepts_bind_nil; [exact H|]. apply accepts_ret.
Qed.

Lemma loop_next {A B} n P (body : A -> Parse.M (A + B)) a a' i j b :
  accepts (nexts j P) (body a) i (inl a') ->
  accepts_n n P (fun f => loop f body a') j b ->
  accepts_n (S n) P (fun f => loop f body a) (i ++ j) b.
Proof.
  intros H Hn [|fuel] Hf; [lia|]. cbn [loop]. eapply accepts_bind; [exact H|].
  cbn. apply Hn. lia.
Qed.

(** ** Names and literals *)

Lemma accepts_name P v n : g_name v n -> accepts P Parse.expect_ident_or_keyword_as_ident [n] v.
Proof.
  intros [k s Hk] d t r rest Ht Hr.
  apply Forall2_cons_inv_r in Ht as (x & t' & [Hx Hs] & Ht & ->).
  apply Forall2_nil_inv_r in Ht as ->. cbn [fst snd] in *.
  unfold Parse.expect_ident_or_keyword_as_ident, Parse.looks_like_ident, Parse.current_kind.
  cbn [app]. rewrite stM_bind_eq, stM_bind_eq, (stM_bind_Ok _ _ _ _ _ (current_at _ _ _)).
  cbn [mret stM_ret]. rewrite Hx, Hk.
  rewrite (stM_bind_Ok _ _ _ _ _ (current_at _ _ _)).
  rewrite (stM_bind_Ok _ _ _ _ _ (bump_at _ _ _ _)).
  unfold Parse.slice, parser_at. cbn [psource]. by rewrite Hs.
Qed.

Lemma accepts_string P v s : accepts P Parse.expect_string [(KString v, s)] v.
Proof. apply accepts_kind_cons, accepts_bump_end. Qed.

Lemma accepts_u32 P n s : is_u32 n -> accepts P Parse.expect_u32 [(KInt n, s)] n.
Proof.
  intros Hn. apply accepts_kind_cons. unfold is_u32 in Hn.
  replace ((0 <=? n) && (n <=? Parse.u32_MAX)) with true by (symmetry; lia).
  apply accepts_bump_end.
Qed.

End accepts.

(** ** Expressions *)

(** The parsing function of a level, and the body of its loop. *)
Definition parse_level (l : nat) (pe : Parse.M Expression) : Parse.M Expression :=
  match l with
  | 0 => Parse.parse_or pe
  | 1 => Parse.parse_and pe
  | 2 => Parse.parse_equality pe
  | 3 => Parse.parse_postfix pe
  | _ => Parse.parse_primary pe
  end%nat.

Definition binary_body (here : TokenKind) (op : BinaryOp) (next : Parse.M Expression)
    (left : Expression) : Parse.M (Expression + Expression) :=
  b ← Parse.check here;
  if (b : bool) then
    _ ← Parse.bump;
    right ← next;
    mret (inl (EBinary left op right))
  else mret (inr left).

Definition level_body (l : nat) (pe : Parse.M Expression) (left : Expression) :
    Parse.M (Expression + Expression) :=
  match l with
  | 0 => binary_body KOr OpOr (Parse.parse_and pe) left
  | 1 => binary_body KAnd OpAnd (Parse.parse_equality pe) left
  | 2 =>
      k ← Parse.current_kind;
      match Parse.equality_op k with
      | Some op =>
          _ ← Parse.bump;
          right ← Parse.parse_postfix pe;
          mret (inl (EBinary left op right))
      | None => mret (inr left)
      end
  | _ =>
      dot ← Parse.check KDot;
      if (dot : bool) then
        _ ← Parse.bump;
        property ← Parse.expect_ident_or_keyword_as_ident;
        mret (inl (EPropertyAccess left property))
      else mret (inr left)
  end%nat.

Lemma parse_level_eq l pe :
  (l < 4)%nat ->
  parse_level l pe =
    (left ← parse_level (S l) pe;
     fuel ← Parse.tokens_fuel;
     loop fuel (level_body l pe) left).
Proof. intros Hl. do 4 (destruct l as [|l]; [reflexivity|]). lia. Qed.

(** The level whose loop a token continues. *)
Definition loop_level (k : TokenKind) : option nat :=
  match k with
  | KOr => Some 0 | KAnd => Some 1 | KEq | KNeq => Some 2 | KDot => Some 3 | _ => None
  end%nat.

(** A token that continues no loop of the levels from [l] on. *)
Definition ends (l : nat) (k : TokenKind) : Prop :=
  match loop_level k with Some j => (j < l)%nat | None => True end.

Lemma ends_mono l l' k : (l <= l')%nat -> ends l k -> ends l' k.
Proof. unfold ends. destruct (loop_level k); [lia|done]. Qed.

Section expressions.
Context (src : string).
Abbreviation accepts := (accepts src).
Abbreviation accepts_n := (accepts_n src).

(** A loop stops at a token of a lower level. *)
Lemma level_break l pe (P : TokenKind -> Prop) e :
  (l < 4)%nat -> (forall k, P k -> ends l k) ->
  accepts_n 0 P (fun f => loop f (level_body l pe) e) [] e.
Proof.
  intros Hl HP. apply loop_break.
  destruct l as [|[|[|[|l]]]]; [| | | |lia]; cbn [level_body]; unfold binary_body.
  1,2,4: eapply (accepts_check _ _ _ false); [|apply accepts_ret];
    intros k Hk%HP; unfold ends in Hk; destruct k; cbn in Hk; try done; lia.
  apply accepts_kind. cbn [nexts]. intros k Hk.
  assert (Parse.equality_op k = None) as ->; [|apply accepts_ret].
  apply HP in Hk. unfold ends in Hk. destruct k; cbn in Hk; try done; lia.
Qed.

(** The parsing function of a level reads a sentence before a token that ends the level. *)
Definition reads (l : nat) (pe : Parse.M Expression) (e : Expression) (its : list item) : Prop :=
  accepts (ends l) (parse_level l pe) its e.

(** It reads the sentence as the first operand of its loop. *)
Definition reads_operand (l : nat) (pe : Parse.M Expression) (e : Expression)
    (its : list item) : Prop :=
  forall P n its2 b,
    (forall k, nexts its2 P k -> ends (S l) k) -> (n <= length its2)%nat ->
    accepts_n n P (fun f => loop f (level_body l pe) e) its2 b ->
    accepts P (parse_level l pe) (its ++ its2) b.

Definition reads_at (l : nat) (pe : Parse.M Expression) (e : Expression) (its : list item) : Prop :=
  if decide (l < 4)%nat then reads_operand l pe e its else reads l pe e its.

Lemma reads_at_reads l pe e its : reads_at l pe e its -> reads l pe e its.
Proof.
  unfold reads_at. case_decide as Hl; [|done]. intros H. unfold reads.
  rewrite <- (app_nil_r its). apply (H (ends l) 0%nat [] e); [|lia|].
  - intros k Hk. eapply ends_mono; [|exact Hk]. lia.
  - by apply level_break.
Qed.

Lemma reads_up l pe e its : (l < 4)%nat -> reads_at (S l) pe e its -> reads_at l pe e its.
Proof.
  intros Hl H%reads_at_reads. unfold reads_at. rewrite decide_True by done.
  intros P n its2 b Hk Hn Hloop. rewrite parse_level_eq by done.
  eapply accepts_bind; [eapply accepts_mono; [exact Hk|exact H]|].
  by eapply accepts_tokens_fuel.
Qed.

Lemma reads_binary pe e1 op e2 i1 s i2 :
  reads_at (op_level op) pe e1 i1 -> reads_at (S (op_level op)) pe e2 i2 ->
  reads_at (op_level op) pe (EBinary e1 op e2) (i1 ++ (op_kind op, s) :: i2).
Proof.
  intros H1 H2%reads_at_reads. unfold reads_at in *.
  assert (op_level op < 4)%nat as Hl by (destruct op; simpl; lia).
  rewrite decide_True in H1 |- * by done.
  intros P n its2 b Hk Hn Hloop. rewrite <- (assoc_L (++)).
  apply (H1 P (S n)); [|simpl; rewrite length_app; lia|].
  - cbn [nexts app fst]. intros k ->. unfold ends. destruct op; cbn; lia.
  - apply (loop_next _ _ _ _ _ (EBinary e1 op e2) ((op_kind op, s) :: i2)); [|exact Hloop].
    assert (accepts (nexts its2 P) (_ ← Parse.bump; right ← parse_level (S (op_level op)) pe;
      mret (inl (EBinary e1 op right) : Expression + Expression))
      ((op_kind op, s) :: i2) (inl (EBinary e1 op e2))) as Hstep.
    { apply accepts_bump. eapply accepts_bind_nil; [eapply accepts_mono; [exact Hk|exact H2]|].
      apply accepts_ret. }
    destruct op; cbn [op_level level_body]; unfold binary_body.
    1,2: apply accepts_kind_cons; exact Hstep.
    1,2: eapply (accepts_check _ _ _ true); [|exact Hstep]; cbn; by intros k ->.
Qed.

Lemma reads_property pe e p i s n :
  reads_at 3 pe e i -> g_name p n -> reads_at 3 pe (EPropertyAccess e p) (i ++ [(KDot, s); n]).
Proof.
  intros H Hp. unfold reads_at in *. rewrite decide_True in H |- * by lia.
  intros P m its2 b Hk Hn Hloop. rewrite <- (assoc_L (++)).
  apply (H P (S m)); [|simpl; lia|].
  - cbn [nexts app fst]. intros k ->. unfold ends. cbn. lia.
  - apply (loop_next _ _ _ _ _ (EPropertyAccess e p) [(KDot, s); n]); [|exact Hloop].
    cbn [level_body]. eapply (accepts_check _ _ _ true); [cbn; by intros k ->|].
    apply accepts_bump. eapply accepts_bind_nil; [by apply accepts_name|apply accepts_ret].
Qed.

(** Primaries: no condition on what follows. *)
Lemma reads_primary pe e its :
  (forall P, accepts P (Parse.parse_primary pe) its e) -> reads_at 4 pe e its.
Proof. intros H. unfold reads_at. rewrite decide_False by lia. apply H. Qed.

Lemma reads_at_4 pe e its P : reads_at 4 pe e its -> accepts P (Parse.parse_primary pe) its e.
Proof.
  unfold reads_at. rewrite decide_False by lia. intros H. eapply accepts_mono; [|exact H].
  intros k _. unfold ends. destruct (loop_level k) as [j|] eqn:E; [|done].
  destruct k; cbn in E; simplify_eq; lia.
Qed.

Lemma primary_variable P pe v k :
  Parse.ident_kind k = true -> k ∉ [KNull; KTrue; KFalse] ->
  accepts P (Parse.parse_primary pe) [(k, v)] (EVariable v).
Proof.
  intros Hk Hn. apply accepts_kind_cons.
  assert (accepts P (name ← Parse.expect_ident; mret (EVariable name)) [(k, v)] (EVariable v)) as H.
  { eapply accepts_bind_nil; [by apply accepts_name|apply accepts_ret]. }
  destruct k; try done; cbn [Parse.ident_kind]; try exact H; exfalso; apply Hn; set_solver.
Qed.

(** The recursive call at a fuel. *)
Abbreviation pef := Parse.parse_expression_fuel.

Lemma pef_reads f its (e : Expression) :
  (length its < f)%nat ->
  (forall f', (length its <= f')%nat -> reads_at 0 (pef f') e its) ->
  accepts (ends 0) (pef f) its e.
Proof.
  intros Hl H. destruct f as [|f]; [lia|]. cbn [Parse.parse_expression_fuel].
  apply (reads_at_reads 0). apply H. lia.
Qed.

Lemma accepts_comma {A} P (a : A) s :
  accepts P (Parse.comma_or_break a) [(KComma, s)] (inl a).
Proof. eapply (accepts_check _ _ _ true); [cbn; by intros k ->|]. apply accepts_bump_end. Qed.

Lemma accepts_no_comma {A} (P : TokenKind -> Prop) (a : A) :
  (forall k, P k -> k ≠ KComma) -> accepts P (Parse.comma_or_break a) [] (inr a).
Proof.
  intros HP. eapply (accepts_check _ _ _ false); [|apply accepts_ret].
  intros k Hk%HP. by destruct k.
Qed.

(** The body of the loop of a map literal. *)
Definition map_body (pe : Parse.M Expression) (map : btree Expression) :
    Parse.M (btree Expression + btree Expression) :=
  key ← Parse.expect_ident_or_keyword_as_ident;
  _ ← Parse.expect KColon;
  value ← pe;
  Parse.comma_or_break (btree_insert key value map).

Lemma map_literal_eq pe :
  Parse.parse_map_literal pe =
    (_ ← Parse.expect KLBrace;
     close ← Parse.check KRBrace;
     map ← (if (close : bool) then mret []
            else fuel ← Parse.tokens_fuel; loop fuel (map_body pe) []);
     _ ← Parse.expect KRBrace;
     mret map).
Proof. reflexivity. Qed.

Lemma entries_head acc m i P k : g_entries acc m i -> nexts i P k -> Parse.ident_kind k = true.
Proof. intros [] Hk; cbn in Hk; subst k; by match goal with H : g_name _ _ |- _ => destruct H end. Qed.

Lemma ident_not_symbol k k' : Parse.ident_kind k = true -> Parse.ident_kind k' = false ->
  Parse.same_kind k k' = false.
Proof. intros Hk Hk'. destruct k; try done; by destruct k'. Qed.

(** One entry of a map literal. *)
Lemma accepts_entry {B : Type} P pe k n s v i (f : Expression -> Parse.M B) j b :
  g_name k n -> accepts (ends 0) pe i v -> (forall k', nexts j P k' -> ends 0 k') ->
  accepts P (f v) j b ->
  accepts P (_ ← Parse.expect KColon; value ← pe; f value) ((KColon, s) :: i ++ j) b.
Proof.
  intros Hn Hv Hj Hf. apply accepts_expect. eapply accepts_bind; [|exact Hf].
  by eapply accepts_mono.
Qed.

Section map_literal.
Context (pe : Parse.M Expression) (n : nat).
Context (Hpe : forall e i, (length i < n)%nat -> g_expr 0 e i -> accepts (ends 0) pe i e).

Lemma entries_reads acc m i :
  g_entries acc m i -> (length i <= n)%nat ->
  accepts_n (length i) (eq KRBrace) (fun fuel => loop fuel (map_body pe) acc) i m.
Proof.
  induction 1 as [acc k x s v i Hx Hv|acc k x s v i c m its Hx Hv Hits IH]; intros Hl fuel Hf;
    cbn [length] in *.
  - eapply (loop_break _ (eq KRBrace)); [|lia].
    eapply (accepts_bind _ _ _ _ [x]); [by apply accepts_name|].
    rewrite <- (app_nil_r i). eapply accepts_entry; [exact Hx|apply Hpe; [lia|done]| |].
    + cbn. by intros k' <-.
    + apply accepts_no_comma. by intros k' <-.
  - rewrite length_app in *. cbn [length] in *.
    replace (x :: (KColon, s) :: i ++ (KComma, c) :: its)
      with ((x :: (KColon, s) :: i ++ [(KComma, c)]) ++ its)
      by (by rewrite <- !app_comm_cons, <- (assoc_L (++))).
    eapply (loop_next _ (length its)); [|apply IH; lia|lia].
    eapply (accepts_bind _ _ _ _ [x]); [by apply accepts_name|].
    eapply accepts_entry; [exact Hx|apply Hpe; [lia|done]| |apply accepts_comma].
    cbn. by intros k' ->.
Qed.

Lemma map_literal_reads P m i :
  g_map m i -> (length i <= n)%nat -> accepts P (Parse.parse_map_literal pe) i m.
Proof.
  intros H Hl. rewrite map_literal_eq. destruct H as [s1 s2|m i s1 s2 Hi]; apply accepts_expect.
  - eapply (accepts_check _ _ _ true); [cbn; by intros k ->|].
    apply (accepts_bind _ _ _ _ [] _ []); [apply accepts_ret|]. apply accepts_expect, accepts_ret.
  - cbn [length] in Hl. rewrite length_app in Hl. simpl in Hl.
    eapply (accepts_check _ _ _ false).
    { intros k Hk%nexts_split. eapply ident_not_symbol; [by eapply entries_head|done]. }
    eapply accepts_bind; [|apply accepts_expect, accepts_ret].
    eapply accepts_mono; [|apply (accepts_tokens_fuel _ (length i) (eq KRBrace));
      [done|apply entries_reads; [done|lia]]].
    cbn. by intros k ->.
Qed.

End map_literal.

Lemma expr_reads n l e its :
  g_expr l e its -> (length its <= n)%nat ->
  forall f, (n <= f)%nat -> reads_at l (pef f) e its.
Proof.
  revert l e its. induction (lt_wf n) as [n _ IHn].
  assert (forall f e i, (n <= f)%nat -> (length i < n)%nat -> g_expr 0 e i ->
    accepts (ends 0) (pef f) i e) as Hpe.
  { intros f e i Hf Hi He. apply pef_reads; [lia|]. intros f' Hf'.
    by apply (IHn (length i) Hi 0%nat e i He). }
  induction 1 as [l e its Hl _ IH|e1 op e2 i1 s i2 _ IH1 _ IH2|e p i s x _ IH Hx| | | |
    |k s1 s2 Hk|x s|x s1 s2| |v k Hx Hk|e i s1 s2 He _|m i Hm]; intros Hlen f Hf;
    try (apply reads_primary; intros P; apply accepts_kind_cons, accepts_bump_end).
  - apply reads_up; auto.
  - rewrite length_app in Hlen. simpl in Hlen.
    apply reads_binary; [apply IH1|apply IH2]; lia.
  - rewrite length_app in Hlen. simpl in Hlen. apply reads_property; [apply IH; lia|done].
  - apply reads_primary. intros P.
    apply accepts_kind_cons, accepts_bump, accepts_kind_cons, accepts_bump.
    unfold Parse.neg_i64. destruct (Z.eqb_spec k (- 2 ^ 63)); [done|]. apply accepts_ret.
  - apply reads_primary. intros P.
    apply accepts_kind_cons, accepts_bump, accepts_kind_cons, accepts_bump_end.
  - apply reads_primary. intros P. inversion Hx; subst. by apply primary_variable.
  - cbn [length] in Hlen. rewrite length_app in Hlen. simpl in Hlen.
    apply reads_primary. intros P. apply accepts_kind_cons, accepts_bump.
    eapply accepts_bind; [|apply accepts_expect, accepts_ret].
    eapply accepts_mono; [|apply (Hpe f e i); [done|lia|done]]. cbn. by intros k ->.
  - apply reads_primary. intros P.
    assert (exists s i', i = (KLBrace, s) :: i') as (s & i' & ->) by (inversion Hm; eauto).
    apply accepts_kind_cons. eapply accepts_bind_nil; [|apply accepts_ret].
    apply (map_literal_reads (pef f) n); [|done|done]. intros. by apply Hpe.
Qed.

Lemma accepts_expression e its :
  g_expr 0 e its -> accepts (ends 0) Parse.parse_expression its e.
Proof.
  intros H. apply accepts_fuel. intros fuel Hf. apply pef_reads; [lia|].
  intros f Hf'. by eapply expr_reads.
Qed.

Lemma accepts_map P m i : g_map m i -> accepts P Parse.parse_map i m.
Proof.
  intros H. apply (map_literal_reads _ (length i)); [|done|done].
  intros. by apply accepts_expression.
Qed.

End expressions.

(** ** Lists and optional parts *)

Section statements.
Context (src : string).
Abbreviation accepts := (accepts src).
Abbreviation accepts_n := (accepts_n src).

(** The elements of a list after the first, each behind a comma. *)
Inductive g_tail {A} (g : A -> list item -> Prop) : list A -> list item -> Prop :=
| gtl_nil : g_tail g [] []
| gtl_cons a i s l its : g a i -> g_tail g l its -> g_tail g (a :: l) ((KComma, s) :: i ++ its).

Lemma g_list_tail {A} (g : A -> list item -> Prop) l its :
  g_list g l its ->
  exists a i l' its', l = a :: l' /\ its = i ++ its' /\ g a i /\ g_tail g l' its'.
Proof.
  induction 1 as [a i Ha|a i s l its Ha _ (b & j & l' & its' & -> & -> & Hb & Ht)].
  - exists a, i, [], []. rewrite app_nil_r. split_and!; try done. constructor.
  - exists a, i, (b :: l'), ((KComma, s) :: j ++ its'). split_and!; try done. by constructor.
Qed.

Section lists.
Context {A : Type} (g : A -> list item -> Prop) (item_parser : Parse.M A) (F : TokenKind -> Prop).
Context (Hitem : forall a i, g a i -> accepts F item_parser i a) (HF : F KComma).

Lemma tail_next (P : TokenKind -> Prop) l its k :
  (forall k, P k -> F k) -> g_tail g l its -> nexts its P k -> F k.
Proof. intros HP [] Hk; [by apply HP|]. cbn in Hk. by subst k. Qed.

Lemma accepts_comma_separated (P : TokenKind -> Prop) acc l its :
  (forall k, P k -> F k /\ k ≠ KComma) -> g_tail g l its ->
  accepts_n (length its) P (fun fuel => loop fuel (fun list =>
    comma ← Parse.check KComma;
    if (comma : bool) then _ ← Parse.bump; x ← item_parser; mret (inl (list ++ [x]))
    else mret (inr list)) acc) its (acc ++ l).
Proof.
  intros HP Ht. revert acc. induction Ht as [|a i s l its Ha Ht IH]; intros acc fuel Hf.
  - rewrite app_nil_r. eapply loop_break; [|exact Hf].
    eapply (accepts_check _ _ _ false); [|apply accepts_ret].
    cbn. intros k [_ Hk]%HP. by destruct k.
  - cbn [length] in Hf. rewrite length_app in Hf.
    replace (acc ++ a :: l) with ((acc ++ [a]) ++ l) by (by rewrite <- (assoc_L (++))).
    eapply (loop_next _ (length its) _ _ _ (acc ++ [a]) ((KComma, s) :: i)); [|apply IH|lia].
    eapply (accepts_check _ _ _ true); [cbn; by intros k ->|]. apply accepts_bump.
    eapply accepts_bind_nil; [|apply accepts_ret].
    eapply accepts_mono; [|by apply Hitem].
    intros k Hk. eapply tail_next; [|exact Ht|exact Hk]. intros k' Hk'. by apply HP.
Qed.

(** An item and the rest of its list. *)
Lemma accepts_list {B} (P : TokenKind -> Prop) (mk : list A -> B) l its :
  (forall k, P k -> F k /\ k ≠ KComma) -> g_list g l its ->
  accepts P (x ← item_parser; xs ← Parse.comma_separated item_parser x; mret (mk xs)) its (mk l).
Proof.
  intros HP (a & i & l' & its' & -> & -> & Ha & Ht)%g_list_tail.
  eapply accepts_bind.
  - eapply accepts_mono; [|by apply Hitem]. intros k Hk.
    eapply tail_next; [|exact Ht|exact Hk]. intros k' Hk'. by apply HP.
  - eapply accepts_bind_nil; [|apply accepts_ret].
    apply (accepts_tokens_fuel _ (length its')); [done|].
    by apply (accepts_comma_separated P [a] l' its').
Qed.

(** The list loop that breaks when no comma follows an item. *)
Lemma accepts_comma_list (P : TokenKind -> Prop) acc l its :
  (forall k, P k -> F k /\ k ≠ KComma) -> g_list g l its ->
  accepts_n (length its) P (fun fuel => loop fuel (fun list =>
    x ← item_parser; Parse.comma_or_break (list ++ [x])) acc) its (acc ++ l).
Proof.
  intros HP Hl. revert acc. induction Hl as [a i Ha|a i s l its Ha _ IH]; intros acc fuel Hf.
  - eapply loop_break; [|lia]. eapply accepts_bind_nil.
    + eapply accepts_mono; [|by apply Hitem]. intros k Hk. by apply HP.
    + apply accepts_no_comma. intros k Hk. by apply HP.
  - rewrite length_app in Hf. cbn [length] in Hf.
    replace (acc ++ a :: l) with ((acc ++ [a]) ++ l) by (by rewrite <- (assoc_L (++))).
    replace (i ++ (KComma, s) :: its) with ((i ++ [(KComma, s)]) ++ its)
      by (by rewrite <- (assoc_L (++))).
    eapply (loop_next _ (length its) _ _ _ (acc ++ [a])); [|apply IH|lia].
    eapply accepts_bind; [|apply accepts_comma].
    eapply accepts_mono; [|by apply Hitem]. cbn. by intros k ->.
Qed.

End lists.

(** The sentences of [g] start with a token [k0]. *)
Definition starts {A} (k0 : TokenKind) (g : A -> list item -> Prop) : Prop :=
  forall a i, g a i -> exists s i', i = (k0, s) :: i'.

Lemma opt_next {A} k0 (g : A -> list item -> Prop) o i P k :
  starts k0 g -> g_opt g o i -> nexts i P k -> k = k0 \/ P k.
Proof.
  intros Hs [|a i' Ha] Hk; [by right|]. left. by destruct (Hs _ _ Ha) as (s & j & ->).
Qed.

(** [if check(k0) { .. Some } else { None }] on an optional part. *)
Lemma accepts_opt {A} (P : TokenKind -> Prop) k0 (g : A -> list item -> Prop)
    (clause : Parse.M (option A)) o i :
  starts k0 g -> (forall k, P k -> Parse.same_kind k k0 = false) ->
  (forall a i, g a i -> accepts P clause i (Some a)) -> g_opt g o i ->
  accepts P (here ← Parse.check k0; if (here : bool) then clause else mret None) i o.
Proof.
  intros Hs HP Hc [|a i' Ha].
  - eapply (accepts_check _ _ _ false); [exact HP|apply accepts_ret].
  - eapply (accepts_check _ _ _ true); [|by apply Hc].
    destruct (Hs _ _ Ha) as (s & j & ->). cbn. intros k ->. apply same_kind_refl.
Qed.

Lemma accepts_optional {A} (P : TokenKind -> Prop) k0 (g : A -> list item -> Prop)
    (clause : Parse.M A) o i :
  starts k0 g -> (forall k, P k -> Parse.same_kind k k0 = false) ->
  (forall a i, g a i -> accepts P clause i a) -> g_opt g o i ->
  accepts P (Parse.optional k0 clause) i o.
Proof.
  intros Hs HP Hc Ho. apply (accepts_opt P k0 g); [done|done| |done].
  intros a i' Ha. eapply accepts_bind_nil; [by apply Hc|apply accepts_ret].
Qed.

(** ** Targets and version statements *)

Lemma accepts_branch_ident P err v n :
  accepts P (Parse.branch_or_tag_name err) [(KIdent v, n)] n.
Proof. apply accepts_kind_cons. by apply accepts_name. Qed.

Lemma accepts_branch_string P err n s :
  accepts P (Parse.branch_or_tag_name err) [(KString n, s)] n.
Proof. apply accepts_kind_cons, accepts_string. Qed.

Lemma accepts_target P t i : g_target t i -> accepts P Parse.parse_target_ref i t.
Proof.
  intros [s|v n s|n s s'|h s s' Hh|v n s|n s s']; apply accepts_kind_cons, accepts_bump.
  - apply accepts_ret.
  - eapply accepts_bind_nil; [apply accepts_branch_ident|apply accepts_ret].
  - eapply accepts_bind_nil; [apply accepts_branch_string|apply accepts_ret].
  - eapply accepts_bind_nil; [apply accepts_string|]. rewrite Hh. apply accepts_ret.
  - eapply accepts_bind_nil; [apply accepts_branch_ident|apply accepts_ret].
  - eapply accepts_bind_nil; [apply accepts_branch_string|apply accepts_ret].
Qed.

(** An optional part, bound by the code to a variable. *)
Lemma accepts_opt_bind {A B} (P : TokenKind -> Prop) k0 (g : A -> list item -> Prop)
    (clause : Parse.M (option A)) (f : option A -> Parse.M B) o i j b :
  starts k0 g -> (forall k, nexts j P k -> Parse.same_kind k k0 = false) ->
  (forall a i, g a i -> accepts (nexts j P) clause i (Some a)) -> g_opt g o i ->
  accepts P (f o) j b ->
  accepts P (here ← Parse.check k0; x ← (if (here : bool) then clause else mret None); f x)
    (i ++ j) b.
Proof.
  intros Hs HP Hc Ho Hf. destruct Ho as [|a i' Ha].
  - eapply (accepts_check _ _ _ false); [exact HP|].
    apply (accepts_bind _ _ _ _ [] _ None); [apply accepts_ret|exact Hf].
  - eapply (accepts_check _ _ _ true).
    + destruct (Hs _ _ Ha) as (s & i'' & ->). cbn. intros k ->. apply same_kind_refl.
    + eapply accepts_bind; [by apply Hc|exact Hf].
Qed.

Lemma accepts_opt_end {A B} (P : TokenKind -> Prop) k0 (g : A -> list item -> Prop)
    (clause : Parse.M (option A)) (mk : option A -> B) o i :
  starts k0 g -> (forall k, P k -> Parse.same_kind k k0 = false) ->
  (forall a i, g a i -> accepts P clause i (Some a)) -> g_opt g o i ->
  accepts P (here ← Parse.check k0; x ← (if (here : bool) then clause else mret None);
             mret (mk x)) i (mk o).
Proof.
  intros Hs HP Hc Ho. rewrite <- (app_nil_r i).
  eapply accepts_opt_bind; try done. apply accepts_ret.
Qed.

(** What follows a complete statement. *)
Definition stmt_end (k : TokenKind) : Prop := k = KSemicolon \/ k = KEof.

Lemma accepts_parents P l i : g_parents l i -> accepts P Parse.parse_parents i l.
Proof.
  intros [s1 s2|l' i' s1 s2 Hl]; apply accepts_expect.
  - eapply (accepts_check _ _ _ true); [cbn; by intros k ->|].
    apply (accepts_bind _ _ _ _ [] _ []); [apply accepts_ret|]. apply accepts_expect, accepts_ret.
  - eapply (accepts_check _ _ _ false).
    { intros k Hk%nexts_split.
      assert (forall t j Q k, g_target t j -> nexts j Q k -> Parse.same_kind k KRBracket = false) as Ht.
      { intros t j Q k' [] Hk'; cbn in Hk'; by subst k'. }
      revert Hk. destruct Hl as [t j Hj|t j s l2 its Hj _]; intros Hk.
      - exact (Ht _ _ _ _ Hj Hk).
      - apply nexts_split in Hk. exact (Ht _ _ _ _ Hj Hk). }
    eapply accepts_bind; [|apply accepts_expect, accepts_ret].
    eapply accepts_mono; [|apply (accepts_tokens_fuel _ (length i') (eq KRBracket)); [done|]].
    { cbn. by intros k ->. }
    apply (accepts_comma_list g_target Parse.parse_target_ref (fun _ => True)
      (fun t j Hj => accepts_target _ t j Hj) I (eq KRBracket) [] l' i'); [by intros k <-|done].
Qed.

Definition commit_body : option string * option (list TargetRef) ->
    Parse.M ((option string * option (list TargetRef)) + (option string * option (list TargetRef))) :=
  fun '(message, parents) =>
    k ← Parse.current_kind;
    match k with
    | KMessage =>
        _ ← Parse.bump;
        m ← Parse.expect_string;
        mret (inl (Some m, parents))
    | KParents =>
        _ ← Parse.bump;
        list ← Parse.parse_parents;
        mret (inl (message, Some list))
    | _ => mret (inr (message, parents))
    end.

Lemma accepts_commit_opts o o' i :
  g_commit_opts o o' i ->
  accepts_n (length i) stmt_end (fun fuel => loop fuel commit_body o) i o'.
Proof.
  induction 1 as [[m p]|m p m' s s' o i _ IH|m p ps s i o its Hl _ IH]; intros fuel Hf;
    cbn [length] in Hf.
  - eapply loop_break; [|exact Hf]. apply accepts_kind. cbn. intros k [->| ->]; apply accepts_ret.
  - eapply (loop_next _ (length i) _ _ _ _ [(KMessage, s); (KString m', s')]); [|exact IH|lia].
    apply accepts_kind_cons, accepts_bump.
    eapply accepts_bind_nil; [apply accepts_string|apply accepts_ret].
  - rewrite length_app in Hf.
    eapply (loop_next _ (length its) _ _ _ _ ((KParents, s) :: i)); [|exact IH|lia].
    apply accepts_kind_cons, accepts_bump.
    eapply accepts_bind_nil; [by apply accepts_parents|apply accepts_ret].
Qed.

Lemma accepts_branch_name P n it : g_branch_name n it -> accepts P Parse.expect_name [it] n.
Proof.
  intros [v x Hx|v s]; [|apply accepts_kind_cons, accepts_string].
  pose proof Hx as [k s Hk]. apply accepts_kind_cons.
  destruct k; try done; by apply accepts_name.
Qed.

Lemma accepts_branch_stmt b i :
  g_branch_stmt b i -> accepts stmt_end Parse.parse_branch_stmt i b.
Proof.
  intros [n it from i' s1 s2 Hn Hf|n it s1 s2 Hn];
    apply accepts_kind_cons, accepts_bump, accepts_expect.
  - eapply (accepts_bind _ _ _ _ [it]); [by apply accepts_branch_name|].
    apply (accepts_opt_end _ KFrom g_from); [|by intros k [->| ->]| |done].
    + intros t j [t' j' s Hj]. eauto.
    + intros t j [t' j' s Hj]. apply accepts_bump.
      eapply accepts_bind_nil; [by apply accepts_target|apply accepts_ret].
  - eapply accepts_bind_nil; [by apply accepts_branch_name|apply accepts_ret].
Qed.

Lemma accepts_commit_stmt m i o its s :
  g_map m i -> g_commit_opts (None, None) o its ->
  accepts stmt_end Parse.parse_commit_stmt ((KCommit, s) :: i ++ its)
    (mk_CommitStmt m o.1 o.2).
Proof.
  intros Hm Ho. apply accepts_expect. eapply accepts_bind; [by apply accepts_map|].
  apply accepts_fuel. intros fuel Hf. eapply accepts_bind_nil.
  - by apply (accepts_commit_opts _ _ _ Ho).
  - destruct o as [msg ps]. apply accepts_ret.
Qed.

Lemma accepts_merge_stmt t1 i1 t2 i2 st i3 s1 s2 :
  g_target t1 i1 -> g_target t2 i2 -> g_strategy st i3 ->
  accepts stmt_end Parse.parse_merge_stmt ((KMerge, s1) :: i1 ++ (KInto, s2) :: i2 ++ i3)
    (mk_MergeStmt t1 t2 st).
Proof.
  intros H1 H2 Hs. apply accepts_expect. eapply accepts_bind; [by apply accepts_target|].
  apply accepts_expect. eapply accepts_bind; [by apply accepts_target|].
  destruct Hs as [|st s3 s4].
  - eapply (accepts_check _ _ _ false); [by intros k [->| ->]|].
    apply (accepts_bind _ _ _ _ [] _ FastForward); apply accepts_ret.
  - eapply (accepts_check _ _ _ true); [cbn; by intros k ->|].
    eapply accepts_bind_nil; [|apply accepts_ret].
    apply accepts_bump, accepts_kind_cons. destruct st; apply accepts_bump_end.
Qed.

Lemma accepts_diff_stmt t1 i1 t2 i2 p i3 s1 s2 :
  g_target t1 i1 -> g_target t2 i2 -> g_opt g_path p i3 ->
  accepts stmt_end Parse.parse_diff_stmt ((KDiff, s1) :: i1 ++ (KAnd, s2) :: i2 ++ i3)
    (mk_DiffStmt t1 t2 p).
Proof.
  intros H1 H2 Hp. apply accepts_expect. eapply accepts_bind; [by apply accepts_target|].
  apply accepts_expect. eapply accepts_bind; [by apply accepts_target|].
  apply (accepts_opt_end _ KPath g_path); [|by intros k [->| ->]| |done].
  - intros t j [t' s3 s4]. eauto.
  - intros t j [t' s3 s4]. apply accepts_bump.
    eapply accepts_bind_nil; [apply accepts_string|apply accepts_ret].
Qed.

Lemma accepts_version v i :
  g_version v i -> accepts stmt_end Parse.parse_version_statement i v.
Proof.
  intros [m i' o its s Hm Ho|b i' Hb|t i' s Ht|t1 i1 t2 i2 st i3 s1 s2 H1 H2 Hs
         |t1 i1 t2 i2 p i3 s1 s2 H1 H2 Hp].
  - apply accepts_kind_cons.
    eapply accepts_bind_nil; [by apply accepts_commit_stmt|apply accepts_ret].
  - assert (exists k s j, i' = (k, s) :: j /\ (k = KCreate \/ k = KDelete)) as (k & s & j & -> & Hk)
      by (destruct Hb; eauto 10).
    apply accepts_kind_cons. destruct Hk as [->| ->];
      (eapply accepts_bind_nil; [by apply accepts_branch_stmt|apply accepts_ret]).
  - apply accepts_kind_cons, accepts_bump.
    eapply accepts_bind_nil; [by apply accepts_target|apply accepts_ret].
  - apply accepts_kind_cons.
    eapply accepts_bind_nil; [by apply accepts_merge_stmt|apply accepts_ret].
  - apply accepts_kind_cons.
    eapply accepts_bind_nil; [by apply accepts_diff_stmt|apply accepts_ret].
Qed.

(** ** Patterns *)

Lemma accepts_edge_kind P t s : accepts P Parse.parse_edge_type [(edge_type_kind t, s)] t.
Proof. apply accepts_kind_cons. destruct t; apply accepts_bump_end. Qed.

(** A hop count ends at the closing bracket. *)
Lemma accepts_hops h i : g_hops h i -> accepts (eq KRBracket) Parse.parse_hop_multiplier i h.
Proof.
  intros [s|s s'|n s s' Hn|n s s' t Hn|n m s s' t t' Hn Hm|m s t t' Hm]; apply accepts_expect.
  - apply accepts_kind. cbn [nexts]. intros k <-. cbn [Parse.is_int].
    eapply (accepts_check _ _ _ false); [by intros k [<- _]|apply accepts_ret].
  - apply accepts_kind_cons. eapply (accepts_check _ _ _ true); [cbn; by intros k ->|].
    apply accepts_bump, accepts_kind. cbn [nexts]. intros k <-. apply accepts_ret.
  - apply accepts_kind_cons. eapply (accepts_bind _ _ _ _ [_]); [by apply accepts_u32|].
    eapply (accepts_check _ _ _ false); [by intros k <-|apply accepts_ret].
  - apply accepts_kind_cons. eapply (accepts_bind _ _ _ _ [_]); [by apply accepts_u32|].
    eapply (accepts_check _ _ _ true); [cbn; by intros k ->|].
    apply accepts_bump, accepts_kind. cbn [nexts]. intros k <-. apply accepts_ret.
  - apply accepts_kind_cons. eapply (accepts_bind _ _ _ _ [_]); [by apply accepts_u32|].
    eapply (accepts_check _ _ _ true); [cbn; by intros k ->|].
    apply accepts_bump, accepts_kind_cons.
    eapply accepts_bind_nil; [by apply accepts_u32|apply accepts_ret].
  - apply accepts_kind_cons. eapply (accepts_check _ _ _ true); [cbn; by intros k ->|].
    apply accepts_bump, accepts_kind_cons.
    eapply accepts_bind_nil; [by apply accepts_u32|apply accepts_ret].
Qed.

Lemma accepts_edge_body b i :
  g_edge_body b i -> accepts (eq KRBracket) Parse.parse_edge_body i b.
Proof.
  intros [t i1 h i2 Ht Hh].
  assert (starts KStar g_hops) as Hstar by (intros a j []; eauto).
  assert (forall k, nexts i2 (eq KRBracket) k -> k = KStar \/ k = KRBracket) as Hnext.
  { intros k Hk. destruct (opt_next _ _ _ _ _ _ Hstar Hh Hk) as [->|<-]; auto. }
  assert (forall f : option HopMultiplier, accepts (eq KRBracket)
    (star ← Parse.check KStar;
     multiplier ← (if (star : bool) then h ← Parse.parse_hop_multiplier; mret (Some h)
                   else mret None);
     mret (t, multiplier)) i2 (t, h)) as Htail.
  { intros _. apply (accepts_opt_end _ KStar g_hops); [done|by intros k <-| |done].
    intros a j Hj. eapply accepts_bind_nil; [by apply accepts_hops|apply accepts_ret]. }
  specialize (Htail None). unfold Parse.parse_edge_body.
  destruct Ht as [|t j [t' s|t' s s']].
  - eapply (accepts_check _ _ _ false).
    { intros k Hk. destruct (Hnext k Hk) as [->| ->]; done. }
    apply accepts_kind. intros k Hk.
    assert (Parse.is_edge_type k = false) as -> by (destruct (Hnext k Hk) as [->| ->]; done).
    eapply accepts_mono; [by intros k' [? _]|].
    apply (accepts_bind _ _ _ _ [] _ None); [apply accepts_ret|exact Htail].
  - eapply (accepts_check _ _ _ false); [cbn; intros k ->; by destruct t'|].
    apply accepts_kind_cons.
    assert (Parse.is_edge_type (edge_type_kind t') = true) as -> by (by destruct t').
    eapply (accepts_bind _ _ _ _ [_] i2); [|exact Htail].
    eapply accepts_bind_nil; [apply accepts_edge_kind|apply accepts_ret].
  - eapply (accepts_check _ _ _ true); [cbn; by intros k ->|]. apply accepts_kind_cons.
    eapply (accepts_bind _ _ _ _ [_; _] i2); [|exact Htail]. apply accepts_bump.
    eapply accepts_bind_nil; [apply accepts_edge_kind|apply accepts_ret].
Qed.

Lemma accepts_edge P e i :
  (forall k, P k -> k ≠ KLBracket) -> g_edge e i -> accepts P Parse.parse_edge_pattern i e.
Proof.
  intros HP [s|s|t h i' s1 s2 s3 s4 Hb|t h i' s1 s2 s3 s4 Hb]; apply accepts_kind_cons, accepts_bump.
  - apply accepts_ret.
  - eapply (accepts_check _ _ _ false); [|apply accepts_ret]. cbn. intros k Hk%HP. by destruct k.
  - apply accepts_expect. eapply accepts_bind.
    + eapply accepts_mono; [|by apply accepts_edge_body]. cbn. by intros k ->.
    + cbn. apply accepts_expect, accepts_expect, accepts_ret.
  - eapply (accepts_check _ _ _ true); [cbn; by intros k ->|].
    apply accepts_expect. eapply accepts_bind.
    + eapply accepts_mono; [|by apply accepts_edge_body]. cbn. by intros k ->.
    + cbn. apply accepts_expect, accepts_expect, accepts_ret.
Qed.

Lemma variable_next o i P k :
  g_opt g_variable o i -> nexts i P k -> Parse.ident_kind k = true \/ P k.
Proof.
  intros [|v j [v' n Hn]] Hk; [by right|left]. cbn in Hk. subst k. by destruct Hn.
Qed.

Lemma starts_label : starts KColon g_label.
Proof. intros a i []. eauto. Qed.

Lemma props_next m i P k : g_props m i -> nexts i P k -> k = KLBrace \/ P k.
Proof. intros [|m' i' []] Hk; [by right|left; exact Hk..]. Qed.

Lemma accepts_node P n i : g_node n i -> accepts P Parse.parse_node_pattern i n.
Proof.
  intros [v i1 l i2 m i3 s1 s2 Hv Hl Hm]. apply accepts_expect.
  assert (forall k, nexts (i3 ++ [(KRParen, s2)]) P k -> k = KLBrace \/ k = KRParen) as H3.
  { intros k Hk%nexts_split. destruct (props_next _ _ _ _ Hm Hk); [by left|by right]. }
  assert (forall k, nexts (i2 ++ i3 ++ [(KRParen, s2)]) P k ->
    k = KColon \/ k = KLBrace \/ k = KRParen) as H2.
  { intros k Hk%nexts_split.
    destruct (opt_next _ _ _ _ _ _ starts_label Hl Hk) as [?|Hk']; auto. }
  assert (accepts P (has_props ← Parse.check KLBrace;
    properties ← (if (has_props : bool) then Parse.parse_map else mret []);
    _ ← Parse.expect KRParen;
    mret (mk_NodePattern v l properties)) (i3 ++ [(KRParen, s2)]) (mk_NodePattern v l m)) as Hprops.
  { destruct Hm as [|m i3 Hm].
    - eapply (accepts_check _ _ _ false); [cbn; by intros k ->|].
      apply (accepts_bind _ _ _ _ [] _ []); [apply accepts_ret|]. apply accepts_expect, accepts_ret.
    - eapply (accepts_check _ _ _ true).
      { intros k Hk%nexts_split. destruct Hm; cbn in Hk; by subst k. }
      eapply accepts_bind; [by apply accepts_map|]. apply accepts_expect, accepts_ret. }
  assert (accepts P (has_label ← Parse.check KColon;
    label ← (if (has_label : bool) then
               _ ← Parse.bump;
               l ← Parse.expect_ident_or_keyword_as_ident;
               mret (Some l)
             else mret None);
    has_props ← Parse.check KLBrace;
    properties ← (if (has_props : bool) then Parse.parse_map else mret []);
    _ ← Parse.expect KRParen;
    mret (mk_NodePattern v label properties)) (i2 ++ i3 ++ [(KRParen, s2)])
    (mk_NodePattern v l m)) as Hlabel.
  { eapply (accepts_opt_bind _ KColon g_label); [exact starts_label| | |exact Hl|exact Hprops].
    - intros k Hk. destruct (H3 k Hk) as [->| ->]; done.
    - intros a j [a' x s Hx]. apply accepts_bump.
      eapply accepts_bind_nil; [by apply accepts_name|apply accepts_ret]. }
  destruct Hv as [|v i1 [v' x Hx]].
  - eapply (accepts_test _ _ Parse.ident_kind false).
    { intros k Hk. destruct (H2 k Hk) as [->|[->| ->]]; done. }
    apply (accepts_bind _ _ _ _ [] _ None); [apply accepts_ret|exact Hlabel].
  - eapply (accepts_test _ _ Parse.ident_kind true).
    { destruct Hx. cbn. by intros k' ->. }
    eapply (accepts_bind _ _ _ _ [x]); [|exact Hlabel].
    eapply accepts_bind_nil; [by apply accepts_name|apply accepts_ret].
Qed.

Lemma node_next n i P k : g_node n i -> nexts i P k -> k = KLParen.
Proof. by intros [] Hk. Qed.

Definition edge_start (k : TokenKind) : bool :=
  match k with KArrowRight | KArrowLeft | KMinus => true | _ => false end.

Lemma edge_next e i P k : g_edge e i -> nexts i P k -> edge_start k = true.
Proof. intros [] Hk; cbn in Hk; by subst k. Qed.

(** The loop of a pattern stops before anything that starts no edge. *)
Lemma accepts_hops_list (P : TokenKind -> Prop) acc l its :
  (forall k, P k -> edge_start k = false) -> g_hops_list l its ->
  accepts_n (length its) P (fun fuel => loop fuel (fun elements =>
    more ← Parse.is_edge_start;
    if (more : bool) then
      e ← Parse.parse_edge_pattern;
      n ← Parse.parse_node_pattern;
      mret (inl (elements ++ [Edge e; Node n]))
    else mret (inr elements)) acc) its (acc ++ l).
Proof.
  intros HP H. revert acc. induction H as [|e i n j l its He Hn _ IH]; intros acc fuel Hf.
  - rewrite app_nil_r. eapply loop_break; [|exact Hf].
    eapply (accepts_test _ _ edge_start false); [exact HP|apply accepts_ret].
  - assert (0 < length i)%nat by (destruct He; simpl; lia).
    rewrite !length_app in Hf. rewrite (assoc_L (++)).
    replace (acc ++ Edge e :: Node n :: l) with ((acc ++ [Edge e; Node n]) ++ l)
      by (by rewrite <- (assoc_L (++))).
    eapply (loop_next _ (length its) _ _ _ (acc ++ [Edge e; Node n])); [|apply IH|lia].
    eapply (accepts_test _ _ edge_start true).
    { intros k Hk%nexts_split. by eapply edge_next. }
    eapply accepts_bind; [apply accepts_edge; [|exact He]|].
    { intros k Hk. by rewrite (node_next _ _ _ _ Hn Hk). }
    eapply accepts_bind_nil; [by apply accepts_node|apply accepts_ret].
Qed.

Lemma accepts_pattern (P : TokenKind -> Prop) p i :
  (forall k, P k -> edge_start k = false) -> g_pattern p i ->
  accepts P Parse.parse_pattern i p.
Proof.
  intros HP [n i' l its Hn Hl]. eapply accepts_bind; [by apply accepts_node|].
  apply accepts_fuel. intros fuel Hf. eapply accepts_bind_nil; [|apply accepts_ret].
  by apply (accepts_hops_list P [Node n] l its).
Qed.

(** ** Clauses *)

(** The kinds that may follow the clauses of a query: later clauses and the end. *)
Definition after_where (k : TokenKind) : Prop := k = KSelect \/ stmt_end k.
Definition after_traverse (k : TokenKind) : Prop := k = KWhere \/ after_where k.
Definition after_match (k : TokenKind) : Prop := k = KTraverse \/ after_traverse k.
Definition after_use (k : TokenKind) : Prop := k = KMatch \/ after_match k.

Ltac kinds :=
  unfold after_use, after_match, after_traverse, after_where, stmt_end in *;
  naive_solver.

Lemma accepts_match m i :
  g_match m i -> accepts after_match Parse.parse_match_clause i m.
Proof.
  intros [l i' s Hl]. apply accepts_expect.
  apply (accepts_list g_pattern _ (fun k => edge_start k = false)
    (fun p j Hp => accepts_pattern _ p j (fun k Hk => Hk) Hp) eq_refl after_match); [|done].
  intros k Hk. by destruct k; kinds.
Qed.

Lemma accepts_two_targets P a i b j k s1 s2 s3 s4 :
  g_target a i -> g_target b j ->
  accepts P Parse.parse_two_targets
    ((k, s1) :: (KLParen, s2) :: i ++ (KComma, s3) :: j ++ [(KRParen, s4)]) (a, b).
Proof.
  intros Ha Hb. apply accepts_bump, accepts_expect.
  eapply accepts_bind; [by apply accepts_target|]. apply accepts_expect.
  eapply accepts_bind; [by apply accepts_target|]. apply accepts_expect, accepts_ret.
Qed.

Lemma accepts_traversal P t i : g_traversal t i -> accepts P Parse.parse_traversal_clause i t.
Proof.
  intros [a i' b j s1 s2 s3 s4 s5 Ha Hb|a i' b j s1 s2 s3 s4 s5 Ha Hb|a i' s1 s2 s3 s5 Ha];
    apply accepts_expect, accepts_kind_cons.
  1,2: eapply accepts_bind_nil; [by apply accepts_two_targets|apply accepts_ret].
  apply accepts_bump, accepts_expect.
  eapply accepts_bind; [by apply accepts_target|]. apply accepts_expect, accepts_ret.
Qed.

Lemma starts_alias : starts KAs g_alias.
Proof. intros a i []. eauto. Qed.

(** An item of a projection ends at a comma and at what may follow the clause. *)
Definition after_item (k : TokenKind) : Prop := k = KComma \/ stmt_end k.

Lemma accepts_projection p i :
  g_projection p i -> accepts after_item Parse.parse_projection_item i p.
Proof.
  intros [e i' a j He Ha]. eapply accepts_bind.
  - eapply accepts_mono; [|by apply accepts_expression].
    intros k Hk. destruct (opt_next _ _ _ _ _ _ starts_alias Ha Hk) as [->|[->|[->| ->]]]; done.
  - apply (accepts_opt_end _ KAs g_alias); [exact starts_alias|by intros k [->|[->| ->]]| |done].
    intros x l [x' n s Hn]. apply accepts_bump.
    eapply accepts_bind_nil; [by apply accepts_name|apply accepts_ret].
Qed.

Lemma accepts_select c i : g_select c i -> accepts stmt_end Parse.parse_select_clause i c.
Proof.
  intros [l i' s Hl]. apply accepts_expect.
  apply (accepts_list g_projection _ after_item accepts_projection (or_introl eq_refl) stmt_end);
    [|done].
  intros k Hk. split; [by right|]. by destruct Hk as [->| ->].
Qed.

Lemma accepts_where e i :
  g_where e i -> accepts after_where (_ ← Parse.bump; Parse.parse_expression) i e.
Proof.
  intros [e' i' s He]. apply accepts_bump.
  eapply accepts_mono; [|by apply accepts_expression]. by intros k [->|[->| ->]].
Qed.

Lemma accepts_context P c i :
  g_context c i ->
  accepts P (_ ← Parse.bump; t ← Parse.parse_target_ref; mret (mk_ContextClause t)) i c.
Proof.
  intros [t i' s Ht]. apply accepts_bump.
  eapply accepts_bind_nil; [by apply accepts_target|apply accepts_ret].
Qed.

Lemma starts_context : starts KUse g_context.
Proof. intros a i []. eauto. Qed.
Lemma starts_match : starts KMatch g_match.
Proof. intros a i []. eauto. Qed.
Lemma starts_traversal : starts KTraverse g_traversal.
Proof. intros a i []; eauto. Qed.
Lemma starts_where : starts KWhere g_where.
Proof. intros a i []. eauto. Qed.
Lemma starts_select : starts KSelect g_select.
Proof. intros a i []. eauto. Qed.

Lemma opt_nil {A} k0 (g : A -> list item -> Prop) : starts k0 g -> g_opt g None [] /\
  forall o, g_opt g o [] -> o = None.
Proof.
  intros Hs. split; [constructor|]. intros o Ho. inversion Ho as [|a i Ha E]; [done|].
  subst i. by destruct (Hs _ _ Ha) as (? & ? & ?).
Qed.

Lemma accepts_query q i : g_query q i -> accepts stmt_end Parse.parse_query_statement i q.
Proof.
  intros [c i1 m i2 t i3 w i4 s i5 Hc Hm Ht Hw Hs Hne].
  assert (forall k, nexts i5 stmt_end k -> after_where k) as N5.
  { intros k Hk. exact (opt_next _ _ _ _ _ _ starts_select Hs Hk). }
  assert (forall k, nexts (i4 ++ i5) stmt_end k -> after_traverse k) as N4.
  { intros k Hk%nexts_split. destruct (opt_next _ _ _ _ _ _ starts_where Hw Hk); [by left|].
    right. by apply N5. }
  assert (forall k, nexts (i3 ++ i4 ++ i5) stmt_end k -> after_match k) as N3.
  { intros k Hk%nexts_split. destruct (opt_next _ _ _ _ _ _ starts_traversal Ht Hk); [by left|].
    right. by apply N4. }
  assert (forall k, nexts (i2 ++ i3 ++ i4 ++ i5) stmt_end k -> after_use k) as N2.
  { intros k Hk%nexts_split. destruct (opt_next _ _ _ _ _ _ starts_match Hm Hk); [by left|].
    right. by apply N3. }
  eapply accepts_bind.
  { apply (accepts_optional _ KUse g_context); [exact starts_context| | |exact Hc].
    - intros k Hk%N2. by destruct k; kinds.
    - intros a j. apply accepts_context. }
  eapply accepts_bind.
  { apply (accepts_optional _ KMatch g_match); [exact starts_match| | |exact Hm].
    - intros k Hk%N3. by destruct k; kinds.
    - intros a j Ha. eapply accepts_mono; [exact N3|by apply accepts_match]. }
  eapply accepts_bind.
  { apply (accepts_optional _ KTraverse g_traversal); [exact starts_traversal| | |exact Ht].
    - intros k Hk%N4. by destruct k; kinds.
    - intros a j Ha. by apply accepts_traversal. }
  eapply accepts_bind.
  { apply (accepts_optional _ KWhere g_where); [exact starts_where| | |exact Hw].
    - intros k Hk%N5. by destruct k; kinds.
    - intros a j Ha. eapply accepts_mono; [exact N5|by apply accepts_where]. }
  eapply accepts_bind_nil.
  { apply (accepts_optional _ KSelect g_select); [exact starts_select| | |exact Hs].
    - intros k Hk. by destruct k; kinds.
    - intros a j Ha. by apply accepts_select. }
  destruct Hc, Hm, Ht, Hw, Hs; try apply accepts_ret. done.
Qed.

(** ** Statements *)

Lemma query_head q k s i :
  g_query q ((k, s) :: i) -> k ∈ [KUse; KMatch; KTraverse; KWhere; KSelect].
Proof.
  intros H. inversion H as [c i1 m i2 t i3 w i4 s' i5 Hc Hm Ht Hw Hs Hne E1 E2]. clear H Hne E1.
  assert (nexts (i1 ++ i2 ++ i3 ++ i4 ++ i5) (fun _ => False) k) as Hk by (by rewrite E2).
  apply nexts_split in Hk.
  destruct (opt_next _ _ _ _ _ _ starts_context Hc Hk) as [->|Hk1]; [set_solver|].
  apply nexts_split in Hk1.
  destruct (opt_next _ _ _ _ _ _ starts_match Hm Hk1) as [->|Hk2]; [set_solver|].
  apply nexts_split in Hk2.
  destruct (opt_next _ _ _ _ _ _ starts_traversal Ht Hk2) as [->|Hk3]; [set_solver|].
  apply nexts_split in Hk3.
  destruct (opt_next _ _ _ _ _ _ starts_where Hw Hk3) as [->|Hk4]; [set_solver|].
  destruct (opt_next _ _ _ _ _ _ starts_select Hs Hk4) as [->|[]]; set_solver.
Qed.

Lemma accepts_statement st i : g_statement st i -> accepts stmt_end Parse.parse_statement i st.
Proof.
  intros [q i' Hq|v i' Hv].
  - assert (exists k s j, i' = (k, s) :: j) as (k & s & j & ->).
    { destruct i' as [|[k s] j]; [by inversion Hq|eauto]. }
    apply accepts_kind_cons. pose proof (query_head _ _ _ _ Hq) as Hk.
    assert (accepts stmt_end (q ← Parse.parse_query_statement; mret (Query q)) ((k, s) :: j)
      (Query q)) as Hp.
    { eapply accepts_bind_nil; [by apply accepts_query|apply accepts_ret]. }
    repeat (apply elem_of_cons in Hk as [->|Hk]; [exact Hp|]). by apply elem_of_nil in Hk.
  - assert (exists k s j, i' = (k, s) :: j /\
      k ∈ [KCommit; KCreate; KDelete; KCheckout; KMerge; KDiff]) as (k & s & j & -> & Hk).
    { destruct Hv as [| ? ? []| | |]; eexists _, _, _; (split; [reflexivity|set_solver]). }
    apply accepts_kind_cons.
    assert (accepts stmt_end (v ← Parse.parse_version_statement; mret (Version v)) ((k, s) :: j)
      (Version v)) as Hp.
    { eapply accepts_bind_nil; [by apply accepts_version|apply accepts_ret]. }
    repeat (apply elem_of_cons in Hk as [->|Hk]; [exact Hp|]). by apply elem_of_nil in Hk.
Qed.

End statements.

(** ** Sources *)

Lemma spelled_lexed cs its :
  spelled cs its -> forall d, scalars (d ++ cs) ->
  exists ts r, lexed_apart d cs (ts ++ [r]) /\ kind r = KEof /\
    Forall2 (token_is (text (d ++ cs))) ts its.
Proof.
  induction 1 as [lay Hl|lay k txt t its Hl Hk Ht _ IH]; intros d Hsc.
  - eexists [], _. split_and!; [by constructor|done|constructor].
  - destruct (IH ((d ++ lay) ++ txt)) as (ts & r & Hts & Hr & Hits).
    { by rewrite <- !(assoc_L (++)). }
    exists (token_at k (d ++ lay) txt :: ts), r. split_and!; [by constructor|done|].
    rewrite <- !(assoc_L (++)) in Hits. constructor; [|done]. split; [done|].
    cbn [token_at tok_offset tok_end snd]. rewrite (assoc_L (++) d lay).
    apply slice_text.
    by apply Forall_app in Hsc as [_ [_ ?]%Forall_app].
Qed.

Lemma spelled_tokens cs its :
  scalars cs -> spelled cs its ->
  exists ts r, Lex.tokenize (Lex.new (text cs)) = Ok (ts ++ [r]) /\ kind r = KEof /\
    Forall2 (token_is (text cs)) ts its.
Proof.
  intros Hsc H. destruct (spelled_lexed cs its H [] Hsc) as (ts & r & Hts & Hr & Hits).
  exists ts, r. split_and!; [by apply tokenize_lexed|done|done].
Qed.

Lemma accepts_single src st its :
  g_single st its ->
  accepts src (eq KEof) (stmt ← Parse.parse_statement; _ ← Parse.expect_eof_or_semicolon; mret stmt)
    its st.
Proof.
  intros [st' i Hst|st' i s Hst].
  - eapply accepts_bind_nil.
    { eapply accepts_mono; [|by apply accepts_statement]. intros k <-. by right. }
    eapply (accepts_bind_nil _ _ _ _ _ tt); [|apply accepts_ret].
    eapply (accepts_check _ _ _ false); [by intros k <-|].
    apply (accepts_bind _ _ _ _ [] _ tt); [apply accepts_ret|].
    eapply (accepts_test _ _ is_Eof true); [by intros k <-|apply accepts_ret].
  - eapply accepts_bind.
    { eapply accepts_mono; [|by apply accepts_statement]. cbn. intros k ->. by left. }
    eapply (accepts_bind_nil _ _ _ _ _ tt); [|apply accepts_ret].
    eapply (accepts_check _ _ _ true); [cbn; by intros k ->|].
    apply (accepts_bind _ _ _ _ [_] [] tt); [apply accepts_bump_end|].
    eapply (accepts_test _ _ is_Eof true); [by intros k <-|apply accepts_ret].
Qed.

(** The turn of a script after its statement: a semicolon, and more statements. *)
Definition script_body (stmts : list Statement) : Parse.M (list Statement + list Statement) :=
  eof ← Parse.is_eof;
  if (eof : bool) then mret (inr stmts)
  else
    s ← Parse.parse_statement;
    let stmts := stmts ++ [s] in
    semi ← Parse.check KSemicolon;
    _ ← (if (semi : bool) then _ ← Parse.bump; mret tt else mret tt);
    eof ← Parse.is_eof;
    if (eof : bool) then mret (inr stmts)
    else
      start ← Parse.can_start_statement;
      if (start : bool) then mret (inl stmts)
      else Parse.error "expected statement or end of input".

(** The first kinds of the statements. *)
Definition statement_start (k : TokenKind) : bool :=
  match k with
  | KUse | KMatch | KTraverse | KWhere | KSelect | KCommit | KCreate | KDelete
  | KCheckout | KMerge | KDiff => true
  | _ => false
  end.

Lemma statement_head st i :
  g_statement st i -> exists k s j, i = (k, s) :: j /\ statement_start k = true.
Proof.
  intros [q i' Hq|v i' Hv].
  - destruct i' as [|[k s] j]; [by inversion Hq|]. exists k, s, j. split; [done|].
    pose proof (query_head _ _ _ _ Hq) as Hin.
    repeat (apply elem_of_cons in Hin as [->|Hin]; [done|]). by apply elem_of_nil in Hin.
  - destruct Hv as [| ? ? []| | |]; eexists _, _, _; by split.
Qed.

Lemma statement_next st i P k : g_statement st i -> nexts i P k -> statement_start k = true.
Proof. intros (k' & s & j & -> & Hs)%statement_head Hk. cbn in Hk. by subst k. Qed.

Lemma script_head l i :
  g_script l i -> l = [] /\ i = [] \/ exists k s j, i = (k, s) :: j /\ statement_start k = true.
Proof.
  intros [|st i' Hst|st i' s l' its Hst _]; [by left|right..];
    destruct (statement_head _ _ Hst) as (k & s' & j & -> & Hk); cbn; eauto.
Qed.

Lemma accepts_script src l its :
  g_script l its -> forall acc,
  accepts_n src (length its) (eq KEof) (fun fuel => loop fuel script_body acc) its (acc ++ l).
Proof.
  induction 1 as [|st i Hst|st i s l its Hst Hl IH]; intros acc fuel Hf.
  - rewrite app_nil_r. eapply loop_break; [|exact Hf].
    eapply (accepts_test _ _ is_Eof true); [by intros k <-|apply accepts_ret].
  - eapply loop_break; [|lia].
    eapply (accepts_test _ _ is_Eof false).
    { intros k Hk. pose proof (statement_next _ _ _ _ Hst Hk). by destruct k. }
    eapply accepts_bind_nil.
    { eapply accepts_mono; [|by apply accepts_statement]. intros k <-. by right. }
    eapply (accepts_check _ _ _ false); [by intros k <-|].
    apply (accepts_bind _ _ _ _ [] _ tt); [apply accepts_ret|].
    eapply (accepts_test _ _ is_Eof true); [by intros k <-|apply accepts_ret].
  - assert (accepts src (nexts its (eq KEof)) (script_body acc) (i ++ [(KSemicolon, s)])
      (if its is [] then inr (acc ++ [st]) else inl (acc ++ [st]))) as Hstep.
    { eapply (accepts_test _ _ is_Eof false).
      { intros k Hk%nexts_split. pose proof (statement_next _ _ _ _ Hst Hk). by destruct k. }
      eapply accepts_bind.
      { eapply accepts_mono; [|by apply accepts_statement]. cbn. intros k ->. by left. }
      eapply (accepts_check _ _ _ true); [cbn; by intros k ->|].
      apply (accepts_bind _ _ _ _ [_] [] tt); [apply accepts_bump_end|].
      destruct (script_head _ _ Hl) as [[_ ->]|(k & s' & j & -> & Hk)].
      - eapply (accepts_test _ _ is_Eof true); [by intros k <-|apply accepts_ret].
      - eapply (accepts_test _ _ is_Eof false); [cbn; intros k' ->; by destruct k|].
        eapply (accepts_test _ _ statement_start true); [cbn; by intros k' ->|].
        apply accepts_ret. }
    replace (i ++ (KSemicolon, s) :: its) with ((i ++ [(KSemicolon, s)]) ++ its)
      by (by rewrite <- (assoc_L (++))).
    replace (acc ++ st :: l) with ((acc ++ [st]) ++ l) by (by rewrite <- (assoc_L (++))).
    rewrite length_app in Hf. cbn [length] in Hf.
    destruct (script_head _ _ Hl) as [[-> ->]|(k & s' & j & -> & Hk)].
    + rewrite !app_nil_r. eapply loop_break; [|lia]. exact Hstep.
    + eapply (loop_next _ _ _ _ _ (acc ++ [st])); [exact Hstep|apply IH|lia].
Qed.

Lemma parse_spelled cs its st :
  scalars cs -> spelled cs its -> g_single st its -> Parse.parse (text cs) = Ok st.
Proof.
  intros Hsc Hsp Hst. destruct (spelled_tokens cs its Hsc Hsp) as (ts & r & E & Hr & Hits).
  unfold Parse.parse. rewrite E. cbn [mbind outcome_bind].
  pose proof (accepts_single (text cs) st its Hst [] ts r [] Hits (eq_sym Hr)) as Hp.
  unfold parser_at in Hp. cbn [app length] in Hp. unfold Parse.new. by rewrite Hp.
Qed.

Lemma parse_script_spelled cs its l :
  scalars cs -> spelled cs its -> g_script l its -> Parse.parse_script (text cs) = Ok l.
Proof.
  intros Hsc Hsp Hl. destruct (spelled_tokens cs its Hsc Hsp) as (ts & r & E & Hr & Hits).
  unfold Parse.parse_script. rewrite E. cbn [mbind outcome_bind].
  assert (accepts (text cs) (eq KEof) Parse.parse_script_loop its l) as Hp.
  { apply accepts_fuel. intros fuel Hf. by apply (accepts_script (text cs) l its Hl []). }
  specialize (Hp [] ts r [] Hits (eq_sym Hr)).
  unfold parser_at in Hp. cbn [app length] in Hp. unfold Parse.new. by rewrite Hp.
Qed.

(** C7: Every sentence of the grammar is parsed to its syntax tree. If a source spells the
    lexical items of a statement, with an optional semicolon, or of a script of statements
    separated by semicolons, then [parse] and [parse_script] return exactly that syntax
    tree: operators associate to the left and bind by their level, optional clauses take
    their defaults, and a map keeps the last of equal keys. So no source has two syntax
    trees. *)
Theorem parse_sentence cs its :
  scalars cs -> spelled cs its ->
  (forall st, g_single st its -> Parse.parse (text cs) = Ok st) /\
  (forall l, g_script l its -> Parse.parse_script (text cs) = Ok l).
Proof.
  intros Hsc Hsp. split; intros; [by eapply parse_spelled|by eapply parse_script_spelled].
Qed.

(** The sentence [SELECT a=1 OR b;] and its items. *)
Definition sample_text : list Z := byte_val <$> str_bytes "SELECT a=1 OR b;".
Definition sample_items : list item :=
  [(KSelect, "SELECT"); (KIdent "a", "a"); (KEq, "="); (KInt 1, "1"); (KOr, "OR");
   (KIdent "b", "b"); (KSemicolon, ";")].
Definition sample_statement : Statement :=
  Query (mk_QueryStatement None None None None (Some (mk_SelectClause [mk_ProjectionItem
    (EBinary (EBinary (EVariable "a") OpEq (EInt 1)) OpOr (EVariable "b")) None]))).

Lemma sample_spelled : spelled sample_text sample_items.
Proof.
  assert (layout false [32]) as Hsp by (apply (lay_ws _ 32); [reflexivity|constructor]).
  assert (forall k w l lay, layout false lay -> w ≠ [] -> keyword_or_ident (text w) = k ->
    word_start (default 0 (head w)) = true -> Forall (fun c => word_char c = true) (tail w) ->
    forall its, ends_word l -> spelled l its -> spelled (lay ++ w ++ l) ((k, text w) :: its)) as Hword.
  { intros k [|c w] l lay Hl Hn <- Hc Hw its Hs Hit; [done|].
    constructor; [done|by apply lex_word|by apply apart_word|done]. }
  apply (Hword KSelect [83;69;76;69;67;84] _ []); try done; [constructor|repeat constructor|].
  apply (Hword (KIdent "a") [97] _ [32]); try done.
  apply (sp_item [] KEq [61]); [constructor|by apply (lex_symbol KEq "=")|done|].
  apply (sp_item [] (KInt 1) [49]);
    [constructor|by apply lex_int; [split; [done|repeat constructor]|]|by split; [|intros []]|].
  apply (Hword KOr [79;82] _ [32]); try done; [by repeat constructor|].
  apply (Hword (KIdent "b") [98] _ [32]); try done.
  apply (sp_item [] KSemicolon [59] []); [constructor|by apply (lex_symbol KSemicolon ";")|done|].
  apply sp_end. constructor.
Qed.

Lemma up_to_primary l e its : (l <= 4)%nat -> g_expr 4 e its -> g_expr l e its.
Proof.
  intros Hl H. remember (4 - l)%nat as n eqn:En. revert l Hl En.
  induction n as [|n IH]; intros l Hl En.
  - by replace l with 4%nat by lia.
  - apply ge_up; [lia|]. apply IH; lia.
Qed.

Lemma sample_statement_items : g_single sample_statement sample_items.
Proof.
  assert (forall l s, (l <= 4)%nat -> g_expr l (EVariable s) [(KIdent s, s)]) as Hv.
  { intros l s Hl. apply up_to_primary; [done|]. apply ge_variable; [by apply gn_ident|].
    by intros [?|[?|[?|?%elem_of_nil]%elem_of_cons]%elem_of_cons]%elem_of_cons. }
  apply (gsi_semi _ [_; _; _; _; _; _]), gst_query.
  apply (gqu_query _ [] _ [] _ [] _ [] (Some _)); [constructor..| |done].
  apply go_some, gse_select, gl_one.
  apply (gpj_item _ [_; _; _; _; _] None []); [|constructor].
  apply (ge_binary _ OpOr _ [_; _; _] "OR" [_]); cbn [op_level]; [|by apply Hv; lia].
  apply ge_up, ge_up; [lia..|].
  apply (ge_binary _ OpEq _ [_] "=" [_]); cbn [op_level]; [by apply Hv; lia|].
  apply up_to_primary; [lia|apply ge_int].
Qed.

Lemma parse_sentence_witness :
  Parse.parse (text sample_text) = Ok sample_statement.
Proof.
  apply (parse_sentence sample_text sample_items).
  - by apply (bool_decide_unpack _), I.
  - exact sample_spelled.
  - exact sample_statement_items.
Defined.
