(* ===== verification/Ddl.v ===== *)
(** * The DDL of migration files ([epochql/src/schema/ddl.rs])

    [DdlParser] has the fields and the cursor methods ([current], [is_eof], [check],
    [bump], [expect], [error]) of [Parser], word for word: the model shares them. *)

From Stdlib Require Import Strings.String Floats.SpecFloat.
From S2P Require Import Prelude Utf8 Chars Lexer LexerProofs Ast Parser ParserProofs.

Inductive FieldType : Type := FString | FInt | FBool | FBytes.

#[global] Instance FieldType_eq_dec : EqDecision FieldType.
Proof. solve_decision. Defined.

(** [FieldType::parse]. *)
Definition FieldType_parse (s : string) : option FieldType :=
  match to_ascii_uppercase s with
  | "STRING" => Some FString
  | "INT" => Some FInt
  | "BOOL" => Some FBool
  | "BYTES" => Some FBytes
  | _ => None
  end.

Inductive DdlStatement : Type :=
| CreateCollection (name : string) (keys : list (string * FieldType))
| CreateIndex (collection path : string) (field_type : FieldType)
| DropIndex (collection path : string).

Module Ddl.
Import Parse.

Definition name_kind (k : TokenKind) : bool :=
  match k with KIdent _ | KCollection | KIndex | KKey | KPath => true | _ => false end.

Definition expect_name : M string :=
  t ← current;
  match kind t with
  | KIdent s => _ ← bump; mret s
  | KString s => _ ← bump; mret s
  | k =>
      if name_kind k then _ ← bump; slice (tok_offset t) (tok_end t)
      else error "expected identifier"
  end.

Definition expect_path : M string :=
  first ← expect_name;
  fuel ← tokens_fuel;
  parts ← loop fuel (fun parts =>
    dot ← check KDot;
    if (dot : bool) then
      _ ← bump;
      n ← expect_name;
      mret (inl (parts ++ [n]))
    else mret (inr parts)) [first];
  mret (String.concat "." parts).

Definition expect_type : M FieldType :=
  k ← current_kind;
  ty ← match k with
       | KTyString => mret FString
       | KTyInt => mret FInt
       | KTyBool => mret FBool
       | KTyBytes => mret FBytes
       | KIdent s =>
           match FieldType_parse s with
           | Some ty => mret ty
           | None => error ("unknown type '" +:+ s +:+ "'")
           end
       | _ => error "expected STRING, INT, BOOL, or BYTES"
       end;
  _ ← bump;
  mret ty.

Definition parse_create_collection : M DdlStatement :=
  _ ← expect KCollection;
  name ← expect_name;
  _ ← expect KKey;
  fuel ← tokens_fuel;
  keys ← loop fuel (fun keys =>
    path ← expect_path;
    ty ← expect_type;
    comma_or_break (keys ++ [(path, ty)])) [];
  mret (CreateCollection name keys).

(** The path after [PATH]: a string or a dotted name. *)
Definition path_argument : M string :=
  k ← current_kind;
  match k with
  | KString s => _ ← bump; mret s
  | _ => expect_path
  end.

Definition parse_create_index : M DdlStatement :=
  _ ← expect KIndex;
  _ ← expect KOn;
  collection ← expect_name;
  paren ← check KLParen;
  keyword ← check KPath;
  if (paren : bool) then
    _ ← bump;
    path ← expect_path;
    _ ← expect KRParen;
    mret (CreateIndex collection path FString)
  else if (keyword : bool) then
    _ ← bump;
    path ← path_argument;
    _ ← expect KTypeKw;
    ty ← expect_type;
    mret (CreateIndex collection path ty)
  else error ("expected (path) or PATH " +:+ dq +:+ "…" +:+ dq +:+ " TYPE …").

Definition parse_drop_index : M DdlStatement :=
  _ ← expect KOn;
  collection ← expect_name;
  paren ← check KLParen;
  keyword ← check KPath;
  if (paren : bool) then
    _ ← bump;
    path ← expect_path;
    _ ← expect KRParen;
    mret (DropIndex collection path)
  else if (keyword : bool) then
    _ ← bump;
    path ← path_argument;
    mret (DropIndex collection path)
  else error "expected (path) or PATH after DROP INDEX ON".

Definition parse_statement : M DdlStatement :=
  k ← current_kind;
  match k with
  | KCreate =>
      _ ← bump;
      k ← current_kind;
      match k with
      | KCollection => parse_create_collection
      | KIndex => parse_create_index
      | _ => error "expected COLLECTION or INDEX after CREATE"
      end
  | KDrop =>
      _ ← bump;
      _ ← expect KIndex;
      parse_drop_index
  | _ => error "expected CREATE or DROP"
  end.

Definition parse_migration_loop : M (list DdlStatement) :=
  fuel ← tokens_fuel;
  loop fuel (fun stmts =>
    eof ← is_eof;
    if (eof : bool) then mret (inr stmts)
    else
      semi ← check KSemicolon;
      if (semi : bool) then _ ← bump; mret (inl stmts)
      else
        s ← parse_statement;
        semi ← check KSemicolon;
        _ ← (if (semi : bool) then _ ← bump; mret tt else mret tt);
        mret (inl (stmts ++ [s]))) [].

(** [parse_migration]. *)
Definition parse_migration (source : string) : outcome ParseError (list DdlStatement) :=
  tokens ← Lex.tokenize (Lex.new source);
  (parse_migration_loop (new source tokens)).1.

End Ddl.

Example parses_collection_and_indexes :
  Ddl.parse_migration ("CREATE COLLECTION items KEY id STRING; CREATE INDEX ON items (id);
     CREATE INDEX ON items PATH meta.prefs TYPE int; DROP INDEX ON items PATH " +:+ dq
     +:+ "a.b" +:+ dq) =
  Ok [CreateCollection "items" [("id", FString)]; CreateIndex "items" "id" FString;
      CreateIndex "items" "meta.prefs" FInt; DropIndex "items" "a.b"].
Proof. vm_compute. reflexivity. Qed.

(** ** The migration parser returns on every source *)

Section ddl.
Context (lim : nat).

#[global] Instance ddl_name_advances : Advances lim Ddl.expect_name.
Proof. by pstart Ddl.expect_name. Qed.

#[global] Instance ddl_path_advances : Advances lim Ddl.expect_path.
Proof. pstart Ddl.expect_path. Qed.

#[global] Instance ddl_type_advances : Advances lim Ddl.expect_type.
Proof. pstart Ddl.expect_type. Qed.

#[global] Instance ddl_path_argument_advances : Advances lim Ddl.path_argument.
Proof. pstart Ddl.path_argument. Qed.

#[global] Instance ddl_collection_advances : Advances lim Ddl.parse_create_collection.
Proof. pstart Ddl.parse_create_collection. pcomma. Qed.

#[global] Instance ddl_create_index_advances : Advances lim Ddl.parse_create_index.
Proof. pstart Ddl.parse_create_index. Qed.

#[global] Instance ddl_drop_index_advances : Advances lim Ddl.parse_drop_index.
Proof. pstart Ddl.parse_drop_index. Qed.

#[global] Instance ddl_statement_advances : Advances lim Ddl.parse_statement.
Proof. pstart Ddl.parse_statement. Qed.

#[global] Instance migration_loop_stays : Stays lim Ddl.parse_migration_loop.
Proof. pstart Ddl.parse_migration_loop. Qed.

End ddl.

Lemma parse_migration_returns source :
  utf8_valid source = true -> returns (Ddl.parse_migration source).
Proof.
  intros Hv. apply parser_returns; [|done]. intros ps Hok. eapply wp_returns.
  eapply (stays (lim := length (tokens ps))); [done|lia].
Qed.

(** Parsing a migration file is total: statements or an error for every source. *)
Theorem parse_migration_total source :
  utf8_valid source = true -> returns (Ddl.parse_migration source).
Proof.
  apply parse_migration_returns.
Qed.

Lemma parse_migration_total_witness : returns (Ddl.parse_migration "CREATE INDEX ON").
Proof. apply (parse_migration_total "CREATE INDEX ON"). vm_compute. reflexivity. Defined.
