(* ===== verification/Value.v ===== *)
(** * Runtime values, documents and paths ([epochql/src/exec/value.rs], [schema/path.rs])

    A document, the [BTreeMap<String, Value>] read from a trie, is a [gmap]; a map inside a
    value is a [btree]. *)

From Stdlib Require Import Strings.Byte Floats.SpecFloat.
From S2P Require Import Prelude Utf8 Chars Lexer Text BTree.

Inductive Value : Type :=
| VNull
| VBool (b : bool)
| VInt (n : Z)
| VFloat (f : f64)
| VString (s : string)
| VMap (m : btree Value).

(** [PartialEq for Value]: floats are compared by IEEE. *)
Fixpoint value_eq (a b : Value) : bool :=
  match a, b with
  | VNull, VNull => true
  | VBool x, VBool y => Bool.eqb x y
  | VInt x, VInt y => x =? y
  | VFloat x, VFloat y => SFeqb x y
  | VString x, VString y => String.eqb x y
  | VMap m, VMap n =>
      (fix go (m n : btree Value) : bool :=
         match m, n with
         | [], [] => true
         | (k, v) :: m, (k', v') :: n => String.eqb k k' && value_eq v v' && go m n
         | _, _ => false
         end) m n
  | _, _ => false
  end.

(** The same on [Option<Value>]. *)
Definition option_value_eq (a b : option Value) : bool :=
  match a, b with
  | Some a, Some b => value_eq a b
  | None, None => true
  | _, _ => false
  end.

Definition from_bytes (bytes : list byte) : Value := VString (from_utf8_lossy bytes).

Definition bool_bytes (b : bool) : list byte := str_bytes (if b then "true" else "false").

Definition to_storage_bytes (v : Value) : outcome string (list byte) :=
  match v with
  | VNull => Ok []
  | VBool b => Ok (bool_bytes b)
  | VInt n => Ok (str_bytes (pretty n))
  | VFloat n => Ok (str_bytes (f64_to_string n))
  | VString s => Ok (str_bytes s)
  | VMap _ => Err "cannot store nested maps as a single HAMT value yet"
  end.

Definition is_truthy (v : Value) : bool :=
  match v with
  | VNull => false
  | VBool b => b
  | VInt n => negb (n =? 0)
  | VFloat n => negb (SFeqb n (S754_zero false))
  | VString s => negb (String.eqb s EmptyString)
  | VMap m => negb (bool_decide (length m = 0%nat))
  end.

(** [Display for Value]. *)
Fixpoint value_to_string (v : Value) : string :=
  match v with
  | VNull => "null"
  | VBool b => if b then "true" else "false"
  | VInt n => pretty n
  | VFloat n => f64_to_string n
  | VString s => s
  | VMap m =>
      "{" +:+ String.concat ", " ((fun '(k, v) => k +:+ ": " +:+ value_to_string v) <$> m) +:+ "}"
  end.

Record QueryResult := mk_QueryResult { columns : list string; rows : list (list Value) }.

Definition empty : QueryResult := mk_QueryResult [] [].

Record MutationResult := mk_MutationResult { summary : string; result_hash : option string }.

Inductive ExecResult :=
| RQuery (q : QueryResult)
| RMutation (m : MutationResult).

Definition writeln (s : string) : string := s +:+ bytes_str [as_u8 10].

(** [Display for ExecResult]. *)
Definition exec_result_to_string (r : ExecResult) : string :=
  match r with
  | RQuery q =>
      if bool_decide (columns q = []) then "(no columns)"
      else
        let header := String.concat " | " (columns q) in
        writeln header +:+
        writeln (bytes_str (replicate (length (str_bytes header)) "-"%byte)) +:+
        String.concat EmptyString
          ((fun row => writeln (String.concat " | " (value_to_string <$> row))) <$> rows q) +:+
        "(" +:+ pretty (length (rows q)) +:+ " row(s))"
  | RMutation m =>
      summary m +:+ match result_hash m with Some h => " [" +:+ h +:+ "]" | None => EmptyString end
  end.

(** ** Documents and paths *)

Abbreviation Doc := (gmap string Value).

Definition flatten_entries (entries : list (list byte * list byte)) : Doc :=
  foldl (fun map '(k, v) => <[from_utf8_lossy k := from_bytes v]> map) ∅ entries.

(** The loop of [extract_path] over the parts after the first. *)
Fixpoint walk_path (current : Value) (parts : list string) : option Value :=
  match parts with
  | [] => Some current
  | part :: parts =>
      match current with
      | VMap m => match btree_get part m with Some v => walk_path v parts | None => None end
      | _ => None
      end
  end.

Definition path_parts (path : string) : list string :=
  filter (fun p => String.eqb p EmptyString = false) (split_dots path).

Definition extract_path (doc : Doc) (path : string) : option Value :=
  match doc !! path with
  | Some v => Some v
  | None =>
      match path_parts path with
      | [] => None
      | first :: parts => doc !! first ≫= fun v => walk_path v parts
      end
  end.

Definition value_to_index_key (value : Value) : option (list byte) :=
  match value with
  | VNull => None
  | VBool b => Some (bool_bytes b)
  | VInt n => Some (str_bytes (pretty n))
  | VFloat n => Some (str_bytes (f64_to_string n))
  | VString s => Some (str_bytes s)
  | VMap _ => None
  end.

Example extracts :
  let doc : Doc := <["meta" := VMap [("prefs", VMap [("theme", VString "light")])]]>
                   (<["a.b" := VInt 1]> ∅) in
  (extract_path doc "meta.prefs.theme", extract_path doc "a.b", extract_path doc ".meta..prefs",
   extract_path doc "meta.x", extract_path doc "a.b.c") =
  (Some (VString "light"), Some (VInt 1), Some (VMap [("theme", VString "light")]), None, None).
Proof. vm_compute. reflexivity. Qed.

Example prints :
  exec_result_to_string (RQuery (mk_QueryResult ["a"; "b"]
    [[VInt (-1); VMap [("x", VNull); ("y", VBool true)]]])) =
  writeln "a | b" +:+ writeln "-----" +:+ writeln "-1 | {x: null, y: true}" +:+ "(1 row(s))".
Proof. vm_compute. reflexivity. Qed.

(** ** Induction over values, through the maps *)

Section value_ind.
Context (P : Value -> Prop).
Context (Hnull : P VNull) (Hbool : forall b, P (VBool b)) (Hint : forall n, P (VInt n)).
Context (Hfloat : forall f, P (VFloat f)) (Hstring : forall s, P (VString s)).
Context (Hmap : forall m, Forall (fun kv => P kv.2) m -> P (VMap m)).

Fixpoint Value_ind' (v : Value) : P v :=
  match v with
  | VNull => Hnull
  | VBool b => Hbool b
  | VInt n => Hint n
  | VFloat f => Hfloat f
  | VString s => Hstring s
  | VMap m =>
      Hmap m ((fix go m : Forall (fun kv => P kv.2) m :=
                 match m with
                 | [] => List.Forall_nil _
                 | kv :: m => List.Forall_cons _ _ _ (Value_ind' kv.2) (go m)
                 end) m)
  end.
End value_ind.

(** ** Lemmas *)

(** The document of entries whose bytes are texts is the map of the entries. *)
Lemma flatten_entries_lookup (m : gmap (list byte) (list byte)) l key :
  l ≡ₚ map_to_list m ->
  (forall k v, m !! k = Some v -> utf8_valid (bytes_str k) = true) ->
  flatten_entries l !! key = from_bytes <$> m !! str_bytes key.
Proof.
  intros Hl Hu.
  assert (NoDup l.*1) as Hn by (rewrite Hl; apply NoDup_fst_map_to_list).
  assert (forall e, e ∈ l -> m !! e.1 = Some e.2) as Hin.
  { intros [k v] He. rewrite Hl in He. by apply elem_of_map_to_list in He. }
  assert (forall l (d : Doc), (forall e, e ∈ l -> m !! e.1 = Some e.2) -> NoDup l.*1 ->
    foldl (fun map '(k, v) => <[from_utf8_lossy k := from_bytes v]> map) d l !! key =
      match (list_to_map l : gmap (list byte) (list byte)) !! str_bytes key with
      | Some v => Some (from_bytes v)
      | None => d !! key
      end) as Hfold.
  { clear Hl Hn Hin l. intros l. induction l as [|[k v] l IH]; intros d Hin Hn; [done|].
    cbn [fmap list_fmap fst] in Hn. apply NoDup_cons in Hn as [Hk Hn].
    cbn [foldl list_to_map foldr fst snd].
    fold (list_to_map (M := gmap (list byte) (list byte)) l).
    rewrite IH; [|intros e He; apply Hin; by right|done].
    assert (from_utf8_lossy k = bytes_str k) as ->.
    { rewrite <- (str_bytes_str k) at 1. apply from_utf8_lossy_valid.
      eapply (Hu k v), (Hin (k, v)). by left. }
    destruct (decide (str_bytes key = k)) as [<-|Hne].
    - rewrite lookup_insert_eq, bytes_str_bytes.
      rewrite (not_elem_of_list_to_map_1 _ _ Hk). by rewrite lookup_insert_eq.
    - rewrite (lookup_insert_ne (list_to_map l) k) by done.
      case_match; [done|]. apply lookup_insert_ne. intros <-. by rewrite str_bytes_str in Hne. }
  unfold flatten_entries. rewrite Hfold by done.
  replace (list_to_map l : gmap (list byte) (list byte)) with m; [by destruct (m !! _)|].
  rewrite <- (list_to_map_to_list m). apply list_to_map_proper; [by rewrite Hl in Hn|by symmetry].
Qed.
