(* ===== verification/Schema.v ===== *)
(** * The schema registry and its migrations ([epochql/src/schema/registry.rs],
    [schema/migrate.rs])

    The files of a repository the schema uses are a record of their contents; the entries
    of the directory [migrations] are files whose names are texts. *)

From Stdlib Require Import Strings.Byte Strings.String.
From S2P Require Import Prelude Utf8 Chars Lexer Text BTree Parser Ddl Repo.

Record FieldDef := mk_FieldDef { field_path : string; field_type : FieldType }.
Record IndexDef := mk_IndexDef { index_name : string; index_path : string; index_type : FieldType }.

Record CollectionSchema := mk_CollectionSchema {
  coll_name : string;
  primary_key : list FieldDef;
  indexes : list IndexDef
}.

Record SchemaRegistry := mk_SchemaRegistry { collections : gmap string CollectionSchema }.

(** The files [schema.state] and [schema.lock] and the directory [migrations]. *)
Record SchemaFiles := mk_SchemaFiles {
  schema_state : option (list byte);
  schema_lock : option (list byte);
  migrations : option (gmap string (list byte))
}.

Definition newline_str : string := bytes_str [as_u8 10].

(** [Display for FieldType]. *)
Definition FieldType_to_string (t : FieldType) : string :=
  match t with
  | FString => "STRING" | FInt => "INT" | FBool => "BOOL" | FBytes => "BYTES"
  end.

(** [index_name_for] ([schema/index.rs]). *)
Definition index_name_for (collection path : string) : string :=
  collection +:+ ".by_" +:+ replace_dots path.

Module Registry.

Definition new : SchemaRegistry := mk_SchemaRegistry ∅.

(** The closure [err] of [parse]. *)
Definition err (lineno : nat) (msg : string) : ParseError :=
  Error.at_offset 0 (Text ("schema.state line " +:+ pretty (lineno + 1)%nat +:+ ": " +:+ msg)).

Definition parse_type (lineno : nat) (ty : string) : outcome ParseError FieldType :=
  ok_or (err lineno ("unknown type '" +:+ ty +:+ "'")) (FieldType_parse ty).

Definition push_key (f : FieldDef) (c : CollectionSchema) : CollectionSchema :=
  mk_CollectionSchema (coll_name c) (primary_key c ++ [f]) (indexes c).
Definition push_index (i : IndexDef) (c : CollectionSchema) : CollectionSchema :=
  mk_CollectionSchema (coll_name c) (primary_key c) (indexes c ++ [i]).

Definition parse_collection (e : string -> ParseError) (rest : list string)
    (st : SchemaRegistry * option string) : outcome ParseError (SchemaRegistry * option string) :=
  name ← ok_or (e "expected collection name") (rest !! 0%nat);
  Ok (mk_SchemaRegistry (<[name := mk_CollectionSchema name [] []]> (collections st.1)), Some name).

Definition parse_key (lineno : nat) (rest : list string)
    (st : SchemaRegistry * option string) : outcome ParseError (SchemaRegistry * option string) :=
  let e := err lineno in
  coll ← ok_or (e "KEY outside COLLECTION") st.2;
  path ← ok_or (e "expected KEY path") (rest !! 0%nat);
  ty ← ok_or (e "expected KEY type") (rest !! 1%nat);
  field_type ← parse_type lineno ty;
  c ← ok_or (e "missing collection") (collections st.1 !! coll);
  Ok (mk_SchemaRegistry (<[coll := push_key (mk_FieldDef path field_type) c]> (collections st.1)),
      st.2).

Definition parse_index (lineno : nat) (rest : list string)
    (st : SchemaRegistry * option string) : outcome ParseError (SchemaRegistry * option string) :=
  let e := err lineno in
  name ← ok_or (e "expected INDEX name") (rest !! 0%nat);
  if bool_decide (rest !! 1%nat ≠ Some "PATH") then Err (e "expected PATH after index name") else
  path ← ok_or (e "expected index path") (rest !! 2%nat);
  if bool_decide (rest !! 3%nat ≠ Some "TYPE") then Err (e "expected TYPE after path") else
  ty ← ok_or (e "expected type") (rest !! 4%nat);
  field_type ← parse_type lineno ty;
  coll ← ok_or (e "invalid index name") (head (split_dots name));
  let entry := default (mk_CollectionSchema coll [] []) (collections st.1 !! coll) in
  Ok (mk_SchemaRegistry
        (<[coll := push_index (mk_IndexDef name path field_type) entry]> (collections st.1)), st.2).

(** The body of the loop of [parse] on the words of a line. *)
Definition parse_directive (lineno : nat) (parts : list string)
    (st : SchemaRegistry * option string) : outcome ParseError (SchemaRegistry * option string) :=
  match parts with
  | [] => Ok st
  | directive :: rest =>
      if String.eqb directive "COLLECTION" then parse_collection (err lineno) rest st
      else if String.eqb directive "KEY" then parse_key lineno rest st
      else if String.eqb directive "INDEX" then parse_index lineno rest st
      else Err (err lineno ("unknown directive '" +:+ directive +:+ "'"))
  end.

Definition skipped_line (line : list Z) : bool :=
  match line with [] => true | c :: _ => c =? 35 end.

Definition parse_line (lineno : nat) (raw : list Z)
    (st : SchemaRegistry * option string) : outcome ParseError (SchemaRegistry * option string) :=
  let line := trim_chars raw in
  if skipped_line line then Ok st
  else parse_directive lineno (text <$> split_whitespace line) st.

Fixpoint parse_lines (lineno : nat) (ls : list (list Z))
    (st : SchemaRegistry * option string) : outcome ParseError (SchemaRegistry * option string) :=
  match ls with
  | [] => Ok st
  | raw :: ls => st ← parse_line lineno raw st; parse_lines (S lineno) ls st
  end.

Definition parse (contents : string) : outcome ParseError SchemaRegistry :=
  st ← parse_lines 0 (lines (chars_of contents)) (new, None);
  Ok st.1.

Definition state_header : string :=
  "# epochs schema.state — generated; prefer .eql migrations" +:+ newline_str.

Definition key_line (k : FieldDef) : string :=
  "KEY " +:+ field_path k +:+ " " +:+ FieldType_to_string (field_type k) +:+ newline_str.
Definition index_line (i : IndexDef) : string :=
  "INDEX " +:+ index_name i +:+ " PATH " +:+ index_path i +:+ " TYPE " +:+
    FieldType_to_string (index_type i) +:+ newline_str.

(** The lines of one collection. *)
Definition coll_lines (c : CollectionSchema) : list string :=
  ("COLLECTION " +:+ coll_name c +:+ newline_str)
    :: (key_line <$> primary_key c) ++ (index_line <$> indexes c).

Definition to_state_file (r : SchemaRegistry) : string :=
  state_header +:+
  String.concat EmptyString ((btree_entries (collections r)).*2 ≫= coll_lines).

Definition all_indexes (r : SchemaRegistry) : list IndexDef :=
  (btree_entries (collections r)).*2 ≫= indexes.

(** [fs::read_to_string] of a file of the schema. *)
Definition read_text (what : string) (contents : list byte) : outcome ParseError string :=
  match from_utf8 contents with
  | Ok s => Ok s
  | _ => Err (Error.new ("read " +:+ what +:+ ": " +:+ bad_utf8_msg))
  end.

Definition load (fs : SchemaFiles) : outcome ParseError SchemaRegistry :=
  match schema_state fs with
  | None => Ok new
  | Some contents =>
      txt ← read_text "schema.state" contents;
      parse txt
  end.

Definition save (r : SchemaRegistry) (fs : SchemaFiles) : SchemaFiles :=
  mk_SchemaFiles (Some (str_bytes (to_state_file r))) (schema_lock fs) (migrations fs).

End Registry.

(** ** Migrations *)

Record MigrationReport := mk_MigrationReport {
  applied : list string;
  skipped : list string;
  report_schema : SchemaRegistry
}.

Module Migrate.

Definition already_exists (what : string) : ParseError := Error.new (what +:+ " already exists").

Definition unknown_collection (collection : string) : ParseError :=
  Error.new ("unknown collection '" +:+ collection +:+ "'").

Definition set_indexes (l : list IndexDef) (c : CollectionSchema) : CollectionSchema :=
  mk_CollectionSchema (coll_name c) (primary_key c) l.

(** The body of the loop of [apply_statements]. *)
Definition apply_statement (stmt : DdlStatement) (schema : SchemaRegistry) :
    outcome ParseError SchemaRegistry :=
  match stmt with
  | CreateCollection name keys =>
      if bool_decide (is_Some (collections schema !! name)) then
        Err (already_exists ("collection '" +:+ name +:+ "'"))
      else
        let primary_key := (fun '(path, ty) => mk_FieldDef path ty) <$> keys in
        Ok (mk_SchemaRegistry
              (<[name := mk_CollectionSchema name primary_key []]> (collections schema)))
  | CreateIndex collection path field_type =>
      coll ← ok_or (unknown_collection collection) (collections schema !! collection);
      let name := index_name_for collection path in
      if bool_decide (name ∈ index_name <$> indexes coll) then
        Err (already_exists ("index '" +:+ name +:+ "'"))
      else
        let coll := set_indexes (indexes coll ++ [mk_IndexDef name path field_type]) coll in
        Ok (mk_SchemaRegistry (<[collection := coll]> (collections schema)))
  | DropIndex collection path =>
      coll ← ok_or (unknown_collection collection) (collections schema !! collection);
      let name := index_name_for collection path in
      let kept := filter (fun i => index_name i ≠ name /\ index_path i ≠ path) (indexes coll) in
      if bool_decide (length kept = length (indexes coll)) then
        Err (Error.new ("index on '" +:+ collection +:+ "." +:+ path +:+ "' not found"))
      else Ok (mk_SchemaRegistry (<[collection := set_indexes kept coll]> (collections schema)))
  end.

Fixpoint apply_statements (stmts : list DdlStatement) (schema : SchemaRegistry) :
    outcome ParseError SchemaRegistry :=
  match stmts with
  | [] => Ok schema
  | stmt :: stmts => schema ← apply_statement stmt schema; apply_statements stmts schema
  end.

(** [path.extension() == Some("eql")]: a dot that is not the first character, then [eql]. *)
Definition is_eql (name : string) : bool :=
  let l := str_bytes name in
  let stem := take (length l - 4) l in
  bool_decide (drop (length l - 4) l = str_bytes ".eql") && negb (bool_decide (stem = [])).

Definition list_migration_files (dir : gmap string (list byte)) : list (string * list byte) :=
  filter (fun e => is_eql e.1 = true) (btree_entries dir).

Definition read_lock (fs : SchemaFiles) : outcome ParseError (list string) :=
  match schema_lock fs with
  | None => Ok []
  | Some contents =>
      txt ← Registry.read_text "schema.lock" contents;
      Ok (text <$> filter (fun l => Registry.skipped_line l = false)
                     (trim_chars <$> lines (chars_of txt)))
  end.

Definition lock_header : string :=
  "# epochs schema.lock — applied migrations (do not edit)" +:+ newline_str.

Definition lock_file (names : list string) : string :=
  lock_header +:+ String.concat EmptyString ((fun name => name +:+ newline_str) <$> names).

Definition write_lock (names : list string) (fs : SchemaFiles) : SchemaFiles :=
  mk_SchemaFiles (schema_state fs) (Some (str_bytes (lock_file names))) (migrations fs).

(** The variables of the loop of [migrate]. *)
Record Run := mk_Run {
  run_lock : list string;
  run_schema : SchemaRegistry;
  newly_applied : list string;
  run_skipped : list string
}.

Definition migrate_file (file : string * list byte) (run : Run) : outcome ParseError Run :=
  let '(name, contents) := file in
  if bool_decide (name ∈ run_lock run) then
    Ok (mk_Run (run_lock run) (run_schema run) (newly_applied run) (run_skipped run ++ [name]))
  else
    source ← Registry.read_text ("migration " +:+ name) contents;
    stmts ← Ddl.parse_migration source;
    schema ← apply_statements stmts (run_schema run);
    Ok (mk_Run (run_lock run ++ [name]) schema (newly_applied run ++ [name]) (run_skipped run)).

Fixpoint migrate_files (files : list (string * list byte)) (run : Run) : outcome ParseError Run :=
  match files with
  | [] => Ok run
  | file :: files => run ← migrate_file file run; migrate_files files run
  end.

Definition create_migrations_dir (fs : SchemaFiles) : SchemaFiles :=
  mk_SchemaFiles (schema_state fs) (schema_lock fs) (Some (default ∅ (migrations fs))).

(** What [migrate] reads and computes, before it writes. *)
Definition plan (fs : SchemaFiles) : outcome ParseError Run :=
  lock ← read_lock fs;
  schema ← Registry.load fs;
  migrate_files (list_migration_files (default ∅ (migrations fs))) (mk_Run lock schema [] []).

Definition migrate : stM SchemaFiles ParseError MigrationReport :=
  _ ← modify create_migrations_dir;
  run ← (fun fs => (plan fs, fs));
  _ ← modify (write_lock (run_lock run));
  _ ← modify (Registry.save (run_schema run));
  mret (mk_MigrationReport (newly_applied run) (run_skipped run) (run_schema run)).

End Migrate.

Definition ex_files : SchemaFiles :=
  mk_SchemaFiles None None (Some (list_to_map
    [("002_theme.eql", str_bytes ("CREATE INDEX ON items PATH " +:+ dq +:+ "meta.prefs.theme" +:+
                                  dq +:+ " TYPE STRING;"));
     ("001_init.eql", str_bytes "CREATE COLLECTION items KEY id STRING;
        CREATE INDEX ON items (id);");
     ("notes.txt", str_bytes "x")])).

Example migrates_idempotently :
  let '(r, fs) := Migrate.migrate ex_files in
  let '(r2, fs2) := Migrate.migrate fs in
  (applied <$> r, index_name <$> default [] (match r with Ok p => Some (Registry.all_indexes (report_schema p)) | _ => None end),
   applied <$> r2, skipped <$> r2, bool_decide (schema_state fs = schema_state fs2)) =
  (Ok ["001_init.eql"; "002_theme.eql"], ["items.by_id"; "items.by_meta_prefs_theme"],
   Ok [], Ok ["001_init.eql"; "002_theme.eql"], true).
Proof. vm_compute. reflexivity. Qed.
