(* ===== verification/SchemaSpec.v ===== *)
(** * What the schema files and the migrations guarantee

    A registry whose names are words is written to [schema.state] and read back; migrations
    keep a registry well formed, run each file once, and change the files of the schema only
    when every pending migration succeeds. *)

From Stdlib Require Import Strings.Byte Strings.String.
From S2P Require Import Prelude Utf8 Chars Lexer Text BTree Parser ParserProofs Ddl Repo Schema.

(** ** Lines of the state file *)

Lemma literal_word s :
  utf8_valid s && negb (bool_decide (chars_of s = []))
    && forallb (fun c => negb (is_whitespace c)) (chars_of s) = true -> word s.
Proof.
  intros [[Hv Hn]%andb_true_iff Hw]%andb_true_iff. split; [done|]. split.
  - by apply negb_true_iff, bool_decide_eq_false in Hn.
  - apply Forall_forall. intros c Hc%list_elem_of_In.
    apply List.forallb_forall with (x := c) in Hw; [|done]. by destruct (is_whitespace c).
Qed.

Lemma field_type_word t : word (FieldType_to_string t).
Proof. destruct t; by apply literal_word. Qed.

(** Words and valid strings made of literals, types and words at hand. *)
Ltac one_word := first [assumption | apply field_type_word | apply literal_word; reflexivity].
Ltac all_words := repeat (apply List.Forall_cons; [one_word|]); apply List.Forall_nil.
Ltac utf8 :=
  repeat apply utf8_valid_app; first [reflexivity | apply word_valid; one_word].

Lemma FieldType_parse_to_string t : FieldType_parse (FieldType_to_string t) = Some t.
Proof. by destruct t. Qed.

Lemma words_line_chars ws : Forall word ws -> line_chars (unwords (chars_of <$> ws)).
Proof.
  intros H. split.
  - induction H as [|w ws [_ [_ Hw]] _ IH]; [constructor|].
    assert (Forall (fun c => c ≠ 10) (chars_of w)) as Hc.
    { eapply Forall_impl; [exact Hw|]. by intros c ? ->. }
    cbn [fmap list_fmap unwords] in *. destruct (chars_of <$> ws); [done|].
    apply Forall_app. split; [done|]. by constructor.
  - intros E. by apply (proj2 (trimmed_unwords _ (words_chars _ H))) in E.
Qed.

(** A line of words is read as its words. *)
Lemma parse_line_words n w ws st :
  Forall word (w :: ws) -> head (chars_of w) ≠ Some 35 ->
  Registry.parse_line n (unwords (chars_of <$> w :: ws)) st = Registry.parse_directive n (w :: ws) st.
Proof.
  intros H Hc. unfold Registry.parse_line.
  rewrite trim_chars_id by (by apply trimmed_unwords, words_chars).
  assert (Registry.skipped_line (unwords (chars_of <$> w :: ws)) = false) as ->.
  { apply Forall_cons in H as [[_ [Hn _]] _]. cbn [fmap list_fmap].
    assert (head (unwords (chars_of w :: (chars_of <$> ws))) = head (chars_of w)) as Hh
      by (by destruct (chars_of w), (chars_of <$> ws)).
    rewrite <- Hh in Hc. unfold Registry.skipped_line.
    destruct (unwords _) as [|c l]; [|by apply Z.eqb_neq; intros ->].
    cbn in Hh. by destruct (chars_of w). }
  by rewrite split_words.
Qed.

Lemma newline_line ws s :
  Forall word ws -> utf8_valid s = true -> chars_of s = unwords (chars_of <$> ws) ->
  chars_of (s +:+ newline_str) = unwords (chars_of <$> ws) ++ [10].
Proof. intros H Hv E. rewrite chars_of_app by first [assumption|reflexivity]. by rewrite E. Qed.

Ltac line_words :=
  repeat rewrite chars_of_app by utf8; cbn [fmap list_fmap unwords];
  repeat first [rewrite <- List.app_comm_cons | rewrite <- List.app_assoc]; reflexivity.

(** The words of the lines of a collection. *)
Definition key_words (k : FieldDef) : list string :=
  ["KEY"; field_path k; FieldType_to_string (field_type k)].
Definition index_words (i : IndexDef) : list string :=
  ["INDEX"; index_name i; "PATH"; index_path i; "TYPE"; FieldType_to_string (index_type i)].
Definition coll_words (c : CollectionSchema) : list (list string) :=
  ["COLLECTION"; coll_name c] :: (key_words <$> primary_key c) ++ (index_words <$> indexes c).

(** The collections [schema.state] can hold under the name [k]. *)
Record coll_printable (k : string) (c : CollectionSchema) : Prop := {
  cp_name : coll_name c = k;
  cp_word : word k;
  cp_keys : Forall (fun f => word (field_path f)) (primary_key c);
  cp_indexes : Forall (fun i => word (index_name i) /\ word (index_path i) /\
                                head (split_dots (index_name i)) = Some k) (indexes c)
}.

Definition printable (r : SchemaRegistry) : Prop := map_Forall coll_printable (collections r).

Lemma coll_words_ok k c : coll_printable k c -> Forall (Forall word) (coll_words c).
Proof.
  intros [<- Hk Hkeys Hidx]. constructor; [all_words|].
  apply Forall_app. split; apply Forall_fmap.
  - eapply Forall_impl; [exact Hkeys|]. intros f Hf. unfold key_words, index_words; all_words.
  - eapply Forall_impl; [exact Hidx|]. intros i (? & ? & _). unfold key_words, index_words; all_words.
Qed.

Lemma coll_lines_chars k c :
  coll_printable k c ->
  Forall (fun l => utf8_valid l = true) (Registry.coll_lines c) /\
  chars_of <$> Registry.coll_lines c = (fun ws => unwords (chars_of <$> ws) ++ [10]) <$> coll_words c.
Proof.
  intros [<- Hk Hkeys Hidx]. unfold Registry.coll_lines, coll_words. split.
  - constructor; [utf8|]. apply Forall_app. split; apply Forall_fmap.
    + eapply Forall_impl; [exact Hkeys|]. intros f Hf. unfold Registry.key_line. utf8.
    + eapply Forall_impl; [exact Hidx|]. intros i (? & ? & _). unfold Registry.index_line. utf8.
  - cbn [fmap list_fmap]. f_equal; [line_words|]. rewrite !fmap_app. f_equal.
    + rewrite <- !list_fmap_compose. apply Forall_fmap_ext_1.
      eapply Forall_impl; [exact Hkeys|]. intros f Hf. unfold compose, Registry.key_line, key_words. line_words.
    + rewrite <- !list_fmap_compose. apply Forall_fmap_ext_1.
      eapply Forall_impl; [exact Hidx|]. intros i (? & ? & _). unfold compose, Registry.index_line, index_words.
      line_words.
Qed.

(** ** Reading the lines back *)

Definition line_of (ws : list string) : list Z := unwords (chars_of <$> ws).

Lemma parse_lines_cons n w ws ls st :
  Forall word (w :: ws) -> head (chars_of w) ≠ Some 35 ->
  Registry.parse_lines n (line_of (w :: ws) :: ls) st =
    (st ← Registry.parse_directive n (w :: ws) st; Registry.parse_lines (S n) ls st).
Proof.
  intros H Hc. cbn [Registry.parse_lines]. unfold line_of. by rewrite parse_line_words.
Qed.

Lemma parse_lines_app n a b st :
  Registry.parse_lines n (a ++ b) st =
    (st ← Registry.parse_lines n a st; Registry.parse_lines (n + length a) b st).
Proof.
  revert n st. induction a as [|l a IH]; intros n st; cbn [app Registry.parse_lines length].
  { cbn. by rewrite Nat.add_0_r. }
  destruct (Registry.parse_line n l st) as [st'| | |]; try done. cbn [mbind outcome_bind].
  rewrite IH. by rewrite Nat.add_succ_comm.
Qed.

Lemma parse_keys n k l ks m :
  Forall (fun f => word (field_path f)) l ->
  Registry.parse_lines n (line_of <$> (key_words <$> l))
    (mk_SchemaRegistry (<[k := mk_CollectionSchema k ks []]> m), Some k) =
  Ok (mk_SchemaRegistry (<[k := mk_CollectionSchema k (ks ++ l) []]> m), Some k).
Proof.
  intros H. revert n ks. induction H as [|f l Hf _ IH]; intros n ks; cbn [fmap list_fmap].
  { by rewrite app_nil_r. }
  unfold key_words at 1.
  rewrite parse_lines_cons; [|all_words|done].
  unfold Registry.parse_directive, Registry.parse_key, Registry.parse_type. cbn.
  rewrite FieldType_parse_to_string. cbn. rewrite lookup_insert_eq. cbn.
  rewrite insert_insert_eq. unfold Registry.push_key. cbn.
  destruct f as [p t]. cbn. etrans; [apply IH|]. by rewrite <- (assoc_L (++)).
Qed.

Lemma parse_indexes n k l ks is0 m :
  Forall (fun i => word (index_name i) /\ word (index_path i) /\
                   head (split_dots (index_name i)) = Some k) l ->
  Registry.parse_lines n (line_of <$> (index_words <$> l))
    (mk_SchemaRegistry (<[k := mk_CollectionSchema k ks is0]> m), Some k) =
  Ok (mk_SchemaRegistry (<[k := mk_CollectionSchema k ks (is0 ++ l)]> m), Some k).
Proof.
  intros H. revert n is0. induction H as [|i l (Hn & Hp & Hh) _ IH]; intros n is0; cbn [fmap list_fmap].
  { by rewrite app_nil_r. }
  unfold index_words at 1.
  rewrite parse_lines_cons; [|all_words|done].
  unfold Registry.parse_directive, Registry.parse_index, Registry.parse_type. cbn.
  rewrite FieldType_parse_to_string. cbn. rewrite Hh. cbn. rewrite lookup_insert_eq. cbn.
  rewrite insert_insert_eq. unfold Registry.push_index. cbn.
  destruct i as [nm p t]. cbn. etrans; [apply IH|]. by rewrite <- (assoc_L (++)).
Qed.

Lemma parse_coll n k c m cur :
  coll_printable k c ->
  Registry.parse_lines n (line_of <$> coll_words c) (mk_SchemaRegistry m, cur) =
    Ok (mk_SchemaRegistry (<[k := c]> m), Some k).
Proof.
  intros [<- Hk Hkeys Hidx]. unfold coll_words. cbn [fmap list_fmap]. rewrite fmap_app.
  rewrite parse_lines_cons; [|all_words|done].
  unfold Registry.parse_directive, Registry.parse_collection. cbn [mbind outcome_bind ok_or].
  change (String.eqb "COLLECTION" "COLLECTION") with true. cbn [lookup list_lookup fst].
  cbn [ok_or mbind outcome_bind collections].
  rewrite parse_lines_app, parse_keys by done. cbn [mbind outcome_bind].
  rewrite parse_indexes by done. cbn [app]. by destruct c.
Qed.

Lemma parse_colls l n m cur :
  Forall (fun e => coll_printable e.1 e.2) l -> NoDup l.*1 ->
  Forall (fun e => m !! e.1 = None) l ->
  exists cur', Registry.parse_lines n (line_of <$> (l.*2 ≫= coll_words)) (mk_SchemaRegistry m, cur) =
    Ok (mk_SchemaRegistry (list_to_map l ∪ m), cur').
Proof.
  intros Hl. revert n m cur. induction Hl as [|[k c] l Hc Hl IH]; intros n m cur Hn Hm.
  { exists cur. cbn. by rewrite (left_id_L ∅ (∪)). }
  cbn [fmap list_fmap fst snd] in *. apply NoDup_cons in Hn as [Hk Hn].
  apply Forall_cons in Hm as [Hmk Hm]. cbn [fst] in Hmk.
  rewrite bind_cons, fmap_app, parse_lines_app, (parse_coll _ k) by done.
  cbn [mbind outcome_bind].
  destruct (IH (n + length (line_of <$> coll_words c))%nat (<[k := c]> m) (Some k)) as [cur' E].
  - done.
  - rewrite Forall_forall in Hm |- *. intros [k' c'] He. cbn [fst].
    rewrite lookup_insert_ne; [by apply (Hm (k', c'))|]. intros <-. apply Hk, list_elem_of_fmap. by exists (k, c').
  - exists cur'. etrans; [exact E|]. do 3 f_equal. cbn [list_to_map foldr fst snd].
    rewrite <- insert_union_l. rewrite <- insert_union_r; [done|].
    by apply not_elem_of_list_to_map.
Qed.

Lemma bind_words l :
  Forall (fun e => coll_printable e.1 e.2) l ->
  Forall (fun s => utf8_valid s = true) (l.*2 ≫= Registry.coll_lines) /\
  chars_of <$> (l.*2 ≫= Registry.coll_lines) = (fun ws => line_of ws ++ [10]) <$> (l.*2 ≫= coll_words) /\
  Forall (Forall word) (l.*2 ≫= coll_words).
Proof.
  induction 1 as [|[k c] l Hc _ (IH1 & IH2 & IH3)]; [by split_and!; constructor|].
  cbn [fmap list_fmap snd]. rewrite !bind_cons, !fmap_app.
  destruct (coll_lines_chars k c Hc) as [H1 H2].
  split_and!; [by apply Forall_app|by rewrite IH2, H2|].
  apply Forall_app. split; [by eapply coll_words_ok|done].
Qed.

Lemma chars_of_concat ls :
  Forall (fun s => utf8_valid s = true) ls ->
  utf8_valid (String.concat EmptyString ls) = true /\
  chars_of (String.concat EmptyString ls) = (chars_of <$> ls) ≫= id.
Proof.
  assert (forall s ls, String.concat EmptyString (s :: ls) = s +:+ String.concat EmptyString ls) as Hc.
  { intros s [|s' l]; [|done]. cbn. apply (inj str_bytes). by rewrite str_bytes_app, app_nil_r. }
  induction 1 as [|s l Hs _ [IH1 IH2]]; [done|]. rewrite Hc. split; [by apply utf8_valid_app|].
  rewrite chars_of_app by done. by rewrite IH2.
Qed.

(** A file of a comment and lines of words. *)
Lemma lines_of_file header body ls :
  Forall (fun s => utf8_valid s = true) body -> utf8_valid header = true ->
  line_chars (chars_of header) ->
  chars_of <$> body = (fun l => l ++ [10]) <$> ls -> Forall line_chars ls ->
  utf8_valid ((header +:+ newline_str) +:+ String.concat EmptyString body) = true /\
  lines (chars_of ((header +:+ newline_str) +:+ String.concat EmptyString body)) =
    chars_of header :: ls.
Proof.
  intros Hb Hh Hhl Hbl Hls. destruct (chars_of_concat body Hb) as [Hv Hc].
  assert (utf8_valid (header +:+ newline_str) = true) by (by apply utf8_valid_app).
  split; [by apply utf8_valid_app|].
  rewrite chars_of_app, chars_of_app, Hc, Hbl by done.
  rewrite <- (lines_concat (chars_of header :: ls)) by (by constructor).
  f_equal. rewrite bind_cons. f_equal. clear. induction ls as [|l ls IH]; [done|].
  cbn [fmap list_fmap] in *. rewrite !bind_cons. by rewrite IH.
Qed.

(** ** The files *)

Lemma header_lines :
  line_chars (chars_of "# epochs schema.state — generated; prefer .eql migrations") /\
  line_chars (chars_of "# epochs schema.lock — applied migrations (do not edit)").
Proof.
  split; (split; [apply (bool_decide_unpack _); by vm_compute|by vm_compute]).
Qed.

Lemma header_skipped n st :
  Registry.parse_line n
    (chars_of "# epochs schema.state — generated; prefer .eql migrations") st = Ok st.
Proof.
  unfold Registry.parse_line.
  assert (Registry.skipped_line (trim_chars (chars_of
    "# epochs schema.state — generated; prefer .eql migrations")) = true) as ->; [|done].
  by vm_compute.
Qed.

Lemma printable_entries r :
  printable r -> Forall (fun e => coll_printable e.1 e.2) (btree_entries (collections r)).
Proof. intros H. apply Forall_forall. intros [k c] He%btree_entries_elem. by apply H. Qed.

Lemma state_file_parse r :
  printable r ->
  utf8_valid (Registry.to_state_file r) = true /\
  Registry.parse (Registry.to_state_file r) = Ok r.
Proof.
  intros Hp%printable_entries. destruct (bind_words _ Hp) as (Hv & Hc & Hw).
  destruct (lines_of_file "# epochs schema.state — generated; prefer .eql migrations"
    ((btree_entries (collections r)).*2 ≫= Registry.coll_lines)
    (line_of <$> ((btree_entries (collections r)).*2 ≫= coll_words))) as [Hvalid Hlines].
  - exact Hv.
  - reflexivity.
  - exact (proj1 header_lines).
  - rewrite Hc. by rewrite <- list_fmap_compose.
  - apply Forall_fmap. eapply Forall_impl; [exact Hw|]. intros ws Hws. by apply words_line_chars.
  - split; [exact Hvalid|]. unfold Registry.parse, Registry.to_state_file, Registry.state_header.
    rewrite Hlines. cbn [Registry.parse_lines]. rewrite header_skipped.
    cbn [mbind outcome_bind].
    destruct (parse_colls _ 1 ∅ None Hp (btree_entries_nodup _)) as [cur E].
    { apply Forall_forall. intros e _. apply lookup_empty. }
    unfold Registry.new. rewrite E. cbn [mbind outcome_bind fst].
    rewrite (right_id_L ∅ (∪)), list_to_map_btree_entries. by destruct r.
Qed.

Lemma load_saved r fs : printable r -> schema_state fs = Some (str_bytes (Registry.to_state_file r)) ->
  Registry.load fs = Ok r.
Proof.
  intros [Hv Hp]%state_file_parse E. unfold Registry.load, Registry.read_text.
  by rewrite E, from_utf8_valid.
Qed.

(** The names of files [schema.lock] can hold. *)
Record lock_name (n : string) : Prop := {
  ln_valid : utf8_valid n = true;
  ln_trimmed : trimmed (chars_of n);
  ln_line : Forall (fun c => c ≠ 10) (chars_of n);
  ln_kept : Registry.skipped_line (chars_of n) = false
}.

Lemma lock_line_chars n : lock_name n -> line_chars (chars_of n).
Proof. intros [_ [_ Ht] Hl _]. split; [done|]. intros E. by apply Ht in E. Qed.

Lemma read_written_lock names fs :
  Forall lock_name names -> schema_lock fs = Some (str_bytes (Migrate.lock_file names)) ->
  Migrate.read_lock fs = Ok names.
Proof.
  intros Hn E. unfold Migrate.read_lock, Registry.read_text. rewrite E.
  assert (Forall (fun s => utf8_valid s = true) ((fun n => n +:+ newline_str) <$> names)) as Hv.
  { apply Forall_fmap. eapply Forall_impl; [exact Hn|]. intros n []. by apply utf8_valid_app. }
  destruct (lines_of_file "# epochs schema.lock — applied migrations (do not edit)"
    ((fun n => n +:+ newline_str) <$> names) (chars_of <$> names)) as [Hvalid Hlines].
  - exact Hv.
  - reflexivity.
  - exact (proj2 header_lines).
  - rewrite <- !list_fmap_compose. apply Forall_fmap_ext_1.
    eapply Forall_impl; [exact Hn|]. intros n []. cbn [compose].
    rewrite chars_of_app by done. done.
  - apply Forall_fmap. eapply Forall_impl; [exact Hn|]. apply lock_line_chars.
  - rewrite from_utf8_valid by exact Hvalid. cbn [mbind outcome_bind].
    unfold Migrate.lock_file, Migrate.lock_header. rewrite Hlines. cbn [fmap list_fmap].
    rewrite filter_cons_False by done. f_equal. clear Hlines Hvalid Hv E.
    induction Hn as [|n names [Hv Ht Hl Hk] _ IH]; [done|]. cbn [fmap list_fmap] in *.
    rewrite trim_chars_id by done. rewrite filter_cons_True by done. cbn [fmap list_fmap].
    rewrite IH. by rewrite (proj2 (utf8_valid_text n Hv)).
Qed.

(** C16: A registry whose names and paths are words, and whose indexes belong to their
    collection by the first part of their name, survives a restart: the text written to
    [schema.state] is parsed back to the same registry, whatever else the files hold. *)
Theorem registry_roundtrip (r : SchemaRegistry) (fs : SchemaFiles) :
  printable r -> Registry.load (Registry.save r fs) = Ok r.
Proof. intros H. by apply load_saved. Qed.

(** ** The schema of a run *)

(** The indexes of a registry: collection, path and type. *)
Definition has_index (r : SchemaRegistry) (k p : string) (t : FieldType) : Prop :=
  exists c i, collections r !! k = Some c /\ i ∈ indexes c /\ index_path i = p /\ index_type i = t.

(** A well-formed collection [k]: its indexes have the names of their paths, all different. *)
Record coll_wf (k : string) (c : CollectionSchema) : Prop := {
  cw_name : coll_name c = k;
  cw_names : Forall (fun i => index_name i = index_name_for k (index_path i)) (indexes c);
  cw_distinct : NoDup (index_name <$> indexes c)
}.

Definition schema_wf (r : SchemaRegistry) : Prop := map_Forall coll_wf (collections r).

Lemma schema_wf_insert r k c :
  schema_wf r -> coll_wf k c -> schema_wf (mk_SchemaRegistry (<[k := c]> (collections r))).
Proof. intros Hr Hc. by apply map_Forall_insert_2. Qed.

Lemma has_index_insert r k c k' p t :
  has_index (mk_SchemaRegistry (<[k := c]> (collections r))) k' p t <->
  (k' = k /\ exists i, i ∈ indexes c /\ index_path i = p /\ index_type i = t) \/
  (k' ≠ k /\ has_index r k' p t).
Proof.
  unfold has_index. cbn [collections]. split.
  - intros (c' & i & Hc & Hi & Hp & Ht). destruct (decide (k' = k)) as [->|Hk].
    + rewrite lookup_insert_eq in Hc. injection Hc as <-. left. eauto.
    + rewrite lookup_insert_ne in Hc by done. right. eauto 10.
  - intros [[-> (i & Hi & Hp & Ht)]|[Hk (c' & i & Hc & H)]].
    + exists c, i. by rewrite lookup_insert_eq.
    + exists c', i. by rewrite lookup_insert_ne.
Qed.

(** The registry with one collection changed in its indexes only. *)
Definition reindexed (r r' : SchemaRegistry) (k : string) (f : list IndexDef -> list IndexDef) : Prop :=
  exists c c', collections r !! k = Some c /\ collections r' = <[k := c']> (collections r) /\
    coll_name c' = coll_name c /\ primary_key c' = primary_key c /\ indexes c' = f (indexes c).

(** What a statement does to a registry: the collections, all their fields included, and what
    that means for the indexes. *)
Definition statement_effect (stmt : DdlStatement) (r r' : SchemaRegistry) : Prop :=
  match stmt with
  | CreateCollection name keys =>
      collections r !! name = None /\
      collections r' = <[name := mk_CollectionSchema name ((fun '(p, t) => mk_FieldDef p t) <$> keys) []]>
                        (collections r)
  | CreateIndex coll path ty =>
      reindexed r r' coll
        (fun l => l ++ [mk_IndexDef (coll +:+ ".by_" +:+ replace_dots path) path ty]) /\
      forall k p t, has_index r' k p t <->
        has_index r k p t \/ (k = coll /\ p = path /\ t = ty)
  | DropIndex coll path =>
      reindexed r r' coll
        (filter (fun i => replace_dots (index_path i) ≠ replace_dots path)) /\
      (exists p t, has_index r coll p t /\ replace_dots p = replace_dots path) /\
      forall k p t, has_index r' k p t <->
        has_index r k p t /\ ~ (k = coll /\ replace_dots p = replace_dots path)
  end.

(** When a statement is refused. *)
Definition statement_refused (stmt : DdlStatement) (r : SchemaRegistry) : Prop :=
  match stmt with
  | CreateCollection name _ => is_Some (collections r !! name)
  | CreateIndex coll path _ =>
      collections r !! coll = None \/
      exists p t, has_index r coll p t /\ replace_dots p = replace_dots path
  | DropIndex coll path =>
      collections r !! coll = None \/
      forall p t, has_index r coll p t -> replace_dots p ≠ replace_dots path
  end.

Lemma index_name_inj k p q :
  index_name_for k p = index_name_for k q -> replace_dots p = replace_dots q.
Proof.
  unfold index_name_for. intros E%(f_equal str_bytes). rewrite !str_bytes_app in E.
  do 2 apply app_inv_head in E. by apply (inj str_bytes).
Qed.

Lemma create_index_step r k c path ty :
  schema_wf r -> collections r !! k = Some c ->
  index_name_for k path ∉ index_name <$> indexes c ->
  let r' := mk_SchemaRegistry (<[k := Migrate.set_indexes
    (indexes c ++ [mk_IndexDef (index_name_for k path) path ty]) c]> (collections r)) in
  schema_wf r' /\ statement_effect (CreateIndex k path ty) r r'.
Proof.
  intros Hr Hc Hn r'. pose proof (Hr k c Hc) as [Ek Hnames Hd]. split; [|split].
  - apply schema_wf_insert; [done|]. split; cbn.
    + done.
    + apply Forall_app. split; [done|]. by repeat constructor.
    + rewrite fmap_app. apply NoDup_app. split_and!; [done| |by apply NoDup_singleton].
      cbn. intros n Hin ->%list_elem_of_singleton. done.
  - by eexists c, _.
  - intros k' p t. unfold r'. rewrite has_index_insert. cbn [Migrate.set_indexes indexes].
    unfold has_index. setoid_rewrite elem_of_app. setoid_rewrite list_elem_of_singleton.
    destruct (decide (k' = k)) as [->|Hk]; [|naive_solver].
    split.
    + intros [[_ (i & [Hi| ->] & <- & <-)]|[? _]]; [left|by right|done]. eauto 10.
    + intros [(c' & i & Hc' & Hi & <- & <-)|(_ & -> & ->)]; left; (split; [done|]).
      * assert (c' = c) as -> by congruence. eauto.
      * eexists. split; [by right|done].
Qed.

Lemma drop_index_step r k c path :
  schema_wf r -> collections r !! k = Some c ->
  let kept := filter (fun i => index_name i ≠ index_name_for k path /\ index_path i ≠ path)
                (indexes c) in
  let r' := mk_SchemaRegistry (<[k := Migrate.set_indexes kept c]> (collections r)) in
  length kept ≠ length (indexes c) ->
  schema_wf r' /\ statement_effect (DropIndex k path) r r'.
Proof.
  intros Hr Hc kept r' Hlen. pose proof (Hr k c Hc) as [Ek Hnames Hd].
  assert (forall i, i ∈ indexes c ->
    (index_name i ≠ index_name_for k path /\ index_path i ≠ path) <->
    replace_dots (index_path i) ≠ replace_dots path) as Hdrop.
  { intros i Hi. rewrite Forall_forall in Hnames. rewrite (Hnames i Hi). split.
    - intros [H _] E. apply H. unfold index_name_for. by rewrite E.
    - intros H. split; [by intros E%index_name_inj|intros E; apply H; by rewrite E]. }
  split; [|split; [|split]].
  - apply schema_wf_insert; [done|]. split; cbn.
    + done.
    + rewrite Forall_forall in Hnames |- *. intros i [_ Hi]%list_elem_of_filter. auto.
    + eapply sublist_NoDup; [exact Hd|]. apply fmap_sublist, sublist_filter.
  - eexists c, _. split_and!; try done. by apply filter_ext_elem.
  - destruct (decide (Forall (fun i => index_name i ≠ index_name_for k path /\ index_path i ≠ path)
      (indexes c))) as [Hall|Hex].
    + exfalso. apply Hlen. unfold kept. f_equal. by apply filter_all.
    + apply not_Forall_Exists in Hex; [|apply _]. apply Exists_exists in Hex as (i & Hi & Hn).
      exists (index_path i), (index_type i). split; [by exists c, i|].
      apply dec_stable. intros H. by apply Hn, Hdrop.
  - intros k' p t. unfold r'. rewrite has_index_insert. cbn [Migrate.set_indexes indexes].
    unfold has_index, kept. setoid_rewrite list_elem_of_filter.
    destruct (decide (k' = k)) as [->|Hk]; [|naive_solver].
    split.
    + intros [[_ (i & [Hk Hi] & <- & <-)]|[? _]]; [|done].
      split; [eauto 10|]. intros [_ E]. by apply Hdrop in Hk.
    + intros [(c' & i & Hc' & Hi & <- & <-) Hn]. left. split; [done|].
      assert (c' = c) as -> by congruence. exists i. split; [split; [|done]|done].
      apply Hdrop; [done|]. intros E. by apply Hn.
Qed.

(** C17: A well-formed registry stays well formed under every DDL statement, and the
    statement has exactly its effect: creating a collection adds it, with its keys and without
    indexes; creating an index appends it to the indexes of its collection, and dropping one
    removes the indexes whose path has the same name, while the name and the keys of that
    collection and every other collection stay as they are. A statement is refused, and only
    then, when the collection or the index exists already, or is missing. *)
Theorem apply_statement_typed (stmt : DdlStatement) (r : SchemaRegistry) :
  schema_wf r ->
  match Migrate.apply_statement stmt r with
  | Ok r' => schema_wf r' /\ statement_effect stmt r r'
  | Err _ => statement_refused stmt r
  | _ => False
  end.
Proof.
  intros Hr. destruct stmt as [name keys|k path ty|k path]; cbn [Migrate.apply_statement].
  - case_bool_decide as Hn; [done|]. apply eq_None_not_Some in Hn.
    split; [|done]. apply schema_wf_insert; [done|]. by split; try constructor.
  - destruct (collections r !! k) as [c|] eqn:Hc; [|by left]. cbn [ok_or mbind outcome_bind].
    case_bool_decide as Hn; [right|by apply create_index_step].
    apply list_elem_of_fmap in Hn as (i & E & Hi).
    pose proof (Hr k c Hc) as [_ Hnames _]. rewrite Forall_forall in Hnames.
    rewrite (Hnames i Hi) in E. exists (index_path i), (index_type i).
    split; [by exists c, i|]. symmetry. by eapply index_name_inj.
  - destruct (collections r !! k) as [c|] eqn:Hc; [|by left]. cbn [ok_or mbind outcome_bind].
    case_bool_decide as Hl; [right|by apply drop_index_step].
    intros p t (c' & i & Hc' & Hi & <- & <-) E. assert (c' = c) as -> by congruence.
    revert Hl. apply Nat.lt_neq, (length_filter_lt _ _ i); [done|].
    intros [Hn _]. apply Hn. pose proof (Hr k c Hc) as [_ Hnames _].
    rewrite Forall_forall in Hnames. rewrite (Hnames i Hi). unfold index_name_for. by rewrite E.
Qed.

(** ** Runs *)

(** The pending migrations, one after the other. *)
Fixpoint apply_migrations (files : list (string * list byte)) (r : SchemaRegistry) :
    outcome ParseError SchemaRegistry :=
  match files with
  | [] => Ok r
  | (name, contents) :: files =>
      source ← Registry.read_text ("migration " +:+ name) contents;
      stmts ← Ddl.parse_migration source;
      r ← Migrate.apply_statements stmts r;
      apply_migrations files r
  end.

Lemma apply_statements_returns stmts r : returns (Migrate.apply_statements stmts r).
Proof.
  revert r. induction stmts as [|stmt stmts IH]; intros r; [done|]. cbn [Migrate.apply_statements].
  assert (returns (Migrate.apply_statement stmt r)) as Hr.
  { destruct stmt; cbn [Migrate.apply_statement]; repeat case_match; try done;
      destruct (collections r !! _); cbn; repeat case_match; done. }
  destruct (Migrate.apply_statement stmt r) as [r'| | |]; try done. apply IH.
Qed.

Lemma apply_migrations_returns files r : returns (apply_migrations files r).
Proof.
  revert r. induction files as [|[name contents] files IH]; intros r; [done|].
  cbn [apply_migrations]. unfold Registry.read_text.
  destruct (from_utf8 contents) as [s| | |] eqn:E; try done. apply from_utf8_Ok in E as [_ Hv].
  cbn [mbind outcome_bind].
  pose proof (parse_migration_returns s Hv) as Hp.
  destruct (Ddl.parse_migration s) as [stmts| | |]; try done. cbn [mbind outcome_bind].
  pose proof (apply_statements_returns stmts r) as Hs.
  destruct (Migrate.apply_statements stmts r) as [r'| | |]; try done. apply IH.
Qed.

Lemma migrate_files_eq files lock r app skip :
  NoDup files.*1 ->
  Migrate.migrate_files files (Migrate.mk_Run lock r app skip) =
    (r' ← apply_migrations (filter (fun f => f.1 ∉ lock) files) r;
     Ok (Migrate.mk_Run (lock ++ (filter (fun f => f.1 ∉ lock) files).*1) r'
          (app ++ (filter (fun f => f.1 ∉ lock) files).*1)
          (skip ++ (filter (fun f => f.1 ∈ lock) files).*1))).
Proof.
  revert lock r app skip. induction files as [|[name contents] files IH]; intros lock r app skip Hn.
  { cbn. by rewrite !app_nil_r. }
  cbn [fmap list_fmap fst] in Hn. apply NoDup_cons in Hn as [Hname Hn].
  cbn [Migrate.migrate_files Migrate.migrate_file Migrate.run_lock].
  case_bool_decide as Hl.
  - cbn [mbind outcome_bind Migrate.run_lock Migrate.run_schema Migrate.newly_applied Migrate.run_skipped].
    rewrite (filter_cons_False (fun f => f.1 ∉ lock)) by (cbn; tauto).
    rewrite (filter_cons_True (fun f => f.1 ∈ lock)) by done.
    rewrite IH by done. cbn [fmap list_fmap fst]. by rewrite <- (assoc_L (++)).
  - rewrite (filter_cons_True (fun f => f.1 ∉ lock)) by done.
    rewrite (filter_cons_False (fun f => f.1 ∈ lock)) by done.
    cbn [apply_migrations]. destruct (Registry.read_text _ _) as [s| | |]; try done.
    cbn [mbind outcome_bind]. destruct (Ddl.parse_migration s) as [stmts| | |]; try done.
    cbn [mbind outcome_bind Migrate.run_lock Migrate.run_schema Migrate.newly_applied Migrate.run_skipped].
    destruct (Migrate.apply_statements stmts r) as [r'| | |]; try done. cbn [mbind outcome_bind].
    rewrite IH by done.
    assert (forall f, f ∈ files -> f.1 ≠ name) as Hne.
    { intros f Hf E. apply Hname. rewrite <- E. by apply list_elem_of_fmap_2. }
    assert (filter (fun f => f.1 ∉ lock ++ [name]) files = filter (fun f => f.1 ∉ lock) files) as ->.
    { apply filter_ext_elem. intros f Hf. rewrite elem_of_app, list_elem_of_singleton.
      specialize (Hne f Hf). tauto. }
    assert (filter (fun f => f.1 ∈ lock ++ [name]) files = filter (fun f => f.1 ∈ lock) files) as ->.
    { apply filter_ext_elem. intros f Hf. rewrite elem_of_app, list_elem_of_singleton.
      specialize (Hne f Hf). tauto. }
    cbn [fmap list_fmap fst]. by rewrite <- !(assoc_L (++)).
Qed.

Definition eql_files (fs : SchemaFiles) : list (string * list byte) :=
  Migrate.list_migration_files (default ∅ (migrations fs)).

Definition pending (lock : list string) (fs : SchemaFiles) : list (string * list byte) :=
  filter (fun f => f.1 ∉ lock) (eql_files fs).

Lemma eql_files_nodup fs : NoDup (eql_files fs).*1.
Proof.
  eapply sublist_NoDup; [apply (btree_entries_nodup (default ∅ (migrations fs)))|].
  apply fmap_sublist, sublist_filter.
Qed.

Lemma migrate_eq fs lock r :
  Migrate.read_lock fs = Ok lock -> Registry.load fs = Ok r ->
  Migrate.migrate fs =
    match apply_migrations (pending lock fs) r with
    | Ok r' =>
        (Ok (mk_MigrationReport (pending lock fs).*1
               (filter (fun f => f.1 ∈ lock) (eql_files fs)).*1 r'),
         Registry.save r' (Migrate.write_lock (lock ++ (pending lock fs).*1)
           (Migrate.create_migrations_dir fs)))
    | Err e => (Err e, Migrate.create_migrations_dir fs)
    | Panic => (Panic, Migrate.create_migrations_dir fs)
    | OutOfFuel => (OutOfFuel, Migrate.create_migrations_dir fs)
    end.
Proof.
  intros Hlock Hload. unfold Migrate.migrate, Migrate.plan. rewrite stM_bind_eq. cbn [modify].
  rewrite stM_bind_eq.
  change (Migrate.read_lock (Migrate.create_migrations_dir fs)) with (Migrate.read_lock fs).
  change (Registry.load (Migrate.create_migrations_dir fs)) with (Registry.load fs).
  rewrite Hlock, Hload. cbn [mbind outcome_bind Migrate.create_migrations_dir migrations default].
  unfold pending. change (Migrate.list_migration_files (default ∅ (migrations fs))) with (eql_files fs).
  rewrite migrate_files_eq by apply eql_files_nodup.
  by destruct (apply_migrations _ r).
Qed.

(** The migration files whose names have the property [P], in the order of their names. *)
Definition eql_name (n : string) : Prop := exists stem, stem ≠ EmptyString /\ n = stem +:+ ".eql".

Record in_order (fs : SchemaFiles) (P : string -> Prop) (files : list (string * list byte)) : Prop := {
  order_sorted : StronglySorted String.le files.*1;
  order_once : NoDup files.*1;
  order_elem : forall n c, (n, c) ∈ files <->
    default ∅ (migrations fs) !! n = Some c /\ eql_name n /\ P n
}.

Lemma is_eql_name n : Migrate.is_eql n = true <-> eql_name n.
Proof.
  unfold Migrate.is_eql, eql_name. rewrite andb_true_iff, negb_true_iff, bool_decide_eq_true, bool_decide_eq_false.
  split.
  - intros [Hd Ht]. exists (bytes_str (take (length (str_bytes n) - 4) (str_bytes n))). split.
    + intros E%(f_equal str_bytes). by rewrite str_bytes_str in E.
    + apply (inj str_bytes). rewrite str_bytes_app, str_bytes_str, <- Hd. by rewrite take_drop.
  - intros (stem & Hs & ->). rewrite str_bytes_app, length_app.
    change (length (str_bytes ".eql")) with 4%nat. rewrite Nat.add_sub, drop_app_length, take_app_length.
    split; [done|]. intros E. apply Hs. by apply (inj str_bytes).
Qed.

Lemma eql_files_in_order fs (P : string -> Prop) (Q : string * list byte -> Prop)
    `{forall f, Decision (Q f)} :
  (forall f, Q f <-> P f.1) -> in_order fs P (filter Q (eql_files fs)).
Proof.
  intros HQ. split.
  - apply key_sorted_names. unfold eql_files, Migrate.list_migration_files.
    do 2 apply StronglySorted_filter. apply btree_entries_sorted.
  - eapply sublist_NoDup; [apply (eql_files_nodup fs)|]. apply fmap_sublist, sublist_filter.
  - intros n c. unfold eql_files, Migrate.list_migration_files.
    rewrite !list_elem_of_filter, btree_entries_elem, HQ. cbn [fst]. rewrite is_eql_name. tauto.
Qed.

(** C15: [migrate] runs the pending migrations - the files of [migrations/] with a name before
    [.eql] that [schema.lock] does not list - in the order of their names, each once, on the
    schema of [schema.state]. When all of them succeed it appends their names to [schema.lock],
    writes the resulting schema and reports the names, as applied, and those of the recorded
    files, in order, as skipped; when one does not, its error is returned and neither file is
    touched, so that no prefix of the migrations is half applied. The migration files stay. *)
Theorem migrate_atomic (fs : SchemaFiles) (lock : list string) (r : SchemaRegistry) :
  Migrate.read_lock fs = Ok lock -> Registry.load fs = Ok r ->
  exists todo old, in_order fs (fun n => n ∉ lock) todo /\ in_order fs (fun n => n ∈ lock) old /\
  match apply_migrations todo r with
  | Ok r' =>
      exists fs', Migrate.migrate fs = (Ok (mk_MigrationReport todo.*1 old.*1 r'), fs') /\
      schema_state fs' = Some (str_bytes (Registry.to_state_file r')) /\
      schema_lock fs' = Some (str_bytes (Migrate.lock_file (lock ++ todo.*1))) /\
      migrations fs' = Some (default ∅ (migrations fs))
  | Err e =>
      exists fs', Migrate.migrate fs = (Err e, fs') /\
        schema_state fs' = schema_state fs /\ schema_lock fs' = schema_lock fs /\
        migrations fs' = Some (default ∅ (migrations fs))
  | _ => False
  end.
Proof.
  intros Hlock Hload. exists (pending lock fs), (filter (fun f => f.1 ∈ lock) (eql_files fs)).
  split; [by apply eql_files_in_order|].
  split; [by apply eql_files_in_order|].
  pose proof (migrate_eq fs lock r Hlock Hload) as E.
  pose proof (apply_migrations_returns (pending lock fs) r) as Hr.
  destruct (apply_migrations _ r) as [r'|e| |]; try done; eexists; by split_and!.
Qed.

(** Statements whose names [schema.state] can hold. *)
Definition dot_free (s : string) : Prop := Forall (fun c => (46 =? c) = false) (chars_of s).

Definition statement_ok (stmt : DdlStatement) : Prop :=
  match stmt with
  | CreateCollection name keys => word name /\ Forall (fun k => word k.1) keys
  | CreateIndex coll path _ => dot_free coll /\ word path
  | DropIndex _ _ => True
  end.

Lemma index_name_head k p :
  word k -> word p -> dot_free k -> head (split_dots (index_name_for k p)) = Some k.
Proof.
  intros [Hk _] [Hp _] Hd. destruct (replace_dots_chars p Hp) as [Hr _].
  unfold split_dots, index_name_for. rewrite chars_of_app; [|done|by apply utf8_valid_app].
  rewrite chars_of_app by done. change (chars_of ".by_") with [46; 98; 121; 95].
  cbn [app]. rewrite split_chars_app; [|done|done]. cbn.
  by rewrite (proj2 (utf8_valid_text k Hk)).
Qed.

Lemma apply_statement_printable stmt r r' :
  printable r -> statement_ok stmt -> Migrate.apply_statement stmt r = Ok r' -> printable r'.
Proof.
  intros Hr Hs. destruct stmt as [name keys|k path ty|k path]; cbn [Migrate.apply_statement].
  - destruct Hs as [Hn Hk]. case_bool_decide; [done|]. intros [= <-].
    apply map_Forall_insert_2; [|done]. split; [done|done| |constructor]. cbn.
    apply Forall_fmap. eapply Forall_impl; [exact Hk|]. by intros [p t].
  - destruct Hs as [Hd Hp]. destruct (collections r !! k) as [c|] eqn:Hc; [|done].
    cbn [ok_or mbind outcome_bind]. case_bool_decide; [done|]. intros [= <-].
    pose proof (Hr k c Hc) as [En Hk Hkeys Hidx].
    apply map_Forall_insert_2; [|done]. split; [done|done|done|]. cbn.
    apply Forall_app. split; [done|]. constructor; [|constructor]. cbn. split_and!; [|done|].
    + unfold index_name_for. repeat apply word_app; [done|by apply literal_word|].
      by apply replace_dots_word.
    + by apply index_name_head.
  - destruct (collections r !! k) as [c|] eqn:Hc; [|done].
    cbn [ok_or mbind outcome_bind]. case_bool_decide; [done|]. intros [= <-].
    pose proof (Hr k c Hc) as [En Hk Hkeys Hidx].
    apply map_Forall_insert_2; [|done]. split; [done|done|done|]. cbn.
    rewrite Forall_forall in Hidx |- *. intros i [_ Hi]%list_elem_of_filter. by apply Hidx.
Qed.

Lemma apply_statements_printable stmts r r' :
  printable r -> Forall statement_ok stmts -> Migrate.apply_statements stmts r = Ok r' ->
  printable r'.
Proof.
  intros Hr Hs. revert r Hr. induction Hs as [|stmt stmts Hst _ IH]; intros r Hr.
  { by intros [= <-]. }
  cbn [Migrate.apply_statements]. intros (r1 & E1 & E)%outcome_bind_Ok.
  eapply IH; [|exact E]. by eapply apply_statement_printable.
Qed.

(** A migration file that the files of the schema can record. *)
Definition file_ok (f : string * list byte) : Prop :=
  lock_name f.1 /\
  forall source stmts, from_utf8 f.2 = Ok source -> Ddl.parse_migration source = Ok stmts ->
    Forall statement_ok stmts.

Lemma apply_migrations_printable files r r' :
  printable r -> Forall file_ok files -> apply_migrations files r = Ok r' -> printable r'.
Proof.
  intros Hr Hf. revert r Hr. induction Hf as [|[name contents] files [_ Hst] _ IH]; intros r Hr.
  { by intros [= <-]. }
  cbn [apply_migrations].
  intros (source & E1 & (stmts & E2 & (r1 & E3 & E)%outcome_bind_Ok)%outcome_bind_Ok)%outcome_bind_Ok.
  eapply IH; [|exact E]. eapply apply_statements_printable; [exact Hr| |exact E3].
  eapply Hst; [|exact E2]. unfold Registry.read_text in E1. cbn [snd].
  destruct (from_utf8 contents); try done. congruence.
Qed.

Lemma filter_none {A} (P : A -> Prop) `{forall x, Decision (P x)} (l : list A) :
  (forall x, x ∈ l -> ~ P x) -> filter P l = [].
Proof.
  induction l as [|x l IH]; intros Hn; [done|].
  rewrite filter_cons_False by (apply Hn; by left). apply IH. intros y Hy. apply Hn. by right.
Qed.

(** A run after every file has been recorded only rewrites the files. *)
Lemma migrate_nothing fs lock r :
  Migrate.read_lock fs = Ok lock -> Registry.load fs = Ok r ->
  (forall f, f ∈ eql_files fs -> f.1 ∈ lock) ->
  Migrate.migrate fs =
    (Ok (mk_MigrationReport [] (eql_files fs).*1 r),
     Registry.save r (Migrate.write_lock lock (Migrate.create_migrations_dir fs))).
Proof.
  intros Hlock Hload Hall. rewrite (migrate_eq fs lock r Hlock Hload).
  assert (pending lock fs = []) as -> by (apply filter_none; intros f Hf; by auto).
  cbn [apply_migrations fmap list_fmap]. rewrite app_nil_r, filter_all; [done|].
  by apply Forall_forall.
Qed.

Lemma recorded_all lock fs f : f ∈ eql_files fs -> f.1 ∈ lock ++ (pending lock fs).*1.
Proof.
  intros Hf. apply elem_of_app. destruct (decide (f.1 ∈ lock)); [by left|right].
  apply list_elem_of_fmap_2, list_elem_of_filter. by split.
Qed.

Lemma recorded_names lock fs :
  Forall lock_name lock -> Forall file_ok (eql_files fs) ->
  Forall lock_name (lock ++ (pending lock fs).*1).
Proof.
  intros Hl Hf. apply Forall_app. split; [done|]. apply Forall_fmap, Forall_forall.
  intros f [_ Hin]%list_elem_of_filter. rewrite Forall_forall in Hf. by apply Hf.
Qed.

(** C36: Migrating is idempotent where the files of the schema can hold what was applied: the
    lines of [schema.state] are cut at blanks and at the first dot, those of [schema.lock] are
    trimmed. Let the names of the collections, fields and indexes of the loaded schema be words
    without blanks, and those of the collections with an index have no dot ([printable]); let
    the pending migrations name only such ([file_ok]); and let the names of the migration files
    be lines that are not trimmed, empty or comments ([lock_name]). Then, after a successful
    run, a second run applies nothing, reports every file as skipped and the same schema, and
    leaves the files as they are. Without it this fails: [dotted_collection_not_read_back]. *)
Theorem migrate_idempotent (fs fs' : SchemaFiles) (lock : list string) (r : SchemaRegistry)
    (report : MigrationReport) :
  Migrate.read_lock fs = Ok lock -> Registry.load fs = Ok r ->
  printable r -> Forall lock_name lock -> Forall file_ok (eql_files fs) ->
  Migrate.migrate fs = (Ok report, fs') ->
  Migrate.migrate fs' =
    (Ok (mk_MigrationReport [] (eql_files fs).*1 (report_schema report)), fs').
Proof.
  intros Hlock Hload Hp Hl Hf. rewrite (migrate_eq fs lock r Hlock Hload).
  destruct (apply_migrations _ r) as [r'| | |] eqn:E; [|done..]. intros [= <- <-].
  assert (printable r') as Hp'.
  { eapply apply_migrations_printable; [exact Hp| |exact E].
    apply Forall_forall. intros f [_ Hin]%list_elem_of_filter.
    rewrite Forall_forall in Hf. by apply Hf. }
  rewrite (migrate_nothing _ (lock ++ (pending lock fs).*1) r'); [done| | |].
  - apply read_written_lock; [by apply recorded_names|done].
  - by apply load_saved.
  - intros f Hin. by apply recorded_all.
Qed.

(** A crash between the two writes of [migrate] loses the migrations: [schema.lock],
    written first, already names them, so the next run skips them all and reports the
    schema from before the run. *)
Theorem migrate_crash_skips (fs : SchemaFiles) (lock : list string) (r : SchemaRegistry) :
  Migrate.read_lock fs = Ok lock -> Registry.load fs = Ok r ->
  Forall lock_name lock -> Forall file_ok (eql_files fs) ->
  let crashed := Migrate.write_lock (lock ++ (pending lock fs).*1)
                   (Migrate.create_migrations_dir fs) in
  exists fs', Migrate.migrate crashed = (Ok (mk_MigrationReport [] (eql_files fs).*1 r), fs') /\
    Registry.load fs' = Registry.load (Registry.save r fs).
Proof.
  intros Hlock Hload Hl Hf crashed.
  rewrite (migrate_nothing crashed (lock ++ (pending lock fs).*1) r); [by eexists| |done|].
  - apply read_written_lock; [by apply recorded_names|done].
  - intros f Hin. by apply recorded_all.
Qed.

(** ** Witnesses *)

Lemma ex_file_ok : Forall file_ok (eql_files ex_files).
Proof.
  assert (forall n, utf8_valid n && bool_decide (Forall (fun c => c ≠ 10) (chars_of n)) = true ->
    Registry.skipped_line (chars_of n) = false -> trimmed (chars_of n) -> lock_name n) as Hname.
  { intros n [Hv Hl%bool_decide_eq_true]%andb_true_iff Hs Ht. by split. }
  assert (forall n c l, lock_name n -> Ddl.parse_migration (bytes_str c) = Ok l ->
    Forall statement_ok l -> file_ok (n, c)) as Hfile.
  { intros n c l Hn Hp Hl. split; [done|]. intros source stmts E1 E2. cbn [snd] in E1.
    apply from_utf8_Ok in E1 as [-> _]. rewrite bytes_str_bytes in Hp. congruence. }
  assert (forall n, trimmed n <-> (forall c, head n = Some c -> is_whitespace c = false) /\
    (forall c, last n = Some c -> is_whitespace c = false)) as Ht by done.
  assert (eql_files ex_files =
    [("001_init.eql", str_bytes "CREATE COLLECTION items KEY id STRING;
        CREATE INDEX ON items (id);");
     ("002_theme.eql", str_bytes ("CREATE INDEX ON items PATH " +:+ dq +:+ "meta.prefs.theme" +:+
                                  dq +:+ " TYPE STRING;"))]) as -> by (by vm_compute).
  repeat apply List.Forall_cons; [| |apply List.Forall_nil].
  - apply (Hfile _ _ [CreateCollection "items" [("id", FString)]; CreateIndex "items" "id" FString]).
    + apply Hname; [by vm_compute|by vm_compute|].
      split; intros c Hc; vm_compute in Hc; by injection Hc as <-.
    + by vm_compute.
    + repeat apply List.Forall_cons; [|split|apply List.Forall_nil]; cbn.
      * split; [by apply literal_word|]. apply List.Forall_cons; [by apply literal_word|].
        apply List.Forall_nil.
      * apply (bool_decide_unpack _). by vm_compute.
      * by apply literal_word.
  - apply (Hfile _ _ [CreateIndex "items" "meta.prefs.theme" FString]).
    + apply Hname; [by vm_compute|by vm_compute|].
      split; intros c Hc; vm_compute in Hc; by injection Hc as <-.
    + by vm_compute.
    + apply List.Forall_cons; [split|apply List.Forall_nil].
      * apply (bool_decide_unpack _). by vm_compute.
      * by apply literal_word.
Qed.

Definition ex_registry : SchemaRegistry :=
  mk_SchemaRegistry (<["items" := mk_CollectionSchema "items" [mk_FieldDef "id" FString]
    [mk_IndexDef "items.by_meta_x" "meta.x" FInt]]> ∅).

Lemma registry_roundtrip_witness :
  Registry.load (Registry.save ex_registry ex_files) = Ok ex_registry.
Proof.
  apply (registry_roundtrip ex_registry ex_files). apply map_Forall_singleton.
  split; [done|by apply literal_word| |]; cbn.
  - apply List.Forall_cons; [by apply literal_word|apply List.Forall_nil].
  - apply List.Forall_cons; [|apply List.Forall_nil].
    split; [by apply literal_word|split; [by apply literal_word|by vm_compute]].
Defined.

Lemma apply_statement_typed_witness :
  match Migrate.apply_statement (DropIndex "items" "meta_x") ex_registry with
  | Ok r' => schema_wf r' /\ statement_effect (DropIndex "items" "meta_x") ex_registry r'
  | Err _ => statement_refused (DropIndex "items" "meta_x") ex_registry
  | _ => False
  end.
Proof.
  apply (apply_statement_typed (DropIndex "items" "meta_x") ex_registry).
  apply map_Forall_singleton. split; cbn; [done| |by apply NoDup_singleton].
  apply List.Forall_cons; [by vm_compute|apply List.Forall_nil].
Defined.

Lemma migrate_atomic_witness :
  exists todo old, in_order ex_files (fun n => n ∉ []) todo /\ in_order ex_files (fun n => n ∈ []) old /\
  match apply_migrations todo Registry.new with
  | Ok r' =>
      exists fs', Migrate.migrate ex_files = (Ok (mk_MigrationReport todo.*1 old.*1 r'), fs') /\
      schema_state fs' = Some (str_bytes (Registry.to_state_file r')) /\
      schema_lock fs' = Some (str_bytes (Migrate.lock_file ([] ++ todo.*1))) /\
      migrations fs' = Some (default ∅ (migrations ex_files))
  | Err e =>
      exists fs', Migrate.migrate ex_files = (Err e, fs') /\
        schema_state fs' = schema_state ex_files /\ schema_lock fs' = schema_lock ex_files /\
        migrations fs' = Some (default ∅ (migrations ex_files))
  | _ => False
  end.
Proof. apply (migrate_atomic ex_files [] Registry.new); reflexivity. Defined.

Lemma migrate_idempotent_witness :
  exists report fs',
    Migrate.migrate ex_files = (Ok report, fs') /\
    Migrate.migrate fs' =
      (Ok (mk_MigrationReport [] (eql_files ex_files).*1 (report_schema report)), fs').
Proof.
  destruct (Migrate.migrate ex_files) as [[report|e| |] fs'] eqn:E.
  - exists report, fs'. split; [reflexivity|].
    apply (migrate_idempotent ex_files fs' [] Registry.new report); try reflexivity.
    + apply map_Forall_empty.
    + apply List.Forall_nil.
    + exact ex_file_ok.
    + exact E.
  - exfalso. vm_compute in E. discriminate E.
  - exfalso. vm_compute in E. discriminate E.
  - exfalso. vm_compute in E. discriminate E.
Defined.

Lemma migrate_crash_skips_witness :
  let crashed := Migrate.write_lock ([] ++ (pending [] ex_files).*1)
                   (Migrate.create_migrations_dir ex_files) in
  exists fs', Migrate.migrate crashed =
      (Ok (mk_MigrationReport [] (eql_files ex_files).*1 Registry.new), fs') /\
    Registry.load fs' = Registry.load (Registry.save Registry.new ex_files).
Proof.
  apply (migrate_crash_skips ex_files [] Registry.new); try reflexivity.
  - apply List.Forall_nil.
  - exact ex_file_ok.
Defined.

(** A collection whose name has a dot, as a string literal can give it: the next load puts
    its index under another collection. *)
Example dotted_collection_not_read_back :
  let stmts := [CreateCollection "a.b" [("id", FString)]; CreateIndex "a.b" "id" FString] in
  match Migrate.apply_statements stmts Registry.new with
  | Ok r => elements (dom (collections r)) = ["a.b"] /\
      (elements ∘ dom ∘ collections) <$> Registry.parse (Registry.to_state_file r) =
        (Ok ["a.b"; "a"] : outcome ParseError (list string))
  | _ => False
  end.
Proof. vm_compute. split; reflexivity. Qed.
