(* ===== verification/PathIndex.v ===== *)
(** * Path indexes, maintained on commit ([epochql/src/schema/index.rs])

    An index is a trie from the key of a field value to the primary key of the document; its
    root is stored in the commit. The trie operations take the fuel of [Hamt]. *)

From Stdlib Require Import Strings.Byte.
From S2P Require Import Prelude Utf8 Hash Cas Hamt CasStore Commit DiskStore.
From S2P Require Import Chars Lexer Text BTree Value Ddl Schema.

Module PathIndex.
Section path_index.
Context `{Blake3, MmapLib}.
Context (fuel : nat).

Abbreviation M := (stM DiskStore string).

(** [.map_err(|e| e.to_string())]. *)
Definition stringly {A} (m : stM DiskStore EpochsError A) : M A :=
  catch_err EpochsError_to_string m.

(** [index_roots.get(&name).copied().filter(|h| *h != Hash::ZERO)]. *)
Definition live_root (roots : gmap string Hash) (name : string) : option Hash :=
  match roots !! name with
  | Some h => if decide (h = ZERO) then None else Some h
  | None => None
  end.

(** The values of the key fields, [None] when one is missing or has no key. *)
Fixpoint key_parts (fields : list FieldDef) (doc : Doc) : option (list (list byte)) :=
  match fields with
  | [] => Some []
  | field :: fields =>
      v ← extract_path doc (field_path field);
      bytes ← value_to_index_key v;
      parts ← key_parts fields doc;
      Some (bytes :: parts)
  end.

(** The parts of a composite key, joined by 0x1f. *)
Fixpoint join_parts (parts : list (list byte)) : list byte :=
  match parts with
  | [] => []
  | [p] => p
  | p :: parts => p ++ as_u8 0x1f :: join_parts parts
  end.

Definition primary_key_bytes (coll : CollectionSchema) (doc : Doc) : option (list byte) :=
  if bool_decide (primary_key coll = []) then
    v ← extract_path doc "id";
    value_to_index_key v
  else
    parts ← key_parts (primary_key coll) doc;
    Some (join_parts parts).

(** Remove the mapping of the old value, when the value changed. *)
Definition remove_stale (idx : IndexDef) (pk : option (list byte)) (old_val new_val : option Value)
    (index_roots : gmap string Hash) : M (gmap string Hash) :=
  match old_val, pk with
  | Some old_v, Some _ =>
      if option_value_eq old_val new_val then mret index_roots
      else
        match value_to_index_key old_v with
        | Some old_key =>
            next ← stringly (Disk.index_remove fuel (live_root index_roots (index_name idx)) old_key);
            mret match next with
                 | Some h => <[index_name idx := h]> index_roots
                 | None => delete (index_name idx) index_roots
                 end
        | None => mret index_roots
        end
  | _, _ => mret index_roots
  end.

(** Map the new value to the primary key. *)
Definition put_current (idx : IndexDef) (pk : option (list byte)) (new_val : option Value)
    (index_roots : gmap string Hash) : M (gmap string Hash) :=
  match new_val, pk with
  | Some new_v, Some pk_bytes =>
      match value_to_index_key new_v with
      | Some new_key =>
          h ← stringly (Disk.index_put fuel (live_root index_roots (index_name idx)) new_key pk_bytes);
          mret (<[index_name idx := h]> index_roots)
      | None => mret index_roots
      end
  | _, _ => mret index_roots
  end.

(** The body of the loop over the indexes of a collection. *)
Definition update_index (pk : option (list byte)) (old_doc new_doc : Doc) (idx : IndexDef)
    (index_roots : gmap string Hash) : M (gmap string Hash) :=
  let old_val := extract_path old_doc (index_path idx) in
  let new_val := extract_path new_doc (index_path idx) in
  index_roots ← remove_stale idx pk old_val new_val index_roots;
  put_current idx pk new_val index_roots.

Fixpoint update_indexes (pk : option (list byte)) (old_doc new_doc : Doc) (idxs : list IndexDef)
    (index_roots : gmap string Hash) : M (gmap string Hash) :=
  match idxs with
  | [] => mret index_roots
  | idx :: idxs =>
      index_roots ← update_index pk old_doc new_doc idx index_roots;
      update_indexes pk old_doc new_doc idxs index_roots
  end.

(** The loop over the collections. *)
Fixpoint update_collections (old_doc new_doc : Doc) (colls : list CollectionSchema)
    (index_roots : gmap string Hash) : M (gmap string Hash) :=
  match colls with
  | [] => mret index_roots
  | coll :: colls =>
      let pk := match primary_key_bytes coll new_doc with
                | Some pk => Some pk
                | None => primary_key_bytes coll old_doc
                end in
      index_roots ← update_indexes pk old_doc new_doc (indexes coll) index_roots;
      update_collections old_doc new_doc colls index_roots
  end.

(** [index_roots.retain(|k, _| live.contains_key(k))]. *)
Definition retain_live (schema : SchemaRegistry) (index_roots : gmap string Hash) :
    gmap string Hash :=
  filter (fun kv => kv.1 ∈ index_name <$> Registry.all_indexes schema) index_roots.

Definition update_indexes_for_commit (schema : SchemaRegistry) (old_doc new_doc : Doc)
    (prev_index_roots : gmap string Hash) : M (gmap string Hash) :=
  if bool_decide (collections schema = ∅) then mret prev_index_roots
  else
    index_roots ← update_collections old_doc new_doc (btree_entries (collections schema)).*2
                    prev_index_roots;
    mret (retain_live schema index_roots).

Definition lookup_index (index_roots : gmap string Hash) (index : IndexDef) (value : Value) :
    M (option (list byte)) :=
  match live_root index_roots (index_name index) with
  | Some root =>
      match value_to_index_key value with
      | Some key => stringly (Disk.index_get fuel root key)
      | None => mret None
      end
  | None => mret None
  end.

Definition doc_from_hamt_root (root : Hash) : M Doc :=
  entries ← stringly (Disk.hamt_entries fuel root);
  mret (flatten_entries entries).

End path_index.
End PathIndex.
