(* ===== verification/IndexSpec.v ===== *)
(** * Path indexes are maintained

    One index under a commit: its trie maps the key of the document's value to the primary
    key, and no longer the key of a value that changed. *)

From Stdlib Require Import Strings.Byte.
From S2P Require Import Prelude Utf8 Hash Codec Record Cache Index Cas HamtNode Hamt HamtTree HamtProofs HamtSpec CasStore CasStoreProofs CasStoreSpec Commit Bfs Dag Repo DiskStore DiskStoreSpec.
From S2P Require Import Chars Lexer Text BTree Value Ddl Schema PathIndex.

Section spec.
Context `{Blake3, !MmapLib, !MmapLaws}.

(** A state reached by writing objects only. *)
Definition writes_objects (s s' : DiskStore) : Prop :=
  disk_ok s' /\ disk_objects s ⊆ disk_objects s' /\ s' = Disk.set_cas (ds_cas s') s.

Lemma writes_objects_refl s : disk_ok s -> writes_objects s s.
Proof. intros Hok. split; [done|]. split; [done|]. by destruct s. Qed.

Lemma writes_objects_trans s1 s2 s3 :
  writes_objects s1 s2 -> writes_objects s2 s3 -> writes_objects s1 s3.
Proof.
  intros (_ & Hs12 & E2) (Hok & Hs23 & E3). split; [done|]. split; [by etransitivity|].
  rewrite E3. by rewrite E2.
Qed.

(** The message of a write that fails: the segment ids are used up. *)
Definition index_fails (s : DiskStore) (msg : string) : Prop :=
  exists e, disk_full s e /\ msg = EpochsError_to_string e.

(** A trie operation, run on the store. *)
Lemma on_cas_runs {A} os s (m : stM CasStore EpochsError A) Q :
  disk_ok s -> runs os (ds_cas s) m Q ->
  let '(r, s') := Disk.on_cas m s in
  writes_objects s s' /\ no_collision (disk_objects s') os /\
  match r with Ok a => Q a (ds_cas s') | Err e => disk_full s' e | _ => False end.
Proof.
  intros Hok Hrun. unfold runs in Hrun. destruct (m (ds_cas s)) as [r c'] eqn:Hm.
  destruct Hrun as ([Hok' Hnc'] & Hsub & Hr).
  destruct (on_cas_ok s _ _ _ Hok Hm Hok' Hsub) as [-> Hokc].
  split; [by split|]. split; [done|]. destruct r; try done. by destruct Hr.
Qed.

(** ** What an index should hold *)

(** The key that is no longer right, and the entry that now is. *)
Definition stale_key (pk : option (list byte)) (old_val new_val : option Value) : option (list byte) :=
  _ ← pk;
  if option_value_eq old_val new_val then None else old_val ≫= value_to_index_key.

Definition current_entry (pk : option (list byte)) (new_val : option Value) :
    option (list byte * list byte) :=
  v ← new_val; k ← value_to_index_key v; p ← pk; Some (k, p).

Definition index_map (pk : option (list byte)) (old_val new_val : option Value)
    (m : gmap (list byte) (list byte)) : gmap (list byte) (list byte) :=
  let m := match stale_key pk old_val new_val with Some k => delete k m | None => m end in
  match current_entry pk new_val with Some (k, p) => <[k := p]> m | None => m end.

(** The tries of the two steps. *)
Definition after_remove (pk : option (list byte)) (old_val new_val : option Value)
    (ot : option tree) : option tree :=
  match stale_key pk old_val new_val with Some k => root_remove ot k | None => ot end.

Definition after_put (pk : option (list byte)) (old_val new_val : option Value)
    (ot : option tree) : option tree :=
  let ot := after_remove pk old_val new_val ot in
  match current_entry pk new_val with Some (k, p) => root_insert ot k p | None => ot end.

(** The steps fit their records, meet no clash, hash to no [ZERO], and the fuel is enough. *)
Record index_ok (fuel : nat) (pk : option (list byte)) (old_val new_val : option Value)
    (ot : option tree) (os : list Object) : Prop := {
  ix_fuel : (root_height ot < fuel)%nat /\
    (root_height (after_remove pk old_val new_val ot) + 53 <= fuel)%nat /\
    (root_height (after_put pk old_val new_val ot) < fuel)%nat;
  ix_fits : forall k p, current_entry pk new_val = Some (k, p) ->
    leaf_fits k p /\ root_clash (after_remove pk old_val new_val ot) k = false;
  ix_zero : tree_hash <$> after_remove pk old_val new_val ot ≠ Some ZERO /\
    tree_hash <$> after_put pk old_val new_val ot ≠ Some ZERO;
  ix_objects : forall o, o ∈ root_objects (after_remove pk old_val new_val ot) ++
    root_objects (after_put pk old_val new_val ot) -> o ∈ os
}.

(** The root of an index in the roots of a commit stands for a trie. *)
Definition index_at (s : DiskStore) (roots : gmap string Hash) (name : string) (ot : option tree) :
    Prop := root_at (disk_objects s) (PathIndex.live_root roots name) ot.

Lemma live_root_insert roots name h :
  h ≠ ZERO -> PathIndex.live_root (<[name := h]> roots) name = Some h.
Proof. intros Hz. unfold PathIndex.live_root. by rewrite lookup_insert_eq, decide_False. Qed.

Lemma live_root_delete roots name : PathIndex.live_root (delete name roots) name = None.
Proof. unfold PathIndex.live_root. by rewrite lookup_delete_eq. Qed.

Section index.
Context (fuel : nat) (idx : IndexDef) (pk : option (list byte)) (old_val new_val : option Value).
Context (ot : option tree) (os : list Object) (Hix : index_ok fuel pk old_val new_val ot os).

Lemma index_remove_ok s root k :
  disk_ok s -> no_collision (disk_objects s) os -> root_at (disk_objects s) root ot ->
  stale_key pk old_val new_val = Some k ->
  let '(r, s') := Disk.index_remove fuel root k s in
  writes_objects s s' /\ no_collision (disk_objects s') os /\
  match r with
  | Ok h => root_at (disk_objects s') h (after_remove pk old_val new_val ot)
  | Err e => disk_full s' e
  | _ => False
  end.
Proof.
  intros Hok Hnc Hat Hk.
  assert (root_remove ot k = after_remove pk old_val new_val ot) as E
    by (unfold after_remove; by rewrite Hk).
  assert (forall o, o ∈ root_objects (root_remove ot k) -> o ∈ os) as Hos.
  { rewrite E. intros o Ho. apply (ix_objects _ _ _ _ _ _ Hix), elem_of_app. by left. }
  pose proof (on_cas_runs os s _ _ Hok (remove_runs os (ds_cas s) root ot k fuel (disk_cas _ Hok)
    Hnc Hat Hos (proj1 (ix_fuel _ _ _ _ _ _ Hix)))) as Hr.
  rewrite E in Hr. exact Hr.
Qed.

Lemma index_put_ok s root k p :
  disk_ok s -> no_collision (disk_objects s) os ->
  root_at (disk_objects s) root (after_remove pk old_val new_val ot) ->
  current_entry pk new_val = Some (k, p) ->
  let '(r, s') := Disk.index_put fuel root k p s in
  writes_objects s s' /\ no_collision (disk_objects s') os /\
  match r with
  | Ok h => root_at (disk_objects s') (Some h) (after_put pk old_val new_val ot)
  | Err e => disk_full s' e
  | _ => False
  end.
Proof.
  intros Hok Hnc Hat Hk. destruct (ix_fits _ _ _ _ _ _ Hix k p Hk) as [Hf Hc].
  destruct (root_insert_spec _ _ _ _ _ Hat Hf Hc) as (t' & Hins & Hwf & Hft & _).
  assert (after_put pk old_val new_val ot = Some t') as E.
  { unfold after_put. cbv zeta. by rewrite Hk. }
  assert (forall o, o ∈ tree_objects t' -> o ∈ os) as Hos.
  { intros o Ho. apply (ix_objects _ _ _ _ _ _ Hix), elem_of_app. right. by rewrite E. }
  pose proof (on_cas_runs os s _ _ Hok (insert_runs os (ds_cas s) root _ k p t' fuel (disk_cas _ Hok)
    Hnc Hat Hf Hins Hos (proj1 (proj2 (ix_fuel _ _ _ _ _ _ Hix))))) as Hr.
  unfold Disk.index_put. destruct (Disk.on_cas _ s) as [r s']. rewrite E.
  destruct Hr as (? & ? & Hr). split; [done|]. split; [done|]. destruct r; try done.
  destruct Hr as [-> Hst]. by split.
Qed.

Definition step_ok (s : DiskStore) (roots : gmap string Hash) (ot' : option tree)
    (p : outcome string (gmap string Hash) * DiskStore) : Prop :=
  writes_objects s p.2 /\ no_collision (disk_objects p.2) os /\
  match p.1 with
  | Ok roots' => index_at p.2 roots' (index_name idx) ot' /\
      (roots !! index_name idx ≠ Some ZERO -> roots' !! index_name idx ≠ Some ZERO) /\
      forall name, name ≠ index_name idx -> roots' !! name = roots !! name
  | Err e => index_fails p.2 e
  | _ => False
  end.

Lemma step_ok_refl s roots ot' :
  disk_ok s -> no_collision (disk_objects s) os -> index_at s roots (index_name idx) ot' ->
  step_ok s roots ot' (Ok roots, s).
Proof. intros. split; [by apply writes_objects_refl|]. done. Qed.

(** A root that is written into the map of roots, or taken out of it. *)
Lemma index_at_set s roots h ot' :
  root_at (disk_objects s) h ot' -> tree_hash <$> ot' ≠ Some ZERO ->
  index_at s (match h with Some h => <[index_name idx := h]> roots
              | None => delete (index_name idx) roots end) (index_name idx) ot'.
Proof.
  intros Hat Hz. unfold index_at. destruct h as [h|].
  - rewrite live_root_insert; [done|]. destruct Hat as [E _]. congruence.
  - by rewrite live_root_delete.
Qed.

Lemma remove_stale_ok s roots :
  disk_ok s -> no_collision (disk_objects s) os -> index_at s roots (index_name idx) ot ->
  step_ok s roots (after_remove pk old_val new_val ot)
    (PathIndex.remove_stale fuel idx pk old_val new_val roots s).
Proof.
  intros Hok Hnc Hat. unfold PathIndex.remove_stale.
  assert (stale_key pk old_val new_val = None ->
    step_ok s roots (after_remove pk old_val new_val ot) (Ok roots, s)) as Hnone.
  { intros E. apply step_ok_refl; try done. unfold after_remove. by rewrite E. }
  pose proof (index_remove_ok s (PathIndex.live_root roots (index_name idx))) as Hrem.
  destruct Hix as [_ _ [Hz _] _]. revert Hnone Hrem Hz. unfold stale_key.
  destruct old_val as [old_v|], pk as [p|]; cbn [mbind option_bind];
    try (intros Hnone _ _; apply Hnone; by try destruct (option_value_eq _ _)).
  destruct (option_value_eq (Some old_v) new_val); [by intros Hnone _ _; apply Hnone|].
  destruct (value_to_index_key old_v) as [k|]; [|by intros Hnone _ _; apply Hnone].
  intros _ Hrem Hz. specialize (Hrem k Hok Hnc Hat eq_refl). rewrite stM_bind_eq.
  unfold PathIndex.stringly, catch_err.
  destruct (Disk.index_remove fuel _ k s) as [r s']. destruct Hrem as (Hw & Hnc' & Hr).
  destruct r as [h|x| |]; cbn [map_err]; try done; [|by split_and!; try done; exists x].
  split; [done|]. split; [done|]. cbn. split; [by apply index_at_set|].
  pose proof (proj1 Hr) as E. destruct h as [h|]; split.
  - intros _. rewrite lookup_insert_eq. congruence.
  - intros name Hne. by rewrite lookup_insert_ne.
  - intros _. by rewrite lookup_delete_eq.
  - intros name Hne. by rewrite lookup_delete_ne.
Qed.

Lemma put_current_ok s roots :
  disk_ok s -> no_collision (disk_objects s) os ->
  index_at s roots (index_name idx) (after_remove pk old_val new_val ot) ->
  step_ok s roots (after_put pk old_val new_val ot)
    (PathIndex.put_current fuel idx pk new_val roots s).
Proof.
  intros Hok Hnc Hat. unfold PathIndex.put_current.
  assert (current_entry pk new_val = None ->
    step_ok s roots (after_put pk old_val new_val ot) (Ok roots, s)) as Hnone.
  { intros E. apply step_ok_refl; try done. unfold after_put. cbv zeta. by rewrite E. }
  pose proof (index_put_ok s (PathIndex.live_root roots (index_name idx))) as Hput.
  destruct Hix as [_ _ [_ Hz] _]. revert Hnone Hput Hz.
  generalize (after_put pk old_val new_val ot). intros ot'. unfold current_entry.
  destruct new_val as [v|], pk as [p|]; cbn [mbind option_bind];
    try (intros Hnone _ _; apply Hnone; by try destruct (value_to_index_key v)).
  destruct (value_to_index_key v) as [k|]; [|by intros Hnone _ _; apply Hnone].
  intros _ Hput Hz. specialize (Hput k p Hok Hnc Hat eq_refl). rewrite stM_bind_eq.
  unfold PathIndex.stringly, catch_err.
  destruct (Disk.index_put fuel _ k p s) as [r s']. destruct Hput as (Hw & Hnc' & Hr).
  destruct r as [h|x| |]; cbn [map_err]; try done; [|by split_and!; try done; exists x].
  split; [done|]. split; [done|]. cbn.
  split; [by apply (index_at_set s' roots (Some h))|]. pose proof (proj1 Hr) as E. split.
  - intros _. rewrite lookup_insert_eq. congruence.
  - intros name Hne. by rewrite lookup_insert_ne.
Qed.

(** The trie at the end is the map that the index should hold. *)
Lemma after_put_map s roots s1 roots1 :
  index_at s roots (index_name idx) ot ->
  index_at s1 roots1 (index_name idx) (after_remove pk old_val new_val ot) ->
  root_map (after_put pk old_val new_val ot) = index_map pk old_val new_val (root_map ot).
Proof.
  intros Hat Hat1. unfold index_map, after_put. cbv zeta.
  assert (root_map (after_remove pk old_val new_val ot) =
    match stale_key pk old_val new_val with
    | Some k => delete k (root_map ot) | None => root_map ot end) as Er.
  { unfold after_remove. destruct (stale_key pk old_val new_val); [|done].
    by eapply root_remove_map. }
  destruct (current_entry pk new_val) as [[k p]|] eqn:Ec; [|exact Er].
  rewrite <- Er. destruct (ix_fits _ _ _ _ _ _ Hix k p Ec) as [Hf Hc].
  destruct (root_insert_spec _ _ _ _ _ Hat1 Hf Hc) as (t' & -> & _ & _ & ->). done.
Qed.

End index.

(** ** All indexes of a commit *)

(** The roots of a commit are the hashes of the tries of its indexes. *)
Definition tries_at (s : DiskStore) (roots : gmap string Hash) (its : gmap string tree) : Prop :=
  roots = tree_hash <$> its /\
  forall name t, its !! name = Some t ->
    tree_hash t ≠ ZERO /\ root_at (disk_objects s) (Some (tree_hash t)) (Some t).

Definition set_trie (name : string) (ot : option tree) (its : gmap string tree) : gmap string tree :=
  match ot with Some t => <[name := t]> its | None => delete name its end.

(** One update: the index, and the primary key it maps to. *)
Abbreviation index_step := (option (list byte) * IndexDef)%type.

Section steps.
Context (fuel : nat) (old_doc new_doc : Doc) (os : list Object).

Definition step_trie (its : gmap string tree) (st : index_step) : gmap string tree :=
  set_trie (index_name st.2)
    (after_put st.1 (extract_path old_doc (index_path st.2)) (extract_path new_doc (index_path st.2))
       (its !! index_name st.2)) its.

Fixpoint steps_ok (its : gmap string tree) (steps : list index_step) : Prop :=
  match steps with
  | [] => True
  | st :: steps =>
      index_ok fuel st.1 (extract_path old_doc (index_path st.2))
        (extract_path new_doc (index_path st.2)) (its !! index_name st.2) os /\
      steps_ok (step_trie its st) steps
  end.

(** What an index holds after the updates, in terms of what it held before. *)
Definition index_content (name : string) (m : gmap (list byte) (list byte)) (steps : list index_step) :
    gmap (list byte) (list byte) :=
  foldl (fun m st =>
    if decide (index_name st.2 = name) then
      index_map st.1 (extract_path old_doc (index_path st.2)) (extract_path new_doc (index_path st.2)) m
    else m) m steps.

Lemma tries_index_at s roots its name : tries_at s roots its -> index_at s roots name (its !! name).
Proof.
  intros [-> Hits]. unfold index_at, PathIndex.live_root. rewrite lookup_fmap.
  destruct (its !! name) as [t|] eqn:Ht; [|by split]. simpl.
  destruct (Hits _ _ Ht) as [Hz Hat]. by rewrite decide_False.
Qed.

Lemma index_at_root s roots name ot :
  index_at s roots name ot -> roots !! name ≠ Some ZERO -> roots !! name = tree_hash <$> ot.
Proof.
  unfold index_at, PathIndex.live_root. intros [E _] Hz. rewrite <- E.
  destruct (roots !! name) as [h|]; [|done]. rewrite decide_False; [done|congruence].
Qed.

(** Writing objects, and one root, leaves the other tries. *)
Lemma tries_at_set s s' roots roots' its name ot :
  tries_at s roots its -> disk_objects s ⊆ disk_objects s' ->
  index_at s' roots' name ot -> roots' !! name ≠ Some ZERO -> tree_hash <$> ot ≠ Some ZERO ->
  (forall n, n ≠ name -> roots' !! n = roots !! n) ->
  tries_at s' roots' (set_trie name ot its).
Proof.
  intros [Hroots Hits] Hsub Hat Hz Hzt Hother. pose proof (index_at_root _ _ _ _ Hat Hz) as Hn. split.
  - apply map_eq. intros n. rewrite lookup_fmap. destruct (decide (n = name)) as [->|Hne].
    + rewrite Hn. unfold set_trie. destruct ot; by rewrite ?lookup_insert_eq, ?lookup_delete_eq.
    + rewrite Hother, Hroots, lookup_fmap by done. unfold set_trie.
      destruct ot; by rewrite ?lookup_insert_ne, ?lookup_delete_ne.
  - intros n t. unfold index_at, PathIndex.live_root in Hat. rewrite Hn in Hat.
    unfold set_trie. destruct ot as [t'|].
    + cbn in Hat. rewrite decide_False in Hat by (cbn in Hzt; congruence).
      intros [[-> ->]|[Hne Ht]]%lookup_insert_Some; [split; [cbn in Hzt; congruence|done]|].
      destruct (Hits _ _ Ht). split; [done|by eapply root_at_mono].
    + intros [Hne Ht]%lookup_delete_Some. destruct (Hits _ _ Ht).
      split; [done|by eapply root_at_mono].
Qed.

(** What a run of updates does to the tries. *)
Definition tries_run (s : DiskStore) (its : gmap string tree) (steps : list index_step)
    (p : outcome string (gmap string Hash) * DiskStore) : Prop :=
  writes_objects s p.2 /\ no_collision (disk_objects p.2) os /\
  match p.1 with
  | Ok roots' => tries_at p.2 roots' (foldl step_trie its steps) /\
      forall name, root_map (foldl step_trie its steps !! name) =
        index_content name (root_map (its !! name)) steps
  | Err e => index_fails p.2 e
  | _ => False
  end.

Lemma update_index_tries s roots its pk idx :
  disk_ok s -> no_collision (disk_objects s) os -> tries_at s roots its ->
  steps_ok its [(pk, idx)] ->
  tries_run s its [(pk, idx)] (PathIndex.update_index fuel pk old_doc new_doc idx roots s).
Proof.
  intros Hok Hnc Hits [Hix _]. cbn [fst snd] in Hix. unfold PathIndex.update_index. cbv zeta.
  pose proof (tries_index_at _ _ _ (index_name idx) Hits) as Hat.
  assert (roots !! index_name idx ≠ Some ZERO) as Hz.
  { destruct Hits as [-> Hits]. rewrite lookup_fmap. destruct (its !! index_name idx) as [t|] eqn:Ht; [|done].
    destruct (Hits _ _ Ht). cbn. congruence. }
  rewrite stM_bind_eq.
  pose proof (remove_stale_ok fuel idx pk _ _ _ os Hix s roots Hok Hnc Hat) as Hrem.
  destruct (PathIndex.remove_stale fuel idx pk _ _ roots s) as [r s1].
  destruct Hrem as (Hw1 & Hnc1 & Hr). cbn [fst snd] in *.
  destruct r as [roots1|x| |]; try done. destruct Hr as (Hat1 & Hz1 & Hother1).
  pose proof (put_current_ok fuel idx pk _ _ _ os Hix s1 roots1 (proj1 Hw1) Hnc1 Hat1) as Hput.
  destruct (PathIndex.put_current fuel idx pk _ roots1 s1) as [r s2].
  destruct Hput as (Hw2 & Hnc2 & Hr). cbn [fst snd] in *.
  pose proof (writes_objects_trans _ _ _ Hw1 Hw2) as Hw. split; [done|]. split; [done|]. cbn [fst snd].
  destruct r as [roots2|x| |]; try done. destruct Hr as (Hat2 & Hz2 & Hother2).
  cbn [foldl]. split.
  - eapply tries_at_set; [done|apply Hw|exact Hat2|auto| |].
    + apply (ix_zero _ _ _ _ _ _ Hix).
    + intros n Hne. by rewrite Hother2, Hother1.
  - intros name. unfold index_content, step_trie, set_trie. cbn [foldl fst snd].
    case_decide as Hn.
    + subst name.
      rewrite <- (after_put_map fuel idx pk _ _ _ os Hix s roots s1 roots1 Hat Hat1).
      by destruct (after_put pk _ _ _); rewrite ?lookup_insert_eq, ?lookup_delete_eq.
    + by destruct (after_put pk _ _ _); rewrite ?lookup_insert_ne, ?lookup_delete_ne.
Qed.

Lemma steps_ok_app its l1 l2 :
  steps_ok its (l1 ++ l2) <-> steps_ok its l1 /\ steps_ok (foldl step_trie its l1) l2.
Proof. revert its. induction l1 as [|st l1 IH]; intros its; cbn; [tauto|]. rewrite IH. tauto. Qed.

(** Two runs, one after the other. *)
Lemma tries_run_bind s its l1 l2 (m : stM DiskStore string (gmap string Hash)) f :
  tries_run s its l1 (m s) ->
  (forall roots1 s1, disk_ok s1 -> no_collision (disk_objects s1) os ->
     tries_at s1 roots1 (foldl step_trie its l1) ->
     tries_run s1 (foldl step_trie its l1) l2 (f roots1 s1)) ->
  tries_run s its (l1 ++ l2) ((m ≫= f) s).
Proof.
  intros Hm Hf. unfold tries_run in Hm. rewrite stM_bind_eq.
  destruct (m s) as [[roots1|e| |] s1]; cbn [fst snd] in Hm; destruct Hm as (Hw1 & Hnc1 & Hr);
    try done. destruct Hr as [Hits1 Hc1]. specialize (Hf roots1 s1 (proj1 Hw1) Hnc1 Hits1).
  destruct (f roots1 s1) as [r s2]. destruct Hf as (Hw2 & Hnc2 & Hr). cbn [fst snd] in *.
  split; [by eapply writes_objects_trans|]. split; [done|]. cbn [fst snd].
  destruct r as [roots2|e| |]; try done. destruct Hr as [Hits2 Hc2]. rewrite foldl_app.
  split; [done|]. intros name. unfold index_content in *. by rewrite foldl_app, Hc2, Hc1.
Qed.

Lemma tries_run_nil s its roots :
  disk_ok s -> no_collision (disk_objects s) os -> tries_at s roots its ->
  tries_run s its [] (Ok roots, s).
Proof. intros. split; [by apply writes_objects_refl|]. by split. Qed.

Lemma update_indexes_tries pk idxs s roots its :
  disk_ok s -> no_collision (disk_objects s) os -> tries_at s roots its ->
  steps_ok its (map (pair pk) idxs) ->
  tries_run s its (map (pair pk) idxs) (PathIndex.update_indexes fuel pk old_doc new_doc idxs roots s).
Proof.
  revert s roots its. induction idxs as [|idx idxs IH]; intros s roots its Hok Hnc Hits Hsteps;
    cbn [PathIndex.update_indexes map] in *; [by apply tries_run_nil|].
  destruct Hsteps as [Hix Hsteps]. apply (tries_run_bind s its [(pk, idx)]).
  - by apply update_index_tries.
  - intros roots1 s1 Hok1 Hnc1 Hits1. by apply IH.
Qed.

(** The updates of a collection, and of a schema. *)
Definition doc_key (coll : CollectionSchema) : option (list byte) :=
  match PathIndex.primary_key_bytes coll new_doc with
  | Some pk => Some pk
  | None => PathIndex.primary_key_bytes coll old_doc
  end.

Definition coll_steps (coll : CollectionSchema) : list index_step :=
  map (pair (doc_key coll)) (indexes coll).

Lemma update_collections_tries colls s roots its :
  disk_ok s -> no_collision (disk_objects s) os -> tries_at s roots its ->
  steps_ok its (colls ≫= coll_steps) ->
  tries_run s its (colls ≫= coll_steps) (PathIndex.update_collections fuel old_doc new_doc colls roots s).
Proof.
  revert s roots its. induction colls as [|coll colls IH]; intros s roots its Hok Hnc Hits Hsteps;
    [by apply tries_run_nil|].
  change ((coll :: colls) ≫= coll_steps) with (coll_steps coll ++ (colls ≫= coll_steps)) in *.
  apply steps_ok_app in Hsteps as [Hc Hsteps]. cbn [PathIndex.update_collections].
  apply tries_run_bind; [by apply update_indexes_tries|].
  intros roots1 s1 Hok1 Hnc1 Hits1. by apply IH.
Qed.

Definition schema_steps (schema : SchemaRegistry) : list index_step :=
  (btree_entries (collections schema)).*2 ≫= coll_steps.

(** The tries of the new commit: those of the indexes that the schema has, updated. *)
Definition live_tries (schema : SchemaRegistry) (its : gmap string tree) : gmap string tree :=
  filter (fun kv => kv.1 ∈ index_name <$> Registry.all_indexes schema) its.

Definition commit_tries (schema : SchemaRegistry) (its : gmap string tree) : gmap string tree :=
  if bool_decide (collections schema = ∅) then its
  else live_tries schema (foldl step_trie its (schema_steps schema)).

Lemma live_tries_lookup schema its name :
  name ∈ index_name <$> Registry.all_indexes schema -> live_tries schema its !! name = its !! name.
Proof.
  intros Hn. unfold live_tries. destruct (its !! name) as [t|] eqn:Ht.
  - by apply map_lookup_filter_Some.
  - by apply map_lookup_filter_None; left.
Qed.

Lemma retain_live_tries s schema roots its :
  tries_at s roots its -> tries_at s (PathIndex.retain_live schema roots) (live_tries schema its).
Proof.
  intros [-> Hits]. split.
  - unfold PathIndex.retain_live, live_tries. by rewrite map_filter_fmap.
  - intros n t [Ht _]%map_lookup_filter_Some. by eapply Hits.
Qed.

(** [update_indexes_for_commit]. *)
Lemma update_for_commit_tries schema s roots its :
  disk_ok s -> no_collision (disk_objects s) os -> tries_at s roots its ->
  steps_ok its (schema_steps schema) ->
  let '(r, s') := PathIndex.update_indexes_for_commit fuel schema old_doc new_doc roots s in
  writes_objects s s' /\ no_collision (disk_objects s') os /\
  match r with
  | Ok roots' => tries_at s' roots' (commit_tries schema its) /\
      forall name, name ∈ index_name <$> Registry.all_indexes schema ->
        root_map (commit_tries schema its !! name) =
          index_content name (root_map (its !! name)) (schema_steps schema)
  | Err e => index_fails s' e
  | _ => False
  end.
Proof.
  intros Hok Hnc Hits Hsteps. unfold PathIndex.update_indexes_for_commit, commit_tries.
  case_bool_decide as Hempty.
  - split; [by apply writes_objects_refl|]. split; [done|]. split; [done|]. intros name _.
    unfold schema_steps. by rewrite Hempty.
  - rewrite stM_bind_eq.
    pose proof (update_collections_tries _ s roots its Hok Hnc Hits Hsteps) as Hrun.
    destruct (PathIndex.update_collections fuel old_doc new_doc _ roots s) as [[roots1|e| |] s1];
      destruct Hrun as (Hw & Hnc1 & Hr); try done. destruct Hr as [Hits1 Hc1]. cbn [fst snd] in *.
    split; [done|]. split; [done|]. split; [by apply retain_live_tries|].
    intros name Hn. rewrite live_tries_lookup by done. apply Hc1.
Qed.

End steps.

(** What a lookup finds in the trie of an index. *)
Lemma lookup_index_ok fuel s roots idx ot v :
  disk_ok s -> index_at s roots (index_name idx) ot -> (root_height ot < fuel)%nat ->
  (PathIndex.lookup_index fuel roots idx v s).1 =
    Ok (k ← value_to_index_key v; root_map ot !! k).
Proof.
  intros Hok Hat Hf. unfold PathIndex.lookup_index, index_at in *.
  destruct (PathIndex.live_root roots (index_name idx)) as [root|] eqn:Hr.
  - destruct (value_to_index_key v) as [k|]; [|done].
    assert (root ≠ ZERO) as Hz.
    { unfold PathIndex.live_root in Hr. destruct (roots !! index_name idx) as [h|]; [|done].
      case_decide; congruence. }
    unfold PathIndex.stringly, catch_err, Disk.index_get. rewrite decide_False by done.
    destruct (get_returns (ds_cas s) (Some root) ot k fuel) as (c' & Hg & _);
      [apply Hok|exact Hat|done|].
    unfold Disk.on_cas, zoom. by rewrite Hg.
  - destruct Hat as [Ht _]. destruct ot; [done|]. cbn. by destruct (value_to_index_key v).
Qed.

End spec.

(** C26: An index is maintained. Updating an index for a new document, on an index that stands for
    some map of keys to primary keys, forgets the key of a value that changed, maps the key of
    the new value to the primary key, and touches no other entry and no other index; a
    lookup then finds exactly what that map holds. It fails only when the segment ids of the
    store are used up. The two steps may meet no clash in the trie of the index (no leaf of
    another key with the same five bits where they meet), their records fit their fields, no
    two objects have one hash and no trie has the hash [ZERO]. *)
Theorem index_maintained `{Blake3, !MmapLib, !MmapLaws} (fuel : nat) (idx : IndexDef)
    (pk : option (list byte)) (old_doc new_doc : Doc) (roots : gmap string Hash)
    (s : DiskStore) (ot : option tree) (os : list Object) :
  let old_val := extract_path old_doc (index_path idx) in
  let new_val := extract_path new_doc (index_path idx) in
  let m := index_map pk old_val new_val (root_map ot) in
  disk_ok s -> no_collision (disk_objects s) os -> index_at s roots (index_name idx) ot ->
  index_ok fuel pk old_val new_val ot os ->
  let '(r, s') := PathIndex.update_index fuel pk old_doc new_doc idx roots s in
  disk_ok s' /\ disk_objects s ⊆ disk_objects s' /\
  match r with
  | Ok roots' =>
      (exists ot', index_at s' roots' (index_name idx) ot' /\ root_map ot' = m) /\
      (forall v, (PathIndex.lookup_index fuel roots' idx v s').1 = Ok (k ← value_to_index_key v; m !! k)) /\
      (forall name, name ≠ index_name idx -> roots' !! name = roots !! name)
  | Err msg => index_fails s' msg
  | _ => False
  end.
Proof.
  intros old_val new_val m Hok Hnc Hat Hix. unfold PathIndex.update_index. cbv zeta.
  fold old_val new_val. rewrite stM_bind_eq.
  pose proof (remove_stale_ok fuel idx pk old_val new_val ot os Hix s roots Hok Hnc Hat) as Hrem.
  destruct (PathIndex.remove_stale fuel idx pk old_val new_val roots s) as [r s1].
  destruct Hrem as ((Hok1 & Hsub1 & _) & Hnc1 & Hr). cbn [fst snd] in *.
  destruct r as [roots1|x| |]; try done. destruct Hr as (Hat1 & _ & Hother1).
  pose proof (put_current_ok fuel idx pk old_val new_val ot os Hix s1 roots1 Hok1 Hnc1 Hat1) as Hput.
  destruct (PathIndex.put_current fuel idx pk new_val roots1 s1) as [r s2].
  destruct Hput as ((Hok2 & Hsub2 & _) & _ & Hr). cbn [fst snd] in *.
  split; [done|]. split; [by etransitivity|]. destruct r as [roots2|x| |]; try done.
  destruct Hr as (Hat2 & _ & Hother2).
  pose proof (after_put_map fuel idx pk old_val new_val ot os Hix s roots s1 roots1 Hat Hat1) as Em.
  split; [by eexists|]. split.
  - intros v. unfold m. rewrite <- Em. apply lookup_index_ok; [done|done|apply Hix].
  - intros name Hne. by rewrite Hother2, Hother1.
Qed.

Section witness.

#[local] Existing Instance toy_hash.
#[local] Existing Instance id_mmap.
#[local] Existing Instance id_mmap_laws.

(** The first value of the field status. *)
Definition ex_index : IndexDef := mk_IndexDef "runs_status" "status" FString.
Definition ex_doc : Doc := {[ "status" := VString "on" ]}.
Definition ex_pk : option (list byte) := Some (str_bytes "7").

Lemma index_maintained_witness :
  let m := index_map ex_pk (extract_path ∅ "status") (extract_path ex_doc "status") (root_map None) in
  let '(r, s') := PathIndex.update_index 60 ex_pk ∅ ex_doc ex_index ∅ ex_disk in
  disk_ok s' /\ disk_objects ex_disk ⊆ disk_objects s' /\
  match r with
  | Ok roots' =>
      (exists ot', index_at s' roots' (index_name ex_index) ot' /\ root_map ot' = m) /\
      (forall v, (PathIndex.lookup_index 60 roots' ex_index v s').1 =
         Ok (k ← value_to_index_key v; m !! k)) /\
      (forall name, name ≠ index_name ex_index -> roots' !! name = (∅ : gmap string Hash) !! name)
  | Err msg => index_fails s' msg
  | _ => False
  end.
Proof.
  pose proof (index_maintained 60 ex_index ex_pk ∅ ex_doc ∅ ex_disk None
    (tree_objects (TLeaf (str_bytes "on") (str_bytes "7"))) ex_disk_ok) as Hp.
  apply Hp; clear Hp.
  - apply (bool_decide_unpack (no_collision _ _)). vm_compute. exact I.
  - by split.
  - split.
    + split_and!; apply Nat.leb_le; vm_compute; reflexivity.
    + intros k p Hk. vm_compute in Hk. injection Hk as <- <-.
      split; [split; vm_compute; reflexivity|reflexivity].
    + split; apply (bool_decide_unpack _); vm_compute; exact I.
    + intros o Ho. exact Ho.
Defined.

End witness.
