(* ===== verification/Engine.v ===== *)
(** * The EpochQL executor ([epochql/src/exec/engine.rs])

    The engine runs statements on a [DiskStore] and reads the schema from the files of the
    repository. Sets of hashes are iterated in the order of [elements], maps of bindings in
    the order of [map_to_list]: Rust leaves both unspecified. *)

From Stdlib Require Import Strings.Byte Strings.String Floats.SpecFloat.
From S2P Require Import Prelude Utf8 Hash Cas Hamt CasStore Commit Dag Repo DiskStore.
From S2P Require Import Chars Lexer Text BTree Ast Parser Value Ddl Schema PathIndex.

(** [ExecError]: a text. The texts of [ParseError] and the [Debug] text of an expression
    are kept unrendered. *)
Inductive ExecError :=
| ExecText (s : string)
| ExecParse (e : ParseError)
| ExecNotLiteral (e : Expression).

Definition exec_store (e : EpochsError) : ExecError := ExecText (EpochsError_to_string e).

Record BoundCommit := mk_BoundCommit {
  bound_hash : Hash;
  bound_commit : Commit;
  bound_state : Doc
}.

Abbreviation Bindings := (gmap string BoundCommit).

(** The engine's store and, on the same disk, the files of the schema. *)
Record Engine := mk_Engine { store : DiskStore; files : SchemaFiles }.

(** ** Functions of values *)

Definition hop_bounds (mult : option HopMultiplier) (edge_type : EdgeType) : Z * Z :=
  let default_max := match edge_type with Parent | Child => 1 | Ancestor | Descendant => 64 end in
  match mult with
  | None => (1, default_max)
  | Some Any => (1, 64)
  | Some (Exact n) => (n, n)
  | Some (Range min max) => (default 1 min, default 64 max)
  end.

(** The name of an anonymous element. *)
Definition anon (idx : nat) : string := "_" +:+ pretty idx.

Definition pattern_node_var (elem : PatternElement) (idx : nat) : string :=
  match elem with
  | Node n => default (anon idx) (variable n)
  | Edge _ => anon idx
  end.

(** [timestamp as i64]. *)
Definition as_i64 (z : Z) : Z := (z + 2 ^ 63) mod 2 ^ 64 - 2 ^ 63.

Definition property_of (bound : BoundCommit) (key : string) : Value :=
  if String.eqb key "hash" then VString (Hash.to_string (bound_hash bound))
  else if String.eqb key "message" then VString (Commit.message (bound_commit bound))
  else if String.eqb key "timestamp" then VInt (as_i64 (timestamp (bound_commit bound)))
  else if String.eqb key "root_hamt" then VString (Hash.to_string (root_hamt (bound_commit bound)))
  else default VNull (bound_state bound !! key).

(** The loop of the [Map] arm of [eval_literal_expr] and [eval_expr]. *)
Fixpoint eval_entries {E} (eval : Expression -> outcome E Value) (m : btree Expression)
    (out : btree Value) : outcome E (btree Value) :=
  match m with
  | [] => Ok out
  | (k, v) :: m => v ← eval v; eval_entries eval m (btree_insert k v out)
  end.

Fixpoint eval_literal_expr (expr : Expression) : outcome ExecError Value :=
  match expr with
  | ENull => Ok VNull
  | EBool b => Ok (VBool b)
  | EInt n => Ok (VInt n)
  | EFloat n => Ok (VFloat n)
  | EString s => Ok (VString s)
  | EMap m => out ← eval_entries eval_literal_expr m []; Ok (VMap out)
  | other => Err (ExecNotLiteral other)
  end.

(** Flatten nested maps into dotted keys; the operations are added to [ops]. *)
Fixpoint push_payload_ops (ops : list HamtOp) (prefix : string) (val : Value) :
    outcome ExecError (list HamtOp) :=
  match val with
  | VMap m =>
      (fix go (m : btree Value) (ops : list HamtOp) : outcome ExecError (list HamtOp) :=
         match m with
         | [] => Ok ops
         | (k, v) :: m =>
             let path := if String.eqb prefix EmptyString then k else prefix +:+ "." +:+ k in
             ops ← push_payload_ops ops path v;
             go m ops
         end) m ops
  | other =>
      value ← map_err ExecText (to_storage_bytes other);
      Ok (ops ++ [Put (str_bytes prefix) value])
  end.

(** [f64::EPSILON]. *)
Definition EPSILON : f64 := S754_finite false 4503599627370496 (-104).

Definition values_eq (a b : Value) : bool :=
  match a, b with
  | VNull, VNull => true
  | VBool x, VBool y => Bool.eqb x y
  | VInt x, VInt y => x =? y
  | VFloat x, VFloat y => SFltb (SFabs (SFsub 53 1024 x y)) EPSILON
  | VString x, VString y =>
      if String.eqb x y then true
      else
        let xl := Hash.to_ascii_lowercase x in
        let yl := Hash.to_ascii_lowercase y in
        ((6 <=? str_len xl) && starts_with yl xl) || ((6 <=? str_len yl) && starts_with xl yl)
  | VInt x, VString y | VString y, VInt x => bool_decide (parse_i64_signed y = Some x)
  | _, _ => false
  end.

Definition unbound {A} (name : string) : outcome ExecError A :=
  Err (ExecText ("unbound variable '" +:+ name +:+ "'")).

Definition binary_value (op : BinaryOp) (l r : Value) : Value :=
  match op with
  | OpEq => VBool (values_eq l r)
  | OpNeq => VBool (negb (values_eq l r))
  | OpAnd => VBool (is_truthy l && is_truthy r)
  | OpOr => VBool (is_truthy l || is_truthy r)
  end.

Fixpoint eval_expr (bindings : Bindings) (expr : Expression) : outcome ExecError Value :=
  match expr with
  | ENull => Ok VNull
  | EBool b => Ok (VBool b)
  | EInt n => Ok (VInt n)
  | EFloat n => Ok (VFloat n)
  | EString s => Ok (VString s)
  | EMap m => out ← eval_entries (eval_expr bindings) m []; Ok (VMap out)
  | EVariable name =>
      match bindings !! name with
      | Some b => Ok (VString (Hash.to_string (bound_hash b)))
      | None => unbound name
      end
  | EPropertyAccess (EVariable name) property =>
      match bindings !! name with
      | Some b => Ok (property_of b property)
      | None => unbound name
      end
  | EPropertyAccess object property =>
      base ← eval_expr bindings object;
      match base with
      | VMap m => Ok (default VNull (btree_get property m))
      | _ => Ok VNull
      end
  | EBinary e1 op e2 =>
      l ← eval_expr bindings e1;
      r ← eval_expr bindings e2;
      Ok (binary_value op l r)
  end.

Definition eval_bool (bindings : Bindings) (expr : Expression) : outcome ExecError bool :=
  is_truthy <$> eval_expr bindings expr.

(** [eval_bool(..).unwrap_or(false)]. *)
Definition holds (bindings : Bindings) (expr : Expression) : bool :=
  match eval_bool bindings expr with Ok b => b | _ => false end.

Definition expression_label (expr : Expression) (idx : nat) : string :=
  match expr with
  | EVariable n => n
  | EPropertyAccess _ property => property
  | _ => "col" +:+ pretty idx
  end.

(** The column names of a selection. *)
Definition select_columns (select : SelectClause) : list string :=
  imap (fun i item => default (expression_label (expression item) i) (alias item)) (Ast.items select).

(** [project_rows]. *)
Definition project_rows (select : option SelectClause) (bindings_list : list Bindings) :
    outcome ExecError QueryResult :=
  match bindings_list with
  | [] => Ok empty
  | first :: _ =>
      match select with
      | None =>
          let vars := (map_to_list first).*1 in
          let row (b : Bindings) := (fun v =>
            match b !! v with
            | Some c => VString (Hash.to_string (bound_hash c))
            | None => VNull
            end) <$> vars in
          Ok (mk_QueryResult vars (row <$> bindings_list))
      | Some select =>
          rows ← mapM (fun bindings =>
                   mapM (fun item => eval_expr bindings (expression item)) (Ast.items select))
                   bindings_list;
          Ok (mk_QueryResult (select_columns select) rows)
      end
  end.

(** The loop over the properties of [try_bind_node]. *)
Fixpoint props_match (bound : BoundCommit) (props : btree Expression) : outcome ExecError bool :=
  match props with
  | [] => Ok true
  | (key, expected) :: props =>
      exp_val ← eval_literal_expr expected;
      if value_eq (property_of bound key) exp_val then props_match bound props else Ok false
  end.

Definition toward_root (t : EdgeType) : bool :=
  match t with Parent | Ancestor => true | Child | Descendant => false end.

(** The lines of [exec_diff]. *)
Definition diff_line (key : string) (left right : option (list byte)) : list string :=
  match left, right with
  | None, Some r => ["+ " +:+ key +:+ " = " +:+ from_utf8_lossy r]
  | Some l, None => ["- " +:+ key +:+ " = " +:+ from_utf8_lossy l]
  | Some l, Some r =>
      if decide (l ≠ r) then
        ["~ " +:+ key +:+ ": " +:+ from_utf8_lossy l +:+ " => " +:+ from_utf8_lossy r]
      else []
  | None, None => []
  end.

Definition in_path (path : option string) (key : string) : bool :=
  match path with
  | Some p => String.eqb key p || starts_with key (p +:+ ".")
  | None => true
  end.

Definition diff_lines (path : option string) (left right : gmap string (list byte)) : list string :=
  (btree_entries (left ∪ right)).*1 ≫= fun key =>
    if in_path path key then diff_line key (left !! key) (right !! key) else [].

(** The entries of a trie with their keys as texts. *)
Definition text_entries (entries : list (list byte * list byte)) : gmap string (list byte) :=
  foldl (fun map '(k, v) => <[from_utf8_lossy k := v]> map) ∅ entries.

Module Exec.
Section exec.
Context `{Blake3, MmapLib}.
(** The fuel of the trie operations and of the loops over the commits. *)
Context (fuel : nat).

Abbreviation M := (stM Engine ExecError).

Definition set_store (s : DiskStore) (e : Engine) : Engine := mk_Engine s (files e).

(** Calls on the store, with [?] on their errors. *)
Definition on_store {A} (m : stM DiskStore EpochsError A) : M A :=
  zoom store set_store (catch_err exec_store m).
Definition on_index {A} (m : stM DiskStore string A) : M A :=
  zoom store set_store (catch_err ExecText m).

Definition get_commit (hash : Hash) : M Commit := on_store (Disk.load_commit hash).

Definition error {A} (s : string) : M A := fail (ExecText s).

(** [self.store.head()?.ok_or_else(|| "HEAD not set")]. *)
Definition head_branch : M Branch :=
  head ← on_store Disk.head;
  match head with
  | Some b => mret b
  | None => error "HEAD not set"
  end.

Definition resolve_target_ref (target : TargetRef) : M Hash :=
  match target with
  | THead => head ← head_branch; mret (branch_target head)
  | TBranch name => b ← on_store (Disk.get_branch name); mret (branch_target b)
  | TCommit hex => on_store (Disk.query (Disk.resolve_hash_ref hex))
  | TTag name => error ("tags are not implemented yet (TAG " +:+ name +:+ ")")
  end.

Definition context_hash (ctx : option ContextClause) : M Hash :=
  match ctx with
  | Some c => resolve_target_ref (Ast.target c)
  | None => resolve_target_ref THead
  end.

Definition bind_commit (hash : Hash) (commit : Commit) : M BoundCommit :=
  entries ← on_store (Disk.hamt_entries fuel (root_hamt commit));
  mret (mk_BoundCommit hash commit (flatten_entries entries)).

(** [let c = self.store.get_commit(&h)?; self.bind_commit(h, c)?]. *)
Definition bound_at (h : Hash) : M BoundCommit :=
  c ← get_commit h;
  bind_commit h c.

(** The loop of [shortest_commit_path]. *)
Fixpoint path_loop (loop_fuel : nat) (children : gmap Hash (list Hash)) (to : Hash)
    (queue : list (Hash * list Hash)) (visited : gset Hash) : M (option (list Hash)) :=
  match loop_fuel with
  | O => no_fuel
  | S loop_fuel =>
      match queue with
      | [] => mret None
      | (current, path) :: queue =>
          if decide (current = to) then mret (Some path)
          else
            commit ← get_commit current;
            let neighbors := parents commit ++ default [] (children !! current) in
            let '(visited, queue) :=
              Dag.push_new (fun n => (n, path ++ [n])) neighbors visited queue in
            path_loop loop_fuel children to queue visited
      end
  end.

Definition shortest_commit_path (from to : Hash) : M (list Hash) :=
  children ← on_store (DiskDag.children_map fuel);
  path ← path_loop fuel children to [(from, [from])] {[ from ]};
  match path with
  | Some p => mret p
  | None => error ("no path between " +:+ Hash.to_string from +:+ " and " +:+ Hash.to_string to)
  end.

Definition try_bind_node (node : NodePattern) (hash : Hash) (commit : Commit) :
    M (option BoundCommit) :=
  bound ← bind_commit hash commit;
  ok ← lift (props_match bound (properties node));
  mret (if (ok : bool) then Some bound else None).

(** The loop of [expand_edge]. *)
Fixpoint edge_loop (loop_fuel : nat) (up : bool) (children : gmap Hash (list Hash))
    (min_hops max_hops : Z) (from : Hash) (queue : list (Hash * Z))
    (visited_at_depth : gset (Hash * Z)) (results : gset Hash) : M (gset Hash) :=
  match loop_fuel with
  | O => no_fuel
  | S loop_fuel =>
      match queue with
      | [] => mret results
      | (current, depth) :: queue =>
          let results :=
            if (min_hops <=? depth) && (depth <=? max_hops) && negb (bool_decide (current = from))
            then {[ current ]} ∪ results else results in
          if max_hops <=? depth then
            edge_loop loop_fuel up children min_hops max_hops from queue visited_at_depth results
          else
            nexts ← (if up then c ← get_commit current; mret (parents c)
                     else mret (default [] (children !! current)));
            let nd := depth + 1 in
            let '(visited_at_depth, new) :=
              foldl (fun '(visited, new) n =>
                       if decide ((n, nd) ∈ visited) then (visited, new)
                       else ({[ (n, nd) ]} ∪ visited, new ++ [(n, nd)]))
                (visited_at_depth, []) nexts in
            edge_loop loop_fuel up children min_hops max_hops from (queue ++ new) visited_at_depth
              results
      end
  end.

Definition expand_edge (edge : EdgePattern) (from : Hash) (children : gmap Hash (list Hash)) :
    M (list Hash) :=
  let '(min_hops, max_hops) := hop_bounds (multiplier edge) (edge_type edge) in
  results ← edge_loop fuel (toward_root (edge_type edge)) children min_hops max_hops from
              [(from, 0)] {[ (from, 0) ]} ∅;
  mret (base.elements results).

(** The loop of [match_pattern] that binds the first node. *)
Fixpoint bind_first (first : NodePattern) (hashes : list Hash) (partial : list Bindings) :
    M (list Bindings) :=
  match hashes with
  | [] => mret partial
  | hash :: hashes =>
      commit ← get_commit hash;
      bound ← try_bind_node first hash commit;
      match bound with
      | Some bound =>
          let var := default (anon 0) (variable first) in
          bind_first first hashes (partial ++ [{[ var := bound ]}])
      | None => bind_first first hashes partial
      end
  end.

(** The loop over the candidates at the end of an edge. *)
Fixpoint bind_candidates (node : NodePattern) (var : string) (bindings : Bindings)
    (candidates : list Hash) (next_partial : list Bindings) : M (list Bindings) :=
  match candidates with
  | [] => mret next_partial
  | cand_hash :: candidates =>
      commit ← get_commit cand_hash;
      bound ← try_bind_node node cand_hash commit;
      match bound with
      | Some bound =>
          let conflict := match bindings !! var with
                          | Some existing => bool_decide (bound_hash existing ≠ bound_hash bound)
                          | None => false
                          end in
          if conflict then bind_candidates node var bindings candidates next_partial
          else bind_candidates node var bindings candidates
                 (next_partial ++ [<[var := bound]> bindings])
      | None => bind_candidates node var bindings candidates next_partial
      end
  end.

(** The loop over the partial matches, for the edge and the node at [i] and [i + 1]. *)
Fixpoint extend_partial (children : gmap Hash (list Hash)) (prev_var : string)
    (edge : EdgePattern) (node : NodePattern) (i : nat) (partial next_partial : list Bindings) :
    M (list Bindings) :=
  match partial with
  | [] => mret next_partial
  | bindings :: partial =>
      match bindings !! prev_var with
      | None => error ("unbound pattern variable '" +:+ prev_var +:+ "'")
      | Some src =>
          candidates ← expand_edge edge (bound_hash src) children;
          let var := default (anon (i + 1)) (variable node) in
          next_partial ← bind_candidates node var bindings candidates next_partial;
          extend_partial children prev_var edge node i partial next_partial
      end
  end.

(** The [while] loop of [match_pattern]: [rest] are the elements from [i] on. *)
Fixpoint match_rest (children : gmap Hash (list Hash)) (prev : PatternElement) (i : nat)
    (rest : list PatternElement) (partial : list Bindings) : M (list Bindings) :=
  match rest with
  | e :: n :: rest =>
      match e, n with
      | Edge edge, Node node =>
          partial ← extend_partial children (pattern_node_var prev (i - 1)) edge node i partial [];
          match_rest children n (i + 2) rest partial
      | Edge _, Edge _ => error "expected node after edge"
      | Node _, _ => error "expected edge in pattern"
      end
  | _ => mret partial
  end.

Definition match_pattern (pattern : Pattern) (universe : gset Hash)
    (children : gmap Hash (list Hash)) : M (list Bindings) :=
  match Ast.elements pattern with
  | [] => mret []
  | Edge _ :: _ => error "pattern must start with a node"
  | Node first :: rest =>
      partial ← bind_first first (base.elements universe) [];
      match_rest children (Node first) 1 rest partial
  end.

Fixpoint match_patterns (patterns : list Pattern) (universe : gset Hash)
    (children : gmap Hash (list Hash)) (all_rows : list Bindings) : M (list Bindings) :=
  match patterns with
  | [] => mret all_rows
  | pattern :: patterns =>
      rows ← match_pattern pattern universe children;
      match_patterns patterns universe children (all_rows ++ rows)
  end.

Definition exec_match (match_clause : MatchClause) (context : Hash) : M (list Bindings) :=
  ancestors ← on_store (Dag.collect_ancestors fuel context);
  reachable ← on_store (DiskDag.reachable_commits fuel);
  children ← on_store (DiskDag.children_map fuel);
  match_patterns (patterns match_clause) (ancestors ∪ reachable) children [].

(** ** Queries *)

(** A list of bindings that each bind a commit to [hash]. *)
Fixpoint bind_all (hashes : list Hash) : M (list Bindings) :=
  match hashes with
  | [] => mret []
  | h :: hashes =>
      bound ← bound_at h;
      rest ← bind_all hashes;
      mret ({[ "hash" := bound ]} :: rest)
  end.

(** [hashes.sort_by_key(ToString::to_string)]. *)
Definition hash_le (a b : Hash) : Prop := String.le (Hash.to_string a) (Hash.to_string b).
#[global] Instance hash_le_dec : RelDecision hash_le.
Proof. intros a b. unfold hash_le. apply _. Defined.

Definition traversal_bindings (trav : TraversalClause) : M (list Bindings) :=
  match trav with
  | TrMergeBase a b =>
      ha ← resolve_target_ref a;
      hb ← resolve_target_ref b;
      base ← on_store (Dag.merge_base fuel ha hb);
      match base with
      | Some h => bound ← bound_at h; mret [<["_" := bound]> {[ "hash" := bound ]}]
      | None => mret []
      end
  | TrAncestors t =>
      start ← resolve_target_ref t;
      ancs ← on_store (Dag.collect_ancestors fuel start);
      bind_all (merge_sort hash_le (base.elements ancs))
  | TrShortestPath a b =>
      ha ← resolve_target_ref a;
      hb ← resolve_target_ref b;
      path ← shortest_commit_path ha hb;
      bind_all path
  end.

(** [bindings.values().next()]. *)
Definition any_bound (bindings : Bindings) : outcome ExecError BoundCommit :=
  ok_or (ExecText "empty traversal binding") (head (map_to_list bindings).*2).

Definition traversal_cell (bound : BoundCommit) (bindings : Bindings) (e : Expression) :
    outcome ExecError Value :=
  match e with
  | EVariable name => Ok (property_of bound name)
  | other => eval_expr bindings other
  end.

Definition traversal_rows (select : option SelectClause) (bindings_list : list Bindings) :
    outcome ExecError QueryResult :=
  match select with
  | Some select =>
      rows ← mapM (fun bindings =>
               bound ← any_bound bindings;
               mapM (fun item => traversal_cell bound bindings (expression item)) (Ast.items select))
               bindings_list;
      Ok (mk_QueryResult (select_columns select) rows)
  | None =>
      rows ← mapM (fun bindings =>
               bound ← any_bound bindings;
               Ok [VString (Hash.to_string (bound_hash bound));
                   VInt (as_i64 (timestamp (bound_commit bound)));
                   VString (Commit.message (bound_commit bound))]) bindings_list;
      Ok (mk_QueryResult ["hash"; "timestamp"; "message"] rows)
  end.

Definition exec_traversal_only (q : QueryStatement) : M QueryResult :=
  match traversal q with
  | None => mret empty
  | Some trav =>
      bindings_list ← traversal_bindings trav;
      lift (traversal_rows (select q) bindings_list)
  end.

(** The answer to a query without [MATCH], on the context commit. *)
Definition context_rows (q : QueryStatement) (context : Hash) (bound : BoundCommit) :
    outcome ExecError QueryResult :=
  let bindings : Bindings := {[ "_" := bound ]} in
  pass ← match where_clause q with
         | Some where_expr => eval_bool bindings where_expr
         | None => Ok true
         end;
  if negb pass then Ok empty
  else
    match select q with
    | Some _ => project_rows (select q) [bindings]
    | None =>
        Ok (mk_QueryResult ["hash"; "message"; "timestamp"]
              [[VString (Hash.to_string context); VString (Commit.message (bound_commit bound));
                VInt (as_i64 (timestamp (bound_commit bound)))]])
    end.

(** The filter and the projection of a query with [MATCH]. *)
Definition match_rows (q : QueryStatement) (rows : list Bindings) : outcome ExecError QueryResult :=
  let rows := match where_clause q with
              | Some where_expr => filter (fun b => holds b where_expr = true) rows
              | None => rows
              end in
  project_rows (select q) rows.

Definition exec_query (q : QueryStatement) : M QueryResult :=
  match traversal q, match_clause q with
  | Some _, None => exec_traversal_only q
  | _, _ =>
      context ← context_hash (Ast.context q);
      match match_clause q with
      | Some m =>
          rows ← exec_match m context;
          lift (match_rows q rows)
      | None =>
          bound ← bound_at context;
          lift (context_rows q context bound)
      end
  end.

(** ** Version statements *)

(** The loop of [exec_commit] over the payload. *)
Fixpoint payload_ops (payload : btree Expression) (ops : list HamtOp) :
    outcome ExecError (list HamtOp) :=
  match payload with
  | [] => Ok ops
  | (key, expr) :: payload =>
      val ← eval_literal_expr expr;
      ops ← push_payload_ops ops key val;
      payload_ops payload ops
  end.

Definition load_schema : M SchemaRegistry := fun e =>
  (map_err ExecParse (Registry.load (files e)), e).

(** The document of a root, empty for [ZERO]. *)
Definition doc_of_root (root : Hash) : M Doc :=
  if decide (root = ZERO) then mret ∅ else on_index (PathIndex.doc_from_hamt_root fuel root).

Definition commit_parent_hashes (stmt : CommitStmt) (head : Branch) : M (list Hash) :=
  match commit_parents stmt with
  | Some list => mapM resolve_target_ref list
  | None => mret [branch_target head]
  end.

Definition exec_commit (stmt : CommitStmt) : M MutationResult :=
  head ← head_branch;
  parents ← commit_parent_hashes stmt head;
  base_commit ← match parents with
                | p :: _ => get_commit p
                | [] => panic   (* parents[0] *)
                end;
  let base_root := if decide (root_hamt base_commit = ZERO) then None
                   else Some (root_hamt base_commit) in
  ops ← lift (payload_ops (payload stmt) []);
  new_root ← on_store (Disk.apply_hamt_ops fuel base_root ops);
  schema ← load_schema;
  old_doc ← doc_of_root (root_hamt base_commit);
  new_doc ← doc_of_root new_root;
  index_roots ← on_index (PathIndex.update_indexes_for_commit fuel schema old_doc new_doc
                            (index_roots base_commit));
  new_hash ← on_store (Disk.commit_with_indexes parents new_root index_roots
                         (default "commit" (commit_message stmt)));
  _ ← on_store (Disk.update_branch (branch_name head) new_hash);
  mret (mk_MutationResult ("committed on branch '" +:+ branch_name head +:+ "'")
          (Some (Hash.to_string new_hash))).

Definition exec_branch (stmt : BranchStmt) : M MutationResult :=
  match stmt with
  | BCreate name from =>
      target ← match from with
               | Some t => resolve_target_ref t
               | None => resolve_target_ref THead
               end;
      _ ← on_store (Disk.create_branch name target);
      mret (mk_MutationResult ("created branch '" +:+ name +:+ "'") (Some (Hash.to_string target)))
  | BDelete name =>
      _ ← on_store (Disk.delete_branch name);
      mret (mk_MutationResult ("deleted branch '" +:+ name +:+ "'") None)
  end.

Definition exec_checkout (target : TargetRef) : M MutationResult :=
  match target with
  | TBranch name =>
      _ ← on_store (Disk.set_head name);
      tip ← on_store (Disk.get_branch name);
      mret (mk_MutationResult ("checked out branch '" +:+ name +:+ "'")
              (Some (Hash.to_string (branch_target tip))))
  | THead =>
      head ← head_branch;
      mret (mk_MutationResult ("already on branch '" +:+ branch_name head +:+ "'")
              (Some (Hash.to_string (branch_target head))))
  | TCommit hex =>
      hash ← on_store (Disk.query (Disk.resolve_hash_ref hex));
      _ ← get_commit hash;
      mret (mk_MutationResult
              ("resolved commit " +:+ Hash.to_string hash +:+ " (detached; HEAD unchanged)")
              (Some (Hash.to_string hash)))
  | TTag name => error ("tags not implemented: " +:+ name)
  end.

Definition exec_merge (stmt : MergeStmt) : M MutationResult :=
  source ← resolve_target_ref (merge_source stmt);
  into ← resolve_target_ref (merge_into stmt);
  into_branch ← match merge_into stmt with
                | TBranch n => mret n
                | THead => head ← head_branch; mret (branch_name head)
                | _ => error "MERGE INTO requires a branch or HEAD"
                end;
  match strategy stmt with
  | FastForward =>
      ok ← on_store (Dag.is_ancestor fuel into source);
      if negb ok then
        error "fast-forward not possible: source is not a descendant of target"
      else
        _ ← on_store (Disk.update_branch into_branch source);
        mret (mk_MutationResult ("fast-forwarded '" +:+ into_branch +:+ "'")
                (Some (Hash.to_string source)))
  | ThreeWay | Squash =>
      error "THREE_WAY and SQUASH merge strategies are not implemented yet"
  end.

Definition diff_summary (lines : list string) : string :=
  match lines with
  | [] => "diff: no changes"
  | _ => "diff:" +:+ newline_str +:+ String.concat newline_str lines
  end.

Definition exec_diff (stmt : DiffStmt) : M MutationResult :=
  l ← resolve_target_ref (diff_left stmt);
  r ← resolve_target_ref (diff_right stmt);
  lc ← get_commit l;
  rc ← get_commit r;
  left_entries ← on_store (Disk.hamt_entries fuel (root_hamt lc));
  right_entries ← on_store (Disk.hamt_entries fuel (root_hamt rc));
  let lines := diff_lines (diff_path stmt) (text_entries left_entries) (text_entries right_entries) in
  mret (mk_MutationResult (diff_summary lines) None).

Definition exec_version (v : VersionStatement) : M MutationResult :=
  match v with
  | VCommit c => exec_commit c
  | VBranch b => exec_branch b
  | VCheckout t => exec_checkout t
  | VMerge m => exec_merge m
  | VDiff d => exec_diff d
  end.

(** ** Statements *)

Definition execute_statement (stmt : Statement) : M ExecResult :=
  match stmt with
  | Query q => r ← exec_query q; mret (RQuery r)
  | Version v => r ← exec_version v; mret (RMutation r)
  end.

Fixpoint execute_statements (stmts : list Statement) (out : list ExecResult) :
    M (list ExecResult) :=
  match stmts with
  | [] => mret out
  | stmt :: stmts =>
      r ← execute_statement stmt;
      execute_statements stmts (out ++ [r])
  end.

(** [Engine::execute]. *)
Definition execute (source : string) : M (list ExecResult) :=
  stmts ← lift (map_err ExecParse (Parse.parse_script source));
  execute_statements stmts [].

(** [Engine::execute_one]. *)
Definition execute_one (source : string) : M ExecResult :=
  stmt ← lift (map_err ExecParse (Parse.parse source));
  execute_statement stmt.

End exec.
End Exec.
