(* ===== verification/Reads.v ===== *)
(** * Computations that only read

    [keeps I m Q]: from a state in [I], the computation stays in [I] and its result is in
    [Q]. With [view s] for [I] - the states with the objects, the refs and the clock of [s] -
    this says that a computation of the store only fills caches, and what it returns. *)

From S2P Require Import Prelude Utf8 Hash Codec Record Cache Index Cas HamtNode Hamt HamtTree HamtProofs HamtSpec CasStore CasStoreProofs CasStoreSpec Commit Bfs Dag Repo DiskStore DiskStoreSpec.
From S2P Require Import Chars Lexer Text BTree Ast Parser Value Ddl Schema PathIndex Engine.

(** ** The logic *)

Definition keeps {S E A} (I : S -> Prop) (m : stM S E A) (Q : outcome E A -> Prop) : Prop :=
  forall s, I s -> let '(r, s') := m s in I s' /\ Q r.

(** The result is [r], whatever the state. *)
Abbreviation gives I m r := (keeps I m (fun r' => r' = r)).

(** No more than staying in [I]. *)
Class ReadOnly {S E A} (I : S -> Prop) (m : stM S E A) : Prop :=
  read_only : keeps I m (fun _ => True).

Section keeps.
Context {S E : Type} (I : S -> Prop).

Lemma keeps_mono {A} (m : stM S E A) (Q R : outcome E A -> Prop) :
  keeps I m Q -> (forall r, Q r -> R r) -> keeps I m R.
Proof. intros H HQR s Hs. specialize (H s Hs). destruct (m s). naive_solver. Qed.

Lemma keeps_bind {A B} (m : stM S E A) (f : A -> stM S E B) Q R :
  keeps I m Q ->
  (forall a, Q (Ok a) -> keeps I (f a) R) ->
  (forall e, Q (Err e) -> R (Err e)) -> (Q Panic -> R Panic) -> (Q OutOfFuel -> R OutOfFuel) ->
  keeps I (m ≫= f) R.
Proof.
  intros Hm Hf He Hp Ho s Hs. rewrite stM_bind_eq. specialize (Hm s Hs).
  destruct (m s) as [[a|e| |] s']; destruct Hm as [Hs' HQ]; [|by auto..]. by apply Hf.
Qed.

(** After a computation with a known value. *)
Lemma keeps_step {A B} (m : stM S E A) (f : A -> stM S E B) a R :
  gives I m (Ok a) -> keeps I (f a) R -> keeps I (m ≫= f) R.
Proof. intros Hm Hf. eapply keeps_bind; [exact Hm|by intros ? [= ->]|done..]. Qed.

(** After a computation that succeeds. *)
Lemma keeps_bind_ok {A B} (m : stM S E A) (f : A -> stM S E B) (P : A -> Prop) R :
  keeps I m (fun r => exists a, r = Ok a /\ P a) -> (forall a, P a -> keeps I (f a) R) ->
  keeps I (m ≫= f) R.
Proof.
  intros Hm Hf. eapply keeps_bind; [exact Hm|..].
  - intros a (a' & [= <-] & Ha). by apply Hf.
  - by intros e (? & ? & _).
  - by intros (? & ? & _).
  - by intros (? & ? & _).
Qed.

Lemma keeps_fails {A B} (m : stM S E A) (f : A -> stM S E B) e :
  gives I m (Err e) -> gives I (m ≫= f) (Err e).
Proof. intros Hm. eapply keeps_bind; [exact Hm|done|by intros ? [= ->]|done..]. Qed.

Lemma keeps_ret {A} (a : A) (Q : outcome E A -> Prop) : Q (Ok a) -> keeps I (mret a) Q.
Proof. by intros H s Hs. Qed.

Lemma keeps_lift {A} (r : outcome E A) (Q : outcome E A -> Prop) : Q r -> keeps I (lift r) Q.
Proof. by intros H s Hs. Qed.

Lemma keeps_fail {A} (e : E) (Q : outcome E A -> Prop) : Q (Err e) -> keeps I (fail e) Q.
Proof. by intros H s Hs. Qed.

#[global] Instance ro_ret {A} (a : A) : ReadOnly I (mret a : stM S E A).
Proof. by apply keeps_ret. Qed.
#[global] Instance ro_lift {A} (r : outcome E A) : ReadOnly I (lift r).
Proof. by apply keeps_lift. Qed.
#[global] Instance ro_fail {A} (e : E) : ReadOnly I (fail e : stM S E A).
Proof. by apply keeps_fail. Qed.
#[global] Instance ro_panic {A} : ReadOnly I (panic : stM S E A).
Proof. by intros s Hs. Qed.
#[global] Instance ro_no_fuel {A} : ReadOnly I (no_fuel : stM S E A).
Proof. by intros s Hs. Qed.
#[global] Instance ro_gets {A} (f : S -> A) : ReadOnly I (gets f : stM S E A).
Proof. by intros s Hs. Qed.

#[global] Instance ro_bind {A B} (m : stM S E A) (f : A -> stM S E B) :
  ReadOnly I m -> (forall a, ReadOnly I (f a)) -> ReadOnly I (m ≫= f).
Proof. intros Hm Hf. by eapply keeps_bind; [exact Hm|intros a _; apply Hf|..]. Qed.

#[global] Instance ro_mapM {A B} (f : A -> stM S E B) l :
  (forall a, ReadOnly I (f a)) -> ReadOnly I (mapM f l).
Proof. intros Hf. induction l as [|a l IH]; cbn [mapM]; apply _. Qed.

#[global] Instance ro_catch_err {F A} (f : E -> F) (m : stM S E A) :
  ReadOnly I m -> ReadOnly I (catch_err f m).
Proof.
  intros Hm s Hs. specialize (Hm s Hs). unfold catch_err. by destruct (m s).
Qed.

End keeps.

#[global] Hint Mode ReadOnly - - - - ! : typeclass_instances.

(** Read-only by the structure of the computation. *)
Ltac ro :=
  repeat first
    [ progress intros
    | apply ro_bind
    | apply ro_mapM
    | apply _
    | assumption
    | match goal with |- ReadOnly _ (match ?x with _ => _ end) => destruct x end
    | match goal with |- ReadOnly _ (let '_ := ?x in _) => destruct x end ].

(** ** The trie and the graph algorithms over any store *)

Section over_store.
Context {S : Type} (I : S -> Prop).

Section trie.
Context `{Blake3, !CasBackend S} (Hget : forall h, ReadOnly I (cas_get_record h)).

#[local] Existing Instance Hget.

Lemma ro_collect_entries fuel h out :
  ReadOnly I (PersistentHamt.collect_entries fuel h out).
Proof.
  revert h out. induction fuel as [|fuel IH]; intros h out; cbn [PersistentHamt.collect_entries]; [ro|].
  unfold PersistentHamt.load_node. ro.
  assert (forall (m : stM S EpochsError _), ReadOnly I m ->
    ReadOnly I (foldl (fun acc child => out ← acc; PersistentHamt.collect_entries fuel child out)
      m children)) as Hfold; [|apply Hfold; ro].
  induction children as [|c l IHl]; intros m Hm; cbn [foldl]; [done|]. apply IHl. ro.
Qed.

Lemma ro_entries fuel root : ReadOnly I (PersistentHamt.entries fuel root).
Proof. destruct root; cbn [PersistentHamt.entries]; [apply ro_collect_entries|ro]. Qed.

End trie.

Section dag.
Context `{!DagStore S} (Hget : forall h, ReadOnly I (get_commit h)).

#[local] Existing Instance Hget.

Lemma ro_collect_loop fuel queue anc : ReadOnly I (Dag.collect_loop fuel queue anc).
Proof.
  revert queue anc. induction fuel as [|fuel IH]; intros queue anc; cbn [Dag.collect_loop]; ro.
Qed.

Lemma ro_merge_loop fuel anc queue visited : ReadOnly I (Dag.merge_loop fuel anc queue visited).
Proof.
  revert queue visited. induction fuel as [|fuel IH]; intros queue visited; cbn [Dag.merge_loop]; ro.
Qed.

Lemma ro_collect_ancestors fuel h : ReadOnly I (Dag.collect_ancestors fuel h).
Proof. apply ro_collect_loop. Qed.

Lemma ro_merge_base fuel a b : ReadOnly I (Dag.merge_base fuel a b).
Proof. unfold Dag.merge_base. ro; first [apply ro_collect_ancestors|apply ro_merge_loop]. Qed.

Lemma ro_is_ancestor fuel a b : ReadOnly I (Dag.is_ancestor fuel a b).
Proof. unfold Dag.is_ancestor. ro. apply ro_collect_ancestors. Qed.

End dag.
End over_store.

(** ** The disk store *)

Section disk.
Context `{Blake3, !MmapLib, !MmapLaws}.

(** A store in order with the objects, the refs and the clock of [s]. *)
Record view (s s' : DiskStore) : Prop := {
  view_ok : disk_ok s';
  view_cas : same_view (ds_cas s) (ds_cas s');
  view_repo : ds_repo s' = ds_repo s;
  view_fsync : ds_fsync_every s' = ds_fsync_every s;
  view_since : ds_since s' = ds_since s;
  view_ts : ds_ts s' = ds_ts s;
  view_now : ds_now s' = ds_now s
}.

Lemma same_view_refl c : same_view c c.
Proof. done. Qed.

Lemma same_view_trans c1 c2 c3 : same_view c1 c2 -> same_view c2 c3 -> same_view c1 c3.
Proof. intros (? & ? & ? & ? & ?) (? & ? & ? & ? & ?). split_and!; congruence. Qed.

Lemma view_refl s : disk_ok s -> view s s.
Proof. by split. Qed.

Lemma view_objects s s' : view s s' -> disk_objects s' = disk_objects s.
Proof. intros Hv. by apply same_view_objects, Hv. Qed.

Lemma view_same_dag s s' : view s s' -> same_dag s s'.
Proof. intros Hv. split; [apply Hv|]. intros h. cbn. by rewrite (view_objects _ _ Hv). Qed.

(** A call on the CAS that keeps its view. *)
Lemma view_on_cas {A} s (m : stM CasStore EpochsError A) (Q : outcome EpochsError A -> Prop) :
  keeps (fun c => store_ok c /\ same_view (ds_cas s) c) m Q -> keeps (view s) (Disk.on_cas m) Q.
Proof.
  intros Hm s1 Hv. unfold Disk.on_cas, zoom.
  specialize (Hm (ds_cas s1) (conj (disk_cas _ (view_ok _ _ Hv)) (view_cas _ _ Hv))).
  destruct (m (ds_cas s1)) as [r c']. destruct Hm as ([Hok Hsame] & HQ). split; [|done].
  destruct Hv as [[Hc Hl Hcached] Hsc ? ? ? ? ?]. split; try done. split; try done.
  intros h c Hh. specialize (Hcached h c Hh). unfold disk_objects in *.
  by rewrite <- (same_view_objects _ _ Hsc), <- (same_view_objects _ _ Hsame) in * ||
     (rewrite (same_view_objects _ _ Hsc) in Hcached; cbn [Disk.set_cas ds_cas];
      by rewrite (same_view_objects _ _ Hsame)).
Qed.

Lemma keeps_get_payload c0 h :
  gives (fun c => store_ok c /\ same_view c0 c) (Store.get_payload h)
    (ok_or (Storage (NotFound h)) (store_objects c0 !! h)).
Proof.
  intros c [Hok Hsame]. pose proof (get_payload_ok c h Hok) as Hg.
  destruct (Store.get_payload h c) as [r c']. destruct Hg as (Hok' & Hsame' & ->).
  split; [split; [done|by eapply same_view_trans]|]. by rewrite (same_view_objects _ _ Hsame).
Qed.

#[global] Instance ro_cas_get c0 h :
  ReadOnly (fun c => store_ok c /\ same_view c0 c) (cas_get_record h).
Proof. eapply keeps_mono; [apply keeps_get_payload|done]. Qed.

(** What [get_commit] returns. *)
Definition commit_result (objs : gmap Hash Object) (h : Hash) (r : outcome EpochsError Commit) :
    Prop :=
  match commit_at objs h with Some c => r = Ok c | None => exists e, r = Err e end.

Lemma view_set_cache s s1 h c :
  view s s1 -> commit_at (disk_objects s1) h = Some c ->
  view s (Disk.set_cache (Lru.insert h c (ds_cache s1)) s1).
Proof. intros [Hok ? ? ? ? ? ?] Hc. split; try done. by apply cache_commit_ok. Qed.

Lemma keeps_get_record s h :
  gives (view s) (Disk.on_cas (Store.get_record h))
    ((fun o => mk_Record o.1 h o.2) <$> ok_or (Storage (NotFound h)) (disk_objects s !! h)).
Proof.
  apply view_on_cas. unfold Store.get_record. eapply keeps_bind; [apply keeps_get_payload| | | |].
  - intros [ty p] E. apply keeps_ret. unfold disk_objects. by rewrite <- E.
  - intros e E. unfold disk_objects. by rewrite <- E.
  - intros E. unfold disk_objects. by rewrite <- E.
  - intros E. unfold disk_objects. by rewrite <- E.
Qed.

Lemma keeps_load_commit s h :
  keeps (view s) (Disk.load_commit h) (commit_result (disk_objects s) h).
Proof.
  intros s1 Hv. unfold Disk.load_commit. destruct (Lru.get h (ds_cache s1)) as [c|] eqn:Hc.
  { split; [done|]. unfold commit_result. rewrite <- (view_objects _ _ Hv).
    by rewrite (disk_cached _ (view_ok _ _ Hv) h c Hc). }
  revert s1 Hv Hc. cut (keeps (view s) (record ← Disk.on_cas (Store.get_record h);
    if decide (record_type record ≠ Record.TCommit) then fail (Codec "hash is not a commit")
    else
      commit ← lift (decode_payload (Record.payload record));
      _ ← modify (fun s => Disk.set_cache (Lru.insert h commit (ds_cache s)) s);
      mret commit) (commit_result (disk_objects s) h)).
  { intros Hk s1 Hv _. by apply Hk. }
  pose proof (keeps_get_record s h) as Hg. unfold commit_result, commit_at.
  destruct (disk_objects s !! h) as [[ty p]|] eqn:Ho; cbn [ok_or fmap outcome_fmap fst snd] in Hg.
  - eapply keeps_step; [exact Hg|]. cbn [record_type Record.payload].
    case_decide as Hty; [apply keeps_fail; destruct ty; try done; by eexists|].
    assert (ty = Record.TCommit) as -> by (destruct ty; try done; by destruct Hty).
    destruct (decode_payload_total p) as [[c Hd]|[e Hd]]; rewrite Hd.
    + apply keeps_step with c; [by apply keeps_lift|]. intros s1 Hv.
      rewrite stM_bind_eq. cbn [modify]. split; [|done]. apply view_set_cache; [done|].
      rewrite (view_objects _ _ Hv). unfold commit_at. by rewrite Ho, Hd.
    + eapply keeps_mono; [by apply keeps_fails, keeps_lift|]. intros r ->. by eexists.
  - eapply keeps_mono; [by apply keeps_fails|]. intros r ->. by eexists.
Qed.

#[global] Instance ro_load_commit s h : ReadOnly (view s) (Disk.load_commit h).
Proof. eapply keeps_mono; [apply keeps_load_commit|done]. Qed.

Lemma keeps_commit s h c :
  commit_at (disk_objects s) h = Some c -> gives (view s) (Disk.load_commit h) (Ok c).
Proof. intros Hc. eapply keeps_mono; [apply keeps_load_commit|]. unfold commit_result. by rewrite Hc. Qed.

Lemma keeps_get_branch s name :
  gives (view s) (Disk.get_branch name) (RepoOps.read_branch name (ds_repo s)).
Proof. intros s1 Hv. unfold Disk.get_branch. by rewrite (view_repo _ _ Hv). Qed.

#[global] Instance ro_get_branch s name : ReadOnly (view s) (Disk.get_branch name).
Proof. eapply keeps_mono; [apply keeps_get_branch|done]. Qed.

Lemma keeps_head s :
  gives (view s) Disk.head
    match repo_head (ds_repo s) with
    | Some name => Some <$> RepoOps.read_branch name (ds_repo s)
    | None => Ok None
    end.
Proof.
  intros s1 Hv. unfold Disk.head, RepoOps.head_branch. rewrite (view_repo _ _ Hv).
  destruct (repo_head (ds_repo s)) as [name|]; [|done].
  unfold fmap at 1, stM_fmap. rewrite stM_bind_eq. unfold Disk.get_branch.
  rewrite (view_repo _ _ Hv). by destruct (RepoOps.read_branch name (ds_repo s)).
Qed.

#[global] Instance ro_head s : ReadOnly (view s) Disk.head.
Proof. eapply keeps_mono; [apply keeps_head|done]. Qed.

Lemma keeps_resolve_hash s hex :
  gives (view s) (Disk.query (Disk.resolve_hash_ref hex)) (Disk.resolve_hash_ref hex s).
Proof.
  intros s1 Hv. split; [done|]. unfold Disk.resolve_hash_ref, Store.contains, Store.find_by_prefix.
  by rewrite (proj1 (view_cas _ _ Hv)).
Qed.

#[global] Instance ro_query {A} s (f : DiskStore -> Result A) : ReadOnly (view s) (Disk.query f).
Proof. by intros s1 Hv. Qed.

#[global] Instance ro_hamt_entries s fuel root : ReadOnly (view s) (Disk.hamt_entries fuel root).
Proof.
  unfold Disk.hamt_entries. case_decide; [ro|]. apply view_on_cas.
  apply ro_entries. apply _.
Qed.

(** The entries of a stored snapshot. *)
Lemma keeps_hamt_entries s fuel root ot :
  snapshot_at (disk_objects s) (Some root) ot -> (root_height ot < fuel)%nat ->
  gives (view s) (Disk.hamt_entries fuel root) (Ok (opt_entries ot)).
Proof.
  intros Hat Hfuel. unfold Disk.hamt_entries, snapshot_at, norm_root in *.
  destruct (decide (root = ZERO)) as [->|Hz].
  - rewrite decide_True in Hat by done. destruct Hat as [E _]. destruct ot; [done|].
    by apply keeps_ret.
  - rewrite decide_False in Hat by congruence. apply view_on_cas. intros c [Hok Hsame].
    pose proof (ro_entries (fun c => store_ok c /\ same_view (ds_cas s) c)
      (ro_cas_get (ds_cas s)) fuel (Some root) c (conj Hok Hsame)) as Hro.
    assert (root_at (cas_objects c) (Some root) ot) as Hat'.
    { cbn. by rewrite (same_view_objects _ _ Hsame). }
    destruct (entries_returns c (Some root) ot fuel) as (c' & Hrun & _); [exact Hok|exact Hat'|done|].
    rewrite Hrun in *. destruct Hro as [? _]. done.
Qed.

End disk.

(** ** The computations of the store and of the engine that read *)

(** An invariant of the store that its basic reads keep. *)
Class StoreReads `{Blake3, MmapLib} (J : DiskStore -> Prop) := {
  sr_load_commit :: forall h, ReadOnly J (Disk.load_commit h);
  sr_get_branch :: forall name, ReadOnly J (Disk.get_branch name);
  sr_head :: ReadOnly J Disk.head;
  sr_query :: forall A (f : DiskStore -> Result A), ReadOnly J (Disk.query f);
  sr_hamt_entries :: forall fuel root, ReadOnly J (Disk.hamt_entries fuel root)
}.

(** An invariant of the engine over one of its store. *)
Class EngineReads (I : Engine -> Prop) (J : DiskStore -> Prop) := {
  er_on_store : forall A (m : stM DiskStore EpochsError A),
    ReadOnly J m -> ReadOnly I (Exec.on_store m);
  er_on_index : forall A (m : stM DiskStore string A), ReadOnly J m -> ReadOnly I (Exec.on_index m)
}.
#[global] Hint Mode EngineReads ! - : typeclass_instances.

#[global] Instance ro_on_store {A} I J (m : stM DiskStore EpochsError A) :
  EngineReads I J -> ReadOnly J m -> ReadOnly I (Exec.on_store m).
Proof. intros Hr. apply er_on_store. Qed.
#[global] Instance ro_on_index {A} I J (m : stM DiskStore string A) :
  EngineReads I J -> ReadOnly J m -> ReadOnly I (Exec.on_index m).
Proof. intros Hr. apply er_on_index. Qed.

Section store_reads.
Context `{Blake3, MmapLib} (J : DiskStore -> Prop) `{!StoreReads J}.

#[global] Instance ro_get_commit h : ReadOnly J (get_commit h).
Proof. apply sr_load_commit. Qed.

#[global] Instance ro_disk_collect fuel h : ReadOnly J (Dag.collect_ancestors fuel h).
Proof. apply ro_collect_ancestors. apply _. Qed.
#[global] Instance ro_disk_merge_base fuel a b : ReadOnly J (Dag.merge_base fuel a b).
Proof. apply ro_merge_base. apply _. Qed.
#[global] Instance ro_disk_is_ancestor fuel a b : ReadOnly J (Dag.is_ancestor fuel a b).
Proof. apply ro_is_ancestor. apply _. Qed.

#[global] Instance ro_reachable_from fuel names all :
  ReadOnly J (DiskDag.reachable_from fuel names all).
Proof.
  revert all. induction names as [|name names IH]; intros all; cbn [DiskDag.reachable_from]; ro.
  apply ro_collect_loop. apply _.
Qed.

#[global] Instance ro_reachable_commits fuel : ReadOnly J (DiskDag.reachable_commits fuel).
Proof. intros s1 Hv. unfold DiskDag.reachable_commits. by apply ro_reachable_from. Qed.

#[global] Instance ro_children_loop hashes map : ReadOnly J (DiskDag.children_loop hashes map).
Proof. revert map. induction hashes as [|h hashes IH]; intros map; cbn [DiskDag.children_loop]; ro. Qed.

#[global] Instance ro_children_map fuel : ReadOnly J (DiskDag.children_map fuel).
Proof. unfold DiskDag.children_map. ro. Qed.

End store_reads.

Section engine_reads.
Context `{Blake3, MmapLib} (I : Engine -> Prop) (J : DiskStore -> Prop).
Context `{!StoreReads J, !EngineReads I J}.

#[global] Instance ro_exec_get_commit h : ReadOnly I (Exec.get_commit h).
Proof. unfold Exec.get_commit. ro. Qed.

#[global] Instance ro_error {A} s : ReadOnly I (Exec.error (A := A) s).
Proof. unfold Exec.error. ro. Qed.

#[global] Instance ro_head_branch : ReadOnly I Exec.head_branch.
Proof. unfold Exec.head_branch. ro. Qed.

#[global] Instance ro_resolve_target_ref t : ReadOnly I (Exec.resolve_target_ref t).
Proof. destruct t; cbn [Exec.resolve_target_ref]; ro. Qed.

#[global] Instance ro_bind_commit fuel h c : ReadOnly I (Exec.bind_commit fuel h c).
Proof. unfold Exec.bind_commit. ro. Qed.

#[global] Instance ro_bound_at fuel h : ReadOnly I (Exec.bound_at fuel h).
Proof. unfold Exec.bound_at. ro. Qed.

#[global] Instance ro_try_bind_node fuel node h c :
  ReadOnly I (Exec.try_bind_node fuel node h c).
Proof. unfold Exec.try_bind_node. ro. Qed.

#[global] Instance ro_path_loop n children to queue visited :
  ReadOnly I (Exec.path_loop n children to queue visited).
Proof.
  revert queue visited. induction n as [|n IH]; intros queue visited; cbn [Exec.path_loop]; ro.
Qed.

#[global] Instance ro_edge_loop n up children mn mx from queue visited results :
  ReadOnly I (Exec.edge_loop n up children mn mx from queue visited results).
Proof.
  revert queue visited results.
  induction n as [|n IH]; intros queue visited results; cbn [Exec.edge_loop]; ro.
Qed.

#[global] Instance ro_expand_edge fuel edge from children :
  ReadOnly I (Exec.expand_edge fuel edge from children).
Proof. unfold Exec.expand_edge. ro. Qed.

#[global] Instance ro_bind_first fuel first hashes partial :
  ReadOnly I (Exec.bind_first fuel first hashes partial).
Proof. revert partial. induction hashes as [|h hashes IH]; intros partial; cbn [Exec.bind_first]; ro. Qed.

#[global] Instance ro_bind_candidates fuel node var b hashes next :
  ReadOnly I (Exec.bind_candidates fuel node var b hashes next).
Proof.
  revert next. induction hashes as [|h hashes IH]; intros next; cbn [Exec.bind_candidates]; ro.
Qed.

#[global] Instance ro_extend_partial fuel children prev edge node i partial next :
  ReadOnly I (Exec.extend_partial fuel children prev edge node i partial next).
Proof.
  revert next. induction partial as [|b partial IH]; intros next; cbn [Exec.extend_partial]; ro.
Qed.

Lemma ro_match_rest_n fuel children n :
  forall rest prev i partial, (length rest <= n)%nat ->
  ReadOnly I (Exec.match_rest fuel children prev i rest partial).
Proof.
  induction n as [|n IH]; intros [|e [|x rest]] prev i partial Hn; cbn [Exec.match_rest length] in *;
    try lia; ro. apply IH. lia.
Qed.

#[global] Instance ro_match_patterns fuel patterns universe children rows :
  ReadOnly I (Exec.match_patterns fuel patterns universe children rows).
Proof.
  revert rows. induction patterns as [|p patterns IH]; intros rows; cbn [Exec.match_patterns]; [ro|].
  apply ro_bind; [|ro]. unfold Exec.match_pattern. destruct (Ast.elements p) as [|[first|e] rest];
    [ro| |ro]. apply ro_bind; [ro|]. intros partial. by eapply ro_match_rest_n.
Qed.

#[global] Instance ro_bind_all fuel hashes : ReadOnly I (Exec.bind_all fuel hashes).
Proof. induction hashes as [|h hashes IH]; cbn [Exec.bind_all]; ro. Qed.

#[global] Instance ro_traversal_bindings fuel t :
  ReadOnly I (Exec.traversal_bindings fuel t).
Proof.
  destruct t; cbn [Exec.traversal_bindings]; unfold Exec.shortest_commit_path; ro.
Qed.

#[global] Instance ro_exec_query fuel q : ReadOnly I (Exec.exec_query fuel q).
Proof.
  unfold Exec.exec_query, Exec.exec_traversal_only, Exec.context_hash, Exec.exec_match. ro.
Qed.

#[global] Instance ro_exec_diff fuel d : ReadOnly I (Exec.exec_diff fuel d).
Proof. unfold Exec.exec_diff. ro. Qed.

End engine_reads.

(** ** The engine over a view *)

Section engine.
Context `{Blake3, !MmapLib, !MmapLaws}.
Context (e0 : Engine).

(** The engine over a view of the store of [e0], with its files. *)
Definition engine_view (e : Engine) : Prop := view (store e0) (store e) /\ files e = files e0.

Lemma engine_view_refl : disk_ok (store e0) -> engine_view e0.
Proof. intros Hok. split; [by apply view_refl|done]. Qed.

Lemma keeps_on_store {A} (m : stM DiskStore EpochsError A) (Q : outcome EpochsError A -> Prop)
    (R : outcome ExecError A -> Prop) :
  keeps (view (store e0)) m Q -> (forall r, Q r -> R (map_err exec_store r)) ->
  keeps engine_view (Exec.on_store m) R.
Proof.
  intros Hm HQR e [Hv Hf]. unfold Exec.on_store, zoom, catch_err. specialize (Hm (store e) Hv).
  destruct (m (store e)) as [r s']. destruct Hm as [Hv' HQ]. split; [by split|by apply HQR].
Qed.

Lemma gives_on_store {A} (m : stM DiskStore EpochsError A) r :
  gives (view (store e0)) m r -> gives engine_view (Exec.on_store m) (map_err exec_store r).
Proof. intros Hm. eapply keeps_on_store; [exact Hm|]. by intros ? ->. Qed.

Lemma keeps_on_store_ok {A} (m : stM DiskStore EpochsError A) (P : A -> Prop) :
  keeps (view (store e0)) m (fun r => exists a, r = Ok a /\ P a) ->
  keeps engine_view (Exec.on_store m) (fun r => exists a, r = Ok a /\ P a).
Proof. intros Hm. eapply keeps_on_store; [exact Hm|]. intros r (a & -> & Ha). by exists a. Qed.

#[global] Instance view_reads s : StoreReads (view s).
Proof. split; apply _. Qed.

#[global] Instance engine_view_reads : EngineReads engine_view (view (store e0)).
Proof.
  split.
  - intros A m Hm. by eapply keeps_on_store.
  - intros A m Hm e [Hv Hf]. unfold Exec.on_index, zoom, catch_err. specialize (Hm (store e) Hv).
    destruct (m (store e)) as [r s']. destruct Hm as [Hv' _]. by split.
Qed.

End engine.

(** C21: A query only reads. Whatever it returns, after a query (or a [DIFF]) the repository
    has the same objects, refs, HEAD and schema files, and is still in order. *)
Theorem query_reads_only `{Blake3, !MmapLib, !MmapLaws} (fuel : nat) (e : Engine)
    (stmt : Statement) :
  disk_ok (store e) ->
  match stmt with Query _ | Version (VDiff _) => True | _ => False end ->
  let '(_, e') := Exec.execute_statement fuel stmt e in
  disk_ok (store e') /\ disk_objects (store e') = disk_objects (store e) /\
  ds_repo (store e') = ds_repo (store e) /\ files e' = files e.
Proof.
  intros Hok Hst.
  assert (ReadOnly (engine_view e) (Exec.execute_statement fuel stmt)) as Hro.
  { destruct stmt as [q|[]]; try done; cbn [Exec.execute_statement Exec.exec_version]; ro. }
  specialize (Hro e (engine_view_refl e Hok)).
  destruct (Exec.execute_statement fuel stmt e) as [r e']. destruct Hro as [[Hv Hf] _].
  split; [apply Hv|]. split; [by apply view_objects|]. split; [apply Hv|done].
Qed.

Section witness.

#[local] Existing Instance toy_hash.
#[local] Existing Instance id_mmap.
#[local] Existing Instance id_mmap_laws.

(** [FROM HEAD]. *)
Definition ex_read : Statement :=
  Query (mk_QueryStatement (Some (mk_ContextClause THead)) None None None None).
Definition ex_reader : Engine := mk_Engine ex_disk (mk_SchemaFiles None None None).

Lemma query_reads_only_witness :
  let '(_, e') := Exec.execute_statement 60 ex_read ex_reader in
  disk_ok (store e') /\ disk_objects (store e') = disk_objects (store ex_reader) /\
  ds_repo (store e') = ds_repo (store ex_reader) /\ files e' = files ex_reader.
Proof.
  pose proof (query_reads_only 60 ex_reader ex_read ex_disk_ok Logic.I) as Hp. exact Hp.
Defined.

End witness.
