(* ===== verification/EngineSpec.v ===== *)
(** * What queries answer

    The commits and documents a query sees, the hops of an edge pattern, and the rows of a
    match against their declarative meaning. *)

From Stdlib Require Import Strings.String Floats.SpecFloat.
From S2P Require Import Prelude Utf8 Hash Codec Record Cache Index Cas HamtNode Hamt HamtTree HamtProofs HamtSpec CasStore CasStoreProofs CasStoreSpec Commit Bfs Dag Repo DiskStore DiskStoreSpec.
From S2P Require Import Chars Lexer Text BTree Ast Parser Value Ddl Schema PathIndex Engine Reads.

Section spec.
Context `{Blake3, !MmapLib, !MmapLaws}.
Context (e0 : Engine) (fuel : nat).

Abbreviation I := (engine_view e0).
Abbreviation objects := (disk_objects (store e0)).

(** ** Bound commits *)

(** [b] is what a pattern binds for the hash [h]: its commit and its document. *)
Definition bound_of (h : Hash) (b : BoundCommit) : Prop :=
  exists c ot, commit_at objects h = Some c /\ snapshot_at objects (Some (root_hamt c)) ot /\
    (root_height ot < fuel)%nat /\ b = mk_BoundCommit h c (flatten_entries (opt_entries ot)).

Lemma keeps_get_commit h c :
  commit_at objects h = Some c -> gives I (Exec.get_commit h) (Ok c).
Proof. intros Hc. apply (gives_on_store e0 _ (Ok c)). by apply keeps_commit. Qed.

Lemma keeps_bind_commit h b :
  bound_of h b -> gives I (Exec.bind_commit fuel h (bound_commit b)) (Ok b).
Proof.
  intros (c & ot & Hc & Hat & Hf & ->). unfold Exec.bind_commit. cbn [bound_commit].
  eapply keeps_step; [apply (gives_on_store e0 _ (Ok _)), keeps_hamt_entries; done|].
  by apply keeps_ret.
Qed.

Lemma bound_of_commit h b :
  bound_of h b -> commit_at objects h = Some (bound_commit b) /\ bound_hash b = h.
Proof. by intros (c & ot & Hc & _ & _ & ->). Qed.

Lemma bound_of_unique h b1 b2 : disk_ok (store e0) -> bound_of h b1 -> bound_of h b2 -> b1 = b2.
Proof.
  intros Hok Hb1 Hb2. pose proof (keeps_bind_commit h b1 Hb1 e0 (engine_view_refl e0 Hok)) as K1.
  pose proof (keeps_bind_commit h b2 Hb2 e0 (engine_view_refl e0 Hok)) as K2.
  apply bound_of_commit in Hb1 as [E1 _]. apply bound_of_commit in Hb2 as [E2 _].
  assert (bound_commit b1 = bound_commit b2) as E by congruence. rewrite E in K1.
  destruct (Exec.bind_commit fuel h (bound_commit b2) e0) as [r e']. destruct K1 as [_ ->], K2 as [_ K2].
  congruence.
Qed.

(** ** The hops of an edge *)

(** [h] is another commit, between [min] and [max] steps of [R] away. *)
Definition hop (R : Hash -> Hash -> Prop) (min max : Z) (from h : Hash) : Prop :=
  h ≠ from /\ exists n, min <= Z.of_nat n <= max /\ nsteps R n from h.

(** One step of the search: towards the root along parents, away from it along [children]. *)
Definition step (up : bool) (children : gmap Hash (list Hash)) (h n : Hash) : Prop :=
  if up then parent_of (store e0) h n else n ∈ default [] (children !! h).

Lemma push_states (nexts : list Hash) (nd : Z) (visited : gset (Hash * Z)) :
  exists new, foldl (fun '(visited, new) n =>
      if decide ((n, nd) ∈ visited) then (visited, new)
      else ({[ (n, nd) ]} ∪ visited, new ++ [(n, nd)])) (visited, []) nexts =
    (list_to_set new ∪ visited, new) /\
    NoDup new /\ (forall x, x ∈ new <-> x.2 = nd /\ x.1 ∈ nexts /\ x ∉ visited).
Proof.
  assert (forall new0 (V0 : gset (Hash * Z)), NoDup new0 -> V0 = list_to_set new0 ∪ visited ->
    (forall x, x ∈ new0 -> x.2 = nd /\ x ∉ visited) ->
    exists new, foldl (fun '(visited, new) n =>
      if decide ((n, nd) ∈ visited) then (visited, new)
      else ({[ (n, nd) ]} ∪ visited, new ++ [(n, nd)])) (V0, new0) nexts =
      (list_to_set new ∪ visited, new) /\
      NoDup new /\ (forall x, x ∈ new <-> x ∈ new0 \/ x.2 = nd /\ x.1 ∈ nexts /\ x ∉ visited)) as Hf.
  { induction nexts as [|n nexts IH]; intros new0 V0 Hnd -> Hnew; cbn [foldl].
    { exists new0. split_and!; try done. intros x. rewrite elem_of_nil. naive_solver. }
    case_decide as Hin.
    - destruct (IH new0 _ Hnd eq_refl Hnew) as (new & E & Hnd' & Hx). exists new.
      split_and!; try done. intros [h d]. rewrite Hx, elem_of_cons. cbn [fst snd].
      split; [naive_solver|]. intros [?|(-> & [->|?] & Hv)]; [by left| |by right].
      left. apply elem_of_union in Hin as [Hin%elem_of_list_to_set|?]; done.
    - apply not_elem_of_union in Hin as [Hn1 Hn2]. rewrite elem_of_list_to_set in Hn1.
      destruct (IH (new0 ++ [(n, nd)]) ({[ (n, nd) ]} ∪ (list_to_set new0 ∪ visited)))
        as (new & E & Hnd' & Hx).
      + apply NoDup_app. split_and!; [done| |apply NoDup_singleton].
        by intros x Hx ->%list_elem_of_singleton.
      + rewrite list_to_set_app_L. cbn [list_to_set]. set_solver.
      + intros x [?| ->%list_elem_of_singleton]%elem_of_app; [by apply Hnew|done].
      + exists new. split_and!; try done. intros [h d].
        rewrite Hx, elem_of_app, list_elem_of_singleton, elem_of_cons. cbn [fst snd].
        naive_solver. }
  destruct (Hf [] visited) as (new & E & Hnd & Hx); [constructor|set_solver|by intros x ?%elem_of_nil|].
  exists new. split_and!; try done. intros x. rewrite Hx, elem_of_nil. naive_solver.
Qed.

Section edge.
Context (U : gset Hash) (up : bool) (children : gmap Hash (list Hash)).
Context (min_hops max_hops : Z) (from : Hash).
Context (HU : dag_closed (store e0) U).
Context (Hchildren : forall h n, h ∈ U -> n ∈ default [] (children !! h) -> n ∈ U).

Abbreviation R := (step up children).

(** The states of the search: [P] are processed, [q] are queued. *)
Record edge_inv (P q : list (Hash * Z)) (visited : gset (Hash * Z)) (results : gset Hash) : Prop := {
  ei_nodup : NoDup (P ++ q);
  ei_visited : forall x, x ∈ visited <-> x ∈ P ++ q;
  ei_start : (from, 0) ∈ P ++ q;
  ei_in : forall h d, (h, d) ∈ P ++ q -> h ∈ U /\ 0 <= d <= Z.max 0 max_hops;
  ei_sound : forall h d, (h, d) ∈ P ++ q -> nsteps R (Z.to_nat d) from h;
  ei_closed : forall h d n, (h, d) ∈ P -> d < max_hops -> R h n -> (n, d + 1) ∈ P ++ q;
  ei_results : forall h, h ∈ results <->
    h ≠ from /\ exists d, (h, d) ∈ P /\ min_hops <= d <= max_hops
}.

Lemma step_in h n : h ∈ U -> R h n -> n ∈ U.
Proof.
  unfold step. destruct up; [|by apply Hchildren]. intros Hh (c & Hc & Hn).
  destruct (HU h Hh) as (c' & Hc' & Hps). apply Hps. congruence.
Qed.

Lemma edge_inv_init : from ∈ U -> edge_inv [] [(from, 0)] {[ (from, 0) ]} ∅.
Proof.
  intros Hf. split; cbn [app].
  - apply NoDup_singleton.
  - intros x. by rewrite elem_of_singleton, list_elem_of_singleton.
  - by left.
  - intros h d [= -> ->]%list_elem_of_singleton. split; [done|lia].
  - intros h d [= -> ->]%list_elem_of_singleton. constructor.
  - by intros h d n ?%elem_of_nil.
  - intros h. split; [set_solver|]. by intros [_ (d & ?%elem_of_nil & _)].
Qed.

(** The next commits of a state, as the loop computes them. *)
Lemma keeps_nexts h :
  h ∈ U ->
  keeps I (if up then c ← Exec.get_commit h; mret (parents c)
           else mret (default [] (children !! h)) : stM Engine ExecError (list Hash))
    (fun r => exists nexts, r = Ok nexts /\ forall n, n ∈ nexts <-> R h n).
Proof.
  intros Hh. unfold step. destruct up; [|apply keeps_ret; eauto].
  destruct (HU h Hh) as (c & Hc & _).
  eapply keeps_step; [by apply keeps_get_commit|]. apply keeps_ret.
  exists (parents c). split; [done|]. intros n. split; [by exists c|].
  intros (c' & Hc' & Hn). assert (c' = c) as -> by (cbn in *; congruence). done.
Qed.

(** Moving the head of the queue to the processed states. *)
Lemma edge_inv_step P q visited results h d new :
  edge_inv P ((h, d) :: q) visited results ->
  NoDup new -> (forall x, x ∈ new <-> d < max_hops /\ x.2 = d + 1 /\ R h x.1 /\ x ∉ visited) ->
  edge_inv (P ++ [(h, d)]) (q ++ new) (list_to_set new ∪ visited)
    (if (min_hops <=? d) && (d <=? max_hops) && negb (bool_decide (h = from))
     then {[ h ]} ∪ results else results).
Proof.
  intros [Hnd Hv Hst Hin Hs Hcl Hres] Hnn Hnew.
  assert ((h, d) ∈ P ++ (h, d) :: q) as Hhd by (apply elem_of_app; right; by left).
  assert (forall x, x ∈ (P ++ [(h, d)]) ++ q ++ new <-> x ∈ P ++ (h, d) :: q \/ x ∈ new) as Hall.
  { intros x. rewrite !elem_of_app, !elem_of_cons, elem_of_nil. naive_solver. }
  split.
  - replace ((P ++ [(h, d)]) ++ q ++ new) with ((P ++ (h, d) :: q) ++ new)
      by (by rewrite <- !(assoc_L (++))).
    apply NoDup_app. split_and!; [done| |done]. intros x Hx%Hv (_ & _ & _ & Hn)%Hnew. done.
  - intros x. rewrite Hall, elem_of_union, elem_of_list_to_set, <- Hv. naive_solver.
  - apply Hall. by left.
  - intros h' d' [?|Hn]%Hall; [by apply Hin|].
    apply Hnew in Hn as (Hd & E & HR & _). cbn in *. destruct (Hin h d Hhd) as [Hh ?].
    split; [by apply (step_in h)|lia].
  - intros h' d' [?|Hn]%Hall; [by apply Hs|].
    apply Hnew in Hn as (Hd & E & HR & _). cbn in *. subst d'.
    destruct (Hin h d Hhd) as [_ ?]. rewrite Z2Nat.inj_add, Nat.add_1_r by lia.
    eapply nsteps_r; [by apply Hs|done].
  - intros h' d' n [Hp|[= -> ->]%list_elem_of_singleton]%elem_of_app Hd HR; apply Hall.
    + left. by eapply Hcl.
    + destruct (decide ((n, d + 1) ∈ visited)) as [Hi|Hi]; [left; by apply Hv|right].
      by apply Hnew.
  - intros h'. setoid_rewrite elem_of_app. setoid_rewrite list_elem_of_singleton.
    destruct ((min_hops <=? d) && (d <=? max_hops) && negb (bool_decide (h = from))) eqn:E.
    + apply andb_true_iff in E as [[E1%Z.leb_le E2%Z.leb_le]%andb_true_iff E3%negb_true_iff].
      apply bool_decide_eq_false in E3. rewrite elem_of_union, elem_of_singleton, Hres.
      naive_solver.
    + rewrite Hres. split; [naive_solver|].
      intros (Hne & d' & [Hp|[= -> ->]] & Hd'); [by eauto|].
      exfalso. rewrite bool_decide_false in E by done.
      replace (min_hops <=? d) with true in E by lia.
      replace (d <=? max_hops) with true in E by lia. done.
Qed.

(** When the queue is empty, every hop has been found. *)
Lemma edge_inv_done P visited results h :
  edge_inv P [] visited results -> h ∈ results <-> hop R min_hops max_hops from h.
Proof.
  intros [_ _ Hst Hin Hs Hcl Hres]. rewrite app_nil_r in *. rewrite Hres. unfold hop.
  assert (forall n h', nsteps R n from h' -> Z.of_nat n <= max_hops -> (h', Z.of_nat n) ∈ P) as Hp.
  { induction n as [|n IH]; intros h' Hn Hm.
    - inversion Hn; subst. done.
    - apply nsteps_inv_r in Hn as (x & Hx & HR).
      replace (Z.of_nat (S n)) with (Z.of_nat n + 1) by lia.
      eapply Hcl; [apply IH; [exact Hx|lia]|lia|done]. }
  split; intros [Hne Hd]; (split; [done|]).
  - destruct Hd as (d & Hd & Hr). exists (Z.to_nat d). destruct (Hin h d Hd) as [_ ?].
    split; [lia|by apply Hs].
  - destruct Hd as (n & Hr & Hn). exists (Z.of_nat n). split; [apply Hp; [done|lia]|lia].
Qed.

(** There are at most so many states. *)
Definition edge_states : nat := size U * S (Z.to_nat max_hops).

Lemma edge_inv_size P q visited results :
  edge_inv P q visited results -> (length P + length q <= edge_states)%nat.
Proof.
  intros Hinv. rewrite <- length_app.
  set (all := base.elements U ≫= fun h => (fun d => (h, Z.of_nat d)) <$> seq 0 (S (Z.to_nat max_hops))).
  assert (length all = edge_states) as <-.
  { unfold all, edge_states, size, set_size. cbn [compose].
    induction (base.elements U) as [|h l IH]; [done|]. rewrite bind_cons, length_app, length_fmap, length_seq.
    cbn [length]. rewrite IH. lia. }
  apply submseteq_length, NoDup_submseteq; [apply Hinv|].
  intros [h d] Hx. apply (ei_in _ _ _ _ Hinv) in Hx as [Hh Hd].
  apply list_elem_of_bind. exists h. split; [|by apply elem_of_elements].
  apply list_elem_of_fmap. exists (Z.to_nat d). split; [f_equal; lia|].
  apply elem_of_seq. lia.
Qed.

Lemma edge_loop_ok n P q visited results :
  edge_inv P q visited results -> (edge_states < n + length P)%nat ->
  keeps I (Exec.edge_loop n up children min_hops max_hops from q visited results)
    (fun r => exists out, r = Ok out /\ forall h, h ∈ out <-> hop R min_hops max_hops from h).
Proof.
  revert P q visited results. induction n as [|n IH]; intros P q visited results Hinv Hn.
  { pose proof (edge_inv_size _ _ _ _ Hinv). lia. }
  destruct q as [|[h d] q]; cbn [Exec.edge_loop].
  { apply keeps_ret. exists results. split; [done|]. intros h. by eapply edge_inv_done. }
  assert (edge_states < n + length (P ++ [(h, d)]))%nat as Hn' by (rewrite length_app; simpl; lia).
  destruct (Z.leb_spec max_hops d) as [Hd|Hd].
  - pose proof (edge_inv_step P q visited results h d [] Hinv) as Hstep.
    rewrite app_nil_r, list_to_set_nil, (left_id_L ∅ (∪)) in Hstep.
    apply (IH (P ++ [(h, d)])); [apply Hstep; [constructor|]|done].
    intros x. rewrite elem_of_nil. split; [done|lia].
  - assert (h ∈ U) as Hh.
    { apply (ei_in _ _ _ _ Hinv h d). apply elem_of_app. right. by left. }
    eapply keeps_bind_ok; [by apply keeps_nexts|].
    intros nexts Hnexts. cbv beta in Hnexts.
    destruct (push_states nexts (d + 1) visited) as (new & -> & Hnd & Hnew).
    apply (IH (P ++ [(h, d)])); [|done]. apply edge_inv_step; [done|done|].
    intros x. rewrite Hnew, Hnexts. naive_solver.
Qed.

End edge.

(** ** The commit graph a query sees *)

(** [h] is reachable from a listed branch. *)
Definition listed_commit (h : Hash) : Prop :=
  exists name tip, name ∈ Disk.list_branches (store e0) /\
    RepoOps.read_branch name (ds_repo (store e0)) = Ok (mk_Branch name tip) /\
    reaches (store e0) tip h.

(** An edge goes to a parent, or to a child among the commits of the listed branches. *)
Definition edge_step (up : bool) (h n : Hash) : Prop :=
  if up then parent_of (store e0) h n else listed_commit n /\ parent_of (store e0) n h.

(** The commits within the bounds of an edge. *)
Definition edge_to (edge : EdgePattern) (from h : Hash) : Prop :=
  let '(min_hops, max_hops) := hop_bounds (multiplier edge) (edge_type edge) in
  hop (edge_step (toward_root (edge_type edge))) min_hops max_hops from h.

(** A result that every state of [I] computes. *)
Lemma keeps_runs {S E A} (J : S -> Prop) (m : stM S E A) (Q : outcome E A -> Prop) :
  ReadOnly J m -> (forall s, J s -> exists r s', m s = (r, s') /\ Q r) -> keeps J m Q.
Proof.
  intros Hro Hrun s Hs. specialize (Hro s Hs). destruct (Hrun s Hs) as (r & s' & E' & HQ).
  rewrite E' in *. naive_solver.
Qed.

(** The commits of the store are among [U]: [U] has the parents of its commits and the tips of
    the listed branches, and the fuel covers its edges. *)
Record graph_ok (U : gset Hash) : Prop := {
  graph_closed : dag_closed (store e0) U;
  graph_tips : forall name, name ∈ Disk.list_branches (store e0) ->
    exists tip, RepoOps.read_branch name (ds_repo (store e0)) = Ok (mk_Branch name tip) /\ tip ∈ U;
  graph_fuel : (1 + out_edges (store e0) U < fuel)%nat
}.

Section graph.
Context (U : gset Hash) (HG : graph_ok U).

Let HU : dag_closed (store e0) U := graph_closed U HG.
Let Htips := graph_tips U HG.
Let Hfuel := graph_fuel U HG.

Abbreviation V := (view (store e0)).

Lemma view_dag s : V s -> same_dag (store e0) s.
Proof. apply view_same_dag. Qed.

Lemma view_closed s : V s -> dag_closed s U /\ out_edges s U = out_edges (store e0) U.
Proof.
  intros Hv. apply view_objects in Hv as Ho. split.
  - intros h Hh. destruct (HU h Hh) as (c & Hc & Hp). exists c. split; [|done].
    cbn in *. by rewrite Ho.
  - unfold out_edges, dag_commit. cbn. by rewrite Ho.
Qed.

Lemma view_parent_of s h p : V s -> parent_of s h p <-> parent_of (store e0) h p.
Proof. intros Hv. unfold parent_of. cbn. by rewrite (view_objects _ _ Hv). Qed.

Lemma view_reaches s h a : V s -> reaches s h a <-> reaches (store e0) h a.
Proof.
  intros Hv. unfold reaches. split; induction 1 as [|x y z Hxy _ IH]; try done;
    (eapply rtc_l; [|exact IH]); by apply (view_parent_of _ _ _ Hv).
Qed.

Lemma listed_in h : listed_commit h -> h ∈ U.
Proof.
  intros (name & tip & Hn & Ht & Hr). destruct (Htips name Hn) as (tip' & Ht' & Hin).
  assert (tip' = tip) as -> by congruence. clear Ht Ht' Hn.
  induction Hr as [|x y z (c & Hc & Hp) _ IH]; [done|]. apply IH.
  destruct (HU x Hin) as (c' & Hc' & Hps). apply Hps. congruence.
Qed.

Lemma keeps_reachable :
  keeps V (DiskDag.reachable_commits fuel)
    (fun r => exists all, r = Ok all /\ forall h, h ∈ all <-> listed_commit h).
Proof.
  apply keeps_runs; [apply _|]. intros s Hv. destruct (view_closed s Hv) as [HU' Ho].
  destruct (reachable_commits_ok s U fuel) as (all & s' & Hrun & _ & Hall);
    [apply Hv|done|by rewrite Ho| |].
  - intros name. unfold Disk.list_branches. rewrite (view_repo _ _ Hv). apply Htips.
  - exists (Ok all), s'. split; [done|]. exists all. split; [done|]. intros h. rewrite Hall.
    unfold listed_commit, Disk.list_branches. rewrite (view_repo _ _ Hv).
    by setoid_rewrite (view_reaches s _ _ Hv).
Qed.

Lemma keeps_ancestors start :
  start ∈ U ->
  keeps V (Dag.collect_ancestors fuel start)
    (fun r => exists anc, r = Ok anc /\ forall h, h ∈ anc <-> reaches (store e0) start h).
Proof.
  intros Hstart. apply keeps_runs; [apply _|]. intros s Hv.
  destruct (view_closed s Hv) as [HU' Ho].
  destruct (collect_ancestors_ok s U fuel start s) as (anc & s' & Hrun & _ & _ & Hanc);
    [done|by apply same_dag_refl, Hv|done|by rewrite Ho|].
  exists (Ok anc), s'. split; [done|]. exists anc. split; [done|]. intros h. rewrite Hanc.
  by apply view_reaches.
Qed.

(** One commit is entered under each of its parents. *)
Lemma push_children h ps m p x :
  x ∈ default [] (foldl (DiskDag.push_child h) m ps !! p) <->
  x ∈ default [] (m !! p) \/ x = h /\ p ∈ ps.
Proof.
  revert m. induction ps as [|q ps IH]; intros m; cbn [foldl].
  { rewrite elem_of_nil. naive_solver. }
  rewrite IH, elem_of_cons. unfold DiskDag.push_child. destruct (decide (p = q)) as [->|Hne].
  - rewrite lookup_insert_eq. cbn [default from_option id].
    change (from_option id [] (m !! q)) with (default [] (m !! q)).
    rewrite elem_of_app, list_elem_of_singleton. naive_solver.
  - rewrite lookup_insert_ne by done. naive_solver.
Qed.

Lemma keeps_children_loop hashes m :
  (forall h, h ∈ hashes -> h ∈ U) ->
  keeps V (DiskDag.children_loop hashes m)
    (fun r => exists m', r = Ok m' /\ forall p x, x ∈ default [] (m' !! p) <->
       x ∈ default [] (m !! p) \/ x ∈ hashes /\ parent_of (store e0) x p).
Proof.
  revert m. induction hashes as [|h hashes IH]; intros m Hin; cbn [DiskDag.children_loop].
  { apply keeps_ret. exists m. split; [done|]. intros p x. rewrite elem_of_nil. naive_solver. }
  destruct (HU h) as (c & Hc & _); [apply Hin; by left|].
  eapply keeps_step; [by apply keeps_commit|]. eapply keeps_mono.
  { apply IH. intros x Hx. apply Hin. by right. }
  intros r (m' & -> & Hm'). exists m'. split; [done|]. intros p x.
  rewrite Hm', push_children, elem_of_cons, <- (parent_of_eq _ _ _ Hc). naive_solver.
Qed.

Lemma keeps_children_map :
  keeps V (DiskDag.children_map fuel)
    (fun r => exists m, r = Ok m /\ forall p x, x ∈ default [] (m !! p) <->
       listed_commit x /\ parent_of (store e0) x p).
Proof.
  unfold DiskDag.children_map.
  eapply keeps_bind_ok; [apply keeps_reachable|].
  cbv beta. intros all Hall. eapply keeps_mono.
  { apply keeps_children_loop. intros h Hh. apply listed_in, Hall. by apply elem_of_elements. }
  intros r (m & -> & Hm). exists m. split; [done|]. intros p x. rewrite Hm, lookup_empty.
  cbn [default from_option]. rewrite elem_of_nil, elem_of_elements, Hall. naive_solver.
Qed.

(** ** Edges *)

Section matching.
Context (children : gmap Hash (list Hash)).
Context (Hchildren : forall p x, x ∈ default [] (children !! p) <->
  listed_commit x /\ parent_of (store e0) x p).

Lemma step_edge_step up h n : step up children h n <-> edge_step up h n.
Proof. unfold step, edge_step. destruct up; [done|]. apply Hchildren. Qed.

Lemma hop_iff up mn mx from h :
  hop (step up children) mn mx from h <-> hop (edge_step up) mn mx from h.
Proof.
  unfold hop. assert (forall n x y, nsteps (step up children) n x y <-> nsteps (edge_step up) n x y)
    as Hn; [|by setoid_rewrite Hn].
  intros n x y. split; induction 1 as [|n x y z Hxy _ IH]; try constructor;
    (econstructor; [|exact IH]); by apply step_edge_step.
Qed.

Lemma child_in h n : h ∈ U -> n ∈ default [] (children !! h) -> n ∈ U.
Proof. intros _ [Hn _]%Hchildren. by apply listed_in. Qed.

(** The fuel that covers the states of the search of an edge. *)
Definition edge_fuel (edge : EdgePattern) : Prop :=
  (edge_states U (hop_bounds (multiplier edge) (edge_type edge)).2 < fuel)%nat.

Lemma keeps_expand_edge edge from :
  from ∈ U -> edge_fuel edge ->
  keeps I (Exec.expand_edge fuel edge from children)
    (fun r => exists out, r = Ok out /\ NoDup out /\ forall h, h ∈ out <-> edge_to edge from h).
Proof.
  intros Hfrom Hf. unfold Exec.expand_edge, edge_to, edge_fuel in *.
  destruct (hop_bounds (multiplier edge) (edge_type edge)) as [mn mx].
  eapply keeps_bind_ok; [refine (edge_loop_ok U (toward_root (edge_type edge)) children mn mx from HU child_in
      fuel [] _ _ _ (edge_inv_init _ _ _ _ _ _ HU child_in Hfrom) _)|].
  - simpl in *. lia.
  - cbv beta. intros out Hout. apply keeps_ret. eexists. split; [done|].
    split; [apply NoDup_elements|]. intros h. by rewrite elem_of_elements, Hout, hop_iff.
Qed.

Lemma edge_to_in edge from h : from ∈ U -> edge_to edge from h -> h ∈ U.
Proof.
  intros Hfrom. unfold edge_to. destruct (hop_bounds _ _) as [mn mx].
  intros [_ (n & _ & Hn)]. induction Hn as [|n x y z Hxy _ IH]; [done|]. apply IH.
  unfold edge_step in Hxy. destruct (toward_root (edge_type edge)).
  - destruct Hxy as (c & Hc & Hp). destruct (HU x Hfrom) as (c' & Hc' & Hps). apply Hps. congruence.
  - by apply listed_in, Hxy.
Qed.

End matching.

End graph.

End spec.

Lemma disk_ok_set_repo `{Blake3, !MmapLib, !MmapLaws} r s : disk_ok s -> disk_ok (Disk.set_repo r s).
Proof. intros [? ? ?]. by split. Qed.

(** ** A repository with two commits *)

Section example.

#[local] Existing Instance toy_hash.
#[local] Existing Instance id_mmap.
#[local] Existing Instance id_mmap_laws.

Definition ex_disk1 : DiskStore := (Disk.commit_with_root [] ZERO "m" ex_disk).2.
Definition ex_c2 : Commit := new_commit [ex_tip] ZERO 1001 "n".
Definition ex_tip2 : Hash := commit_id ex_c2.
Definition ex_repo2 : Repo :=
  mk_Repo {[ "main" := RefFile (ref_line ex_tip2); "old" := RefFile (ref_line ex_tip) ]} None (Some "main").

(** The branches main and old, at the second commit and at the first. *)
Definition ex_disk2 : DiskStore :=
  Disk.set_repo ex_repo2 (Disk.commit_with_root [ex_tip] ZERO "n" ex_disk1).2.
Definition ex_engine : Engine := mk_Engine ex_disk2 (mk_SchemaFiles None None None).
Definition ex_commits : gset Hash := {[ ex_tip; ex_tip2 ]}.

Lemma ex_disk1_ok : disk_ok ex_disk1 /\ commit_at (disk_objects ex_disk1) ex_tip = Some ex_c.
Proof.
  pose proof (commit_with_root_ok ex_disk [] ZERO "m" ex_disk_ok) as Hc. unfold ex_disk1.
  assert ((Disk.commit_with_root [] ZERO "m" ex_disk).1 = Ok ex_tip) as Hr by (vm_compute; reflexivity).
  destruct (Disk.commit_with_root [] ZERO "m" ex_disk) as [r s']. simpl in Hr. subst r.
  destruct Hc as (Hok & _ & _ & _ & Hat & _); [| | |by split].
  - apply new_commit_fits; vm_compute; intuition congruence.
  - vm_compute. reflexivity.
  - apply (bool_decide_unpack _). vm_compute. exact I.
Qed.

Lemma ex_no_collision : no_collision (disk_objects ex_disk1) [commit_object ex_c2].
Proof. apply (bool_decide_unpack (no_collision _ _)). vm_compute. exact I. Qed.

Lemma ex_disk2_ok :
  disk_ok ex_disk2 /\ commit_at (disk_objects ex_disk2) ex_tip = Some ex_c /\
  commit_at (disk_objects ex_disk2) ex_tip2 = Some ex_c2.
Proof.
  destruct ex_disk1_ok as [Hok1 Hat1]. pose proof ex_no_collision as Hnc.
  assert (new_commit [ex_tip] ZERO (if ds_ts ex_disk1 =? 0 then ds_now ex_disk1 else ds_ts ex_disk1) "n"
    = ex_c2) as Ec by (vm_compute; reflexivity).
  pose proof (commit_with_root_ok ex_disk1 [ex_tip] ZERO "n" Hok1) as Hc. cbv zeta in Hc.
  rewrite Ec in Hc. unfold ex_disk2.
  assert ((Disk.commit_with_root [ex_tip] ZERO "n" ex_disk1).1 = Ok ex_tip2) as Hr by (vm_compute; reflexivity).
  destruct (Disk.commit_with_root [ex_tip] ZERO "n" ex_disk1) as [r s']. simpl in Hr. subst r.
  destruct Hc as (Hok & Hsub & _ & _ & Hat & _).
  - apply new_commit_fits; vm_compute; intuition congruence.
  - vm_compute. reflexivity.
  - exact Hnc.
  - split; [exact (disk_ok_set_repo ex_repo2 _ Hok)|]. split; [|exact Hat].
    exact (commit_at_mono _ _ _ _ Hsub Hat1).
Qed.

Lemma ex_disk2_repo : ds_repo ex_disk2 = ex_repo2.
Proof. reflexivity. Qed.

#[global] Opaque ex_disk1 ex_disk2.

Lemma ex_graph_ok : graph_ok ex_engine 70 ex_commits.
Proof.
  destruct ex_disk2_ok as (Hok & Hc1 & Hc2). split.
  - intros h [->%elem_of_singleton| ->%elem_of_singleton]%elem_of_union.
    + exists ex_c. split; [exact Hc1|]. intros p Hp. destruct (not_elem_of_nil _ Hp).
    + exists ex_c2. split; [exact Hc2|]. intros p ->%list_elem_of_singleton.
      apply elem_of_union; left; apply elem_of_singleton; reflexivity.
  - clear Hok Hc1 Hc2. intros name Hn. assert (Disk.list_branches (store ex_engine) = ["main"; "old"]) as Hl.
    { unfold Disk.list_branches. cbn [store ex_engine]. by rewrite ex_disk2_repo. }
    rewrite Hl in Hn. clear Hl. cbn [store ex_engine]. rewrite ex_disk2_repo.
    apply elem_of_cons in Hn as [->|Hn]; [|apply list_elem_of_singleton in Hn as ->].
    + exists ex_tip2. split; [|apply elem_of_union; right; by apply elem_of_singleton].
      apply (read_written _ "main"); [reflexivity|apply lookup_insert_eq].
    + exists ex_tip. split; [|apply elem_of_union; left; by apply elem_of_singleton].
      apply (read_written _ "old"); [reflexivity|]. rewrite lookup_insert_ne by discriminate. apply lookup_insert_eq.
  - clear. apply Nat.ltb_lt. vm_compute. reflexivity.
Qed.

Lemma ex_bound h : h ∈ ex_commits -> exists b, bound_of ex_engine 70 h b.
Proof.
  destruct ex_disk2_ok as (Hok & Hc1 & Hc2).
  intros [->%elem_of_singleton| ->%elem_of_singleton]%elem_of_union; eexists; eexists; exists None.
  - split; [exact Hc1|]. split; [by split|]. split; [apply Nat.ltb_lt; reflexivity|reflexivity].
  - split; [exact Hc2|]. split; [by split|]. split; [apply Nat.ltb_lt; reflexivity|reflexivity].
Qed.

End example.
