(* ===== verification/EvalSpec.v ===== *)
(** * What the functions of values compute

    Expressions whose variables are bound have values; the payload of a commit is stored as
    its leaves under dotted paths; a difference lists exactly the keys that differ. *)

From Stdlib Require Import Strings.Byte Strings.String.
From S2P Require Import Prelude Utf8 Hash Codec Record Cache Index Cas HamtNode Hamt HamtTree HamtProofs HamtSpec CasStore CasStoreProofs CasStoreSpec Commit Dag Repo DiskStore DiskStoreSpec.
From S2P Require Import Chars Lexer Text BTree Ast Parser Value Ddl Schema PathIndex Engine.

(** ** Expressions *)

(** The variables of an expression. *)
Fixpoint variables (e : Expression) : gset string :=
  match e with
  | ENull | EBool _ | EInt _ | EFloat _ | EString _ => ∅
  | EVariable x => {[ x ]}
  | EPropertyAccess o _ => variables o
  | EBinary e1 _ e2 => variables e1 ∪ variables e2
  | EMap m => ⋃ ((fun kv => variables kv.2) <$> m)
  end.

(** A value when every variable is bound; else the error that names one that is not. *)
Definition evaluates (b : Bindings) (vars : gset string) {A} (r : outcome ExecError A) : Prop :=
  (vars ⊆ dom b -> exists v, r = Ok v) /\
  (~ (vars ⊆ dom b) -> exists x, x ∈ vars /\ (x ∉ dom b) /\ r = unbound x).

Lemma evaluates_bind {A B} b V1 V2 (r : outcome ExecError A) (f : A -> outcome ExecError B) :
  evaluates b V1 r -> (forall a, evaluates b V2 (f a)) -> evaluates b (V1 ∪ V2) (r ≫= f).
Proof.
  intros [Hok Herr] Hf. destruct (decide (V1 ⊆ dom b)) as [Hv|Hv].
  - destruct (Hok Hv) as [a ->]. cbn. destruct (Hf a) as [Hok2 Herr2]. split.
    + intros Hs. apply Hok2. set_solver.
    + intros Hs. destruct Herr2 as (x & ? & ? & ->); [set_solver|]. exists x. set_solver.
  - destruct (Herr Hv) as (x & ? & ? & ->). split; [set_solver|]. intros _. exists x. set_solver.
Qed.

Lemma evaluates_ok {A} b (a : A) : evaluates b ∅ (Ok a).
Proof. split; [by eexists|]. intros Hs. destruct Hs. set_solver. Qed.

Lemma evaluates_map {A B} b V (r : outcome ExecError A) (f : A -> outcome ExecError B) :
  evaluates b V r -> (forall a, exists v, f a = Ok v) -> evaluates b V (r ≫= f).
Proof.
  intros Hr Hf. rewrite <- (union_empty_r_L V). apply evaluates_bind; [done|].
  intros a. destruct (Hf a) as [v ->]. apply evaluates_ok.
Qed.

Lemma evaluates_lookup {A} b x (f : BoundCommit -> A) :
  evaluates b {[ x ]} (match b !! x with Some c => Ok (f c) | None => unbound x end).
Proof.
  unfold evaluates. destruct (b !! x) as [c|] eqn:Hx.
  - apply elem_of_dom_2 in Hx. split; [by eexists|]. intros Hs. destruct Hs. set_solver.
  - apply not_elem_of_dom in Hx. split; [set_solver|]. intros _. exists x. set_solver.
Qed.

Lemma eval_evaluates b e : evaluates b (variables e) (eval_expr b e).
Proof.
  induction e as [| | | | |x|o p IH|e1 op e2 IH1 IH2|m IH] using Expression_ind';
    try apply evaluates_ok.
  - apply evaluates_lookup.
  - destruct o; try (apply evaluates_map; [exact IH|intros []; by eexists]).
    apply evaluates_lookup.
  - apply evaluates_bind; [done|]. intros l. apply evaluates_map; [done|]. by eexists.
  - cbn [eval_expr variables]. apply evaluates_map; [|by eexists].
    generalize (@nil (string * Value)). induction IH as [|[k e] m He _ IHm]; intros out;
      cbn [eval_entries fmap list_fmap union_list foldr snd]; [apply evaluates_ok|].
    apply evaluates_bind; [done|]. intros v. apply IHm.
Qed.

(** C24: Evaluation is safe exactly on the expressions whose variables are bound: such an
    expression has a value, whatever the types of its operands; any other gives the error
    that names an unbound variable of it, and nothing else can go wrong. *)
Theorem eval_expr_scoped (b : Bindings) (e : Expression) :
  (variables e ⊆ dom b <-> exists v, eval_expr b e = Ok v) /\
  (forall r, eval_expr b e = r -> (exists v, r = Ok v) \/
     exists x, x ∈ variables e /\ (x ∉ dom b) /\
       r = Err (ExecText ("unbound variable '" +:+ x +:+ "'"))).
Proof.
  destruct (eval_evaluates b e) as [Hok Herr]. split.
  - split; [done|]. intros [v Hv]. destruct (decide (variables e ⊆ dom b)) as [?|Hn]; [done|].
    destruct (Herr Hn) as (x & _ & _ & Hx). rewrite Hv in Hx. done.
  - intros r <-. destruct (decide (variables e ⊆ dom b)) as [Hs|Hs]; [left; by apply Hok|right].
    by apply Herr.
Qed.

(** ** Literals *)

(** The expressions [eval_literal_expr] takes. *)
Fixpoint literal (e : Expression) : bool :=
  match e with
  | ENull | EBool _ | EInt _ | EFloat _ | EString _ => true
  | EMap m => forallb (fun kv => literal kv.2) m
  | EVariable _ | EPropertyAccess _ _ | EBinary _ _ _ => false
  end.

Lemma eval_literal_total e : literal e = true -> exists v, eval_literal_expr e = Ok v.
Proof.
  induction e as [| | | | | | | |m IH] using Expression_ind'; cbn [literal eval_literal_expr];
    try discriminate; try (intros _; by eexists).
  intros Hm. cut (forall out, exists out', eval_entries eval_literal_expr m out = Ok out').
  { intros Hout. destruct (Hout []) as [out ->]. by eexists. }
  induction IH as [|[k e] m He _ IHm]; intros out; cbn [eval_entries]; [by eexists|].
  cbn [forallb snd] in *. apply andb_true_iff in Hm as [He1 Hm].
  destruct (He He1) as [v ->]. cbn. by apply IHm.
Qed.

(** ** Payloads *)

Definition join_path (prefix k : string) : string :=
  if String.eqb prefix EmptyString then k else prefix +:+ "." +:+ k.

(** The leaves of a value with their paths. *)
Fixpoint leaves (prefix : string) (v : Value) : list (string * Value) :=
  match v with
  | VMap m => m ≫= fun kv => leaves (join_path prefix kv.1) kv.2
  | v => [(prefix, v)]
  end.

Definition storage_bytes (v : Value) : list byte :=
  match to_storage_bytes v with Ok b => b | _ => [] end.

Definition leaf_op (e : string * Value) : HamtOp := Put (str_bytes e.1) (storage_bytes e.2).

Lemma push_payload_ops_eq ops prefix v :
  push_payload_ops ops prefix v = Ok (ops ++ (leaf_op <$> leaves prefix v)).
Proof.
  revert ops prefix. induction v as [| | | | |m IH] using Value_ind'; intros ops prefix; try done.
  cbn [push_payload_ops leaves]. revert ops.
  induction IH as [|[k v] m Hv _ IHm]; intros ops; [by rewrite app_nil_r|].
  cbn [snd] in Hv. cbn zeta. fold (join_path prefix k). rewrite Hv. cbn [mbind outcome_bind].
  rewrite IHm, bind_cons, fmap_app, (assoc_L (++)). done.
Qed.

(** The values of a literal payload. *)
Fixpoint literal_values (m : btree Expression) : outcome ExecError (list (string * Value)) :=
  match m with
  | [] => Ok []
  | (k, e) :: m => v ← eval_literal_expr e; l ← literal_values m; Ok ((k, v) :: l)
  end.

Definition payload_leaves (l : list (string * Value)) : list (string * Value) :=
  l ≫= fun kv => leaves kv.1 kv.2.

Lemma payload_ops_eq m ops :
  Exec.payload_ops m ops = (fun l => ops ++ (leaf_op <$> payload_leaves l)) <$> literal_values m.
Proof.
  revert ops. induction m as [|[k e] m IH]; intros ops; cbn [Exec.payload_ops literal_values].
  { cbn. by rewrite app_nil_r. }
  destruct (eval_literal_expr e) as [v| | |]; try done. cbn [mbind outcome_bind].
  rewrite push_payload_ops_eq. cbn [mbind outcome_bind]. rewrite IH.
  destruct (literal_values m) as [l| | |]; try done. cbn [mbind outcome_bind fmap outcome_fmap].
  unfold payload_leaves. by rewrite bind_cons, fmap_app, (assoc_L (++)).
Qed.

Lemma literal_values_total m :
  forallb (fun kv => literal kv.2) m = true -> exists l, literal_values m = Ok l.
Proof.
  induction m as [|[k e] m IH]; cbn [forallb literal_values snd]; [by eexists|].
  intros [He Hm]%andb_true_iff. destruct (eval_literal_total e He) as [v ->].
  destruct (IH Hm) as [l ->]. by eexists.
Qed.

Lemma foldl_op_map_other (l : list (string * Value)) (m : gmap (list byte) (list byte)) key :
  (forall path x, (path, x) ∈ l -> str_bytes path ≠ key) ->
  foldl op_map m (leaf_op <$> l) !! key = m !! key.
Proof.
  revert m. induction l as [|[p x] l IH]; intros m Hl; [done|]. cbn [fmap list_fmap foldl].
  rewrite IH by (intros q y Hq; apply (Hl q y); by right). cbn.
  rewrite lookup_insert_ne; [done|]. apply (Hl p x). by left.
Qed.

Lemma foldl_op_map_leaf (l : list (string * Value)) (m : gmap (list byte) (list byte)) path x :
  NoDup l.*1 -> (path, x) ∈ l ->
  foldl op_map m (leaf_op <$> l) !! str_bytes path = Some (storage_bytes x).
Proof.
  revert m. induction l as [|[p y] l IH]; intros m Hn Hin; [by apply not_elem_of_nil in Hin|].
  cbn [fmap list_fmap foldl fst] in *. apply NoDup_cons in Hn as [Hp Hn].
  apply elem_of_cons in Hin as [[= -> ->]|Hin]; [|by apply IH].
  rewrite foldl_op_map_other; [apply lookup_insert_eq|]. intros q z Hq E.
  apply Hp, list_elem_of_fmap. exists (q, z). split; [|done]. cbn.
  by rewrite <- (bytes_str_bytes p), <- E, bytes_str_bytes.
Qed.

(** C34: The payload of a commit is stored as its leaves. The operations of a literal payload
    can always be made; applied to a map they put the text of each leaf under its dotted
    path, when no two leaves share one, and leave every other key as it was. *)
Theorem payload_ops_leaves (m : btree Expression) (base : gmap (list byte) (list byte)) :
  forallb (fun kv => literal kv.2) m = true ->
  exists l ops, literal_values m = Ok l /\ Exec.payload_ops m [] = Ok ops /\
    (NoDup (payload_leaves l).*1 -> forall path x, (path, x) ∈ payload_leaves l ->
       foldl op_map base ops !! str_bytes path = Some (storage_bytes x)) /\
    (forall key, (forall path x, (path, x) ∈ payload_leaves l -> str_bytes path ≠ key) ->
       foldl op_map base ops !! key = base !! key).
Proof.
  intros Hm. destruct (literal_values_total m Hm) as [l Hl].
  exists l, (leaf_op <$> payload_leaves l). rewrite payload_ops_eq, Hl. split; [done|].
  split; [done|]. split.
  - intros Hn path x. by apply foldl_op_map_leaf.
  - intros key. apply foldl_op_map_other.
Qed.

(** [{ id: 1, a: { b: "x", c: {} } }]. *)
Definition ex_payload_expr : btree Expression :=
  [("a", EMap [("b", EString "x"); ("c", EMap [])]); ("id", EInt 1)].

Example ex_payload_leaves :
  payload_leaves <$> literal_values ex_payload_expr = Ok [("a.b", VString "x"); ("id", VInt 1)].
Proof. reflexivity. Qed.

Lemma payload_ops_leaves_witness :
  exists l ops, literal_values ex_payload_expr = Ok l /\ Exec.payload_ops ex_payload_expr [] = Ok ops /\
    (NoDup (payload_leaves l).*1 -> forall path x, (path, x) ∈ payload_leaves l ->
       foldl op_map ∅ ops !! str_bytes path = Some (storage_bytes x)) /\
    (forall key, (forall path x, (path, x) ∈ payload_leaves l -> str_bytes path ≠ key) ->
       foldl op_map ∅ ops !! key = (∅ : gmap (list byte) (list byte)) !! key).
Proof. apply (payload_ops_leaves ex_payload_expr ∅). reflexivity. Defined.

(** ** Differences *)

(** The line for a key, by what is under it on the left and on the right. *)
Inductive difference (key : string) : option (list byte) -> option (list byte) -> string -> Prop :=
| difference_added r : difference key None (Some r) ("+ " +:+ key +:+ " = " +:+ from_utf8_lossy r)
| difference_removed l : difference key (Some l) None ("- " +:+ key +:+ " = " +:+ from_utf8_lossy l)
| difference_changed l r : l ≠ r ->
    difference key (Some l) (Some r) ("~ " +:+ key +:+ ": " +:+ from_utf8_lossy l +:+ " => " +:+ from_utf8_lossy r).

(** A key of a subtree: the path itself, or the path, a dot and more. *)
Definition at_or_under (path : option string) (key : string) : Prop :=
  match path with
  | None => True
  | Some p => key = p \/ exists rest, key = p +:+ "." +:+ rest
  end.

Lemma in_path_spec path key : in_path path key = true <-> at_or_under path key.
Proof.
  destruct path as [p|]; [|done]. cbn. rewrite orb_true_iff, String.eqb_eq.
  unfold starts_with. rewrite bool_decide_eq_true. split; (intros [?|Hk]; [by left|right]).
  - exists (bytes_str (drop (length (str_bytes (p +:+ "."))) (str_bytes key))). apply (inj str_bytes).
    rewrite !str_bytes_app, str_bytes_str, (assoc_L (++)), <- str_bytes_app.
    transitivity (take (length (str_bytes (p +:+ "."))) (str_bytes key) ++
      drop (length (str_bytes (p +:+ "."))) (str_bytes key)); [by rewrite take_drop|by rewrite Hk].
  - destruct Hk as [rest ->]. rewrite !str_bytes_app, (assoc_L (++)). apply take_app_length.
Qed.

Lemma diff_line_spec key l r :
  match diff_line key l r with
  | [] => l = r
  | [line] => l ≠ r /\ difference key l r line
  | _ => False
  end.
Proof.
  destruct l as [l|], r as [r|]; cbn; [|split; [done|constructor]..|done].
  case_decide as Hlr; [|by subst]. split; [congruence|by constructor].
Qed.

(** C35: A difference is exact. Its lines are one for each key that is at or under the path and
    is not the same on both sides, in the order of the keys, and none for any other key; the
    line says [+] and the new value for a key that is only on the right, [-] and the old value
    for one only on the left, and [~] with both for one whose value changed. *)
Theorem diff_lines_exact (path : option string) (left_map right_map : gmap string (list byte)) :
  exists keys,
    StronglySorted String.le keys /\ NoDup keys /\
    (forall key, key ∈ keys <-> at_or_under path key /\ left_map !! key ≠ right_map !! key) /\
    Forall2 (fun key line => difference key (left_map !! key) (right_map !! key) line)
      keys (diff_lines path left_map right_map).
Proof.
  set (all := (btree_entries (left_map ∪ right_map)).*1).
  exists (filter (fun key => in_path path key = true /\ left_map !! key ≠ right_map !! key) all).
  split; [|split; [|split]].
  - apply StronglySorted_filter, key_sorted_names, btree_entries_sorted.
  - apply NoDup_filter, btree_entries_nodup.
  - intros key. rewrite list_elem_of_filter, in_path_spec. split; [tauto|]. intros [Hp Hne].
    split; [done|]. destruct ((left_map ∪ right_map) !! key) as [x|] eqn:Hx.
    + apply list_elem_of_fmap. exists (key, x). split; [done|]. by apply btree_entries_elem.
    + apply lookup_union_None in Hx as [H1 H2]. congruence.
  - unfold diff_lines. fold all. generalize all. clear all. intros all.
    induction all as [|key all IH]; [constructor|].
    match goal with |- Forall2 ?P _ (_ ≫= ?f) => change (Forall2 P
      (filter (fun key => in_path path key = true /\ left_map !! key ≠ right_map !! key) (key :: all))
      (f key ++ (all ≫= f))) end. cbv beta.
    pose proof (diff_line_spec key (left_map !! key) (right_map !! key)) as Hline.
    destruct (in_path path key) eqn:Hp; [|by rewrite filter_cons_False by (intros [? _]; congruence)].
    destruct (diff_line key (left_map !! key) (right_map !! key)) as [|line [|? ?]]; [| |done].
    + by rewrite filter_cons_False by (intros [_ ?]; congruence).
    + destruct Hline as [Hne Hd]. rewrite filter_cons_True by done. by constructor.
Qed.

(** ** Equality of values *)

(** The rule for abbreviated commit hashes applies to any texts of six bytes or more, and makes
    equality depend on what else is compared. *)
Example values_eq_prefixes :
  values_eq (VString "status") (VString "status-old") = true /\
  values_eq (VString "status") (VString "STATUS-new") = true /\
  values_eq (VString "status-old") (VString "STATUS-new") = false /\
  values_eq (VString "stat") (VString "status") = false.
Proof. vm_compute. done. Qed.

(** An unbounded hop is not. *)
Example any_hops_bounded : hop_bounds (Some Any) Descendant = (1, 64).
Proof. reflexivity. Qed.

Lemma flatten_entries_strings entries key v :
  flatten_entries entries !! key = Some v -> exists s, v = VString s.
Proof.
  unfold flatten_entries.
  assert (forall (d : Doc), (forall k v, d !! k = Some v -> exists s, v = VString s) ->
    forall k v, foldl (fun map '(k, v) => <[from_utf8_lossy k := from_bytes v]> map) d entries !! k
      = Some v -> exists s, v = VString s) as Hf.
  { induction entries as [|[k0 v0] l IH]; intros d Hd; [done|]. cbn [foldl]. apply IH.
    intros k w [[_ <-]|[_ Hw]]%lookup_insert_Some; [by eexists|by eapply Hd]. }
  apply Hf. intros k w Hw. by rewrite lookup_empty in Hw.
Qed.

(** A node property that is not a text (and not the timestamp) matches no commit: the state
    holds texts, and the comparison is that of [PartialEq]. *)
Lemma only_texts_match h c entries key e v :
  key ≠ "timestamp" -> key ≠ "hash" -> key ≠ "message" -> key ≠ "root_hamt" ->
  eval_literal_expr e = Ok v -> v ≠ VNull -> (forall s, v ≠ VString s) ->
  props_match (mk_BoundCommit h c (flatten_entries entries)) [(key, e)] = Ok false.
Proof.
  intros H1 H2 H3 H4 He Hnull Hstr. cbn [props_match]. rewrite He. cbn [mbind outcome_bind].
  unfold property_of. apply String.eqb_neq in H1, H2, H3, H4. rewrite H1, H2, H3, H4.
  cbn [bound_state]. destruct (flatten_entries entries !! key) as [w|] eqn:Hw; cbn.
  - apply flatten_entries_strings in Hw as [s ->]. destruct v; try done. by destruct (Hstr s0).
  - by destruct v.
Qed.
