(* ===== verification/MatchSpec.v ===== *)
(** * The rows of a match

    What a pattern means, and that [match_pattern] finds exactly the rows it means, each
    once; then a whole query with [MATCH]. *)

From Stdlib Require Import Strings.String Floats.SpecFloat.
From S2P Require Import Prelude Utf8 Hash Codec Record Cache Index Cas HamtNode Hamt HamtTree HamtProofs HamtSpec CasStore CasStoreProofs CasStoreSpec Commit Bfs Dag Repo DiskStore DiskStoreSpec.
From S2P Require Import Chars Lexer Text BTree Ast Parser Value Ddl Schema PathIndex Engine Reads EngineSpec EvalSpec.

(** ** Shapes *)

Lemma props_match_total b props :
  forallb (fun kv => literal kv.2) props = true -> exists ok, props_match b props = Ok ok.
Proof.
  induction props as [|[k e] props IH]; cbn [forallb props_match snd]; [by eexists|].
  intros [He Hp]%andb_true_iff. destruct (eval_literal_total e He) as [v ->]. cbn.
  case_match; [by apply IH|by eexists].
Qed.

(** A property of the commit has the value of its literal. *)
Definition prop_fits (b : BoundCommit) (kv : string * Expression) : Prop :=
  exists v, eval_literal_expr kv.2 = Ok v /\ value_eq (property_of b kv.1) v = true.

Lemma props_match_fits b props : props_match b props = Ok true <-> Forall (prop_fits b) props.
Proof.
  induction props as [|[k e] props IH]; cbn [props_match]; [by split; [constructor|]|].
  rewrite Forall_cons, <- IH. unfold prop_fits. cbn [fst snd].
  destruct (eval_literal_expr e) as [v| | |]; cbn [mbind outcome_bind]; [|naive_solver..].
  destruct (value_eq (property_of b k) v) eqn:Hv; naive_solver congruence.
Qed.

(** ** Hops *)

(** How many hops an edge pattern asks for. [*] is not unbounded: it stops at 64 hops, as do
    [ANCESTOR] and [DESCENDANT] without a multiplier and a range without a maximum. *)
Inductive hops_asked : option HopMultiplier -> EdgeType -> Z -> Prop :=
| hops_parent : hops_asked None Parent 1
| hops_child : hops_asked None Child 1
| hops_ancestor n : 1 <= n <= 64 -> hops_asked None Ancestor n
| hops_descendant n : 1 <= n <= 64 -> hops_asked None Descendant n
| hops_any t n : 1 <= n <= 64 -> hops_asked (Some Any) t n
| hops_exact t n : hops_asked (Some (Exact n)) t n
| hops_between t lo hi n : lo <= n <= hi -> hops_asked (Some (Range (Some lo) (Some hi))) t n
| hops_at_least t lo n : lo <= n <= 64 -> hops_asked (Some (Range (Some lo) None)) t n
| hops_at_most t hi n : 1 <= n <= hi -> hops_asked (Some (Range None (Some hi))) t n
| hops_range t n : 1 <= n <= 64 -> hops_asked (Some (Range None None)) t n.

Lemma hops_asked_bounds m t n :
  hops_asked m t n <-> (hop_bounds m t).1 <= n <= (hop_bounds m t).2.
Proof.
  split.
  - destruct 1; cbn; lia.
  - destruct m as [[|k|[lo|] [hi|]]|]; cbn; intros Hn; try (by constructor).
    + replace n with k by lia. constructor.
    + destruct t; cbn in Hn; try (by constructor); replace n with 1 by lia; constructor.
Qed.

(** The elements after the first node: edges and nodes in turn. *)
Fixpoint rest_ok (rest : list PatternElement) : bool :=
  match rest with
  | [] => true
  | Edge _ :: Node n :: rest => forallb (fun kv => literal kv.2) (properties n) && rest_ok rest
  | _ => false
  end.

Definition pattern_ok (p : Pattern) : bool :=
  match Ast.elements p with
  | Node n :: rest => forallb (fun kv => literal kv.2) (properties n) && rest_ok rest
  | _ => false
  end.

Definition pattern_edges (p : Pattern) : list EdgePattern :=
  omap (fun x => match x with Edge e => Some e | Node _ => None end) (Ast.elements p).

Section spec.
Context `{Blake3, !MmapLib, !MmapLaws}.
Context (e0 : Engine) (fuel : nat).

Abbreviation I := (engine_view e0).
Abbreviation bound_of := (bound_of e0 fuel).
Abbreviation edge_to := (edge_to e0).

(** One hop: to a parent, or to a child that a listed branch reaches. The arrow of the pattern
    plays no part. *)
Definition one_hop (t : EdgeType) (h n : Hash) : Prop :=
  match t with
  | Parent | Ancestor => parent_of (store e0) h n
  | Child | Descendant => listed_commit e0 n /\ parent_of (store e0) n h
  end.

(** Another commit, as many hops away as the edge asks for. *)
Definition joined (edge : EdgePattern) (from h : Hash) : Prop :=
  h ≠ from /\ exists n, hops_asked (multiplier edge) (edge_type edge) (Z.of_nat n) /\
    nsteps (one_hop (edge_type edge)) n from h.

Lemma joined_edge_to edge from h : joined edge from h <-> edge_to edge from h.
Proof.
  unfold joined, edge_to, hop. setoid_rewrite hops_asked_bounds.
  destruct (hop_bounds (multiplier edge) (edge_type edge)) as [lo hi]. cbn [fst snd].
  by destruct (edge_type edge).
Qed.

(** ** What a pattern means *)

(** The node binds the commit [h], as [b]. *)
Definition node_binds (node : NodePattern) (h : Hash) (b : BoundCommit) : Prop :=
  bound_of h b /\ Forall (prop_fits b) (properties node).

(** One edge and one node further, from the commit bound to [prev]. *)
Definition extends (prev var : string) (edge : EdgePattern) (node : NodePattern)
    (row row' : Bindings) : Prop :=
  exists src h b, row !! prev = Some src /\ joined edge (bound_hash src) h /\
    node_binds node h b /\ (forall other, row !! var = Some other -> bound_hash other = h) /\
    row' = <[var := b]> row.

(** The name of the node at an index. *)
Definition node_name (node : NodePattern) (i : nat) : string := default (anon i) (variable node).

Inductive chain : string -> nat -> list PatternElement -> Bindings -> Bindings -> Prop :=
| chain_nil prev i row : chain prev i [] row row
| chain_edge prev i edge node rest row mid row' :
    extends prev (node_name node (i + 1)) edge node row mid ->
    chain (node_name node (i + 1)) (i + 2) rest mid row' ->
    chain prev i (Edge edge :: Node node :: rest) row row'.

(** The rows of a pattern over the commits [universe]. *)
Definition pattern_row (universe : Hash -> Prop) (p : Pattern) (row : Bindings) : Prop :=
  exists first rest h b, Ast.elements p = Node first :: rest /\ universe h /\
    node_binds first h b /\ chain (node_name first 0) 1 rest {[ node_name first 0 := b ]} row.

Section matching.
Context (Hok : disk_ok (store e0)).
Context (U : gset Hash) (HG : graph_ok e0 fuel U).
Context (Hbound : forall h, h ∈ U -> exists b, bound_of h b).
Context (children : gmap Hash (list Hash)).
Context (Hchildren : forall p x, x ∈ default [] (children !! p) <->
  listed_commit e0 x /\ parent_of (store e0) x p).

(** ** Binding a node *)

Lemma keeps_try_bind node h b ok :
  bound_of h b -> props_match b (properties node) = Ok ok ->
  gives I (c ← Exec.get_commit h; Exec.try_bind_node fuel node h c)
    (Ok (if ok then Some b else None)).
Proof.
  intros Hb Hp. destruct (bound_of_commit _ _ _ _ Hb) as [Hc _].
  eapply keeps_step; [by apply keeps_get_commit|]. unfold Exec.try_bind_node.
  eapply keeps_step; [by apply keeps_bind_commit|].
  eapply keeps_step; [by apply keeps_lift|]. by apply keeps_ret.
Qed.

(** Reading a commit, binding it, and going on with the bound commit or without. *)
Lemma keeps_bind_node {A} node h (f : option BoundCommit -> stM Engine ExecError A) R :
  h ∈ U -> forallb (fun kv => literal kv.2) (properties node) = true ->
  (forall b, node_binds node h b -> keeps I (f (Some b)) R) ->
  ((forall b, ~ node_binds node h b) -> keeps I (f None) R) ->
  keeps I (c ← Exec.get_commit h; r ← Exec.try_bind_node fuel node h c; f r) R.
Proof.
  intros Hh Hlit Hsome Hnone. destruct (Hbound h Hh) as [b Hb].
  destruct (props_match_total b _ Hlit) as [ok Hp].
  assert (keeps I ((c ← Exec.get_commit h; Exec.try_bind_node fuel node h c) ≫= f) R) as Hk.
  { eapply keeps_step; [by apply keeps_try_bind|].
    destruct ok; [apply Hsome; by split; [|apply props_match_fits]|].
    apply Hnone. intros b' [Hb' Hp'%props_match_fits]. assert (b' = b) as -> by (by eapply bound_of_unique).
    congruence. }
  intros s Hs. specialize (Hk s Hs). rewrite !stM_bind_eq in *.
  by destruct (Exec.get_commit h s) as [[] ?].
Qed.

Lemma node_binds_unique node h b1 b2 : node_binds node h b1 -> node_binds node h b2 -> b1 = b2.
Proof. intros [H1' _] [H2' _]. by eapply bound_of_unique. Qed.

Lemma node_binds_hash node h b : node_binds node h b -> bound_hash b = h.
Proof. intros [Hb _]. by apply bound_of_commit in Hb as [_ ?]. Qed.

(** After a loop that appends to its argument. *)
Lemma keeps_bind_app {A B} (m : stM Engine ExecError (list A)) (f : list A -> stM Engine ExecError B)
    next (P : list A -> Prop) R :
  keeps I m (fun r => exists new, r = Ok (next ++ new) /\ P new) ->
  (forall new, P new -> keeps I (f (next ++ new)) R) -> keeps I (m ≫= f) R.
Proof.
  intros Hm Hf.
  apply keeps_bind_ok with (fun l => exists new, l = next ++ new /\ P new).
  - eapply keeps_mono; [exact Hm|]. intros r (new & -> & HP). eexists. split; [done|by exists new].
  - intros l (new & -> & HP). by apply Hf.
Qed.

(** The rows of a list of partial matches: the names in [D] bound, to commits. *)
Definition row_ok (D : gset string) (row : Bindings) : Prop :=
  dom row = D /\ forall v b, row !! v = Some b -> bound_hash b ∈ U /\ bound_of (bound_hash b) b.

Lemma keeps_bind_first first hashes partial :
  forallb (fun kv => literal kv.2) (properties first) = true ->
  (forall h, h ∈ hashes -> h ∈ U) -> NoDup hashes ->
  keeps I (Exec.bind_first fuel first hashes partial)
    (fun r => exists new, r = Ok (partial ++ new) /\ NoDup new /\
       forall row, row ∈ new <-> exists h b, h ∈ hashes /\ node_binds first h b /\
         row = {[ node_name first 0 := b ]}).
Proof.
  intros Hlit. revert partial. induction hashes as [|h hashes IH]; intros partial Hin Hnd;
    cbn [Exec.bind_first].
  { apply keeps_ret. exists []. rewrite app_nil_r. split_and!; [done|constructor|].
    intros row. rewrite elem_of_nil. setoid_rewrite elem_of_nil. naive_solver. }
  apply NoDup_cons in Hnd as [Hh Hnd].
  assert (forall x, x ∈ hashes -> x ∈ U) as Hin' by (intros; apply Hin; by right).
  apply keeps_bind_node; [apply Hin; by left|done| |].
  - intros b Hb. eapply keeps_mono; [by apply IH|]. intros r (new & -> & Hn & Hrow).
    exists ({[ node_name first 0 := b ]} :: new). rewrite <- app_assoc. split; [done|]. split.
    + apply NoDup_cons. split; [|done]. intros (h' & b' & Hh' & Hb' & E)%Hrow.
      apply (f_equal (lookup (node_name first 0))) in E. rewrite !lookup_singleton_eq in E.
      injection E as <-. apply node_binds_hash in Hb, Hb'. congruence.
    + intros row. rewrite elem_of_cons, Hrow. setoid_rewrite elem_of_cons. split.
      * intros [->|(h' & b' & ? & ? & ->)]; [by exists h, b; auto|exists h', b'; auto].
      * intros (h' & b' & [->|?] & Hb' & ->); [left|right; by exists h', b'].
        by rewrite (node_binds_unique _ _ _ _ Hb Hb').
  - intros Hno. eapply keeps_mono; [by apply IH|]. intros r (new & -> & Hn & Hrow).
    exists new. split; [done|]. split; [done|]. intros row. rewrite Hrow.
    split; intros (h' & b' & Hx & Hb' & ->).
    + exists h', b'. split_and!; [by right|done..].
    + apply elem_of_cons in Hx as [->|Hx]; [by destruct (Hno b')|by exists h', b'].
Qed.

Lemma keeps_bind_candidates node var row candidates next :
  forallb (fun kv => literal kv.2) (properties node) = true ->
  (forall h, h ∈ candidates -> h ∈ U) -> NoDup candidates ->
  keeps I (Exec.bind_candidates fuel node var row candidates next)
    (fun r => exists new, r = Ok (next ++ new) /\ NoDup new /\
       forall row', row' ∈ new <-> exists h b, h ∈ candidates /\ node_binds node h b /\
         (forall other, row !! var = Some other -> bound_hash other = h) /\
         row' = <[var := b]> row).
Proof.
  intros Hlit. revert next. induction candidates as [|h hashes IH]; intros next Hin Hnd;
    cbn [Exec.bind_candidates].
  { apply keeps_ret. exists []. rewrite app_nil_r. split_and!; [done|constructor|].
    intros row'. rewrite elem_of_nil. setoid_rewrite elem_of_nil. naive_solver. }
  apply NoDup_cons in Hnd as [Hh Hnd].
  assert (forall x, x ∈ hashes -> x ∈ U) as Hin' by (intros; apply Hin; by right).
  assert (forall next', (forall b, node_binds node h b ->
      exists other, row !! var = Some other /\ bound_hash other ≠ h) ->
    keeps I (Exec.bind_candidates fuel node var row hashes next')
      (fun r => exists new, r = Ok (next' ++ new) /\ NoDup new /\
         forall row', row' ∈ new <-> exists h' b, h' ∈ h :: hashes /\ node_binds node h' b /\
           (forall other, row !! var = Some other -> bound_hash other = h') /\
           row' = <[var := b]> row)) as Hskip.
  { intros next' Hno. eapply keeps_mono; [by apply IH|]. intros r (new & -> & Hn & Hrow).
    exists new. split; [done|]. split; [done|]. intros row'. rewrite Hrow.
    split; [intros (h' & b & ? & ? & ? & ->); exists h', b; split_and!; [by right|done..]|].
    intros (h' & b & [->|?]%elem_of_cons & Hb & Hc & ->); [|by exists h', b].
    destruct (Hno b Hb) as (o & Ho & Hne). by destruct Hne, (Hc o). }
  apply keeps_bind_node; [apply Hin; by left|done| |intros Hno; apply Hskip; intros b Hb; by destruct (Hno b)].
  intros b Hb. pose proof (node_binds_hash _ _ _ Hb) as Hbh. cbv zeta.
  assert ((forall other, row !! var = Some other -> bound_hash other = h) ->
    keeps I (Exec.bind_candidates fuel node var row hashes (next ++ [<[var := b]> row]))
      (fun r => exists new, r = Ok (next ++ new) /\ NoDup new /\
         forall row', row' ∈ new <-> exists h' b, h' ∈ h :: hashes /\ node_binds node h' b /\
           (forall other, row !! var = Some other -> bound_hash other = h') /\
           row' = <[var := b]> row)) as Hpush.
  { intros Hc. eapply keeps_mono; [by apply IH|]. intros r (new & -> & Hn & Hrow).
    exists (<[var := b]> row :: new). rewrite <- app_assoc. split; [done|]. split.
    - apply NoDup_cons. split; [|done]. intros (h' & b' & Hh' & Hb' & _ & E)%Hrow.
      apply (f_equal (lookup var)) in E. rewrite !lookup_insert_eq in E.
      injection E as <-. apply node_binds_hash in Hb'. congruence.
    - intros row'. rewrite elem_of_cons, Hrow. split.
      + intros [->|(h' & b' & ? & ? & ? & ->)].
        * exists h, b. split_and!; [by left|done..].
        * exists h', b'. split_and!; [by right|done..].
      + intros (h' & b' & [->|?]%elem_of_cons & Hb' & ? & ->); [left|right; by exists h', b'].
        by rewrite (node_binds_unique _ _ _ _ Hb Hb'). }
  destruct (row !! var) as [other|] eqn:Ho; [|by apply Hpush].
  case_bool_decide as Hne.
  - rewrite Hbh in Hne. apply Hskip. intros. by exists other.
  - apply Hpush. intros o [= <-]. by rewrite Hne.
Qed.

(** ** Edges, and chains of them *)

Lemma extends_ok D prev var edge node row row' :
  row_ok D row -> extends prev var edge node row row' -> row_ok ({[ var ]} ∪ D) row'.
Proof.
  intros [<- Hrow] (src & h & b & Hsrc & He%joined_edge_to & Hb & _ & ->). split; [apply dom_insert_L|].
  assert (h ∈ U) as Hh by (eapply edge_to_in; [exact HG|apply (Hrow _ _ Hsrc)|exact He]).
  intros v b' [[<- <-]|[_ Hv]]%lookup_insert_Some; [|by apply (Hrow v)].
  rewrite (node_binds_hash _ _ _ Hb). split; [done|apply Hb].
Qed.

(** A row knows the row it extends. *)
Lemma extends_inj D prev var edge node row1 row2 row' :
  row_ok D row1 -> row_ok D row2 ->
  extends prev var edge node row1 row' -> extends prev var edge node row2 row' -> row1 = row2.
Proof.
  intros [Hd1 Hr1] [Hd2 Hr2] (s1 & h1 & b1 & _ & _ & Hb1 & Hc1 & ->)
    (s2 & h2 & b2 & _ & _ & Hb2 & Hc2 & E).
  assert (b1 = b2) as <-.
  { apply (f_equal (lookup var)) in E. rewrite !lookup_insert_eq in E. congruence. }
  assert (h1 = h2) as <-.
  { apply node_binds_hash in Hb1, Hb2. congruence. }
  assert (forall row, row_ok D row -> (forall o, row !! var = Some o -> bound_hash o = h1) ->
    var ∈ D -> row !! var = Some b1) as Hin.
  { intros row [<- Hr] Hc [o Ho]%elem_of_dom. rewrite Ho. f_equal.
    destruct (Hr _ _ Ho) as [_ Hbo]. rewrite (Hc o Ho) in Hbo.
    eapply bound_of_unique; [exact Hok|exact Hbo|apply Hb1]. }
  destruct (decide (var ∈ D)) as [Hv|Hv].
  - pose proof (Hin row1 (conj Hd1 Hr1) Hc1 Hv) as E1.
    pose proof (Hin row2 (conj Hd2 Hr2) Hc2 Hv) as E2.
    by rewrite (insert_id _ _ _ E1), (insert_id _ _ _ E2) in E.
  - apply (f_equal (delete var)) in E.
    rewrite !delete_insert_id in E by (apply not_elem_of_dom; congruence). done.
Qed.

Lemma keeps_extend_partial D prev edge node i partial next :
  forallb (fun kv => literal kv.2) (properties node) = true -> edge_fuel fuel U edge ->
  NoDup partial -> (forall row, row ∈ partial -> row_ok D row) -> prev ∈ D ->
  keeps I (Exec.extend_partial fuel children prev edge node i partial next)
    (fun r => exists new, r = Ok (next ++ new) /\ NoDup new /\
       forall row', row' ∈ new <-> exists row, row ∈ partial /\
         extends prev (node_name node (i + 1)) edge node row row').
Proof.
  intros Hlit Hf. revert next. induction partial as [|row partial IH]; intros next Hnd Hrows Hprev;
    cbn [Exec.extend_partial].
  { apply keeps_ret. exists []. rewrite app_nil_r. split_and!; [done|constructor|].
    intros row'. rewrite elem_of_nil. setoid_rewrite elem_of_nil. naive_solver. }
  apply NoDup_cons in Hnd as [Hrow Hnd].
  assert (row_ok D row) as Hr by (apply Hrows; by left). pose proof Hr as [Hd Hb].
  assert (is_Some (row !! prev)) as [src Hsrc] by (apply elem_of_dom; congruence).
  destruct (Hb _ _ Hsrc) as [Hin _]. rewrite Hsrc.
  eapply keeps_bind_ok; [by eapply keeps_expand_edge|].
  cbv beta. intros cands [Hcn Hc]. fold (node_name node (i + 1)).
  eapply keeps_bind_app; [apply keeps_bind_candidates; [done| |done]|].
  { intros h Hh%Hc. by eapply edge_to_in. }
  setoid_rewrite <- joined_edge_to in Hc. intros new1 [Hn1 H1'].
  eapply keeps_mono; [apply IH; [done| |done]|]; [intros; apply Hrows; by right|].
  intros r (new2 & -> & Hn2 & H2'). exists (new1 ++ new2). rewrite (assoc_L (++)). split; [done|].
  assert (forall row', row' ∈ new1 <-> extends prev (node_name node (i + 1)) edge node row row') as H1''.
  { intros row'. rewrite H1'. split.
    - intros (h & b & ?%Hc & ? & ? & ->). by exists src, h, b.
    - intros (src' & h & b & Hs & He & ? & ? & ->). assert (src' = src) as -> by congruence.
      exists h, b. split_and!; try done. by apply Hc. }
  split.
  - apply NoDup_app. split_and!; [done| |done]. intros row' Ha%H1'' (row2 & Hr2 & Hb2)%H2'.
    assert (row = row2) as ->; [|done].
    eapply (extends_inj D); [done|apply Hrows; by right|exact Ha|exact Hb2].
  - intros row'. rewrite elem_of_app, H1'', H2'. setoid_rewrite elem_of_cons. split.
    + intros [?|(row2 & ? & ?)]; [exists row; auto|exists row2; auto].
    + intros (row2 & [->|?] & ?); [by left|right; by exists row2].
Qed.

Lemma keeps_match_rest D rest n0 first i partial :
  (length rest <= n0)%nat -> rest_ok rest = true -> (1 <= i)%nat ->
  (forall e, Edge e ∈ rest -> edge_fuel fuel U e) ->
  NoDup partial -> (forall row, row ∈ partial -> row_ok D row) -> node_name first (i - 1) ∈ D ->
  keeps I (Exec.match_rest fuel children (Node first) i rest partial)
    (fun r => exists rows, r = Ok rows /\ NoDup rows /\
       forall row', row' ∈ rows <-> exists row, row ∈ partial /\
         chain (node_name first (i - 1)) i rest row row').
Proof.
  revert D rest first i partial. induction n0 as [|n0 IH]; intros D rest first i partial Hlen Hwf Hi
    Hf Hnd Hrows Hprev.
  all: destruct rest as [|[|edge] [|[node|] rest]]; try done; cbn [length] in Hlen; try lia;
    cbn [Exec.match_rest].
  1,2: apply keeps_ret; exists partial; (split; [done|]); (split; [done|]); intros row';
    (split; [intros Hr; exists row'; split; [done|constructor]|]);
    intros (row & Hr & Hc); inversion Hc; by subst.
  cbn [rest_ok] in Hwf. apply andb_true_iff in Hwf as [Hlit Hwf].
  change (pattern_node_var (Node first) (i - 1)) with (node_name first (i - 1)).
  eapply keeps_bind_app; [apply (keeps_extend_partial D); [done| |done..]|].
  { apply Hf. by left. }
  cbn [app]. intros mids [Hn Hmid].
  eapply keeps_mono.
  { apply (IH ({[ node_name node (i + 1) ]} ∪ D) rest node (i + 2)%nat mids); [lia|done|lia| |done| |].
    - intros e He. apply Hf. right. by right.
    - intros row' (row & Hr & He)%Hmid. eapply extends_ok; [by apply Hrows|exact He].
    - replace (i + 2 - 1)%nat with (i + 1)%nat by lia. apply elem_of_union. left.
      by apply elem_of_singleton. }
  intros r (rows & -> & Hrn & Hrow). exists rows. split; [done|]. split; [done|].
  replace (i + 2 - 1)%nat with (i + 1)%nat in Hrow by lia.
  intros row'. rewrite Hrow. split.
  - intros (mid & (row & Hr & He)%Hmid & Hc). exists row. split; [done|]. by econstructor.
  - intros (row & Hr & Hc). inversion Hc as [|? ? ? ? ? ? mid ? He Hc']; subst.
    exists mid. split; [apply Hmid; by exists row|done].
Qed.

Lemma keeps_match_pattern p (universe : gset Hash) :
  pattern_ok p = true -> (forall e, Edge e ∈ Ast.elements p -> edge_fuel fuel U e) ->
  universe ⊆ U ->
  keeps I (Exec.match_pattern fuel p universe children)
    (fun r => exists rows, r = Ok rows /\ NoDup rows /\
       forall row, row ∈ rows <-> pattern_row (fun h => h ∈ universe) p row).
Proof.
  intros Hp Hf Hu. unfold pattern_ok, Exec.match_pattern, pattern_row in *.
  destruct (Ast.elements p) as [|[first|] rest]; try done.
  apply andb_true_iff in Hp as [Hlit Hwf].
  eapply keeps_bind_app; [apply keeps_bind_first; [done| |apply NoDup_elements]|].
  { intros h Hh%elem_of_elements. by apply Hu. }
  cbn [app]. intros new [Hn Hnew].
  eapply keeps_mono.
  { apply (keeps_match_rest {[ node_name first 0 ]} rest (length rest) first 1); try done.
    - intros e He. apply Hf. by right.
    - intros row (h & b & Hh%elem_of_elements & Hb & ->)%Hnew. split; [apply dom_singleton_L|].
      intros v b' [<- <-]%lookup_singleton_Some. rewrite (node_binds_hash _ _ _ Hb).
      split; [by apply Hu|apply Hb].
    - by apply elem_of_singleton. }
  intros r (rows & -> & Hrn & Hrow). exists rows. split; [done|]. split; [done|].
  intros row'. rewrite Hrow. change (1 - 1)%nat with 0%nat. split.
  - intros (row & (h & b & Hh%elem_of_elements & Hb & ->)%Hnew & Hc).
    by exists first, rest, h, b.
  - intros (first' & rest' & h & b & [= <- <-] & Hh & Hb & Hc). eexists. split; [|exact Hc].
    apply Hnew. exists h, b. split; [by apply elem_of_elements|done].
Qed.

End matching.

(** ** A whole match *)

(** The commits a match ranges over. *)
Definition universe (context h : Hash) : Prop :=
  reaches (store e0) context h \/ listed_commit e0 h.

(** What makes a match succeed: the commits are in [U] and have their snapshots, the nodes and
    the edges of the patterns alternate with literal properties, and the fuel is enough. *)
Record match_ok (U : gset Hash) (m : MatchClause) (context : Hash) : Prop := {
  mo_disk : disk_ok (store e0);
  mo_graph : graph_ok e0 fuel U;
  mo_bound : forall h, h ∈ U -> exists b, bound_of h b;
  mo_context : context ∈ U;
  mo_patterns : forall p, p ∈ patterns m -> pattern_ok p = true;
  mo_fuel : forall p e, p ∈ patterns m -> Edge e ∈ Ast.elements p -> edge_fuel fuel U e
}.

Lemma keeps_match_patterns U children (hs : gset Hash) ps rows :
  disk_ok (store e0) -> graph_ok e0 fuel U -> (forall h, h ∈ U -> exists b, bound_of h b) ->
  (forall p x, x ∈ default [] (children !! p) <-> listed_commit e0 x /\ parent_of (store e0) x p) ->
  (forall p, p ∈ ps -> pattern_ok p = true) ->
  (forall p e, p ∈ ps -> Edge e ∈ Ast.elements p -> edge_fuel fuel U e) -> hs ⊆ U ->
  keeps I (Exec.match_patterns fuel ps hs children rows)
    (fun r => exists new, r = Ok (rows ++ concat new) /\
       Forall2 (fun p l => NoDup l /\ forall row, row ∈ l <-> pattern_row (fun h => h ∈ hs) p row)
         ps new).
Proof.
  intros Hok HG Hb Hc Hps Hf Hhs. revert rows.
  induction ps as [|p ps IH]; intros rows; cbn [Exec.match_patterns].
  { apply keeps_ret. exists []. cbn. rewrite app_nil_r. split; [done|constructor]. }
  eapply keeps_bind_ok; [eapply (keeps_match_pattern Hok U HG Hb children Hc)|].
  { apply Hps. by left. }
  { intros e. apply Hf. by left. }
  { done. }
  cbv beta. intros l [Hn Hl]. eapply keeps_mono.
  { apply IH; intros; [apply Hps; by right|eapply Hf; [by right|done]]. }
  intros r (new & -> & HF). exists (l :: new). split; [|by constructor]. cbn.
  by rewrite <- (assoc_L (++)).
Qed.

Lemma pattern_row_iff (P Q : Hash -> Prop) p row :
  (forall h, P h <-> Q h) -> pattern_row P p row <-> pattern_row Q p row.
Proof.
  intros HPQ. split; intros (f & rest & h & b & ? & ?%HPQ & ?); by exists f, rest, h, b.
Qed.

Lemma keeps_exec_match U m context :
  match_ok U m context ->
  keeps I (Exec.exec_match fuel m context)
    (fun r => exists new, r = Ok (concat new) /\
       Forall2 (fun p l => NoDup l /\ forall row, row ∈ l <-> pattern_row (universe context) p row)
         (patterns m) new).
Proof.
  intros [Hok HG Hb Hc Hp Hf]. unfold Exec.exec_match.
  eapply keeps_bind_ok; [apply keeps_on_store_ok; by eapply keeps_ancestors|].
  cbv beta. intros anc Hanc.
  eapply keeps_bind_ok; [apply keeps_on_store_ok; by eapply keeps_reachable|].
  cbv beta. intros all Hall.
  eapply keeps_bind_ok; [apply keeps_on_store_ok; by eapply keeps_children_map|].
  cbv beta. intros ch Hch.
  eapply keeps_mono; [eapply (keeps_match_patterns U); try done|].
  - intros h [Hh|Hh]%elem_of_union; [|by eapply listed_in, Hall].
    apply Hanc in Hh. clear - HG Hc Hh. induction Hh as [|x y z (c & Hx & Hp) _ IH]; [done|].
    apply IH. destruct (graph_closed _ _ _ HG x Hc) as (c' & Hc' & Hps). apply Hps. congruence.
  - intros r (new & -> & HF). exists new. split; [done|].
    eapply Forall2_impl; [exact HF|]. intros p l [Hn Hl]. split; [done|]. intros row. rewrite Hl.
    apply pattern_row_iff. intros h. unfold universe. by rewrite elem_of_union, Hanc, Hall.
Qed.

End spec.

(** ** The answer *)

(** Neither absent nor false, zero or empty. *)
Definition truthy (v : Value) : Prop :=
  v ≠ VNull /\ v ≠ VBool false /\ v ≠ VInt 0 /\ v ≠ VString EmptyString /\ v ≠ VMap [] /\
  forall x, v = VFloat x -> SFeqb x (S754_zero false) = false.

Lemma is_truthy_spec v : is_truthy v = true <-> truthy v.
Proof.
  unfold truthy. destruct v as [|b|n|f|s|m]; cbn.
  - naive_solver.
  - destruct b; naive_solver.
  - rewrite negb_true_iff, Z.eqb_neq. naive_solver.
  - rewrite negb_true_iff. naive_solver.
  - rewrite negb_true_iff, String.eqb_neq. naive_solver.
  - destruct m; naive_solver.
Qed.

(** The rows that [WHERE] keeps: those for which the condition has a truthy value. A row for
    which it is an error is dropped. *)
Definition where_holds (q : QueryStatement) (row : Bindings) : Prop :=
  match where_clause q with
  | None => True
  | Some e => exists v, eval_expr row e = Ok v /\ truthy v
  end.

(** The elements with a property, in their order. *)
Inductive selects {A} (P : A -> Prop) : list A -> list A -> Prop :=
| selects_nil : selects P [] []
| selects_keep x l k : P x -> selects P l k -> selects P (x :: l) (x :: k)
| selects_drop x l k : ~ P x -> selects P l k -> selects P (x :: l) k.

(** The name of a column: its alias, or the variable or the property it shows. *)
Definition column_name (i : nat) (item : ProjectionItem) : string :=
  match alias item, expression item with
  | Some a, _ => a
  | None, EVariable x => x
  | None, EPropertyAccess _ p => p
  | None, _ => "col" +:+ pretty i
  end.

(** What a variable shows: the hash of its commit. *)
Definition shown (row : Bindings) (x : string) : Value :=
  match row !! x with Some b => VString (Hash.to_string (bound_hash b)) | None => VNull end.

(** The answer of a query to its rows. *)
Inductive projects : option SelectClause -> list Bindings -> outcome ExecError QueryResult -> Prop :=
| projects_none sel : projects sel [] (Ok (mk_QueryResult [] []))
| projects_all row rows names :
    NoDup names -> (forall x, x ∈ names <-> x ∈ dom row) ->
    projects None (row :: rows)
      (Ok (mk_QueryResult names (map (fun r => map (shown r) names) (row :: rows))))
| projects_items sel row rows table :
    Forall2 (fun r cells => Forall2 (fun item cell => eval_expr r (expression item) = Ok cell)
               (Ast.items sel) cells) (row :: rows) table ->
    projects (Some sel) (row :: rows)
      (Ok (mk_QueryResult (imap column_name (Ast.items sel)) table))
| projects_unbound sel rows row item x :
    row ∈ rows -> item ∈ Ast.items sel -> x ∈ variables (expression item) -> x ∉ dom row ->
    projects (Some sel) rows (Err (ExecText ("unbound variable '" +:+ x +:+ "'"))).

Lemma selects_filter {A} (P : A -> Prop) (Q : A -> Prop) `{forall x, Decision (Q x)} l :
  (forall x, Q x <-> P x) -> selects P l (filter Q l).
Proof.
  intros HPQ. induction l as [|x l IH]; [constructor|]. destruct (decide (Q x)) as [Hq|Hq].
  - rewrite filter_cons_True by done. constructor; [by apply HPQ|done].
  - rewrite filter_cons_False by done. constructor; [by rewrite <- HPQ|done].
Qed.

Lemma holds_spec row e : holds row e = true <-> exists v, eval_expr row e = Ok v /\ truthy v.
Proof.
  unfold holds, eval_bool. destruct (eval_expr row e) as [v| | |]; cbn; [|naive_solver..].
  rewrite is_truthy_spec. naive_solver.
Qed.

(** A mapping that fails, fails at an element. *)
Lemma mapM_result {E A B} (f : A -> outcome E B) (P : E -> Prop) l :
  (forall x, x ∈ l -> match f x with Ok _ => True | Err e => P e | _ => False end) ->
  match mapM f l with
  | Ok k => Forall2 (fun x y => f x = Ok y) l k
  | Err e => P e
  | _ => False
  end.
Proof.
  induction l as [|x l IH]; intros Hf; cbn [mapM]; [constructor|].
  pose proof (Hf x ltac:(by left)) as Hx. destruct (f x) as [y| | |] eqn:Ex; try done. cbn.
  specialize (IH (fun x' Hx' => Hf x' ltac:(by right))).
  destruct (mapM f l) as [k| | |]; try done. cbn. by constructor.
Qed.

(** Why a projection fails. *)
Definition unbound_in (sel : SelectClause) (rows : list Bindings) (e : ExecError) : Prop :=
  exists row item x, row ∈ rows /\ item ∈ Ast.items sel /\ x ∈ variables (expression item) /\
    (x ∉ dom row) /\ e = ExecText ("unbound variable '" +:+ x +:+ "'").

Lemma project_row_result sel rows row :
  row ∈ rows ->
  match mapM (fun item => eval_expr row (expression item)) (Ast.items sel) with
  | Ok cells => Forall2 (fun item cell => eval_expr row (expression item) = Ok cell) (Ast.items sel) cells
  | Err e => unbound_in sel rows e
  | _ => False
  end.
Proof.
  intros Hr. apply mapM_result. intros item Hi.
  destruct (eval_evaluates row (expression item)) as [Hok Herr].
  destruct (decide (variables (expression item) ⊆ dom row)) as [Hs|Hs].
  - by destruct (Hok Hs) as [v ->].
  - destruct (Herr Hs) as (x & Hx & Hd & ->). by exists row, item, x.
Qed.

Lemma project_table sel (rows l : list Bindings) table :
  (forall row, row ∈ l -> row ∈ rows) ->
  Forall2 (fun r cells => mapM (fun item => eval_expr r (expression item)) (Ast.items sel) = Ok cells) l table ->
  Forall2 (fun r cells => Forall2 (fun item cell => eval_expr r (expression item) = Ok cell)
    (Ast.items sel) cells) l table.
Proof.
  intros Hin Ht. induction Ht as [|r cells l table Hr _ IH]; constructor.
  - pose proof (project_row_result sel rows r (Hin r ltac:(by left))) as Hrow. by rewrite Hr in Hrow.
  - apply IH. intros; apply Hin. by right.
Qed.

Lemma project_rows_spec sel rows : projects sel rows (project_rows sel rows).
Proof.
  destruct rows as [|row rows]; [constructor|]. cbn [project_rows]. destruct sel as [sel|].
  - pose proof (project_row_result sel (row :: rows)) as Hrow.
    pose proof (mapM_result (fun r => mapM (fun item => eval_expr r (expression item)) (Ast.items sel))
      (unbound_in sel (row :: rows)) (row :: rows)) as Hm.
    match type of Hm with ?P -> _ => assert P as Hall end.
    { intros r Hr. specialize (Hrow r Hr). by destruct (mapM _ (Ast.items sel)). }
    specialize (Hm Hall). destruct (mapM _ (row :: rows)) as [table|x| |]; try done.
    + apply projects_items. by apply (project_table sel (row :: rows)).
    + destruct Hm as (r & item & y & ? & ? & ? & ? & ->). by eapply projects_unbound.
  - apply (projects_all row rows).
    + apply NoDup_fst_map_to_list.
    + intros x. rewrite list_elem_of_fmap, elem_of_dom. split.
      * intros ([y b] & -> & Hb%elem_of_map_to_list). by exists b.
      * intros [b Hb]. exists (x, b). by rewrite elem_of_map_to_list.
Qed.

Lemma match_rows_spec q rows :
  exists kept, selects (where_holds q) rows kept /\ projects (select q) kept (Exec.match_rows q rows).
Proof.
  unfold Exec.match_rows, where_holds. destruct (where_clause q) as [e|].
  - eexists. split; [|apply project_rows_spec]. apply selects_filter. intros row. apply holds_spec.
  - exists rows. split; [|apply project_rows_spec]. induction rows; by constructor.
Qed.

(** C2: A [MATCH] query answers what its patterns mean. Each pattern contributes, once each, the
    rows that bind its nodes to commits - visible from the context or from a listed branch -
    whose properties equal the literals of the node, and of which each is another commit than
    the one before and as many hops from it as the edge asks for: to parents, or to children
    that a listed branch reaches, [*] being at most 64 hops, while the arrow of an edge and the
    label of a node play no part. Of these rows [WHERE] keeps those for which it has a truthy
    value; the answer has a row for each, with the value of every selected expression, or the
    hash of every variable when there is no [SELECT], under the columns' names - or it is the
    error that names an unbound variable. The query terminates. The conditions, in [match_ok]:
    the commits of the branches and of the context are stored with their snapshots, nodes and
    edges alternate, properties are literals, and the fuel covers the graph. *)
Theorem match_query_correct `{Blake3, !MmapLib, !MmapLaws} (e : Engine) (fuel : nat)
    (U : gset Hash) (q : QueryStatement) (m : MatchClause) (context : Hash) :
  match_clause q = Some m -> (Exec.context_hash (Ast.context q) e).1 = Ok context ->
  match_ok e fuel U m context ->
  exists tables kept,
    Forall2 (fun p rows => NoDup rows /\
               forall row, row ∈ rows <-> pattern_row e fuel (universe e context) p row)
      (patterns m) tables /\
    selects (where_holds q) (concat tables) kept /\
    projects (select q) kept (Exec.exec_query fuel q e).1.
Proof.
  intros Hm Hctx Hok. pose proof (engine_view_refl e (mo_disk _ _ _ _ _ Hok)) as He.
  assert (ReadOnly (engine_view e) (Exec.context_hash (Ast.context q))) as Hro.
  { unfold Exec.context_hash. ro. }
  specialize (Hro e He). unfold Exec.exec_query. rewrite Hm.
  destruct (traversal q); rewrite stM_bind_eq;
    (destruct (Exec.context_hash (Ast.context q) e) as [r e1]; simpl in Hctx; subst r);
    destruct Hro as [He1 _];
    pose proof (keeps_exec_match e fuel U m context Hok e1 He1) as Hk; rewrite stM_bind_eq;
    destruct (Exec.exec_match fuel m context e1) as [r e2];
    destruct Hk as (_ & tables & -> & HF);
    destruct (match_rows_spec q (concat tables)) as (kept & Hkept & Hp); by exists tables, kept.
Qed.

Section witness.

#[local] Existing Instance toy_hash.
#[local] Existing Instance id_mmap.
#[local] Existing Instance id_mmap_laws.

(** [MATCH (a)-[PARENT]->(b) WHERE a.message = "n" SELECT b.message AS m, a]. *)
Definition ex_match : MatchClause :=
  mk_MatchClause [mk_Pattern [Node (mk_NodePattern (Some "a") None []);
    Edge (mk_EdgePattern Outgoing Parent None); Node (mk_NodePattern (Some "b") None [])]].
Definition ex_query : QueryStatement :=
  mk_QueryStatement None (Some ex_match) None
    (Some (EBinary (EPropertyAccess (EVariable "a") "message") OpEq (EString "n")))
    (Some (mk_SelectClause [mk_ProjectionItem (EPropertyAccess (EVariable "b") "message") (Some "m");
                            mk_ProjectionItem (EVariable "a") None])).

Example ex_query_answer :
  (Exec.exec_query 70 ex_query ex_engine).1 =
    Ok (mk_QueryResult ["m"; "a"] [[VString "m"; VString (Hash.to_string ex_tip2)]]).
Proof. vm_compute. reflexivity. Qed.

Lemma match_query_correct_witness :
  exists tables kept,
    Forall2 (fun p rows => NoDup rows /\
               forall row, row ∈ rows <-> pattern_row ex_engine 70 (universe ex_engine ex_tip2) p row)
      (patterns ex_match) tables /\
    selects (where_holds ex_query) (concat tables) kept /\
    projects (select ex_query) kept (Exec.exec_query 70 ex_query ex_engine).1.
Proof.
  apply (match_query_correct ex_engine 70 ex_commits ex_query ex_match ex_tip2).
  - reflexivity.
  - vm_compute. reflexivity.
  - split.
    + apply ex_disk2_ok.
    + apply ex_graph_ok.
    + apply ex_bound.
    + apply elem_of_union; right; by apply elem_of_singleton.
    + by intros p ->%list_elem_of_singleton.
    + intros p e ->%list_elem_of_singleton He. unfold ex_match in He. simpl in He.
      apply elem_of_cons in He as [?|[[= ->]|[?|?%not_elem_of_nil]%elem_of_cons]%elem_of_cons]; try done.
      apply Nat.ltb_lt. vm_compute. reflexivity.
Defined.

End witness.
