(* ===== verification/PathSpec.v ===== *)
(** * Shortest paths between commits

    [TRAVERSE SHORTEST_PATH]: the search of [shortest_commit_path] finds a path whenever
    there is one, and no shorter path exists. *)

From Stdlib Require Import Strings.String.
From S2P Require Import Prelude Utf8 Hash Codec Record Cache Index Cas HamtNode Hamt HamtTree HamtProofs HamtSpec CasStore CasStoreProofs CasStoreSpec Commit Bfs Dag Repo DiskStore DiskStoreSpec.
From S2P Require Import Chars Lexer Text BTree Ast Parser Value Ddl Schema PathIndex Engine Reads EngineSpec.

(** A walk along [R], as the list of its vertices. *)
Inductive walk (R : Hash -> Hash -> Prop) : list Hash -> Hash -> Hash -> Prop :=
| walk_one x : walk R [x] x x
| walk_snoc p x y z : walk R p x y -> R y z -> walk R (p ++ [z]) x z.

Lemma walk_steps R p x y : walk R p x y -> exists n, length p = S n /\ nsteps R n x y.
Proof.
  induction 1 as [x|p x y z _ (n & Hl & Hn) Hz]; [exists 0%nat; split; [done|constructor]|].
  exists (S n). rewrite length_app, Hl. split; [simpl; lia|]. by eapply nsteps_r.
Qed.

Section spec.
Context `{Blake3, !MmapLib, !MmapLaws}.
Context (e0 : Engine) (fuel : nat).

Abbreviation I := (engine_view e0).

(** Neighbours: a parent, or a child among the commits of the listed branches. *)
Definition adjacent (h n : Hash) : Prop :=
  parent_of (store e0) h n \/ (listed_commit e0 n /\ parent_of (store e0) n h).

Section search.
Context (U : gset Hash) (HG : graph_ok e0 fuel U).
Context (children : gmap Hash (list Hash)).
Context (Hchildren : forall p x, x ∈ default [] (children !! p) <->
  listed_commit e0 x /\ parent_of (store e0) x p).
Context (from to : Hash).

Abbreviation depths q := ((fun e => (e.1, pred (length e.2))) <$> (q : list (Hash * list Hash))).

(** The queue holds a walk to each of its commits. *)
Definition walks (q : list (Hash * list Hash)) : Prop :=
  forall h p, (h, p) ∈ q -> walk adjacent p from h.

Lemma adjacent_in h n : h ∈ U -> adjacent h n -> n ∈ U.
Proof.
  intros Hh [(c & Hc & Hp)|[Hn _]]; [|by eapply listed_in].
  destruct (graph_closed _ _ _ HG h Hh) as (c' & Hc' & Hps). apply Hps. congruence.
Qed.

Lemma depths_pushed p new :
  (0 < length p)%nat ->
  depths ((fun n => (n, p ++ [n])) <$> new) = (fun n => (n, (pred (length p) + 1)%nat)) <$> new.
Proof.
  intros Hp. rewrite <- list_fmap_compose. apply list_fmap_ext. intros i n _. simpl.
  f_equal. rewrite length_app. simpl. lia.
Qed.

Lemma keeps_path_loop n P q visited :
  bfs_inv adjacent U (fun _ => True) from P (depths q) visited -> walks q ->
  to ∉ P.*1 -> (size U < n + length P)%nat ->
  keeps I (Exec.path_loop n children to q visited)
    (fun r => exists res, r = Ok res /\
       match res with
       | Some p => walk adjacent p from to /\
           forall m, nsteps adjacent m from to -> (length p <= S m)%nat
       | None => forall m, ~ nsteps adjacent m from to
       end).
Proof.
  revert P q visited. induction n as [|n IH]; intros P q visited Hinv Hw HP Hn.
  { pose proof (bfs_size _ _ _ _ _ _ _ Hinv). lia. }
  assert (forall m, nsteps adjacent m from to -> exists h0 d, (h0, d) ∈ depths q /\ (d <= m)%nat)
    as Hcov.
  { intros m Hm. by destruct (bfs_covers _ _ _ _ _ _ _ m to Hinv (fun _ _ => Logic.I) Hm). }
  destruct q as [|[c p] q]; cbn [Exec.path_loop].
  { apply keeps_ret. exists None. split; [done|]. intros m Hm.
    by destruct (Hcov m Hm) as (? & ? & ?%not_elem_of_nil & _). }
  assert (walk adjacent p from c) as Hp by (apply Hw; by left).
  destruct (walk_steps _ _ _ _ Hp) as (d & Hlen & _).
  case_decide as Hc.
  { apply keeps_ret. exists (Some p). subst c. split; [done|]. split; [done|]. intros m Hm.
    destruct (Hcov m Hm) as (h0 & d0 & Hin & Hd0). cbn [fmap list_fmap fst snd] in *.
    pose proof (bfs_head_min _ _ _ _ _ _ _ _ _ _ _ Hinv Hin). lia. }
  cbn [fmap list_fmap fst snd] in Hinv.
  assert (c ∈ U) as HcU.
  { eapply bfs_in; [exact Hinv|]. apply elem_of_app. right. by left. }
  destruct (graph_closed _ _ _ HG c HcU) as (commit & Hcm & _).
  eapply keeps_step; [by apply keeps_get_commit|]. cbv zeta.
  set (ns := parents commit ++ default [] (children !! c)).
  assert (forall h, adjacent c h <-> h ∈ ns) as Hns.
  { intros h. unfold ns, adjacent. rewrite elem_of_app, Hchildren.
    by rewrite <- (parent_of_eq _ _ _ Hcm). }
  destruct (push_new_spec (fun h => (h, p ++ [h])) ns visited q) as (new & -> & Hnd & Hnew).
  apply (IH (P ++ [(c, pred (length p))])).
  - rewrite fmap_app, depths_pushed by lia.
    eapply (bfs_expand _ _ _ _ _ _ _ _ _ _ _ Hinv Hns); [|done|done].
    intros h Hh%Hns. by eapply adjacent_in.
  - intros h p' [Hin|Hin]%elem_of_app; [apply Hw; by right|].
    apply list_elem_of_fmap in Hin as (h' & [= -> ->] & Hh').
    eapply walk_snoc; [exact Hp|]. apply Hns. by apply Hnew.
  - rewrite fmap_app, not_elem_of_app. split; [done|]. cbn. rewrite list_elem_of_singleton. congruence.
  - rewrite length_app. simpl. lia.
Qed.

End search.

Lemma keeps_shortest_path U from to :
  graph_ok e0 fuel U -> from ∈ U -> (size U < fuel)%nat ->
  keeps I (Exec.shortest_commit_path fuel from to)
    (fun r => match r with
              | Ok p => walk adjacent p from to /\
                  forall m, nsteps adjacent m from to -> (length p <= S m)%nat
              | Err e => (forall m, ~ nsteps adjacent m from to) /\
                  e = ExecText ("no path between " +:+ Hash.to_string from +:+ " and " +:+ Hash.to_string to)
              | _ => False
              end).
Proof.
  intros HG Hfrom Hf. unfold Exec.shortest_commit_path.
  eapply keeps_bind_ok; [apply keeps_on_store_ok; by eapply keeps_children_map|].
  cbv beta. intros children Hch.
  eapply keeps_bind_ok.
  - apply (keeps_path_loop U HG children Hch from to fuel []); [by apply bfs_init| | |simpl; lia].
    + intros h p [= -> ->]%list_elem_of_singleton. constructor.
    + by apply not_elem_of_nil.
  - cbv beta. intros [p|] Hp; [by apply keeps_ret|by apply keeps_fail].
Qed.

End spec.

(** C12: [TRAVERSE SHORTEST_PATH] finds a path whenever the commits are connected. It returns a
    list of commits from the one to the other, each the parent or a visible child of the one
    before, and no shorter list exists; when there is none, it says so. It terminates. *)
Theorem shortest_path_found `{Blake3, !MmapLib, !MmapLaws} (e : Engine) (fuel : nat)
    (U : gset Hash) (from to : Hash) :
  disk_ok (store e) -> graph_ok e fuel U -> from ∈ U -> (size U < fuel)%nat ->
  let r := (Exec.shortest_commit_path fuel from to e).1 in
  (rtc (adjacent e) from to -> exists p, r = Ok p /\ walk (adjacent e) p from to /\
     forall p', walk (adjacent e) p' from to -> (length p <= length p')%nat) /\
  (~ rtc (adjacent e) from to -> r = Err (ExecText
     ("no path between " +:+ Hash.to_string from +:+ " and " +:+ Hash.to_string to))).
Proof.
  intros Hok HG Hfrom Hf r.
  pose proof (keeps_shortest_path e fuel U from to HG Hfrom Hf e (engine_view_refl e Hok)) as Hk.
  unfold r. clear r. destruct (Exec.shortest_commit_path fuel from to e) as [[p|x| |] e'];
    destruct Hk as [_ Hk]; try done.
  - destruct Hk as [Hp Hmin]. split.
    + intros _. exists p. split; [done|]. split; [done|]. intros p' Hp'.
      destruct (walk_steps _ _ _ _ Hp') as (m & -> & Hm). by apply Hmin.
    + intros Hno. destruct Hno. destruct (walk_steps _ _ _ _ Hp) as (m & _ & Hm).
      apply rtc_nsteps. by exists m.
  - destruct Hk as [Hno ->]. split; [|done]. intros [m Hm]%rtc_nsteps. by apply Hno in Hm.
Qed.

Section witness.

#[local] Existing Instance toy_hash.
#[local] Existing Instance id_mmap.
#[local] Existing Instance id_mmap_laws.

Lemma shortest_path_found_witness :
  let r := (Exec.shortest_commit_path 70 ex_tip ex_tip2 ex_engine).1 in
  (rtc (adjacent ex_engine) ex_tip ex_tip2 -> exists p, r = Ok p /\
     walk (adjacent ex_engine) p ex_tip ex_tip2 /\
     forall p', walk (adjacent ex_engine) p' ex_tip ex_tip2 -> (length p <= length p')%nat) /\
  (~ rtc (adjacent ex_engine) ex_tip ex_tip2 -> r = Err (ExecText
     ("no path between " +:+ Hash.to_string ex_tip +:+ " and " +:+ Hash.to_string ex_tip2))).
Proof.
  apply (shortest_path_found ex_engine 70 ex_commits ex_tip ex_tip2).
  - apply ex_disk2_ok.
  - apply ex_graph_ok.
  - apply elem_of_union; left; apply elem_of_singleton; reflexivity.
  - apply Nat.ltb_lt. vm_compute. reflexivity.
Defined.

End witness.
