(* ===== verification/RefsSpec.v ===== *)
(** * The refs under version statements

    An abstract machine of branch tips and HEAD, and that [COMMIT], [CREATE BRANCH],
    [DELETE BRANCH], [CHECKOUT], [MERGE] and [DIFF] refine it. *)

From Stdlib Require Import Strings.String.
From S2P Require Import Prelude Utf8 Hash Codec Record Cache Index Cas HamtNode Hamt HamtTree HamtProofs HamtSpec CasStore CasStoreProofs CasStoreSpec Commit Bfs Dag Repo DiskStore DiskStoreSpec.
From S2P Require Import Chars Lexer Text BTree Ast Parser Value Ddl Schema PathIndex Engine Reads EngineSpec.

(** ** The tips of the branches

    By the path of their file: a name leads to the tip at its [branch_key]. *)

Definition tips (r : Repo) : gmap string Hash :=
  omap (fun x => match x with
                 | RefFile c => match ref_target c with Ok h => Some h | _ => None end
                 | RefDir => None
                 end) (repo_refs r).

Lemma tips_lookup r k h :
  tips r !! k = Some h <-> exists c, repo_refs r !! k = Some (RefFile c) /\ ref_target c = Ok h.
Proof.
  unfold tips. rewrite lookup_omap. destruct (repo_refs r !! k) as [[c|]|]; cbn.
  2-3: split; [done|by intros (c' & Hc & _)].
  split.
  - destruct (ref_target c) as [h'| | |] eqn:E; [|done..]. intros [= <-]. by exists c.
  - intros (c' & [= <-] & E). by rewrite E.
Qed.

Lemma read_branch_name name r b : RepoOps.read_branch name r = Ok b -> branch_name b = name.
Proof. by intros (k & c & _ & _ & _ & ?)%read_branch_ok. Qed.

(** Reading a branch gives the tip of its file. *)
Lemma read_branch_tip name r b :
  RepoOps.read_branch name r = Ok b <->
  branch_name b = name /\ exists k, branch_key name = Some k /\ tips r !! k = Some (branch_target b).
Proof.
  rewrite read_branch_ok. setoid_rewrite tips_lookup. naive_solver.
Qed.

(** The branches are the files. *)
Lemma tips_files r r' :
  (forall n c, repo_refs r' !! n = Some (RefFile c) <-> repo_refs r !! n = Some (RefFile c)) ->
  tips r' = tips r.
Proof.
  intros Hf. apply map_eq. intros n. apply option_eq. intros h. rewrite !tips_lookup.
  by setoid_rewrite Hf.
Qed.

Lemma create_dirs_files dirs r :
  forall n c, repo_refs (RepoOps.create_dirs dirs r).2 !! n = Some (RefFile c) <->
    repo_refs r !! n = Some (RefFile c).
Proof.
  revert r. induction dirs as [|d dirs IH]; intros r; cbn [RepoOps.create_dirs]; [done|].
  rewrite stM_bind_eq. destruct (repo_refs r !! d) as [[c|]|] eqn:Hd; [done|apply IH|].
  intros n c. rewrite IH. cbn. rewrite lookup_insert_Some. naive_solver.
Qed.

Lemma set_refs_tips key target r :
  tips (RepoOps.set_refs (<[key := RefFile (ref_line target)]> (repo_refs r)) r) =
  <[key := target]> (tips r).
Proof.
  unfold tips, RepoOps.set_refs. cbn [repo_refs].
  by rewrite (omap_insert_Some _ _ _ _ target) by (by rewrite ref_target_line).
Qed.

(** The tips after a write of the branch [name]. *)
Definition put_tip (name : string) (h : Hash) (m : gmap string Hash) : gmap string Hash :=
  match branch_key name with Some k => <[k := h]> m | None => m end.

Definition drop_tip (name : string) (m : gmap string Hash) : gmap string Hash :=
  match branch_key name with Some k => delete k m | None => m end.

Definition tip_at (m : gmap string Hash) (name : string) : option Hash :=
  branch_key name ≫= fun k => m !! k.

Lemma read_branch_tip_at name r h :
  tip_at (tips r) name = Some h <-> RepoOps.read_branch name r = Ok (mk_Branch name h).
Proof. rewrite read_branch_tip. unfold tip_at. rewrite bind_Some. naive_solver. Qed.

Lemma tip_put_eq name h m : is_Some (branch_key name) -> tip_at (put_tip name h m) name = Some h.
Proof. intros [k Hk]. unfold tip_at, put_tip. rewrite Hk. apply lookup_insert_eq. Qed.

Lemma tip_put_mono name h m n : is_Some (tip_at m n) -> is_Some (tip_at (put_tip name h m) n).
Proof.
  unfold tip_at, put_tip. destruct (branch_key name) as [k|]; [|done].
  destruct (branch_key n) as [k'|]; [|done]. cbn. rewrite lookup_insert_is_Some'. by right.
Qed.

(** Writing a branch moves its tip, or nothing. *)
Lemma write_branch_tips name target r :
  let '(o, r') := RepoOps.write_branch name target r in
  repo_head r' = repo_head r /\
  match o with
  | Ok _ => is_Some (branch_key name) /\ tips r' = put_tip name target (tips r)
  | _ => tips r' = tips r
  end.
Proof.
  unfold RepoOps.write_branch. destruct (ref_path name) as [[key e]|] eqn:Hp; [|done].
  rewrite stM_bind_eq.
  pose proof (create_dirs_ok (parent_dirs [] (str_bytes key)) r) as Hd.
  pose proof (create_dirs_files (parent_dirs [] (str_bytes key)) r) as Hf.
  destruct (RepoOps.create_dirs _ r) as [o r1]. cbn [snd] in Hf.
  apply tips_files in Hf. rewrite <- Hf.
  assert (repo_head r1 = repo_head r) as <- by (by destruct o; try done; destruct Hd as (_ & ? & _)).
  clear Hd Hf. destruct o as [u|x| |]; try done. unfold RepoOps.write_ref, put_tip, branch_key.
  rewrite Hp. destruct (RepoOps.node_at key r1) as [[c|]|], e; try done;
    (split; [done|]); (split; [by eexists|apply set_refs_tips]).
Qed.

Lemma stat_absent_tip name r : RepoOps.stat name r = Some None -> tip_at (tips r) name = None.
Proof.
  intros Hs. unfold tip_at. destruct (branch_key name) as [k|] eqn:Hk; [|done]. cbn.
  rewrite (stat_key name k) in Hs by done. injection Hs as Hs.
  apply eq_None_not_Some. intros [h (c & Hc & _)%tips_lookup]. congruence.
Qed.

Lemma delete_branch_tips name r :
  let '(o, r') := RepoOps.delete_branch name r in
  match o with
  | Ok _ => repo_head r ≠ Some name /\ is_Some (branch_key name) /\
      tips r' = drop_tip name (tips r) /\ repo_head r' = repo_head r
  | _ => r' = r
  end.
Proof.
  unfold RepoOps.delete_branch. case_decide as Hh; [done|].
  destruct (ref_path name) as [[key e]|] eqn:Hp; [|done].
  destruct (RepoOps.stat name r) as [[[c|]|]|] eqn:Hs; try done.
  apply stat_file in Hs as (k & Hk & Hc). unfold drop_tip. rewrite Hk. unfold branch_key in Hk.
  rewrite Hp in Hk. destruct e; try done. injection Hk as ->.
  split; [done|]. split; [by eexists|]. split; [|done]. unfold tips. cbn. by rewrite omap_delete.
Qed.

(** ** The abstract machine *)

Record RefState := mk_RefState {
  rs_tips : gmap string Hash;
  rs_head : option string
}.

Definition tip (st : RefState) (name : string) : option Hash := tip_at (rs_tips st) name.

Definition move_tip (name : string) (h : Hash) (st : RefState) : RefState :=
  mk_RefState (put_tip name h (rs_tips st)) (rs_head st).

(** What the machine takes from the objects: the hashes a text refers to, and the ancestry. *)
Record World := mk_World {
  w_resolve : string -> Hash -> Prop;
  w_ancestor : Hash -> Hash -> Prop    (* the first is the second, or an ancestor of it *)
}.

(** The branch a target names. *)
Inductive names (st : RefState) : TargetRef -> string -> Prop :=
| names_head n : rs_head st = Some n -> names st THead n
| names_branch n : names st (TBranch n) n.

(** The hash a target denotes. *)
Inductive denotes (w : World) (st : RefState) : TargetRef -> Hash -> Prop :=
| denotes_tip t n h : names st t n -> tip st n = Some h -> denotes w st t h
| denotes_hash hex h : w_resolve w hex h -> denotes w st (TCommit hex) h.

(** A version statement, the hash it reports and its effect. HEAD protects its branch from
    deletion by its text: under another name of the same file the branch is deleted. *)
Inductive ref_step (w : World) (st : RefState) :
    VersionStatement -> option Hash -> RefState -> Prop :=
| step_commit c n old h :
    names st THead n -> tip st n = Some old ->
    ref_step w st (VCommit c) (Some h) (move_tip n h st)
| step_create n from h :
    denotes w st (default THead from) h -> tip st n = None -> is_Some (branch_key n) ->
    ref_step w st (VBranch (BCreate n from)) (Some h) (move_tip n h st)
| step_delete n :
    rs_head st ≠ Some n -> is_Some (branch_key n) ->
    ref_step w st (VBranch (BDelete n)) None (mk_RefState (drop_tip n (rs_tips st)) (rs_head st))
| step_checkout n h :
    tip st n = Some h ->
    ref_step w st (VCheckout (TBranch n)) (Some h) (mk_RefState (rs_tips st) (Some n))
| step_stay t h :
    denotes w st t h -> (forall n, t ≠ TBranch n) -> ref_step w st (VCheckout t) (Some h) st
| step_fast_forward m n from to :
    strategy m = FastForward -> denotes w st (merge_source m) to ->
    names st (merge_into m) n -> tip st n = Some from -> w_ancestor w from to ->
    ref_step w st (VMerge m) (Some to) (move_tip n to st)
| step_diff d : ref_step w st (VDiff d) None st.

(** The branch names of a statement. *)
Definition target_names (t : TargetRef) : list string :=
  match t with TBranch n => [n] | _ => [] end.

Definition version_names (stmt : VersionStatement) : list string :=
  match stmt with
  | VCommit c => default [] (commit_parents c) ≫= target_names
  | VBranch (BCreate n from) => n :: from_option target_names [] from
  | VBranch (BDelete n) => [n]
  | VCheckout t => target_names t
  | VMerge m => target_names (merge_source m) ++ target_names (merge_into m)
  | VDiff d => target_names (diff_left d) ++ target_names (diff_right d)
  end.

(** HEAD names a branch, and every step keeps it so, when the names are the paths of their
    files. *)
Definition head_ok (st : RefState) : Prop :=
  forall n, rs_head st = Some n -> is_Some (tip st n).

Definition head_plain (st : RefState) : Prop := forall n, rs_head st = Some n -> plain_name n.

Lemma move_tip_head_ok n h st : head_ok st -> head_ok (move_tip n h st).
Proof. intros Hok x Hx. apply tip_put_mono. by apply Hok. Qed.

Lemma ref_step_head_ok w st stmt h st' :
  ref_step w st stmt h st' -> Forall plain_name (version_names stmt) ->
  head_plain st -> head_ok st -> head_plain st' /\ head_ok st'.
Proof.
  intros Hs Hn Hp Hok. destruct Hs; try (by split; [|apply move_tip_head_ok]); try done.
  - split; [done|]. intros x Hx. apply Forall_inv in Hn. specialize (Hok x Hx). pose proof (Hp x Hx) as Hx'.
    unfold tip, tip_at, drop_tip, plain_name in *. cbn in *. rewrite Hn, Hx' in *. cbn in *.
    rewrite lookup_delete_ne by congruence. done.
  - split; intros x [= <-]; [by apply Forall_inv in Hn|]. by eexists.
Qed.

(** ** The engine's refs *)

Section engine.
Context `{Blake3, !MmapLib}.

Definition refs_of (e : Engine) : RefState :=
  mk_RefState (tips (ds_repo (store e))) (repo_head (ds_repo (store e))).

(** Computations that leave the refs alone, whatever they do to the objects. *)
Definition repo_is (r : Repo) (s : DiskStore) : Prop := ds_repo s = r.
Definition engine_repo_is (r : Repo) (e : Engine) : Prop := repo_is r (store e).

#[local] Instance repo_on_cas {A} r (m : stM CasStore EpochsError A) :
  ReadOnly (repo_is r) (Disk.on_cas m).
Proof. intros s Hs. unfold Disk.on_cas, zoom. by destruct (m (ds_cas s)). Qed.

#[local] Instance repo_query {A} r (f : DiskStore -> Result A) : ReadOnly (repo_is r) (Disk.query f).
Proof. by intros s Hs. Qed.

#[local] Instance repo_cache r h c :
  ReadOnly (repo_is r) (modify (fun s => Disk.set_cache (Lru.insert h c (ds_cache s)) s)
    : stM DiskStore EpochsError unit).
Proof. by intros s Hs. Qed.

#[local] Instance repo_since r f :
  ReadOnly (repo_is r) (modify (fun s => Disk.set_since (f s) s) : stM DiskStore EpochsError unit).
Proof. by intros s Hs. Qed.

#[local] Instance repo_load_commit r h : ReadOnly (repo_is r) (Disk.load_commit h).
Proof.
  intros s Hs. unfold Disk.load_commit. destruct (Lru.get h (ds_cache s)); [done|].
  revert s Hs. change (ReadOnly (repo_is r) (record ← Disk.on_cas (Store.get_record h);
    if decide (record_type record ≠ Record.TCommit) then fail (Codec "hash is not a commit")
    else
      commit ← lift (decode_payload (Record.payload record));
      _ ← modify (fun s => Disk.set_cache (Lru.insert h commit (ds_cache s)) s);
      mret commit)). ro.
Qed.

#[local] Instance repo_hamt_entries r fuel root : ReadOnly (repo_is r) (Disk.hamt_entries fuel root).
Proof. unfold Disk.hamt_entries. ro. Qed.

#[local] Instance repo_get_branch r n : ReadOnly (repo_is r) (Disk.get_branch n).
Proof. by intros s Hs. Qed.

#[local] Instance repo_head_read r : ReadOnly (repo_is r) Disk.head.
Proof.
  intros s Hs. unfold Disk.head, fmap, stM_fmap. destruct (RepoOps.head_branch (ds_repo s)); [|done].
  rewrite stM_bind_eq. unfold Disk.get_branch. by destruct (RepoOps.read_branch _ _).
Qed.

#[local] Instance repo_reads r : StoreReads (repo_is r).
Proof. split; apply _. Qed.

#[local] Instance engine_repo_reads r : EngineReads (engine_repo_is r) (repo_is r).
Proof.
  split; intros A m Hm e He; unfold Exec.on_store, Exec.on_index, zoom, catch_err;
    specialize (Hm (store e) He); by destruct (m (store e)).
Qed.

#[local] Instance repo_apply_ops r fuel ops root : ReadOnly (repo_is r) (Disk.apply_ops fuel ops root).
Proof. revert root. induction ops as [|[] ops IH]; intros root; cbn [Disk.apply_ops]; ro. Qed.

#[local] Instance repo_flush r : ReadOnly (repo_is r) Disk.flush.
Proof. unfold Disk.flush. ro. Qed.

#[local] Instance repo_commit r ps root roots msg :
  ReadOnly (repo_is r) (Disk.commit_with_indexes ps root roots msg).
Proof.
  unfold Disk.commit_with_indexes, Disk.now_millis, Disk.persist_commit. ro.
  intros s Hs. unfold Disk.fsync_if_due. destruct (_ <=? _); [by apply repo_flush|done].
Qed.

#[local] Instance repo_update_index r fuel pk old_doc new_doc idx m :
  ReadOnly (repo_is r) (PathIndex.update_index fuel pk old_doc new_doc idx m).
Proof.
  unfold PathIndex.update_index, PathIndex.remove_stale, PathIndex.put_current,
    PathIndex.stringly, Disk.index_remove, Disk.index_put. ro.
Qed.

#[local] Instance repo_update_indexes r fuel pk old_doc new_doc idxs m :
  ReadOnly (repo_is r) (PathIndex.update_indexes fuel pk old_doc new_doc idxs m).
Proof.
  revert m. induction idxs as [|idx idxs IH]; intros m; cbn [PathIndex.update_indexes]; [ro|].
  apply ro_bind; [apply _|]. intros a. apply IH.
Qed.

#[local] Instance repo_update_collections r fuel old_doc new_doc colls m :
  ReadOnly (repo_is r) (PathIndex.update_collections fuel old_doc new_doc colls m).
Proof.
  revert m. induction colls as [|c colls IH]; intros m; cbn [PathIndex.update_collections]; [ro|].
  apply ro_bind; [apply _|]. intros a. apply IH.
Qed.

#[local] Instance repo_indexes_for_commit r fuel schema old_doc new_doc roots :
  ReadOnly (repo_is r) (PathIndex.update_indexes_for_commit fuel schema old_doc new_doc roots).
Proof.
  unfold PathIndex.update_indexes_for_commit. case_match; [ro|].
  apply ro_bind; [apply _|]. intros a. ro.
Qed.

(** ** Reading the refs *)

Lemma head_branch_eq e :
  exists r, Exec.head_branch e = (r, e) /\ forall b, r = Ok b ->
    rs_head (refs_of e) = Some (branch_name b) /\
    tip (refs_of e) (branch_name b) = Some (branch_target b).
Proof.
  unfold Exec.head_branch. rewrite stM_bind_eq. unfold Exec.on_store, catch_err, zoom, Disk.head.
  unfold RepoOps.head_branch. cbn [refs_of rs_head rs_tips].
  destruct e as [s fs]. cbn [store files].
  destruct (repo_head (ds_repo s)) as [n|] eqn:Hn; [|by eexists].
  unfold fmap, stM_fmap. rewrite stM_bind_eq. unfold Disk.get_branch.
  destruct (RepoOps.read_branch n (ds_repo s)) as [b| | |] eqn:Hb; cbn; (eexists; split; [done|]);
    [|done..].
  intros b' [= <-]. pose proof (read_branch_name _ _ _ Hb) as E. subst n. split; [done|].
  apply read_branch_tip_at. by destruct b.
Qed.

Section refine.
Context (fuel : nat) (w : World) (e : Engine).
Context (Hres : forall hex h, Disk.resolve_hash_ref hex (store e) = Ok h -> w_resolve w hex h).
Context (Hanc : forall a b s', Dag.is_ancestor fuel a b (store e) = (Ok true, s') -> w_ancestor w a b).

Abbreviation st := (refs_of e).

Lemma get_branch_eq n :
  exists r, Exec.on_store (Disk.get_branch n) e = (r, e) /\
    forall b, r = Ok b -> tip st n = Some (branch_target b) /\ branch_name b = n.
Proof.
  unfold Exec.on_store, catch_err, zoom, Disk.get_branch. destruct e as [s fs]. cbn.
  destruct (RepoOps.read_branch n (ds_repo s)) as [b| | |] eqn:Hb; cbn; (eexists; split; [done|]);
    [|done..].
  intros b' [= <-]. pose proof (read_branch_name _ _ _ Hb) as E. split; [|done].
  apply read_branch_tip_at. subst n. by destruct b.
Qed.

Lemma resolve_hash_eq hex :
  exists r, Exec.on_store (Disk.query (Disk.resolve_hash_ref hex)) e = (r, e) /\
    forall h, r = Ok h -> w_resolve w hex h.
Proof.
  unfold Exec.on_store, catch_err, zoom, Disk.query. destruct e as [s fs]. cbn. eexists.
  split; [done|]. intros h. destruct (Disk.resolve_hash_ref hex s) eqn:Hh; [|done..].
  intros [= <-]. by apply Hres.
Qed.

Lemma resolve_eq t :
  exists r, Exec.resolve_target_ref t e = (r, e) /\ forall h, r = Ok h -> denotes w st t h.
Proof.
  destruct t as [|n|hex|n]; cbn [Exec.resolve_target_ref].
  - destruct (head_branch_eq e) as (r & Hr & Hb). rewrite stM_bind_eq, Hr.
    destruct r as [b| | |]; eexists; (split; [done|]); [|done..]. intros h [= <-].
    destruct (Hb b eq_refl) as [? ?]. by eapply denotes_tip; [constructor|].
  - destruct (get_branch_eq n) as (r & Hr & Hb). rewrite stM_bind_eq, Hr.
    destruct r as [b| | |]; eexists; (split; [done|]); [|done..]. intros h [= <-].
    destruct (Hb b eq_refl) as [? ?]. by eapply denotes_tip; [constructor|].
  - destruct (resolve_hash_eq hex) as (r & Hr & Hh). exists r. split; [done|]. intros h E.
    apply denotes_hash. by apply Hh.
  - by eexists.
Qed.

(** ** Writing the refs *)

(** The result of a write and the refs after it. *)
Definition writes {A} (st' : RefState) (p : outcome ExecError A * Engine) : Prop :=
  match p.1 with Ok _ => refs_of p.2 = st' | _ => refs_of p.2 = st end.

Lemma on_repo_write {A} (m : stM Repo EpochsError A) st' e1 :
  refs_of e1 = st ->
  (let '(r, r') := m (ds_repo (store e1)) in
   mk_RefState (tips r') (repo_head r') = match r with Ok _ => st' | _ => st end) ->
  writes st' (Exec.on_store (Disk.on_repo m) e1).
Proof.
  intros He Hm. unfold writes, Exec.on_store, catch_err, zoom, Disk.on_repo, zoom.
  destruct (m (ds_repo (store e1))) as [[a|x| |] r']; cbn; unfold refs_of; cbn; by rewrite Hm.
Qed.

Lemma update_branch_eq n h e1 :
  refs_of e1 = st -> writes (move_tip n h st) (Exec.on_store (Disk.update_branch n h) e1).
Proof.
  intros He. unfold Disk.update_branch.
  destruct (negb (Store.contains h (ds_cas (store e1)))) eqn:Hc.
  { unfold writes, Exec.on_store, catch_err, zoom. rewrite Hc. cbn. by destruct e1. }
  assert (writes (move_tip n h st)
    (Exec.on_store (Disk.on_repo (RepoOps.update_branch n h)) e1)) as Hw.
  { apply on_repo_write; [done|]. rewrite <- He. unfold RepoOps.update_branch, refs_of.
    destruct (RepoOps.stat n (ds_repo (store e1))) as [[x|]|]; [|done..].
    pose proof (write_branch_tips n h (ds_repo (store e1))) as Hwb.
    destruct (RepoOps.write_branch n h (ds_repo (store e1))) as [[] r'];
      [destruct Hwb as (-> & _ & ->)|destruct Hwb as [-> ->]..]; done. }
  unfold writes, Exec.on_store, catch_err, zoom in *. by rewrite Hc.
Qed.

Lemma create_branch_eq n h :
  let p := Exec.on_store (Disk.create_branch n h) e in
  writes (move_tip n h st) p /\ (forall u, p.1 = Ok u -> tip st n = None /\ is_Some (branch_key n)).
Proof.
  intros p. unfold p. unfold Disk.create_branch.
  destruct (negb (Store.contains h (ds_cas (store e)))) eqn:Hc.
  { unfold writes, Exec.on_store, catch_err, zoom. rewrite Hc. cbn. by destruct e. }
  assert (Exec.on_store (fun s => if negb (Store.contains h (ds_cas s)) then (Err (CommitNotFound h), s)
    else Disk.on_repo (RepoOps.create_branch n h) s) e
    = Exec.on_store (Disk.on_repo (RepoOps.create_branch n h)) e) as ->.
  { unfold Exec.on_store, catch_err, zoom. by rewrite Hc. }
  pose proof (write_branch_tips n h (ds_repo (store e))) as Hwb.
  destruct (RepoOps.stat n (ds_repo (store e))) as [[x|]|] eqn:Hx.
  2: { apply stat_absent_tip in Hx as Hno. split.
       - apply on_repo_write; [done|]. unfold RepoOps.create_branch. rewrite Hx. unfold refs_of.
         destruct (RepoOps.write_branch n h (ds_repo (store e))) as [[] r'];
           [destruct Hwb as (-> & _ & ->)|destruct Hwb as [-> ->]..]; done.
       - unfold Exec.on_store, catch_err, zoom, Disk.on_repo, zoom, RepoOps.create_branch. rewrite Hx.
         destruct (RepoOps.write_branch n h (ds_repo (store e))) as [[] r']; try done.
         intros _ _. split; [done|apply Hwb]. }
  all: split; [apply on_repo_write; [done|]; unfold RepoOps.create_branch; by rewrite Hx|].
  all: unfold Exec.on_store, catch_err, zoom, Disk.on_repo, zoom, RepoOps.create_branch; by rewrite Hx.
Qed.

Lemma delete_branch_eq n :
  let p := Exec.on_store (Disk.delete_branch n) e in
  writes (mk_RefState (drop_tip n (rs_tips st)) (rs_head st)) p /\
  (forall u, p.1 = Ok u -> rs_head st ≠ Some n /\ is_Some (branch_key n)).
Proof.
  intros p. unfold p. pose proof (delete_branch_tips n (ds_repo (store e))) as Hd. split.
  - apply on_repo_write; [done|]. unfold refs_of.
    destruct (RepoOps.delete_branch n (ds_repo (store e))) as [[] r'];
      [destruct Hd as (_ & _ & -> & ->)|subst r'..]; done.
  - unfold Exec.on_store, catch_err, zoom, Disk.delete_branch, Disk.on_repo, zoom.
    destruct (RepoOps.delete_branch n (ds_repo (store e))) as [[] r']; try done.
    by destruct Hd as (? & ? & _).
Qed.

(** ** Each statement *)

Definition refines (stmt : VersionStatement) (p : outcome ExecError MutationResult * Engine) : Prop :=
  match p.1 with
  | Ok res => exists h, result_hash res = Hash.to_string <$> h /\ ref_step w st stmt h (refs_of p.2)
  | _ => (forall n, stmt ≠ VCheckout (TBranch n)) -> refs_of p.2 = st
  end.

Lemma refines_branch b : refines (VBranch b) (Exec.exec_branch b e).
Proof.
  destruct b as [n from|n]; cbn [Exec.exec_branch].
  - assert (exists r, match from with Some t => Exec.resolve_target_ref t | None =>
        Exec.resolve_target_ref THead end e = (r, e) /\
      forall h, r = Ok h -> denotes w st (default THead from) h) as (r & Hr & Hd).
    { destruct from; apply resolve_eq. }
    rewrite stM_bind_eq, Hr. destruct r as [h| | |]; [|done..]. rewrite stM_bind_eq.
    destruct (create_branch_eq n h) as [Hw Hno].
    destruct (Exec.on_store (Disk.create_branch n h) e) as [[u| | |] e1]; [|by intros ?..].
    exists (Some h). split; [done|]. cbn. rewrite Hw. destruct (Hno u eq_refl). constructor; [by apply Hd|done..].
  - rewrite stM_bind_eq. destruct (delete_branch_eq n) as [Hw Hh].
    destruct (Exec.on_store (Disk.delete_branch n) e) as [[u| | |] e1]; [|by intros ?..].
    exists None. split; [done|]. cbn. rewrite Hw. destruct (Hh u eq_refl). by constructor.
Qed.

Lemma refines_checkout_branch n : refines (VCheckout (TBranch n)) (Exec.exec_checkout (TBranch n) e).
Proof.
  cbn [Exec.exec_checkout]. rewrite stM_bind_eq.
  destruct (Exec.on_store (Disk.set_head n) e) as [r e1] eqn:Hs.
  destruct r as [u| | |]; [|by intros Hno; destruct (Hno n)..].
  rewrite stM_bind_eq.
  assert (refs_of e1 = mk_RefState (rs_tips st) (Some n) /\
    Exec.on_store (Disk.get_branch n) e1 =
      (map_err exec_store (RepoOps.read_branch n (ds_repo (store e))), e1)) as [He1 Hg].
  { revert Hs. unfold Exec.on_store, catch_err, zoom, Disk.set_head, Disk.on_repo, zoom,
      RepoOps.set_head. destruct (RepoOps.stat n (ds_repo (store e))) as [[x|]|]; cbn; [|done..].
    intros [= _ <-]. split.
    - unfold refs_of. cbn. f_equal.
    - by unfold Disk.get_branch. }
  rewrite Hg. destruct (RepoOps.read_branch n (ds_repo (store e))) as [b| | |] eqn:Hb;
    cbn; [|by intros Hno; destruct (Hno n)..].
  exists (Some (branch_target b)). split; [done|]. cbn. rewrite He1. constructor.
  apply read_branch_tip_at. pose proof (read_branch_name _ _ _ Hb) as E. subst n. by destruct b.
Qed.

Lemma refines_checkout t : refines (VCheckout t) (Exec.exec_checkout t e).
Proof.
  destruct t as [|n|hex|n]; [|by apply refines_checkout_branch| |done]; cbn [Exec.exec_checkout].
  - rewrite stM_bind_eq. destruct (head_branch_eq e) as (r & -> & Hb).
    destruct r as [b| | |]; [|done..]. destruct (Hb b eq_refl) as [? ?].
    exists (Some (branch_target b)). split; [done|]. constructor; [|done].
    by eapply denotes_tip; [constructor|].
  - rewrite stM_bind_eq. destruct (resolve_hash_eq hex) as (r & -> & Hh).
    destruct r as [h| | |]; [|done..]. rewrite stM_bind_eq.
    pose proof (@read_only _ _ _ (engine_repo_is (ds_repo (store e))) (Exec.on_store (Disk.load_commit h)) _ e eq_refl) as Hro.
    unfold Exec.get_commit. destruct (Exec.on_store (Disk.load_commit h) e) as [r e1].
    destruct Hro as [Hro _].
    assert (refs_of e1 = st) as He1 by (unfold refs_of; by rewrite Hro).
    destruct r as [c| | |]; [|by intros ?..]. exists (Some h). split; [done|]. cbn. rewrite He1.
    constructor; [|done]. apply denotes_hash. by apply Hh.
Qed.

Lemma names_unique t n1 n2 : names st t n1 -> names st t n2 -> n1 = n2.
Proof. intros Hn1 Hn2. destruct Hn1; inversion Hn2; congruence. Qed.

Lemma denotes_named t n h : names st t n -> denotes w st t h -> tip st n = Some h.
Proof.
  intros Hn Hd. destruct Hd as [t n' h Hn' Ht|hex h _]; [|by inversion Hn].
  by rewrite (names_unique t n n').
Qed.

(** The branch a merge moves. *)
Lemma into_branch_eq t :
  exists r, (match t with
     | TBranch n => mret n
     | THead => head ← Exec.head_branch; mret (branch_name head)
     | _ => Exec.error "MERGE INTO requires a branch or HEAD"
     end : stM Engine ExecError string) e = (r, e) /\ forall n, r = Ok n -> names st t n.
Proof.
  destruct t as [|n|hex|n]; try (by eexists).
  - destruct (head_branch_eq e) as (r & Hr & Hb). rewrite stM_bind_eq, Hr.
    destruct r as [b| | |]; eexists; (split; [done|]); [|done..].
    intros n [= <-]. constructor. by apply (Hb b).
  - exists (Ok n). split; [done|]. intros m [= <-]. constructor.
Qed.

Lemma refines_merge m : refines (VMerge m) (Exec.exec_merge fuel m e).
Proof.
  unfold Exec.exec_merge. rewrite stM_bind_eq.
  destruct (resolve_eq (merge_source m)) as (r & -> & Hs). destruct r as [s| | |]; [|done..].
  rewrite stM_bind_eq. destruct (resolve_eq (merge_into m)) as (r & -> & Hi).
  destruct r as [i| | |]; [|done..].
  rewrite stM_bind_eq. destruct (into_branch_eq (merge_into m)) as (r & Hr & Hn).
  rewrite Hr. destruct r as [n| | |]; [|done..].
  destruct (strategy m) eqn:Hst; [|done..].
  rewrite stM_bind_eq. unfold Exec.on_store at 1, zoom, catch_err.
  pose proof (@read_only _ _ _ (repo_is (ds_repo (store e))) (Dag.is_ancestor fuel i s) _ (store e) eq_refl) as Hro.
  destruct (Dag.is_ancestor fuel i s (store e)) as [ok s1] eqn:Ha. destruct Hro as [Hro _].
  assert (refs_of (Exec.set_store s1 e) = st) as He1 by (unfold refs_of; cbn; by rewrite Hro).
  destruct ok as [ok| | |]; cbn [map_err]; [|by intros _..].
  destruct ok; cbn [negb]; [|by intros _].
  rewrite stM_bind_eq. pose proof (update_branch_eq n s _ He1) as Hw.
  destruct (Exec.on_store (Disk.update_branch n s) (Exec.set_store s1 e)) as [[u| | |] e2];
    [|by intros _..].
  exists (Some s). split; [done|]. cbn. rewrite Hw. eapply step_fast_forward; [done|by apply Hs| | |].
  - by apply Hn.
  - eapply denotes_named; [by apply Hn|by apply Hi].
  - by eapply Hanc.
Qed.

Lemma refines_diff d : refines (VDiff d) (Exec.exec_diff fuel d e).
Proof.
  pose proof (@read_only _ _ _ (engine_repo_is (ds_repo (store e))) (Exec.exec_diff fuel d) _ e eq_refl) as Hro.
  assert (forall res e', Exec.exec_diff fuel d e = (Ok res, e') -> result_hash res = None) as Hnone.
  { intros res e'. unfold Exec.exec_diff. intros Hrun.
    repeat (apply stM_bind_inv in Hrun as (? & ? & _ & Hrun)). by injection Hrun as <- _. }
  unfold refines. destruct (Exec.exec_diff fuel d e) as [r e'] eqn:E. cbn [fst snd].
  destruct Hro as [Hro _].
  assert (refs_of e' = st) as He' by (unfold refs_of; by rewrite Hro).
  destruct r as [res| | |]; [|by intros _..]. exists None. rewrite (Hnone res e' eq_refl).
  split; [done|]. rewrite He'. constructor.
Qed.

(** A computation that leaves the refs alone, then the rest. *)
Lemma refines_after {A} stmt (m : stM Engine ExecError A) f e1 :
  ReadOnly (engine_repo_is (ds_repo (store e))) m -> ds_repo (store e1) = ds_repo (store e) ->
  (forall a e2, ds_repo (store e2) = ds_repo (store e) -> refines stmt (f a e2)) ->
  refines stmt ((m ≫= f) e1).
Proof.
  intros Hm He1 Hf. rewrite stM_bind_eq. specialize (Hm e1 He1).
  destruct (m e1) as [[a| | |] e2]; destruct Hm as [He2 _]; [by apply Hf| | |];
    intros _; unfold refs_of; cbn; by rewrite He2.
Qed.

Lemma refines_commit c : refines (VCommit c) (Exec.exec_commit fuel c e).
Proof.
  unfold Exec.exec_commit. rewrite stM_bind_eq. destruct (head_branch_eq e) as (r & -> & Hb).
  destruct r as [head| | |]; [|done..]. destruct (Hb head eq_refl) as [Hh Ht].
  apply refines_after; [unfold Exec.commit_parent_hashes; ro|done|intros ps e1 H1'].
  apply refines_after; [unfold Exec.get_commit; ro|done|intros base e2 H2'].
  apply refines_after; [ro|done|intros ops e3 H3'].
  apply refines_after; [unfold Disk.apply_hamt_ops; ro|done|intros root e4 H4'].
  apply refines_after; [by intros e5 He5|done|intros schema e5 H5'].
  assert (forall root, ReadOnly (engine_repo_is (ds_repo (store e))) (Exec.doc_of_root fuel root)) as Hdoc.
  { intros r'. unfold Exec.doc_of_root, PathIndex.doc_from_hamt_root, PathIndex.stringly. ro. }
  apply refines_after; [apply Hdoc|done|intros old_doc e6 H6'].
  apply refines_after; [apply Hdoc|done|intros new_doc e7 H7'].
  apply refines_after; [apply _|done|intros roots e8 H8'].
  apply refines_after; [apply _|done|intros h e9 H9'].
  rewrite stM_bind_eq. assert (refs_of e9 = st) as He9 by (unfold refs_of; by rewrite H9').
  pose proof (update_branch_eq (branch_name head) h e9 He9) as Hw.
  destruct (Exec.on_store (Disk.update_branch (branch_name head) h) e9) as [[u| | |] e10];
    [|by intros _..].
  exists (Some h). split; [done|]. cbn. rewrite Hw. by apply (step_commit _ _ c (branch_name head) (branch_target head)); [constructor|].
Qed.

Lemma version_refines stmt : refines stmt (Exec.exec_version fuel stmt e).
Proof.
  destruct stmt; [apply refines_commit|apply refines_branch|apply refines_checkout|
    apply refines_merge|apply refines_diff].
Qed.

End refine.

(** The world of the objects of [e]: hash references resolve as the store resolves them, and
    ancestry is reachability along the parents of the stored commits. *)
Definition world_of `{!MmapLaws} (e : Engine) : World :=
  mk_World (fun hex h => Disk.resolve_hash_ref hex (store e) = Ok h)
    (fun a d => reaches (store e) d a).

#[global] Existing Instance repo_reads.
#[global] Existing Instance engine_repo_reads.

End engine.

(** The names that a statement gives, and that of HEAD, do not lead out of [refs/heads]. *)
Definition names_inside (e : Engine) (stmt : VersionStatement) : Prop :=
  Forall (fun n => is_Some (ref_path n)) (version_names stmt) /\
  forall n, repo_head (ds_repo (store e)) = Some n -> is_Some (ref_path n).

(** A branch cannot be written when its name ends in a slash or in [.], or a file is where its
    path needs a directory. *)
Definition unwritable (name : string) (r : Repo) : Prop :=
  branch_key name = None \/
  exists k d c, branch_key name = Some k /\ d ∈ parent_dirs [] (str_bytes k) /\
    repo_refs r !! d = Some (RefFile c).

(** Why a statement on a branch is refused. *)
Inductive refused `{Blake3, !MmapLib, !MmapLaws} (e : Engine) : VersionStatement -> Prop :=
| refused_source n from :
    (forall h, ~ denotes (world_of e) (refs_of e) (default THead from) h) ->
    refused e (VBranch (BCreate n from))
| refused_unstored n from h :
    denotes (world_of e) (refs_of e) (default THead from) h ->
    Store.contains h (ds_cas (store e)) = false -> refused e (VBranch (BCreate n from))
| refused_taken n from x :
    RepoOps.stat n (ds_repo (store e)) = Some (Some x) -> refused e (VBranch (BCreate n from))
| refused_path n from :
    unwritable n (ds_repo (store e)) -> refused e (VBranch (BCreate n from))
| refused_head n : rs_head (refs_of e) = Some n -> refused e (VBranch (BDelete n))
| refused_missing n :
    (forall k c, branch_key n = Some k -> repo_refs (ds_repo (store e)) !! k ≠ Some (RefFile c)) ->
    refused e (VBranch (BDelete n))
| refused_tip n : tip (refs_of e) n = None -> refused e (VCheckout (TBranch n)).

Definition on_branch (stmt : VersionStatement) : Prop :=
  match stmt with VBranch _ | VCheckout (TBranch _) => True | _ => False end.

Lemma create_dirs_blocked dirs r :
  match RepoOps.create_dirs dirs r with
  | (Ok _, _) => True
  | _ => exists d c, d ∈ dirs /\ repo_refs r !! d = Some (RefFile c)
  end.
Proof.
  revert r. induction dirs as [|d dirs IH]; intros r; cbn [RepoOps.create_dirs]; [done|].
  rewrite stM_bind_eq. destruct (repo_refs r !! d) as [[c|]|] eqn:Hd.
  { exists d, c. split; [by left|done]. }
  - specialize (IH r). destruct (RepoOps.create_dirs dirs r) as [[] ?]; [done|..];
      destruct IH as (d' & c & ? & ?); exists d', c; (split; [by right|done]).
  - specialize (IH (RepoOps.set_refs (<[d := RefDir]> (repo_refs r)) r)).
    destruct (RepoOps.create_dirs dirs _) as [[] ?]; [done|..];
      destruct IH as (d' & c & Hin & Hc); cbn in Hc; apply lookup_insert_Some in Hc as [[_ ?]|[_ ?]];
      try done; exists d', c; (split; [by right|done]).
Qed.

(** A branch that is not there can be written, unless its path is blocked. *)
Lemma write_branch_blocked name h r :
  is_Some (ref_path name) -> RepoOps.stat name r = Some None -> ~ unwritable name r ->
  exists r', RepoOps.write_branch name h r = (Ok tt, r').
Proof.
  intros [[key en] Hp] Hs Hno. destruct (branch_key name) as [k|] eqn:Hk; [|by destruct Hno; left].
  pose proof (branch_key_nonempty _ _ Hk) as Hne. rewrite (stat_key name k) in Hs by done.
  injection Hs as Hs. assert (key = k /\ en = Plain) as [-> ->].
  { unfold branch_key in Hk. rewrite Hp in Hk. destruct en; naive_solver. }
  unfold RepoOps.write_branch. rewrite Hp, stM_bind_eq.
  pose proof (create_dirs_blocked (parent_dirs [] (str_bytes k)) r) as Hb.
  pose proof (create_dirs_ok (parent_dirs [] (str_bytes k)) r) as Hd.
  destruct (RepoOps.create_dirs _ r) as [[u|x| |] r1];
    [|by destruct Hno; right; destruct Hb as (d & c & ? & ?); exists k, d, c..].
  destruct Hd as (_ & _ & _ & Hd). unfold RepoOps.write_ref, RepoOps.node_at.
  rewrite decide_False by done. rewrite Hd, Hs; [by eexists|].
  intros Hin%parent_dirs_shorter. simpl in Hin. lia.
Qed.

Section refusals.
Context `{Blake3, !MmapLib, !MmapLaws} (e : Engine).

(** What is denoted is found. *)
Lemma resolve_denotes t h :
  denotes (world_of e) (refs_of e) t h -> Exec.resolve_target_ref t e = (Ok h, e).
Proof.
  assert (forall n h, tip (refs_of e) n = Some h ->
    RepoOps.read_branch n (ds_repo (store e)) = Ok (mk_Branch n h)) as Hread
    by (intros n h'; apply read_branch_tip_at).
  intros Hd. destruct Hd as [t n h Hn Ht|hex h Hr]; [apply Hread in Ht; destruct Hn as [n Hn|n]|];
    cbn [Exec.resolve_target_ref].
  - change (repo_head (ds_repo (store e)) = Some n) in Hn. unfold Exec.head_branch.
    rewrite !stM_bind_eq. unfold Exec.on_store, catch_err, zoom, Disk.head, RepoOps.head_branch.
    rewrite Hn. unfold fmap, stM_fmap. rewrite stM_bind_eq. unfold Disk.get_branch. rewrite Ht.
    cbn. by destruct e.
  - rewrite stM_bind_eq. unfold Exec.on_store, catch_err, zoom, Disk.get_branch. rewrite Ht.
    cbn. by destruct e.
  - unfold Exec.on_store, catch_err, zoom, Disk.query. cbn in Hr. rewrite Hr. cbn. by destruct e.
Qed.

Lemma create_refused n from :
  is_Some (ref_path n) -> ~ refused e (VBranch (BCreate n from)) ->
  exists res, (Exec.exec_branch (BCreate n from) e).1 = Ok res.
Proof.
  intros Hp Hno. cbn [Exec.exec_branch].
  assert (match from with Some t => Exec.resolve_target_ref t | None =>
    Exec.resolve_target_ref THead end = Exec.resolve_target_ref (default THead from)) as ->
    by (by destruct from).
  destruct (Exec.resolve_target_ref (default THead from) e) as [r e1] eqn:Hr.
  assert (exists h, denotes (world_of e) (refs_of e) (default THead from) h) as [h Hd].
  { destruct (resolve_eq 0 (mk_World (w_resolve (world_of e)) (fun _ _ => True)) e
      (fun _ _ Hh => Hh) (fun _ _ _ _ => Logic.I) (default THead from)) as (r' & Hr' & Hd).
    rewrite Hr in Hr'. injection Hr' as -> _. destruct r' as [h| | |].
    { exists h. destruct (Hd h eq_refl); [by eapply denotes_tip|by apply denotes_hash]. }
    all: exfalso; apply Hno, refused_source; intros h Hh; apply resolve_denotes in Hh; congruence. }
  rewrite (resolve_denotes _ _ Hd) in Hr. injection Hr as <- <-.
  rewrite (stM_bind_Ok _ _ _ _ _ (resolve_denotes _ _ Hd)), stM_bind_eq.
  unfold Exec.on_store, catch_err, zoom, Disk.create_branch.
  destruct (Store.contains h (ds_cas (store e))) eqn:Hc; cbn [negb];
    [|by destruct Hno; eapply refused_unstored].
  unfold Disk.on_repo, zoom, RepoOps.create_branch.
  destruct (RepoOps.stat n (ds_repo (store e))) as [[x|]|] eqn:Hs.
  - by destruct Hno; eapply refused_taken.
  - destruct (write_branch_blocked n h (ds_repo (store e))) as [r' ->]; [done..| |by eexists].
    intros Hu. by apply Hno, refused_path.
  - unfold RepoOps.stat in Hs. destruct Hp as [[k []] Hp]; by rewrite Hp in Hs.
Qed.

Lemma delete_refused n :
  ~ refused e (VBranch (BDelete n)) -> exists res, (Exec.exec_branch (BDelete n) e).1 = Ok res.
Proof.
  intros Hno. cbn [Exec.exec_branch]. rewrite stM_bind_eq.
  unfold Exec.on_store, catch_err, zoom, Disk.delete_branch, Disk.on_repo, zoom, RepoOps.delete_branch.
  case_decide as Hh; [by destruct Hno; apply refused_head|].
  destruct (RepoOps.stat n (ds_repo (store e))) as [[[c|]|]|] eqn:Hs.
  { apply stat_file in Hs as (k & Hk & _). unfold branch_key in Hk.
    destruct (ref_path n) as [[k' e']|]; [by eexists|done]. }
  all: exfalso; apply Hno, refused_missing; intros k c Hk Hc.
  all: rewrite (proj2 (stat_file n (ds_repo (store e)) c)) in Hs by (by exists k); done.
Qed.

Lemma checkout_refused n :
  ~ refused e (VCheckout (TBranch n)) -> exists res, (Exec.exec_checkout (TBranch n) e).1 = Ok res.
Proof.
  intros Hno. destruct (tip (refs_of e) n) as [h|] eqn:Ht; [|by destruct Hno; apply refused_tip].
  apply (read_branch_tip_at n (ds_repo (store e))) in Ht as Hb. cbn [Exec.exec_checkout].
  rewrite stM_bind_eq.
  unfold Exec.on_store at 1, catch_err, zoom, Disk.set_head, Disk.on_repo, zoom, RepoOps.set_head.
  destruct (RepoOps.stat n (ds_repo (store e))) as [[x|]|] eqn:Hs;
    try by (unfold RepoOps.read_branch in Hb; rewrite Hs in Hb).
  cbn [map_err]. rewrite stM_bind_eq. unfold Exec.on_store, catch_err, zoom, Disk.get_branch.
  cbn [store Exec.set_store Disk.set_repo ds_repo].
  match goal with |- context [RepoOps.read_branch n ?r] =>
    change (RepoOps.read_branch n r) with (RepoOps.read_branch n (ds_repo (store e))) end.
  rewrite Hb. by eexists.
Qed.

End refusals.

(** C4: Version statements refine the abstract machine of tips and HEAD, where a name leads to
    the tip of its file ([branch_key]: [main] and [./main] are one). When no name leads out of
    [refs/heads], a statement that succeeds is a step of the machine - a commit moves the tip
    HEAD names, a branch is created at the hash it is given unless its file has a tip already,
    a branch is deleted unless HEAD has its name (its very text: under another name even
    HEAD's branch is deleted), a merge moves a branch to a descendant - and reports the hash
    of the step; one that fails leaves every tip and HEAD alone, but for [CHECKOUT BRANCH],
    which may have written HEAD. A statement on branches succeeds unless it is refused for a
    reason: [CREATE BRANCH] when its source denotes nothing or no stored object, the name is
    taken, or it cannot be the path of a file; [DELETE BRANCH] when HEAD has the name or there
    is no such file; [CHECKOUT BRANCH] when the branch has no tip. *)
Theorem version_statement_refines `{Blake3, !MmapLib, !MmapLaws} (fuel : nat) (e : Engine)
    (stmt : VersionStatement) :
  disk_ok (store e) -> names_inside e stmt ->
  let '(r, e') := Exec.exec_version fuel stmt e in
  match r with
  | Ok res => exists h, result_hash res = Hash.to_string <$> h /\
      ref_step (world_of e) (refs_of e) stmt h (refs_of e')
  | _ => (forall n, stmt ≠ VCheckout (TBranch n)) -> refs_of e' = refs_of e
  end /\
  (on_branch stmt -> ~ refused e stmt -> exists res, r = Ok res).
Proof.
  intros Hok [Hn _]. pose proof (version_refines fuel (world_of e) e) as Hv.
  specialize (Hv (fun _ _ Hh => Hh)
    (fun a b s' Ha => is_ancestor_sound (store e) fuel a b s' Hok Ha) stmt).
  unfold refines in Hv.
  assert (on_branch stmt -> ~ refused e stmt -> exists res, (Exec.exec_version fuel stmt e).1 = Ok res)
    as Hr.
  { destruct stmt as [c|[n from|n]|[]|m|d]; try done; intros _.
    - apply create_refused. by apply Forall_inv in Hn.
    - apply delete_refused.
    - apply checkout_refused. }
  by destruct (Exec.exec_version fuel stmt e).
Qed.

Definition script_names (stmts : list Statement) : list string :=
  stmts ≫= fun stmt => match stmt with Query _ => [] | Version v => version_names v end.

(** C22: HEAD always names a branch, when branches are called by the paths of their files. A
    script whose branch names are plain - without empty, [.] and [..] components - and that
    runs to its end, from a repository whose HEAD has a plain name and names a branch, leaves
    one whose HEAD has a plain name and names a branch: its statements are steps of the
    machine of tips and HEAD. (With other names this fails: [delete_alias_unsets_head].) *)
Theorem script_head_ok `{Blake3, !MmapLib} (fuel : nat) (e : Engine) (stmts : list Statement)
    (out results : list ExecResult) (e' : Engine) :
  Forall plain_name (script_names stmts) -> head_plain (refs_of e) -> head_ok (refs_of e) ->
  Exec.execute_statements fuel stmts out e = (Ok results, e') ->
  head_plain (refs_of e') /\ head_ok (refs_of e').
Proof.
  revert e out. induction stmts as [|stmt stmts IH]; intros e out Hn Hp Hok;
    cbn [Exec.execute_statements].
  { by intros [= _ <-]. }
  unfold script_names in Hn. rewrite bind_cons in Hn. apply Forall_app in Hn as [Hn Hns].
  intros (r & e1 & Hrun & Hrest)%stM_bind_inv. enough (head_plain (refs_of e1) /\ head_ok (refs_of e1)) as [Hp1 Hok1]
    by (by apply (IH e1 _ Hns) in Hrest). clear Hrest.
  destruct stmt as [q|v]; cbn [Exec.execute_statement] in Hrun;
    apply stM_bind_inv in Hrun as (res & e2 & Hrun & Hret); injection Hret as <- ->.
  - pose proof (@read_only _ _ _ (engine_repo_is (ds_repo (store e))) (Exec.exec_query fuel q) _ e
      eq_refl) as Hro. rewrite Hrun in Hro. destruct Hro as [Hro _]. unfold refs_of in *.
    by rewrite Hro.
  - pose proof (version_refines fuel (mk_World (fun _ _ => True) (fun _ _ => True)) e
      (fun _ _ _ => Logic.I) (fun _ _ _ _ => Logic.I) v) as Hv.
    rewrite Hrun in Hv. destruct Hv as (h & _ & Hs). by eapply ref_step_head_ok.
Qed.

(** The guard of [DELETE BRANCH] compares texts. Under another name of the same file, such as
    [./main] for [main], the branch of HEAD is deleted: the statement succeeds, and HEAD names
    no branch any more. *)
Theorem delete_alias_unsets_head `{Blake3, !MmapLib} (e : Engine) (n m : string) :
  rs_head (refs_of e) = Some n -> is_Some (tip (refs_of e) n) ->
  m ≠ n -> branch_key m = branch_key n ->
  let '(r, e') := Exec.exec_branch (BDelete m) e in
  (exists res, r = Ok res) /\ rs_head (refs_of e') = Some n /\ tip (refs_of e') n = None.
Proof.
  intros Hh [h Ht] Hne Hk. cbn [Exec.exec_branch].
  change (repo_head (ds_repo (store e)) = Some n) in Hh.
  apply bind_Some in Ht as (k & Hkn & (c & Hc & _)%tips_lookup). rewrite Hkn in Hk.
  assert (RepoOps.delete_branch m (ds_repo (store e)) =
    (Ok tt, RepoOps.set_refs (delete k (repo_refs (ds_repo (store e)))) (ds_repo (store e)))) as Hd.
  { unfold RepoOps.delete_branch. rewrite decide_False by congruence.
    rewrite (stat_key m k), Hc by done. unfold branch_key in Hk.
    destruct (ref_path m) as [[k' []]|]; [|done..]. by injection Hk as ->. }
  assert (Exec.on_store (Disk.delete_branch m) e =
    (Ok tt, Exec.set_store (Disk.set_repo (RepoOps.set_refs (delete k (repo_refs (ds_repo (store e))))
      (ds_repo (store e))) (store e)) e)) as Hs.
  { unfold Exec.on_store, catch_err, zoom, Disk.delete_branch, Disk.on_repo, zoom. by rewrite Hd. }
  rewrite (stM_bind_Ok _ _ _ _ _ Hs). split; [by eexists|]. split; [done|].
  unfold tip, tip_at. rewrite Hkn. cbn. by rewrite lookup_omap, lookup_delete_eq.
Qed.

Lemma parent_dirs_flat before l : Byte.x2f ∉ l -> parent_dirs before l = [].
Proof.
  revert before. induction l as [|b l IH]; intros before Hl; cbn [parent_dirs]; [done|].
  apply not_elem_of_cons in Hl as [Hb Hl]. rewrite decide_False by congruence. by apply IH.
Qed.

(** A listed branch can always be moved to a stored object. *)
Lemma update_branch_succeeds `{Blake3, !MmapLib} (e : Engine) n tip h :
  RepoOps.read_branch n (ds_repo (store e)) = Ok (mk_Branch n tip) -> Byte.x2f ∉ str_bytes n ->
  Store.contains h (ds_cas (store e)) = true ->
  exists e', Exec.on_store (Disk.update_branch n h) e = (Ok tt, e').
Proof.
  intros (k & c & Hk & Hc & _)%read_branch_ok Hn Hh.
  pose proof (branch_key_nonempty _ _ Hk) as Hne. pose proof (branch_key_flat _ _ Hn Hk) as ->.
  unfold Exec.on_store, catch_err, zoom, Disk.update_branch. rewrite Hh. cbn [negb].
  unfold Disk.on_repo, zoom, RepoOps.update_branch, RepoOps.write_branch. rewrite (stat_key n n), Hc by done.
  unfold branch_key in Hk. destruct (ref_path n) as [[k' []]|]; try done. injection Hk as ->.
  rewrite parent_dirs_flat by done. cbn [RepoOps.create_dirs]. rewrite stM_bind_eq. cbn [mret stM_ret].
  unfold RepoOps.write_ref, RepoOps.node_at. rewrite decide_False, Hc by done. by eexists.
Qed.

(** C23: A fast-forward happens exactly when it can. If the commit to merge descends from the tip
    of the branch, [MERGE .. FAST_FORWARD] succeeds and moves the branch - it and nothing else -
    to the commit; if not, it says that no fast-forward is possible, and moves nothing. *)
Theorem fast_forward_merges `{Blake3, !MmapLib, !MmapLaws} (fuel : nat) (e : Engine)
    (U : gset Hash) (m : MergeStmt) (n : string) (from to : Hash) :
  disk_ok (store e) -> dag_closed (store e) U -> to ∈ U -> (1 + out_edges (store e) U < fuel)%nat ->
  strategy m = FastForward -> merge_into m = TBranch n -> Byte.x2f ∉ str_bytes n ->
  RepoOps.read_branch n (ds_repo (store e)) = Ok (mk_Branch n from) ->
  (Exec.resolve_target_ref (merge_source m) e).1 = Ok to ->
  Store.contains to (ds_cas (store e)) = true ->
  let '(r, e') := Exec.exec_merge fuel m e in
  (reaches (store e) to from -> refs_of e' = move_tip n to (refs_of e) /\
     r = Ok (mk_MutationResult ("fast-forwarded '" +:+ n +:+ "'") (Some (Hash.to_string to)))) /\
  (~ reaches (store e) to from -> refs_of e' = refs_of e /\
     r = Err (ExecText "fast-forward not possible: source is not a descendant of target")).
Proof.
  intros Hok HU Hto Hf Hst Hinto Hflat Hn Hsrc Hc. unfold Exec.exec_merge.
  assert (Exec.resolve_target_ref (merge_source m) e = (Ok to, e)) as Hs.
  { assert (forall a b s', Dag.is_ancestor fuel a b (store e) = (Ok true, s') ->
      w_ancestor (world_of e) a b) as Hanc
      by (intros a b s' Ha; exact (is_ancestor_sound (store e) fuel a b s' Hok Ha)).
    destruct (resolve_eq fuel (world_of e) e (fun _ _ Hh => Hh) Hanc (merge_source m))
      as (r & Hr & _).
    rewrite Hr in *. simpl in Hsrc. by subst r. }
  rewrite (stM_bind_Ok _ _ _ _ _ Hs), Hinto, Hst.
  assert (Exec.resolve_target_ref (TBranch n) e = (Ok from, e)) as Hi.
  { cbn [Exec.resolve_target_ref]. rewrite stM_bind_eq.
    unfold Exec.on_store, catch_err, zoom, Disk.get_branch. rewrite Hn. cbn. by destruct e. }
  rewrite (stM_bind_Ok _ _ _ _ _ Hi).
  rewrite (stM_bind_Ok (mret n : stM Engine ExecError string) _ e n e eq_refl).
  destruct (is_ancestor_ok (store e) U fuel from to) as (ok & s1 & Ha & _ & Hiff); [done..|].
  pose proof (@read_only _ _ _ (view (store e)) (Dag.is_ancestor fuel from to) _ (store e)
    (view_refl _ Hok)) as Hv. rewrite Ha in Hv. destruct Hv as [Hv _].
  assert (Exec.on_store (Dag.is_ancestor fuel from to) e = (Ok ok, Exec.set_store s1 e)) as Hon.
  { unfold Exec.on_store, catch_err, zoom. by rewrite Ha. }
  rewrite (stM_bind_Ok _ _ _ _ _ Hon).
  assert (refs_of (Exec.set_store s1 e) = refs_of e) as Hrefs.
  { unfold refs_of. cbn. by rewrite (view_repo _ _ Hv). }
  destruct ok; cbn [negb].
  - destruct (update_branch_succeeds (Exec.set_store s1 e) n from to) as [e' He'].
    { cbn. by rewrite (view_repo _ _ Hv). }
    { done. }
    { unfold Store.contains in *. cbn. by rewrite (proj1 (view_cas _ _ Hv)). }
    rewrite (stM_bind_Ok _ _ _ _ _ He').
    pose proof (update_branch_eq e n to _ Hrefs) as Hw. rewrite He' in Hw. cbn.
    split; [done|]. intros Hno. destruct Hno. by apply Hiff.
  - cbn. split; [|done]. intros Hr. by apply Hiff in Hr.
Qed.

(** A checkout that fails can move HEAD. A branch [feature/x] makes [feature] a directory of
    refs; [CHECKOUT BRANCH feature] fails, but only after HEAD was written: from then on HEAD
    names no branch, and statements that need it fail. *)
Theorem checkout_directory_moves_head `{Blake3, !MmapLib} (e : Engine) (name : string) :
  RepoOps.stat name (ds_repo (store e)) = Some (Some RefDir) ->
  let '(r, e') := Exec.exec_checkout (TBranch name) e in
  r = Err (exec_store (Io is_dir_msg)) /\ rs_head (refs_of e') = Some name /\
  ~ head_ok (refs_of e') /\ (Exec.resolve_target_ref THead e').1 = Err (exec_store (Io is_dir_msg)).
Proof.
  intros Hn. cbn [Exec.exec_checkout]. rewrite stM_bind_eq.
  unfold Exec.on_store at 1, catch_err, zoom, Disk.set_head, Disk.on_repo, zoom, RepoOps.set_head.
  rewrite Hn. cbn [map_err]. set (e1 := Exec.set_store _ e).
  assert (RepoOps.read_branch name (ds_repo (store e1)) = Err (Io is_dir_msg)) as Hr.
  { unfold RepoOps.read_branch. change (RepoOps.stat name (ds_repo (store e1))) with
      (RepoOps.stat name (ds_repo (store e))). by rewrite Hn. }
  rewrite stM_bind_eq. unfold Exec.on_store, catch_err, zoom, Disk.get_branch. rewrite Hr.
  cbn [map_err]. split; [done|]. split; [done|]. split.
  - intros Hok. destruct (Hok name eq_refl) as [h Hh].
    change (tip_at (tips (ds_repo (store e1))) name = Some h) in Hh.
    apply read_branch_tip_at in Hh. congruence.
  - cbn [Exec.resolve_target_ref]. unfold Exec.head_branch. rewrite !stM_bind_eq.
    unfold Exec.on_store, catch_err, zoom, Disk.head, RepoOps.head_branch.
    change (repo_head (ds_repo (store (Exec.set_store (store e1) e1)))) with (Some name).
    unfold fmap, stM_fmap. rewrite stM_bind_eq. unfold Disk.get_branch.
    change (ds_repo (store (Exec.set_store (store e1) e1))) with (ds_repo (store e1)). by rewrite Hr.
Qed.

Section witnesses.

#[local] Existing Instance toy_hash.
#[local] Existing Instance id_mmap.
#[local] Existing Instance id_mmap_laws.

Lemma version_statement_refines_witness :
  let '(r, e') := Exec.exec_version 70 (VBranch (BCreate "dev" None)) ex_engine in
  match r with
  | Ok res => exists h, result_hash res = Hash.to_string <$> h /\
      ref_step (world_of ex_engine) (refs_of ex_engine) (VBranch (BCreate "dev" None)) h (refs_of e')
  | _ => (forall n, VBranch (BCreate "dev" None) ≠ VCheckout (TBranch n)) ->
      refs_of e' = refs_of ex_engine
  end /\
  (on_branch (VBranch (BCreate "dev" None)) -> ~ refused ex_engine (VBranch (BCreate "dev" None)) ->
   exists res, r = Ok res).
Proof.
  apply (version_statement_refines 70 ex_engine); [apply ex_disk2_ok|]. split.
  - constructor; [vm_compute; by eexists|constructor].
  - intros n [= <-]. vm_compute. by eexists.
Defined.

Lemma fast_forward_merges_witness :
  let m := mk_MergeStmt THead (TBranch "old") FastForward in
  let '(r, e') := Exec.exec_merge 70 m ex_engine in
  (reaches (store ex_engine) ex_tip2 ex_tip ->
     refs_of e' = move_tip "old" ex_tip2 (refs_of ex_engine) /\
     r = Ok (mk_MutationResult ("fast-forwarded '" +:+ "old" +:+ "'")
              (Some (Hash.to_string ex_tip2)))) /\
  (~ reaches (store ex_engine) ex_tip2 ex_tip -> refs_of e' = refs_of ex_engine /\
     r = Err (ExecText "fast-forward not possible: source is not a descendant of target")).
Proof.
  apply (fast_forward_merges 70 ex_engine ex_commits
    (mk_MergeStmt THead (TBranch "old") FastForward) "old" ex_tip ex_tip2).
  - apply ex_disk2_ok.
  - apply (graph_closed _ _ _ ex_graph_ok).
  - apply elem_of_union; right; apply elem_of_singleton; reflexivity.
  - apply (graph_fuel _ _ _ ex_graph_ok).
  - reflexivity.
  - reflexivity.
  - apply (bool_decide_unpack _). vm_compute. exact I.
  - vm_compute. reflexivity.
  - vm_compute. reflexivity.
  - vm_compute. reflexivity.
Defined.

(** A branch at the first commit, a fast-forward of it to HEAD, and the checkout. *)
Definition ex_script : list Statement :=
  [Version (VBranch (BCreate "dev" (Some (TBranch "old"))));
   Version (VMerge (mk_MergeStmt THead (TBranch "dev") FastForward));
   Version (VCheckout (TBranch "dev"))].

Definition ex_script_end : Engine := (Exec.execute_statements 70 ex_script [] ex_engine).2.

Lemma script_head_ok_witness :
  (head_plain (refs_of ex_script_end) /\ head_ok (refs_of ex_script_end)) /\
  rs_head (refs_of ex_script_end) = Some "dev".
Proof.
  split; [|vm_compute; reflexivity].
  apply (script_head_ok 70 ex_engine ex_script []
    (match (Exec.execute_statements 70 ex_script [] ex_engine).1 with Ok l => l | _ => [] end)).
  - apply (bool_decide_unpack _). vm_compute. exact I.
  - intros n Hn. vm_compute in Hn. injection Hn as <-. vm_compute. reflexivity.
  - intros n Hn. vm_compute in Hn. injection Hn as <-. vm_compute. eexists. reflexivity.
  - vm_compute. reflexivity.
Defined.

Definition ex_dir_engine : Engine :=
  mk_Engine (Disk.set_repo (mk_Repo {[ "feature" := RefDir ]} None None) ex_disk)
    (mk_SchemaFiles None None None).

Lemma checkout_directory_moves_head_witness :
  let '(r, e') := Exec.exec_checkout (TBranch "feature") ex_dir_engine in
  r = Err (exec_store (Io is_dir_msg)) /\ rs_head (refs_of e') = Some "feature" /\
  ~ head_ok (refs_of e') /\ (Exec.resolve_target_ref THead e').1 = Err (exec_store (Io is_dir_msg)).
Proof. apply (checkout_directory_moves_head ex_dir_engine "feature"). reflexivity. Defined.

End witnesses.
