(* ===== verification/CommitSpec.v ===== *)
(** * What [COMMIT] publishes

    The whole of [exec_commit]: the commit it stores, the snapshot and the indexes under it,
    and the branch that moves to it. *)

From Stdlib Require Import Strings.String.
From S2P Require Import Prelude Utf8 Hash Codec Record Cache Index Cas HamtNode Hamt HamtTree HamtProofs HamtSpec CasStore CasStoreProofs CasStoreSpec Commit Bfs Dag Repo DiskStore DiskStoreSpec.
From S2P Require Import Chars Lexer Text BTree Ast Parser Value Ddl Schema PathIndex Engine Reads IndexSpec EngineSpec EvalSpec RefsSpec.

Section commit.
Context `{Blake3, !MmapLib, !MmapLaws}.

Lemma norm_root_idem root : norm_root (norm_root root) = norm_root root.
Proof. unfold norm_root. repeat case_decide; congruence. Qed.

(** A commit with indexes, as [commit_with_root_ok] says of one without. *)
Lemma commit_with_indexes_ok s ps root roots msg :
  let c := with_indexes ps root (ds_now s) msg roots in
  disk_ok s -> commit_fits c -> lenZ (encode_payload c) < PAYLOAD_LIMIT ->
  no_collision (disk_objects s) [commit_object c] ->
  let '(r, s') := Disk.commit_with_indexes ps root roots msg s in
  disk_ok s' /\ disk_objects s ⊆ disk_objects s' /\ ds_repo s' = ds_repo s /\
  match r with
  | Ok h => h = commit_id c /\ commit_at (disk_objects s') h = Some c
  | Err e => commit_fails s ps s' e
  | _ => False
  end.
Proof.
  intros c Hok Hfit Hlen Hnc. unfold Disk.commit_with_indexes, Disk.query.
  rewrite stM_bind_eq. pose proof (check_parents_ok ps s) as Hps.
  destruct (Disk.check_parents ps s) as [u|e| |]; try done.
  2: { split_and!; try done. right. destruct Hps as (p & ? & ?%missing_object & ->); [|done].
       by exists p. }
  unfold Disk.now_millis. rewrite stM_bind_eq. unfold gets. fold c.
  pose proof (persist_commit_ok s c Hok Hfit Hlen Hnc) as Hpc.
  destruct (Disk.persist_commit c s) as [r s2]. destruct Hpc as (? & ? & ? & Hr).
  split; [done|]. split; [done|]. split; [done|]. destruct r; try done; [|by left].
  by destruct Hr as (? & ? & _).
Qed.

(** The document of a trie. *)
Definition tree_doc (ot : option tree) : Doc := flatten_entries (opt_entries ot).

(** Reading a document back changes nothing. *)
Lemma keeps_doc_of_root e fuel root ot :
  snapshot_at (disk_objects (store e)) (Some root) ot -> (root_height ot < fuel)%nat ->
  keeps (engine_view e) (Exec.doc_of_root fuel root) (fun r => r = Ok (tree_doc ot)).
Proof.
  intros Hat Hf. unfold Exec.doc_of_root. case_decide as Hz.
  { unfold snapshot_at, norm_root in Hat. rewrite decide_True in Hat by congruence.
    destruct Hat as [E _]. destruct ot; [done|]. by apply keeps_ret. }
  intros e1 [Hv Hfile].
  pose proof (keeps_hamt_entries (store e) fuel root ot Hat Hf (store e1) Hv) as Hk.
  unfold Exec.on_index, catch_err, zoom, PathIndex.doc_from_hamt_root. rewrite stM_bind_eq.
  unfold PathIndex.stringly, catch_err.
  destruct (Disk.hamt_entries fuel root (store e1)) as [r s']. destruct Hk as [Hv' ->]. cbn.
  by split.
Qed.

Lemma apply_hamt_ops_ok fuel ops base ot s os :
  disk_ok s -> no_collision (disk_objects s) os ->
  snapshot_at (disk_objects s) (Some base) ot -> ops_ok fuel ot ops ->
  (forall o, o ∈ ops_objects ot ops -> o ∈ os) ->
  let root := match ops with [] => base | _ => default ZERO (tree_hash <$> ops_tree ot ops) end in
  let '(r, s') := Disk.apply_hamt_ops fuel (if decide (base = ZERO) then None else Some base) ops s in
  disk_ok s' /\ disk_objects s ⊆ disk_objects s' /\ no_collision (disk_objects s') os /\
  s' = Disk.set_cas (ds_cas s') s /\
  match r with
  | Ok h => h = root /\ snapshot_at (disk_objects s') (Some root) (ops_tree ot ops) /\
            root_map (ops_tree ot ops) = foldl op_map (root_map ot) ops
  | Err e => disk_full s' e
  | _ => False
  end.
Proof.
  intros Hok Hnc Hat Hops Hos root. unfold Disk.apply_hamt_ops. rewrite stM_bind_eq.
  set (r0 := if decide (base = ZERO) then None else Some base).
  assert (norm_root r0 = norm_root (Some base)) as Er.
  { unfold r0, norm_root. destruct (decide (base = ZERO)) as [->|Hne].
    - by rewrite (decide_True (P := Some ZERO = Some ZERO)).
    - by rewrite decide_False by congruence. }
  assert (snapshot_at (disk_objects s) r0 ot) as Hat0 by (unfold snapshot_at in *; by rewrite Er).
  pose proof (apply_ops_ok fuel ops r0 ot s os Hok Hnc Hat0 Hops Hos) as Hap.
  destruct (Disk.apply_ops fuel ops r0 s) as [r s1].
  destruct Hap as (Hok1 & Hsub & Hnc1 & Hs1 & Hr). destruct r as [root'|x| |]; try done.
  destruct Hr as (Hat' & Hmap & Hnil). cbn.
  assert (default ZERO root' = root) as <-.
  { unfold root. destruct ops as [|op ops].
    + rewrite Hnil by done. unfold r0. by destruct (decide (base = ZERO)) as [->|].
    + unfold snapshot_at, norm_root in Hat'. destruct Hat' as [Hr' _].
      case_decide as Hz; [subst root'; by rewrite <- Hr'|by rewrite Hr']. }
  split_and!; try done.
  unfold snapshot_at in *. destruct root' as [h|]; [done|]. cbn [default].
  change (default ZERO None) with ZERO. unfold norm_root in *.
  rewrite decide_True by done. by rewrite decide_False in Hat'.
Qed.

(** The name of a branch leads to a file. *)
Lemma tip_path st n h : tip st n = Some h -> is_Some (ref_path n).
Proof.
  unfold tip, tip_at, branch_key. destruct (ref_path n) as [[k en]|]; [by eexists|done].
Qed.

(** Writing a branch leaves the objects alone. *)
Lemma update_branch_store e n h :
  is_Some (ref_path n) ->
  let '(o, e') := Exec.on_store (Disk.update_branch n h) e in
  match o with
  | Ok _ => True
  | Err x => Store.contains h (ds_cas (store e)) = false \/
      exists err r', RepoOps.update_branch n h (ds_repo (store e)) = (Err err, r') /\ x = exec_store err
  | _ => False
  end /\
  exists r, e' = mk_Engine (Disk.set_repo r (store e)) (files e).
Proof.
  intros [[key en] Hp]. unfold Exec.on_store, catch_err, zoom, Disk.update_branch.
  destruct (Store.contains h (ds_cas (store e))) eqn:Hc; cbn [negb].
  - unfold Disk.on_repo, zoom. pose proof (write_branch_ok n h (ds_repo (store e))) as Hw.
    unfold RepoOps.update_branch.
    destruct (RepoOps.stat n (ds_repo (store e))) as [[x|]|] eqn:Hs.
    + destruct (RepoOps.write_branch n h (ds_repo (store e))) as [[u|err| |] r']; try done;
        [| |by destruct Hw as [Hw _]; rewrite Hw in Hp]; (split; [|by exists r']); [done|].
      right. by exists err, r'.
    + split; [|by exists (ds_repo (store e))]. right. by eexists _, _.
    + unfold RepoOps.stat in Hs. rewrite Hp in Hs. by destruct en.
  - split; [by left|]. exists (ds_repo (store e)). by destruct e as [[] ?].
Qed.

Lemma resolve_state t e : (Exec.resolve_target_ref t e).2 = e.
Proof.
  destruct (resolve_eq 0 (mk_World (fun _ _ => True) (fun _ _ => True)) e (fun _ _ _ => Logic.I)
    (fun _ _ _ _ => Logic.I) t) as (r & -> & _). done.
Qed.

Lemma parent_hashes_state stmt b e : (Exec.commit_parent_hashes stmt b e).2 = e.
Proof.
  unfold Exec.commit_parent_hashes. destruct (commit_parents stmt) as [l|]; [|done].
  induction l as [|t l IH]; cbn [mapM]; [done|]. rewrite stM_bind_eq.
  pose proof (resolve_state t e) as Ht. destruct (Exec.resolve_target_ref t e) as [[h| | |] e1];
    simpl in Ht; subst e1; [|done..].
  rewrite stM_bind_eq. by destruct (mapM Exec.resolve_target_ref l e) as [[]].
Qed.

(** The steps of [exec_commit] once the parents are known. *)
Definition commit_body (fuel : nat) (stmt : CommitStmt) (head : Branch) (ps : list Hash) :
    stM Engine ExecError MutationResult :=
  base_commit ← match ps with p :: _ => Exec.get_commit p | [] => panic end;
  let base_root := if decide (root_hamt base_commit = ZERO) then None
                   else Some (root_hamt base_commit) in
  ops ← lift (Exec.payload_ops (payload stmt) []);
  new_root ← Exec.on_store (Disk.apply_hamt_ops fuel base_root ops);
  schema ← Exec.load_schema;
  old_doc ← Exec.doc_of_root fuel (root_hamt base_commit);
  new_doc ← Exec.doc_of_root fuel new_root;
  index_roots ← Exec.on_index (PathIndex.update_indexes_for_commit fuel schema old_doc new_doc
                            (index_roots base_commit));
  new_hash ← Exec.on_store (Disk.commit_with_indexes ps new_root index_roots
                         (default "commit" (commit_message stmt)));
  _ ← Exec.on_store (Disk.update_branch (branch_name head) new_hash);
  mret (mk_MutationResult ("committed on branch '" +:+ branch_name head +:+ "'")
          (Some (Hash.to_string new_hash))).

Lemma exec_commit_body fuel stmt e b ps :
  (Exec.head_branch e).1 = Ok b -> (Exec.commit_parent_hashes stmt b e).1 = Ok ps ->
  Exec.exec_commit fuel stmt e = commit_body fuel stmt b ps e.
Proof.
  intros Hb Hps. unfold Exec.exec_commit. destruct (head_branch_eq e) as (r & Hr & _).
  rewrite Hr in Hb. simpl in Hb. subst r. rewrite (stM_bind_Ok _ _ _ _ _ Hr).
  assert (Exec.commit_parent_hashes stmt b e = (Ok ps, e)) as Hp.
  { rewrite (surjective_pairing (Exec.commit_parent_hashes stmt b e)), Hps.
    by rewrite parent_hashes_state. }
  by rewrite (stM_bind_Ok _ _ _ _ _ Hp).
Qed.

(** Why a commit fails: the store is full, a parent is missing, or the branch cannot be
    written. *)
Definition commit_error (e e' : Engine) (n : string) (ps : list Hash) (c : Commit) (x : ExecError) :
    Prop :=
  exists err, x = exec_store err /\
    (commit_fails (store e) ps (store e') err \/
     exists r', RepoOps.update_branch n (commit_id c) (ds_repo (store e)) = (Err err, r')).

(** The commit and the move of the branch, at the end. *)
Lemma publish_ok e n ps root roots msg (res : Hash -> MutationResult) :
  let c := with_indexes ps root (ds_now (store e)) msg roots in
  disk_ok (store e) -> is_Some (ref_path n) ->
  commit_fits c -> lenZ (encode_payload c) < PAYLOAD_LIMIT ->
  no_collision (disk_objects (store e)) [commit_object c] ->
  let '(r, e') := (h ← Exec.on_store (Disk.commit_with_indexes ps root roots msg);
    _ ← Exec.on_store (Disk.update_branch n h);
    mret (res h) : stM Engine ExecError MutationResult) e in
  disk_ok (store e') /\ disk_objects (store e) ⊆ disk_objects (store e') /\ files e' = files e /\
  match r with
  | Ok x => x = res (commit_id c) /\ commit_at (disk_objects (store e')) (commit_id c) = Some c /\
            refs_of e' = move_tip n (commit_id c) (refs_of e)
  | Err x => refs_of e' = refs_of e /\ commit_error e e' n ps c x
  | _ => False
  end.
Proof.
  intros c Hok Hpath Hfit Hlen Hnc.
  pose proof (commit_with_indexes_ok (store e) ps root roots msg Hok Hfit Hlen Hnc) as Hc.
  rewrite stM_bind_eq. unfold Exec.on_store at 1, catch_err, zoom.
  destruct (Disk.commit_with_indexes ps root roots msg (store e)) as [r s1].
  destruct Hc as (Hok1 & Hsub & Hrepo & Hr).
  assert (refs_of (Exec.set_store s1 e) = refs_of e) as He1 by (unfold refs_of; cbn; by rewrite Hrepo).
  destruct r as [h|x| |]; cbn [map_err]; try done.
  2: { split_and!; try done. exists x. split; [done|by left]. }
  destruct Hr as [-> Hat]. fold c in Hat |- *.
  rewrite stM_bind_eq. pose proof (update_branch_eq e n (commit_id c) _ He1) as Hw.
  pose proof (update_branch_store (Exec.set_store s1 e) n (commit_id c) Hpath) as Hst.
  assert (forall r', disk_ok (Disk.set_repo r' s1)) as Hok2 by (intros; by apply disk_ok_set_repo).
  destruct (Exec.on_store (Disk.update_branch n (commit_id c)) (Exec.set_store s1 e)) as [r e2].
  destruct Hst as [Hst [r' ->]]. destruct r as [u|x| |]; unfold writes in Hw; cbn [fst snd] in Hw;
    [| |done..]; (split; [apply Hok2|]); (split; [exact Hsub|]); [done|].
  split; [done|]. split; [done|]. destruct Hst as [Hst|(err & r2 & Hup & ->)].
  - apply missing_object in Hst; [|done]. unfold commit_at in Hat. cbn [store Exec.set_store] in Hst.
    by rewrite Hst in Hat.
  - exists err. split; [done|]. right. exists r2. cbn in Hup. by rewrite Hrepo in Hup.
Qed.

(** More objects leave the tries of the indexes. *)
Lemma tries_at_mono s s' roots its :
  disk_objects s ⊆ disk_objects s' -> tries_at s roots its -> tries_at s' roots its.
Proof.
  intros Hsub [-> Hits]. split; [done|]. intros name t Ht. destruct (Hits _ _ Ht).
  split; [done|by eapply root_at_mono].
Qed.

(** What a commit starts from and what it writes. [its] are the tries of the indexes of the
    first parent, [os] the objects written. *)
Record commit_setup (fuel : nat) (e : Engine) (stmt : CommitStmt) (b : Branch) (ps : list Hash)
    (p : Hash) (base : Commit) (ot : option tree) (ops : list HamtOp) (schema : SchemaRegistry)
    (its : gmap string tree) (os : list Object) (c : Commit) : Prop := {
  setup_disk : disk_ok (store e);
  setup_head : (Exec.head_branch e).1 = Ok b;
  setup_parents : (Exec.commit_parent_hashes stmt b e).1 = Ok ps;
  setup_first : head ps = Some p;
  setup_base : commit_at (disk_objects (store e)) p = Some base;
  setup_snapshot : snapshot_at (disk_objects (store e)) (Some (root_hamt base)) ot;
  setup_payload : Exec.payload_ops (payload stmt) [] = Ok ops;
  setup_ops : ops_ok fuel ot ops;
  setup_fuel : (root_height ot < fuel)%nat /\ (root_height (ops_tree ot ops) < fuel)%nat;
  setup_schema : Registry.load (files e) = Ok schema;
  setup_tries : tries_at (store e) (index_roots base) its;
  setup_steps : let old_doc := tree_doc ot in let new_doc := tree_doc (ops_tree ot ops) in
    steps_ok fuel old_doc new_doc os its (schema_steps old_doc new_doc schema);
  setup_commit : c = with_indexes ps
    (match ops with [] => root_hamt base | _ => default ZERO (tree_hash <$> ops_tree ot ops) end)
    (ds_now (store e)) (default "commit" (commit_message stmt))
    (tree_hash <$> commit_tries (tree_doc ot) (tree_doc (ops_tree ot ops)) schema its);
  setup_fits : commit_fits c;
  setup_size : lenZ (encode_payload c) < PAYLOAD_LIMIT;
  setup_collision : no_collision (disk_objects (store e)) os;
  setup_objects : forall o, o ∈ ops_objects ot ops ++ [commit_object c] -> o ∈ os
}.

(** The document of a root, read between two steps. *)
Lemma read_doc {A} e e1 fuel root ot (f : Doc -> stM Engine ExecError A) :
  engine_view e e1 ->
  snapshot_at (disk_objects (store e)) (Some root) ot -> (root_height ot < fuel)%nat ->
  exists e2, engine_view e e2 /\ (d ← Exec.doc_of_root fuel root; f d) e1 = f (tree_doc ot) e2.
Proof.
  intros He Hat Hf. pose proof (keeps_doc_of_root e fuel root ot Hat Hf e1 He) as Hk.
  rewrite stM_bind_eq. destruct (Exec.doc_of_root fuel root e1) as [r e2].
  destruct Hk as [He2 ->]. by exists e2.
Qed.

Lemma commit_fails_weaken s0 s ps s' x :
  disk_objects s0 ⊆ disk_objects s -> commit_fails s ps s' x -> commit_fails s0 ps s' x.
Proof.
  intros Hsub [?|(p & ? & Hp & ->)]; [by left|right]. exists p. split; [done|].
  split; [by eapply lookup_weaken_None|done].
Qed.

Section body.
Context (fuel : nat) (e : Engine) (stmt : CommitStmt) (b : Branch) (ps : list Hash) (p : Hash)
  (base : Commit) (ot : option tree) (ops : list HamtOp) (schema : SchemaRegistry)
  (its : gmap string tree) (os : list Object) (c : Commit).
Context (Hsetup : commit_setup fuel e stmt b ps p base ot ops schema its os c).

Let old_doc : Doc := tree_doc ot.
Let new_doc : Doc := tree_doc (ops_tree ot ops).
Let root : Hash :=
  match ops with [] => root_hamt base | _ => default ZERO (tree_hash <$> ops_tree ot ops) end.

(** The steps after the trie: the documents, the indexes, the commit and the branch. *)
Definition commit_tail : stM Engine ExecError MutationResult :=
  schema ← Exec.load_schema;
  old_doc ← Exec.doc_of_root fuel (root_hamt base);
  new_doc ← Exec.doc_of_root fuel root;
  index_roots ← Exec.on_index (PathIndex.update_indexes_for_commit fuel schema old_doc new_doc
                            (index_roots base));
  new_hash ← Exec.on_store (Disk.commit_with_indexes ps root index_roots
                         (default "commit" (commit_message stmt)));
  _ ← Exec.on_store (Disk.update_branch (branch_name b) new_hash);
  mret (mk_MutationResult ("committed on branch '" +:+ branch_name b +:+ "'")
          (Some (Hash.to_string new_hash))).

Definition commit_done (p : outcome ExecError MutationResult * Engine) : Prop :=
  let e' := p.2 in
  disk_ok (store e') /\ disk_objects (store e) ⊆ disk_objects (store e') /\ files e' = files e /\
  match p.1 with
  | Ok res =>
      result_hash res = Some (Hash.to_string (commit_id c)) /\
      commit_at (disk_objects (store e')) (commit_id c) = Some c /\
      refs_of e' = move_tip (branch_name b) (commit_id c) (refs_of e) /\
      snapshot_at (disk_objects (store e')) (Some (root_hamt c)) (ops_tree ot ops) /\
      root_map (ops_tree ot ops) = foldl op_map (root_map ot) ops /\
      tries_at (store e') (index_roots c) (commit_tries old_doc new_doc schema its) /\
      forall name, name ∈ index_name <$> Registry.all_indexes schema ->
        root_map (commit_tries old_doc new_doc schema its !! name) =
          index_content old_doc new_doc name (root_map (its !! name))
            (schema_steps old_doc new_doc schema)
  | Err x => refs_of e' = refs_of e /\ commit_error e e' (branch_name b) ps c x
  | _ => False
  end.

Lemma head_path : is_Some (ref_path (branch_name b)).
Proof.
  destruct (head_branch_eq e) as (r & Hr & Hb). pose proof (setup_head _ _ _ _ _ _ _ _ _ _ _ _ _ Hsetup) as Hh.
  rewrite Hr in Hh. cbn in Hh. subst r. by eapply tip_path, Hb.
Qed.

Lemma commit_tail_ok e2 :
  disk_ok (store e2) -> disk_objects (store e) ⊆ disk_objects (store e2) ->
  no_collision (disk_objects (store e2)) os -> files e2 = files e ->
  ds_repo (store e2) = ds_repo (store e) -> ds_now (store e2) = ds_now (store e) ->
  snapshot_at (disk_objects (store e2)) (Some root) (ops_tree ot ops) ->
  root_map (ops_tree ot ops) = foldl op_map (root_map ot) ops ->
  commit_done (commit_tail e2).
Proof.
  destruct Hsetup as [Hok Hb Hps Hp Hbase Hat Hpay Hops [Hf1 Hf2] Hsch Hits Hsteps Hc Hfit Hlen Hnc Hos].
  intros Hok2 Hsub2 Hnc2 Hfiles Hrepo Hnow Hat2 Hmap. unfold commit_tail.
  rewrite stM_bind_eq. unfold Exec.load_schema. rewrite Hfiles, Hsch. cbn [map_err].
  assert (snapshot_at (disk_objects (store e2)) (Some (root_hamt base)) ot) as Hat0
    by (unfold snapshot_at in *; by eapply root_at_mono).
  match goal with |- commit_done ((_ ≫= ?f) _) =>
    destruct (read_doc e2 e2 fuel (root_hamt base) ot f (engine_view_refl e2 Hok2) Hat0 Hf1)
      as (e3 & He3 & ->) end.
  match goal with |- commit_done ((_ ≫= ?f) _) =>
    destruct (read_doc e2 e3 fuel root _ f He3 Hat2 Hf2) as (e4 & [Hv4 Hfile4] & ->) end.
  fold old_doc new_doc in Hsteps, Hc |- *. pose proof (view_objects _ _ Hv4) as Ho4.
  pose proof (update_for_commit_tries fuel old_doc new_doc os schema (store e4) (index_roots base) its
    (view_ok _ _ Hv4)) as Hup. rewrite Ho4 in Hup.
  assert (tries_at (store e4) (index_roots base) its) as Hits4
    by (eapply tries_at_mono; [|exact Hits]; by rewrite Ho4).
  specialize (Hup Hnc2 Hits4 Hsteps).
  rewrite stM_bind_eq. unfold Exec.on_index, catch_err, zoom.
  destruct (PathIndex.update_indexes_for_commit fuel schema old_doc new_doc (index_roots base) (store e4))
    as [r s5]. destruct Hup as ((Hok5 & Hsub5 & Hs5) & Hnc5 & Hr). rewrite Ho4 in Hsub5.
  assert (disk_objects (store e) ⊆ disk_objects s5) as Hsub by by etransitivity.
  assert (ds_repo s5 = ds_repo (store e)) as Hrepo5 by (rewrite Hs5; cbn; by rewrite (view_repo _ _ Hv4)).
  assert (refs_of (Exec.set_store s5 e4) = refs_of e) as Hrefs by (unfold refs_of; cbn; by rewrite Hrepo5).
  destruct r as [roots|x| |]; cbn [map_err]; try done.
  2: { unfold commit_done. cbn. split_and!; try done; [by rewrite Hfile4|].
       destruct Hr as (err & Hfull & ->). exists err. split; [done|]. left. by left. }
  destruct Hr as [Htries Hcont]. pose proof (proj1 Htries) as Eroots. subst roots.
  assert (ds_now s5 = ds_now (store e)) as Hnow5 by (rewrite Hs5; cbn; by rewrite (view_now _ _ Hv4)).
  pose proof (publish_ok (Exec.set_store s5 e4) (branch_name b) ps root
    (tree_hash <$> commit_tries old_doc new_doc schema its)
    (default "commit" (commit_message stmt))
    (fun h => mk_MutationResult ("committed on branch '" +:+ branch_name b +:+ "'")
      (Some (Hash.to_string h))) Hok5 head_path) as Hpub.
  cbn [store Exec.set_store] in Hpub. rewrite Hnow5 in Hpub.
  fold root in Hc. rewrite <- Hc in Hpub. specialize (Hpub Hfit Hlen).
  match type of Hpub with _ -> let '(_, _) := ?m in _ => destruct m as [r e6] end.
  destruct Hpub as (Hok6 & Hsub6 & Hfile6 & Hr).
  { eapply no_collision_sub; [|exact Hnc5]. intros o Ho. apply Hos, elem_of_app. by right. }
  rewrite Hrefs in Hr. unfold commit_done. cbn [fst snd]. split; [done|]. split; [by etransitivity|].
  split; [rewrite Hfile6; cbn; by rewrite Hfile4|]. destruct r as [res|x| |]; try done.
  - destruct Hr as (-> & Hat6 & Href). split_and!; try done; rewrite Hc; cbn [index_roots root_hamt with_indexes].
    + unfold snapshot_at in *. eapply root_at_mono; [|exact Hat2].
      etransitivity; [exact Hsub5|exact Hsub6].
    + by eapply tries_at_mono.
  - destruct Hr as [Href (err & -> & Hr)]. split; [done|]. exists err. split; [done|].
    destruct Hr as [Hr|Hr]; [left; by eapply commit_fails_weaken|right]. cbn in Hr. by rewrite Hrepo5 in Hr.
Qed.

Lemma commit_body_ok :
  commit_done (commit_body fuel stmt b ps e).
Proof.
  pose proof Hsetup as [Hok _ _ Hp Hbase Hat Hpay Hops [Hf1 Hf2] _ _ _ Hc _ _ Hnc Hos].
  unfold commit_body.
  assert (match ps with p :: _ => Exec.get_commit p | [] => panic end = Exec.get_commit p) as ->
    by (clear -Hp; destruct ps; [done|by injection Hp as ->]).
  pose proof (keeps_get_commit e p base Hbase e (engine_view_refl e Hok)) as Hg.
  rewrite stM_bind_eq. destruct (Exec.get_commit p e) as [r e1]. destruct Hg as [[Hv1 Hfile1] ->].
  cbv zeta. rewrite (stM_bind_Ok _ _ e1 ops e1) by (unfold lift; by rewrite Hpay).
  pose proof (view_objects _ _ Hv1) as Ho1. rewrite <- Ho1 in Hat, Hnc.
  pose proof (apply_hamt_ops_ok fuel ops (root_hamt base) ot (store e1) _ (view_ok _ _ Hv1) Hnc Hat
    Hops ltac:(intros o Ho; apply Hos, elem_of_app; by left)) as Hap.
  fold root in Hap. cbv zeta in Hap. rewrite stM_bind_eq. unfold Exec.on_store at 1, catch_err, zoom.
  destruct (Disk.apply_hamt_ops fuel _ ops (store e1)) as [r s2].
  destruct Hap as (Hok2 & Hsub2 & Hnc2 & Hs2 & Hr). rewrite Ho1 in Hsub2.
  assert (ds_repo s2 = ds_repo (store e)) as Hrepo by (rewrite Hs2; cbn; by rewrite (view_repo _ _ Hv1)).
  destruct r as [h|x| |]; cbn [map_err]; try done.
  2: { split_and!; try done. split; [unfold refs_of; cbn; by rewrite Hrepo|].
       exists x. split; [done|]. left. by left. }
  destruct Hr as (-> & Hat2 & Hmap).
  assert (ds_now s2 = ds_now (store e)) as Hnow by (rewrite Hs2; cbn; by rewrite (view_now _ _ Hv1)).
  pose proof (commit_tail_ok (Exec.set_store s2 e1) Hok2 Hsub2 Hnc2 Hfile1 Hrepo Hnow Hat2 Hmap) as Htail.
  exact Htail.
Qed.

End body.
End commit.

(** C3: [COMMIT] publishes what it says. When the statement succeeds, the new commit has the
    parents it names, HEAD's branch first if it names none, and is stored with everything
    that was; its snapshot is that of the first parent with the payload's leaves put; every
    index of the schema holds what it held under the first parent, without the key of a value
    that changed and with the key of the new one; HEAD's branch, and nothing else, has moved to
    the commit; and a query that binds it reads the document of that snapshot. When it fails,
    no branch has moved, and it fails only because the segment ids are used up, a parent is not
    stored, or the file of the branch cannot be written.

    The conditions, in [commit_setup]: HEAD, the parents, the first parent's snapshot and
    indexes and the schema can be read; no put of a leaf or of an index entry meets a clash
    (there the program loses a key, [hamt_insert_clash_loses_key]); the leaves and the commit
    fit their fields; no two objects have one hash and no trie has the hash [ZERO]; the fuel
    covers the tries. *)
Theorem commit_statement_publishes `{Blake3, !MmapLib, !MmapLaws} (fuel : nat) (e : Engine)
    (stmt : CommitStmt) (b : Branch) (ps : list Hash) (p : Hash) (base : Commit)
    (ot : option tree) (ops : list HamtOp) (schema : SchemaRegistry) (its : gmap string tree)
    (os : list Object) (c : Commit) :
  commit_setup fuel e stmt b ps p base ot ops schema its os c ->
  let m := foldl op_map (root_map ot) ops in
  let old_doc := tree_doc ot in
  let new_doc := tree_doc (ops_tree ot ops) in
  let '(r, e') := Exec.exec_commit fuel stmt e in
  disk_ok (store e') /\ disk_objects (store e) ⊆ disk_objects (store e') /\ files e' = files e /\
  match r with
  | Ok res =>
      result_hash res = Some (Hash.to_string (commit_id c)) /\
      commit_at (disk_objects (store e')) (commit_id c) = Some c /\
      refs_of e' = move_tip (branch_name b) (commit_id c) (refs_of e) /\
      (exists ot', snapshot_at (disk_objects (store e')) (Some (root_hamt c)) ot' /\ root_map ot' = m) /\
      (forall name, name ∈ index_name <$> Registry.all_indexes schema -> exists oi,
         index_at (store e') (index_roots c) name oi /\
         root_map oi = index_content old_doc new_doc name (root_map (its !! name))
           (schema_steps old_doc new_doc schema)) /\
      exists bound, bound_of e' fuel (commit_id c) bound /\
        ((forall k v, m !! k = Some v -> utf8_valid (bytes_str k) = true) ->
         forall key, bound_state bound !! key = from_bytes <$> m !! str_bytes key)
  | Err x => refs_of e' = refs_of e /\ commit_error e e' (branch_name b) ps c x
  | _ => False
  end.
Proof.
  intros Hs m old_doc new_doc. rewrite (exec_commit_body fuel stmt e b ps) by apply Hs.
  pose proof (commit_body_ok fuel e stmt b ps p base ot ops schema its os c Hs) as Hb.
  destruct (commit_body fuel stmt b ps e) as [r e']. destruct Hb as (? & ? & ? & Hr).
  split_and!; try done. destruct r as [res|x| |]; try done.
  destruct Hr as (? & Hat & ? & Hsnap & Hmap & Htries & Hcont). split_and!; try done; [by eexists| |].
  { intros name Hn. eexists. split; [by eapply tries_index_at|by apply Hcont]. }
  eexists. split.
  - exists c, (ops_tree ot ops). split; [done|]. split; [done|]. split; [apply Hs|reflexivity].
  - intros Hu key. cbn [bound_state]. apply flatten_entries_lookup; [|done].
    unfold m. cbn [snd] in *. rewrite <- Hmap. by eapply root_map_perm.
Qed.

(** A commit without parents crashes. [COMMIT .. PARENTS []] parses, but the executor takes
    the first of the parents: it panics, before anything is written. *)
Theorem commit_no_parents_panics `{Blake3, !MmapLib} (fuel : nat) (e : Engine) (stmt : CommitStmt)
    (b : Branch) :
  (Exec.head_branch e).1 = Ok b -> commit_parents stmt = Some [] ->
  Exec.exec_commit fuel stmt e = (Panic, e).
Proof.
  intros Hb Hps. rewrite (exec_commit_body fuel stmt e b []); [done|done|].
  unfold Exec.commit_parent_hashes. by rewrite Hps.
Qed.

Section witnesses.

#[local] Existing Instance toy_hash.
#[local] Existing Instance id_mmap.
#[local] Existing Instance id_mmap_laws.

(** [COMMIT { a: { b: "x" } } MESSAGE "o"], on top of the second commit, where [a.b] is the key
    of the collection items and has an index. *)
Definition ex_stmt : CommitStmt := mk_CommitStmt [("a", EMap [("b", EString "x")])] (Some "o") None.
Definition ex_ops : list HamtOp := [Put (str_bytes "a.b") (str_bytes "x")].
Definition ex_root3 : Hash := default ZERO (tree_hash <$> ops_tree None ex_ops).
Definition ex_schema : SchemaRegistry :=
  mk_SchemaRegistry (<["items" := mk_CollectionSchema "items" [mk_FieldDef "a.b" FString]
    [mk_IndexDef "items.by_a_b" "a.b" FString]]> ∅).
Definition ex_indexed : Engine :=
  mk_Engine ex_disk2 (Registry.save ex_schema (mk_SchemaFiles None None None)).
Definition ex_old_doc : Doc := tree_doc None.
Definition ex_new_doc : Doc := tree_doc (ops_tree None ex_ops).
Definition ex_tries3 : gmap string tree := commit_tries ex_old_doc ex_new_doc ex_schema ∅.
Definition ex_c3 : Commit := with_indexes [ex_tip2] ex_root3 1000 "o" (tree_hash <$> ex_tries3).
Definition ex_objects3 : list Object :=
  ops_objects None ex_ops ++ ((map_to_list ex_tries3).*2 ≫= tree_objects) ++ [commit_object ex_c3].

Lemma ex_no_collision3 : no_collision (disk_objects ex_disk2) ex_objects3.
Proof. apply (bool_decide_unpack (no_collision _ _)). vm_compute. exact I. Qed.

(** The update of the one index. *)
Lemma ex_steps :
  steps_ok 70 ex_old_doc ex_new_doc ex_objects3 ∅ (schema_steps ex_old_doc ex_new_doc ex_schema).
Proof.
  assert (schema_steps ex_old_doc ex_new_doc ex_schema =
    [(Some (str_bytes "x"), mk_IndexDef "items.by_a_b" "a.b" FString)]) as -> by (vm_compute; reflexivity).
  split; [|done]. cbn [fst snd index_name index_path].
  assert (extract_path ex_old_doc "a.b" = None) as -> by (vm_compute; reflexivity).
  assert (extract_path ex_new_doc "a.b" = Some (VString "x")) as -> by (vm_compute; reflexivity).
  split.
  - split_and!; apply Nat.leb_le; vm_compute; reflexivity.
  - intros k v Hk. vm_compute in Hk. injection Hk as <- <-.
    split; [split; vm_compute; reflexivity|reflexivity].
  - split; apply (bool_decide_unpack _); vm_compute; exact I.
  - apply Forall_forall. apply (bool_decide_unpack _). vm_compute. exact I.
Qed.

Lemma ex_c3_fits : commit_fits ex_c3.
Proof.
  split.
  - vm_compute. reflexivity.
  - vm_compute. intuition congruence.
  - vm_compute. intuition congruence.
  - vm_compute. reflexivity.
  - assert (map_Forall (fun n (_ : Hash) => lenZ (str_bytes n) < 2 ^ 16 /\ utf8_valid n = true)
      (index_roots ex_c3)) as Hall by (apply (bool_decide_unpack _); vm_compute; exact I).
    exact Hall.
Qed.

Lemma ex_setup :
  commit_setup 70 ex_indexed ex_stmt (mk_Branch "main" ex_tip2) [ex_tip2] ex_tip2 ex_c2 None ex_ops
    ex_schema ∅ ex_objects3 ex_c3.
Proof.
  split.
  - apply ex_disk2_ok.
  - vm_compute. reflexivity.
  - vm_compute. reflexivity.
  - reflexivity.
  - apply ex_disk2_ok.
  - split; [vm_compute; reflexivity|exact I].
  - vm_compute. reflexivity.
  - split; [split; vm_compute; reflexivity|]. split; [reflexivity|].
    split; [apply (bool_decide_unpack _); vm_compute; exact I|].
    split; [apply Nat.leb_le; reflexivity|exact I].
  - split; apply Nat.ltb_lt; vm_compute; reflexivity.
  - vm_compute. reflexivity.
  - split; [reflexivity|]. intros name t Ht. by rewrite lookup_empty in Ht.
  - exact ex_steps.
  - reflexivity.
  - exact ex_c3_fits.
  - vm_compute. reflexivity.
  - apply ex_no_collision3.
  - intros o Ho. unfold ex_objects3. rewrite !elem_of_app in *. tauto.
Qed.

Lemma commit_statement_publishes_witness :
  let m := foldl op_map (root_map None) ex_ops in
  let '(r, e') := Exec.exec_commit 70 ex_stmt ex_indexed in
  disk_ok (store e') /\ disk_objects (store ex_indexed) ⊆ disk_objects (store e') /\
  files e' = files ex_indexed /\
  match r with
  | Ok res =>
      result_hash res = Some (Hash.to_string (commit_id ex_c3)) /\
      commit_at (disk_objects (store e')) (commit_id ex_c3) = Some ex_c3 /\
      refs_of e' = move_tip (branch_name (mk_Branch "main" ex_tip2)) (commit_id ex_c3) (refs_of ex_indexed) /\
      (exists ot', snapshot_at (disk_objects (store e')) (Some (root_hamt ex_c3)) ot' /\
         root_map ot' = m) /\
      (forall name, name ∈ index_name <$> Registry.all_indexes ex_schema -> exists oi,
         index_at (store e') (index_roots ex_c3) name oi /\
         root_map oi = index_content ex_old_doc ex_new_doc name (root_map ((∅ : gmap string tree) !! name))
           (schema_steps ex_old_doc ex_new_doc ex_schema)) /\
      exists bound, bound_of e' 70 (commit_id ex_c3) bound /\
        ((forall k v, m !! k = Some v -> utf8_valid (bytes_str k) = true) ->
         forall key, bound_state bound !! key = from_bytes <$> m !! str_bytes key)
  | Err x => refs_of e' = refs_of ex_indexed /\ commit_error ex_indexed e' "main" [ex_tip2] ex_c3 x
  | _ => False
  end.
Proof.
  pose proof (commit_statement_publishes 70 ex_indexed ex_stmt (mk_Branch "main" ex_tip2) [ex_tip2]
    ex_tip2 ex_c2 None ex_ops ex_schema ∅ ex_objects3 ex_c3 ex_setup) as Hp.
  exact Hp.
Defined.

Definition ex_no_parents : CommitStmt := mk_CommitStmt [] None (Some []).

Lemma commit_no_parents_panics_witness :
  Exec.exec_commit 70 ex_no_parents ex_engine = (Panic, ex_engine).
Proof.
  apply (commit_no_parents_panics 70 ex_engine ex_no_parents (mk_Branch "main" ex_tip2)).
  - vm_compute. reflexivity.
  - reflexivity.
Defined.

End witnesses.
