(* ===== verification/Epx.v ===== *)
(** * The EPX protocol: base64 and frames ([epochs-server/src/epx.rs])

    The connection is its byte stream: what is still to be read, and how the stream ends
    once that is consumed. *)

From Stdlib Require Import Strings.Byte.
From S2P Require Import Prelude.

(** ** Base64 *)

Definition T_alphabet : list byte :=
  str_bytes "ABCDEFGHIJKLMNOPQRSTUVWXYZabcdefghijklmnopqrstuvwxyz0123456789+/".

Definition char_at (i : Z) : byte := nth (Z.to_nat i) T_alphabet x00.

Definition pad : byte := as_u8 61.

(** The four characters of a chunk of one to three bytes. *)
Definition encode_chunk (chunk : list byte) : list byte :=
  let a := byte_val (nth 0 chunk x00) in
  let b := byte_val (nth 1 chunk x00) in
  let c := byte_val (nth 2 chunk x00) in
  let n := Z.lor (Z.lor (Z.shiftl a 16) (Z.shiftl b 8)) c in
  [char_at (Z.land (Z.shiftr n 18) 63);
   char_at (Z.land (Z.shiftr n 12) 63);
   if Nat.ltb 1 (length chunk) then char_at (Z.land (Z.shiftr n 6) 63) else pad;
   if Nat.ltb 2 (length chunk) then char_at (Z.land n 63) else pad].

(** [slice::chunks(3)]. *)
Fixpoint chunks3 {A} (l : list A) : list (list A) :=
  match l with
  | a :: b :: c :: l => [a; b; c] :: chunks3 l
  | [] => []
  | _ => [l]
  end.

Definition base64_encode (bytes : list byte) : string :=
  bytes_str (chunks3 bytes ≫= encode_chunk).

(** ** Frames *)

Definition MAX_FRAME : Z := 16 * 1024 * 1024.

(** How a read past the bytes of the stream fails. *)
Inductive StreamEnd : Type := UnexpectedEof | IoError (msg : string).

Definition StreamEnd_to_string (e : StreamEnd) : string :=
  match e with UnexpectedEof => "early eof" | IoError m => m end.

Record Socket := mk_Socket { incoming : list byte; stream_end : StreamEnd }.

Module Frame.

Definition read_exact (n : nat) : stM Socket StreamEnd (list byte) := fun s =>
  if Nat.leb n (length (incoming s))
  then (Ok (take n (incoming s)), mk_Socket (drop n (incoming s)) (stream_end s))
  else (Err (stream_end s), mk_Socket [] (stream_end s)).

(** [u32::from_be_bytes], [u32::to_be_bytes]. *)
Definition from_be (l : list byte) : Z := of_le (rev l).
Definition to_be (n : nat) (z : Z) : list byte := rev (to_le n z).

Definition read_frame : stM Socket string (option (list byte)) := fun s =>
  match read_exact 4 s with
  | (Ok len_buf, s) =>
      let len := from_be len_buf in
      if len =? 0 then (Ok (Some []), s)
      else if len >? MAX_FRAME then (Err ("frame too large: " +:+ pretty len), s)
      else
        match read_exact (Z.to_nat len) s with
        | (Ok buf, s) => (Ok (Some buf), s)
        | (Err e, s) => (Err (StreamEnd_to_string e), s)
        | (Panic, s) => (Panic, s)
        | (OutOfFuel, s) => (OutOfFuel, s)
        end
  | (Err UnexpectedEof, s) => (Ok None, s)
  | (Err (IoError m), s) => (Err m, s)
  | (Panic, s) => (Panic, s)
  | (OutOfFuel, s) => (OutOfFuel, s)
  end.

(** The bytes [write_frame] sends for a serialized response. *)
Definition write_frame (body : list byte) : outcome string (list byte) :=
  let len := lenZ body mod 2 ^ 32 in
  if len >? MAX_FRAME then Err "response too large"
  else Ok (to_be 4 len ++ body).

End Frame.

(** ** Base64 is decodable *)

(** The value of a character of the alphabet. *)
Definition char_value (ch : byte) : option Z :=
  let v := byte_val ch in
  if (65 <=? v) && (v <=? 90) then Some (v - 65)
  else if (97 <=? v) && (v <=? 122) then Some (v - 71)
  else if (48 <=? v) && (v <=? 57) then Some (v + 4)
  else if v =? 43 then Some 62
  else if v =? 47 then Some 63
  else None.

(** The bytes of four characters, as RFC 4648 defines them: a padded group stands for one
    or two bytes and its unused bits are zero. *)
Definition decode_group (c0 c1 c2 c3 : byte) : option (list byte) :=
  v0 ← char_value c0;
  v1 ← char_value c1;
  if bool_decide (c2 = pad) then
    if bool_decide (c3 = pad) && (v1 mod 16 =? 0) then Some [as_u8 (v0 * 4 + v1 / 16)]
    else None
  else
    v2 ← char_value c2;
    if bool_decide (c3 = pad) then
      if v2 mod 4 =? 0
      then Some [as_u8 (v0 * 4 + v1 / 16); as_u8 (v1 mod 16 * 16 + v2 / 4)]
      else None
    else
      v3 ← char_value c3;
      Some [as_u8 (v0 * 4 + v1 / 16); as_u8 (v1 mod 16 * 16 + v2 / 4);
            as_u8 (v2 mod 4 * 64 + v3)].

Fixpoint base64_decode (l : list byte) : option (list byte) :=
  match l with
  | [] => Some []
  | c0 :: c1 :: c2 :: c3 :: l =>
      g ← decode_group c0 c1 c2 c3;
      if bool_decide (c3 = pad) then if bool_decide (l = []) then Some g else None
      else r ← base64_decode l; Some (g ++ r)
  | _ => None
  end.

Lemma char_value_char_at i : 0 <= i < 64 -> char_value (char_at i) = Some i.
Proof.
  intros Hi. replace i with (Z.of_nat (Z.to_nat i)) by lia.
  assert (Z.to_nat i < 64)%nat as Hn by lia. clear Hi. revert Hn. generalize (Z.to_nat i) as n.
  intros n Hn. do 64 (destruct n as [|n]; [reflexivity|]). lia.
Qed.

Lemma char_at_not_pad i : 0 <= i < 64 -> char_at i ≠ pad.
Proof. intros Hi E. pose proof (char_value_char_at i Hi) as H. by rewrite E in H. Qed.

(** The 24 bits of a chunk and their four groups of six, as arithmetic. *)
Lemma lor_shiftl_add a b k :
  0 <= k -> 0 <= b < 2 ^ k -> Z.lor (Z.shiftl a k) b = a * 2 ^ k + b.
Proof.
  intros Hk Hb.
  assert (Z.land (a * 2 ^ k) b = 0) as Hdisj.
  { apply Z.bits_inj'. intros i Hi. rewrite Z.bits_0, Z.land_spec.
    destruct (Z.lt_ge_cases i k); [by rewrite Z.mul_pow2_bits_low|].
    rewrite <- (Z.mod_small b (2 ^ k)), Z.mod_pow2_bits_high by lia. apply andb_false_r. }
  rewrite Z.shiftl_mul_pow2, Z.add_nocarry_lxor by done. by rewrite Z.lxor_lor.
Qed.

Lemma bits24 a b c :
  0 <= a < 256 -> 0 <= b < 256 -> 0 <= c < 256 ->
  Z.lor (Z.lor (Z.shiftl a 16) (Z.shiftl b 8)) c = a * 65536 + b * 256 + c.
Proof.
  intros Ha Hb Hc.
  rewrite (lor_shiftl_add a (Z.shiftl b 8)) by (rewrite ?Z.shiftl_mul_pow2; lia).
  replace (a * 2 ^ 16 + Z.shiftl b 8) with (Z.shiftl (a * 256 + b) 8)
    by (rewrite !Z.shiftl_mul_pow2 by lia; lia).
  rewrite lor_shiftl_add by lia. lia.
Qed.

Lemma six_bits n k : 0 <= k -> Z.land (Z.shiftr n k) 63 = n / 2 ^ k mod 64.
Proof.
  intros. change 63 with (Z.ones 6). by rewrite Z.land_ones, Z.shiftr_div_pow2 by lia.
Qed.

Lemma groups24 a b c (n := a * 65536 + b * 256 + c) :
  0 <= a < 256 -> 0 <= b < 256 -> 0 <= c < 256 ->
  n / 2 ^ 18 mod 64 = a / 4 /\
  n / 2 ^ 12 mod 64 = a mod 4 * 16 + b / 16 /\
  n / 2 ^ 6 mod 64 = b mod 16 * 4 + c / 64 /\
  n mod 64 = c mod 64.
Proof. intros. subst n. split_and!; Z.div_mod_to_equations; lia. Qed.

(** Encoding a chunk, with the groups of six bits as arithmetic on its bytes. *)
Lemma encode_chunk_eq chunk :
  let a := byte_val (nth 0 chunk x00) in
  let b := byte_val (nth 1 chunk x00) in
  let c := byte_val (nth 2 chunk x00) in
  encode_chunk chunk =
    [char_at (a / 4); char_at (a mod 4 * 16 + b / 16);
     if Nat.ltb 1 (length chunk) then char_at (b mod 16 * 4 + c / 64) else pad;
     if Nat.ltb 2 (length chunk) then char_at (c mod 64) else pad].
Proof.
  intros a b c. unfold encode_chunk. fold a b c.
  pose proof (byte_val_range (nth 0 chunk x00)) as Ha.
  pose proof (byte_val_range (nth 1 chunk x00)) as Hb.
  pose proof (byte_val_range (nth 2 chunk x00)) as Hc.
  destruct (groups24 a b c Ha Hb Hc) as (E1 & E2 & E3 & E4).
  rewrite bits24, !six_bits by (done || lia). change 63 with (Z.ones 6).
  rewrite Z.land_ones by lia. change (2 ^ 6) with 64 in *. by rewrite E1, E2, E3, E4.
Qed.

Ltac group_arith := apply (inj byte_val); rewrite byte_val_as_u8; Z.div_mod_to_equations; lia.

Lemma decode_encode_chunk chunk :
  (0 < length chunk <= 3)%nat ->
  exists c0 c1 c2 c3, encode_chunk chunk = [c0; c1; c2; c3] /\
    decode_group c0 c1 c2 c3 = Some chunk /\ (c3 = pad <-> (length chunk < 3)%nat).
Proof.
  intros Hl. rewrite encode_chunk_eq. do 4 eexists. split; [reflexivity|].
  unfold decode_group.
  pose proof (byte_val_range (nth 0 chunk x00)). pose proof (byte_val_range (nth 1 chunk x00)).
  pose proof (byte_val_range (nth 2 chunk x00)).
  rewrite !(char_value_char_at _) by (Z.div_mod_to_equations; lia).
  cbn [mbind option_bind].
  destruct chunk as [|x [|y [|z [|]]]]; cbn [length nth Nat.ltb Nat.leb] in *; try lia;
    change (byte_val x00) with 0.
  - rewrite !bool_decide_true by done. replace (_ =? 0) with true by (symmetry; Z.div_mod_to_equations; lia).
    split; [|naive_solver lia]. do 2 f_equal. group_arith.
  - rewrite bool_decide_false by (apply char_at_not_pad; Z.div_mod_to_equations; lia).
    rewrite char_value_char_at by (Z.div_mod_to_equations; lia). cbn [mbind option_bind].
    rewrite bool_decide_true by done. replace (_ =? 0) with true by (symmetry; Z.div_mod_to_equations; lia).
    split; [|naive_solver lia]. do 2 f_equal; [group_arith|f_equal; group_arith].
  - rewrite bool_decide_false by (apply char_at_not_pad; Z.div_mod_to_equations; lia).
    rewrite char_value_char_at by (Z.div_mod_to_equations; lia). cbn [mbind option_bind].
    pose proof (char_at_not_pad (byte_val z mod 64) ltac:(Z.div_mod_to_equations; lia)) as Hz.
    rewrite bool_decide_false by done.
    rewrite char_value_char_at by (Z.div_mod_to_equations; lia). cbn [mbind option_bind].
    split; [|split; [done|lia]].
    do 2 f_equal; [group_arith|f_equal; [group_arith|f_equal; group_arith]].
Qed.

Lemma chunks3_ind {A} (P : list A -> Prop) :
  P [] -> (forall l, (0 < length l < 3)%nat -> P l) ->
  (forall a b c l, P l -> P (a :: b :: c :: l)) -> forall l, P l.
Proof.
  intros H0 H1 H3. refine (fix go l := _).
  destruct l as [|a [|b [|c l]]]; [exact H0|apply H1; simpl; lia|apply H1; simpl; lia|].
  apply H3, go.
Qed.

Lemma chunks3_short {A} (l : list A) : (0 < length l < 3)%nat -> chunks3 l = [l].
Proof. destruct l as [|a [|b [|c l]]]; simpl; done || lia. Qed.

Lemma base64_decode_chunks l : base64_decode (chunks3 l ≫= encode_chunk) = Some l.
Proof.
  induction l as [|l Hl|a b c l IH] using chunks3_ind; [done| |].
  - rewrite chunks3_short by done. cbn [mbind list_bind].
    destruct (decode_encode_chunk l ltac:(lia)) as (c0 & c1 & c2 & c3 & -> & Hg & Hp).
    cbn [app base64_decode]. rewrite Hg. cbn [mbind option_bind].
    rewrite bool_decide_true by (apply Hp; lia). by rewrite bool_decide_true.
  - cbn [chunks3 mbind list_bind].
    destruct (decode_encode_chunk [a; b; c] ltac:(simpl; lia)) as (c0 & c1 & c2 & c3 & -> & Hg & Hp).
    cbn [app base64_decode]. rewrite Hg. cbn [mbind option_bind].
    rewrite bool_decide_false by (intros E%Hp; simpl in E; lia).
    change (base64_decode _) with (base64_decode (chunks3 l ≫= encode_chunk)). by rewrite IH.
Qed.

Lemma length_encode_chunk c : length (encode_chunk c) = 4%nat.
Proof. done. Qed.

Lemma length_encode_chunks l :
  length (chunks3 l ≫= encode_chunk) = (4 * ((length l + 2) / 3))%nat.
Proof.
  induction l as [|l Hl|a b c l IH] using chunks3_ind; [done| |].
  - rewrite chunks3_short by done. cbn [mbind list_bind]. rewrite length_app, length_encode_chunk.
    destruct l as [|? [|? [|]]]; simpl in *; lia.
  - cbn [chunks3 mbind list_bind]. rewrite length_app, length_encode_chunk.
    change (list_bind _ _ encode_chunk (chunks3 l)) with (chunks3 l ≫= encode_chunk).
    rewrite IH. cbn [length].
    replace (S (S (S (length l))) + 2)%nat with (length l + 2 + 1 * 3)%nat by lia.
    rewrite Nat.div_add by lia. lia.
Qed.

Lemma base64_decode_encode l : base64_decode (str_bytes (base64_encode l)) = Some l.
Proof. unfold base64_encode. rewrite str_bytes_str. apply base64_decode_chunks. Qed.

(** [base64_encode] is RFC 4648: decoding its output gives the bytes back, so distinct
    payloads never have the same text, and the text has four characters for every started
    group of three bytes. *)
Theorem base64_encode_decodes l :
  base64_decode (str_bytes (base64_encode l)) = Some l /\
  length (str_bytes (base64_encode l)) = (4 * ((length l + 2) / 3))%nat.
Proof.
  split; [apply base64_decode_encode|]. unfold base64_encode. rewrite str_bytes_str.
  apply length_encode_chunks.
Qed.

(** ** Frames *)

Lemma from_be_to_be n z : 0 <= z < 256 ^ Z.of_nat n -> Frame.from_be (Frame.to_be n z) = z.
Proof.
  intros Hz. unfold Frame.from_be, Frame.to_be. rewrite rev_involutive. by apply of_le_to_le_id.
Qed.

Lemma length_to_be n z : length (Frame.to_be n z) = n.
Proof. unfold Frame.to_be. by rewrite length_rev, length_to_le. Qed.

Lemma read_exact_app l r e : 
  Frame.read_exact (length l) (mk_Socket (l ++ r) e) = (Ok l, mk_Socket r e).
Proof.
  unfold Frame.read_exact. cbn [incoming stream_end]. rewrite length_app.
  replace (Nat.leb _ _) with true by (symmetry; apply Nat.leb_le; lia).
  by rewrite take_app_length, drop_app_length.
Qed.

Lemma read_exact_short n l e :
  (length l < n)%nat -> Frame.read_exact n (mk_Socket l e) = (Err e, mk_Socket [] e).
Proof.
  intros H. unfold Frame.read_exact. cbn [incoming stream_end].
  by replace (Nat.leb _ _) with false by (symmetry; apply Nat.leb_gt; lia).
Qed.

(** Reading after a complete header. *)
Lemma read_frame_header z l e :
  0 <= z < 2 ^ 32 ->
  Frame.read_frame (mk_Socket (Frame.to_be 4 z ++ l) e) =
    if z =? 0 then (Ok (Some []), mk_Socket l e)
    else if z >? MAX_FRAME then (Err ("frame too large: " +:+ pretty z), mk_Socket l e)
    else if Nat.leb (Z.to_nat z) (length l) then
      (Ok (Some (take (Z.to_nat z) l)), mk_Socket (drop (Z.to_nat z) l) e)
    else (Err (StreamEnd_to_string e), mk_Socket [] e).
Proof.
  intros Hz. unfold Frame.read_frame.
  rewrite <- (length_to_be 4 z) at 1. rewrite read_exact_app, from_be_to_be by (simpl; lia).
  destruct (z =? 0); [done|]. destruct (z >? MAX_FRAME); [done|].
  unfold Frame.read_exact. cbn [incoming stream_end]. by destruct (Nat.leb _ _).
Qed.

(** A frame that was written is read back. *)
Lemma read_written_frame body sent rest e :
  lenZ body < 2 ^ 32 -> Frame.write_frame body = Ok sent ->
  Frame.read_frame (mk_Socket (sent ++ rest) e) = (Ok (Some body), mk_Socket rest e).
Proof.
  intros Hl. unfold Frame.write_frame. pose proof (lenZ_nonneg body).
  rewrite Z.mod_small by done. destruct (Z.gtb_spec (lenZ body) MAX_FRAME); [done|].
  intros E. assert (sent = Frame.to_be 4 (lenZ body) ++ body) as -> by congruence.
  assert (Z.to_nat (lenZ body) = length body) as Hn by (unfold lenZ; lia).
  rewrite <- app_assoc, read_frame_header, Hn by lia.
  destruct (Z.eqb_spec (lenZ body) 0).
  { destruct body; [done|]. unfold lenZ in *. simpl in *. lia. }
  replace (lenZ body >? MAX_FRAME) with false by (symmetry; rewrite Z.gtb_ltb; apply Z.ltb_ge; lia).
  replace (Nat.leb _ _) with true by (symmetry; apply Nat.leb_le; rewrite length_app; lia).
  by rewrite take_app_length, drop_app_length.
Qed.

(** Framing: whatever [write_frame] sends for a body of at most [MAX_FRAME] bytes is
    read back by [read_frame] as that body, leaving the bytes that follow; a longer body
    (below 2^32 bytes) is refused; a frame cut in its body is an error, and a stream that
    ends before a whole header counts as closed. *)
Theorem frame_roundtrip body rest e :
  lenZ body < 2 ^ 32 ->
  match Frame.write_frame body with
  | Ok sent =>
      lenZ body <= MAX_FRAME /\
      Frame.read_frame (mk_Socket (sent ++ rest) e) = (Ok (Some body), mk_Socket rest e) /\
      forall k, (k < length sent)%nat ->
        (Frame.read_frame (mk_Socket (take k sent) UnexpectedEof)).1 =
          if Nat.ltb k 4 then Ok None else Err (StreamEnd_to_string UnexpectedEof)
  | Err m => MAX_FRAME < lenZ body /\ m = "response too large"
  | _ => False
  end.
Proof.
  intros Hl. pose proof (fun sent => read_written_frame body sent rest e Hl) as Hread.
  unfold Frame.write_frame in *. pose proof (lenZ_nonneg body).
  rewrite Z.mod_small in * by done. destruct (Z.gtb_spec (lenZ body) MAX_FRAME); [done|].
  assert (Z.to_nat (lenZ body) = length body) as Hn by (unfold lenZ; lia).
  split; [done|split]; [by apply Hread|].
  - rewrite length_app, length_to_be. intros k Hk. destruct (Nat.ltb_spec k 4).
    + unfold Frame.read_frame. rewrite read_exact_short; [done|].
      rewrite length_take, length_app, length_to_be. lia.
    + rewrite take_app_ge, length_to_be by (rewrite length_to_be; lia).
      rewrite read_frame_header by lia.
      destruct (Z.eqb_spec (lenZ body) 0); [unfold lenZ in *; lia|].
      replace (lenZ body >? MAX_FRAME) with false by (symmetry; rewrite Z.gtb_ltb; apply Z.ltb_ge; lia).
      rewrite length_take. by replace (Nat.leb _ _) with false by (symmetry; apply Nat.leb_gt; lia).
Qed.

Lemma frame_roundtrip_witness :
  match Frame.write_frame (str_bytes "hello") with
  | Ok sent =>
      lenZ (str_bytes "hello") <= MAX_FRAME /\
      Frame.read_frame (mk_Socket (sent ++ [x01]) UnexpectedEof) =
        (Ok (Some (str_bytes "hello")), mk_Socket [x01] UnexpectedEof) /\
      forall k, (k < length sent)%nat ->
        (Frame.read_frame (mk_Socket (take k sent) UnexpectedEof)).1 =
          if Nat.ltb k 4 then Ok None else Err (StreamEnd_to_string UnexpectedEof)
  | Err m => MAX_FRAME < lenZ (str_bytes "hello") /\ m = "response too large"
  | _ => False
  end.
Proof.
  apply (frame_roundtrip (str_bytes "hello") [x01] UnexpectedEof). vm_compute. reflexivity.
Defined.

Example base64_known_vectors :
  base64_encode (str_bytes "foob") = "Zm9vYg==" /\ base64_encode (str_bytes "fooba") = "Zm9vYmE=".
Proof. vm_compute. split; reflexivity. Qed.
