(* ===== verification/Server.v ===== *)
(** * The server ([epochs-server/src/epx.rs], [state.rs])

    A connection reads request frames, dispatches them on the engine, and writes response
    frames. The store is behind one lock, held for the whole of a dispatch; so a dispatch is
    one step on the engine. serde_json is not under src/: the class [SerdeJson] stands for
    its conversions between bytes and data, [Json] for its values. *)

From Stdlib Require Import Strings.Byte Strings.String Floats.SpecFloat.
From S2P Require Import Prelude Utf8 Hash Record Cas CasStore Commit Repo DiskStore.
From S2P Require Import Chars Lexer Text BTree Ast Value Schema Engine Epx.

(** [serde_json::Value]; an object is its map in the order of the keys. *)
Inductive Json : Type :=
| JNull
| JBool (b : bool)
| JInt (n : Z)
| JFloat (f : f64)
| JString (s : string)
| JArray (l : list Json)
| JObject (m : btree Json).

(** The object of a [json!] literal. *)
Definition object (l : list (string * Json)) : Json :=
  JObject (foldl (fun m '(k, v) => btree_insert k v m) [] l).

(** [json!(n)] of a float: not a number and infinities become [null]. *)
Definition json_float (f : f64) : Json :=
  match f with S754_nan | S754_infinity _ => JNull | _ => JFloat f end.

(** [params.get(key).and_then(|v| v.as_str())]. *)
Definition get_str (key : string) (params : Json) : option string :=
  match params with
  | JObject m => match btree_get key m with Some (JString s) => Some s | _ => None end
  | _ => None
  end.

Inductive JsonExecResult :=
| JQuery (columns : list string) (rows : list (list Json))
| JMutation (summary : string) (hash : option string).

Record Request := mk_Request { req_id : Z; method : string; params : Json }.

(** The text of an error; that of the engine is kept unrendered. *)
Inductive ErrorText := EText (s : string) | EExec (e : ExecError).

Record Response := mk_Response {
  resp_id : Z;
  ok : bool;
  result : option Json;
  error : option ErrorText
}.

Class SerdeJson := {
  from_slice : list byte -> outcome string Request;
  to_value : list JsonExecResult -> outcome string Json;
  to_vec : Response -> outcome string (list byte)
}.

Fixpoint value_to_json (v : Value) : Json :=
  match v with
  | VNull => JNull
  | VBool b => JBool b
  | VInt n => JInt n
  | VFloat n => json_float n
  | VString s => JString s
  | VMap m => JObject (foldl (fun m '(k, v) => btree_insert k (value_to_json v) m) [] m)
  end.

Definition json_exec_result (r : ExecResult) : JsonExecResult :=
  match r with
  | RQuery q => JQuery (columns q) (List.map (fun row => List.map value_to_json row) (rows q))
  | RMutation m => JMutation (summary m) (result_hash m)
  end.

Definition results_to_json `{SerdeJson} (results : list JsonExecResult) : Json :=
  match to_value results with Ok v => v | _ => JArray [] end.

Definition record_type_name (ty : RecordType) : string :=
  match ty with
  | Record.TCommit => "commit"
  | THamtBitmap => "hamt_bitmap"
  | THamtLeaf => "hamt_leaf"
  end.

Module Server.
Section server.
Context `{Blake3, MmapLib, SerdeJson}.
Context (fuel : nat) (version : string).

Abbreviation M := (stM Engine ErrorText).

(** Calls on the store, their errors as texts. *)
Definition on_store {A} (m : stM DiskStore EpochsError A) : M A :=
  zoom store Exec.set_store (catch_err (fun e => EText (EpochsError_to_string e)) m).

Definition run_query (sql : string) : M (list JsonExecResult) :=
  results ← catch_err EExec (Exec.execute fuel sql);
  mret (json_exec_result <$> results).

(** The loop of [list_branch_tips]. *)
Fixpoint branch_tips (names : list string) (out : list (string * string)) :
    M (list (string * string)) :=
  match names with
  | [] => mret out
  | name :: names =>
      tip ← on_store (Disk.get_branch name);
      branch_tips names (out ++ [(name, Hash.to_string (branch_target tip))])
  end.

Definition list_branch_tips : M (list (string * string)) := fun e =>
  branch_tips (Disk.list_branches (store e)) [] e.

Definition get_cas_object (hash_hex : string) : M Json :=
  hash ← lift (map_err (fun e => EText (EpochsError_to_string e)) (from_hex hash_hex));
  o ← on_store (Disk.get_object hash);
  mret (object [("hash", JString (Hash.to_string hash));
                ("type", JString (record_type_name o.1));
                ("payload_base64", JString (base64_encode o.2));
                ("len", JInt (lenZ o.2))]).

Definition hello : Json :=
  object [("protocol", JString "epx"); ("version", JInt 1); ("server", JString version);
          ("methods", JArray (JString <$> ["hello"; "query"; "refs"; "get"]))].

(** The [match] of [dispatch]. *)
Definition call (req : Request) : M Json :=
  if String.eqb (method req) "hello" then mret hello
  else if String.eqb (method req) "query" then
    let sql := default EmptyString (get_str "sql" (params req)) in
    if String.eqb sql EmptyString then fail (EText "params.sql required")
    else
      results ← run_query sql;
      mret (object [("results", results_to_json results)])
  else if String.eqb (method req) "refs" then
    branches ← list_branch_tips;
    mret (object [("branches", JArray ((fun '(name, tip) =>
      object [("name", JString name); ("tip", JString tip)]) <$> branches))])
  else if String.eqb (method req) "get" then
    let hash_hex := default EmptyString (get_str "hash" (params req)) in
    if String.eqb hash_hex EmptyString then fail (EText "params.hash required")
    else get_cas_object hash_hex
  else fail (EText ("unknown method '" +:+ method req +:+ "'")).

(** [dispatch]; a panic or want of fuel in the engine is passed on. *)
Definition dispatch (req : Request) : stM Engine string Response := fun e =>
  match call req e with
  | (Ok value, e) => (Ok (mk_Response (req_id req) true (Some value) None), e)
  | (Err error, e) => (Ok (mk_Response (req_id req) false None (Some error)), e)
  | (Panic, e) => (Panic, e)
  | (OutOfFuel, e) => (OutOfFuel, e)
  end.

(** A connection: its socket, what it has sent, and the engine it shares. *)
Record Conn := mk_Conn { socket : Socket; sent : list byte; engine : Engine }.

Definition set_socket (s : Socket) (c : Conn) : Conn := mk_Conn s (sent c) (engine c).
Definition set_engine (e : Engine) (c : Conn) : Conn := mk_Conn (socket c) (sent c) e.

(** [write_frame], when the socket takes what is written. *)
Definition write_response (resp : Response) : stM Conn string unit := fun c =>
  match to_vec resp with
  | Ok body =>
      match Frame.write_frame body with
      | Ok bytes => (Ok tt, mk_Conn (socket c) (sent c ++ bytes) (engine c))
      | Err e => (Err e, c)
      | Panic => (Panic, c)
      | OutOfFuel => (OutOfFuel, c)
      end
  | Err e => (Err e, c)
  | Panic => (Panic, c)
  | OutOfFuel => (OutOfFuel, c)
  end.

(** The loop of [handle_conn]. *)
Fixpoint handle_conn (loop_fuel : nat) : stM Conn string unit :=
  match loop_fuel with
  | O => no_fuel
  | S loop_fuel =>
      req ← zoom socket set_socket Frame.read_frame;
      match req with
      | None => mret tt
      | Some bytes =>
          parsed ← lift (from_slice bytes);
          resp ← zoom engine set_engine (dispatch parsed);
          _ ← write_response resp;
          handle_conn loop_fuel
      end
  end.

End server.
End Server.
