(* ===== verification/ServerSpec.v ===== *)
(** * What the server answers

    A connection answers requests in their order with responses of the same ids, and ends at
    the first it cannot answer; [get] serves the object a hash names; requests other than
    queries change nothing. *)

From Stdlib Require Import Strings.Byte Strings.String.
From S2P Require Import Prelude Utf8 Hash Codec Record Cache Index Cas HamtNode Hamt HamtTree HamtProofs HamtSpec CasStore CasStoreProofs CasStoreSpec Commit Bfs Dag Repo DiskStore DiskStoreSpec.
From S2P Require Import Chars Lexer ParserProofs Text BTree Ast Value Schema Engine Reads EngineSpec Epx Server.

Section spec.
Context `{Blake3, !MmapLib, !MmapLaws, !SerdeJson}.
Context (fuel : nat) (version : string).

Abbreviation dispatch := (Server.dispatch fuel version).

(** ** A connection *)

(** The frame of a body: its length in four bytes, the highest first, and the body. *)
Definition frame (body : list byte) : list byte := Frame.to_be 4 (lenZ body mod 2 ^ 32) ++ body.

(** An answered request: the request, its response and the bytes of the response. *)
Abbreviation exchange := (Request * Response * list byte)%type.

(** [answers e bodies log e' rest]: from the engine [e], the first bodies are requests that
    were dispatched one after the other and answered; [e'] is the engine after them and [rest]
    the bodies after them. *)
Inductive answers : Engine -> list (list byte) -> list exchange -> Engine -> list (list byte) -> Prop :=
| answers_none e bodies : answers e bodies [] e bodies
| answers_one e body bodies req resp out e1 log e' rest :
    from_slice body = Ok req -> dispatch req e = (Ok resp, e1) ->
    to_vec resp = Ok out -> lenZ out mod 2 ^ 32 <= MAX_FRAME ->
    answers e1 bodies log e' rest ->
    answers e (body :: bodies) ((req, resp, out) :: log) e' rest.

(** Why a connection ends, in which result and which engine: everything is answered; a body is
    no request; a statement panics; a response cannot be serialized, or is too large. The last
    rule is of the model: the fuel of the engine did not suffice. *)
Inductive ends : Engine -> list (list byte) -> outcome string unit -> Engine -> Prop :=
| ends_answered e : ends e [] (Ok tt) e
| ends_bad_request e body rest x : from_slice body = Err x -> ends e (body :: rest) (Err x) e
| ends_panic e body rest req e1 :
    from_slice body = Ok req -> dispatch req e = (Panic, e1) -> ends e (body :: rest) Panic e1
| ends_no_text e body rest req resp e1 x :
    from_slice body = Ok req -> dispatch req e = (Ok resp, e1) -> to_vec resp = Err x ->
    ends e (body :: rest) (Err x) e1
| ends_too_large e body rest req resp e1 out :
    from_slice body = Ok req -> dispatch req e = (Ok resp, e1) -> to_vec resp = Ok out ->
    MAX_FRAME < lenZ out mod 2 ^ 32 -> ends e (body :: rest) (Err "response too large") e1
| ends_no_fuel e body rest req e1 :
    from_slice body = Ok req -> dispatch req e = (OutOfFuel, e1) -> ends e (body :: rest) OutOfFuel e1.

Lemma dispatch_id req e resp e' : dispatch req e = (Ok resp, e') ->
  resp_id resp = req_id req /\
  (ok resp = true /\ is_Some (result resp) /\ error resp = None \/
   ok resp = false /\ result resp = None /\ is_Some (error resp)).
Proof.
  unfold Server.dispatch. destruct (Server.call fuel version req e) as [[v|x| |] e1]; try done;
    intros [= <- _]; (split; [done|]); [left|right]; cbn; eauto.
Qed.

Lemma answers_ids e bodies log e' rest :
  answers e bodies log e' rest ->
  Forall (fun '(req, resp, _) => resp_id resp = req_id req /\
    (ok resp = true /\ is_Some (result resp) /\ error resp = None \/
     ok resp = false /\ result resp = None /\ is_Some (error resp))) log.
Proof. induction 1 as [|e body bodies req resp out e1 log e' rest ? Hd ? ? _ IH]; constructor; [by eapply dispatch_id|done]. Qed.

Lemma dispatch_no_error req e x e' : dispatch req e ≠ (Err x, e').
Proof. unfold Server.dispatch. by destruct (Server.call fuel version req e) as [[] ?]. Qed.

Lemma read_frame_of body rest :
  lenZ body <= MAX_FRAME ->
  Frame.read_frame (mk_Socket (frame body ++ rest) UnexpectedEof) =
    (Ok (Some body), mk_Socket rest UnexpectedEof).
Proof.
  intros Hl. pose proof (lenZ_nonneg body). assert (lenZ body < 2 ^ 32) by (unfold MAX_FRAME in Hl; lia).
  apply read_written_frame; [done|]. unfold Frame.write_frame, frame. rewrite Z.mod_small by done.
  by destruct (Z.gtb_spec (lenZ body) MAX_FRAME); [lia|].
Qed.

Lemma handle_conn_answers bodies tail sent0 e :
  (forall body, returns (from_slice body)) -> (forall resp, returns (to_vec resp)) ->
  Forall (fun body => lenZ body <= MAX_FRAME) bodies -> (length tail < 4)%nat ->
  let '(r, c) := Server.handle_conn fuel version (S (length bodies))
    (Server.mk_Conn (mk_Socket (concat (map frame bodies) ++ tail) UnexpectedEof) sent0 e) in
  exists log e1 rest, answers e bodies log e1 rest /\
    Server.sent c = sent0 ++ concat (map (fun x => frame x.2) log) /\
    ends e1 rest r (Server.engine c).
Proof.
  intros Hslice Hvec Hb Ht. revert sent0 e.
  induction Hb as [|body bodies Hl _ IH]; intros sent0 e.
  - cbn [Server.handle_conn length]. rewrite stM_bind_eq. unfold zoom at 1. cbn [Server.socket map concat app].
    unfold Frame.read_frame. rewrite read_exact_short by done.
    exists [], e, []. split; [constructor|]. split; [by rewrite app_nil_r|constructor].
  - cbn [map concat length]. remember (S (length bodies)) as n. cbn [Server.handle_conn].
    rewrite stM_bind_eq. unfold zoom at 1. cbn [Server.socket].
    rewrite <- (assoc_L (++)), read_frame_of by done.
    rewrite stM_bind_eq. unfold lift at 1. specialize (Hslice body) as Hs.
    destruct (from_slice body) as [req|x| |] eqn:Hreq; try done.
    2: { exists [], e, (body :: bodies). split; [constructor|]. split; [by rewrite app_nil_r|by constructor]. }
    rewrite stM_bind_eq. unfold zoom at 1. cbn [Server.engine Server.set_socket].
    destruct (dispatch req e) as [[resp|x| |] e1] eqn:Hd;
      [|by destruct (dispatch_no_error _ _ _ _ Hd)|
        exists [], e, (body :: bodies); split; [constructor|]; split; [by rewrite app_nil_r|by econstructor]..].
    rewrite stM_bind_eq. unfold Server.write_response at 1. specialize (Hvec resp) as Hv.
    destruct (to_vec resp) as [out|x| |] eqn:Hout; try done.
    2: { exists [], e, (body :: bodies). split; [constructor|]. split; [by rewrite app_nil_r|by econstructor]. }
    unfold Frame.write_frame. destruct (Z.gtb_spec (lenZ out mod 2 ^ 32) MAX_FRAME) as [Hbig|Hfit].
    { exists [], e, (body :: bodies). split; [constructor|]. split; [by rewrite app_nil_r|by econstructor]. }
    subst n. specialize (IH (sent0 ++ frame out) e1).
    unfold Server.set_engine, Server.set_socket. cbn [Server.socket Server.sent Server.engine].
    fold (frame out).
    destruct (Server.handle_conn fuel version (S (length bodies)) _) as [r c].
    destruct IH as (log & e2 & rest & Ha & Hsent & He).
    exists ((req, resp, out) :: log), e2, rest. split; [by econstructor|]. split; [|done].
    rewrite Hsent. cbn. by rewrite <- (assoc_L (++)).
Qed.

(** ** Requests that read *)

#[local] Instance server_on_store {A} e0 (m : stM DiskStore EpochsError A) :
  ReadOnly (view (store e0)) m -> ReadOnly (engine_view e0) (Server.on_store m).
Proof.
  intros Hm e [Hv Hf]. unfold Server.on_store, zoom, catch_err. specialize (Hm (store e) Hv).
  destruct (m (store e)) as [r s']. destruct Hm as [Hv' _]. by split.
Qed.

#[local] Instance ro_get_object s h : ReadOnly (view s) (Disk.get_object h).
Proof.
  unfold Disk.get_object. apply view_on_cas. eapply keeps_mono; [apply keeps_get_payload|done].
Qed.

#[local] Instance ro_branch_tips e0 names out :
  ReadOnly (engine_view e0) (Server.branch_tips names out).
Proof. revert out. induction names as [|n names IH]; intros out; cbn [Server.branch_tips]; ro. Qed.

Lemma ro_call e0 req :
  method req ≠ "query" -> ReadOnly (engine_view e0) (Server.call fuel version req).
Proof.
  intros Hq. unfold Server.call. destruct (String.eqb (method req) "hello"); [ro|].
  apply String.eqb_neq in Hq. rewrite Hq.
  assert (ReadOnly (engine_view e0) Server.list_branch_tips) as Htips.
  { intros e He. unfold Server.list_branch_tips. by apply ro_branch_tips. }
  unfold Server.get_cas_object. ro.
Qed.

(** What [get] runs. *)
Lemma call_get req e h :
  method req = "get" -> get_str "hash" (params req) = Some (Hash.to_string h) ->
  Server.call fuel version req e =
    let '(r, c') := Store.get_payload h (ds_cas (store e)) in
    (match r with
     | Ok (ty, p) => Ok (object [("hash", JString (Hash.to_string h)); ("type", JString (record_type_name ty));
                       ("payload_base64", JString (base64_encode p)); ("len", JInt (lenZ p))])
     | Err x => Err (EText (EpochsError_to_string x))
     | Panic => Panic
     | OutOfFuel => OutOfFuel
     end, Exec.set_store (Disk.set_cas c' (store e)) e).
Proof.
  intros Hm Hh. unfold Server.call. rewrite Hm, Hh. cbn [String.eqb Ascii.eqb Bool.eqb default from_option id].
  assert (String.eqb (Hash.to_string h) EmptyString = false) as ->.
  { apply String.eqb_neq. intros E. apply (f_equal (fun s => length (str_bytes s))) in E.
    cbv beta in E. by rewrite str_bytes_to_string, length_hex, length_as_bytes in E. }
  unfold Server.get_cas_object. rewrite from_hex_to_string. rewrite stM_bind_eq. cbn [map_err lift].
  rewrite stM_bind_eq. unfold Server.on_store, zoom, catch_err, Disk.get_object, Disk.on_cas, zoom.
  by destruct (Store.get_payload h (ds_cas (store e))) as [[[ty p]| | |] c'].
Qed.

Lemma dispatch_view req e :
  disk_ok (store e) -> method req ≠ "query" -> engine_view e (dispatch req e).2.
Proof.
  intros Hok Hq. pose proof (ro_call e req Hq e (engine_view_refl e Hok)) as Hro.
  unfold Server.dispatch. destruct (Server.call fuel version req e) as [[] e'];
    destruct Hro as [Hro _]; done.
Qed.

End spec.

(** C25: A connection answers in order. Let a client send request frames, each of at most
    [MAX_FRAME] bytes, and then close its side, perhaps within the header of another frame. The
    server dispatches the requests one after the other on the engine and sends one frame for
    each, in their order: its response, with its id, that is a result or an error and never
    both. It goes on until every request is answered, and then the connection ends without
    error; or until a request that it leaves unanswered, as it closes the connection: one that
    is no JSON request, one whose statement panics (such as [COMMIT .. PARENTS []]), or one
    whose response cannot be serialized or is longer than [MAX_FRAME] (its length taken as 32
    bits) - but what that request did to the engine stays done. serde_json is assumed to return
    a value or an error. *)
Theorem connection_answers `{Blake3, !MmapLib, !SerdeJson} (fuel : nat) (version : string)
    (bodies : list (list byte)) (tail : list byte) (e : Engine) :
  (forall body, returns (from_slice body)) -> (forall resp, returns (to_vec resp)) ->
  Forall (fun body => lenZ body <= MAX_FRAME) bodies -> (length tail < 4)%nat ->
  let '(r, c) := Server.handle_conn fuel version (S (length bodies))
    (Server.mk_Conn (mk_Socket (concat (map frame bodies) ++ tail) UnexpectedEof) [] e) in
  exists log e1 rest, answers fuel version e bodies log e1 rest /\
    Forall (fun '(req, resp, _) => resp_id resp = req_id req /\
      (ok resp = true /\ is_Some (result resp) /\ error resp = None \/
       ok resp = false /\ result resp = None /\ is_Some (error resp))) log /\
    Server.sent c = concat (map (fun x => frame x.2) log) /\
    ends fuel version e1 rest r (Server.engine c).
Proof.
  intros Hslice Hvec Hb Ht.
  pose proof (handle_conn_answers fuel version bodies tail [] e Hslice Hvec Hb Ht) as Hc.
  destruct (Server.handle_conn _ _ _ _) as [r c]. destruct Hc as (log & e1 & rest & Ha & Hs & He).
  exists log, e1, rest. split; [done|]. split; [by eapply answers_ids|done].
Qed.

(** [get] is content-addressed. Asked for a hash, the server answers with the object stored
    under it - a payload whose hash it is, in a base64 text that decodes to it - or, when
    there is none, with an error; the repository stays as it is. *)
Theorem get_serves_object `{Blake3, !MmapLib, !MmapLaws, !SerdeJson} (fuel : nat)
    (version : string) (req : Request) (h : Hash) (e : Engine) :
  disk_ok (store e) -> method req = "get" ->
  get_str "hash" (params req) = Some (Hash.to_string h) ->
  let '(r, e') := Server.dispatch fuel version req e in
  engine_view e e' /\
  match disk_objects (store e) !! h with
  | Some (ty, p) =>
      r = Ok (mk_Response (req_id req) true
        (Some (object [("hash", JString (Hash.to_string h)); ("type", JString (record_type_name ty));
                       ("payload_base64", JString (base64_encode p)); ("len", JInt (lenZ p))])) None) /\
      of_bytes p = h /\ base64_decode (str_bytes (base64_encode p)) = Some p
  | None => r = Ok (mk_Response (req_id req) false None
              (Some (EText (EpochsError_to_string (Storage (NotFound h))))))
  end.
Proof.
  intros Hok Hm Hh. pose proof (dispatch_view fuel version req e Hok) as Hv.
  rewrite Hm in Hv. specialize (Hv ltac:(discriminate)).
  unfold Server.dispatch in *. rewrite (call_get _ _ _ _ h Hm Hh) in *.
  pose proof (get_payload_ok (ds_cas (store e)) h (disk_cas _ Hok)) as Hg.
  destruct (Store.get_payload h (ds_cas (store e))) as [r c']. destruct Hg as (_ & _ & ->).
  unfold disk_objects. destruct (store_objects (ds_cas (store e)) !! h) as [[ty p]|] eqn:Ho;
    cbn [ok_or] in *; (split; [exact Hv|]); [|done].
  split; [done|]. split; [|apply base64_decode_encode].
  symmetry. by eapply objects_hash; [apply Hok|].
Qed.

Section witnesses.

#[local] Existing Instance toy_hash.
#[local] Existing Instance id_mmap.
#[local] Existing Instance id_mmap_laws.

(** Requests that are the names of their methods, responses that are their ids. *)
#[local] Instance ex_serde : SerdeJson := {
  from_slice body := Ok (mk_Request (lenZ body) (bytes_str body) JNull);
  to_value _ := Ok JNull;
  to_vec resp := Ok [as_u8 (resp_id resp); as_u8 (if ok resp then 1 else 0)]
}.

Definition ex_bodies : list (list byte) := [str_bytes "refs"; str_bytes "drop"; str_bytes "hello"].

Lemma connection_answers_witness :
  let '(r, c) := Server.handle_conn 70 "1" (S (length ex_bodies))
    (Server.mk_Conn (mk_Socket (concat (map frame ex_bodies) ++ [x00]) UnexpectedEof) [] ex_engine) in
  exists log e1 rest, answers 70 "1" ex_engine ex_bodies log e1 rest /\
    Forall (fun '(req, resp, _) => resp_id resp = req_id req /\
      (ok resp = true /\ is_Some (result resp) /\ error resp = None \/
       ok resp = false /\ result resp = None /\ is_Some (error resp))) log /\
    Server.sent c = concat (map (fun x => frame x.2) log) /\
    ends 70 "1" e1 rest r (Server.engine c).
Proof.
  apply (connection_answers 70 "1" ex_bodies [x00] ex_engine).
  - intros body. exact Logic.I.
  - intros resp. exact Logic.I.
  - repeat constructor; vm_compute; discriminate.
  - apply Nat.ltb_lt. reflexivity.
Defined.

(** What is sent there: the ids of the three requests, the second refused. *)
Example ex_answered :
  let '(r, c) := Server.handle_conn 70 "1" (S (length ex_bodies))
    (Server.mk_Conn (mk_Socket (concat (map frame ex_bodies) ++ [x00]) UnexpectedEof) [] ex_engine) in
  r = Ok tt /\ Server.sent c = concat (map frame [[x04; x01]; [x04; x00]; [x05; x01]]).
Proof. vm_compute. split; reflexivity. Qed.

Definition ex_get : Request :=
  mk_Request 7 "get" (object [("hash", JString (Hash.to_string ex_tip))]).

Lemma get_serves_object_witness :
  let '(r, e') := Server.dispatch 70 "1" ex_get ex_engine in
  engine_view ex_engine e' /\
  match disk_objects (store ex_engine) !! ex_tip with
  | Some (ty, p) =>
      r = Ok (mk_Response (req_id ex_get) true
        (Some (object [("hash", JString (Hash.to_string ex_tip)); ("type", JString (record_type_name ty));
                       ("payload_base64", JString (base64_encode p)); ("len", JInt (lenZ p))])) None) /\
      of_bytes p = ex_tip /\ base64_decode (str_bytes (base64_encode p)) = Some p
  | None => r = Ok (mk_Response (req_id ex_get) false None
              (Some (EText (EpochsError_to_string (Storage (NotFound ex_tip))))))
  end.
Proof.
  pose proof (get_serves_object 70 "1" ex_get ex_tip ex_engine (proj1 ex_disk2_ok) eq_refl) as Hp.
  apply Hp. vm_compute. reflexivity.
Defined.

End witnesses.
