(* ===== verification/Cli.v ===== *)
(** * The command line ([epochs-cli/src/main.rs])

    The commands, over a host: its directories, the contents of the repositories under
    their paths, the clock, and the lines written to standard output. A path is the text of
    a relative or absolute path. clap reads the arguments: [Args] is what it returns.
    [open_or_init] of the server ([epochs-server/src/state.rs]) is here too. *)

From Stdlib Require Import Strings.Byte Strings.String.
From S2P Require Import Prelude Utf8 Hash Cache Cas CasStore Commit Repo DiskStore.
From S2P Require Import Chars Lexer Text BTree Ast Parser Value Schema Engine.

(** ** Texts and paths *)

(** [str::replace] of an ASCII character. *)
Definition replace_char (c : byte) (by_ : list byte) (l : list byte) : list byte :=
  l ≫= fun b => if decide (b = c) then by_ else [b].

(** [str::split_once] at an ASCII character. *)
Fixpoint split_once (sep : byte) (l : list byte) : option (list byte * list byte) :=
  match l with
  | [] => None
  | b :: l =>
      if decide (b = sep) then Some ([], l)
      else '(k, v) ← split_once sep l; Some (b :: k, v)
  end.

(** [Path::join] with a relative path. *)
Definition join (p q : string) : string :=
  match last (str_bytes p) with
  | None => q
  | Some b => if decide (b = "/"%byte) then p +:+ q else p +:+ "/" +:+ q
  end.

(** The components of a path, without the ones [Path] ignores. *)
Fixpoint components (before l : list byte) : list (list byte) :=
  match l with
  | [] => if decide (before = [] \/ before = ["."%byte]) then [] else [before]
  | b :: l =>
      if decide (b = "/"%byte) then
        (if decide (before = [] \/ before = ["."%byte]) then [] else [before]) ++ components [] l
      else components (before ++ [b]) l
  end.

(** [Path::file_name]. *)
Definition file_name (p : string) : option string :=
  match last (components [] (str_bytes p)) with
  | None => None
  | Some c => if decide (c = ["."%byte; "."%byte]) then None else Some (bytes_str c)
  end.

(** ** The host *)

(** The contents of a repository; [index.epi] may be missing. *)
Record RepoDir := mk_RepoDir {
  dir_refs : gmap string ref_node;
  dir_head : option (list byte);
  dir_data : DataDir;
  dir_index : option (list byte);
  dir_schema : SchemaFiles
}.

Definition empty_dir : RepoDir := mk_RepoDir ∅ None ∅ None (mk_SchemaFiles None None None).

Record Host := mk_Host {
  host_dirs : gset string;
  host_files : gset string;         (* the other files, outside of the repositories *)
  host_repos : gmap string RepoDir;
  host_now : Z;                     (* SystemTime::now in milliseconds *)
  host_out : list string
}.

Inductive CliError :=
| CStorage (e : EpochsError)
| CParse (e : ParseError)
| CExec (e : ExecError)
| CText (s : string).

Module Host.
Section host.
Context `{Blake3, MmapLib}.

Abbreviation M := (stM Host CliError).

Definition set_dirs (d : gset string) (h : Host) : Host :=
  mk_Host d (host_files h) (host_repos h) (host_now h) (host_out h).
Definition set_repos (r : gmap string RepoDir) (h : Host) : Host :=
  mk_Host (host_dirs h) (host_files h) r (host_now h) (host_out h).

Definition println (s : string) : M unit := modify (fun h =>
  mk_Host (host_dirs h) (host_files h) (host_repos h) (host_now h) (host_out h ++ [s])).

Definition is_dir (p : string) (h : Host) : bool := bool_decide (p ∈ host_dirs h).
Definition exists_path (p : string) (h : Host) : bool :=
  bool_decide (p ∈ host_dirs h) || bool_decide (p ∈ host_files h).

Definition file_exists_msg : string := "File exists (os error 17)".

(** [fs::create_dir_all]. *)
Definition create_dir_all (p : string) : M unit := fun h =>
  let above := filter (fun d => d ≠ EmptyString) (parent_dirs [] (str_bytes p)) in
  if decide (p ∈ host_files h) then (Err (CStorage (Io file_exists_msg)), h)
  else if decide (Exists (fun d => d ∈ host_files h) above) then
    (Err (CStorage (Io not_dir_msg)), h)
  else (Ok tt, set_dirs (list_to_set (p :: above) ∪ host_dirs h) h).

Definition repo_dir (p : string) (h : Host) : RepoDir := default empty_dir (host_repos h !! p).
Definition put_dir (p : string) (d : RepoDir) : M unit :=
  modify (fun h => set_repos (<[p := d]> (host_repos h)) h).

(** What a store leaves in its directory when it is dropped. *)
Definition closed (s : DiskStore) (schema : SchemaFiles) : RepoDir :=
  let '(data, epi) := Store.drop_store (ds_cas s) in
  mk_RepoDir (repo_refs (ds_repo s)) (repo_head_file (ds_repo s)) data (Some epi) schema.

(** Use a store until it is dropped, whatever the outcome. *)
Definition use_store {A} (p : string) (s : DiskStore) (m : stM Engine CliError A) : M A := fun h =>
  let '(r, e) := m (mk_Engine s (dir_schema (repo_dir p h))) in
  (r, set_repos (<[p := closed (store e) (files e)]> (host_repos h)) h).

(** [DiskStore::open] at a path; the process has taken no timestamp yet. *)
Definition open_at (p : string) (h : Host) : Result DiskStore :=
  let d := repo_dir p h in
  Disk.open p (exists_path (join p "data") h) (dir_refs d) (dir_head d) (dir_data d)
    (default [] (dir_index d)) 0 (host_now h).

Definition with_store {A} (p : string) (m : stM Engine CliError A) : M A :=
  s ← (fun h => (map_err CStorage (open_at p h), h)) : M DiskStore;
  use_store p s m.

Definition on_store {A} (m : stM DiskStore EpochsError A) : stM Engine CliError A :=
  zoom store Exec.set_store (catch_err CStorage m).

(** The HEAD that [Repo::init] writes when there is none. *)
Definition write_head (p : string) : M unit := fun h =>
  let d := repo_dir p h in
  let repo := RepoOps.init (dir_refs d) (dir_head d) in
  put_dir p (mk_RepoDir (dir_refs d) (repo_head_file repo) (dir_data d) (dir_index d)
    (dir_schema d)) h.

(** [DiskStore::init] at a path: the directories and HEAD of [Repo::init], the store, the
    genesis; then the use of the store. *)
Definition create_at (p : string) (h : Host) : Result DiskStore :=
  let d := repo_dir p h in
  Disk.init_store (dir_refs d) (dir_head d) (dir_data d) (default [] (dir_index d)) 0 (host_now h).

Definition init_at {A} (p branch message : string) (m : Hash -> stM Engine CliError A) : M A :=
  _ ← create_dir_all (join p "data");
  _ ← create_dir_all (join p "refs/heads");
  _ ← write_head p;
  s ← (fun h => (map_err CStorage (create_at p h), h)) : M DiskStore;
  use_store p s (root ← on_store (Disk.init branch message); m root).

(** The server's [open_or_init], and the use of the store it returns. *)
Definition open_or_init {A} (p branch : string) (m : stM Engine CliError A) : M A :=
  _ ← create_dir_all p;
  d ← gets (repo_dir p);
  if bool_decide (is_Some (dir_head d)) || bool_decide (is_Some (dir_index d)) then
    with_store p m
  else init_at p branch "epochs-server genesis" (fun _ => m).

End host.
End Host.

(** ** The commands *)

(** [Commands] and [Cli], as clap reads them. *)
Inductive Commands :=
| CmdInit (branch : string)
| CmdCommit (message : option string) (set_ : list string)
| CmdBranch (name : string) (from : option string)
| CmdCheckout (target : string)
| CmdMigrate (dir : string)
| CmdQuery (query : string).

Record Args := mk_Args { arg_path : string; command : Commands }.

Module Cli.
Section cli.
Context `{Blake3, MmapLib}.
Context (fuel : nat).

Abbreviation M := (stM Host CliError).

Definition is_epochs_repo (p : string) (h : Host) : bool := Host.is_dir (join p "data") h.

Definition looks_like_epochs_dirname (p : string) : bool :=
  bool_decide (file_name p = Some ".epochs").

Definition repo_path_for_init (project : string) (h : Host) : string :=
  if is_epochs_repo project h || looks_like_epochs_dirname project then project
  else join project ".epochs".

Definition resolve_repo (p : string) (h : Host) : outcome CliError string :=
  if is_epochs_repo p h then Ok p
  else
    let nested := join p ".epochs" in
    if is_epochs_repo nested h then Ok nested
    else if Host.is_dir (join p "migrations") h || Host.is_dir (join nested "migrations") h then
      Err (CText ("found migrations but no epochs repository under " +:+ p +:+
                  " (run: epochs init -C " +:+ p +:+ ")"))
    else
      Err (CText ("no epochs repository at " +:+ p +:+ " or " +:+ nested +:+
                  " (run: epochs init)")).

Definition init_migration : list byte := str_bytes "-- Example schema migration. Uncomment and run: epochs migrate .
-- CREATE COLLECTION items KEY id STRING;
-- CREATE INDEX ON items (id);
".

(** [fs::write] into the directory of the migrations. *)
Definition write_migration (p name : string) (contents : list byte) : M unit := fun h =>
  let d := Host.repo_dir p h in
  let schema := dir_schema d in
  Host.put_dir p (mk_RepoDir (dir_refs d) (dir_head d) (dir_data d) (dir_index d)
    (mk_SchemaFiles (schema_state schema) (schema_lock schema)
       (Some (<[name := contents]> (default ∅ (migrations schema)))))) h.

Definition cmd_init (data_dir branch : string) : M unit :=
  found ← gets (Host.exists_path data_dir);
  if (found : bool) then fail (CText ("repository already exists: " +:+ data_dir))
  else
    root ← Host.init_at data_dir branch "Initial commit" mret;
    _ ← Host.create_dir_all (join data_dir "migrations");
    _ ← write_migration data_dir "001_init.eql" init_migration;
    _ ← Host.println ("Initialized epochs repository at " +:+ data_dir);
    _ ← Host.println ("  branch: " +:+ branch);
    _ ← Host.println ("  root:   " +:+ Hash.to_string root);
    Host.println ("  migrations: " +:+ data_dir +:+ "/migrations/").

Definition parse_kv (pair : string) : Result (string * string) :=
  match split_once "="%byte (str_bytes pair) with
  | Some (k, v) =>
      if decide (k ≠ []) then Ok (bytes_str k, bytes_str v)
      else Err (Codec ("invalid key=value pair: " +:+ pair))
  | None => Err (Codec ("invalid key=value pair: " +:+ pair))
  end.

(** The two [replace] calls on a value and on the message. *)
Definition escape (s : string) : string :=
  bytes_str (replace_char x22 ["\"%byte; x22]
               (replace_char "\"%byte ["\"%byte; "\"%byte] (str_bytes s))).

Definition quoted (s : string) : string := dq +:+ escape s +:+ dq.

Definition pair_text (kv : string * string) : string := kv.1 +:+ ": " +:+ quoted kv.2.

Definition commit_text (pairs : list string) (msg : string) : string :=
  "COMMIT { " +:+ String.concat ", " pairs +:+ " } MESSAGE " +:+ quoted msg +:+ ";".

(** The commit without pairs: the snapshot of the parent. *)
Definition commit_same (msg : string) : stM Engine CliError (list string) :=
  head ← Host.on_store Disk.head;
  match head with
  | None => fail (CStorage (InvalidTarget "HEAD not set"))
  | Some head =>
      let parent := branch_target head in
      parent_commit ← Host.on_store (Disk.load_commit parent);
      let root := if decide (root_hamt parent_commit = ZERO) then None
                  else Some (root_hamt parent_commit) in
      new_hash ← Host.on_store (Disk.commit fuel [parent] root [] msg);
      _ ← Host.on_store (Disk.update_branch (branch_name head) new_hash);
      mret ["commit " +:+ Hash.to_string new_hash; "  branch: " +:+ branch_name head]
  end.

Definition execute (source : string) : stM Engine CliError (list ExecResult) :=
  catch_err CExec (Exec.execute fuel source).

Definition cmd_commit (data_dir : string) (message : option string) (set_ : list string) : M unit :=
  let msg := default "commit" message in
  lines ← Host.with_store data_dir
    (if decide (set_ = []) then commit_same msg
     else
       pairs ← lift (map_err CStorage (mapM parse_kv set_));
       results ← execute (commit_text (pair_text <$> pairs) msg);
       mret (exec_result_to_string <$> results));
  for_each lines Host.println.

Definition cmd_branch (data_dir name : string) (from : option string) : M unit :=
  let from := default "HEAD" from in
  target ← Host.with_store data_dir
    (target ←
       (if decide (to_ascii_lowercase from = "head") then
          head ← Host.on_store Disk.head;
          match head with
          | None => fail (CStorage (InvalidTarget "HEAD not set"))
          | Some b => mret (branch_target b)
          end
        else
          Host.on_store (fun s =>
            match Disk.get_branch from s with
            | (Ok branch, s) => (Ok (branch_target branch), s)
            | (_, s) => (Disk.resolve_hash_ref from s, s)
            end));
     _ ← Host.on_store (Disk.create_branch name target);
     mret target);
  Host.println ("created branch '" +:+ name +:+ "' at " +:+ Hash.to_string target).

Definition cmd_checkout (data_dir target : string) : M unit :=
  commit ← Host.with_store data_dir (Host.on_store (Disk.checkout target));
  _ ← Host.println ("commit " +:+ Hash.to_string (commit_id commit));
  _ ← Host.println ("  root_hamt: " +:+ Hash.to_string (root_hamt commit));
  Host.println ("  message:   " +:+ Commit.message commit).

(** [migrate] on the schema files of a repository. *)
Definition migrate_at (p : string) : M MigrationReport := fun h =>
  let d := Host.repo_dir p h in
  let '(r, schema) := Migrate.migrate (dir_schema d) in
  (map_err CParse r,
   Host.set_repos (<[p := mk_RepoDir (dir_refs d) (dir_head d) (dir_data d) (dir_index d) schema]>
     (host_repos h)) h).

Definition cmd_migrate (data_dir : string) : M unit :=
  let migrations := join data_dir "migrations" in
  found ← gets (Host.is_dir migrations);
  if negb (found : bool) then
    fail (CText ("no migrations directory at " +:+ migrations +:+
                 " (expected .eql files there)"))
  else
    report ← migrate_at data_dir;
    _ ← (if decide (applied report = []) then
           Host.println ("No pending migrations (" +:+ pretty (length (skipped report)) +:+
                         " already applied).")
         else
           _ ← Host.println ("Applied " +:+ pretty (length (applied report)) +:+ " migration(s):");
           for_each (applied report) (fun name => Host.println ("  " +:+ name)));
    let schema := report_schema report in
    Host.println ("Schema: " +:+ pretty (size (collections schema)) +:+ " collection(s), " +:+
                  pretty (length (Registry.all_indexes schema)) +:+ " index(es)").

(** The loop of [cmd_query] over the results. *)
Fixpoint print_results (many : bool) (i : nat) (results : list ExecResult) : M unit :=
  match results with
  | [] => mret tt
  | result :: results =>
      _ ← (if many then Host.println ("--- result " +:+ pretty (S i) +:+ " ---") else mret tt);
      _ ← Host.println (exec_result_to_string result);
      print_results many (S i) results
  end.

Definition cmd_query (data_dir query : string) : M unit :=
  results ← Host.with_store data_dir (execute query);
  print_results (bool_decide (1 < length results)%nat) 0 results.

Definition run (args : Args) : M unit :=
  let resolve p := (fun h => (resolve_repo p h, h)) : M string in
  match command args with
  | CmdInit branch =>
      repo ← gets (repo_path_for_init (arg_path args));
      cmd_init repo branch
  | CmdCommit message set_ =>
      repo ← resolve (arg_path args);
      cmd_commit repo message set_
  | CmdBranch name from =>
      repo ← resolve (arg_path args);
      cmd_branch repo name from
  | CmdCheckout target =>
      repo ← resolve (arg_path args);
      cmd_checkout repo target
  | CmdMigrate dir =>
      let project := if String.eqb dir "." then arg_path args else dir in
      repo ← resolve project;
      cmd_migrate repo
  | CmdQuery query =>
      repo ← resolve (arg_path args);
      cmd_query repo query
  end.

End cli.
End Cli.
