(* ===== verification/CliSpec.v ===== *)
(** * What the commands do

    [cmd_commit] writes its pairs into the text of a [COMMIT] statement: what that text
    means. [cmd_init] and the repository it leaves. The commit without pairs. *)

From Stdlib Require Import Strings.Byte Strings.String.
From S2P Require Import Prelude Utf8 Hash Codec Record Cache Index Cas HamtNode Hamt HamtTree HamtProofs HamtSpec CasStore CasStoreProofs CasStoreSpec Commit Bfs Dag Repo DiskStore DiskStoreSpec.
From S2P Require Import Chars Lexer LexerProofs Text BTree Ast Parser ParserProofs Grammar GrammarProofs Value Ddl Schema PathIndex Engine Reads EngineSpec EvalSpec RefsSpec CommitSpec Cli.

(** ** Escaped texts *)

(** A byte below 128 of a character is that character. *)
Lemma encode_ascii c b :
  is_scalar c = true -> byte_val b < 128 -> b ∈ encode_utf8 c -> c = byte_val b.
Proof.
  intros Hc Hb Hin. destruct (encode_utf8_spec c Hc) as [b0 E H|b0 b1 E E1 H|b0 b1 b2 E E1 E2 H|b0 b1 b2 b3 E E1 E2 E3 H];
    rewrite ?elem_of_cons, elem_of_nil in Hin; destruct_or? Hin; subst; try done;
    Z.div_mod_to_equations; lia.
Qed.

Definition esc (c : Z) : list Z :=
  if c =? char_backslash then [char_backslash; char_backslash]
  else if c =? char_quote then [char_backslash; char_quote] else [c].

Lemma replace_other c by_ l : c ∉ l -> replace_char c by_ l = l.
Proof.
  unfold replace_char. induction l as [|b l IH]; [done|]. intros [Hc Hl]%not_elem_of_cons.
  cbn [mbind list_bind]. rewrite decide_False by done. by rewrite IH.
Qed.

Lemma replace_app c by_ l k : replace_char c by_ (l ++ k) = replace_char c by_ l ++ replace_char c by_ k.
Proof. apply bind_app. Qed.

Lemma escape_char_bytes c :
  is_scalar c = true ->
  replace_char x22 ["\"%byte; x22] (replace_char "\"%byte ["\"%byte; "\"%byte] (encode_utf8 c)) =
  encode_chars (esc c).
Proof.
  intros Hc. unfold esc. destruct (Z.eqb_spec c char_backslash) as [->|N1]; [reflexivity|].
  destruct (Z.eqb_spec c char_quote) as [->|N2]; [reflexivity|].
  assert ("\"%byte ∉ encode_utf8 c) as H1.
  { intros Hin. apply N1. by apply (encode_ascii c "\"%byte). }
  assert (x22 ∉ encode_utf8 c) as H2.
  { intros Hin. apply N2. by apply (encode_ascii c x22). }
  rewrite (replace_other "\"%byte) by exact H1. rewrite replace_other by exact H2.
  unfold encode_chars. cbn [mbind list_bind]. by rewrite app_nil_r.
Qed.

Lemma escape_text cs : scalars cs -> Cli.escape (text cs) = text (cs ≫= esc).
Proof.
  intros H. unfold Cli.escape, text. rewrite str_bytes_str. f_equal.
  induction H as [|c cs Hc _ IH]; [done|]. rewrite encode_chars_cons, !replace_app, IH.
  cbn [mbind list_bind]. by rewrite encode_chars_app, escape_char_bytes.
Qed.

Lemma esc_scalars cs : scalars cs -> scalars (cs ≫= esc).
Proof.
  induction 1 as [|c cs Hc _ IH]; [constructor|]. cbn [mbind list_bind]. apply Forall_app. split; [|done].
  unfold esc. repeat case_match; by repeat constructor.
Qed.

(** The lexer reads the escaped text back. *)
Lemma esc_body cs v : str_body v (cs ≫= esc) (v +:+ text cs).
Proof.
  revert v. induction cs as [|c cs IH]; intros v.
  - replace (v +:+ text []) with v; [constructor|].
    apply (inj str_bytes). rewrite str_bytes_app. change (str_bytes (text [])) with (@nil byte).
    by rewrite app_nil_r.
  - assert (v +:+ text (c :: cs) = push v c +:+ text cs) as ->.
    { apply (inj str_bytes). unfold push, text.
      rewrite !str_bytes_app, !str_bytes_str, encode_chars_cons. by rewrite (assoc_L (++)). }
    cbn [mbind list_bind]. unfold esc at 1.
    destruct (Z.eqb_spec c char_backslash) as [->|N1]; [|destruct (Z.eqb_spec c char_quote) as [->|N2]].
    + apply (sb_escape v char_backslash), IH.
    + apply (sb_escape v char_quote), IH.
    + by apply sb_char.
Qed.

Definition quoted_chars (cs : list Z) : list Z := char_quote :: (cs ≫= esc) ++ [char_quote].

Lemma quoted_text cs : scalars cs -> Cli.quoted (text cs) = text (quoted_chars cs).
Proof.
  intros H. unfold Cli.quoted, quoted_chars. rewrite escape_text by done.
  change (char_quote :: (cs ≫= esc) ++ [char_quote]) with ([char_quote] ++ (cs ≫= esc) ++ [char_quote]).
  by rewrite !text_app.
Qed.

Lemma quoted_lexeme cs : lexeme (KString (text cs)) (quoted_chars cs).
Proof. apply lex_string_lit. apply (esc_body cs EmptyString). Qed.

(** ** Keys that are identifiers *)

Definition key_chars (cs : list Z) : bool :=
  match cs with c :: cs => word_start c && forallb word_char cs | [] => false end.

Definition plain_key (k : string) : bool := utf8_valid k && key_chars (chars_of k).

Lemma key_lexeme cs : key_chars cs = true -> lexeme (keyword_or_ident (text cs)) cs.
Proof.
  destruct cs as [|c cs]; [done|]. intros [Hc Hcs]%andb_prop. apply lex_word; [done|].
  apply Forall_forall. intros x Hx. rewrite forallb_forall in Hcs.
  apply Hcs. by apply list_elem_of_In.
Qed.

Lemma keyword_ident w : Parse.ident_kind (keyword_or_ident w) = true.
Proof.
  unfold keyword_or_ident. destruct (keyword _) as [k|] eqn:Hk; [|done].
  apply keyword_kinds in Hk.
  assert (Forall (fun k => Parse.ident_kind k = true) keywords.*2) as Hall by (by repeat constructor).
  exact (proj1 (Forall_forall _ _) Hall k Hk).
Qed.

Lemma key_word cs c : key_chars cs = true -> c ∈ cs -> word_char c = true.
Proof.
  destruct cs as [|c0 cs]; [done|]. intros [Hc Hcs]%andb_prop [->|Hin]%elem_of_cons.
  - unfold word_start in Hc. unfold word_char, is_ascii_alphanumeric.
    destruct (is_ascii_alphabetic c0); [done|]. simpl in *. rewrite Hc. by rewrite orb_true_r.
  - rewrite forallb_forall in Hcs. apply Hcs. by apply list_elem_of_In.
Qed.

(** [key=value] is split at the end of the key. *)
Lemma split_once_app sep l r : sep ∉ l -> split_once sep (l ++ sep :: r) = Some (l, r).
Proof.
  induction l as [|b l IH]; cbn [app split_once].
  - intros _. by rewrite decide_True.
  - intros [Hb Hl]%not_elem_of_cons. rewrite decide_False by congruence. by rewrite IH.
Qed.

Lemma parse_kv_plain k v : plain_key k = true -> Cli.parse_kv (k +:+ "=" +:+ v) = Ok (k, v).
Proof.
  intros [Hu Hk]%andb_prop. apply utf8_valid_text in Hu as [Hs Hk'].
  unfold Cli.parse_kv. rewrite !str_bytes_app.
  change (str_bytes "=" ++ str_bytes v) with ("="%byte :: str_bytes v).
  rewrite split_once_app.
  - rewrite decide_True; [by rewrite !bytes_str_bytes|]. intros E. rewrite <- Hk' in E.
    unfold text in E. rewrite str_bytes_str in E. destruct (chars_of k) as [|c cs]; [done|].
    rewrite encode_chars_cons in E. apply app_eq_nil in E as [E _].
    apply Forall_cons in Hs as [Hc _]. by destruct (encode_utf8_spec c Hc) in E.
  - rewrite <- Hk'. unfold text. rewrite str_bytes_str. unfold encode_chars.
    intros (c & Hb & Hc)%list_elem_of_bind.
    rewrite Forall_forall in Hs. apply encode_ascii in Hb; [|by apply Hs|done].
    pose proof (key_word _ _ Hk Hc) as Hw. subst c. by vm_compute in Hw.
Qed.

Lemma parse_kvs kvs :
  Forall (fun kv => plain_key kv.1 = true /\ utf8_valid kv.2 = true) kvs ->
  mapM Cli.parse_kv ((fun kv => kv.1 +:+ "=" +:+ kv.2) <$> kvs) = Ok kvs.
Proof.
  induction 1 as [|[k v] kvs [Hk _] _ IH]; [done|]. cbn [fmap list_fmap mapM fst snd].
  rewrite parse_kv_plain by done. cbn [mbind outcome_bind].
  change (list_fmap _ _ _ kvs) with ((fun kv => kv.1 +:+ "=" +:+ kv.2) <$> kvs). by rewrite IH.
Qed.

(** ** The statement of the pairs *)

(** The text of the pairs before [rest]: [ k: "v", k: "v"]. *)
Fixpoint entries_chars (ps : list (list Z * list Z)) (rest : list Z) : list Z :=
  match ps with
  | [] => rest
  | (k, v) :: ps =>
      [32] ++ k ++ ([] ++ [58] ++ ([32] ++ quoted_chars v ++
        match ps with [] => rest | _ => [] ++ [44] ++ entries_chars ps rest end))
  end.

Fixpoint entries_items (ps : list (list Z * list Z)) : list item :=
  match ps with
  | [] => []
  | (k, v) :: ps =>
      (keyword_or_ident (text k), text k) :: (KColon, ":") ::
      (KString (text v), text (quoted_chars v)) ::
        match ps with [] => [] | _ => (KComma, ",") :: entries_items ps end
  end.

Definition word_COMMIT : list Z := byte_val <$> str_bytes "COMMIT".
Definition word_MESSAGE : list Z := byte_val <$> str_bytes "MESSAGE".

Definition statement_chars (ps : list (list Z * list Z)) (msg : list Z) : list Z :=
  [] ++ word_COMMIT ++ ([32] ++ [123] ++ entries_chars ps ([32] ++ [125] ++
    ([32] ++ word_MESSAGE ++ ([32] ++ quoted_chars msg ++ ([] ++ [59] ++ []))))).

Definition statement_items (ps : list (list Z * list Z)) (msg : list Z) : list item :=
  (KCommit, text word_COMMIT) :: (KLBrace, "{") :: entries_items ps ++
  [(KRBrace, "}"); (KMessage, text word_MESSAGE); (KString (text msg), text (quoted_chars msg));
   (KSemicolon, ";")].

Lemma space_layout : layout false [32].
Proof. apply lay_ws; [reflexivity|constructor]. Qed.

(** A symbol of one character, before any text. *)
Lemma spelled_symbol lay k c t its :
  layout false lay -> symbol k = Some (text [c]) -> byte_val <$> str_bytes (text [c]) = [c] ->
  apart k t -> spelled t its -> spelled (lay ++ [c] ++ t) ((k, text [c]) :: its).
Proof.
  intros Hl Hk Hc Ha Hs. apply sp_item; [done| |done|done]. rewrite <- Hc. by apply lex_symbol.
Qed.

Lemma spelled_quoted v t its :
  spelled t its -> spelled ([32] ++ quoted_chars v ++ t) ((KString (text v), text (quoted_chars v)) :: its).
Proof. intros Hs. by apply sp_item; [apply space_layout|apply quoted_lexeme| |]. Qed.

Lemma spelled_word lay w t its k :
  layout false lay -> key_chars w = true -> keyword_or_ident (text w) = k -> ends_word t ->
  spelled t its -> spelled (lay ++ w ++ t) ((k, text w) :: its).
Proof.
  intros Hl Hw <- Ht Hs. apply sp_item; [done|by apply key_lexeme|by apply apart_word|done].
Qed.

Lemma entries_spelled ps rest its :
  Forall (fun kv => key_chars kv.1 = true) ps ->
  spelled rest its -> spelled (entries_chars ps rest) (entries_items ps ++ its).
Proof.
  intros Hps Hrest. induction Hps as [|[k v] ps Hk _ IH]; [done|]. cbn [entries_chars entries_items].
  apply (spelled_word [32] k); [apply space_layout|done|done|done|].
  apply (spelled_symbol [] KColon 58); [constructor|done|done|done|].
  apply spelled_quoted. destruct ps as [|p ps]; [exact Hrest|].
  apply (spelled_symbol [] KComma 44); [constructor|done|done|done|]. exact IH.
Qed.

Lemma statement_spelled ps msg :
  Forall (fun kv => key_chars kv.1 = true) ps ->
  spelled (statement_chars ps msg) (statement_items ps msg).
Proof.
  intros Hps. apply (spelled_word [] word_COMMIT); [constructor|done|done|done|].
  apply (spelled_symbol [32] KLBrace 123); [apply space_layout|done|done|done|].
  apply entries_spelled; [done|].
  apply (spelled_symbol [32] KRBrace 125); [apply space_layout|done|done|done|].
  apply (spelled_word [32] word_MESSAGE); [apply space_layout|done|done|done|].
  apply spelled_quoted, (spelled_symbol [] KSemicolon 59); [constructor|done|done|done|].
  apply sp_end. constructor.
Qed.

(** The payload of the pairs; of equal keys the last one counts. *)
Definition pairs_payload (kvs : list (string * string)) : btree Expression :=
  foldl (fun m kv => btree_insert kv.1 (EString kv.2) m) [] kvs.

Lemma entries_grammar ps acc :
  ps ≠ [] ->
  g_entries acc (foldl (fun m kv => btree_insert kv.1 (EString kv.2) m) acc
                   ((fun kv => (text kv.1, text kv.2)) <$> ps)) (entries_items ps).
Proof.
  revert acc. induction ps as [|[k v] ps IH]; intros acc Hne; [done|].
  assert (g_name (text k) (keyword_or_ident (text k), text k)) as Hk
    by (apply gn_ident, keyword_ident).
  assert (g_expr 0 (EString (text v)) [(KString (text v), text (quoted_chars v))]) as Hv
    by (apply up_to_primary; [lia|apply ge_string]).
  cbn [fmap list_fmap foldl entries_items fst snd]. destruct ps as [|p ps].
  - exact (gm_last acc _ _ ":" _ _ Hk Hv).
  - exact (gm_more acc _ _ ":" _ _ "," _ _ Hk Hv (IH _ ltac:(done))).
Qed.

Lemma statement_grammar ps msg :
  ps ≠ [] ->
  g_script [Version (VCommit (mk_CommitStmt (pairs_payload ((fun kv => (text kv.1, text kv.2)) <$> ps))
             (Some (text msg)) None))] (statement_items ps msg).
Proof.
  intros Hne. unfold statement_items. set (st := Version _).
  assert (g_statement st ((KCommit, text word_COMMIT) ::
    ((KLBrace, "{") :: entries_items ps ++ [(KRBrace, "}")]) ++
    [(KMessage, text word_MESSAGE); (KString (text msg), text (quoted_chars msg))])) as Hst.
  { apply gst_version, (gv_commit _ _ (Some (text msg), None)).
    - by apply gm_entries, entries_grammar.
    - apply (gco_message None None). constructor. }
  pose proof (gsc_more st _ ";" [] [] Hst gsc_nil) as H.
  cbn [app] in H. rewrite <- !(assoc_L (++)) in H. exact H.
Qed.

(** ** The text that [cmd_commit] builds *)

Definition texts (ps : list (list Z * list Z)) : list (string * string) :=
  (fun kv => (text kv.1, text kv.2)) <$> ps.

Definition scalar_pairs (ps : list (list Z * list Z)) : Prop :=
  Forall (fun kv => scalars kv.1 /\ scalars kv.2) ps.

Lemma quoted_scalars cs : scalars cs -> scalars (quoted_chars cs).
Proof.
  intros H. unfold quoted_chars. constructor; [done|]. apply Forall_app.
  split; [by apply esc_scalars|by repeat constructor].
Qed.

Lemma entries_scalars ps rest : scalar_pairs ps -> scalars rest -> scalars (entries_chars ps rest).
Proof.
  intros Hps Hr. induction Hps as [|[k v] ps [Hk Hv] _ IH]; [done|]. cbn [entries_chars fst snd] in *.
  apply Forall_app; split; [by repeat constructor|]. apply Forall_app; split; [done|].
  cbn [app]. do 2 (constructor; [done|]). apply Forall_app; split; [by apply quoted_scalars|].
  destruct ps; [done|]. constructor; [done|exact IH].
Qed.

Lemma statement_scalars ps msg :
  scalar_pairs ps -> scalars msg -> scalars (statement_chars ps msg).
Proof.
  intros Hps Hm. unfold statement_chars. cbn [app].
  apply Forall_app; split; [by apply (bool_decide_unpack _); vm_compute|].
  do 2 (constructor; [done|]). apply entries_scalars; [done|]. do 3 (constructor; [done|]).
  apply Forall_app; split; [by apply (bool_decide_unpack _); vm_compute|]. constructor; [done|].
  apply Forall_app; split; [by apply quoted_scalars|by repeat constructor].
Qed.

Lemma string_assoc (a b c : string) : (a +:+ b) +:+ c = a +:+ b +:+ c.
Proof. apply (inj str_bytes). rewrite !str_bytes_app. by rewrite (assoc_L (++)). Qed.

Lemma entries_text ps rest :
  scalar_pairs ps -> ps ≠ [] ->
  text (entries_chars ps rest) =
    " " +:+ String.concat ", " (Cli.pair_text <$> texts ps) +:+ text rest.
Proof.
  induction 1 as [|[k v] ps [Hk Hv] _ IH]; [done|]. intros _.
  cbn [entries_chars]. rewrite !text_app, <- quoted_text by done.
  change (texts ((k, v) :: ps)) with ((text k, text v) :: texts ps).
  cbn [fmap list_fmap]. change (list_fmap _ _ ?f (texts ps)) with (Cli.pair_text <$> texts ps).
  unfold Cli.pair_text at 1. cbn [fst snd].
  change (text [32]) with " ". change (text []) with EmptyString. change (text [58]) with ":".
  destruct ps as [|p ps].
  - cbn [texts fmap list_fmap String.concat]. by rewrite !string_assoc.
  - rewrite 2!text_app, IH by done. change (text [44]) with ",". change (text []) with EmptyString.
    change (texts (p :: ps)) with ((text p.1, text p.2) :: texts ps).
    cbn [fmap list_fmap String.concat]. rewrite !string_assoc. reflexivity.
Qed.

Lemma commit_text_chars ps msg :
  scalar_pairs ps -> scalars msg -> ps ≠ [] ->
  Cli.commit_text (Cli.pair_text <$> texts ps) (text msg) = text (statement_chars ps msg).
Proof.
  intros Hps Hm Hne. unfold statement_chars, Cli.commit_text.
  rewrite !text_app, entries_text, !text_app, quoted_text by done. reflexivity.
Qed.

(** Valid strings as texts. *)
Lemma plain_texts kvs :
  Forall (fun kv => plain_key kv.1 = true /\ utf8_valid kv.2 = true) kvs ->
  exists ps, kvs = texts ps /\ scalar_pairs ps /\ Forall (fun kv => key_chars kv.1 = true) ps.
Proof.
  induction 1 as [|[k v] kvs [Hk Hv] _ (ps & -> & Hs & Hks)]; [by exists []; repeat constructor|].
  apply andb_prop in Hk as [Hu Hk]. cbn [fst snd] in *.
  apply utf8_valid_text in Hu as [Hs1 E1]. apply utf8_valid_text in Hv as [Hs2 E2].
  exists ((chars_of k, chars_of v) :: ps). split; [|by split; constructor].
  unfold texts. cbn [fmap list_fmap fst snd]. by rewrite E1, E2.
Qed.

Lemma commit_text_parses kvs msg :
  kvs ≠ [] -> Forall (fun kv => plain_key kv.1 = true /\ utf8_valid kv.2 = true) kvs ->
  utf8_valid msg = true ->
  Parse.parse_script (Cli.commit_text (Cli.pair_text <$> kvs) msg) =
    Ok [Version (VCommit (mk_CommitStmt (pairs_payload kvs) (Some msg) None))].
Proof.
  intros Hne (ps & -> & Hs & Hk)%plain_texts [Hm <-]%utf8_valid_text.
  assert (ps ≠ []) as Hps by (intros ->; by apply Hne).
  rewrite commit_text_chars by done.
  apply (parse_script_spelled _ (statement_items ps (chars_of msg))).
  - by apply statement_scalars.
  - by apply statement_spelled.
  - by apply statement_grammar.
Qed.

Section commands.
Context `{Blake3, !MmapLib}.

Lemma with_store_ext {A} p (m m' : stM Engine CliError A) h :
  (forall e, m e = m' e) -> Host.with_store p m h = Host.with_store p m' h.
Proof.
  intros E. unfold Host.with_store. rewrite !stM_bind_eq.
  destruct (map_err CStorage (Host.open_at p h)); try done. unfold Host.use_store. by rewrite E.
Qed.

(** A call on the store is the executor's, but for the form of its errors. *)
Lemma host_on_store {A} (m : stM DiskStore EpochsError A) e :
  (Host.on_store m e).2 = (Exec.on_store m e).2 /\
  match (Host.on_store m e).1, (Exec.on_store m e).1 with
  | Ok a, Ok b => a = b
  | Err _, Err _ | Panic, Panic | OutOfFuel, OutOfFuel => True
  | _, _ => False
  end.
Proof. unfold Host.on_store, Exec.on_store, catch_err, zoom. by destruct (m (store e)) as [[] ?]. Qed.

Lemma host_on_store_eq {A} (m : stM DiskStore EpochsError A) e :
  Host.on_store m e = (map_err CStorage (m (store e)).1, Exec.set_store (m (store e)).2 e).
Proof. unfold Host.on_store, catch_err, zoom. by destruct (m (store e)). Qed.

Lemma disk_head_state s : Disk.head s = ((Disk.head s).1, s).
Proof.
  unfold Disk.head. destruct (RepoOps.head_branch (ds_repo s)); [|done].
  unfold fmap, stM_fmap. rewrite stM_bind_eq. unfold Disk.get_branch.
  by destruct (RepoOps.read_branch s0 (ds_repo s)).
Qed.

Lemma set_store_id e : Exec.set_store (store e) e = e.
Proof. by destruct e. Qed.

End commands.

Section plain_commit.
Context `{Blake3, !MmapLib, !MmapLaws}.

(** Moving the branch to the new commit, and the lines printed. *)
Lemma publish_plain e n c hs lines :
  disk_ok (store e) -> is_Some (ref_path n) -> commit_at (disk_objects (store e)) hs = Some c ->
  let '(r, e') := (_ ← Host.on_store (Disk.update_branch n hs); mret lines :
                     stM Engine CliError (list string)) e in
  disk_ok (store e') /\ disk_objects (store e') = disk_objects (store e) /\ files e' = files e /\
  match r with
  | Ok l => l = lines /\ refs_of e' = move_tip n hs (refs_of e)
  | Err _ => refs_of e' = refs_of e
  | _ => False
  end.
Proof.
  intros Hok Hpath Hat. rewrite stM_bind_eq.
  pose proof (update_branch_eq e n hs e eq_refl) as Hw.
  pose proof (update_branch_store e n hs Hpath) as Hst.
  pose proof (host_on_store (Disk.update_branch n hs) e) as [He Hr].
  destruct (Host.on_store (Disk.update_branch n hs) e) as [r e1].
  destruct (Exec.on_store (Disk.update_branch n hs) e) as [r' e1'].
  cbn [fst snd] in He, Hr. subst e1'. destruct Hst as [Hst [repo ->]].
  unfold writes in Hw. cbn [fst snd] in Hw.
  assert (disk_ok (Disk.set_repo repo (store e))) as Hok' by by apply disk_ok_set_repo.
  destruct r, r'; try done.
Qed.

(** HEAD's branch has a file. *)
Lemma disk_head_path s b : (Disk.head s).1 = Ok (Some b) -> is_Some (ref_path (branch_name b)).
Proof.
  unfold Disk.head. destruct (RepoOps.head_branch (ds_repo s)) as [n|]; [|done].
  unfold fmap, stM_fmap. rewrite stM_bind_eq. unfold Disk.get_branch.
  destruct (RepoOps.read_branch n (ds_repo s)) as [b'| | |] eqn:Hb; try done.
  intros [= ->]. apply read_branch_ok in Hb as (k & _ & Hk & _ & _ & ->). unfold branch_key in Hk.
  by destruct (ref_path n).
Qed.

End plain_commit.

(** C27: [epochs commit --set k=v ..] commits exactly its pairs. When the keys are identifiers
    or keywords, whatever the values and the message are (quotes, backslashes, braces,
    newlines), the text the command builds parses to the one [COMMIT] statement with these
    keys, values and message, and the command executes that statement and prints its result;
    no value can end its string literal or add a statement. *)
Theorem cli_commit_statement `{Blake3, !MmapLib} (fuel : nat) (p : string) (message : option string)
    (kvs : list (string * string)) (h : Host) :
  kvs ≠ [] ->
  Forall (fun kv => plain_key kv.1 = true /\ utf8_valid kv.2 = true) kvs ->
  utf8_valid (default "commit" message) = true ->
  let stmt := Version (VCommit (mk_CommitStmt (pairs_payload kvs)
                (Some (default "commit" message)) None)) in
  Cli.cmd_commit fuel p message ((fun kv => kv.1 +:+ "=" +:+ kv.2) <$> kvs) h =
  (lines ← Host.with_store p
     (results ← catch_err CExec (Exec.execute_statements fuel [stmt] []);
      mret (exec_result_to_string <$> results));
   for_each lines Host.println) h.
Proof.
  intros Hne Hkvs Hm stmt. unfold Cli.cmd_commit. rewrite !stM_bind_eq.
  match goal with |- match Host.with_store p ?m h with _ => _ end =
    match Host.with_store p ?m' h with _ => _ end => rewrite (with_store_ext p m m') end; [done|].
  intros e. rewrite decide_False by (by destruct kvs). rewrite parse_kvs by done.
  cbn [map_err]. rewrite (stM_bind_Ok _ _ e kvs e) by done.
  rewrite !stM_bind_eq. unfold Cli.execute, catch_err, Exec.execute.
  rewrite commit_text_parses by done. done.
Qed.

(** A key is not escaped: a key with a brace and a semicolon adds statements. *)
Example key_adds_statements :
  Parse.parse_script (Cli.commit_text
    (Cli.pair_text <$> [("a: 1 } ; DELETE BRANCH dev; COMMIT { b", "x")]) "m") =
  Ok [Version (VCommit (mk_CommitStmt [("a", EInt 1)] None None));
      Version (VBranch (BDelete "dev"));
      Version (VCommit (mk_CommitStmt [("b", EString "x")] (Some "m") None))].
Proof. vm_compute. reflexivity. Qed.

(** C29: [epochs commit] without pairs commits the snapshot of HEAD again. The new commit has
    HEAD's commit as its parent, the same root and the message; HEAD's branch, and nothing
    else, moves to it - but it has no index roots, whatever HEAD's commit has: the path
    indexes of the branch are lost, although a commit with pairs keeps them. *)
Theorem cli_plain_commit `{Blake3, !MmapLib, !MmapLaws} (fuel : nat) (e : Engine) (b : Branch)
    (base : Commit) (msg : string) :
  let s := store e in
  let c := new_commit [branch_target b] (root_hamt base)
             (if ds_ts s =? 0 then ds_now s else ds_ts s) msg in
  disk_ok s -> (Disk.head s).1 = Ok (Some b) ->
  commit_at (disk_objects s) (branch_target b) = Some base ->
  commit_fits c -> lenZ (encode_payload c) < PAYLOAD_LIMIT ->
  no_collision (disk_objects s) [commit_object c] ->
  let '(r, e') := Cli.commit_same fuel msg e in
  disk_ok (store e') /\ disk_objects s ⊆ disk_objects (store e') /\ files e' = files e /\
  match r with
  | Ok lines =>
      lines = ["commit " +:+ Hash.to_string (commit_id c); "  branch: " +:+ branch_name b] /\
      commit_at (disk_objects (store e')) (commit_id c) = Some c /\ index_roots c = ∅ /\
      refs_of e' = move_tip (branch_name b) (commit_id c) (refs_of e)
  | Err _ => refs_of e' = refs_of e
  | _ => False
  end.
Proof.
  intros s c Hok Hhead Hbase Hfit Hlen Hnc. unfold Cli.commit_same.
  rewrite stM_bind_eq, host_on_store_eq, disk_head_state. fold s. rewrite Hhead.
  cbn [map_err fst snd]. unfold s at 1. rewrite set_store_id.
  rewrite stM_bind_eq, host_on_store_eq. fold s.
  pose proof (keeps_commit s _ _ Hbase s (view_refl s Hok)) as Hload.
  destruct (Disk.load_commit (branch_target b) s) as [r1 s1]. destruct Hload as [Hv ->].
  cbn [map_err fst snd]. cbv zeta. pose proof (view_objects _ _ Hv) as Hobj.
  assert (Disk.commit fuel [branch_target b]
    (if decide (root_hamt base = ZERO) then None else Some (root_hamt base)) [] msg s1 =
    Disk.commit_with_root [branch_target b] (root_hamt base) msg s1) as Hcommit.
  { unfold Disk.commit. cbn [Disk.apply_ops]. rewrite (stM_bind_Ok _ _ s1 _ s1) by done.
    case_decide as Hz; [by rewrite Hz|done]. }
  rewrite stM_bind_eq, host_on_store_eq. cbn [store Exec.set_store]. rewrite Hcommit.
  pose proof (commit_with_root_ok s1 [branch_target b] (root_hamt base) msg (view_ok _ _ Hv)) as Hc.
  rewrite (view_ts _ _ Hv), (view_now _ _ Hv), Hobj in Hc. fold c in Hc. specialize (Hc Hfit Hlen Hnc).
  destruct (Disk.commit_with_root [branch_target b] (root_hamt base) msg s1) as [r2 s2].
  destruct Hc as (Hok2 & Hsub & Hrepo & Hr). rewrite (view_repo _ _ Hv) in Hrepo.
  cbn [fst snd]. set (e2 := Exec.set_store s2 (Exec.set_store s1 e)).
  assert (refs_of e2 = refs_of e) as Hrefs by (unfold refs_of; cbn; by rewrite Hrepo).
  destruct r2 as [h|x| |]; cbn [map_err]; try done. destruct Hr as (-> & Hat & _).
  pose proof (publish_plain e2 (branch_name b) c (commit_id c)
    ["commit " +:+ Hash.to_string (commit_id c); "  branch: " +:+ branch_name b] Hok2
    (disk_head_path _ _ Hhead) Hat) as Hp.
  match type of Hp with let '(_, _) := ?m in _ => destruct m as [r e'] end.
  destruct Hp as (Hok' & Hobj' & Hfile & Hr). rewrite Hobj', Hrefs in *.
  split; [done|]. split; [done|]. split; [done|]. destruct r; try done.
  destruct Hr as [-> Hr]. done.
Qed.

Section witnesses.

#[local] Existing Instance toy_hash.
#[local] Existing Instance id_mmap.
#[local] Existing Instance id_mmap_laws.

(** A value that ends with a backslash and a quote, and one that looks like a statement. *)
Definition ex_pairs : list (string * string) :=
  [("a", "x\" +:+ dq); ("match", dq +:+ " } ; DELETE BRANCH dev;")].

Definition ex_cli_host : Host :=
  mk_Host {[ "r"; "r/data" ]} ∅ {[ "r" := empty_dir ]} 1000 [].

Lemma ex_pairs_plain :
  Forall (fun kv => plain_key kv.1 = true /\ utf8_valid kv.2 = true) ex_pairs.
Proof. repeat constructor; vm_compute; reflexivity. Qed.

Lemma cli_commit_statement_witness :
  let stmt := Version (VCommit (mk_CommitStmt
    [("a", EString ("x\" +:+ dq)); ("match", EString (dq +:+ " } ; DELETE BRANCH dev;"))]
    (Some "commit") None)) in
  Cli.cmd_commit 70 "r" None ["a=x\" +:+ dq; "match=" +:+ dq +:+ " } ; DELETE BRANCH dev;"] ex_cli_host =
  (lines ← Host.with_store "r"
     (results ← catch_err CExec (Exec.execute_statements 70 [stmt] []);
      mret (exec_result_to_string <$> results));
   for_each lines Host.println) ex_cli_host.
Proof.
  pose proof (cli_commit_statement 70 "r" None ex_pairs ex_cli_host ltac:(discriminate)
    ex_pairs_plain eq_refl) as Hp.
  exact Hp.
Defined.

Definition ex_plain : Commit := new_commit [ex_tip2] ZERO 1002 "p".

Lemma ex_plain_no_collision : no_collision (disk_objects ex_disk2) [commit_object ex_plain].
Proof. apply (bool_decide_unpack (no_collision _ _)). vm_compute. exact I. Qed.

Lemma ex_plain_fits : commit_fits ex_plain.
Proof. apply (new_commit_fits [ex_tip2] ZERO 1002 "p"); vm_compute; intuition congruence. Qed.

Lemma cli_plain_commit_witness :
  let '(r, e') := Cli.commit_same 70 "p" ex_engine in
  disk_ok (store e') /\ disk_objects ex_disk2 ⊆ disk_objects (store e') /\
  files e' = files ex_engine /\
  match r with
  | Ok lines =>
      lines = ["commit " +:+ Hash.to_string (commit_id ex_plain); "  branch: " +:+ "main"] /\
      commit_at (disk_objects (store e')) (commit_id ex_plain) = Some ex_plain /\
      index_roots ex_plain = ∅ /\
      refs_of e' = move_tip "main" (commit_id ex_plain) (refs_of ex_engine)
  | Err _ => refs_of e' = refs_of ex_engine
  | _ => False
  end.
Proof.
  pose proof (cli_plain_commit 70 ex_engine (mk_Branch "main" ex_tip2) ex_c2 "p") as Hp.
  cbv zeta in Hp.
  assert (new_commit [branch_target (mk_Branch "main" ex_tip2)] (root_hamt ex_c2)
    (if ds_ts (store ex_engine) =? 0 then ds_now (store ex_engine) else ds_ts (store ex_engine)) "p"
    = ex_plain) as Ec by (vm_compute; reflexivity).
  rewrite Ec in Hp. apply Hp.
  - apply ex_disk2_ok.
  - vm_compute. reflexivity.
  - apply ex_disk2_ok.
  - exact ex_plain_fits.
  - vm_compute. reflexivity.
  - exact ex_plain_no_collision.
Defined.

End witnesses.
