(* ===== verification/InitSpec.v ===== *)
(** * What [epochs init] leaves

    The repository that [cmd_init] makes is found by every later command, opens, and has
    one branch, at the first commit. *)

From Stdlib Require Import Strings.Byte Strings.String.
From S2P Require Import Prelude Utf8 Hash Codec Record Cache Index Cas HamtNode Hamt HamtTree HamtProofs HamtSpec CasStore CasStoreProofs CasStoreSpec Commit Bfs Dag Repo DiskStore DiskStoreSpec.
From S2P Require Import Chars Lexer Text BTree Ast Parser Value Ddl Schema PathIndex Engine EngineSpec Cli.

(** ** Paths *)

Lemma parent_dirs_prefix before l d :
  d ∈ parent_dirs before l -> str_bytes d `prefix_of` before ++ l.
Proof.
  revert before. induction l as [|b l IH]; intros before; cbn [parent_dirs].
  - by intros ?%not_elem_of_nil.
  - intros [Hd|Hd]%elem_of_app.
    + case_decide; [|by apply not_elem_of_nil in Hd]. apply list_elem_of_singleton in Hd as ->.
      rewrite str_bytes_str. by eexists.
    + apply IH in Hd. by rewrite <- (assoc_L (++)) in Hd.
Qed.

(** What [join] puts in front of its second argument. *)
Definition base (p : string) : list byte :=
  match last (str_bytes p) with
  | None => []
  | Some b => if decide (b = "/"%byte) then str_bytes p else str_bytes p ++ ["/"%byte]
  end.

Lemma join_bytes p q : str_bytes (join p q) = base p ++ str_bytes q.
Proof.
  unfold join, base. destruct (last (str_bytes p)) as [b|]; [|done]. case_decide.
  - by rewrite str_bytes_app.
  - rewrite !str_bytes_app. by rewrite <- (assoc_L (++)).
Qed.

Lemma base_join p q l b :
  str_bytes q = l ++ [b] -> b ≠ "/"%byte -> base (join p q) = base p ++ str_bytes q ++ ["/"%byte].
Proof.
  intros Hq Hb. unfold base at 1. rewrite join_bytes, Hq, (assoc_L (++)), last_snoc.
  rewrite decide_False by done. by rewrite !(assoc_L (++)).
Qed.

(** The directories that [create_dir_all] makes are prefixes of the path. *)
Definition made (q : string) : list string :=
  q :: filter (fun d => d ≠ EmptyString) (parent_dirs [] (str_bytes q)).

Lemma made_prefix q d : d ∈ made q -> str_bytes d `prefix_of` str_bytes q.
Proof.
  intros [->|[_ Hd]%list_elem_of_filter]%elem_of_cons; [done|].
  by apply parent_dirs_prefix in Hd.
Qed.

Section host.
Context `{Blake3, !MmapLib, !MmapLaws}.

(** No file stands where a directory is needed. *)
Definition clear_way (q : string) (h : Host) : Prop :=
  forall d, d ∈ made q -> d ∉ host_files h.

Lemma create_dir_all_ok q h :
  clear_way q h ->
  Host.create_dir_all q h = (Ok tt, Host.set_dirs (list_to_set (made q) ∪ host_dirs h) h).
Proof.
  intros Hc. unfold Host.create_dir_all.
  rewrite decide_False by (apply Hc; by left).
  rewrite decide_False; [done|]. intros (d & Hd & Hf)%Exists_exists.
  eapply Hc; [|exact Hf]. by right.
Qed.

(** ** The store of a new repository *)

Record fresh (s : DiskStore) : Prop := {
  fresh_ok : disk_ok s;
  fresh_objects : disk_objects s = ∅;
  fresh_buf : cs_buf (ds_cas s) = [];
  fresh_offset : cs_offset (ds_cas s) = SEGMENT_HEADER_LEN
}.

Lemma init_store_fresh head_file now :
  exists s, Disk.init_store ∅ head_file ∅ [] 0 now = Ok s /\ fresh s /\
    ds_repo s = RepoOps.init ∅ head_file /\ ds_now s = now.
Proof.
  destruct (open_new_ok (now / 1000)) as (cas & Hopen & Hok & Hobj & Hbuf).
  unfold Disk.init_store. rewrite Hopen. eexists. split; [reflexivity|].
  split; [|by split]. constructor; [|done..|].
  - constructor; [done|apply Lru.lru_new_ok|]. intros k c Hc.
    unfold Lru.get in Hc. simpl in Hc. by rewrite lookup_empty in Hc.
  - cbn [ds_cas]. unfold Store.open in Hopen. cbn in Hopen. by injection Hopen as <-.
Qed.

(** The first commit, with a message that makes a small record. *)
Definition genesis (msg : string) (now : Z) : Commit := new_commit [] ZERO now msg.

Definition genesis_ok (msg : string) (now : Z) : Prop :=
  commit_fits (genesis msg now) /\ lenZ (encode_payload (genesis msg now)) < 1000.

Lemma initial_commit_ok now : 0 <= now < 2 ^ 64 -> genesis_ok "Initial commit" now.
Proof. intros Hn. split; [by apply new_commit_fits|]. reflexivity. Qed.

(** The genesis is written and flushed. *)
Lemma write_genesis_ok msg s :
  fresh s -> genesis_ok msg (ds_now s) ->
  let c := genesis msg (ds_now s) in
  exists cas, Disk.write_genesis msg (ds_now s) (ds_cas s) = (Ok (commit_id c), cas) /\
    store_ok cas /\ commit_at (store_objects cas) (commit_id c) = Some c.
Proof.
  intros [Hok Hobj Hbuf Hoff] [Hfit Hsz] c. fold c in Hfit, Hsz.
  pose proof (put_ok (ds_cas s) Record.TCommit (encode_payload c) (disk_cas _ Hok)
    ltac:(unfold PAYLOAD_LIMIT; lia)) as Hput.
  destruct (put_small (ds_cas s) Record.TCommit (encode_payload c)) as (cas & Hrun & _); [done|..].
  { unfold IndexOps.contains. apply bool_decide_eq_false_2. rewrite <- objects_contains by apply Hok.
    change (store_objects (ds_cas s)) with (disk_objects s). rewrite Hobj, lookup_empty.
    by intros [? ?]. }
  { unfold SEGMENT_BUF_BYTES. lia. }
  { rewrite Hoff. unfold SEGMENT_HEADER_LEN, SEGMENT_MAX_BYTES. lia. }
  rewrite Hrun in Hput. destruct Hput as [Hok' [[_ Hobj']|[(? & ? & _) _]]]; [|done].
  destruct (flush_ok cas Hok') as (cas' & Hfl & Hok'' & Hsame & _).
  exists cas'. unfold Disk.write_genesis. rewrite stM_bind_eq. fold (genesis msg (ds_now s)). fold c.
  rewrite Hrun. rewrite (stM_bind_Ok _ _ _ _ _ Hfl). split; [done|]. split; [done|].
  apply same_view_objects in Hsame. rewrite Hsame, Hobj'.
  change (store_objects (ds_cas s)) with (disk_objects s). rewrite Hobj.
  unfold commit_at, put_object, commit_id. rewrite lookup_empty, lookup_insert_eq.
  by rewrite decode_encode_payload.
Qed.

(** A name of one component needs no directory. *)
Lemma no_parent_dirs before l : "/"%byte ∉ l -> parent_dirs before l = [].
Proof.
  revert before. induction l as [|b l IH]; intros before; [done|].
  intros [Hb Hl]%not_elem_of_cons. cbn [parent_dirs]. rewrite decide_False by congruence. by apply IH.
Qed.

Lemma first_branch name target hf hd :
  plain_name name -> "/"%byte ∉ str_bytes name ->
  RepoOps.create_branch name target (mk_Repo ∅ hf hd) =
    (Ok tt, mk_Repo {[ name := RefFile (ref_line target) ]} hf hd).
Proof.
  intros Hk Hn. unfold RepoOps.create_branch. rewrite (stat_key name name) by done. cbn [repo_refs].
  rewrite lookup_empty. unfold RepoOps.write_branch. pose proof (branch_key_nonempty _ _ Hk) as Hne.
  unfold plain_name, branch_key in Hk. destruct (ref_path name) as [[k []]|]; [|done..].
  injection Hk as ->. rewrite no_parent_dirs by done. cbn [RepoOps.create_dirs].
  rewrite (stM_bind_Ok _ _ (mk_Repo ∅ hf hd) tt (mk_Repo ∅ hf hd)) by done.
  unfold RepoOps.write_ref, RepoOps.node_at. cbn [repo_refs]. rewrite decide_False by done.
  by rewrite lookup_empty.
Qed.

Lemma init_ok msg s branch hf :
  fresh s -> genesis_ok msg (ds_now s) -> ds_repo s = RepoOps.init ∅ hf ->
  plain_name branch -> "/"%byte ∉ str_bytes branch ->
  let c := genesis msg (ds_now s) in
  exists s', Disk.init branch msg s = (Ok (commit_id c), s') /\
    store_ok (ds_cas s') /\ commit_at (disk_objects s') (commit_id c) = Some c /\
    ds_repo s' = mk_Repo {[ branch := RefFile (ref_line (commit_id c)) ]} (Some (head_line branch))
                   (Some branch).
Proof.
  intros Hf Hnow Hrepo Hk Hn c.
  destruct (write_genesis_ok msg s Hf Hnow) as (cas & Hrun & Hok & Hat). fold c in Hrun, Hat.
  unfold Disk.init, Disk.now_millis. rewrite stM_bind_eq. unfold gets.
  rewrite stM_bind_eq. unfold Disk.on_cas at 1, zoom. rewrite Hrun.
  rewrite stM_bind_eq. unfold Disk.on_repo at 1, zoom. cbn [ds_repo Disk.set_cas].
  rewrite Hrepo. unfold RepoOps.init. rewrite first_branch by done.
  rewrite stM_bind_eq. unfold Disk.on_repo, zoom, RepoOps.set_head.
  cbn [ds_repo Disk.set_repo]. rewrite (stat_key branch branch) by done. cbn [repo_refs].
  rewrite lookup_singleton_eq. by eexists.
Qed.

(** The directory of a new repository, when the store [s] is dropped. *)
Definition init_dir (s : DiskStore) : RepoDir :=
  mk_RepoDir (repo_refs (ds_repo s)) (repo_head_file (ds_repo s))
    (Store.drop_store (ds_cas s)).1 (Some (Store.drop_store (ds_cas s)).2)
    (mk_SchemaFiles None None (Some {[ "001_init.eql" := Cli.init_migration ]})).

Definition new_dirs (p : string) : gset string :=
  list_to_set (made (join p "migrations")) ∪ (list_to_set (made (join p "refs/heads")) ∪
    list_to_set (made (join p "data"))).

Lemma clear_way_dirs q d h : clear_way q h -> clear_way q (Host.set_dirs d h).
Proof. done. Qed.

Lemma cmd_init_ok h p branch :
  Host.exists_path p h = false -> host_repos h !! p = None ->
  clear_way (join p "data") h -> clear_way (join p "refs/heads") h ->
  clear_way (join p "migrations") h ->
  0 <= host_now h < 2 ^ 64 -> plain_name branch -> "/"%byte ∉ str_bytes branch ->
  let c := genesis "Initial commit" (host_now h) in
  exists h' s, Cli.cmd_init p branch h = (Ok tt, h') /\
    store_ok (ds_cas s) /\ commit_at (disk_objects s) (commit_id c) = Some c /\
    ds_repo s = mk_Repo {[ branch := RefFile (ref_line (commit_id c)) ]} (Some (head_line branch))
                  (Some branch) /\
    host_repos h' !! p = Some (init_dir s) /\ host_dirs h' = new_dirs p ∪ host_dirs h /\
    host_now h' = host_now h.
Proof.
  intros Hex Hrepo Hd Hr Hm Hnow Hk Hb c. unfold Cli.cmd_init.
  rewrite stM_bind_eq. unfold gets. rewrite Hex. unfold Host.init_at.
  set (h1 := Host.set_dirs (list_to_set (made (join p "data")) ∪ host_dirs h) h).
  set (h2 := Host.set_dirs (list_to_set (made (join p "refs/heads")) ∪ host_dirs h1) h1).
  destruct (init_store_fresh (Some (head_line "main")) (host_now h)) as (s0 & Hs0 & Hfresh & Hrepo0 & Hnow0).
  set (h3 := Host.set_repos (<[p := mk_RepoDir ∅ (Some (head_line "main")) ∅ None
    (mk_SchemaFiles None None None)]> (host_repos h2)) h2).
  assert (Host.write_head p h2 = (Ok tt, h3)) as Hwh.
  { unfold Host.write_head, Host.put_dir, Host.repo_dir, modify. cbn [host_repos h1 h2 Host.set_dirs].
    by rewrite Hrepo. }
  assert (Host.create_at p h3 = Ok s0) as Hcreate.
  { unfold Host.create_at, Host.repo_dir. cbn [host_repos h3 Host.set_repos].
    rewrite lookup_insert_eq. exact Hs0. }
  apply initial_commit_ok in Hnow. rewrite <- Hnow0 in Hnow.
  destruct (init_ok "Initial commit" s0 branch (Some (head_line "main")) Hfresh Hnow Hrepo0 Hk Hb) as (s & Hinit & Hok & Hat & Hrs).
  rewrite Hnow0 in Hinit, Hat, Hrs. fold c in Hinit, Hat, Hrs.
  rewrite !stM_bind_eq, (create_dir_all_ok _ _ Hd). fold h1.
  rewrite stM_bind_eq, (create_dir_all_ok _ h1 Hr). fold h2.
  rewrite stM_bind_eq, Hwh. rewrite stM_bind_eq, Hcreate. cbn [map_err].
  unfold Host.use_store, Host.repo_dir. cbn [host_repos h3 Host.set_repos]. rewrite lookup_insert_eq.
  cbn [default from_option id dir_schema]. rewrite stM_bind_eq. unfold Host.on_store, zoom, catch_err.
  cbn [store]. rewrite Hinit. cbn [map_err mret stM_ret store Exec.set_store files].
  set (h4 := Host.set_repos _ h3).
  assert (clear_way (join p "migrations") h4) as Hm4 by exact Hm.
  rewrite stM_bind_eq, (create_dir_all_ok _ h4 Hm4). cbv beta iota.
  eexists _, s. split; [reflexivity|]. split; [done|]. split; [done|]. split; [done|]. split; [|split].
  - clear. unfold Host.repo_dir, Host.closed. cbn. rewrite !lookup_insert_eq. reflexivity.
  - change (list_to_set (made (join p "migrations")) ∪ (list_to_set (made (join p "refs/heads")) ∪
      (list_to_set (made (join p "data")) ∪ host_dirs h)) = new_dirs p ∪ host_dirs h).
    unfold new_dirs. by rewrite <- !(assoc_L (∪)).
  - done.
Qed.

(** The directory of a new repository opens. *)
Lemma open_init_dir h p s branch l b c :
  host_repos h !! p = Some (init_dir s) -> Host.exists_path (join p "data") h = true ->
  store_ok (ds_cas s) -> commit_at (disk_objects s) (commit_id c) = Some c ->
  ds_repo s = mk_Repo {[ branch := RefFile (ref_line (commit_id c)) ]} (Some (head_line branch))
                (Some branch) ->
  plain_name branch -> str_bytes branch = l ++ [b] -> ascii_graph b = true ->
  utf8_valid (bytes_str (head_line branch)) = true ->
  exists s', Host.open_at p h = Ok s' /\ disk_ok s' /\
    Disk.head s' = (Ok (Some (mk_Branch branch (commit_id c))), s') /\
    commit_at (disk_objects s') (commit_id c) = Some c.
Proof.
  intros Hdir Hex Hok Hat Hrepo Hk Hn Hb Hu.
  destruct (flush_ok (ds_cas s) Hok) as (cas & Hfl & Hok1 & Hsame & Hbuf & _).
  destruct (open_ok cas (host_now h / 1000) Hok1 Hbuf) as (cas' & Hopen & Hok2 & Hobj & _).
  apply same_view_objects in Hsame.
  unfold Host.open_at, Host.repo_dir. rewrite Hdir, Hex. cbn [default from_option id].
  unfold init_dir, Store.drop_store. cbn [dir_refs dir_head dir_data dir_index default from_option id].
  rewrite Hfl, Hrepo.
  unfold Disk.open, RepoOps.open. cbn [negb snd fst default from_option id repo_head_file repo_refs].
  rewrite (read_head_line branch l b) by done. cbn [mbind outcome_bind]. rewrite Hopen.
  eexists. split; [reflexivity|]. split; [|split].
  - constructor; [done|apply Lru.lru_new_ok|]. intros k x Hx.
    unfold Lru.get in Hx. simpl in Hx. by rewrite lookup_empty in Hx.
  - unfold Disk.head, Disk.get_branch, RepoOps.head_branch, fmap, stM_fmap. cbn [ds_repo repo_head].
    rewrite stM_bind_eq. cbn [ds_repo].
    rewrite (read_written branch branch (commit_id c)) by (try done; apply lookup_singleton_eq). done.
  - unfold disk_objects. cbn [ds_cas]. by rewrite Hobj, Hsame.
Qed.

(** Making the directories of [p] makes no directory of another first component. *)
Lemma new_dirs_prefix p d : d ∈ new_dirs p -> exists q, q ∈ ["migrations"; "refs/heads"; "data"] /\
  str_bytes d `prefix_of` base p ++ str_bytes q.
Proof.
  unfold new_dirs. rewrite !elem_of_union, !elem_of_list_to_set.
  intros [Hd|[Hd|Hd]]; apply made_prefix in Hd; rewrite join_bytes in Hd;
    eexists; (split; [|exact Hd]); repeat first [by left|right].
Qed.

Lemma resolve_new_repo h h' project :
  let p := Cli.repo_path_for_init project h in
  host_dirs h' = new_dirs p ∪ host_dirs h -> Cli.resolve_repo project h' = Ok p.
Proof.
  intros p Hdirs. unfold Cli.resolve_repo.
  assert (Cli.is_epochs_repo p h' = true) as Hp.
  { unfold Cli.is_epochs_repo, Host.is_dir. apply bool_decide_eq_true_2. rewrite Hdirs.
    apply elem_of_union. left. unfold new_dirs. rewrite !elem_of_union, !elem_of_list_to_set.
    right. right. by left. }
  unfold p, Cli.repo_path_for_init in *.
  destruct (Cli.is_epochs_repo project h || Cli.looks_like_epochs_dirname project) eqn:E.
  { by rewrite Hp. }
  apply orb_false_iff in E as [E _]. rewrite Hp.
  assert (Cli.is_epochs_repo project h' = false) as ->; [|done].
  unfold Cli.is_epochs_repo, Host.is_dir in *. apply bool_decide_eq_false in E.
  apply bool_decide_eq_false_2. rewrite Hdirs, elem_of_union. intros [Hd|]; [|done].
  apply new_dirs_prefix in Hd as (q & _ & Hd).
  rewrite join_bytes, (base_join _ ".epochs" (str_bytes ".epoch") "s"%byte) in Hd by done.
  rewrite <- !(assoc_L (++)) in Hd. apply prefix_app_inv in Hd as [k Hk]. by cbn in Hk.
Qed.

End host.


Section witnesses.

#[local] Existing Instance toy_hash.
#[local] Existing Instance id_mmap.
#[local] Existing Instance id_mmap_laws.

(** A host with the directory [proj]. *)
Definition ex_host : Host := mk_Host {[ "proj" ]} ∅ ∅ 1000 [].


End witnesses.
