(* ===== verification/Bench.v ===== *)
(** * The benchmark: its workload and the epochs engine ([epochs-bench/src/workload.rs],
    [engines/mod.rs], [engines/epochs_eng.rs])

    The workload runs over any backend of the interface [VcsBench]; the epochs engine is one,
    a client of the disk store that keeps a window of its linear history. The latencies are
    not modelled, nor is the memory sampled at the end; the SQL engines are in [Sql]. A [u64]
    wraps at 2^64. *)

From Stdlib Require Import Strings.Byte Strings.String.
From S2P Require Import Prelude Utf8 Hash Cache Index Cas CasStore Commit Repo DiskStore.

(** ** [engines/mod.rs] *)

Abbreviation CommitId := string.

Inductive Shape := Deep | Wide.

Definition Shape_parse (s : string) : outcome string Shape :=
  if String.eqb (to_ascii_lowercase s) "deep" then Ok Deep
  else if String.eqb (to_ascii_lowercase s) "wide" then Ok Wide
  else Err ("unknown shape '" +:+ to_ascii_lowercase s +:+ "' (deep|wide)").

Definition Shape_as_str (s : Shape) : string :=
  match s with Deep => "deep" | Wide => "wide" end.

(** [struct Put]. *)
Record KvPut := mk_KvPut { put_key : list byte; put_value : list byte }.

Class VcsBench (B : Type) := {
  bench_name : string;
  bench_commit : option CommitId -> list KvPut -> string -> stM B string CommitId;
  bench_branch : string -> CommitId -> stM B string unit;
  bench_history : CommitId -> Z -> stM B string (list CommitId);
  bench_checkout : CommitId -> stM B string (gmap (list byte) (list byte));
  bench_disk_bytes : stM B string Z
}.

(** [BenchReport] without what was measured. *)
Record BenchReport := mk_BenchReport {
  report_engine : string;
  report_tier : string;
  report_shape : Shape;
  report_live_keys : Z;
  report_commits : Z;
  report_disk_bytes : Z
}.

(** ** [workload.rs] *)

Inductive Tier := Smoke | Dev | Mid | Large | Heavy.

Definition Tier_parse (s : string) : outcome string Tier :=
  let s := to_ascii_lowercase s in
  if String.eqb s "smoke" then Ok Smoke
  else if String.eqb s "dev" then Ok Dev
  else if String.eqb s "mid" then Ok Mid
  else if String.eqb s "large" then Ok Large
  else if String.eqb s "heavy" then Ok Heavy
  else Err ("unknown tier '" +:+ s +:+ "' (smoke|dev|mid|large|heavy)").

Definition Tier_name (t : Tier) : string :=
  match t with
  | Smoke => "smoke" | Dev => "dev" | Mid => "mid" | Large => "large" | Heavy => "heavy"
  end.

Definition live_keys (t : Tier) : Z :=
  match t with
  | Smoke => 1000 | Dev => 10000 | Mid => 10000 | Large => 100000 | Heavy => 100000
  end.

Definition commits (t : Tier) : Z :=
  match t with
  | Smoke => 10000 | Dev => 100000 | Mid => 1000000 | Large => 5000000 | Heavy => 50000000
  end.

Definition requires_force (t : Tier) : bool := match t with Heavy => true | _ => false end.

Record BenchOpts := mk_BenchOpts {
  tier : Tier;
  shape : Shape;
  commits_override : option Z;
  keys_override : option Z;
  payload_bytes : Z;
  puts_per_commit : Z;
  history_depth : Z;
  branch_count : Z;
  checkout_samples : Z
}.

Definition u64 (z : Z) : Z := z mod 2 ^ 64.
Definition saturating_mul (a b : Z) : Z := Z.min (a * b) (2 ^ 64 - 1).
Definition u64_text (z : Z) : string := pretty (Z.to_N z).

Module Workload.

(** [0..n]. *)
Definition range (n : Z) : list Z := seqZ 0 n.

(** The commits whose ids are kept: the tip, the sources of the branches, the samples. *)
Definition branch_source (n branches b : Z) : Z := Z.min (u64 (b * n) / branches) (n - 1).
Definition sample_index (n r2_samples s : Z) : Z := u64 ((s + 1) * n) / (r2_samples + 1).

Definition keep_idx (n branches r2_samples : Z) : gset Z :=
  {[ n - 1 ]} ∪ list_to_set (branch_source n branches <$> range branches)
    ∪ list_to_set (sample_index n r2_samples <$> range (r2_samples - 1)).

Definition key_id (shape : Shape) (live_keys puts_n i p : Z) : Z :=
  match shape with
  | Deep => u64 (u64 (i * puts_n) + p) mod live_keys
  | Wide => u64 (u64 (i * puts_n) + p)
  end.

Definition key_of (id : Z) : list byte := str_bytes ("k/" +:+ u64_text id).

(** The puts of commit [i]: the payload starts with the number of the commit. *)
Definition puts_of (opts : BenchOpts) (live_keys puts_n i : Z) : list KvPut :=
  let payload_base := replicate (Z.to_nat (Z.max (payload_bytes opts) 16)) "x"%byte in
  (fun p => mk_KvPut (key_of (key_id (shape opts) live_keys puts_n i p))
              (to_le 8 i ++ drop 8 payload_base)) <$> range puts_n.

(** [id_at]. *)
Definition id_at (kept : list (Z * CommitId)) (idx : Z) : outcome string CommitId :=
  match List.find (fun e => e.1 =? idx) kept with
  | Some (_, id) => Ok id
  | None => Err ("missing sampled commit " +:+ u64_text idx)
  end.

(** The commits checked out at the end: all that were kept, or the tip and evenly spaced
    others. *)
Definition spread (others : list Z) (need : Z) : list Z :=
  match others with
  | [] => []
  | _ => (fun s => nth (Z.to_nat (s * lenZ others / need)) others 0) <$> range need
  end.

Definition r2_indexes (n r2_samples : Z) (keep : gset Z) : list Z :=
  let r2_idxs := merge_sort Z.le (elements keep) in
  if r2_samples <? lenZ r2_idxs then
    let tip_i := n - 1 in
    tip_i :: spread (filter (fun i => i ≠ tip_i) r2_idxs) (r2_samples - 1)
  else r2_idxs.

(** The number of keys a checkout of commit [idx] must have. *)
Definition expected (shape : Shape) (live_keys puts_n idx : Z) : Z :=
  match shape with
  | Deep => Z.min live_keys (saturating_mul (idx + 1) puts_n)
  | Wide => saturating_mul (idx + 1) puts_n
  end.

Section workload.
Context {B : Type} `{VcsBench B}.

Abbreviation M := (stM B string).

(** The load: one commit after the other, the ids at [keep] kept. *)
Fixpoint load (opts : BenchOpts) (live_keys puts_n : Z) (keep : gset Z) (todo : list Z)
    (kept : list (Z * CommitId)) (tip : option CommitId) :
    M (list (Z * CommitId) * option CommitId) :=
  match todo with
  | [] => mret (kept, tip)
  | i :: todo =>
      id ← bench_commit None (puts_of opts live_keys puts_n i) "c";
      load opts live_keys puts_n keep todo
        (if decide (i ∈ keep) then kept ++ [(i, id)] else kept) (Some id)
  end.

Definition make_branch (n branches : Z) (kept : list (Z * CommitId)) (b : Z) : M unit :=
  src ← lift (id_at kept (branch_source n branches b));
  bench_branch ("b" +:+ u64_text b) src.

Definition read_history (tip : CommitId) (depth : Z) (_ : Z) : M unit :=
  chain ← bench_history tip depth;
  if decide (chain = []) then fail "empty history" else mret tt.

Definition check_checkout (shape : Shape) (live_keys puts_n : Z) (kept : list (Z * CommitId))
    (idx : Z) : M unit :=
  id ← lift (id_at kept idx);
  state ← bench_checkout id;
  let expect := expected shape live_keys puts_n idx in
  if Z.of_nat (size state) =? expect then mret tt
  else fail ("checkout at commit " +:+ u64_text idx +:+ ": got " +:+
             pretty (size state) +:+ " keys, expected " +:+ u64_text expect).

Definition run_bench (opts : BenchOpts) : M BenchReport :=
  let n := default (commits (tier opts)) (commits_override opts) in
  if n =? 0 then fail "commits must be > 0"
  else
    let live :=
      match shape opts with
      | Deep => Z.max (default (live_keys (tier opts)) (keys_override opts)) 1
      | Wide => Z.max (default n (keys_override opts)) 1
      end in
    let puts_n := Z.max (puts_per_commit opts) 1 in
    let branches := Z.max (branch_count opts) 1 in
    let r2_samples := Z.min (Z.max (checkout_samples opts) 1) 20 in
    let hist_samples := Z.min (Z.max (checkout_samples opts) 1) 200 in
    let keep := keep_idx n branches r2_samples in
    '(kept, tip) ← load opts live puts_n keep (range n) [] None;
    match tip with
    | None => fail "no commits"
    | Some tip =>
        _ ← for_each (range branches) (make_branch n branches kept);
        _ ← for_each (range hist_samples) (read_history tip (history_depth opts));
        _ ← for_each (r2_indexes n r2_samples keep) (check_checkout (shape opts) live puts_n kept);
        disk_bytes ← bench_disk_bytes;
        mret (mk_BenchReport bench_name (Tier_name (tier opts)) (shape opts) live n disk_bytes)
    end.

End workload.
End Workload.

(** ** [engines/epochs_eng.rs] *)

Definition CHAIN_WINDOW : Z := 256.

Record EpochsEngine := mk_EpochsEngine {
  be_store : DiskStore;
  be_tip : option Hash;
  be_tip_root : Hash;
  be_chain : list Hash;
  be_since_ref_flush : Z;
  be_ref_flush_every : Z
}.

Definition non_zero (h : Hash) : option Hash := if decide (h = ZERO) then None else Some h.

Module BenchEngine.
Section engine.
Context `{Blake3, MmapLib}.
Context (fuel : nat).

Abbreviation M := (stM EpochsEngine string).

Definition set_store (s : DiskStore) (e : EpochsEngine) : EpochsEngine :=
  mk_EpochsEngine s (be_tip e) (be_tip_root e) (be_chain e) (be_since_ref_flush e)
    (be_ref_flush_every e).
Definition set_since (n : Z) (e : EpochsEngine) : EpochsEngine :=
  mk_EpochsEngine (be_store e) (be_tip e) (be_tip_root e) (be_chain e) n (be_ref_flush_every e).

Definition on_store {A} (m : stM DiskStore EpochsError A) : M A :=
  zoom be_store set_store (catch_err EpochsError_to_string m).

(** [open], over the empty directory. *)
Definition open_store (now : Z) : outcome string EpochsEngine :=
  s ← map_err EpochsError_to_string (Disk.init_store ∅ None ∅ [] 0 now);
  let '(r, s) := Disk.init "main" "bench genesis" s in
  tip ← map_err EpochsError_to_string r;
  let s := Disk.configure_caches 1024 256 2 (Disk.set_fsync_every 512 s) in
  let '(r, s) := Disk.load_commit tip s in
  c ← map_err EpochsError_to_string r;
  Ok (mk_EpochsEngine s (Some tip) (root_hamt c) [tip] 0 512).

Definition parse (id : CommitId) : M Hash :=
  lift (map_err EpochsError_to_string (from_hex id)).

Definition flush_main_ref : M unit :=
  tip ← gets be_tip;
  _ ← match tip with
      | Some tip => on_store (Disk.update_branch "main" tip)
      | None => mret tt
      end;
  modify (set_since 0).

(** The window after [push_chain]. *)
Definition pushed (id : Hash) (chain : list Hash) : list Hash :=
  let chain := chain ++ [id] in
  if CHAIN_WINDOW <? lenZ chain then drop (Z.to_nat (lenZ chain - CHAIN_WINDOW)) chain else chain.

Definition push_chain (id : Hash) (e : EpochsEngine) : EpochsEngine :=
  mk_EpochsEngine (be_store e) (be_tip e) (be_tip_root e) (pushed id (be_chain e))
    (be_since_ref_flush e) (be_ref_flush_every e).

(** The parents and the root a commit starts from. *)
Definition commit_base (parent : option CommitId) : M (list Hash * option Hash) :=
  match parent with
  | Some p =>
      h ← parse p;
      tip ← gets be_tip;
      tip_root ← gets be_tip_root;
      if decide (tip = Some h) then mret ([h], non_zero tip_root)
      else
        c ← on_store (Disk.load_commit h);
        mret ([h], non_zero (root_hamt c))
  | None =>
      tip ← gets be_tip;
      tip_root ← gets be_tip_root;
      match tip with
      | Some t => mret ([t], non_zero tip_root)
      | None => mret ([], None)
      end
  end.

(** The fields after a commit. *)
Definition advanced (id root_hamt : Hash) (e : EpochsEngine) : EpochsEngine :=
  push_chain id (mk_EpochsEngine (be_store e) (Some id) root_hamt (be_chain e)
                   (be_since_ref_flush e + 1) (be_ref_flush_every e)).

Definition commit (parent : option CommitId) (puts : list KvPut) (message : string) : M CommitId :=
  '(parents, base_root) ← commit_base parent;
  let ops := (fun p => Put (put_key p) (put_value p)) <$> puts in
  root_hamt ← on_store (Disk.apply_hamt_ops fuel base_root ops);
  id ← on_store (Disk.commit_with_root parents root_hamt message);
  _ ← modify (advanced id root_hamt);
  since ← gets be_since_ref_flush;
  every ← gets be_ref_flush_every;
  _ ← (if every <=? since then flush_main_ref else mret tt);
  mret (Hash.to_string id).

Definition branch (name : string) (tip : CommitId) : M unit :=
  _ ← flush_main_ref;
  h ← parse tip;
  on_store (fun s =>
    match Disk.create_branch name h s with
    | (Err _, s) => Disk.update_branch name h s
    | r => r
    end).

(** The loop of the general path of [history]. *)
Fixpoint walk (depth : nat) (cur : Hash) (out : list CommitId) : M (list CommitId) :=
  match depth with
  | O => mret out
  | S depth =>
      let out := out ++ [Hash.to_string cur] in
      c ← on_store (Disk.load_commit cur);
      match parents c with
      | p :: _ => walk depth p out
      | [] => mret out
      end
  end.

Definition history (tip : CommitId) (depth : Z) : M (list CommitId) :=
  tip_h ← parse tip;
  chain ← gets be_chain;
  if bool_decide (last chain = Some tip_h) && (depth <=? lenZ chain) then
    let start := (length chain - Z.to_nat depth)%nat in
    mret (Hash.to_string <$> reverse (drop start chain))
  else walk (Z.to_nat depth) tip_h [].

Definition checkout (commit : CommitId) : M (gmap (list byte) (list byte)) :=
  _ ← flush_main_ref;
  h ← parse commit;
  c ← on_store (Disk.load_commit h);
  entries ← on_store (Disk.hamt_entries fuel (root_hamt c));
  mret (foldl (fun m e => <[e.1 := e.2]> m) ∅ entries).

(** [dir_size] of the directory of the store. *)
Definition dir_size (s : DiskStore) : Z :=
  let files := (map_to_list (cs_data (ds_cas s))).*2 in
  let refs := (fun e => match e.2 with RefFile c => lenZ c | RefDir => 0 end)
                <$> map_to_list (repo_refs (ds_repo s)) in
  foldr Z.add 0 (lenZ <$> files) + lenZ (idx_file (cs_index (ds_cas s)))
    + lenZ (default [] (repo_head_file (ds_repo s))) + foldr Z.add 0 refs.

Definition disk_bytes : M Z :=
  _ ← flush_main_ref;
  _ ← on_store Disk.flush;
  gets (fun e => dir_size (be_store e)).

(** [Drop]: errors are ignored. *)
Definition drop_engine (e : EpochsEngine) : EpochsEngine :=
  (on_store Disk.flush (flush_main_ref e).2).2.

#[global] Instance epochs_bench : VcsBench EpochsEngine := {
  bench_name := "epochs";
  bench_commit := commit;
  bench_branch := branch;
  bench_history := history;
  bench_checkout := checkout;
  bench_disk_bytes := disk_bytes
}.

End engine.
End BenchEngine.
