(* ===== verification/BenchSpec.v ===== *)
(** * The benchmark engine and its workload

    [history] of the epochs engine answers from a window of its last commits when it can;
    [bench_history_correct] shows that this never changes the answer, as long as commits are
    made on the tip, and [bench_commit_extends] that such commits keep the window right. *)

From Stdlib Require Import Strings.Byte Strings.String.
From S2P Require Import Prelude Utf8 Hash Codec Record Cache Index Cas HamtNode Hamt HamtTree HamtProofs HamtSpec CasStore CasStoreProofs CasStoreSpec Commit Bfs Dag Repo DiskStore DiskStoreSpec.
From S2P Require Import Text BTree Ast Value Schema PathIndex Engine Reads EngineSpec EvalSpec RefsSpec CommitSpec InitSpec Bench.

(** ** The first-parent line of a commit *)

Fixpoint line (objs : gmap Hash Object) (depth : nat) (h : Hash) : option (list Hash) :=
  match depth with
  | O => Some []
  | S depth =>
      c ← commit_at objs h;
      match parents c with
      | p :: _ => cons h <$> line objs depth p
      | [] => Some [h]
      end
  end.

(** Commits from a tip on, each the first parent of the one before. *)
Inductive linked (objs : gmap Hash Object) : list Hash -> Prop :=
| linked_one h c : commit_at objs h = Some c -> linked objs [h]
| linked_cons h c p ps r :
    commit_at objs h = Some c -> parents c = p :: ps -> linked objs (p :: r) ->
    linked objs (h :: p :: r).

Lemma linked_line objs r d :
  linked objs r -> (d <= length r)%nat ->
  line objs d (default ZERO (head r)) = Some (take d r).
Proof.
  intros Hr. revert d. induction Hr as [h c Hc|h c p ps r Hc Hp _ IH]; intros [|d] Hd; try done;
    cbn [line default head from_option id hd_error]; rewrite Hc; cbn [mbind option_bind].
  - cbn in Hd. replace d with 0%nat by lia. by destruct (parents c) as [|q qs].
  - rewrite Hp. cbn in Hd. specialize (IH d ltac:(cbn; lia)). cbn [default head hd_error from_option id] in IH.
    by rewrite IH.
Qed.

Lemma linked_take objs r n : linked objs r -> (0 < n)%nat -> linked objs (take n r).
Proof.
  intros Hr. revert n. induction Hr as [h c Hc|h c p ps r Hc Hp _ IH]; intros [|n] Hn; try lia.
  - destruct n; by eapply linked_one.
  - destruct n as [|n]; [by eapply linked_one|]. eapply (linked_cons _ _ _ p ps); [done|done|].
    apply (IH (S n)). lia.
Qed.

Lemma linked_mono objs objs' r : objs ⊆ objs' -> linked objs r -> linked objs' r.
Proof.
  intros Hsub. induction 1 as [h c Hc|h c p ps r Hc Hp _ IH].
  - eapply linked_one. by eapply commit_at_mono.
  - eapply linked_cons; [by eapply commit_at_mono|done|done].
Qed.

(** The newest first: what [pushed] leaves of a window. *)
Lemma reverse_pushed id chain :
  reverse (BenchEngine.pushed id chain) = take (Z.to_nat CHAIN_WINDOW) (id :: reverse chain).
Proof.
  unfold BenchEngine.pushed. rewrite <- reverse_snoc. generalize (chain ++ [id]). intros l.
  destruct (Z.ltb_spec CHAIN_WINDOW (lenZ l)) as [Hl|Hl]; unfold lenZ, CHAIN_WINDOW in *.
  - rewrite take_reverse. do 2 f_equal. lia.
  - rewrite take_ge; [done|]. rewrite length_reverse. lia.
Qed.

Section engine.
Context `{Blake3, !MmapLib, !MmapLaws}.

(** The engine between two operations: its window is the line of its tip, whose root it
    remembers. *)
Record engine_ok (e : EpochsEngine) : Prop := {
  engine_store : disk_ok (be_store e);
  engine_linked : linked (disk_objects (be_store e)) (reverse (be_chain e));
  engine_tip : be_tip e = last (be_chain e);
  engine_root : forall t c, be_tip e = Some t ->
    commit_at (disk_objects (be_store e)) t = Some c -> root_hamt c = be_tip_root e
}.

(** The same engine over a store that has only been read. *)
Definition bench_view (e e' : EpochsEngine) : Prop :=
  view (be_store e) (be_store e') /\ e' = BenchEngine.set_store (be_store e') e.

Lemma bench_view_refl e : disk_ok (be_store e) -> bench_view e e.
Proof. intros Hok. split; [by apply view_refl|by destruct e]. Qed.

Lemma keeps_bench {A} e (m : stM DiskStore EpochsError A) Q :
  keeps (view (be_store e)) m Q ->
  keeps (bench_view e) (BenchEngine.on_store m)
    (fun r => exists o, Q o /\ r = map_err EpochsError_to_string o).
Proof.
  intros Hm e1 [Hv He]. unfold BenchEngine.on_store, catch_err, zoom.
  specialize (Hm _ Hv). destruct (m (be_store e1)) as [r s']. destruct Hm as [Hv' HQ]. split.
  - split; [done|]. rewrite He. by destruct e.
  - by exists r.
Qed.

(** The result of a walk of the first-parent line. *)
Definition line_result (objs : gmap Hash Object) (d : nat) (h : Hash) (out : list CommitId)
    (r : outcome string (list CommitId)) : Prop :=
  match line objs d h with
  | Some l => r = Ok (out ++ (Hash.to_string <$> l))
  | None => exists x, r = Err x
  end.

Lemma walk_ok e d h out :
  keeps (bench_view e) (BenchEngine.walk d h out)
    (line_result (disk_objects (be_store e)) d h out).
Proof.
  revert h out. induction d as [|d IH]; intros h out; cbn [BenchEngine.walk line].
  { apply keeps_ret. unfold line_result. cbn. by rewrite app_nil_r. }
  pose proof (keeps_bench e _ _ (keeps_load_commit (be_store e) h)) as Hl.
  unfold commit_result in Hl. unfold line_result. cbn [line].
  intros e1 He1. rewrite stM_bind_eq. specialize (Hl e1 He1).
  destruct (BenchEngine.on_store (Disk.load_commit h) e1) as [r e2].
  destruct Hl as [He2 (o & Ho & ->)].
  destruct (commit_at (disk_objects (be_store e)) h) as [c|]; cbn [mbind option_bind].
  - subst o. cbn [map_err]. destruct (parents c) as [|p ps]; [done|].
    specialize (IH p (out ++ [Hash.to_string h]) e2 He2).
    destruct (BenchEngine.walk d p _ e2) as [r e3]. destruct IH as [? Hr]. split; [done|].
    unfold line_result in Hr. destruct (line _ d p) as [l|]; [|done]. cbn [fmap option_fmap option_map].
    rewrite Hr. by rewrite <- (assoc_L (++)).
  - destruct Ho as [x ->]. split; [done|]. by eexists.
Qed.

(** ** Commits on the tip *)

Lemma engine_grows e s :
  engine_ok e -> disk_ok s -> disk_objects (be_store e) ⊆ disk_objects s ->
  engine_ok (BenchEngine.set_store s e).
Proof.
  intros [Hok Hl Ht Hr] Hs Hsub. split; cbn.
  - done.
  - by eapply linked_mono.
  - done.
  - intros t c Htip Hc. apply (Hr t c Htip).
    assert (exists c', commit_at (disk_objects (be_store e)) t = Some c') as [c' Hc'].
    { rewrite Ht, <- head_reverse in Htip. destruct Hl; cbn in Htip; injection Htip as <-; by eexists. }
    pose proof (commit_at_mono _ _ _ _ Hsub Hc'). congruence.
Qed.

(** Moving a branch leaves the objects alone. *)
Lemma disk_update_branch s n h :
  is_Some (ref_path n) ->
  exists r repo, Disk.update_branch n h s = (r, Disk.set_repo repo s) /\
    match r with Ok _ | Err _ => True | _ => False end.
Proof.
  intros Hp.
  pose proof (update_branch_store (mk_Engine s (mk_SchemaFiles None None None)) n h Hp) as Hu.
  unfold Exec.on_store, catch_err, zoom in Hu. cbn [store] in Hu.
  destruct (Disk.update_branch n h s) as [r s']. destruct Hu as [Hr [repo E]].
  injection E as ->. exists r, repo. split; [done|]. by destruct r.
Qed.

Lemma flush_main_ref_ok e :
  engine_ok e ->
  let '(r, e') := BenchEngine.flush_main_ref e in
  engine_ok e' /\ disk_objects (be_store e') = disk_objects (be_store e) /\
  be_tip e' = be_tip e /\ be_chain e' = be_chain e /\
  match r with Ok _ | Err _ => True | _ => False end.
Proof.
  intros Hok. unfold BenchEngine.flush_main_ref. rewrite stM_bind_eq. unfold gets.
  rewrite stM_bind_eq. destruct (be_tip e) as [t|] eqn:Ht.
  - destruct (disk_update_branch (be_store e) "main" t ltac:(eexists; reflexivity)) as (r & repo & Hu & Hr).
    unfold BenchEngine.on_store, catch_err, zoom. rewrite Hu.
    assert (engine_ok (BenchEngine.set_store (Disk.set_repo repo (be_store e)) e)) as Hok'
      by (apply engine_grows; [done|apply disk_ok_set_repo, Hok|done]).
    destruct r; try done; cbn [map_err]; (split; [by destruct Hok'|]); by rewrite <- Ht.
  - split; [by destruct Hok|]. done.
Qed.

(** What a commit on the tip starts from and writes. *)
Record load_setup (fuel : nat) (e : EpochsEngine) (puts : list KvPut) (msg : string) (t : Hash)
    (base c : Commit) (ot : option tree) : Prop := {
  load_ok : engine_ok e;
  load_tip : be_tip e = Some t;
  load_base : commit_at (disk_objects (be_store e)) t = Some base;
  load_snapshot : snapshot_at (disk_objects (be_store e)) (Some (root_hamt base)) ot;
  load_ops : ops_ok fuel ot ((fun p => Put (put_key p) (put_value p)) <$> puts);
  load_commit : c = new_commit [t]
    (match puts with [] => root_hamt base
     | _ => default ZERO (tree_hash <$> ops_tree ot ((fun p => Put (put_key p) (put_value p)) <$> puts)) end)
    (if ds_ts (be_store e) =? 0 then ds_now (be_store e) else ds_ts (be_store e)) msg;
  load_fits : commit_fits c;
  load_size : lenZ (encode_payload c) < PAYLOAD_LIMIT;
  load_collision : no_collision (disk_objects (be_store e))
    (ops_objects ot ((fun p => Put (put_key p) (put_value p)) <$> puts) ++ [commit_object c])
}.

Lemma commit_base_tip e t parent :
  be_tip e = Some t -> parent = None \/ parent = Some (Hash.to_string t) ->
  BenchEngine.commit_base parent e = (Ok ([t], non_zero (be_tip_root e)), e).
Proof.
  intros Ht [->| ->]; unfold BenchEngine.commit_base, BenchEngine.parse, gets.
  - rewrite stM_bind_eq. rewrite stM_bind_eq. by rewrite Ht.
  - rewrite from_hex_to_string. cbn [map_err]. rewrite (stM_bind_Ok _ _ e t e) by done.
    rewrite stM_bind_eq. rewrite stM_bind_eq. by rewrite decide_True.
Qed.

(** The engine after the commit is stored. *)
Lemma advanced_ok e s t c id :
  engine_ok e -> be_tip e = Some t -> disk_ok s -> disk_objects (be_store e) ⊆ disk_objects s ->
  commit_at (disk_objects s) id = Some c -> parents c = [t] ->
  engine_ok (BenchEngine.advanced id (root_hamt c) (BenchEngine.set_store s e)).
Proof.
  intros Hok Ht Hs Hsub Hc Hp. pose proof (engine_grows e s Hok Hs Hsub) as [_ Hl Htip _].
  cbn [be_store be_chain be_tip BenchEngine.set_store] in Hl, Htip.
  split; unfold BenchEngine.advanced, BenchEngine.push_chain, BenchEngine.set_store;
    cbn [be_store be_chain be_tip be_tip_root be_since_ref_flush be_ref_flush_every].
  - done.
  - rewrite reverse_pushed. apply linked_take; [|unfold CHAIN_WINDOW; lia].
    rewrite Htip, <- head_reverse in Ht. destruct (reverse (be_chain e)) as [|q r]; [done|].
    injection Ht as ->. by eapply linked_cons.
  - by rewrite <- head_reverse, reverse_pushed.
  - intros t' c' [= <-] Hc'. congruence.
Qed.

(** ** A new engine *)

Lemma configure_ok s a b c :
  store_ok (ds_cas s) ->
  disk_ok (Disk.configure_caches a b c s) /\
  disk_objects (Disk.configure_caches a b c s) = disk_objects s.
Proof.
  intros Hok. split; [|done].
  assert (store_ok (Store.set_object_cache_cap a (ds_cas s))) as Hok1.
  { destruct Hok. split; try done. split; [apply Lru.lru_new_ok|]. intros h o.
    unfold Lru.get, Lru.new. simpl. by rewrite lookup_empty. }
  split.
  - cbn [ds_cas Disk.configure_caches Disk.set_cache Disk.set_cas]. unfold Store.set_mmap_cap.
    apply set_maps_ok; [by destruct Hok1|]. intros id m Hm. left. by eapply drop_oldest_sub.
  - apply Lru.lru_new_ok.
  - intros h x. cbn. unfold Lru.get, Lru.new. simpl. by rewrite lookup_empty.
Qed.

Lemma bench_genesis_ok now : 0 <= now < 2 ^ 64 -> genesis_ok "bench genesis" now.
Proof. intros Hn. split; [by apply new_commit_fits|]. reflexivity. Qed.

Lemma open_store_ok now :
  0 <= now < 2 ^ 64 ->
  let c := new_commit [] ZERO now "bench genesis" in
  exists e, BenchEngine.open_store now = Ok e /\ engine_ok e /\ be_tip e = Some (commit_id c) /\
    commit_at (disk_objects (be_store e)) (commit_id c) = Some c.
Proof.
  intros Hn%bench_genesis_ok c.
  destruct (init_store_fresh None now) as (s0 & Hs0 & Hf & Hr & Hnow). rewrite <- Hnow in Hn.
  destruct (init_ok "bench genesis" s0 "main" None Hf Hn Hr) as (s1 & Hrun & Hok1 & Hat & _);
    [reflexivity|by apply (bool_decide_unpack _); vm_compute|].
  rewrite Hnow in Hrun, Hat. fold c in Hrun, Hat. unfold genesis in *. fold c in Hrun, Hat.
  unfold BenchEngine.open_store. rewrite Hs0. cbn [map_err mbind outcome_bind]. rewrite Hrun.
  cbn [map_err mbind outcome_bind].
  destruct (configure_ok (Disk.set_fsync_every 512 s1) 1024 256 2 Hok1) as [Hok2 Hobj].
  change (disk_objects (Disk.set_fsync_every 512 s1)) with (disk_objects s1) in Hobj.
  set (s2 := Disk.configure_caches _ _ _ _) in *. rewrite <- Hobj in Hat.
  pose proof (keeps_commit s2 _ _ Hat s2 (view_refl s2 Hok2)) as Hl.
  destruct (Disk.load_commit (commit_id c) s2) as [r s3]. destruct Hl as [Hv ->].
  cbn [map_err mbind outcome_bind]. eexists. split; [reflexivity|].
  cbn [be_tip be_store]. rewrite (view_objects _ _ Hv). split; [|done].
  split; cbn [be_store be_chain be_tip be_tip_root]; rewrite ?(view_objects _ _ Hv).
  - apply Hv.
  - by eapply linked_one.
  - done.
  - intros t x [= <-] Hx. congruence.
Qed.

End engine.

(** C31: The window of the epochs engine never changes an answer. On an engine whose commits
    were made on the tip, [history] of any commit returns the first commits of its
    first-parent line, the commit first, as many as were asked for or until the first commit
    of all - whether it answers from the window or follows the parent links - and an error
    exactly when a commit on the way is not stored; it changes nothing. *)
Theorem bench_history_correct `{Blake3, !MmapLib, !MmapLaws} (e : EpochsEngine) (h : Hash) (depth : Z) :
  engine_ok e -> 0 <= depth ->
  let '(r, e') := BenchEngine.history (Hash.to_string h) depth e in
  bench_view e e' /\ line_result (disk_objects (be_store e)) (Z.to_nat depth) h [] r.
Proof.
  intros Hok Hd. unfold BenchEngine.history, BenchEngine.parse.
  rewrite from_hex_to_string. cbn [map_err]. rewrite (stM_bind_Ok _ _ e h e) by done.
  rewrite stM_bind_eq. unfold gets.
  destruct (bool_decide (last (be_chain e) = Some h) && (depth <=? lenZ (be_chain e))) eqn:E.
  - apply andb_prop in E as [Hl%bool_decide_eq_true Hlen]. apply Z.leb_le in Hlen. unfold lenZ in Hlen.
    split; [by apply bench_view_refl, Hok|].
    pose proof (linked_line _ _ (Z.to_nat depth) (engine_linked _ Hok)
      ltac:(rewrite length_reverse; lia)) as Hline.
    assert (default ZERO (head (reverse (be_chain e))) = h) as Hh.
    { rewrite <- head_reverse in Hl. by rewrite Hl. }
    rewrite Hh in Hline. unfold line_result. rewrite Hline. cbn [app]. do 2 f_equal.
    by rewrite reverse_drop, Nat.sub_sub_distr, Nat.sub_diag by lia.
  - apply walk_ok. by apply bench_view_refl, Hok.
Qed.

(** A commit on the tip extends the line. Made without a parent, or on the tip itself, a
    commit that succeeds returns its hash, is stored with the tip as its parent, and its
    snapshot is that of the tip with the puts applied in order; it becomes the tip, and the
    window stays right. When it fails the engine stays in order, and no object is lost. *)
Theorem bench_commit_extends `{Blake3, !MmapLib, !MmapLaws} (fuel : nat) (e : EpochsEngine)
    (parent : option CommitId) (puts : list KvPut) (msg : string) (t : Hash) (base c : Commit)
    (ot : option tree) :
  load_setup fuel e puts msg t base c ot -> parent = None \/ parent = Some (Hash.to_string t) ->
  let ops := (fun p => Put (put_key p) (put_value p)) <$> puts in
  let '(r, e') := BenchEngine.commit fuel parent puts msg e in
  engine_ok e' /\ disk_objects (be_store e) ⊆ disk_objects (be_store e') /\
  match r with
  | Ok id =>
      id = Hash.to_string (commit_id c) /\ be_tip e' = Some (commit_id c) /\
      commit_at (disk_objects (be_store e')) (commit_id c) = Some c /\
      snapshot_at (disk_objects (be_store e')) (Some (root_hamt c)) (ops_tree ot ops) /\
      root_map (ops_tree ot ops) = foldl op_map (root_map ot) ops
  | Err _ => True
  | _ => False
  end.
Proof.
  intros [Hok Ht Hbase Hat Hops Hc Hfit Hlen Hnc] Hpar ops. unfold BenchEngine.commit.
  rewrite (stM_bind_Ok _ _ _ _ _ (commit_base_tip e t parent Ht Hpar)). cbv zeta. fold ops in Hops, Hc, Hnc |- *.
  pose proof (engine_root _ Hok t base Ht Hbase) as Hroot. rewrite <- Hroot.
  pose proof (apply_hamt_ops_ok fuel ops (root_hamt base) ot (be_store e) _ (engine_store _ Hok) Hnc Hat
    Hops ltac:(intros o Ho; apply elem_of_app; by left)) as Hap.
  change (non_zero (root_hamt base)) with
    (if decide (root_hamt base = ZERO) then None else Some (root_hamt base)).
  assert (match puts with [] => root_hamt base | _ => default ZERO (tree_hash <$> ops_tree ot ops) end =
    match ops with [] => root_hamt base | _ => default ZERO (tree_hash <$> ops_tree ot ops) end) as Eroot
    by (unfold ops; by destruct puts).
  rewrite Eroot in Hc. set (root := match ops with [] => _ | _ => _ end) in *. cbv zeta in Hap.
  rewrite stM_bind_eq. unfold BenchEngine.on_store at 1, catch_err, zoom.
  destruct (Disk.apply_hamt_ops fuel _ ops (be_store e)) as [r s1].
  destruct Hap as (Hok1 & Hsub1 & Hnc1 & Hs1 & Hr).
  assert (engine_ok (BenchEngine.set_store s1 e)) as He1 by (by apply engine_grows).
  destruct r as [h|x| |]; cbn [map_err]; try done. destruct Hr as (-> & Hat1 & Hmap).
  pose proof (commit_with_root_ok s1 [t] root msg Hok1) as Hcw. cbv zeta in Hcw.
  assert (ds_ts s1 = ds_ts (be_store e) /\ ds_now s1 = ds_now (be_store e)) as [Ets Enow]
    by (rewrite Hs1; done).
  rewrite Ets, Enow, <- Hc in Hcw. specialize (Hcw Hfit Hlen).
  rewrite stM_bind_eq. unfold BenchEngine.on_store at 1, catch_err, zoom.
  cbn [be_store BenchEngine.set_store].
  destruct (Disk.commit_with_root [t] root msg s1) as [r s2].
  destruct Hcw as (Hok2 & Hsub2 & _ & Hr).
  { eapply no_collision_sub; [|exact Hnc1]. intros o Ho. apply elem_of_app. by right. }
  assert (disk_objects (be_store e) ⊆ disk_objects s2) as Hsub by (by etransitivity).
  assert (engine_ok (BenchEngine.set_store s2 e)) as He2 by (by apply engine_grows).
  destruct r as [h|x| |]; cbn [map_err]; try done. destruct Hr as (-> & Hat2 & _).
  assert (root_hamt c = root /\ parents c = [t]) as [Erc Epc] by (by rewrite Hc).
  pose proof (advanced_ok e s2 t c (commit_id c) Hok Ht Hok2 Hsub Hat2 Epc) as He3.
  rewrite Erc in He3. rewrite stM_bind_eq. cbn [modify].
  change (BenchEngine.set_store s2 (BenchEngine.set_store s1 e)) with (BenchEngine.set_store s2 e).
  set (e3 := BenchEngine.advanced (commit_id c) root (BenchEngine.set_store s2 e)) in *.
  assert (snapshot_at (disk_objects s2) (Some (root_hamt c)) (ops_tree ot ops)) as Hsnap.
  { rewrite Erc. unfold snapshot_at in *. by apply (root_at_mono _ _ _ _ Hsub2). }
  rewrite stM_bind_eq. unfold gets at 1. rewrite stM_bind_eq. unfold gets at 1.
  rewrite stM_bind_eq. destruct (be_ref_flush_every e3 <=? be_since_ref_flush e3).
  - pose proof (flush_main_ref_ok e3 He3) as Hfl.
    destruct (BenchEngine.flush_main_ref e3) as [r e4].
    destruct Hfl as (He4 & Hobj & Htip & _ & Hr). change (disk_objects (be_store e3)) with (disk_objects s2) in Hobj.
    destruct r; try done; (split; [done|]); rewrite Hobj; (split; [done|]); [|done].
    split; [done|]. split; [by rewrite Htip|done].
  - split; [done|]. split; [exact Hsub|]. done.
Qed.

Section witnesses.

#[local] Existing Instance toy_hash.
#[local] Existing Instance id_mmap.
#[local] Existing Instance id_mmap_laws.

(** A new engine, and after one commit and after another on its first commit. *)
Definition ex_bench : EpochsEngine :=
  match BenchEngine.open_store 1000 with Ok e => e | _ => mk_EpochsEngine ex_disk None ZERO [] 0 512 end.

Definition ex_bench_c : Commit := new_commit [] ZERO 1000 "bench genesis".
Definition ex_put : KvPut := mk_KvPut ex_key1 ex_val.

Definition ex_branched : EpochsEngine :=
  let e := (BenchEngine.commit 70 None [ex_put] "a" ex_bench).2 in
  (BenchEngine.commit 70 (Some (Hash.to_string (commit_id ex_bench_c))) [] "b" e).2.

(** After a commit on an older commit the window is wrong: the second commit of the history
    of the tip is its sibling, not its parent. *)
Example window_after_branching :
  match be_tip ex_branched with
  | Some tip =>
      (BenchEngine.history (Hash.to_string tip) 2 ex_branched).1 =
        Ok (Hash.to_string <$> reverse (drop 1 (be_chain ex_branched))) /\
      line (disk_objects (be_store ex_branched)) 2 tip = Some [tip; commit_id ex_bench_c] /\
      reverse (drop 1 (be_chain ex_branched)) ≠ [tip; commit_id ex_bench_c]
  | None => False
  end.
Proof. vm_compute. split; [reflexivity|]. split; [reflexivity|]. congruence. Qed.

Lemma ex_bench_ok :
  engine_ok ex_bench /\ be_tip ex_bench = Some (commit_id ex_bench_c) /\
  commit_at (disk_objects (be_store ex_bench)) (commit_id ex_bench_c) = Some ex_bench_c.
Proof.
  destruct (open_store_ok 1000 ltac:(lia)) as (e & E & Hok). unfold ex_bench. rewrite E. exact Hok.
Qed.

Lemma bench_history_correct_witness :
  let '(r, e') := BenchEngine.history (Hash.to_string (commit_id ex_bench_c)) 5 ex_bench in
  bench_view ex_bench e' /\
  line_result (disk_objects (be_store ex_bench)) 5 (commit_id ex_bench_c) [] r.
Proof.
  pose proof (bench_history_correct ex_bench (commit_id ex_bench_c) 5 (proj1 ex_bench_ok)
    ltac:(lia)) as Hp.
  exact Hp.
Defined.

Definition ex_bench_ops : list HamtOp := [Put ex_key1 ex_val].
Definition ex_bench_c2 : Commit :=
  new_commit [commit_id ex_bench_c] (default ZERO (tree_hash <$> ops_tree None ex_bench_ops)) 1000 "a".

Lemma ex_bench_collision :
  no_collision (disk_objects (be_store ex_bench))
    (ops_objects None ex_bench_ops ++ [commit_object ex_bench_c2]).
Proof. apply (bool_decide_unpack (no_collision _ _)). vm_compute. exact I. Qed.

Lemma ex_load_setup :
  load_setup 70 ex_bench [ex_put] "a" (commit_id ex_bench_c) ex_bench_c ex_bench_c2 None.
Proof.
  split.
  - apply ex_bench_ok.
  - apply ex_bench_ok.
  - apply ex_bench_ok.
  - split; [vm_compute; reflexivity|exact I].
  - split; [split; vm_compute; reflexivity|]. split; [reflexivity|].
    split; [apply (bool_decide_unpack _); vm_compute; exact I|].
    split; [apply Nat.leb_le; reflexivity|exact I].
  - vm_compute. reflexivity.
  - split; vm_compute; intuition congruence.
  - vm_compute. reflexivity.
  - exact ex_bench_collision.
Qed.

Lemma bench_commit_extends_witness :
  let '(r, e') := BenchEngine.commit 70 None [ex_put] "a" ex_bench in
  engine_ok e' /\ disk_objects (be_store ex_bench) ⊆ disk_objects (be_store e') /\
  match r with
  | Ok id =>
      id = Hash.to_string (commit_id ex_bench_c2) /\ be_tip e' = Some (commit_id ex_bench_c2) /\
      commit_at (disk_objects (be_store e')) (commit_id ex_bench_c2) = Some ex_bench_c2 /\
      snapshot_at (disk_objects (be_store e')) (Some (root_hamt ex_bench_c2)) (ops_tree None ex_bench_ops) /\
      root_map (ops_tree None ex_bench_ops) = foldl op_map (root_map None) ex_bench_ops
  | Err _ => True
  | _ => False
  end.
Proof.
  pose proof (bench_commit_extends 70 ex_bench None [ex_put] "a" _ _ _ None ex_load_setup
    (or_introl eq_refl)) as Hp.
  exact Hp.
Defined.

End witnesses.
