(* ===== verification/WorkloadSpec.v ===== *)
(** * The workload accepts every correct backend

    [BenchLaws] says what a versioned store must do; [bench_workload_accepts] shows that the
    workload then runs to its end and that all its checks pass: the sampled commits are
    among those it kept, and its formula for the number of live keys is right. *)

From Stdlib Require Import Strings.Byte Strings.String.
From S2P Require Import Prelude Utf8 Hash Bench.

Abbreviation KvState := (gmap (list byte) (list byte)).

Definition put_all (puts : list KvPut) (m : KvState) : KvState :=
  foldl (fun m p => <[put_key p := put_value p]> m) m puts.

(** A backend whose commits are snapshots: [bl_state] gives the state of each commit it can
    check out, [bl_now] the state of its tip. It has room for [bl_room] commits, and takes
    the puts and the names of branches that [bl_accepts] and [bl_names] describe. *)
Class BenchLaws (B : Type) `{VcsBench B} := {
  bl_inv : B -> Prop;
  bl_state : B -> CommitId -> option KvState;
  bl_now : B -> KvState;
  bl_room : B -> Z;
  bl_accepts : list KvPut -> string -> Prop;
  bl_names : string -> Prop;
  bl_commit s puts msg : bl_inv s -> 0 < bl_room s -> bl_accepts puts msg ->
    exists id s', bench_commit None puts msg s = (Ok id, s') /\ bl_inv s' /\
      bl_room s - 1 <= bl_room s' /\ bl_now s' = put_all puts (bl_now s) /\
      (forall id m, bl_state s id = Some m -> bl_state s' id = Some m) /\
      bl_state s' id = Some (bl_now s');
  bl_branch s name id : bl_inv s -> bl_names name -> is_Some (bl_state s id) ->
    exists s', bench_branch name id s = (Ok tt, s') /\ bl_inv s' /\
      forall id, bl_state s' id = bl_state s id;
  bl_history s id depth : bl_inv s -> is_Some (bl_state s id) -> 0 < depth ->
    exists l s', bench_history id depth s = (Ok l, s') /\ l ≠ [] /\ bl_inv s' /\
      forall id, bl_state s' id = bl_state s id;
  bl_checkout s id m : bl_inv s -> bl_state s id = Some m ->
    exists s', bench_checkout id s = (Ok m, s') /\ bl_inv s' /\
      forall id, bl_state s' id = bl_state s id;
  bl_disk_bytes s : bl_inv s -> exists n s', bench_disk_bytes s = (Ok n, s')
}.

(** A loop whose body succeeds and keeps [I]. *)
Lemma for_each_ok {S E A} (I : S -> Prop) (l : list A) (body : A -> stM S E unit) s :
  (forall x s, x ∈ l -> I s -> exists s', body x s = (Ok tt, s') /\ I s') -> I s ->
  exists s', for_each l body s = (Ok tt, s') /\ I s'.
Proof.
  revert s. induction l as [|x l IH]; intros s Hb HI; cbn [for_each]; [by exists s|].
  destruct (Hb x s) as (s1 & E1 & H1); [by left|done|].
  rewrite (stM_bind_Ok _ _ _ _ _ E1). apply IH; [|done]. intros. apply Hb; [by right|done].
Qed.

(** ** Keys *)

Lemma key_of_inj x y : 0 <= x -> 0 <= y -> Workload.key_of x = Workload.key_of y -> x = y.
Proof.
  unfold Workload.key_of, u64_text. intros Hx Hy E%(inj str_bytes).
  apply (inj (String.append "k/")), (inj pretty) in E. lia.
Qed.

Section keys.
Context (opts : BenchOpts) (live puts_n : Z).
Context (Hlive : 0 < live) (Hputs : 0 < puts_n).

(** The key of the [x]th put of the load. *)
Definition put_id (x : Z) : Z := match shape opts with Deep => x mod live | Wide => x end.

Lemma key_id_eq i p :
  0 <= i -> 0 <= p < puts_n -> (i + 1) * puts_n < 2 ^ 64 ->
  Workload.key_id (shape opts) live puts_n i p = put_id (i * puts_n + p).
Proof.
  intros Hi Hp Hb. unfold Workload.key_id, put_id, u64.
  assert (0 <= i * puts_n) by nia.
  rewrite (Z.mod_small (i * puts_n)) by nia. by rewrite (Z.mod_small (_ + _)) by nia.
Qed.

(** The state after the first [i] commits. *)
Definition state_after (i : Z) : KvState :=
  foldl (fun m j => put_all (Workload.puts_of opts live puts_n j) m) ∅ (seqZ 0 i).

Lemma state_after_succ i :
  0 <= i -> state_after (i + 1) = put_all (Workload.puts_of opts live puts_n i) (state_after i).
Proof.
  intros Hi. unfold state_after. rewrite seqZ_app by lia. rewrite foldl_app. f_equal.
Qed.

Lemma elem_put_all puts m k :
  k ∈ dom (put_all puts m) <-> k ∈ dom m \/ k ∈ put_key <$> puts.
Proof.
  unfold put_all. revert m. induction puts as [|p puts IH]; intros m; cbn [foldl fmap list_fmap].
  - rewrite elem_of_nil. naive_solver.
  - rewrite IH, dom_insert, elem_of_union, elem_of_singleton, elem_of_cons. naive_solver.
Qed.

Lemma elem_puts_of i k :
  0 <= i -> (i + 1) * puts_n < 2 ^ 64 ->
  k ∈ put_key <$> Workload.puts_of opts live puts_n i <->
  exists x, i * puts_n <= x < (i + 1) * puts_n /\ k = Workload.key_of (put_id x).
Proof.
  intros Hi Hb. unfold Workload.puts_of. cbv zeta. rewrite <- list_fmap_compose, list_elem_of_fmap.
  split.
  - intros (p & -> & Hp%elem_of_seqZ). exists (i * puts_n + p). split; [nia|]. cbn.
    by rewrite key_id_eq by lia.
  - intros (x & Hx & ->). exists (x - i * puts_n). split; [|apply elem_of_seqZ; lia]. cbn.
    rewrite key_id_eq by lia. do 2 f_equal. lia.
Qed.

Lemma elem_state_after i k :
  0 <= i -> i * puts_n < 2 ^ 64 ->
  k ∈ dom (state_after i) <-> exists x, 0 <= x < i * puts_n /\ k = Workload.key_of (put_id x).
Proof.
  intros Hi. pattern i. apply natlike_ind; [|clear i Hi; intros i Hi IH|done].
  - intros _. change (state_after 0) with (∅ : KvState). rewrite dom_empty, elem_of_empty. split; [done|].
    intros (x & Hx & _). lia.
  - intros Hb. replace (Z.succ i) with (i + 1) in * by lia.
    rewrite state_after_succ, elem_put_all, IH, elem_puts_of by nia. split.
    + intros [(x & Hx & ->)|(x & Hx & ->)]; exists x; (split; [nia|done]).
    + intros (x & Hx & ->). destruct (Z.lt_ge_cases x (i * puts_n)); [left|right]; exists x; (split; [lia|done]).
Qed.

(** The keys are numbered from 0 on. *)
Lemma size_state_after i :
  0 <= i -> i * puts_n < 2 ^ 64 ->
  Z.of_nat (size (state_after i)) =
    match shape opts with Deep => Z.min live (i * puts_n) | Wide => i * puts_n end.
Proof.
  intros Hi Hb. set (n := match shape opts with Deep => _ | Wide => _ end).
  assert (0 <= n) by (unfold n; destruct (shape opts); nia).
  rewrite <- size_dom.
  assert (dom (state_after i) = (list_to_set (Workload.key_of <$> seqZ 0 n) : gset (list byte))) as ->.
  { apply set_eq. intros k. rewrite elem_state_after, elem_of_list_to_set, list_elem_of_fmap by done.
    unfold put_id, n. split.
    - intros (x & Hx & ->). eexists. split; [reflexivity|]. apply elem_of_seqZ.
      destruct (shape opts); [|lia]. pose proof (Z.mod_pos_bound x live Hlive).
      pose proof (Z.mod_le x live ltac:(lia) Hlive). lia.
    - intros (y & -> & Hy%elem_of_seqZ). exists y. destruct (shape opts); [|split; [lia|done]].
      split; [lia|]. by rewrite Z.mod_small by lia. }
  rewrite size_list_to_set, length_fmap, length_seqZ; [lia|].
  apply NoDup_fmap_2_strong; [|apply NoDup_seqZ].
  intros x y Hx%elem_of_seqZ Hy%elem_of_seqZ E. apply key_of_inj in E; lia.
Qed.

End keys.

(** ** The sampled commits *)

Lemma branch_source_range n branches b :
  0 < n -> 0 < branches -> 0 <= b -> 0 <= Workload.branch_source n branches b < n.
Proof.
  intros Hn Hbr Hb. unfold Workload.branch_source, u64.
  pose proof (Z.mod_pos_bound (b * n) (2 ^ 64) ltac:(lia)).
  pose proof (Z.div_pos ((b * n) mod 2 ^ 64) branches ltac:(lia) Hbr). lia.
Qed.

Lemma sample_index_range n r s :
  0 < n -> 21 * n < 2 ^ 64 -> 1 <= r <= 20 -> 0 <= s < r - 1 ->
  0 <= Workload.sample_index n r s < n.
Proof.
  intros Hn Hb Hr Hs. unfold Workload.sample_index, u64. rewrite Z.mod_small by nia.
  split; [apply Z.div_pos; nia|]. apply Z.div_lt_upper_bound; nia.
Qed.

Lemma keep_range n branches r i :
  0 < n -> 21 * n < 2 ^ 64 -> 0 < branches -> 1 <= r <= 20 ->
  i ∈ Workload.keep_idx n branches r -> 0 <= i < n.
Proof.
  intros Hn Hb Hbr Hr. unfold Workload.keep_idx.
  rewrite !elem_of_union, elem_of_singleton, !elem_of_list_to_set, !list_elem_of_fmap.
  intros [[->|(b & -> & Hin%elem_of_seqZ)]|(s & -> & Hin%elem_of_seqZ)].
  - lia.
  - apply branch_source_range; lia.
  - apply sample_index_range; lia.
Qed.

Lemma elem_spread others need x : x ∈ Workload.spread others need -> x ∈ others.
Proof.
  unfold Workload.spread. destruct others as [|y l]; [by intros ?%not_elem_of_nil|].
  intros (s & -> & Hs%elem_of_seqZ)%list_elem_of_fmap. apply list_elem_of_In, nth_In.
  unfold lenZ. set (k := Z.of_nat (length (y :: l))).
  assert (0 < k) by (unfold k; cbn [length]; lia).
  assert (0 <= s * k / need < k).
  { split; [apply Z.div_pos; nia|]. apply Z.div_lt_upper_bound; nia. }
  unfold k in *. lia.
Qed.

Lemma r2_indexes_keep n r keep x :
  n - 1 ∈ keep -> x ∈ Workload.r2_indexes n r keep -> x ∈ keep.
Proof.
  intros Htip. unfold Workload.r2_indexes. cbv zeta.
  assert (forall y, y ∈ merge_sort Z.le (elements keep) -> y ∈ keep) as Hs.
  { intros y. rewrite merge_sort_Permutation. apply elem_of_elements. }
  destruct (_ <? _); [|apply Hs]. intros [->|Hx]%elem_of_cons; [done|].
  apply elem_spread, list_elem_of_filter in Hx as [_ Hx]. by apply Hs.
Qed.

(** ** The load *)

Section load.
Context {B : Type} `{BenchLaws B}.
Context (opts : BenchOpts) (live puts_n : Z) (keep : gset Z).

Definition kept_ok (kept : list (Z * CommitId)) (s : B) : Prop :=
  forall i id, (i, id) ∈ kept -> bl_state s id = Some (state_after opts live puts_n (i + 1)).

Definition covers (a : Z) (kept : list (Z * CommitId)) : Prop :=
  forall i, i ∈ keep -> 0 <= i < a -> exists id, (i, id) ∈ kept.

Lemma id_at_ok a kept i :
  covers a kept -> i ∈ keep -> 0 <= i < a ->
  exists id, Workload.id_at kept i = Ok id /\ (i, id) ∈ kept.
Proof.
  intros Hc Hi Ha. destruct (Hc i Hi Ha) as [id Hid]. unfold Workload.id_at.
  destruct (List.find (fun e => e.1 =? i) kept) as [[j id']|] eqn:E.
  - apply List.find_some in E as [Hin Hj%Z.eqb_eq]. cbn in Hj. subst j.
    exists id'. split; [done|]. by apply list_elem_of_In.
  - apply list_elem_of_In in Hid. apply (List.find_none _ _ E) in Hid. cbn in Hid. lia.
Qed.

Lemma load_ok k a kept tip s :
  bl_inv s -> 0 <= a -> bl_now s = state_after opts live puts_n a -> kept_ok kept s ->
  covers a kept -> (forall id, tip = Some id -> is_Some (bl_state s id)) ->
  Z.of_nat k <= bl_room s ->
  (forall i, a <= i < a + Z.of_nat k -> bl_accepts (Workload.puts_of opts live puts_n i) "c") ->
  exists kept' tip' s',
    Workload.load opts live puts_n keep (seqZ a (Z.of_nat k)) kept tip s = (Ok (kept', tip'), s') /\
    bl_inv s' /\ kept_ok kept' s' /\ covers (a + Z.of_nat k) kept' /\
    (forall id, tip' = Some id -> is_Some (bl_state s' id)) /\
    (is_Some tip \/ (0 < k)%nat -> is_Some tip').
Proof.
  revert a kept tip s. induction k as [|k IH]; intros a kept tip s Hinv Ha Hnow Hk Hc Ht Hroom Hacc.
  { exists kept, tip, s. cbn [Workload.load]. split_and!; try done.
    - by replace (a + Z.of_nat 0) with a by lia.
    - intros [?|?]; [done|lia]. }
  rewrite seqZ_cons by lia. cbn [Workload.load].
  destruct (bl_commit s (Workload.puts_of opts live puts_n a) "c" Hinv ltac:(lia) (Hacc a ltac:(lia)))
    as (id & s1 & Hrun & Hinv1 & Hroom1 & Hnow1 & Hsub & Hid).
  rewrite (stM_bind_Ok _ _ _ _ _ Hrun).
  rewrite Hnow, <- state_after_succ in Hnow1 by done.
  assert (kept_ok kept s1) as Hk1.
  { intros j id' Hj. by apply Hsub, Hk. }
  replace (Z.pred (Z.of_nat (S k))) with (Z.of_nat k) by lia.
  replace (Z.succ a) with (a + 1) by lia.
  destruct (IH (a + 1) (if decide (a ∈ keep) then kept ++ [(a, id)] else kept) (Some id) s1)
    as (kept' & tip' & s' & Hl & Hinv' & Hk' & Hc' & Ht' & Hsome); [done|lia|done|..|lia|intros i Hi; apply Hacc; lia|].
  - case_decide; [|done]. intros j id' [Hj|Hj]%elem_of_app; [by apply Hk1|].
    apply list_elem_of_singleton in Hj as [= -> ->]. by rewrite Hid, Hnow1.
  - intros j Hj Hr. destruct (Z.eq_dec j a) as [->|Hne].
    + rewrite decide_True by done. exists id. apply elem_of_app. right. by left.
    + destruct (Hc j Hj ltac:(lia)) as [id' Hid']. exists id'. case_decide; [|done].
      apply elem_of_app. by left.
  - intros id' [= <-]. by rewrite Hid.
  - exists kept', tip', s'. split_and!; try done.
    + by replace (a + Z.of_nat (S k)) with (a + 1 + Z.of_nat k) by lia.
    + intros _. apply Hsome. left. by eexists.
Qed.

(** What the rest of the workload keeps. *)
Definition same_commits (s s' : B) : Prop := bl_inv s' /\ forall id, bl_state s' id = bl_state s id.

Lemma make_branch_ok n branches kept s s1 b :
  kept_ok kept s -> covers n kept -> 0 < n -> 0 < branches ->
  Workload.branch_source n branches b ∈ keep -> 0 <= b -> bl_names ("b" +:+ u64_text b) ->
  same_commits s s1 ->
  exists s2, Workload.make_branch n branches kept b s1 = (Ok tt, s2) /\ same_commits s s2.
Proof.
  intros Hk Hc Hn Hbr Hin Hb Hname [Hinv Hst]. unfold Workload.make_branch.
  destruct (id_at_ok n kept _ Hc Hin (branch_source_range _ _ _ Hn Hbr Hb)) as (id & Hid & Hkept).
  rewrite Hid. rewrite (stM_bind_Ok _ _ s1 id s1) by done. apply Hk in Hkept.
  destruct (bl_branch s1 ("b" +:+ u64_text b) id Hinv Hname) as (s2 & -> & Hinv2 & Hst2).
  { rewrite Hst, Hkept. by eexists. }
  exists s2. split; [done|]. split; [done|]. intros id'. by rewrite Hst2.
Qed.

Lemma read_history_ok tip depth s s1 x :
  is_Some (bl_state s tip) -> 0 < depth -> same_commits s s1 ->
  exists s2, Workload.read_history tip depth x s1 = (Ok tt, s2) /\ same_commits s s2.
Proof.
  intros Htip Hd [Hinv Hst]. unfold Workload.read_history.
  destruct (bl_history s1 tip depth Hinv) as (l & s2 & Hrun & Hl & Hinv2 & Hst2);
    [by rewrite Hst|done|].
  rewrite (stM_bind_Ok _ _ _ _ _ Hrun), decide_False by done.
  exists s2. split; [done|]. split; [done|]. intros id'. by rewrite Hst2.
Qed.

Lemma check_checkout_ok kept s s1 n idx :
  0 < live -> 0 < puts_n -> n * puts_n < 2 ^ 64 ->
  kept_ok kept s -> covers n kept -> idx ∈ keep -> 0 <= idx < n -> same_commits s s1 ->
  exists s2, Workload.check_checkout (shape opts) live puts_n kept idx s1 = (Ok tt, s2) /\
    same_commits s s2.
Proof.
  intros Hlive Hputs Hb Hk Hc Hin Hidx [Hinv Hst]. unfold Workload.check_checkout.
  destruct (id_at_ok n kept idx Hc Hin Hidx) as (id & Hid & Hkept). rewrite Hid.
  rewrite (stM_bind_Ok _ _ s1 id s1) by done. apply Hk in Hkept. rewrite <- Hst in Hkept.
  destruct (bl_checkout s1 id _ Hinv Hkept) as (s2 & Hrun & Hinv2 & Hst2).
  rewrite (stM_bind_Ok _ _ _ _ _ Hrun). cbv zeta.
  rewrite size_state_after by nia. unfold Workload.expected, saturating_mul.
  rewrite (Z.min_l ((idx + 1) * puts_n)) by nia. rewrite Z.eqb_refl.
  exists s2. split; [done|]. split; [done|]. intros id'. by rewrite Hst2.
Qed.

End load.

(** The number of live keys of a run. *)
Definition live_of (opts : BenchOpts) : Z :=
  match shape opts with
  | Deep => Z.max (default (live_keys (tier opts)) (keys_override opts)) 1
  | Wide => Z.max (default (default (commits (tier opts)) (commits_override opts)) (keys_override opts)) 1
  end.

(** C30: The workload accepts every correct backend. On a new backend that keeps its commits as
    snapshots ([BenchLaws]), has room for the commits and takes the puts and branch names of
    the workload, with at least one commit and a history depth of at least one, and a number
    of puts that fits 64 bits, the run succeeds: every sampled commit was kept, no history is
    empty, and each checkout has exactly the number of keys the workload computes, in both
    shapes. *)
Theorem bench_workload_accepts {B : Type} `{BenchLaws B} (opts : BenchOpts) (s : B) :
  let n := default (commits (tier opts)) (commits_override opts) in
  let puts_n := Z.max (puts_per_commit opts) 1 in
  bl_inv s -> bl_now s = ∅ -> n <= bl_room s ->
  (forall i, 0 <= i < n -> bl_accepts (Workload.puts_of opts (live_of opts) puts_n i) "c") ->
  (forall b, 0 <= b < Z.max (branch_count opts) 1 -> bl_names ("b" +:+ u64_text b)) ->
  0 < n -> n * puts_n < 2 ^ 64 -> 21 * n < 2 ^ 64 -> 0 < history_depth opts ->
  exists report s', Workload.run_bench opts s = (Ok report, s') /\
    report_commits report = n /\ report_shape report = shape opts.
Proof.
  intros n puts_n Hinv Hnow Hroom Hacc Hnames Hn Hb1 Hb2 Hd. unfold Workload.run_bench. fold n puts_n.
  replace (n =? 0) with false by lia. cbv zeta.
  change (match shape opts with Deep => _ | Wide => _ end) with (live_of opts).
  set (live := live_of opts) in *.
  assert (0 < live) as Hlive by (unfold live, live_of; destruct (shape opts); lia).
  set (branches := Z.max (branch_count opts) 1).
  set (r2 := Z.min (Z.max (checkout_samples opts) 1) 20).
  assert (1 <= r2 <= 20) as Hr2 by (unfold r2; lia).
  assert (0 < branches) as Hbr by (unfold branches; lia).
  assert (0 < puts_n) as Hputs by (unfold puts_n; lia).
  set (keep := Workload.keep_idx n branches r2).
  assert (forall i, i ∈ keep -> 0 <= i < n) as Hkeep by (intros i Hi; by apply (keep_range n branches r2)).
  destruct (load_ok opts live puts_n keep (Z.to_nat n) 0 [] None s)
    as (kept & tip & s1 & Hl & Hinv1 & Hk & Hc & Ht & Hsome); try done.
  { intros i id Hi. by apply not_elem_of_nil in Hi. }
  { intros i _ Hi. lia. }
  { lia. }
  { intros i Hi. apply Hacc. lia. }
  rewrite Z2Nat.id in Hl, Hc by lia. unfold Workload.range at 1.
  rewrite (stM_bind_Ok _ _ _ _ _ Hl). cbn [Z.add] in Hc.
  destruct Hsome as [tip' ->]; [right; lia|]. specialize (Ht tip' eq_refl).
  destruct (for_each_ok (same_commits s1) (Workload.range branches)
    (Workload.make_branch n branches kept) s1) as (s2 & Hb & H2); [|by split|].
  { intros b s' Hin Hs. pose proof Hin as Hr%elem_of_seqZ.
    eapply (make_branch_ok opts live puts_n keep); try done; [|lia|apply Hnames; lia].
    unfold keep, Workload.keep_idx. apply elem_of_union. left. apply elem_of_union. right.
    apply elem_of_list_to_set. by apply list_elem_of_fmap_2. }
  rewrite (stM_bind_Ok _ _ _ _ _ Hb).
  destruct (for_each_ok (same_commits s1) (Workload.range (Z.min (Z.max (checkout_samples opts) 1) 200))
    (Workload.read_history tip' (history_depth opts)) s2) as (s3 & Hh & H3); [|done|].
  { intros x s' _ Hs. by apply read_history_ok. }
  rewrite (stM_bind_Ok _ _ _ _ _ Hh).
  destruct (for_each_ok (same_commits s1) (Workload.r2_indexes n r2 keep)
    (Workload.check_checkout (shape opts) live puts_n kept) s3) as (s4 & Hck & [H4 _]); [|done|].
  { intros i s' Hi Hs. apply r2_indexes_keep in Hi.
    - eapply (check_checkout_ok opts live puts_n keep kept s1 s' n); try done. by apply Hkeep.
    - unfold keep, Workload.keep_idx. apply elem_of_union. left. apply elem_of_union. left.
      by apply elem_of_singleton. }
  rewrite (stM_bind_Ok _ _ _ _ _ Hck).
  destruct (bl_disk_bytes s4 H4) as (bytes & s5 & Hdisk).
  rewrite (stM_bind_Ok _ _ _ _ _ Hdisk). eexists _, s5. split; [reflexivity|]. by split.
Qed.
