(* ===== verification/Sql.v ===== *)
(** * The SQL peers of the benchmark ([epochs-bench/src/engines/sqlite.rs], [mysql_eng.rs],
      [postgres_eng.rs])

    The three engines keep the commit graph in the tables [commits], [commit_ops] and
    [branches] of a database, and replay the puts of the ancestors on checkout. The
    databases and their drivers are not under src/: the class [SqlTables] has one operation
    for each statement that the engines send, over a connection [C], and the classes
    [Sqlite], [Mysql] and [Postgres] those by which one engine asks for its size. The
    engines differ in little else ([Dialect]), so their methods are instances of the ones of
    [SqlVcs]. *)

From Stdlib Require Import Strings.Byte Strings.String.
From S2P Require Import Prelude Hash Text Bench.

(** [as i64]. *)
Definition i64 (z : Z) : Z := (z + 2 ^ 63) mod 2 ^ 64 - 2 ^ 63.

(** ** [str::parse::<i64>], with the message of its error *)

Fixpoint parse_digits (negative : bool) (l : list byte) (acc : Z) : outcome string Z :=
  match l with
  | [] => Ok acc
  | b :: l =>
      let v := byte_val b - 48 in
      if (v <? 0) || (9 <? v) then Err invalid_digit
      else
        let acc := if negative then acc * 10 - v else acc * 10 + v in
        if 2 ^ 63 <=? acc then Err "number too large to fit in target type"
        else if acc <? - 2 ^ 63 then Err "number too small to fit in target type"
        else parse_digits negative l acc
  end.

Definition parse_id (s : string) : outcome string Z :=
  match str_bytes s with
  | [] => Err "cannot parse integer from empty string"
  | ["+"%byte] | ["-"%byte] => Err invalid_digit
  | "+"%byte :: l => parse_digits false l 0
  | "-"%byte :: l => parse_digits true l 0
  | l => parse_digits false l 0
  end.

(** ** The statements *)

Class SqlTables (C : Type) := {
  create_tables : stM C string unit;
  (** [SELECT parent_id FROM commits WHERE id = ?]: no row, or a row with a nullable id. *)
  select_parent : Z -> stM C string (option (option Z));
  (** [SELECT key, value FROM commit_ops WHERE commit_id = ?]. *)
  select_ops : Z -> stM C string (list (list byte * list byte));
  (** [INSERT INTO commits ..] and the id that the driver reports for it: that of
      [last_insert_rowid], of [last_insert_id], or of [RETURNING id]. *)
  insert_commit : option Z -> string -> Z -> stM C string Z;
  insert_op : Z -> list byte -> list byte -> stM C string unit;
  (** [INSERT INTO branches .. ON CONFLICT(name) DO UPDATE]. *)
  upsert_branch : string -> Z -> stM C string unit
}.

Class Sqlite (C : Type) := {
  wal_checkpoint : stM C string unit;
  db_dir_size : stM C string Z
}.

Class Mysql (C : Type) := { table_bytes : stM C string (option Z) }.

Class Postgres (C : Type) := { relation_bytes : stM C string Z }.

Inductive Dialect := SqliteDb | MysqlDb | PostgresDb.

(** The id of a new commit: MySQL's is a [u64] cast to [i64]. *)
Definition driver_id (d : Dialect) (id : Z) : Z :=
  match d with MysqlDb => i64 id | _ => id end.

(** The parent that [replay] reads from the result of its query: [query_row] of rusqlite is
    an error without a row. *)
Definition replay_row (d : Dialect) (row : option (option Z)) : outcome string (option Z) :=
  match row, d with
  | Some p, _ => Ok p
  | None, SqliteDb => Err "Query returned no rows"
  | None, _ => Ok None
  end.

Record SqlEngine (C : Type) := mk_SqlEngine { conn : C; tip : option Z }.
Arguments mk_SqlEngine {C}.
Arguments conn {C}.
Arguments tip {C}.

Module SqlVcs.
Section engine.
Context {C : Type} `{SqlTables C}.

Abbreviation M := (stM (SqlEngine C) string).

Definition set_conn (c : C) (e : SqlEngine C) : SqlEngine C := mk_SqlEngine c (tip e).
Definition set_tip (t : option Z) (e : SqlEngine C) : SqlEngine C := mk_SqlEngine (conn e) t.

Definition on_conn {A} (m : stM C string A) : M A := zoom conn set_conn m.

(** [open], over a new connection. *)
Definition open (c : C) : outcome string (SqlEngine C) :=
  let '(r, c) := create_tables c in
  _ ← r;
  Ok (mk_SqlEngine c None).

(** The loop that collects the chain from the tip to the root. *)
Fixpoint chain_loop (d : Dialect) (fuel : nat) (cur : option Z) (chain : list Z) : M (list Z) :=
  match cur with
  | None => mret chain
  | Some id =>
      match fuel with
      | O => no_fuel
      | S fuel =>
          row ← on_conn (select_parent id);
          cur ← lift (replay_row d row);
          chain_loop d fuel cur (chain ++ [id])
      end
  end.

Fixpoint apply_chain (ids : list Z) (state : gmap (list byte) (list byte)) :
    M (gmap (list byte) (list byte)) :=
  match ids with
  | [] => mret state
  | id :: ids =>
      rows ← on_conn (select_ops id);
      apply_chain ids (foldl (fun m r => <[r.1 := r.2]> m) state rows)
  end.

Definition replay (d : Dialect) (fuel : nat) (tip : Z) : M (gmap (list byte) (list byte)) :=
  chain ← chain_loop d fuel (Some tip) [];
  apply_chain (reverse chain) ∅.

Definition commit_parent (parent : option CommitId) : M (option Z) :=
  match parent with
  | Some p => id ← lift (parse_id p); mret (Some id)
  | None => gets tip
  end.

Definition commit (d : Dialect) (parent : option CommitId) (puts : list KvPut)
    (message : string) : M CommitId :=
  parent_id ← commit_parent parent;
  t ← gets tip;
  let ts := match t with Some t => i64 (t + 1) | None => 1 end in
  id ← on_conn (insert_commit parent_id message ts);
  let id := driver_id d id in
  _ ← for_each puts (fun p => on_conn (insert_op id (put_key p) (put_value p)));
  _ ← on_conn (upsert_branch "main" id);
  _ ← modify (set_tip (Some id));
  mret (pretty id).

Definition branch (name : string) (tip : CommitId) : M unit :=
  tip_id ← lift (parse_id tip);
  on_conn (upsert_branch name tip_id).

(** The loop of [history]. *)
Fixpoint walk (depth : nat) (cur : option Z) (out : list CommitId) : M (list CommitId) :=
  match depth, cur with
  | O, _ => mret out
  | _, None => mret out
  | S depth, Some id =>
      row ← on_conn (select_parent id);
      walk depth (mjoin row) (out ++ [pretty id])
  end.

Definition history (tip : CommitId) (depth : Z) : M (list CommitId) :=
  id ← lift (parse_id tip);
  walk (Z.to_nat depth) (Some id) [].

Definition checkout (d : Dialect) (fuel : nat) (commit : CommitId) :
    M (gmap (list byte) (list byte)) :=
  id ← lift (parse_id commit);
  replay d fuel id.

End engine.
End SqlVcs.

(** ** The three engines *)

Module SqliteEngine.
Section sqlite.
Context {C : Type} `{SqlTables C, Sqlite C} (fuel : nat).

Definition open : C -> outcome string (SqlEngine C) := SqlVcs.open.
Definition replay : Z -> stM (SqlEngine C) string (gmap (list byte) (list byte)) :=
  SqlVcs.replay SqliteDb fuel.
Definition commit : option CommitId -> list KvPut -> string -> stM (SqlEngine C) string CommitId :=
  SqlVcs.commit SqliteDb.
Definition branch : string -> CommitId -> stM (SqlEngine C) string unit := SqlVcs.branch.
Definition history : CommitId -> Z -> stM (SqlEngine C) string (list CommitId) := SqlVcs.history.
Definition checkout : CommitId -> stM (SqlEngine C) string (gmap (list byte) (list byte)) :=
  SqlVcs.checkout SqliteDb fuel.

(** The result of the checkpoint is ignored. *)
Definition disk_bytes : stM (SqlEngine C) string Z := fun e =>
  SqlVcs.on_conn db_dir_size (SqlVcs.on_conn wal_checkpoint e).2.

#[global] Instance sqlite_bench : VcsBench (SqlEngine C) := {
  bench_name := "sqlite";
  bench_commit := commit;
  bench_branch := branch;
  bench_history := history;
  bench_checkout := checkout;
  bench_disk_bytes := disk_bytes
}.

End sqlite.
End SqliteEngine.

Module MysqlEngine.
Section mysql.
Context {C : Type} `{SqlTables C, Mysql C} (fuel : nat).

Definition open : C -> outcome string (SqlEngine C) := SqlVcs.open.
Definition replay : Z -> stM (SqlEngine C) string (gmap (list byte) (list byte)) :=
  SqlVcs.replay MysqlDb fuel.
Definition commit : option CommitId -> list KvPut -> string -> stM (SqlEngine C) string CommitId :=
  SqlVcs.commit MysqlDb.
Definition branch : string -> CommitId -> stM (SqlEngine C) string unit := SqlVcs.branch.
Definition history : CommitId -> Z -> stM (SqlEngine C) string (list CommitId) := SqlVcs.history.
Definition checkout : CommitId -> stM (SqlEngine C) string (gmap (list byte) (list byte)) :=
  SqlVcs.checkout MysqlDb fuel.

Definition disk_bytes : stM (SqlEngine C) string Z :=
  row ← SqlVcs.on_conn table_bytes;
  mret (default 0 row).

#[global] Instance mysql_bench : VcsBench (SqlEngine C) := {
  bench_name := "mysql";
  bench_commit := commit;
  bench_branch := branch;
  bench_history := history;
  bench_checkout := checkout;
  bench_disk_bytes := disk_bytes
}.

End mysql.
End MysqlEngine.

Module PostgresEngine.
Section postgres.
Context {C : Type} `{SqlTables C, Postgres C} (fuel : nat).

Definition open : C -> outcome string (SqlEngine C) := SqlVcs.open.
Definition replay : Z -> stM (SqlEngine C) string (gmap (list byte) (list byte)) :=
  SqlVcs.replay PostgresDb fuel.
Definition commit : option CommitId -> list KvPut -> string -> stM (SqlEngine C) string CommitId :=
  SqlVcs.commit PostgresDb.
Definition branch : string -> CommitId -> stM (SqlEngine C) string unit := SqlVcs.branch.
Definition history : CommitId -> Z -> stM (SqlEngine C) string (list CommitId) := SqlVcs.history.
Definition checkout : CommitId -> stM (SqlEngine C) string (gmap (list byte) (list byte)) :=
  SqlVcs.checkout PostgresDb fuel.

(** [pg_total_relation_size ..] [as u64]. *)
Definition disk_bytes : stM (SqlEngine C) string Z :=
  n ← SqlVcs.on_conn relation_bytes;
  mret (u64 n).

#[global] Instance postgres_bench : VcsBench (SqlEngine C) := {
  bench_name := "postgres";
  bench_commit := commit;
  bench_branch := branch;
  bench_history := history;
  bench_checkout := checkout;
  bench_disk_bytes := disk_bytes
}.

End postgres.
End PostgresEngine.
