(* ===== verification/SqlSpec.v ===== *)
(** * The SQL peers keep their commits as snapshots

    [SqlLaws] states what the engines rely on of a database with the three tables. From it
    follow the properties of the methods, for the three dialects at once: a commit is the
    state of its parent with its puts, or fails and changes no commit
    ([sql_commit_snapshot]); a checkout replays that state and ends
    ([sql_checkout_replays]); the history is the line of first parents
    ([sql_history_line]). So each engine is a backend that the workload accepts. *)

From Stdlib Require Import Strings.Ascii Strings.Byte Strings.String.
From S2P Require Import Prelude Hash Text Bench WorkloadSpec Sql.

(** ** Ids as texts *)

Lemma digit_byte x : (x < 10)%N -> byte_val (Ascii.byte_of_ascii (pretty_N_char x)) - 48 = Z.of_N x.
Proof.
  intros Hx. assert (x ∈ [0; 1; 2; 3; 4; 5; 6; 7; 8; 9]%N) as Hin by (rewrite !elem_of_cons; lia).
  revert Hin. rewrite !elem_of_cons, elem_of_nil. by intros Hin; repeat destruct Hin as [->|Hin].
Qed.

Lemma last_digit x :
  0 <= Z.of_N (x mod 10) <= 9 /\ Z.of_N x = Z.of_N (x / 10) * 10 + Z.of_N (x mod 10).
Proof.
  rewrite N2Z.inj_div, N2Z.inj_mod. pose proof (Z.div_mod (Z.of_N x) 10 ltac:(lia)).
  pose proof (Z.mod_pos_bound (Z.of_N x) 10 ltac:(lia)). change (Z.of_N 10) with 10. lia.
Qed.

Lemma parse_digits_pretty x s :
  Z.of_N x < 2 ^ 63 ->
  parse_digits false (str_bytes (pretty_N_go x s)) 0 =
  if decide (x = 0)%N then parse_digits false (str_bytes s) 0
  else parse_digits false (str_bytes s) (Z.of_N x).
Proof.
  revert s. induction x as [x IH] using (well_founded_induction N.lt_wf_0). intros s Hx.
  case_decide as H0; [by subst|]. rewrite pretty_N_go_step by lia.
  assert (x / 10 < x)%N by (apply N.div_lt; lia).
  destruct (last_digit x) as [Hd Hdiv].
  rewrite IH by lia.
  change (str_bytes (String ?a ?s)) with (Ascii.byte_of_ascii a :: str_bytes s).
  cbn [parse_digits]. cbv zeta. rewrite digit_byte by (apply N.mod_lt; lia).
  replace (if decide _ then _ else _) with
    (if (Z.of_N (x mod 10) <? 0) || (9 <? Z.of_N (x mod 10)) then Err invalid_digit
     else if 2 ^ 63 <=? Z.of_N x then Err "number too large to fit in target type"
     else if Z.of_N x <? - 2 ^ 63 then Err "number too small to fit in target type"
     else parse_digits false (str_bytes s) (Z.of_N x)) by (rewrite Hdiv; case_decide as E; [rewrite E|]; done).
  clear Hdiv IH. generalize dependent (Z.of_N (x mod 10)). intros v Hd.
  replace ((v <? 0) || (9 <? v)) with false by lia.
  replace (2 ^ 63 <=? Z.of_N x) with false by lia. by replace (Z.of_N x <? - 2 ^ 63) with false by lia.
Qed.

Lemma parse_id_pretty z : 0 < z < 2 ^ 63 -> parse_id (pretty z) = Ok z.
Proof.
  intros Hz. destruct z as [|p|p]; try lia.
  pose proof (parse_digits_pretty (Npos p) "" ltac:(lia)) as Hp. rewrite decide_False in Hp by done.
  change (pretty (Zpos p)) with (pretty_N_go (Npos p) ""). unfold parse_id.
  destruct (str_bytes (pretty_N_go (Npos p) "")) as [|b l]; [done|].
  destruct b; try exact Hp; discriminate Hp.
Qed.

(** ** The tables

    The rows of [commits] by their id, those of [commit_ops] by commit, those of [branches]
    by name, and the next id. *)
Record Tables := mk_Tables {
  tb_parents : gmap Z (option Z);
  tb_ops : gmap Z KvState;
  tb_branches : gmap string Z;
  tb_next : Z
}.

Definition ops_of (t : Tables) (id : Z) : KvState := default ∅ (tb_ops t !! id).

Definition add_commit (parent : option Z) (t : Tables) : Tables :=
  mk_Tables (<[tb_next t := parent]> (tb_parents t)) (tb_ops t) (tb_branches t) (tb_next t + 1).
Definition add_op (id : Z) (p : KvPut) (t : Tables) : Tables :=
  mk_Tables (tb_parents t) (<[id := <[put_key p := put_value p]> (ops_of t id)]> (tb_ops t))
    (tb_branches t) (tb_next t).
Definition set_branch (name : string) (id : Z) (t : Tables) : Tables :=
  mk_Tables (tb_parents t) (tb_ops t) (<[name := id]> (tb_branches t)) (tb_next t).

(** The constraints of the schema: positive, increasing ids and the foreign key of
    [commit_ops]. *)
Definition keys_ok (t : Tables) : Prop :=
  0 < tb_next t /\
  (forall id, is_Some (tb_parents t !! id) -> 0 < id < tb_next t) /\
  (forall id, is_Some (tb_ops t !! id) -> is_Some (tb_parents t !! id)).

(** What the engines rely on: a statement does what SQL says on the tables, a violated primary
    key is an error that changes no table. [db_fits] are the keys and values, [db_text] the
    texts that the columns take. *)
Class SqlLaws (C : Type) `{SqlTables C} := {
  db_ok : C -> Prop;
  db_tables : C -> Tables;
  db_fits : KvPut -> Prop;
  db_text : string -> Prop;
  db_keys c : db_ok c -> keys_ok (db_tables c);
  db_create c : exists c', create_tables c = (Ok tt, c') /\ db_ok c' /\
    db_tables c' = mk_Tables ∅ ∅ ∅ 1;
  db_select_parent c id : db_ok c ->
    exists c', select_parent id c = (Ok (tb_parents (db_tables c) !! id), c') /\ db_ok c' /\
      db_tables c' = db_tables c;
  db_select_ops c id : db_ok c ->
    exists rows c', select_ops id c = (Ok rows, c') /\ db_ok c' /\ db_tables c' = db_tables c /\
      rows ≡ₚ map_to_list (ops_of (db_tables c) id);
  db_insert_commit c parent msg ts : db_ok c -> db_text msg -> tb_next (db_tables c) < 2 ^ 63 ->
    (forall p, parent = Some p -> is_Some (tb_parents (db_tables c) !! p)) ->
    exists c', insert_commit parent msg ts c = (Ok (tb_next (db_tables c)), c') /\ db_ok c' /\
      db_tables c' = add_commit parent (db_tables c);
  db_insert_op c id k v : db_ok c -> db_fits (mk_KvPut k v) ->
    is_Some (tb_parents (db_tables c) !! id) -> ops_of (db_tables c) id !! k = None ->
    exists c', insert_op id k v c = (Ok tt, c') /\ db_ok c' /\
      db_tables c' = add_op id (mk_KvPut k v) (db_tables c);
  db_insert_again c id k v : db_ok c -> db_fits (mk_KvPut k v) ->
    is_Some (tb_parents (db_tables c) !! id) -> is_Some (ops_of (db_tables c) id !! k) ->
    exists err c', insert_op id k v c = (Err err, c') /\ db_ok c' /\ db_tables c' = db_tables c;
  db_upsert_branch c name id : db_ok c -> db_text name ->
    is_Some (tb_parents (db_tables c) !! id) ->
    exists c', upsert_branch name id c = (Ok tt, c') /\ db_ok c' /\
      db_tables c' = set_branch name id (db_tables c)
}.

(** ** The line of first parents and the state of a commit *)

Fixpoint line_up (parents : gmap Z (option Z)) (fuel : nat) (id : Z) : list Z :=
  match fuel with
  | O => [id]
  | S fuel =>
      match parents !! id with
      | Some (Some p) => id :: line_up parents fuel p
      | _ => [id]
      end
  end.

Definition line (t : Tables) (id : Z) : list Z := line_up (tb_parents t) (Z.to_nat id) id.

(** The puts of the ancestors, the newest on top. *)
Definition state_of (t : Tables) (id : Z) : KvState :=
  foldr (fun i m => ops_of t i ∪ m) ∅ (line t id).

Definition graph_ok (t : Tables) : Prop :=
  keys_ok t /\
  forall id p, tb_parents t !! id = Some (Some p) -> p < id /\ is_Some (tb_parents t !! p).

Lemma line_up_fuel t id f1 f2 :
  graph_ok t -> (Z.to_nat id <= f1)%nat -> (Z.to_nat id <= f2)%nat ->
  line_up (tb_parents t) f1 id = line_up (tb_parents t) f2 id.
Proof.
  intros [[_ [Hids _]] Hp]. revert id f2. induction f1 as [|f1 IH]; intros id f2 H1 H2.
  - destruct f2 as [|f2]; [done|]. cbn [line_up]. case_match eqn:E; [|done]. specialize (Hids id). rewrite E in Hids.
    specialize (Hids ltac:(by eexists)). lia.
  - destruct (tb_parents t !! id) as [[p|]|] eqn:E; destruct f2 as [|f2]; cbn [line_up]; rewrite ?E; try done;
      destruct (Hp _ _ E) as [Hlt Hsome]; pose proof (Hids p Hsome); [lia|].
    f_equal. apply IH; lia.
Qed.

Lemma line_eq t id :
  graph_ok t ->
  line t id = match tb_parents t !! id with Some (Some p) => id :: line t p | _ => [id] end.
Proof.
  intros Hok. unfold line. destruct (tb_parents t !! id) as [[p|]|] eqn:E.
  2-3: destruct (Z.to_nat id); cbn [line_up]; by rewrite ?E.
  pose proof Hok as [[_ [Hids _]] Hp]. destruct (Hp _ _ E) as [Hlt Hsome]. pose proof (Hids p Hsome).
  destruct (Z.to_nat id) as [|n] eqn:En; [lia|]. cbn [line_up]. rewrite E. f_equal.
  apply line_up_fuel; [done|lia|done].
Qed.

Lemma state_eq t id :
  graph_ok t ->
  state_of t id =
  ops_of t id ∪ match tb_parents t !! id with Some (Some p) => state_of t p | _ => ∅ end.
Proof.
  intros Hok. unfold state_of. rewrite line_eq by done.
  destruct (tb_parents t !! id) as [[p|]|]; done.
Qed.

(** Induction along the parents of a commit. *)
Lemma line_ind t (P : Z -> Prop) :
  graph_ok t ->
  (forall id, is_Some (tb_parents t !! id) ->
    (forall p, tb_parents t !! id = Some (Some p) -> P p) -> P id) ->
  forall id, is_Some (tb_parents t !! id) -> P id.
Proof.
  intros [[_ [Hids _]] Hp] Hstep id. remember (Z.to_nat id) as n eqn:En. revert id En.
  induction n as [n IH] using lt_wf_ind. intros id -> Hid. apply Hstep; [done|]. intros p E.
  destruct (Hp _ _ E) as [Hlt Hsome]. pose proof (Hids p Hsome). apply (IH (Z.to_nat p)); [lia|done|done].
Qed.

(** Tables with more commits. *)
Definition extends (t t' : Tables) : Prop :=
  forall id, is_Some (tb_parents t !! id) ->
    tb_parents t' !! id = tb_parents t !! id /\ ops_of t' id = ops_of t id.

Lemma extends_state t t' id :
  graph_ok t -> graph_ok t' -> extends t t' -> is_Some (tb_parents t !! id) ->
  state_of t' id = state_of t id.
Proof.
  intros Hok Hok' Hext. revert id. apply (line_ind t); [done|]. intros id Hid IH.
  destruct (Hext id Hid) as [Hp Ho]. rewrite (state_eq t'), (state_eq t), Ho, Hp by done.
  f_equal. destruct (tb_parents t !! id) as [[p|]|] eqn:E; [|done..]. by apply IH.
Qed.

(** ** Reading *)

Section engine.
Context {C : Type} `{SqlLaws C}.

Definition tables (e : SqlEngine C) : Tables := db_tables (conn e).

Definition sql_ok (e : SqlEngine C) : Prop :=
  db_ok (conn e) /\ graph_ok (tables e) /\
  forall t, tip e = Some t -> is_Some (tb_parents (tables e) !! t).

(** Nothing but the connection has changed. *)
Definition sql_view (e e' : SqlEngine C) : Prop :=
  sql_ok e' /\ tables e' = tables e /\ tip e' = tip e.

Lemma sql_view_refl e : sql_ok e -> sql_view e e.
Proof. done. Qed.

Lemma sql_view_trans e1 e2 e3 : sql_view e1 e2 -> sql_view e2 e3 -> sql_view e1 e3.
Proof. intros (_ & Ht & Hp) (Hok & Ht' & Hp'). split; [done|]. split; congruence. Qed.

Lemma view_conn e c :
  sql_ok e -> db_ok c -> db_tables c = tables e -> sql_view e (SqlVcs.set_conn c e).
Proof.
  intros (_ & Hg & Htip) Hc Ht. unfold sql_view, sql_ok, tables in *. cbn. by rewrite Ht.
Qed.

Lemma on_conn_eq {A} (m : stM C string A) e r c :
  m (conn e) = (r, c) -> SqlVcs.on_conn m e = (r, SqlVcs.set_conn c e).
Proof. intros Hm. unfold SqlVcs.on_conn, zoom. by rewrite Hm. Qed.

Lemma read_parent e id :
  sql_ok e -> exists e', SqlVcs.on_conn (select_parent id) e = (Ok (tb_parents (tables e) !! id), e') /\
    sql_view e e'.
Proof.
  intros Hok. destruct (db_select_parent (conn e) id (proj1 Hok)) as (c & Hrun & Hc & Ht).
  eexists. split; [by apply on_conn_eq|]. by apply view_conn.
Qed.

Lemma foldl_insert_rows (rows : list (list byte * list byte)) (m : KvState) :
  NoDup rows.*1 ->
  foldl (fun m r => <[r.1 := r.2]> m) m rows = (list_to_map rows : KvState) ∪ m.
Proof.
  revert m. induction rows as [|[k v] rows IH]; intros m; cbn; [by rewrite (left_id_L ∅ (∪))|].
  intros [Hk Hn]%NoDup_cons. rewrite IH by done.
  rewrite <- insert_union_r; [apply insert_union_l|]. by apply not_elem_of_list_to_map_1.
Qed.

Lemma apply_chain_ok ids m e :
  sql_ok e ->
  exists e', SqlVcs.apply_chain ids m e =
    (Ok (foldl (fun m i => ops_of (tables e) i ∪ m) m ids), e') /\ sql_view e e'.
Proof.
  revert m e. induction ids as [|id ids IH]; intros m e Hok; cbn [SqlVcs.apply_chain foldl];
    [exists e; by split|].
  destruct (db_select_ops (conn e) id (proj1 Hok)) as (rows & c & Hrun & Hc & Ht & Hrows).
  rewrite (stM_bind_Ok _ _ _ _ _ (on_conn_eq _ _ _ _ Hrun)).
  pose proof (view_conn e c Hok Hc Ht) as Hv.
  destruct (IH (foldl (fun m r => <[r.1 := r.2]> m) m rows) _ (proj1 Hv)) as (e' & -> & Hv').
  exists e'. split; [|by eapply sql_view_trans]. do 2 f_equal. rewrite (proj1 (proj2 Hv)). f_equal.
  assert (NoDup rows.*1) as Hn by (rewrite Hrows; apply NoDup_fst_map_to_list).
  rewrite foldl_insert_rows by done. f_equal. unfold tables.
  rewrite <- (list_to_map_to_list (ops_of _ id)). by apply list_to_map_proper.
Qed.

Lemma foldl_reverse {A B} (f : B -> A -> A) (x : A) (l : list B) :
  foldl (fun a b => f b a) x (reverse l) = foldr f x l.
Proof.
  induction l as [|b l IH]; [done|]. rewrite reverse_cons, foldl_app. cbn. by rewrite IH.
Qed.

Lemma replay_row_Some d p : replay_row d (Some p) = Ok p.
Proof. by destruct d. Qed.

(** The chain of a commit is its line; without the commit, rusqlite has an error. *)
Lemma chain_loop_ok d fuel id chain e :
  sql_ok e -> is_Some (tb_parents (tables e) !! id) -> id <= Z.of_nat fuel ->
  exists e', SqlVcs.chain_loop d fuel (Some id) chain e = (Ok (chain ++ line (tables e) id), e') /\
    sql_view e e'.
Proof.
  revert id chain e. induction fuel as [|fuel IH]; intros id chain e Hok Hid Hf;
    pose proof Hok as (_ & [[_ [Hids _]] Hp] & _); pose proof (Hids id Hid); [lia|].
  cbn [SqlVcs.chain_loop]. destruct (read_parent e id Hok) as (e1 & Hrun & Hv).
  rewrite (stM_bind_Ok _ _ _ _ _ Hrun). destruct Hid as [p Hid]. rewrite Hid, replay_row_Some.
  rewrite (stM_bind_Ok _ _ e1 p e1) by done. rewrite line_eq, Hid by apply Hok.
  destruct p as [p|]; [|exists e1; split; [by destruct fuel|done]].
  destruct (Hp id p Hid) as [Hlt Hsome]. destruct Hv as (Hok1 & Ht & Htip).
  destruct (IH p (chain ++ [id]) e1 Hok1) as (e2 & -> & Hv2); [by rewrite Ht|lia|].
  exists e2. rewrite Ht. rewrite <- (assoc_L (++)). split; [done|].
  by eapply (sql_view_trans e e1 e2).
Qed.

Lemma sql_walk_ok depth id out e :
  sql_ok e ->
  exists e', SqlVcs.walk depth (Some id) out e =
    (Ok (out ++ (pretty <$> take depth (line (tables e) id))), e') /\ sql_view e e'.
Proof.
  revert id out e. induction depth as [|depth IH]; intros id out e Hok; cbn [SqlVcs.walk].
  { exists e. split; [by rewrite take_0, app_nil_r|done]. }
  destruct (read_parent e id Hok) as (e1 & Hrun & Hv).
  rewrite (stM_bind_Ok _ _ _ _ _ Hrun), line_eq by apply Hok.
  destruct (tb_parents (tables e) !! id) as [[p|]|]; cbn [mjoin option_join].
  2-3: exists e1; (split; [by destruct depth|done]).
  destruct (IH p (out ++ [pretty id]) e1 (proj1 Hv)) as (e2 & -> & Hv2). exists e2.
  rewrite (proj1 (proj2 Hv)), <- (assoc_L (++)). split; [done|]. by eapply sql_view_trans.
Qed.

(** ** Writing *)

Definition keys_free (m : KvState) (puts : list KvPut) : Prop :=
  NoDup (put_key <$> puts) /\ Forall (fun p => m !! put_key p = None) puts.

#[global] Instance keys_free_dec m puts : Decision (keys_free m puts).
Proof. apply _. Defined.

Lemma keys_free_cons m p puts :
  keys_free m (p :: puts) <->
  m !! put_key p = None /\ keys_free (<[put_key p := put_value p]> m) puts.
Proof.
  unfold keys_free. rewrite fmap_cons, NoDup_cons, Forall_cons, !Forall_forall. split.
  - intros [[Hk Hn] [Hm Hf]]. split_and!; try done. intros q Hq. rewrite lookup_insert_ne; [by apply Hf|].
    intros E. apply Hk. rewrite E. by apply list_elem_of_fmap_2.
  - intros (Hm & Hn & Hf).
    assert (forall q, q ∈ puts -> put_key p ≠ put_key q /\ m !! put_key q = None) as Hq.
    { intros q Hin. specialize (Hf q Hin). by apply lookup_insert_None in Hf as [? ?]. }
    split_and!; try done; [|by intros q Hin; apply Hq].
    intros (q & E & Hin)%list_elem_of_fmap. by apply (Hq q Hin).
Qed.

(** The tables after puts into commit [id]: only its operations change. *)
Definition ops_changed (id : Z) (t t' : Tables) : Prop :=
  tb_parents t' = tb_parents t /\ tb_branches t' = tb_branches t /\ tb_next t' = tb_next t /\
  forall i, i ≠ id -> ops_of t' i = ops_of t i.

Lemma ops_changed_trans id t1 t2 t3 :
  ops_changed id t1 t2 -> ops_changed id t2 t3 -> ops_changed id t1 t3.
Proof.
  intros (P1 & B1 & N1 & O1) (P2 & B2 & N2 & O2). split_and!; try congruence.
  intros i Hi. by rewrite O2, O1.
Qed.

Lemma add_op_changed id p t : ops_changed id t (add_op id p t).
Proof.
  split_and!; try done. intros i Hi. unfold ops_of, add_op. cbn. by rewrite lookup_insert_ne.
Qed.

Lemma add_op_ops id p t : ops_of (add_op id p t) id = <[put_key p := put_value p]> (ops_of t id).
Proof. unfold ops_of at 1, add_op. cbn. by rewrite lookup_insert_eq. Qed.

Lemma insert_ops_ok id puts e :
  db_ok (conn e) -> is_Some (tb_parents (tables e) !! id) -> Forall db_fits puts ->
  let '(r, e') := for_each puts
    (fun p => SqlVcs.on_conn (insert_op id (put_key p) (put_value p))) e in
  db_ok (conn e') /\ tip e' = tip e /\ ops_changed id (tables e) (tables e') /\
  if decide (keys_free (ops_of (tables e) id) puts)
  then r = Ok tt /\ ops_of (tables e') id = put_all puts (ops_of (tables e) id)
  else exists err, r = Err err.
Proof.
  revert e. induction puts as [|[k v] puts IH]; intros e Hok Hid Hfits; cbn [for_each].
  { unfold mret, stM_ret. cbv beta iota. rewrite decide_True by (split; constructor). by split_and!. }
  apply Forall_cons in Hfits as [Hfit Hfits]. cbn [put_key put_value].
  destruct (ops_of (tables e) id !! k) as [v'|] eqn:Hk.
  - destruct (db_insert_again (conn e) id k v Hok Hfit Hid) as (err & c & Hrun & Hc & Ht);
      [by exists v'|].
    rewrite (stM_bind_Err _ _ _ _ _ (on_conn_eq _ _ _ _ Hrun)). cbv iota.
    rewrite decide_False by (rewrite keys_free_cons; cbn; intros [? _]; congruence).
    unfold tables. cbn. rewrite Ht. split_and!; try done. by exists err.
  - destruct (db_insert_op (conn e) id k v Hok Hfit Hid Hk) as (c & Hrun & Hc & Ht).
    rewrite (stM_bind_Ok _ _ _ _ _ (on_conn_eq _ _ _ _ Hrun)).
    set (e1 := SqlVcs.set_conn c e).
    assert (tables e1 = add_op id (mk_KvPut k v) (tables e)) as Ht1 by done.
    specialize (IH e1 Hc). rewrite Ht1 in IH. specialize (IH Hid Hfits).
    destruct (for_each puts _ e1) as [r e']. destruct IH as (Hok' & Htip & Hch & Hres).
    split_and!; try done.
    { eapply ops_changed_trans; [|exact Hch]. apply add_op_changed. }
    rewrite add_op_ops in Hres. cbn [put_key put_value] in Hres.
    assert (keys_free (ops_of (tables e) id) (mk_KvPut k v :: puts) <->
      keys_free (<[k := v]> (ops_of (tables e) id)) puts) as Hiff by (rewrite keys_free_cons; cbn; tauto).
    case_decide as Hf; (case_decide as Hf'; [|try exact Hres]); try exact Hres; tauto.
Qed.

Lemma put_all_union puts m b : put_all puts m ∪ b = put_all puts (m ∪ b).
Proof.
  unfold put_all. revert m. induction puts as [|p puts IH]; intros m; cbn; [done|].
  by rewrite IH, insert_union_l.
Qed.

(** The parent that a commit asks for. *)
Definition parent_of (e : SqlEngine C) (parent : option CommitId) : outcome string (option Z) :=
  match parent with Some p => Some <$> parse_id p | None => Ok (tip e) end.

Lemma commit_parent_eq parent e : SqlVcs.commit_parent parent e = (parent_of e parent, e).
Proof.
  destruct parent as [p|]; [|done]. unfold SqlVcs.commit_parent, parent_of, lift.
  rewrite stM_bind_eq. by destruct (parse_id p).
Qed.

(** A commit is in the tables, with parent [pid] and some of its puts. *)
Definition committed (pid : option Z) (t t' : Tables) : Prop :=
  tb_parents t' = <[tb_next t := pid]> (tb_parents t) /\ tb_next t' = tb_next t + 1 /\
  forall i, i ≠ tb_next t -> ops_of t' i = ops_of t i.

Lemma new_id_free t : keys_ok t -> tb_parents t !! tb_next t = None /\ ops_of t (tb_next t) = ∅.
Proof.
  intros (_ & Hids & Hops). assert (tb_parents t !! tb_next t = None) as Hnew.
  { apply eq_None_not_Some. intros Hid%Hids. lia. }
  split; [done|]. unfold ops_of. destruct (tb_ops t !! tb_next t) as [m|] eqn:E; [|done].
  destruct (Hops (tb_next t)) as [? ?]; [by exists m|congruence].
Qed.

Lemma committed_graph pid t t' :
  graph_ok t -> committed pid t t' -> keys_ok t' ->
  (forall p, pid = Some p -> is_Some (tb_parents t !! p)) -> graph_ok t'.
Proof.
  intros [Hk Hg] (Hp & _ & _) Hk' Hpid. split; [done|]. intros id p. rewrite Hp.
  pose proof (new_id_free _ Hk) as [Hnew _].
  rewrite (lookup_insert_is_Some' _ _ p). intros [[<- [= ->]]|[Hne E]]%lookup_insert_Some.
  - specialize (Hpid p eq_refl). split; [by apply Hk|by right].
  - destruct (Hg id p E) as [? ?]. split; [done|by right].
Qed.

Lemma committed_extends pid t t' : keys_ok t -> committed pid t t' -> extends t t'.
Proof.
  intros Hk (Hp & _ & Ho) id Hid. pose proof (new_id_free _ Hk) as [Hnew _].
  assert (id ≠ tb_next t) as Hne by (intros ->; rewrite Hnew in Hid; by destruct Hid).
  split; [by rewrite Hp, lookup_insert_ne|by apply Ho].
Qed.

Lemma committed_state pid t t' puts :
  graph_ok t -> graph_ok t' -> committed pid t t' ->
  (forall p, pid = Some p -> is_Some (tb_parents t !! p)) ->
  ops_of t' (tb_next t) = put_all puts ∅ ->
  state_of t' (tb_next t) = put_all puts (match pid with Some p => state_of t p | None => ∅ end).
Proof.
  intros Hg Hg' Hc Hpid Hops. rewrite state_eq, Hops, (proj1 Hc), lookup_insert_eq by done.
  rewrite put_all_union, (left_id_L ∅ (∪)). destruct pid as [p|]; [|done]. f_equal.
  eapply extends_state; [done|done|by eapply committed_extends, Hc; apply Hg|by apply Hpid].
Qed.

Lemma driver_id_ok d id : 0 < id < 2 ^ 63 -> driver_id d id = id.
Proof. intros Hid. destruct d; [done| |done]. unfold driver_id, i64. rewrite Z.mod_small; lia. Qed.

Lemma commit_run d parent puts msg e pid :
  sql_ok e -> parent_of e parent = Ok pid ->
  (forall p, pid = Some p -> is_Some (tb_parents (tables e) !! p)) ->
  db_text msg -> db_text "main" -> Forall db_fits puts -> tb_next (tables e) < 2 ^ 63 ->
  let id := tb_next (tables e) in
  let '(r, e') := SqlVcs.commit d parent puts msg e in
  sql_ok e' /\ committed pid (tables e) (tables e') /\
  if decide (NoDup (put_key <$> puts)) then
    r = Ok (pretty id) /\ tip e' = Some id /\ ops_of (tables e') id = put_all puts ∅ /\
    tb_branches (tables e') = <["main" := id]> (tb_branches (tables e))
  else (exists err, r = Err err) /\ tip e' = tip e /\
    tb_branches (tables e') = tb_branches (tables e).
Proof.
  intros Hok Hpid Hparent Hmsg Hmain Hfits Hroom id. unfold SqlVcs.commit.
  rewrite (stM_bind_Ok _ _ _ _ _ (eq_trans (commit_parent_eq _ _) (f_equal (fun r => (r, e)) Hpid))).
  rewrite (stM_bind_Ok _ _ e (tip e) e) by done. cbv zeta.
  destruct (db_insert_commit (conn e) pid msg
    (match tip e with Some t => i64 (t + 1) | None => 1 end) (proj1 Hok) Hmsg Hroom Hparent)
    as (c & Hrun & Hc & Ht).
  rewrite (stM_bind_Ok _ _ _ _ _ (on_conn_eq _ _ _ _ Hrun)). fold (tables e). fold id.
  set (e1 := SqlVcs.set_conn c e). assert (tables e1 = add_commit pid (tables e)) as Ht1 by done.
  pose proof Hok as (_ & [Hk Hg] & Htip). destruct (new_id_free _ Hk) as [Hnew Hempty].
  rewrite driver_id_ok by (destruct Hk; unfold id; lia).
  assert (is_Some (tb_parents (tables e1) !! id)) as Hid by (rewrite Ht1; cbn; rewrite lookup_insert_eq; by eexists).
  assert (ops_of (tables e1) id = ∅) as Hno by (rewrite Ht1; done).
  pose proof (insert_ops_ok id puts e1 Hc Hid Hfits) as Hins. rewrite stM_bind_eq.
  destruct (for_each puts _ e1) as [r e2]. destruct Hins as (Hc2 & Htip2 & (P2 & B2 & N2 & O2) & Hres).
  rewrite Ht1 in P2, B2, N2, O2. cbn in P2, B2, N2.
  assert (committed pid (tables e) (tables e2)) as Hcom by (split_and!; done).
  assert (graph_ok (tables e2)) as Hg2 by (eapply committed_graph; [|done|by apply db_keys|done]; done).
  assert (forall t, is_Some (tb_parents (tables e) !! t) -> is_Some (tb_parents (tables e2) !! t)) as Hold.
  { intros t [p Hp]. rewrite P2. rewrite lookup_insert_is_Some'. right. by exists p. }
  assert (keys_free (ops_of (tables e1) id) puts <-> NoDup (put_key <$> puts)) as Hiff.
  { unfold keys_free. rewrite Hno, Forall_forall. split; [by intros [? _]|]. intros Hn. split; [done|].
    intros p _. apply lookup_empty. }
  destruct (decide (NoDup (put_key <$> puts))) as [Hn|Hn].
  2: { rewrite decide_False in Hres by tauto. destruct Hres as [err ->].
       split; [|by split; [|split; [by exists err|split]]]. split; [done|]. split; [done|].
       intros t Htt. apply Hold, Htip. by rewrite <- Htt, Htip2. }
  rewrite decide_True in Hres by tauto. destruct Hres as [-> Hops]. rewrite Hno in Hops.
  destruct (db_upsert_branch (conn e2) "main" id Hc2 Hmain) as (c3 & Hrun3 & Hc3 & Ht3).
  { fold (tables e2). rewrite P2, lookup_insert_eq. by eexists. }
  rewrite (stM_bind_Ok _ _ _ _ _ (on_conn_eq _ _ _ _ Hrun3)).
  set (e3 := SqlVcs.set_tip (Some id) (SqlVcs.set_conn c3 e2)).
  assert (tables e3 = set_branch "main" id (tables e2)) as Hte3 by done.
  change (sql_ok e3 /\ committed pid (tables e) (tables e3) /\
    Ok (E:=string) (pretty id) = Ok (pretty id) /\ tip e3 = Some id /\
    ops_of (tables e3) id = put_all puts ∅ /\
    tb_branches (tables e3) = <["main" := id]> (tb_branches (tables e))).
  unfold sql_ok. rewrite Hte3. cbn [set_branch tb_branches]. rewrite B2. split_and!; try done.
  intros t Htt. unfold e3 in Htt. cbn in Htt. injection Htt as <-. cbn [set_branch tb_parents].
  rewrite P2, lookup_insert_eq. by eexists.
Qed.

Lemma commit_keeps d parent puts msg e pid :
  sql_ok e -> parent_of e parent = Ok pid ->
  (forall p, pid = Some p -> is_Some (tb_parents (tables e) !! p)) ->
  db_text msg -> db_text "main" -> Forall db_fits puts -> tb_next (tables e) < 2 ^ 63 ->
  sql_ok (SqlVcs.commit d parent puts msg e).2.
Proof.
  intros Hok Hpid Hparent Hmsg Hmain Hfits Hroom.
  pose proof (commit_run d parent puts msg e pid Hok Hpid Hparent Hmsg Hmain Hfits Hroom) as Hrun.
  cbv zeta in Hrun. destruct (SqlVcs.commit d parent puts msg e) as [r e']. apply Hrun.
Qed.

(** C32: A commit of an SQL engine is a snapshot. Its state is that of its parent with its puts
    (two puts of one key are refused by the primary key of [commit_ops]); it gets the next id,
    and the tip and the branch [main] move to it. Whether it succeeds or fails, all commits
    before it keep their states, and a failure moves neither the tip nor a branch. This holds
    for SQLite, MySQL and Postgres. *)
Theorem sql_commit_snapshot d parent puts msg e pid :
  sql_ok e -> parent_of e parent = Ok pid ->
  (forall p, pid = Some p -> is_Some (tb_parents (tables e) !! p)) ->
  db_text msg -> db_text "main" -> Forall db_fits puts -> tb_next (tables e) < 2 ^ 63 ->
  let id := tb_next (tables e) in
  let '(r, e') := SqlVcs.commit d parent puts msg e in
  sql_ok e' /\
  (forall i, is_Some (tb_parents (tables e) !! i) ->
    tb_parents (tables e') !! i = tb_parents (tables e) !! i /\
    state_of (tables e') i = state_of (tables e) i) /\
  if decide (NoDup (put_key <$> puts)) then
    r = Ok (pretty id) /\ parse_id (pretty id) = Ok id /\ tip e' = Some id /\
    tb_branches (tables e') = <["main" := id]> (tb_branches (tables e)) /\
    tb_parents (tables e) !! id = None /\ tb_parents (tables e') !! id = Some pid /\
    state_of (tables e') id =
      put_all puts (match pid with Some p => state_of (tables e) p | None => ∅ end)
  else (exists err, r = Err err) /\ tip e' = tip e /\
    tb_branches (tables e') = tb_branches (tables e).
Proof.
  intros Hok Hpid Hparent Hmsg Hmain Hfits Hroom id.
  pose proof (commit_run d parent puts msg e pid Hok Hpid Hparent Hmsg Hmain Hfits Hroom) as Hrun.
  cbv zeta in Hrun. destruct (SqlVcs.commit d parent puts msg e) as [r e'].
  destruct Hrun as (Hok' & Hcom & Hres). pose proof Hok as (_ & Hg & _). pose proof Hok' as (_ & Hg' & _).
  pose proof (committed_extends _ _ _ (proj1 Hg) Hcom) as Hext.
  split; [done|]. split.
  { intros i Hi. split; [by apply Hext|]. by apply extends_state. }
  case_decide; [|done]. destruct Hres as (Hr & Htip & Hops & Hb). split_and!; try done.
  - apply parse_id_pretty. destruct (proj1 Hg). unfold id. lia.
  - by apply new_id_free, Hg.
  - by rewrite (proj1 Hcom), lookup_insert_eq.
  - by apply committed_state.
Qed.

Lemma replay_ok d fuel id e :
  sql_ok e -> is_Some (tb_parents (tables e) !! id) -> id <= Z.of_nat fuel ->
  exists e', SqlVcs.replay d fuel id e = (Ok (state_of (tables e) id), e') /\ sql_view e e'.
Proof.
  intros Hok Hid Hf. unfold SqlVcs.replay.
  destruct (chain_loop_ok d fuel id [] e Hok Hid Hf) as (e1 & Hrun & Hv).
  rewrite (stM_bind_Ok _ _ _ _ _ Hrun). cbn [app].
  destruct (apply_chain_ok (reverse (line (tables e) id)) ∅ e1 (proj1 Hv)) as (e2 & -> & Hv2).
  exists e2. split; [|by eapply sql_view_trans]. do 2 f_equal.
  rewrite (proj1 (proj2 Hv)). apply (foldl_reverse (fun i m => ops_of (tables e) i ∪ m)).
Qed.

(** Without the commit the loop ends at once. *)
Lemma replay_unknown d fuel id e :
  sql_ok e -> tb_parents (tables e) !! id = None -> (0 < fuel)%nat ->
  exists e', SqlVcs.replay d fuel id e =
    (match d with SqliteDb => Err "Query returned no rows" | _ => Ok ∅ end, e') /\ sql_view e e'.
Proof.
  intros Hok Hid Hf. destruct fuel as [|fuel]; [lia|]. unfold SqlVcs.replay. rewrite stM_bind_eq.
  cbn [SqlVcs.chain_loop]. destruct (read_parent e id Hok) as (e1 & Hrun & Hv).
  rewrite (stM_bind_Ok _ _ _ _ _ Hrun), Hid. pose proof (proj1 Hok) as Hc.
  assert (ops_of (tables e1) id = ∅) as Hno.
  { rewrite (proj1 (proj2 Hv)). unfold ops_of. destruct (tb_ops (tables e) !! id) eqn:E; [|done].
    destruct (proj2 (proj2 (db_keys _ Hc)) id) as [? ?]; [by eexists|]. unfold tables in Hid. congruence. }
  destruct d; rewrite stM_bind_eq; cbn [lift replay_row]; [exists e1; by split|..].
  all: replace (SqlVcs.chain_loop _ fuel None ([] ++ [id]) e1) with
         (Ok (E:=string) [id], e1) by (by destruct fuel).
  all: destruct (apply_chain_ok (reverse [id]) ∅ e1 (proj1 Hv)) as (e2 & -> & Hv2).
  all: exists e2; split; [|by eapply sql_view_trans]; cbn; by rewrite Hno.
Qed.

(** C33: A checkout of an SQL engine replays the puts of the ancestors, the oldest first, and
    ends; [fuel] need only be the number of the next id. It changes no table. A text that is
    no number is an error. For the id of no commit SQLite has an error, while the other two
    return the empty state. *)
Theorem sql_checkout_replays d fuel text e :
  sql_ok e -> tb_next (tables e) <= Z.of_nat fuel ->
  exists e', sql_view e e' /\
    SqlVcs.checkout d fuel text e =
      (id ← parse_id text;
       if decide (is_Some (tb_parents (tables e) !! id)) then Ok (state_of (tables e) id)
       else match d with SqliteDb => Err "Query returned no rows" | _ => Ok ∅ end, e').
Proof.
  intros Hok Hf. pose proof Hok as (_ & [(Hpos & Hids & _) _] & _). unfold SqlVcs.checkout.
  rewrite stM_bind_eq. unfold lift. destruct (parse_id text) as [id|err| |]; try by exists e.
  change (mbind ?f (Ok ?x)) with (f x). cbv beta. case_decide as Hid.
  - destruct (replay_ok d fuel id e Hok Hid) as (e' & Hrun & Hv); [|by exists e'].
    specialize (Hids id Hid). lia.
  - destruct (replay_unknown d fuel id e Hok) as (e' & Hrun & Hv); [by apply eq_None_not_Some|lia|].
    by exists e'.
Qed.

(** The history that an SQL engine returns is the line of first parents of the commit, from
    the commit itself, cut at [depth]; it changes no table. A text that is no number is an
    error. *)
Theorem sql_history_line text depth e :
  sql_ok e ->
  exists e', sql_view e e' /\
    SqlVcs.history text depth e =
      (id ← parse_id text; Ok (pretty <$> take (Z.to_nat depth) (line (tables e) id)), e').
Proof.
  intros Hok. unfold SqlVcs.history. rewrite stM_bind_eq. unfold lift.
  destruct (parse_id text) as [id|err| |]; try by exists e.
  destruct (sql_walk_ok (Z.to_nat depth) id [] e Hok) as (e' & -> & Hv). by exists e'.
Qed.

(** ** The engines are backends of the workload *)

Context (fuel : nat).

Definition sql_inv (e : SqlEngine C) : Prop := sql_ok e /\ tb_next (tables e) <= Z.of_nat fuel.

Definition sql_state (e : SqlEngine C) (text : CommitId) : option KvState :=
  match parse_id text with
  | Ok id => if decide (is_Some (tb_parents (tables e) !! id)) then Some (state_of (tables e) id) else None
  | _ => None
  end.

Definition sql_now (e : SqlEngine C) : KvState :=
  match tip e with Some t => state_of (tables e) t | None => ∅ end.

Definition sql_room (e : SqlEngine C) : Z := Z.min (2 ^ 63) (Z.of_nat fuel) - tb_next (tables e).

Definition sql_accepts (puts : list KvPut) (msg : string) : Prop :=
  NoDup (put_key <$> puts) /\ Forall db_fits puts /\ db_text msg /\ db_text "main".

Lemma sql_state_inv e text m :
  sql_state e text = Some m <->
  exists id, parse_id text = Ok id /\ is_Some (tb_parents (tables e) !! id) /\ m = state_of (tables e) id.
Proof.
  unfold sql_state. destruct (parse_id text) as [id| | |]; [|naive_solver..]. case_decide; naive_solver.
Qed.

Lemma sql_view_inv e e' : sql_inv e -> sql_view e e' -> sql_inv e' /\ forall id, sql_state e' id = sql_state e id.
Proof.
  intros [_ Hf] (Hok & Ht & _). unfold sql_inv, sql_state. by rewrite Ht.
Qed.

Lemma sql_commit_law d e puts msg :
  sql_inv e -> 0 < sql_room e -> sql_accepts puts msg ->
  exists id e', SqlVcs.commit d None puts msg e = (Ok id, e') /\ sql_inv e' /\
    sql_room e - 1 <= sql_room e' /\ sql_now e' = put_all puts (sql_now e) /\
    (forall id m, sql_state e id = Some m -> sql_state e' id = Some m) /\
    sql_state e' id = Some (sql_now e').
Proof.
  intros [Hok Hf] Hroom (Hn & Hfits & Hmsg & Hmain). unfold sql_room in Hroom.
  pose proof Hok as (_ & Hg & Htip).
  pose proof (commit_run d None puts msg e (tip e) Hok eq_refl Htip Hmsg Hmain Hfits ltac:(lia)) as Hrun.
  cbv zeta in Hrun. destruct (SqlVcs.commit d None puts msg e) as [r e']. rewrite decide_True in Hrun by done.
  destruct Hrun as (Hok' & Hcom & -> & Htip' & Hops & _). pose proof Hok' as (_ & Hg' & _).
  pose proof (committed_extends _ _ _ (proj1 Hg) Hcom) as Hext.
  assert (tb_next (tables e') = tb_next (tables e) + 1) as Hnext by apply Hcom.
  assert (sql_now e' = put_all puts (sql_now e)) as Hnow.
  { unfold sql_now. rewrite Htip'. by apply committed_state. }
  exists (pretty (tb_next (tables e))), e'. split; [done|]. split; [split; [done|lia]|].
  unfold sql_room. split; [lia|]. split; [done|]. split.
  - intros id m (i & Hi & Hsome & ->)%sql_state_inv. apply sql_state_inv. exists i. split; [done|].
    rewrite (proj1 (Hext i Hsome)). split; [done|]. symmetry. by apply extends_state.
  - apply sql_state_inv. exists (tb_next (tables e)). split.
    { apply parse_id_pretty. destruct (proj1 Hg). lia. }
    rewrite (proj1 Hcom), lookup_insert_eq. split; [by eexists|]. unfold sql_now. by rewrite Htip'.
Qed.

Lemma sql_branch_law e name id :
  sql_inv e -> db_text name -> is_Some (sql_state e id) ->
  exists e', SqlVcs.branch name id e = (Ok tt, e') /\ sql_inv e' /\ forall i, sql_state e' i = sql_state e i.
Proof.
  intros [Hok Hf] Hname [m (i & Hi & Hsome & _)%sql_state_inv]. unfold SqlVcs.branch.
  rewrite (stM_bind_Ok _ _ e i e) by (unfold lift; by rewrite Hi).
  destruct (db_upsert_branch (conn e) name i (proj1 Hok) Hname Hsome) as (c & Hrun & Hc & Ht).
  eexists. split; [by apply on_conn_eq|]. set (e' := SqlVcs.set_conn c e).
  assert (tables e' = set_branch name i (tables e)) as Ht' by done.
  pose proof Hok as (_ & [_ Hg] & Htip).
  assert (graph_ok (tables e')) as Hg' by (split; [by apply db_keys|by rewrite Ht']).
  split; [split; [split_and!; [done|done|by rewrite Ht']|by rewrite Ht']|].
  intros text. unfold sql_state. by rewrite Ht'.
Qed.

Lemma sql_history_law e id depth :
  sql_inv e -> is_Some (sql_state e id) -> 0 < depth ->
  exists l e', SqlVcs.history id depth e = (Ok l, e') /\ l ≠ [] /\ sql_inv e' /\
    forall i, sql_state e' i = sql_state e i.
Proof.
  intros Hinv [m (i & Hi & Hsome & _)%sql_state_inv] Hd. unfold SqlVcs.history.
  rewrite (stM_bind_Ok _ _ e i e) by (unfold lift; by rewrite Hi).
  destruct (sql_walk_ok (Z.to_nat depth) i [] e (proj1 Hinv)) as (e' & -> & Hv). eexists _, e'.
  split; [done|]. split; [|by apply sql_view_inv].
  rewrite line_eq by apply Hinv. destruct (Z.to_nat depth) eqn:E; [lia|]. by case_match; [case_match|].
Qed.

Lemma sql_checkout_law d e id m :
  sql_inv e -> sql_state e id = Some m ->
  exists e', SqlVcs.checkout d fuel id e = (Ok m, e') /\ sql_inv e' /\
    forall i, sql_state e' i = sql_state e i.
Proof.
  intros Hinv (i & Hi & Hsome & ->)%sql_state_inv. unfold SqlVcs.checkout.
  rewrite (stM_bind_Ok _ _ e i e) by (unfold lift; by rewrite Hi). destruct Hinv as [Hok Hf].
  destruct (replay_ok d fuel i e Hok Hsome) as (e' & -> & Hv).
  { pose proof (proj1 (proj2 (proj1 (proj1 (proj2 Hok)))) i Hsome). lia. }
  exists e'. split; [done|]. by apply sql_view_inv.
Qed.

End engine.

(** ** The three backends

    Beside the tables, the size of the database must be reported. *)

#[refine, global] Instance sqlite_laws {C : Type} `{SqlLaws C, Sqlite C} (fuel : nat)
    (Hsize : forall c, exists n c', db_dir_size c = (Ok n, c')) :
    @BenchLaws (SqlEngine C) (SqliteEngine.sqlite_bench fuel) := {
  bl_inv := sql_inv fuel; bl_state := sql_state; bl_now := sql_now; bl_room := sql_room fuel;
  bl_accepts := sql_accepts; bl_names := db_text;
  bl_commit := sql_commit_law fuel SqliteDb;
  bl_branch := sql_branch_law fuel;
  bl_history := sql_history_law fuel;
  bl_checkout := sql_checkout_law fuel SqliteDb
}.
Proof.
  intros e _. cbn. unfold SqliteEngine.disk_bytes. set (e1 := (SqlVcs.on_conn wal_checkpoint e).2).
  destruct (Hsize (conn e1)) as (n & c & Hrun). by exists n, (SqlVcs.set_conn c e1); apply on_conn_eq.
Defined.

#[refine, global] Instance mysql_laws {C : Type} `{SqlLaws C, Mysql C} (fuel : nat)
    (Hsize : forall c, exists n c', table_bytes c = (Ok n, c')) :
    @BenchLaws (SqlEngine C) (MysqlEngine.mysql_bench fuel) := {
  bl_inv := sql_inv fuel; bl_state := sql_state; bl_now := sql_now; bl_room := sql_room fuel;
  bl_accepts := sql_accepts; bl_names := db_text;
  bl_commit := sql_commit_law fuel MysqlDb;
  bl_branch := sql_branch_law fuel;
  bl_history := sql_history_law fuel;
  bl_checkout := sql_checkout_law fuel MysqlDb
}.
Proof.
  intros e _. cbn. unfold MysqlEngine.disk_bytes. destruct (Hsize (conn e)) as (n & c & Hrun).
  rewrite (stM_bind_Ok _ _ _ _ _ (on_conn_eq _ _ _ _ Hrun)). by eexists _, _.
Defined.

#[refine, global] Instance postgres_laws {C : Type} `{SqlLaws C, Postgres C} (fuel : nat)
    (Hsize : forall c, exists n c', relation_bytes c = (Ok n, c')) :
    @BenchLaws (SqlEngine C) (PostgresEngine.postgres_bench fuel) := {
  bl_inv := sql_inv fuel; bl_state := sql_state; bl_now := sql_now; bl_room := sql_room fuel;
  bl_accepts := sql_accepts; bl_names := db_text;
  bl_commit := sql_commit_law fuel PostgresDb;
  bl_branch := sql_branch_law fuel;
  bl_history := sql_history_law fuel;
  bl_checkout := sql_checkout_law fuel PostgresDb
}.
Proof.
  intros e _. cbn. unfold PostgresEngine.disk_bytes. destruct (Hsize (conn e)) as (n & c & Hrun).
  rewrite (stM_bind_Ok _ _ _ _ _ (on_conn_eq _ _ _ _ Hrun)). by eexists _, _.
Defined.

(** ** A database in memory *)

Definition foreign_key {A} (id : option Z) (r : outcome string A * Tables) (t : Tables) :
    outcome string A * Tables :=
  match id with
  | Some p => if decide (is_Some (tb_parents t !! p)) then r else (Err "FOREIGN KEY constraint failed", t)
  | None => r
  end.

#[local] Instance mem_tables : SqlTables Tables := {
  create_tables _ := (Ok tt, mk_Tables ∅ ∅ ∅ 1);
  select_parent id t := (Ok (tb_parents t !! id), t);
  select_ops id t := (Ok (map_to_list (ops_of t id)), t);
  insert_commit parent _ _ t := foreign_key parent (Ok (tb_next t), add_commit parent t) t;
  insert_op id k v t :=
    foreign_key (Some id)
      (match ops_of t id !! k with
       | Some _ => (Err "UNIQUE constraint failed: commit_ops.commit_id, commit_ops.key", t)
       | None => (Ok tt, add_op id (mk_KvPut k v) t)
       end) t;
  upsert_branch name id t := foreign_key (Some id) (Ok tt, set_branch name id t) t
}.

#[local] Instance mem_sqlite : Sqlite Tables := {
  wal_checkpoint := mret tt; db_dir_size := mret 4096
}.

Lemma add_commit_keys parent t : keys_ok t -> keys_ok (add_commit parent t).
Proof.
  intros (Hpos & Hids & Hops). split; [cbn; lia|]. split; cbn.
  - intros id [<-|Hid]%lookup_insert_is_Some'; [lia|]. specialize (Hids id Hid). lia.
  - intros id Hid. apply lookup_insert_is_Some'. right. by apply Hops.
Qed.

Lemma add_op_keys id p t : keys_ok t -> is_Some (tb_parents t !! id) -> keys_ok (add_op id p t).
Proof.
  intros (Hpos & Hids & Hops) Hid. split_and!; try done.
  intros i Hi. cbn in Hi. apply lookup_insert_is_Some' in Hi as [<-|Hi]; [done|by apply Hops].
Qed.

#[refine, local] Instance mem_sql_laws : SqlLaws Tables := {
  db_ok := keys_ok; db_tables t := t; db_fits _ := True; db_text _ := True
}.
Proof.
  - done.
  - intros c. exists (mk_Tables ∅ ∅ ∅ 1). split; [done|]. split; [|done].
    split; [done|]. split; intros id [? Hid]; discriminate Hid.
  - intros c id Hc. by exists c.
  - intros c id Hc. by eexists _, c.
  - intros c parent msg ts Hc _ _ Hp. exists (add_commit parent c). split; [|by split; [apply add_commit_keys|]].
    cbn. destruct parent as [p|]; [|done]. cbn. by rewrite decide_True by auto.
  - intros c id k v Hc _ Hid Hk. exists (add_op id (mk_KvPut k v) c).
    split; [|by split; [apply add_op_keys|]]. cbn. by rewrite decide_True, Hk.
  - intros c id k v Hc _ Hid [v' Hk]. eexists _, c. split; [|done]. cbn. by rewrite decide_True, Hk.
  - intros c name id Hc _ Hid. exists (set_branch name id c). split; [|done]. cbn. by rewrite decide_True.
Defined.

Definition ex_engine : SqlEngine Tables := mk_SqlEngine (mk_Tables ∅ ∅ ∅ 1) None.
Definition ex_opts : BenchOpts := mk_BenchOpts Smoke Deep (Some 7) (Some 3) 16 2 2 2 3.

Lemma ex_engine_ok : sql_ok ex_engine.
Proof.
  destruct (db_create (mk_Tables ∅ ∅ ∅ 1)) as (c & [= <-] & Hc & _).
  split; [done|]. split; [split; [done|]|done]. intros id p Hid. discriminate Hid.
Qed.

Lemma ex_keys_distinct i :
  0 <= i < 7 -> NoDup (put_key <$> Workload.puts_of ex_opts (live_of ex_opts) 2 i).
Proof.
  intros Hi. assert (i ∈ seqZ 0 7) as Hin by (apply elem_of_seqZ; lia).
  clear Hi. revert i Hin. apply Forall_forall. apply (bool_decide_unpack _). vm_compute. exact I.
Qed.

Lemma bench_workload_accepts_witness :
  exists report s', @Workload.run_bench _ (SqliteEngine.sqlite_bench 20) ex_opts ex_engine = (Ok report, s') /\
    report_commits report = 7 /\ report_shape report = Deep.
Proof.
  assert (forall c : Tables, exists n c', db_dir_size c = (Ok n, c')) as Hsize by (intros c; by exists 4096, c).
  assert (sql_inv 20 ex_engine) as Hinv by (split; [apply ex_engine_ok|done]).
  assert (forall i, 0 <= i < 7 -> sql_accepts (Workload.puts_of ex_opts (live_of ex_opts) 2 i) "c") as Hacc.
  { intros i Hi. split; [by apply ex_keys_distinct|]. split; [by apply Forall_true|done]. }
  pose proof (@bench_workload_accepts _ _ (sqlite_laws 20 Hsize) ex_opts ex_engine Hinv eq_refl
    ltac:(done) Hacc ltac:(done) eq_refl eq_refl eq_refl eq_refl) as Hp.
  exact Hp.
Defined.

(** With more puts in a commit than live keys the workload puts a key twice in one commit,
    which a [commit_ops] with a primary key refuses: the run ends with an error. *)
Example deep_duplicate_puts :
  (@Workload.run_bench _ (SqliteEngine.sqlite_bench 20) (mk_BenchOpts Smoke Deep (Some 1) (Some 2) 16 3 1 1 1)
     ex_engine).1 = Err "UNIQUE constraint failed: commit_ops.commit_id, commit_ops.key".
Proof. vm_compute. reflexivity. Qed.

Definition ex_put (k v : string) : KvPut := mk_KvPut (str_bytes k) (str_bytes v).

Definition ex_sql_loaded : SqlEngine Tables :=
  (SqlVcs.commit SqliteDb (Some "1") [ex_put "a" "3"; ex_put "c" "4"] "two"
    (SqlVcs.commit SqliteDb None [ex_put "a" "1"; ex_put "b" "2"] "one" ex_engine).2).2.

Lemma ex_loaded_ok : sql_ok ex_sql_loaded.
Proof.
  unfold ex_sql_loaded. apply (commit_keeps _ _ _ _ _ (Some 1)); try done.
  - apply (commit_keeps _ _ _ _ _ None); try done; [apply ex_engine_ok|by apply Forall_true].
  - intros p [= <-]. vm_compute. by eexists.
  - by apply Forall_true.
Qed.

Lemma ex_loaded_state :
  state_of (tables ex_sql_loaded) 2 =
    <[str_bytes "a" := str_bytes "3"]> (<[str_bytes "b" := str_bytes "2"]>
      {[str_bytes "c" := str_bytes "4"]}).
Proof. apply (bool_decide_unpack _). vm_compute. exact I. Qed.

Lemma sql_commit_snapshot_witness :
  let puts := [ex_put "b" "5"] in
  let '(r, e') := SqlVcs.commit PostgresDb (Some "1") puts "three" ex_sql_loaded in
  sql_ok e' /\
  (forall i, is_Some (tb_parents (tables ex_sql_loaded) !! i) ->
    tb_parents (tables e') !! i = tb_parents (tables ex_sql_loaded) !! i /\
    state_of (tables e') i = state_of (tables ex_sql_loaded) i) /\
  if decide (NoDup (put_key <$> puts)) then
    r = Ok (pretty 3) /\ parse_id (pretty 3) = Ok 3 /\ tip e' = Some 3 /\
    tb_branches (tables e') = <["main" := 3]> (tb_branches (tables ex_sql_loaded)) /\
    tb_parents (tables ex_sql_loaded) !! 3 = None /\ tb_parents (tables e') !! 3 = Some (Some 1) /\
    state_of (tables e') 3 = put_all puts (state_of (tables ex_sql_loaded) 1)
  else (exists err, r = Err err) /\ tip e' = tip ex_sql_loaded /\
    tb_branches (tables e') = tb_branches (tables ex_sql_loaded).
Proof.
  assert (forall p, Some 1 = Some p -> is_Some (tb_parents (tables ex_sql_loaded) !! p)) as Hp.
  { intros p [= <-]. vm_compute. by eexists. }
  pose proof (sql_commit_snapshot PostgresDb (Some "1") [ex_put "b" "5"] "three" ex_sql_loaded (Some 1)
    ex_loaded_ok eq_refl Hp I I (Forall_true _ _ (fun _ => I)) eq_refl) as Hc.
  exact Hc.
Defined.

Lemma sql_checkout_replays_witness :
  exists e', sql_view ex_sql_loaded e' /\
    SqlVcs.checkout SqliteDb 3 "2" ex_sql_loaded =
      (Ok (<[str_bytes "a" := str_bytes "3"]> (<[str_bytes "b" := str_bytes "2"]>
         {[str_bytes "c" := str_bytes "4"]})), e').
Proof.
  assert (tb_next (tables ex_sql_loaded) <= Z.of_nat 3) as Hf by (vm_compute; discriminate).
  pose proof (sql_checkout_replays SqliteDb 3 "2" ex_sql_loaded ex_loaded_ok Hf) as (e' & Hv & Hrun).
  exists e'. split; [exact Hv|]. rewrite Hrun. change (parse_id "2") with (Ok (E:=string) 2).
  change (mbind ?f (Ok ?x)) with (f x). cbv beta.
  rewrite decide_True by (vm_compute; by eexists). by rewrite ex_loaded_state.
Defined.

Lemma sql_history_line_witness :
  exists e', sql_view ex_sql_loaded e' /\
    SqlVcs.history "2" 5 ex_sql_loaded = (Ok ["2"; "1"], e').
Proof.
  pose proof (sql_history_line "2" 5 ex_sql_loaded ex_loaded_ok) as (e' & Hv & Hrun).
  exists e'. split; [exact Hv|]. rewrite Hrun. apply (f_equal (fun r => (r, e'))). vm_compute. reflexivity.
Defined.
