(* ===== verification/BenchMain.v ===== *)
(** * The benchmark program ([epochs-bench/src/main.rs])

    [run] checks the arguments, runs the workload on every engine of the choice and collects
    the reports. clap has read the arguments; the connections to the databases are
    parameters, like the databases ([Sql]); what is printed is not modelled. *)

From Stdlib Require Import Strings.Byte Strings.String.
From S2P Require Import Prelude Hash Record CasStore CasStoreSpec Bench Sql SqlSpec.

Inductive EngineChoice :=
| ChoiceEpochs | ChoiceSqlite | ChoicePostgres | ChoiceMysql | Embedded | Docker | ChoiceAll.

(** [struct Cli], without the paths, the addresses and the interval of the progress line. *)
Record BenchCli := mk_BenchCli {
  cli_tier : string;
  cli_shape : string;
  cli_commits : option Z;
  cli_keys : option Z;
  cli_puts : Z;
  cli_engine : EngineChoice;
  cli_payload_bytes : Z;
  cli_history_depth : Z;
  cli_branches : Z;
  cli_samples : Z;
  cli_force : bool
}.

Module BenchMain.

Definition engines (choice : EngineChoice) : list string :=
  match choice with
  | ChoiceEpochs => ["epochs"]
  | ChoiceSqlite => ["sqlite"]
  | ChoicePostgres => ["postgres"]
  | ChoiceMysql => ["mysql"]
  | Embedded => ["epochs"; "sqlite"]
  | Docker => ["postgres"; "mysql"]
  | ChoiceAll => ["epochs"; "sqlite"; "postgres"; "mysql"]
  end.

(** The two guards on large runs. *)
Definition check_force (cli : BenchCli) (tier : Tier) : outcome string unit :=
  if requires_force tier && negb (cli_force cli) then
    Err ("tier '" +:+ Tier_name tier +:+ "' ≈ " +:+ u64_text (commits tier) +:+ " commits × " +:+
         u64_text (live_keys tier) +:+ " keys — pass --force")
  else
    match cli_commits cli with
    | Some n =>
        if (50000000 <=? n) && negb (cli_force cli) then
          Err ("--commits " +:+ u64_text n +:+ " is huge — pass --force")
        else Ok tt
    | None => Ok tt
    end.

Definition opts_of (cli : BenchCli) (tier : Tier) (shape : Shape) : BenchOpts :=
  mk_BenchOpts tier shape (cli_commits cli) (cli_keys cli) (cli_payload_bytes cli) (cli_puts cli)
    (cli_history_depth cli) (cli_branches cli) (cli_samples cli).

Section main.
Context `{Blake3, MmapLib} (fuel : nat) (now : Z).
Context {S M P : Type} `{SqlTables S, Sqlite S, SqlTables M, Mysql M, SqlTables P, Postgres P}.
Context (connect_sqlite : outcome string S) (connect_mysql : outcome string M)
  (connect_postgres : outcome string P).

Definition run_engine (opts : BenchOpts) (name : string) : outcome string BenchReport :=
  if String.eqb name "epochs" then
    store ← BenchEngine.open_store now;
    (@Workload.run_bench _ (BenchEngine.epochs_bench fuel) opts store).1
  else if String.eqb name "sqlite" then
    c ← connect_sqlite;
    store ← SqliteEngine.open c;
    (@Workload.run_bench _ (SqliteEngine.sqlite_bench fuel) opts store).1
  else if String.eqb name "postgres" then
    c ← connect_postgres;
    store ← PostgresEngine.open c;
    (@Workload.run_bench _ (PostgresEngine.postgres_bench fuel) opts store).1
  else if String.eqb name "mysql" then
    c ← connect_mysql;
    store ← MysqlEngine.open c;
    (@Workload.run_bench _ (MysqlEngine.mysql_bench fuel) opts store).1
  else Panic.

Fixpoint run_all (opts : BenchOpts) (names : list string) (reports : list BenchReport) :
    outcome string (list BenchReport) :=
  match names with
  | [] => Ok reports
  | name :: names =>
      report ← run_engine opts name;
      run_all opts names (reports ++ [report])
  end.

Definition run (cli : BenchCli) : outcome string (list BenchReport) :=
  tier ← Tier_parse (cli_tier cli);
  shape ← Shape_parse (cli_shape cli);
  _ ← check_force cli tier;
  run_all (opts_of cli tier shape) (engines (cli_engine cli)) [].

(** ** What a run returns *)

Definition report_of (opts : BenchOpts) (name : string) (r : BenchReport) : Prop :=
  report_engine r = name /\ report_tier r = Tier_name (tier opts) /\ report_shape r = shape opts /\
  report_commits r = default (commits (tier opts)) (commits_override opts) /\ report_commits r ≠ 0.

Lemma run_bench_report {B} `{VcsBench B} opts (s : B) r :
  (Workload.run_bench opts s).1 = Ok r -> report_of opts bench_name r.
Proof.
  unfold Workload.run_bench. case_match eqn:En; [done|]. cbv zeta.
  match goal with |- (?m s).1 = _ -> _ => destruct (m s) as [r0 s'] eqn:Hrun end.
  cbn [fst]. intros ->. apply stM_bind_inv in Hrun as ([kept tip] & s1 & _ & Hrun).
  destruct tip as [tip|]; [|done]. run_inv Hrun. injection Hrun as <- _.
  split_and!; try done. cbn. lia.
Qed.

Lemma run_engine_report opts name r :
  run_engine opts name = Ok r -> report_of opts name r.
Proof.
  unfold run_engine. repeat (case_match eqn:E; [apply String.eqb_eq in E; subst name|clear E]); [..|done].
  all: repeat match goal with |- (?m ≫= _) = Ok _ -> _ => destruct m; try done; cbn [mbind outcome_bind] end.
  all: intros Hr; match type of Hr with (@Workload.run_bench ?B ?I ?o ?s).1 = _ =>
         exact (@run_bench_report B I o s r Hr) end.
Qed.

Lemma run_all_reports opts names reports reports' :
  run_all opts names reports = Ok reports' ->
  exists new, reports' = reports ++ new /\ Forall2 (report_of opts) names new.
Proof.
  revert reports. induction names as [|name names IH]; intros reports; cbn [run_all].
  - intros [= <-]. exists []. split; [by rewrite app_nil_r|constructor].
  - intros (r & Hr & (new & -> & Hnew)%IH)%outcome_bind_Ok. exists (r :: new).
    rewrite <- (assoc_L (++)). split; [done|]. constructor; [by eapply run_engine_report|done].
Qed.

(** A run of the benchmark reports what it was asked for. Reports come only for a known
    tier and shape, for a large run only with [--force], and then there is one for each
    engine of the choice, in order, with the number of commits that the arguments set. *)
Theorem bench_run_reports cli reports :
  run cli = Ok reports ->
  exists t s,
    to_ascii_lowercase (cli_tier cli) = Tier_name t /\
    to_ascii_lowercase (cli_shape cli) = Shape_as_str s /\
    (cli_force cli = true \/ t ≠ Heavy /\ default 0 (cli_commits cli) < 50000000) /\
    Forall2 (report_of (opts_of cli t s)) (engines (cli_engine cli)) reports.
Proof.
  unfold run. intros (t & Ht & (s & Hs & ([] & Hf & Hrun)%outcome_bind_Ok)%outcome_bind_Ok)%outcome_bind_Ok.
  apply run_all_reports in Hrun as (new & -> & Hnew). exists t, s. split_and!; [..|done].
  - unfold Tier_parse in Ht. repeat (case_match eqn:E; [apply String.eqb_eq in E; by injection Ht as <-|clear E]).
    done.
  - unfold Shape_parse in Hs. repeat (case_match eqn:E; [apply String.eqb_eq in E; by injection Hs as <-|clear E]).
    done.
  - unfold check_force in Hf. destruct (cli_force cli); [by left|right].
    destruct t, (cli_commits cli) as [n|]; cbn [requires_force negb andb default] in Hf |- *; try done;
      rewrite andb_true_r in Hf; destruct (50000000 <=? n) eqn:E; try done;
      (split; [done|by apply Z.leb_gt in E]).
Qed.

End main.
End BenchMain.

Section witnesses.
#[local] Existing Instances toy_hash id_mmap mem_tables mem_sqlite.
#[local] Instance ex_mysql : Mysql Tables := {| table_bytes := mret None |}.
#[local] Instance ex_postgres : Postgres Tables := {| relation_bytes := mret 8192 |}.

Definition ex_cli : BenchCli :=
  mk_BenchCli "Smoke" "wide" (Some 4) None 2 Docker 16 3 2 2 false.

Definition ex_run : outcome string (list BenchReport) :=
  BenchMain.run 20 1000 (Ok (mk_Tables ∅ ∅ ∅ 1)) (Ok (mk_Tables ∅ ∅ ∅ 1)) (Ok (mk_Tables ∅ ∅ ∅ 1)) ex_cli.

Lemma ex_run_ok :
  ex_run = Ok [mk_BenchReport "postgres" "smoke" Wide 4 4 8192; mk_BenchReport "mysql" "smoke" Wide 4 4 0].
Proof. vm_compute. reflexivity. Qed.

Lemma bench_run_reports_witness :
  exists t s,
    to_ascii_lowercase (cli_tier ex_cli) = Tier_name t /\
    to_ascii_lowercase (cli_shape ex_cli) = Shape_as_str s /\
    (cli_force ex_cli = true \/ t ≠ Heavy /\ default 0 (cli_commits ex_cli) < 50000000) /\
    Forall2 (BenchMain.report_of (BenchMain.opts_of ex_cli t s)) (BenchMain.engines (cli_engine ex_cli))
      [mk_BenchReport "postgres" "smoke" Wide 4 4 8192; mk_BenchReport "mysql" "smoke" Wide 4 4 0].
Proof.
  pose proof (BenchMain.bench_run_reports 20 1000 _ _ _ ex_cli _ ex_run_ok) as Hp.
  exact Hp.
Defined.

End witnesses.
